(* ===== verification/_CoqProject ===== *)
-Q . S2P
Prelude.v
Joinable.v
Shutdown.v
Addr.v
AddressBook.v
AddrTable.v
AddrIo.v
Messages.v
Kernel.v
Convert.v
Download.v
Peer.v
PeerSystem.v
Critical.v
Handshake.v
Connection.v
Fs.v
Wallet.v
WalletStore.v
WalletTyped.v
KeysFile.v
Scan.v
Sending.v
Socks5.v
Service.v
Manager.v
BlockThread.v
Outbound.v
Book.v
Process.v
Text.v
Paths.v
Config.v
Display.v
Ipc.v
Cli.v
Wizard.v
Terminal.v
Daemon.v
Accept.v
Main.v
PeerTests.v
P2pTests.v
BookTests.v
WalletTests.v
SendTests.v
OnionTests.v
