(* ===== verification/Prelude.v ===== *)
(** * kernel-node: a verification development

    kernel-node is a Bitcoin node around the block validation kernel
    ([bitcoinkernel]): peers are found through an address book, each connection
    runs on a thread of its own, blocks are fetched from all peers through one
    shared download state and handed to the kernel by a block thread, and a
    silent payments wallet scans what the kernel connects. This library models
    the node's own logic as executable definitions, translated from the Rust
    sources, and proves what makes it correct.

    ** Parts, files and sources

    - [Prelude] (this file): what the components share and what the sources use
      of the Rust language and standard library: outcomes of fallible code
      ([Ok], [Err], [Panic] with the [?] operator as monadic bind), wrapping and
      saturating machine integers, little- and big-endian bytes, slices, exact
      reads, durations in nanoseconds; and generic lemmas.
    - The address book, [crates/address-book/src]. [Addr]: addresses and the
      hasher. [AddressBook]: [Record] with its encoding (lib.rs). [AddrTable]:
      [Table<B, S, W>] and [Bucket<S>] with the const generics as section
      variables (lib.rs). [AddrIo]: the file format (io.rs).
    - Block download, [src/net/peer.rs]. [Messages]: the messages the program
      builds and matches, and crates/p2p/src/validation.rs. [Kernel]: the
      validation kernel as a class of operations ([Kernel]) with its documented
      facts ([KernelLaws]) and a small block tree that satisfies them ([Demo]).
      [Download]: [DownloadState], the queue, the blocks in flight and the
      buffer. [Peer]: locators, the download queue, [PeerStateMachine] with
      [process_message], and [BitcoinPeer]. [PeerSystem]: all connections and
      the block thread on one download state, as a step relation. [Critical]:
      the same message handler cut at every access to what it shares, with all
      interleavings of the pieces. [Convert]: blocks, headers and hashes between
      the [bitcoin] and [bitcoinkernel] crates (src/ext.rs).
    - Connections, [crates/p2p/src]. [Handshake]: [ConnectionConfig] and version
      negotiation (handshake.rs). [Connection]: the v1 transport, the handshake
      over a stream, the reader's metrics and the writer thread's pings (net.rs,
      lib.rs).
    - The wallet, [crates/wallet/src/silentpayments]. [Wallet]: coins, scanning
      and rollback (wallet.rs, scanning.rs, mod.rs). [WalletStore]: the wallet
      file and its atomic save (wallet_store.rs); [WalletTyped]: scanned and
      loaded coins fit the file. [KeysFile]: the keys file (keys_file.rs).
      [Sending]: recipients, coin selection and transactions (sending.rs).
    - [Socks5]: the Tor proxy client and onion names (src/net/socks5.rs).
    - [Fs]: files and the replacement of a file through a temporary one.
    - The threads of the node. [Shutdown]: [FatalShutdown] (src/lib.rs).
      [Manager]: the peer threads, their shared state and [stop]
      (src/net/manager.rs). [BlockThread]: the block thread (src/bin/node.rs).
      [Outbound]: dialling directly or through the proxy, feelers and
      transaction broadcast (src/net/manager.rs), and the address table at
      start, on disk and under gossip (src/net/addr.rs, [run] of
      src/bin/node.rs). [Book]: the address, feeler and flush threads around
      that table. [Scan]: the start of the wallet, the kernel's callbacks and
      the scan thread (src/bin/node.rs). [Service]: payments and the broadcast
      thread (src/ipc/wallet.rs, src/bin/node.rs). [Joinable]: what a group of
      threads promises to the one that joins it, closed under putting groups
      side by side. [Process]: [run] of src/bin/node.rs, all threads together
      with the main one. [Accept]: the thread that accepts clients and waits for
      Ctrl-C ([main]). [Main]: [main] of src/bin/node.rs, with every early
      return, exit and panic, up to the call of [run].
    - Text and configuration. [Text]: strings as lists of code points, with the
      operations of the standard library the sources use. [Paths]: [~] and the
      data directory (src/ext.rs). [Config]: networks, ports, DNS seeds
      (src/ext.rs, crates/p2p/src/dns.rs, src/net/addr.rs) and the values of
      --connect and --proxy (src/bin/node.rs). [Display]: what errors, addresses
      and the kernel's log lines look like.
    - Clients. [Ipc]: every remote call and the texts it answers with (src/ipc).
      [Cli]: the command line client (src/bin/cli.rs). [Wizard]: the dialogue
      that composes a command line, with a model of how a POSIX shell reads it
      back, and [Terminal]: its menu on the screen and the settings of the
      terminal (src/bin/wizard.rs). [Daemon]: detaching (src/daemonize.rs).
    - The unit tests of the sources, run on the model: [PeerTests] (peer.rs),
      [P2pTests] (handshake.rs and lib.rs of crates/p2p), [BookTests]
      (crates/address-book), [WalletTests] (wallet_store.rs, keys_file.rs),
      [SendTests] (sending.rs) and [OnionTests] (socks5.rs, with SHA3-256
      written out). A test is a function of what it leaves to chance (the order
      of a hash map, the clock, random records, keys), and passes for all of it.

    They interact as in the code: [Peer] calls [Download] and [Kernel] and sends
    [Messages]; [PeerSystem] composes [Peer] and [Download], and [Manager]
    implements it with threads; [Connection] runs [Handshake] over the
    transport, and [Outbound] both over [Socks5]; [WalletStore] and [Sending]
    work on the state of [Wallet], and [Service] on both sides of the queue
    between them and [Outbound]; [Ipc] calls [Service], [Wallet] and [Shutdown],
    and [Cli] calls [Ipc]. [Manager] with [BlockThread], [Book], [Scan] and
    [Service] each discharge the interface [JoinableLaws], against which
    [Process] is proved.

    ** Conventions

    Code outside the repository is a class of operations with a class of laws:
    the kernel, the [bitcoin] crate's serialization ([Wire]), [secp256k1] and
    [silentpayments] ([SilentPayments], [Spending]), the coin selector, hashing.
    Every law has an instance on which the concrete runs of the file (its
    [Witness] or [Demo] module) are computed. The clock, random numbers, the
    iteration order of a [HashMap] or [HashSet] and the shuffles of a transaction
    are arguments, and theorems quantify over them. Arithmetic is that of a
    release build: it wraps.

    Threads. The message handler takes the download mutex several times; what
    the other threads do to the download state at those points is the argument
    [other] of [Peer.process_message] (its [site]s), and the theorems of [Peer]
    hold for all of it. In [PeerSystem] a step is a whole handler, the release
    of a dropped connection or one turn of the block thread, and any number of
    peers interleave these steps in any order. [Manager] splits the threads at
    every access to state they share (the set of connected peers, the writer
    slots, the running flag, the table) and interleaves them with [stop], again
    with whole handlers, and is proved to refine [PeerSystem]. [Book], [Scan] and
    [Service] treat their threads in the same way. In each of these files what
    the threads of the others do to its state (table operations, signals,
    reservations) is a step of the surroundings that can happen at any time; so
    in [Process], where they stand side by side, every run of the node projects
    to a run of each. In [Peer], [PeerSystem] and [Manager] the kernel is taken
    to stay the same during one handler; [Critical] lifts this: there a step is
    one access of a handler, between any two of which the other threads may
    change the kernel and the download state.

    ** What the theorems show

    - Download. No two batches share a block, a dropped peer's blocks are
      queued again, the block thread hands parents over first and empties the
      buffer when nothing is outstanding ([Download]). Locators are bounded and
      reach the genesis block, the queue is the missing part of the best chain,
      and the handler refines the protocol given as [Peer.transition], without
      panicking ([Peer]). In every run of the system no block in flight is
      without a connection that owes it, peers that deliver what they were asked
      for are never asked for the same block, and no block is forgotten as long
      as no two children of one block are held at once ([PeerSystem]; the buffer
      keeps one child per parent). The same holds when handlers interleave at
      every access, and left alone the pieces of a handler compose to it
      ([Critical]). Blocks keep their hash and bytes when converted ([Convert]).
    - Threads. The manager's threads implement that system; no two of them are
      connected to one destination; they do not panic; [stop] leaves no thread
      waiting on a connection that was not shut down, and every thread then ends
      within eight turns and gives everything back; on an empty address book a
      thread gives up after a minute ([Manager]). After a shutdown signal the
      whole node comes to its end: no deadlock, a bounded number of turns, no
      join that panics, nothing held at the exit ([Process]). This holds of every
      node [main] starts, whatever its options and files; such a node has
      well-typed addresses, table and wallet, and the wallet of its directory or
      an empty one when there is none ([Main]). While clients are accepted Ctrl-C
      stops the node ([Accept]).
    - Address book. The table implements a finite map, one source reaches at
      most [W] buckets, [select] is total, records and tables survive the file,
      damaged files are rejected; gossip never displaces a record, and a save
      that is cut off leaves the old table or the new one ([Outbound]). Whenever
      the node is stopped the peers file loads as a table it held, and an orderly
      shutdown of a node started without --connect saves what was learnt unless
      the disk fails ([Book]). With --connect the table holds the
      given addresses and no others ([Config]).
    - Connections. Framing is lossless and a message cut off is an error, the
      handshake succeeds exactly for the streams described, and always ends; at
      most one of the writer thread's own pings is outstanding.
    - Wallet. Disconnecting a block undoes its scan, the history adds up to the
      balance, the wallet and keys files read back, a save interrupted anywhere
      leaves the old file or the new one, and a built transaction spends
      distinct unreserved coins of the wallet, signed by their keys, and pays what
      was asked to the recipient's address or to the key derived for its code, and
      the change to the wallet's own ([Sending]). A broadcast sends a peer the
      transaction and then a ping, and is reported as done only when the pong came
      back ([Outbound]); the payments of a node never share a coin, as long as raw
      transactions stay off the coins of payments ([Service]).
      Whenever the node is stopped, also in the middle of a save, it finds a
      wallet it held; the wallet applies the blocks the kernel reports to it, once
      and in order (a wallet without keys is not told of connected blocks);
      scanning never panics and failures end the node ([Scan]).
    - Clients. The history text determines the entries ([Ipc]), exit codes are
      true and generated keys reach the node in both ways ([Cli]); the menu stays
      within its options, draws over nothing but itself and restores the terminal
      ([Terminal]), the dialogue ends, and a shell reads the displayed command
      line as the arguments that are run, but for tildes shown unquoted ([Wizard]); a daemon is detached, its pid
      file names it ([Daemon]), and it is in the directory of its data when the
      path is absolute ([Main]). Different errors of the wallet file are displayed
      differently ([Display]).
    - Socks5. The base32 encoder's register never loses bits, onion names are
      injective in the key, and the exchange succeeds exactly for an accepting
      proxy.

    ** Fuel

    Recursion that is not structural carries fuel, and the theorems show it is
    enough: [Peer.locator_loop] runs at most 101 times, the source's own bound
    on the locator; [Peer.fork_walk] takes one step back per unit of height;
    [Connection.negotiation_loop] at most once per byte of the stream, as each
    turn reads a header; [Socks5.emit] at most once per bit held;
    [Text.digits_of] at most once per bit of the number. The loops of the threads
    are step relations without fuel.

    ** What is not modelled

    Code that is generated or belongs to libraries: reading command lines and
    configuration files ([configure_me], [clap]), the encoding of remote calls
    ([capnp]), the async runtime ([tokio]), the kernel. Logging, apart from the
    lines the kernel's callback makes. Of the unit tests, those about the
    preferences of the coin selector and the verification of signatures
    (sending.rs), which belong to other crates, and the one that fills a table
    with random records until every slot is taken; the integration tests under
    tests/, which run the node beside a Bitcoin Core process. *)

From stdpp Require Export base list gmap fin_maps sets strings sorting.
From Stdlib Require Export ZArith Lia.

#[global] Set Default Goal Selector "!".
#[global] Open Scope Z_scope.

(** ** Scopes, hint databases *)

Declare Scope node_scope.
Delimit Scope node_scope with node.

(** [bytes]: rewriting of lengths, slices and splices of byte buffers. *)
Create Rewrite HintDb bytes.
(** [ranges]: goals [0 <= x < 2 ^ w] about decoded integers. *)
Create HintDb ranges discriminated.

(** ** Outcomes of Rust computations

    A Rust function that returns [Result<A, E>] and may also panic is modelled
    by a function into [outcome E A]. *)

Inductive outcome (E A : Type) : Type :=
| Ok (a : A)
| Err (e : E)
| Panic.
Arguments Ok {_ _} _.
Arguments Err {_ _} _.
Arguments Panic {_ _}.

#[global] Instance outcome_ret E : MRet (outcome E) := λ A a, Ok a.
(** The [?] operator: errors and panics short-circuit. *)
#[global] Instance outcome_bind E : MBind (outcome E) := λ A B f m,
  match m with
  | Ok a => f a
  | Err e => Err e
  | Panic => Panic
  end.
#[global] Instance outcome_fmap E : FMap (outcome E) := λ A B f m,
  match m with
  | Ok a => Ok (f a)
  | Err e => Err e
  | Panic => Panic
  end.

(** [Result::map_err], and the [From] conversions the [?] operator inserts. *)
Definition map_err {E F A} (f : E → F) (m : outcome E A) : outcome F A :=
  match m with
  | Ok a => Ok a
  | Err e => Err (f e)
  | Panic => Panic
  end.

(** [Option::ok_or]. *)
Definition ok_or {E A} (o : option A) (e : E) : outcome E A :=
  match o with Some a => Ok a | None => Err e end.

(** An option whose [None] stands for a panic ([expect], slice indexing). *)
Definition or_panic {E A} (o : option A) : outcome E A :=
  match o with Some a => Ok a | None => Panic end.

Definition is_ok {E A} (m : outcome E A) : bool :=
  match m with Ok _ => true | _ => false end.
Definition is_err {E A} (m : outcome E A) : bool :=
  match m with Err _ => true | _ => false end.

Lemma bind_Ok {E A B} (f : A → outcome E B) (m : outcome E A) (b : B) :
  m ≫= f = Ok b ↔ ∃ a, m = Ok a ∧ f a = Ok b.
Proof.
  destruct m as [a| |]; cbn [mbind outcome_bind]; (split; [|intros (?&?&?)]);
    try congruence; eauto.
Qed.

Lemma fmap_Ok {E A B} (f : A → B) (m : outcome E A) (b : B) :
  f <$> m = Ok b ↔ ∃ a, m = Ok a ∧ b = f a.
Proof.
  destruct m as [a| |]; cbn [fmap outcome_fmap]; (split; [|intros (?&?&?)]);
    try congruence; intros; simplify_eq; eauto.
Qed.

Lemma or_panic_Ok {E A} (o : option A) (a : A) :
  or_panic (E:=E) o = Ok a ↔ o = Some a.
Proof. destruct o; simpl; naive_solver. Qed.

(** [simpl_outcome] exposes the binds of a chain whose scrutinees are known. *)
Ltac simpl_outcome :=
  repeat first
    [ progress unfold mret, outcome_ret
    | progress cbn [mbind outcome_bind fmap outcome_fmap map_err ok_or or_panic] ].

(** [inv_outcome H] decomposes [H : m ≫= f = Ok b] down the chain of binds. *)
Ltac inv_outcome H :=
  lazymatch type of H with
  | _ ≫= _ = Ok _ =>
      let H1 := fresh "H" in let H2 := fresh "H" in let x := fresh "x" in
      apply bind_Ok in H as (x & H1 & H2); inv_outcome H2
  | _ <$> _ = Ok _ =>
      let H1 := fresh "H" in let x := fresh "x" in
      apply fmap_Ok in H as (x & H1 & ->)
  | _ => idtac
  end.

(** ** Machine integers *)

Definition u_max (w : Z) : Z := 2 ^ w - 1.
(** Wrap-around of an unsigned [w]-bit integer ([as uN], wrapping operators). *)
Definition wrap_u (w z : Z) : Z := z mod 2 ^ w.
(** Wrap-around of a signed [w]-bit integer. *)
Definition wrap_i (w z : Z) : Z :=
  let m := z mod 2 ^ w in if decide (m < 2 ^ (w - 1)) then m else m - 2 ^ w.
(** [uN::saturating_add] and [saturating_sub]. *)
Definition saturating_add (w a b : Z) : Z := Z.min (a + b) (u_max w).
Definition saturating_sub (a b : Z) : Z := Z.max (a - b) 0.

Definition in_u (w z : Z) : Prop := 0 ≤ z < 2 ^ w.
Definition in_i (w z : Z) : Prop := - 2 ^ (w - 1) ≤ z < 2 ^ (w - 1).
#[global] Instance in_u_dec w z : Decision (in_u w z).
Proof. unfold in_u. apply _. Defined.
#[global] Instance in_i_dec w z : Decision (in_i w z).
Proof. unfold in_i. apply _. Defined.

Lemma wrap_u_small w z : in_u w z → wrap_u w z = z.
Proof. apply Z.mod_small. Qed.

Lemma wrap_u_range w z : 0 ≤ w → in_u w (wrap_u w z).
Proof. intros. apply Z.mod_pos_bound. lia. Qed.

Lemma wrap_i_small w z : 0 < w → in_i w z → wrap_i w z = z.
Proof.
  unfold wrap_i, in_i. intros Hw Hz.
  assert (2 ^ w = 2 * 2 ^ (w - 1)) as Hp.
  { rewrite <- Z.pow_succ_r by lia. f_equal. lia. }
  destruct (decide (0 ≤ z)).
  - rewrite Z.mod_small by lia. case_decide; lia.
  - assert (z mod 2 ^ w = z + 2 ^ w) as ->.
    { rewrite <- (Z.mod_add z 1) by lia. rewrite Z.mod_small; lia. }
    case_decide; lia.
Qed.

Lemma wrap_i_sub w z : 0 ≤ w → wrap_i w (z - 2 ^ w) = wrap_i w z.
Proof.
  intros. unfold wrap_i. assert ((z - 2 ^ w) mod 2 ^ w = z mod 2 ^ w) as ->; [|done].
  rewrite <- (Z.mod_add (z - 2 ^ w) 1) by lia. f_equal. lia.
Qed.

Lemma saturating_add_range w a b :
  0 ≤ w → 0 ≤ a → 0 ≤ b → in_u w (saturating_add w a b).
Proof.
  unfold in_u, saturating_add, u_max. intros.
  assert (0 < 2 ^ w) by (apply Z.pow_pos_nonneg; lia). lia.
Qed.

Lemma saturating_add_exact w a b :
  a + b ≤ u_max w → saturating_add w a b = a + b.
Proof. unfold saturating_add. lia. Qed.

(** ** Bytes and fixed-width encodings

    A [u8] is a [Z] in [0, 256); [[u8; n]] and [Vec<u8>] are lists of them. *)

Definition bytes_ok (l : list Z) : Prop := Forall (in_u 8) l.
(** [[u8; n]]: the type invariant of a byte array. *)
Definition array_ok (n : nat) (l : list Z) : Prop := length l = n ∧ bytes_ok l.
#[global] Instance bytes_ok_dec l : Decision (bytes_ok l).
Proof. unfold bytes_ok. apply _. Defined.
#[global] Instance array_ok_dec n l : Decision (array_ok n l).
Proof. unfold array_ok. apply _. Defined.

(** [to_le_bytes] of an [8 n]-bit integer. *)
Fixpoint to_le_bytes (n : nat) (z : Z) : list Z :=
  match n with
  | O => []
  | S n => z mod 256 :: to_le_bytes n (z / 256)
  end.

(** [from_le_bytes]. *)
Fixpoint from_le_bytes (l : list Z) : Z :=
  match l with
  | [] => 0
  | b :: l => b + 256 * from_le_bytes l
  end.

Definition to_be_bytes (n : nat) (z : Z) : list Z := reverse (to_le_bytes n z).
Definition from_be_bytes (l : list Z) : Z := from_le_bytes (reverse l).

Lemma length_to_le_bytes n z : length (to_le_bytes n z) = n.
Proof. revert z. induction n; intros; simpl; [done|]. by rewrite IHn. Qed.

Lemma length_to_be_bytes n z : length (to_be_bytes n z) = n.
Proof. unfold to_be_bytes. by rewrite length_reverse, length_to_le_bytes. Qed.

Lemma to_le_bytes_ok n z : bytes_ok (to_le_bytes n z).
Proof.
  revert z. induction n; intros; simpl; constructor; [|apply IHn].
  apply Z.mod_pos_bound. lia.
Qed.

Lemma from_le_bytes_range l :
  bytes_ok l → 0 ≤ from_le_bytes l < 2 ^ (8 * Z.of_nat (length l)).
Proof.
  induction 1 as [|b l Hb Hl IH]; simpl; [lia|].
  unfold in_u in Hb. change (2 ^ 8) with 256 in Hb.
  replace (8 * Z.of_nat (S (length l))) with (8 + 8 * Z.of_nat (length l)) by lia.
  rewrite Z.pow_add_r by lia. change (2 ^ 8) with 256. lia.
Qed.

Lemma from_to_le_bytes_mod n z :
  from_le_bytes (to_le_bytes n z) = z mod 2 ^ (8 * Z.of_nat n).
Proof.
  revert z. induction n as [|n IH]; intros z.
  - simpl. by rewrite Z.mod_1_r.
  - cbn [to_le_bytes from_le_bytes]. rewrite IH.
    replace (8 * Z.of_nat (S n)) with (8 + 8 * Z.of_nat n) by lia.
    rewrite Z.pow_add_r by lia. change (2 ^ 8) with 256.
    rewrite Z.rem_mul_r; [done|lia|lia].
Qed.

Lemma from_to_le_bytes n z :
  in_u (8 * Z.of_nat n) z → from_le_bytes (to_le_bytes n z) = z.
Proof. intros. rewrite from_to_le_bytes_mod. by apply Z.mod_small. Qed.

Lemma to_from_le_bytes l :
  bytes_ok l → to_le_bytes (length l) (from_le_bytes l) = l.
Proof.
  induction 1 as [|b l Hb Hl IH]; cbn [length to_le_bytes from_le_bytes]; [done|].
  unfold in_u in Hb. change (2 ^ 8) with 256 in Hb.
  rewrite (Z.mul_comm 256). f_equal.
  - rewrite Z.mod_add by lia. by apply Z.mod_small.
  - rewrite Z.div_add by lia. by rewrite Z.div_small.
Qed.

Lemma from_to_be_bytes n z :
  in_u (8 * Z.of_nat n) z → from_be_bytes (to_be_bytes n z) = z.
Proof.
  intros. unfold from_be_bytes, to_be_bytes. rewrite reverse_involutive. by apply from_to_le_bytes.
Qed.

Lemma from_le_bytes_inj l k :
  bytes_ok l → bytes_ok k → length l = length k →
  from_le_bytes l = from_le_bytes k → l = k.
Proof.
  intros Hl Hk Hlen Heq.
  rewrite <- (to_from_le_bytes l), <- (to_from_le_bytes k) by done. congruence.
Qed.

#[export] Hint Rewrite length_to_le_bytes length_to_be_bytes @length_app
  @length_take @length_drop @length_replicate @length_reverse @length_cons @length_nil : bytes.
#[export] Hint Resolve to_le_bytes_ok : ranges.

(** ** Slices of buffers *)

(** [buf[off .. off + n]]. *)
Definition slice (off n : nat) (buf : list Z) : list Z := take n (drop off buf).

(** [buf[off .. off + src.len()].copy_from_slice(src)] and, for a one byte
    [src], [buf[off] = b]; the callers keep the range inside [buf]. *)
Definition splice (off : nat) (src buf : list Z) : list Z :=
  take off buf ++ src ++ drop (off + length src) buf.

Lemma length_splice off src buf :
  (off + length src ≤ length buf)%nat → length (splice off src buf) = length buf.
Proof. unfold splice. intros. autorewrite with bytes. lia. Qed.

Lemma length_slice off n buf :
  (off + n ≤ length buf)%nat → length (slice off n buf) = n.
Proof. unfold slice. intros. autorewrite with bytes. lia. Qed.

Lemma slice_splice_same off n src buf :
  length src = n → (off + n ≤ length buf)%nat → slice off n (splice off src buf) = src.
Proof.
  intros <- H. unfold slice, splice.
  rewrite drop_app_length' by (autorewrite with bytes; lia).
  by rewrite take_app_length.
Qed.

Lemma slice_splice_other off n off' src buf :
  (off + length src ≤ length buf)%nat →
  (off' + n ≤ off)%nat ∨ (off + length src ≤ off')%nat →
  slice off' n (splice off src buf) = slice off' n buf.
Proof.
  intros Hl Hd. unfold slice, splice. apply list_eq. intros i.
  destruct (decide (i < n)%nat) as [Hi|Hi].
  2: { rewrite !lookup_take_ge by lia. done. }
  rewrite !lookup_take_lt, !lookup_drop by lia.
  destruct Hd as [Hd|Hd].
  - rewrite lookup_app_l by (rewrite length_take; lia).
    by rewrite lookup_take_lt by lia.
  - rewrite lookup_app_r by (rewrite length_take; lia).
    rewrite length_take, Nat.min_l by lia.
    rewrite lookup_app_r by lia. rewrite lookup_drop. f_equal. lia.
Qed.

(** Writing into the zeros after [pre]. *)
Lemma splice_fill pre off src n :
  (length pre ≤ off)%nat → (off + length src ≤ length pre + n)%nat →
  splice off src (pre ++ replicate n 0) =
    pre ++ replicate (off - length pre) 0 ++ src ++ replicate (length pre + n - off - length src) 0.
Proof.
  intros Hoff Hn. unfold splice.
  rewrite take_app_ge, drop_app_ge by lia.
  rewrite take_replicate, drop_replicate, <- !app_assoc. do 3 f_equal; f_equal; lia.
Qed.

(** Writing the next field into the zeros. *)
Lemma splice_next pre off src n m :
  off = length pre → (length src + m = n)%nat →
  splice off src (pre ++ replicate n 0) = (pre ++ src) ++ replicate m 0.
Proof.
  intros -> <-. rewrite splice_fill by lia. rewrite Nat.sub_diag. simpl.
  rewrite <- app_assoc. do 3 f_equal. lia.
Qed.

Lemma zeros_split (pre : list Z) k m :
  pre ++ replicate (k + m) 0 = (pre ++ replicate k 0) ++ replicate m 0.
Proof. by rewrite replicate_add, app_assoc. Qed.

Lemma slice_replicate off n m b :
  (off + n ≤ m)%nat → slice off n (replicate m b) = replicate n b.
Proof. intros. unfold slice. rewrite drop_replicate, take_replicate. f_equal. lia. Qed.

Lemma slice_ok off n buf : bytes_ok buf → bytes_ok (slice off n buf).
Proof. intros. by apply Forall_take, Forall_drop. Qed.

Lemma splice_ok off src buf :
  bytes_ok src → bytes_ok buf → bytes_ok (splice off src buf).
Proof.
  intros. unfold splice, bytes_ok.
  rewrite !Forall_app. eauto using Forall_take, Forall_drop.
Qed.

Lemma slice_app_exact off pre x post n :
  length pre = off → length x = n → slice off n (pre ++ x ++ post) = x.
Proof.
  intros <- <-. unfold slice. rewrite drop_app_length. by rewrite take_app_length.
Qed.

#[export] Hint Resolve slice_ok splice_ok : ranges.

(** ** Readers: [std::io::Read] over an in-memory source *)

(** The [std::io::ErrorKind]s the program produces or inspects. *)
Inductive io_error :=
| UnexpectedEof
| InvalidData
| AlreadyExists
| NotFound
| WouldBlock
| TimedOut
| InvalidInput
| Other.
#[global] Instance io_error_eq_dec : EqDecision io_error.
Proof. solve_decision. Defined.

(** [read_exact] into a buffer of [n] bytes: the bytes read and what is left. *)
Definition read_exact (n : nat) (s : list Z) : outcome io_error (list Z * list Z) :=
  if decide (n ≤ length s)%nat then Ok (take n s, drop n s) else Err UnexpectedEof.

Lemma read_exact_app n x s :
  length x = n → read_exact n (x ++ s) = Ok (x, s).
Proof.
  intros <-. unfold read_exact. rewrite decide_True by (rewrite length_app; lia).
  by rewrite take_app_length, drop_app_length.
Qed.

Lemma read_exact_cons b s : read_exact 1 (b :: s) = Ok ([b], s).
Proof. unfold read_exact. by rewrite decide_True by (simpl; lia). Qed.

Lemma read_exact_no_panic n s : read_exact n s ≠ Panic.
Proof. unfold read_exact. by case_decide. Qed.

Lemma read_exact_Ok n s x r :
  read_exact n s = Ok (x, r) → s = x ++ r ∧ length x = n.
Proof.
  unfold read_exact. case_decide; [|done]. intros [= <- <-].
  rewrite take_drop, length_take. split; [done|lia].
Qed.

Lemma read_exact_ok n s x r :
  bytes_ok s → read_exact n s = Ok (x, r) → array_ok n x ∧ bytes_ok r.
Proof. intros Hs [-> Hn]%read_exact_Ok. apply Forall_app in Hs as [? ?]. by split. Qed.

Lemma from_le_bytes_u n l : array_ok n l → in_u (8 * Z.of_nat n) (from_le_bytes l).
Proof. intros [<- Hl]. by apply from_le_bytes_range. Qed.

Lemma read_exact_short n s : (length s < n)%nat → read_exact n s = Err UnexpectedEof.
Proof. intros. unfold read_exact. rewrite decide_False by lia. done. Qed.

(** ** Time

    A [Duration] is a number of nanoseconds; [Instant] and [SystemTime] values
    are durations since a fixed origin. *)

Abbreviation Duration := Z (only parsing).
Definition NANOS : Z := 1000000000.
Definition from_secs (s : Z) : Duration := s * NANOS.
Definition as_secs (d : Duration) : Z := d / NANOS.

Lemma as_secs_from_secs s : as_secs (from_secs s) = s.
Proof. unfold as_secs, from_secs, NANOS. apply Z.div_mul. lia. Qed.

(** ** Lists and options *)

(** [iter().flatten()] over options. *)
Definition flatten_opts {A} (l : list (option A)) : list A := omap id l.

Lemma elem_of_flatten_opts {A} (l : list (option A)) x :
  x ∈ flatten_opts l ↔ Some x ∈ l.
Proof. unfold flatten_opts. rewrite list_elem_of_omap. naive_solver. Qed.

Lemma flatten_opts_app {A} (l k : list (option A)) :
  flatten_opts (l ++ k) = flatten_opts l ++ flatten_opts k.
Proof. apply omap_app. Qed.

Lemma forallb_lookup {A} (f : A → bool) (l : list A) :
  forallb f l = true ↔ ∀ i x, l !! i = Some x → f x = true.
Proof.
  rewrite forallb_forall. setoid_rewrite <- list_elem_of_In.
  setoid_rewrite list_elem_of_lookup. naive_solver.
Qed.

Lemma Forall_insert {A} (P : A → Prop) (l : list A) i x :
  Forall P l → P x → Forall P (<[i:=x]> l).
Proof.
  intros Hl Hx. apply Forall_lookup. intros j y Hj.
  apply list_lookup_insert_Some in Hj as [(->&->&_)|[_ Hj]]; [done|].
  by eapply Forall_lookup in Hj.
Qed.

(** [Iterator::find]. *)
Fixpoint find_first {A} (p : A → bool) (l : list A) : option A :=
  match l with
  | [] => None
  | x :: l => if p x then Some x else find_first p l
  end.

Lemma find_first_Some {A} (p : A → bool) l x :
  find_first p l = Some x → x ∈ l ∧ p x = true.
Proof.
  induction l as [|y l IH]; simpl; [done|]. destruct (p y) eqn:Hy.
  - intros [= ->]. split; [by constructor|done].
  - intros [? ?]%IH. split; [by constructor|done].
Qed.

Lemma find_first_None {A} (p : A → bool) l :
  find_first p l = None → ∀ x, x ∈ l → p x = false.
Proof.
  induction l as [|y l IH]; simpl; intros Hf x; [by intros ?%elem_of_nil|].
  destruct (p y) eqn:Hy; [done|]. intros [->|Hx]%elem_of_cons; eauto.
Qed.

(** [is_some], and [is_empty] of a vector. *)
Definition is_some {A} (o : option A) : bool := match o with Some _ => true | None => false end.
Definition is_nil {A} (l : list A) : bool := match l with [] => true | _ => false end.

Lemma is_nil_true {A} (l : list A) : is_nil l = true ↔ l = [].
Proof. by destruct l. Qed.
Lemma is_nil_false {A} (l : list A) : is_nil l = false ↔ l ≠ [].
Proof. by destruct l. Qed.

(** A check for every order a collection may be iterated in. *)
Definition every_order {A} (l : list A) (f : list A → bool) : bool := forallb f (permutations l).

Lemma every_order_sound {A} (l : list A) f order : every_order l f = true → l ≡ₚ order → f order = true.
Proof.
  unfold every_order. rewrite forallb_forall. intros Hf Hp. by apply Hf, list_elem_of_In, permutations_Permutation.
Qed.

Lemma difference_singleton_empty `{Countable A} (X : gset A) h : X ∖ {[h]} = ∅ → X ⊆ {[h]}.
Proof. intros Hd x Hx. destruct (decide (x = h)); set_solver. Qed.

Lemma list_to_set_nil_L `{Countable A} (l : list A) :
  list_to_set (C:=gset A) l = ∅ → l = [].
Proof. destruct l as [|h l]; [done|]. simpl. set_solver. Qed.

Lemma list_to_set_reverse_L `{Countable A} (l : list A) :
  list_to_set (C:=gset A) (reverse l) = list_to_set l.
Proof. apply set_eq. intros x. by rewrite !elem_of_list_to_set, elem_of_reverse. Qed.

(** [sum] of integers. *)
Definition sumZ (l : list Z) : Z := foldr Z.add 0 l.

Lemma sumZ_app l k : sumZ (l ++ k) = sumZ l + sumZ k.
Proof. induction l as [|x l IH]; cbn; [done|]. unfold sumZ in *. lia. Qed.

Lemma sumZ_nonneg l : Forall (λ x, 0 ≤ x) l → 0 ≤ sumZ l.
Proof. induction 1; cbn; [done|]. unfold sumZ in *. lia. Qed.

#[global] Instance sumZ_perm : Proper ((≡ₚ) ==> (=)) sumZ.
Proof. induction 1; cbn in *; unfold sumZ in *; lia. Qed.

(** ** Walking round a ring of [n] indices

    A loop that starts after [a] and steps [i := (i + 1) mod n] until it is back
    at [a] visits the indices [(a + (n - k)) mod n] for [k = n - 1, ..., 1]. *)

Section Ring.
Local Open Scope nat_scope.
Context (n a : nat) (Ha : a < n).

Definition ring_at (k : nat) : nat := (a + (n - k)) mod n.

Lemma ring_at_small k : 0 < k < n → ring_at k = if decide (k ≤ a) then a - k else a + n - k.
Proof using Ha.
  intros Hk. unfold ring_at. case_decide.
  - replace (a + (n - k)) with (a - k + 1 * n) by lia.
    rewrite Nat.Div0.mod_add. apply Nat.mod_small. lia.
  - rewrite Nat.mod_small; lia.
Qed.

Lemma ring_zero : ring_at 0 = a.
Proof using Ha.
  unfold ring_at. replace (a + (n - 0)) with (a + 1 * n) by lia.
  rewrite Nat.Div0.mod_add. by apply Nat.mod_small.
Qed.

Lemma ring_start : (a + 1) mod n = ring_at (n - 1).
Proof using Ha. unfold ring_at. f_equal. lia. Qed.

Lemma ring_next k : 0 < k < n → (ring_at k + 1) mod n = ring_at (k - 1).
Proof using Ha.
  intros Hk. unfold ring_at. rewrite Nat.Div0.add_mod_idemp_l. f_equal. lia.
Qed.

Lemma ring_ne k : 0 < k < n → ring_at k ≠ a.
Proof using Ha. intros Hk. rewrite ring_at_small by done. case_decide; lia. Qed.

Lemma ring_lt k : ring_at k < n.
Proof using Ha. apply Nat.mod_upper_bound. lia. Qed.

Lemma ring_all i : i < n → i ≠ a → ∃ k, 0 < k < n ∧ i = ring_at k.
Proof using Ha.
  intros Hi Hne. destruct (decide (i < a)).
  - exists (a - i). split; [lia|]. rewrite ring_at_small by lia. case_decide; lia.
  - exists (a + n - i). split; [lia|]. rewrite ring_at_small by lia. case_decide; lia.
Qed.
End Ring.

Lemma to_nat_mod_lt z n : (0 < n)%nat → (Z.to_nat (z mod Z.of_nat n) < n)%nat.
Proof. intros. pose proof (Z.mod_pos_bound z (Z.of_nat n)). lia. Qed.
