(* ===== verification/Joinable.v ===== *)
(** * Threads that can be joined

    What a group of threads promises to the one that waits for its end: once its
    flag is cleared each thread has a bounded number of turns left, no step of
    any thread or of its surroundings adds to it, a thread with turns left can
    take one, and one without has ended without a panic. Two groups side by side
    make a group again, so the promise of the whole node follows from those of
    its parts. *)

From S2P Require Import Prelude.

(** [T] names the threads of the group. *)
Class Joinable (S L T : Type) := {
  j_step : S → L → S → Prop;
  j_ok : S → Prop;
  j_halted : S → Prop;
  j_threads : S → list T;
  j_left : S → T → nat;
  j_ended : S → T → bool;
  j_turn : L → option T;
}.

(** One turn, when it is this thread's. *)
Definition counts {T} `{EqDecision T} (turn : option T) (t : T) : nat :=
  if decide (turn = Some t) then 1 else 0.

Class JoinableLaws (S L T : Type) `{Joinable S L T, EqDecision T} := {
  j_ok_step s l s' : j_step s l s' → j_ok s → j_ok s';
  j_halted_step s l s' : j_step s l s' → j_halted s → j_halted s';
  j_threads_step s l s' : j_step s l s' → j_ok s → j_threads s' = j_threads s;
  j_threads_NoDup s : NoDup (j_threads s);
  j_left_step s l s' t : j_step s l s' → j_ok s → j_halted s → t ∈ j_threads s →
    (j_left s' t ≤ j_left s t - counts (j_turn l) t)%nat;
  j_progress s t : j_ok s → j_halted s → t ∈ j_threads s → (0 < j_left s t)%nat →
    ∃ l s', j_turn l = Some t ∧ j_step s l s';
  j_done s t : j_ok s → t ∈ j_threads s → j_left s t = 0%nat → j_ended s t = true;
}.

(** ** Two groups *)

#[global] Instance joinable_pair {S1 L1 T1 S2 L2 T2} `{Joinable S1 L1 T1, Joinable S2 L2 T2} :
    Joinable (S1 * S2) (L1 + L2) (T1 + T2) := {|
  j_step s l s' :=
    match l with
    | inl l => j_step s.1 l s'.1 ∧ s'.2 = s.2
    | inr l => j_step s.2 l s'.2 ∧ s'.1 = s.1
    end;
  j_ok s := j_ok s.1 ∧ j_ok s.2;
  j_halted s := j_halted s.1 ∧ j_halted s.2;
  j_threads s := (inl <$> j_threads s.1) ++ (inr <$> j_threads s.2);
  j_left s t := match t with inl t => j_left s.1 t | inr t => j_left s.2 t end;
  j_ended s t := match t with inl t => j_ended s.1 t | inr t => j_ended s.2 t end;
  j_turn l := match l with inl l => inl <$> j_turn l | inr l => inr <$> j_turn l end;
|}.

Section Pair.
Context {S1 L1 T1 S2 L2 T2 : Type} `{JoinableLaws S1 L1 T1} `{JoinableLaws S2 L2 T2}.

Lemma in_pair_l (s : S1 * S2) t : inl t ∈ j_threads s ↔ t ∈ j_threads s.1.
Proof. simpl. rewrite elem_of_app, !list_elem_of_fmap. naive_solver. Qed.

Lemma in_pair_r (s : S1 * S2) t : inr t ∈ j_threads s ↔ t ∈ j_threads s.2.
Proof. simpl. rewrite elem_of_app, !list_elem_of_fmap. naive_solver. Qed.

Lemma counts_l (turn : option T1) t : counts (inl (B:=T2) <$> turn) (inl t) = counts turn t.
Proof. unfold counts. destruct turn; simpl; repeat case_decide; naive_solver. Qed.

Lemma counts_r (turn : option T2) t : counts (inr (A:=T1) <$> turn) (inr t) = counts turn t.
Proof. unfold counts. destruct turn; simpl; repeat case_decide; naive_solver. Qed.

Lemma counts_lr (turn : option T1) t : counts (inl (B:=T2) <$> turn) (inr t) = 0%nat.
Proof. unfold counts. rewrite decide_False; [done|]. by destruct turn. Qed.

Lemma counts_rl (turn : option T2) t : counts (inr (A:=T1) <$> turn) (inl t) = 0%nat.
Proof. unfold counts. rewrite decide_False; [done|]. by destruct turn. Qed.

#[global] Instance joinable_pair_laws : JoinableLaws (S1 * S2) (L1 + L2) (T1 + T2).
Proof.
  split.
  - intros [a b] [l|l] [a' b'] [Hst He] [? ?]; simpl in *; subst; split; try done; by eapply j_ok_step.
  - intros [a b] [l|l] [a' b'] [Hst He] [? ?]; simpl in *; subst; split; try done; by eapply j_halted_step.
  - intros [a b] [l|l] [a' b'] [Hst He] [Ha Hb]; simpl in *; subst; f_equal; f_equal; by eapply j_threads_step.
  - intros [a b]. simpl. apply NoDup_app. split_and!; [apply NoDup_fmap_2; [apply _|apply j_threads_NoDup]| |
      apply NoDup_fmap_2; [apply _|apply j_threads_NoDup]].
    intros t (? & -> & _)%list_elem_of_fmap (? & ? & _)%list_elem_of_fmap. done.
  - intros [a b] l [a' b'] t Hst [Ha Hb] [Hha Hhb] Ht. destruct t as [t|t].
    + apply in_pair_l in Ht. destruct l as [l|l]; destruct Hst as [Hst He]; simpl in *; subst.
      * rewrite counts_l. by eapply j_left_step.
      * rewrite counts_rl. lia.
    + apply in_pair_r in Ht. destruct l as [l|l]; destruct Hst as [Hst He]; simpl in *; subst.
      * rewrite counts_lr. lia.
      * rewrite counts_r. by eapply j_left_step.
  - intros [a b] [t|t] [Ha Hb] [Hha Hhb] Ht Hl.
    + apply in_pair_l in Ht. destruct (j_progress a t Ha Hha Ht Hl) as (l & a' & Hl' & Hst).
      exists (inl l), (a', b). simpl. by rewrite Hl'.
    + apply in_pair_r in Ht. destruct (j_progress b t Hb Hhb Ht Hl) as (l & b' & Hl' & Hst).
      exists (inr l), (a, b'). simpl. by rewrite Hl'.
  - intros [a b] [t|t] [Ha Hb] Ht Hl; [apply in_pair_l in Ht|apply in_pair_r in Ht]; simpl in *; by apply j_done.
Qed.
End Pair.

(** ** Counting turns *)

Section Count.
Context {S L T : Type} `{JoinableLaws S L T}.
Implicit Types (s : S) (l : L).

(** The turns the group has left, and whether a step takes one of them. *)
Definition total (s : S) : nat := sum_list_with (j_left s) (j_threads s).
Definition work (s : S) (l : L) : nat :=
  sum_list_with (λ t, Nat.min (j_left s t) (counts (j_turn l) t)) (j_threads s).

Inductive jrun : S → list L → nat → S → Prop :=
| jrun_nil s : jrun s [] 0 s
| jrun_cons s l s1 ls n s2 : j_step s l s1 → jrun s1 ls n s2 → jrun s (l :: ls) (work s l + n) s2.

Lemma total_step s l s' :
  j_step s l s' → j_ok s → j_halted s → (total s' + work s l ≤ total s)%nat.
Proof.
  intros Hst Hok Hh. unfold total, work. rewrite (j_threads_step _ _ _ Hst Hok).
  assert (∀ t, t ∈ j_threads s → j_left s' t + Nat.min (j_left s t) (counts (j_turn l) t) ≤ j_left s t)%nat as Hle.
  { intros t Ht. pose proof (j_left_step _ _ _ _ Hst Hok Hh Ht). lia. }
  induction (j_threads s) as [|t ts IH]; simpl; [done|].
  pose proof (Hle t ltac:(constructor)). specialize (IH ltac:(intros; apply Hle; by constructor)). lia.
Qed.

Lemma jrun_spec s ls n s' :
  jrun s ls n s' → j_ok s → j_halted s →
  j_ok s' ∧ j_halted s' ∧ j_threads s' = j_threads s ∧ (total s' + n ≤ total s)%nat.
Proof.
  induction 1 as [|s l s1 ls n s2 Hst _ IH]; intros Hok Hh; [split_and!; [done..|lia]|].
  destruct IH as (? & ? & Ht & ?); [by eapply j_ok_step|by eapply j_halted_step|].
  pose proof (total_step _ _ _ Hst Hok Hh). rewrite (j_threads_step _ _ _ Hst Hok) in Ht. split_and!; [done..|lia].
Qed.

(** As long as turns are left, one can be taken. *)
Lemma total_progress s :
  j_ok s → j_halted s → (0 < total s)%nat → ∃ l s', j_step s l s' ∧ (0 < work s l)%nat.
Proof.
  intros Hok Hh Hpos.
  assert (∃ t, t ∈ j_threads s ∧ (0 < j_left s t)%nat) as (t & Ht & Hl).
  { unfold total in Hpos. induction (j_threads s) as [|t ts IH]; simpl in Hpos; [lia|].
    destruct (decide (0 < j_left s t)%nat); [exists t; split; [constructor|done]|].
    destruct IH as (t' & ? & ?); [lia|]. exists t'. split; [by constructor|done]. }
  destruct (j_progress s t Hok Hh Ht Hl) as (l & s' & Hturn & Hst). exists l, s'. split; [done|].
  unfold work. rewrite Hturn. revert Ht. induction (j_threads s) as [|u us IH]; [by intros ?%elem_of_nil|].
  simpl. intros [->|Ht]%elem_of_cons; [unfold counts; rewrite decide_True by done; lia|]. specialize (IH Ht). lia.
Qed.

Lemma total_left s t : total s = 0%nat → t ∈ j_threads s → j_left s t = 0%nat.
Proof.
  unfold total. induction (j_threads s) as [|u us IH]; [by intros _ ?%elem_of_nil|]. simpl.
  intros Hz [->|Ht]%elem_of_cons; [lia|]. apply IH; [lia|done].
Qed.
End Count.
