(* ===== verification/Shutdown.v ===== *)
(** * The shutdown signal (src/lib.rs)

    A failure that cannot be handled ends the node: the first one sends a signal
    to the main thread, later ones only log. *)

From S2P Require Import Prelude.

(** The flag, how many signals were sent, and whether the receiver is alive. *)
Record FatalShutdown := mk_fatal { triggered : bool; signals : nat; listening : bool }.

Definition fatal_new (alive : bool) : FatalShutdown := mk_fatal false 0 alive.

(** [false]: the [expect] on a closed channel panics. *)
Definition trigger (f : FatalShutdown) : bool * FatalShutdown :=
  if f.(triggered) then (true, f)
  else if f.(listening) then (true, mk_fatal true (S f.(signals)) true)
  else (false, mk_fatal true f.(signals) false).


(** Sending a signal without raising the flag; [false] when nobody listens. *)
Definition send_signal (f : FatalShutdown) : bool * FatalShutdown :=
  if f.(listening) then (true, mk_fatal f.(triggered) (S f.(signals)) true) else (false, f).
