(* ===== verification/Addr.v ===== *)
(** * Network addresses and the hash interface

    The address type of the peer-to-peer protocol as the program matches on it
    ([bitcoin::p2p::address::AddrV2], whose constructors [Record::compute_size]
    enumerates), the [std::hash::DefaultHasher] interface and the consensus
    codec of addresses, which the program calls and does not define. *)

From S2P Require Import Prelude.

(** [bitcoin::p2p::address::AddrV2], with the constructors the source matches. *)
Inductive AddrV2 :=
| Ipv4 (octets : list Z)
| Ipv6 (octets : list Z)
| TorV2 (key : list Z)
| TorV3 (key : list Z)
| I2p (key : list Z)
| Cjdns (octets : list Z)
| Unknown (net : Z) (payload : list Z).

#[global] Instance AddrV2_eq_dec : EqDecision AddrV2.
Proof. solve_decision. Defined.

Definition addr_encode (a : AddrV2) : Z * Z * list Z :=
  match a with
  | Ipv4 o => (0, 0, o)
  | Ipv6 o => (1, 0, o)
  | TorV2 k => (2, 0, k)
  | TorV3 k => (3, 0, k)
  | I2p k => (4, 0, k)
  | Cjdns o => (5, 0, o)
  | Unknown n p => (6, n, p)
  end.
Definition addr_decode (x : Z * Z * list Z) : option AddrV2 :=
  match x with
  | (0, _, o) => Some (Ipv4 o)
  | (1, _, o) => Some (Ipv6 o)
  | (2, _, k) => Some (TorV2 k)
  | (3, _, k) => Some (TorV3 k)
  | (4, _, k) => Some (I2p k)
  | (5, _, o) => Some (Cjdns o)
  | (6, n, p) => Some (Unknown n p)
  | _ => None
  end.
#[global] Instance AddrV2_countable : Countable AddrV2.
Proof. apply (inj_countable addr_encode addr_decode). by intros []. Defined.

(** The lengths of the address payloads, as their Rust array types fix them. *)
Definition addr_ok (a : AddrV2) : Prop :=
  match a with
  | Ipv4 o => array_ok 4 o
  | Ipv6 o => array_ok 16 o
  | TorV2 k => array_ok 10 k
  | TorV3 k => array_ok 32 k
  | I2p k => array_ok 32 k
  | Cjdns o => array_ok 16 o
  | Unknown n p => in_u 8 n ∧ bytes_ok p
  end.
#[global] Instance addr_ok_dec a : Decision (addr_ok a).
Proof. destruct a; simpl; apply _. Defined.

Definition is_unknown (a : AddrV2) : bool :=
  match a with Unknown _ _ => true | _ => false end.

(** [std::net::IpAddr]. *)
Inductive IpAddr :=
| V4 (octets : list Z)
| V6 (octets : list Z).
#[global] Instance IpAddr_eq_dec : EqDecision IpAddr.
Proof. solve_decision. Defined.

Definition ip_ok (ip : IpAddr) : Prop :=
  match ip with V4 o => array_ok 4 o | V6 o => array_ok 16 o end.

(** [DefaultHasher::new()], hash one value, [finish()]: the algorithm is
    unspecified by the standard library, the result is a [u64]. *)
Class DefaultHasher := {
  hash_bytes : list Z → Z;
  hash_str : string → Z;
  hash_bytes_range : ∀ l, in_u 64 (hash_bytes l);
  hash_str_range : ∀ s, in_u 64 (hash_str s);
}.

(** [hasher.finish().to_le_bytes()[..4]]. *)
Definition hash_prefix (h : Z) : list Z := take 4 (to_le_bytes 8 h).

Lemma hash_prefix_ok h : array_ok 4 (hash_prefix h).
Proof.
  split; [done|]. unfold hash_prefix. apply Forall_take, to_le_bytes_ok.
Qed.

(** [bitcoin::consensus::{serialize, deserialize_partial}] at [AddrV2]: BIP 155
    writes a network byte, a length and the payload, and the decoder reads an
    address back with the number of bytes it used. *)
Class AddrCodec := {
  addr_serialize : AddrV2 → list Z;
  addr_deserialize_partial : list Z → option (AddrV2 * nat);
}.

Definition payload (a : AddrV2) : list Z :=
  match a with
  | Ipv4 o | Ipv6 o | Cjdns o => o
  | TorV2 k | TorV3 k | I2p k => k
  | Unknown _ p => p
  end.

Class AddrCodecLaws `{AddrCodec} := {
  addr_serialize_length : ∀ a,
    addr_ok a → is_unknown a = false →
    length (addr_serialize a) = (2 + length (payload a))%nat;
  addr_serialize_bytes : ∀ a,
    addr_ok a → is_unknown a = false → bytes_ok (addr_serialize a);
  addr_roundtrip : ∀ a rest,
    addr_ok a → is_unknown a = false →
    addr_deserialize_partial (addr_serialize a ++ rest)
    = Some (a, length (addr_serialize a));
  addr_partial_bound : ∀ l a n,
    addr_deserialize_partial l = Some (a, n) → (n ≤ length l)%nat;
  addr_decoded_ok : ∀ l a n,
    bytes_ok l → addr_deserialize_partial l = Some (a, n) → addr_ok a;
}.

(** ** A concrete hasher and codec, for the witnesses *)

Module Demo.

Definition fnv_step (h b : Z) : Z := (Z.lxor h b * 1099511628211) mod 2 ^ 64.
Definition fnv (l : list Z) : Z := foldl fnv_step 14695981039346656037 l.

Lemma fnv_range l : in_u 64 (fnv l).
Proof.
destruct l as [|b l] using rev_ind; [done|].
unfold fnv. rewrite foldl_app. apply Z.mod_pos_bound. done.
Qed.

#[export] Instance fnv_hasher : DefaultHasher := {|
hash_bytes := fnv;
hash_str s := fnv (Z.of_nat <$> [String.length s]);
hash_bytes_range := fnv_range;
hash_str_range s := fnv_range _;
|}.

Definition bip155_id (a : AddrV2) : Z :=
match a with
| Ipv4 _ => 1 | Ipv6 _ => 2 | TorV2 _ => 3 | TorV3 _ => 4
| I2p _ => 5 | Cjdns _ => 6 | Unknown n _ => n
end.

Definition bip155_decode (l : list Z) : option (AddrV2 * nat) :=
match l with
| id :: len :: l =>
    let n := Z.to_nat len in
    if decide (n ≤ length l)%nat then
      let p := take n l in
      match id, len with
      | 1, 4 => Some (Ipv4 p, 6%nat)
      | 2, 16 => Some (Ipv6 p, 18%nat)
      | 3, 10 => Some (TorV2 p, 12%nat)
      | 4, 32 => Some (TorV3 p, 34%nat)
      | 5, 32 => Some (I2p p, 34%nat)
      | 6, 16 => Some (Cjdns p, 18%nat)
      | _, _ => None
      end
    else None
| _ => None
end.

#[export] Instance bip155_codec : AddrCodec := {|
addr_serialize a := bip155_id a :: Z.of_nat (length (payload a)) :: payload a;
addr_deserialize_partial := bip155_decode;
|}.

#[export] Instance bip155_laws : AddrCodecLaws.
Proof.
split.
- done.
- intros a Ha Hu. destruct a; try done; destruct Ha as [Hl Hb];
    cbn [addr_serialize bip155_codec payload bip155_id]; rewrite Hl;
    by repeat (apply Forall_cons; split; [done|]).
- intros a rest Ha Hu. destruct a; try done; destruct Ha as [Hl _];
    cbn [addr_serialize bip155_codec payload bip155_id addr_deserialize_partial app];
    unfold bip155_decode; rewrite Nat2Z.id;
    (rewrite decide_True by (rewrite length_app; lia));
    rewrite take_app_length, Hl; cbn [length]; by rewrite Hl.
- intros l a n. simpl. unfold bip155_decode.
  destruct l as [|id [|len l]]; try done. case_decide as Hd; [|done].
  intros He. repeat case_match; simplify_eq; simpl in *; lia.
- intros l a n Hl. simpl. unfold bip155_decode.
  destruct l as [|id [|len l]]; try done. case_decide as Hd; [|done].
  assert (bytes_ok (take (Z.to_nat len) l)) as Ht by (apply Forall_take; by do 2 apply Forall_cons_1 in Hl as [_ Hl]).
  intros He. repeat case_match; simplify_eq; (split; [rewrite length_take; lia|done]).
Qed.

End Demo.
