(* ===== verification/AddressBook.v ===== *)
(** * Address book records

    [Record] of [crates/address-book/src/lib.rs] with its binary encoding and
    its quality test. The clock is an argument. *)

From S2P Require Import Prelude Addr.

Definition ONE_MINUTE : Duration := from_secs 60.
Definition ONE_WEEK : Duration := from_secs 604800.

(** ** Records *)

Record record := mk_record {
  addr : AddrV2;
  port : Z;
  source : list Z;
  services : Z;
  failed_attempts : Z;
  last_connection : option Duration;
  last_attempt : option Duration;
}.

#[global] Instance record_eq_dec : EqDecision record.
Proof. solve_decision. Defined.

(** A [Duration] holds at most [u64::MAX] whole seconds. *)
Definition time_ok (t : option Duration) : Prop :=
  match t with Some d => 0 ≤ d ∧ in_u 64 (as_secs d) | None => True end.

(** The invariants of the field types of [Record]. *)
Definition record_ok (r : record) : Prop :=
  addr_ok r.(addr) ∧ in_u 16 r.(port) ∧ array_ok 4 r.(source) ∧
  in_u 64 r.(services) ∧ in_u 8 r.(failed_attempts) ∧
  time_ok r.(last_connection) ∧ time_ok r.(last_attempt).

#[global] Instance time_ok_dec t : Decision (time_ok t).
Proof. destruct t; simpl; apply _. Defined.
#[global] Instance record_ok_dec r : Decision (record_ok r).
Proof. unfold record_ok. apply _. Defined.

(** [Record::compute_size], [None] for the [unreachable!] branch. *)
Definition compute_size (r : record) : option Z :=
  size ← match r.(addr) with
         | I2p _ => Some 34
         | Ipv4 _ => Some 6
         | Ipv6 _ => Some 18
         | TorV2 _ => Some 12
         | TorV3 _ => Some 34
         | Cjdns _ => Some 18
         | Unknown _ _ => None
         end;
  Some (size + 2 + wrap_u 8 (Z.of_nat (length r.(source))) + 8 + 1 + 9 + 9).

(** The time fields of [Record::serialize]: a flag byte and the whole seconds. *)
Definition encode_time (t : option Duration) : list Z :=
  match t with
  | Some d => 1 :: to_le_bytes 8 (as_secs d)
  | None => replicate 9 0
  end.

(** [Record::is_serializable]. *)
Definition is_serializable (r : record) : bool := negb (is_unknown r.(addr)).

(** [Record::update_service_flags]. *)
Definition update_service_flags (r : record) (flags : Z) : record :=
  mk_record r.(addr) r.(port) r.(source) flags r.(failed_attempts)
    r.(last_connection) r.(last_attempt).

(** [Record::network_addr]. *)
Definition network_addr (r : record) : AddrV2 * Z := (r.(addr), r.(port)).

(** [Record::is_terrible] at the time [now]. *)
Definition is_terrible (now : Duration) (r : record)
    (maximum_tries maximum_weekly_tries : Z) : bool :=
  let by_tries := bool_decide (r.(failed_attempts) > maximum_tries) in
  match r.(last_attempt) with
  | Some attempt =>
      let attempt := saturating_sub now attempt in
      if decide (attempt < ONE_MINUTE) then false
      else if decide (r.(failed_attempts) > maximum_weekly_tries ∧ attempt < ONE_WEEK)
      then true
      else by_tries
  | None => by_tries
  end.

Section Codec.
Context `{AddrCodec}.

(** [Record::serialize]. *)
Definition serialize (r : record) : option (list Z) :=
  len ← compute_size r;
  Some (len :: addr_serialize r.(addr)
        ++ to_le_bytes 2 r.(port)
        ++ r.(source)
        ++ to_le_bytes 8 r.(services)
        ++ [r.(failed_attempts)]
        ++ encode_time r.(last_attempt)
        ++ encode_time r.(last_connection)).

(** One time field of [Record::deserialize]. *)
Definition read_time (c : list Z) : outcome io_error (option Duration * list Z) :=
  '(flag, c) ← read_exact 1 c;
  match from_le_bytes flag with
  | 0 => '(_, c) ← read_exact 8 c; Ok (None, c)
  | 1 => '(time_buf, c) ← read_exact 8 c;
         Ok (Some (from_secs (from_le_bytes time_buf)), c)
  | _ => Err InvalidData
  end.

(** [Record::deserialize]: the record and what is left of the reader. *)
Definition deserialize (reader : list Z) : outcome io_error (record * list Z) :=
  '(size_buf, reader) ← read_exact 1 reader;
  let size := from_le_bytes size_buf in
  '(content_buf, reader) ← read_exact (Z.to_nat size) reader;
  '(a, len) ← ok_or (addr_deserialize_partial content_buf) InvalidData;
  c ← (if decide (len ≤ length content_buf)%nat
       then Ok (drop len content_buf) else Panic);
  '(port_buf, c) ← read_exact 2 c;
  '(source_buf, c) ← read_exact 4 c;
  '(service_buf, c) ← read_exact 8 c;
  '(failed_buf, c) ← read_exact 1 c;
  '(attempt, c) ← read_time c;
  '(conn, c) ← read_time c;
  Ok (mk_record a (from_le_bytes port_buf) source_buf (from_le_bytes service_buf)
        (from_le_bytes failed_buf) conn attempt, reader).

(** What the encoding keeps of a record: times lose their sub-second part. *)
Definition truncate_time (t : option Duration) : option Duration :=
  (λ d, from_secs (as_secs d)) <$> t.
Definition truncate_times (r : record) : record :=
  mk_record r.(addr) r.(port) r.(source) r.(services) r.(failed_attempts)
    (truncate_time r.(last_connection)) (truncate_time r.(last_attempt)).

Lemma length_encode_time t : length (encode_time t) = 9%nat.
Proof. destruct t; done. Qed.

Lemma read_encode_time t c :
  time_ok t → read_time (encode_time t ++ c) = Ok (truncate_time t, c).
Proof.
  intros Ht. unfold read_time. destruct t as [d|]; cbn [encode_time truncate_time fmap option_fmap option_map].
  - cbn [app]. rewrite read_exact_cons. simpl_outcome. cbn [from_le_bytes].
    rewrite read_exact_app by done. simpl_outcome.
    by rewrite from_to_le_bytes by apply Ht.
  - change (replicate 9 0 ++ c) with (0 :: (replicate 8 0 ++ c)).
    rewrite read_exact_cons. simpl_outcome. cbn [from_le_bytes].
    by rewrite read_exact_app by done.
Qed.

Lemma truncate_times_ok r : record_ok r → record_ok (truncate_times r).
Proof.
  unfold record_ok. cbn. intros (?&?&?&?&?&Hc&Ha). repeat (split; [done|]).
  destruct (last_connection r) as [d|], (last_attempt r) as [d'|];
    cbn in *; rewrite ?as_secs_from_secs; unfold from_secs, NANOS, in_u in *;
    naive_solver lia.
Qed.

Lemma truncate_times_idem r : truncate_times (truncate_times r) = truncate_times r.
Proof.
  unfold truncate_times, truncate_time; cbn.
  destruct (last_connection r), (last_attempt r); cbn; by rewrite ?as_secs_from_secs.
Qed.

Context `{!AddrCodecLaws}.

Lemma compute_size_Some r :
  is_serializable r = true → record_ok r →
  compute_size r = Some (Z.of_nat (length (addr_serialize r.(addr))) + 33).
Proof.
  unfold is_serializable. intros Hs (Ha&_&[Hsrc _]&_).
  apply negb_true_iff in Hs.
  rewrite addr_serialize_length by done. unfold compute_size. rewrite Hsrc.
  destruct (addr r); try done; destruct Ha as [Ha _]; simpl; rewrite Ha; done.
Qed.

Lemma addr_serialize_short r :
  is_serializable r = true → record_ok r →
  (length (addr_serialize r.(addr)) ≤ 34)%nat.
Proof.
  unfold is_serializable. intros Hs%negb_true_iff (Ha&_).
  rewrite addr_serialize_length by done.
  destruct (addr r); try done; destruct Ha as [Ha _]; simpl; lia.
Qed.

Lemma serialize_Some r :
  is_serializable r = true → record_ok r → is_Some (serialize r).
Proof. intros. unfold serialize. rewrite compute_size_Some by done. eexists. done. Qed.

(** What a record is written as before its times, without the length byte. *)
Definition fixed_fields (r : record) : list Z :=
  addr_serialize r.(addr) ++ to_le_bytes 2 r.(port) ++ r.(source) ++ to_le_bytes 8 r.(services) ++ [r.(failed_attempts)].

Lemma serialize_layout r bs :
  record_ok r → serialize r = Some bs →
  is_serializable r = true ∧
  bs = Z.of_nat (length (fixed_fields r) + 18) :: fixed_fields r ++ encode_time r.(last_attempt) ++ encode_time r.(last_connection).
Proof.
  intros Hok Hser.
  assert (is_serializable r = true) as Hs.
  { unfold serialize, compute_size, is_serializable in *. by destruct (addr r). }
  split; [done|]. unfold serialize in Hser. rewrite compute_size_Some in Hser by done.
  apply (inj Some) in Hser as <-. destruct Hok as (_&_&[Hsrc _]&_).
  unfold fixed_fields. rewrite <- !app_assoc. cbn [app]. f_equal. autorewrite with bytes. rewrite Hsrc. lia.
Qed.

(** Reading up to the times. *)
Lemma deserialize_fields r times rest :
  record_ok r → is_serializable r = true → length times = 18%nat →
  deserialize (Z.of_nat (length (fixed_fields r) + 18) :: fixed_fields r ++ times ++ rest) =
  ('(attempt, c) ← read_time times;
   '(conn, c) ← read_time c;
   Ok (mk_record r.(addr) r.(port) r.(source) r.(services) r.(failed_attempts) conn attempt, rest)).
Proof.
  intros Hok Hs Ht. destruct Hok as (Ha&Hp&[Hsrc _]&Hsv&Hf&_).
  unfold deserialize. rewrite read_exact_cons. simpl_outcome.
  cbn [from_le_bytes]. rewrite Z.mul_0_r, Z.add_0_r, Nat2Z.id, app_assoc.
  rewrite read_exact_app by (rewrite length_app; lia). simpl_outcome.
  unfold fixed_fields. rewrite <- !app_assoc.
  rewrite addr_roundtrip by (done || by apply negb_true_iff).
  simpl_outcome. rewrite decide_True by (rewrite length_app; lia).
  simpl_outcome. rewrite drop_app_length.
  rewrite read_exact_app by done. simpl_outcome.
  rewrite read_exact_app by done. simpl_outcome.
  rewrite read_exact_app by done. simpl_outcome.
  cbn [app]. rewrite read_exact_cons. simpl_outcome. cbn [from_le_bytes]. rewrite Z.mul_0_r, Z.add_0_r.
  by rewrite !from_to_le_bytes by done.
Qed.

Lemma deserialize_serialize_app r bs rest :
  record_ok r → serialize r = Some bs →
  deserialize (bs ++ rest) = Ok (truncate_times r, rest).
Proof.
  intros Hok Hser. destruct (serialize_layout r bs Hok Hser) as [Hs ->]. cbn [app]. rewrite <- (app_assoc (fixed_fields r)).
  rewrite deserialize_fields by (done || by rewrite length_app, !length_encode_time).
  destruct Hok as (_&_&_&_&_&Hc&Hat). rewrite read_encode_time by done. simpl_outcome.
  rewrite <- (app_nil_r (encode_time (last_connection r))), read_encode_time by done. done.
Qed.

Lemma serialize_length r bs :
  record_ok r → serialize r = Some bs →
  ∃ len body, bs = len :: body ∧ len = Z.of_nat (length body) ∧ in_u 8 len.
Proof.
  intros Hok Hser.
  assert (is_serializable r = true) as Hs.
  { unfold serialize, compute_size, is_serializable in *. by destruct (addr r). }
  unfold serialize in Hser. rewrite compute_size_Some in Hser by done.
  apply (inj Some) in Hser as <-. pose proof (addr_serialize_short r Hs Hok).
  destruct Hok as (Ha&Hp&[Hsrc _]&_). eexists _, _. split; [done|].
  autorewrite with bytes. rewrite Hsrc, !length_encode_time.
  split; [lia|]. split; [lia|]. change (2 ^ 8) with 256. lia.
Qed.

(** A serialized record, followed by anything, deserializes to the same
    record with its two times truncated to whole seconds, and leaves exactly
    what followed it. *)
Theorem record_roundtrip r rest :
  record_ok r → is_serializable r = true →
  ∃ bs, serialize r = Some bs ∧ deserialize (bs ++ rest) = Ok (truncate_times r, rest).
Proof.
  intros Hok Hs. destruct (serialize_Some r Hs Hok) as [bs Hbs].
  exists bs. split; [done|]. by apply deserialize_serialize_app.
Qed.

(** Every proper prefix of a serialized record is rejected with
    [UnexpectedEof]; the length byte is exact and fits in a [u8]. *)
Theorem truncated_record_rejected r bs k :
  record_ok r → serialize r = Some bs → (k < length bs)%nat →
  deserialize (take k bs) = Err UnexpectedEof.
Proof.
  intros Hok Hser Hk. destruct (serialize_length r bs) as (len&body&->&->&_); [done..|].
  unfold deserialize. destruct k as [|k]; [done|].
  cbn [take]. rewrite read_exact_cons. simpl_outcome. cbn [from_le_bytes].
  rewrite Z.mul_0_r, Z.add_0_r, Nat2Z.id.
  rewrite read_exact_short; [done|]. cbn in Hk. rewrite length_take. lia.
Qed.

(** A decoded record has the ranges of its field types. *)
Lemma read_time_ok c t c' : bytes_ok c → read_time c = Ok (t, c') → time_ok t ∧ bytes_ok c'.
Proof.
  intros Hc. unfold read_time. intros ([flag c1] & [_ H1]%read_exact_ok & Hm)%bind_Ok; [|done].
  repeat case_match; try done; apply bind_Ok in Hm as ([buf c2] & [Hb ?]%read_exact_ok & [= <- <-]); try done.
  split; [|done]. pose proof (from_le_bytes_u _ _ Hb) as Hr. simpl. rewrite as_secs_from_secs.
  split; [|done]. unfold from_secs, NANOS, in_u in *. lia.
Qed.

Lemma deserialize_ok s r s' : bytes_ok s → deserialize s = Ok (r, s') → record_ok r ∧ bytes_ok s'.
Proof.
  intros Hs. unfold deserialize. intros ([x1 s1] & [_ H1]%read_exact_ok & Hm)%bind_Ok; [|done].
  apply bind_Ok in Hm as ([content s2] & [[_ Hcontent] H2]%read_exact_ok & Hm); [|done].
  apply bind_Ok in Hm as ([a len] & Ha & Hm).
  destruct (addr_deserialize_partial content) as [p|] eqn:Hd; simplify_eq/=.
  apply bind_Ok in Hm as (c & Hc & Hm). case_decide; [|done]. injection Hc as <-.
  assert (bytes_ok (drop len content)) as Hdrop by by apply Forall_drop.
  apply bind_Ok in Hm as ([b1 c1] & [Hb1 ?]%read_exact_ok & Hm); [|done].
  apply bind_Ok in Hm as ([b2 c2] & [Hb2 ?]%read_exact_ok & Hm); [|done].
  apply bind_Ok in Hm as ([b3 c3] & [Hb3 ?]%read_exact_ok & Hm); [|done].
  apply bind_Ok in Hm as ([b4 c4] & [Hb4 ?]%read_exact_ok & Hm); [|done].
  apply bind_Ok in Hm as ([t1 c5] & [Ht1 ?]%read_time_ok & Hm); [|done].
  apply bind_Ok in Hm as ([t2 c6] & [Ht2 ?]%read_time_ok & [= <- <-]); [|done].
  split; [|done]. unfold record_ok; simpl.
  split_and!; [by eapply (addr_decoded_ok content)|by apply (from_le_bytes_u 2)|done|
    by apply (from_le_bytes_u 8)|by apply (from_le_bytes_u 1)|done|done].
Qed.

Lemma read_time_no_panic c : read_time c ≠ Panic.
Proof.
  unfold read_time. destruct (read_exact 1 c) as [[flag c']|e|] eqn:He; simpl_outcome;
    [|done|by apply read_exact_no_panic in He].
  pose proof (read_exact_no_panic 8 c') as H8.
  destruct (read_exact 8 c') as [[? ?]|?|]; simpl_outcome; repeat case_match; done.
Qed.

Lemma deserialize_not_panic s : deserialize s ≠ Panic.
Proof.
  unfold deserialize.
  destruct (read_exact 1 s) as [[b s1]|?|] eqn:E1; simpl_outcome; try done;
    [|by apply read_exact_no_panic in E1].
  destruct (read_exact _ s1) as [[content s2]|?|] eqn:E2; simpl_outcome; try done;
    [|by apply read_exact_no_panic in E2].
  destruct (addr_deserialize_partial content) as [[a len]|] eqn:Ea; simpl_outcome; [|done].
  rewrite decide_True by by eapply addr_partial_bound. simpl_outcome.
  repeat match goal with
  | |- context [read_exact ?n ?c] =>
      let E := fresh in
      destruct (read_exact n c) as [[? ?]|?|] eqn:E; simpl_outcome;
        [|done|by apply read_exact_no_panic in E]
  | |- context [read_time ?c] =>
      let E := fresh in
      destruct (read_time c) as [[? ?]|?|] eqn:E; simpl_outcome;
        [|done|by apply read_time_no_panic in E]
  end. done.
Qed.
End Codec.

(** ** Witnesses *)

Module Witness.
Import Addr.Demo.

(** An IPv4 peer last tried at 10.5 s. *)
Definition sample : record :=
  mk_record (Ipv4 [127; 0; 0; 1]) 8333 [1; 2; 3; 4] 1 0 None (Some 10500000000).

Lemma record_roundtrip_witness :
  ∃ bs, serialize sample = Some bs ∧ deserialize (bs ++ [7]) = Ok (truncate_times sample, [7]).
Proof.
  apply (record_roundtrip sample [7]); [by apply (bool_decide_unpack _); vm_compute|done].
Defined.

Lemma truncated_record_rejected_witness :
  deserialize (take 5 (default [] (serialize sample))) = Err UnexpectedEof.
Proof.
  apply (truncated_record_rejected sample).
  - by apply (bool_decide_unpack _); vm_compute.
  - reflexivity.
  - vm_compute. lia.
Defined.
End Witness.
