(* ===== verification/AddrTable.v ===== *)
(** * The address book table

    [Table<B, S, W>] and [Bucket<S>] of [crates/address-book/src/lib.rs]. The
    const generics are section variables. Operations return an option whose
    [None] is an out-of-range index (a panic); the theorems show it never
    arises. The clock and the results of hashing it are arguments. *)

From S2P Require Import Prelude Addr AddressBook.

Abbreviation Bucket := (list (option record)).
Abbreviation Table := (list (list (option record))).

Section Ids.
Context `{DefaultHasher}.

(** [SourceIdExt for IpAddr]. *)
Definition source_id (ip : IpAddr) : list Z :=
  match ip with
  | V4 octets => hash_prefix (hash_bytes (take 2 octets))
  | V6 octets => hash_prefix (hash_bytes (take 4 octets))
  end.

(** [DestinationIdExt for AddrV2]. *)
Definition destination_id (a : AddrV2) : list Z :=
  match a with
  | Ipv4 octets => hash_prefix (hash_bytes octets)
  | Ipv6 octets => hash_prefix (hash_bytes octets)
  | I2p key => hash_prefix (hash_bytes key)
  | TorV3 key => hash_prefix (hash_bytes key)
  | Cjdns octets => hash_prefix (hash_bytes octets)
  | _ => hash_prefix (hash_str "unknown network address")
  end.

(** [Record::new]. *)
Definition record_new (a : AddrV2) (port services : Z) (src : IpAddr) : record :=
  mk_record a port (source_id src) services 0 None None.

(** [Record::new_from_addrv2_source]. *)
Definition new_from_addrv2_source (a : AddrV2) (port services : Z) (src : AddrV2) : record :=
  let source := match src with
                | Ipv4 ip => source_id (V4 ip)
                | Ipv6 ip => source_id (V6 ip)
                | _ => [1; 1; 1; 1]
                end in
  mk_record a port source services 0 None None.
End Ids.

Section Table.
Context `{DefaultHasher}.
Context (B S W : nat).

(** [Table::RUN]. *)
Definition RUN : Z := Z.of_nat B / Z.of_nat W.

(** [Table::derive_bucket]. *)
Definition derive_bucket (r : record) : nat :=
  let salt := from_le_bytes r.(source) mod Z.of_nat W in
  let range := (salt * RUN) mod Z.of_nat B in
  let index := from_le_bytes (destination_id r.(addr)) mod Z.of_nat W in
  Z.to_nat ((range + index) mod Z.of_nat B).

(** [Table::random_bucket] and [Table::random_slot], from the hash of the
    clock. *)
Definition random_bucket (h : Z) : nat :=
  Z.to_nat (from_le_bytes (hash_prefix h) mod Z.of_nat B).
Definition random_slot (h : Z) : nat :=
  Z.to_nat (from_le_bytes (hash_prefix h) mod Z.of_nat S).

(** *** Buckets *)

(** [Bucket::derive_slot]. *)
Definition derive_slot (r : record) : nat :=
  Z.to_nat (hash_bytes (destination_id r.(addr)) mod Z.of_nat S).

(** [Bucket::new]. *)
Definition bucket_new : Bucket := replicate S None.

(** [Bucket::add]: the bucket after the call and the returned conflict. *)
Definition bucket_add (b : Bucket) (r : record) : option (Bucket * option record) :=
  let slot := derive_slot r in
  cell ← b !! slot;
  match cell with
  | Some occupied => Some (b, Some occupied)
  | None => Some (<[slot := Some r]> b, None)
  end.

(** [Bucket::remove]. *)
Definition bucket_remove (b : Bucket) (r : record) : option Bucket :=
  let slot := derive_slot r in
  _ ← b !! slot;
  Some (<[slot := None]> b).

(** [Bucket::has_record]. *)
Definition has_record (b : Bucket) (r : record) : option bool :=
  cell ← b !! derive_slot r;
  match cell with
  | Some cmp => Some (bool_decide (cmp = r))
  | None => Some false
  end.

(** [Bucket::is_empty]. *)
Definition bucket_is_empty (b : Bucket) : bool :=
  forallb (λ c, match c with None => true | Some _ => false end) b.

(** [Bucket::successful_connection]: the two reads of the clock are
    [now1] and [now2]. *)
Definition bucket_successful (now1 now2 : Duration) (b : Bucket) (r : record) : option Bucket :=
  let slot := derive_slot r in
  let new_flags := r.(services) in
  cell ← b !! slot;
  match cell with
  | Some o => Some (<[slot := Some (mk_record o.(addr) o.(port) o.(source)
                              new_flags 0 (Some now2) (Some now1))]> b)
  | None => Some b
  end.

(** [Bucket::failed_connection]. *)
Definition bucket_failed (now : Duration) (b : Bucket) (r : record) : option Bucket :=
  let slot := derive_slot r in
  cell ← b !! slot;
  match cell with
  | Some o => Some (<[slot := Some (mk_record o.(addr) o.(port) o.(source) o.(services)
                              (saturating_add 8 o.(failed_attempts) 1)
                              o.(last_connection) (Some now))]> b)
  | None => Some b
  end.

(** [Bucket::get]. *)
Definition get (b : Bucket) (index : nat) : option (option record) :=
  b !! (index mod S)%nat.

(** *** The table *)

(** [Table::new]. *)
Definition table_new : Table := replicate B bucket_new.

(** [Table::add]. *)
Definition add (t : Table) (r : record) : option (Table * option record) :=
  let bucket_index := derive_bucket r in
  b ← t !! bucket_index;
  '(b', conflict) ← bucket_add b r;
  Some (<[bucket_index := b']> t, conflict).

(** The shape of [remove], [successful_connection] and [failed_connection]:
    a bucket operation at the record's bucket. *)
Definition at_bucket (f : Bucket → record → option Bucket) (t : Table) (r : record) : option Table :=
  let bucket_index := derive_bucket r in
  b ← t !! bucket_index;
  b' ← f b r;
  Some (<[bucket_index := b']> t).

(** [Table::remove]. *)
Definition remove (t : Table) (r : record) : option Table := at_bucket bucket_remove t r.

(** [Table::successful_connection]. *)
Definition successful_connection (now1 now2 : Duration) (t : Table) (r : record) : option Table :=
  at_bucket (bucket_successful now1 now2) t r.

(** [Table::failed_connection]. *)
Definition failed_connection (now : Duration) (t : Table) (r : record) : option Table :=
  at_bucket (bucket_failed now) t r.

(** [Table::count]. *)
Definition count (t : Table) (r : record) : option nat :=
  found ← mapM (λ b, has_record b r) t;
  Some (length (filter (λ x, x = true) found)).

(** [Table::is_empty]. *)
Definition is_empty (t : Table) : bool := forallb bucket_is_empty t.

(** The [while] loop of [Table::random_from_bucket]: [Some None] when it ends
    without returning; [None] is an index panic or the end of the fuel. *)
Fixpoint probe_slots (fuel : nat) (now : Duration) (b : Bucket) (slot_index tmp : nat)
  : option (option record) :=
  match fuel with
  | O => None
  | Datatypes.S fuel =>
      if decide (tmp = slot_index) then Some None
      else
        cell ← get b tmp;
        let next := probe_slots fuel now b slot_index ((tmp + 1) mod S)%nat in
        match cell with
        | Some r =>
            match r.(last_attempt) with
            | None => Some (Some r)
            | Some last =>
                if decide (saturating_sub now last > ONE_MINUTE)
                then Some (Some r) else next
            end
        | None => next
        end
  end.

(** [Table::random_from_bucket]. *)
Definition random_from_bucket (h : Z) (now : Duration) (b : Bucket) : option (option record) :=
  if bucket_is_empty b then Some None
  else
    let slot_index := random_slot h in
    found ← probe_slots S now b slot_index ((slot_index + 1) mod S)%nat;
    match found with
    | Some r => Some (Some r)
    | None =>
        cell ← get b slot_index;
        Some (match cell with Some r => Some r | None => head (flatten_opts b) end)
    end.

(** The [while] loop of [Table::select]; [h] and [now] are the clock hash and
    the clock of the call that polls each bucket. *)
Fixpoint poll_buckets (fuel : nat) (h now : nat → Z) (t : Table) (bucket_index tmp : nat)
  : option (option record) :=
  match fuel with
  | O => None
  | Datatypes.S fuel =>
      if decide (tmp = bucket_index) then Some None
      else
        b ← t !! tmp;
        r ← random_from_bucket (h tmp) (now tmp) b;
        match r with
        | Some r => Some (Some r)
        | None => poll_buckets fuel h now t bucket_index ((tmp + 1) mod B)%nat
        end
  end.

(** [Table::select]. *)
Definition select (hb : Z) (h now : nat → Z) (t : Table) : option (option record) :=
  if is_empty t then Some None
  else
    let bucket_index := random_bucket hb in
    b ← t !! bucket_index;
    if bucket_is_empty b
    then poll_buckets B h now t bucket_index ((bucket_index + 1) mod B)%nat
    else random_from_bucket (h bucket_index) (now bucket_index) b.
End Table.

(** ** Shape, placement and the abstract table *)

(** The record in a slot, if any. *)
Definition slot_at (t : Table) (p : nat * nat) : option record :=
  b ← t !! p.1; c ← b !! p.2; c.

Lemma slot_at_bucket (t : Table) (b : Bucket) i j :
  t !! i = Some b → slot_at t (i, j) = (c ← b !! j; c).
Proof. intros Hi. unfold slot_at. cbn [fst snd]. by rewrite Hi. Qed.

Lemma slot_at_Some (t : Table) (b : Bucket) i j r :
  t !! i = Some b → b !! j = Some (Some r) → slot_at t (i, j) = Some r.
Proof. intros Hi Hj. rewrite (slot_at_bucket _ b) by done. by rewrite Hj. Qed.

Lemma slot_at_inv (t : Table) i j r :
  slot_at t (i, j) = Some r → ∃ b : Bucket, t !! i = Some b ∧ b !! j = Some (Some r).
Proof.
  unfold slot_at. cbn [fst snd]. destruct (t !! i) as [b|]; [|done].
  cbn [mbind option_bind]. destruct (b !! j) as [c|] eqn:Hj; [|done].
  cbn [mbind option_bind]. intros ->. eauto.
Qed.

Lemma bucket_is_empty_true (b : Bucket) :
  bucket_is_empty b = true ↔ ∀ i r, b !! i ≠ Some (Some r).
Proof.
  unfold bucket_is_empty. rewrite forallb_lookup. split.
  - intros Hb i r Hi. by apply Hb in Hi.
  - intros Hb i [r|] Hi; [|done]. by apply Hb in Hi.
Qed.

Lemma slot_at_empty (t : Table) (b : Bucket) i j :
  t !! i = Some b → bucket_is_empty b = true → slot_at t (i, j) = None.
Proof.
  intros Hi Hb. destruct (slot_at t (i, j)) as [r|] eqn:Hr; [|done].
  apply slot_at_inv in Hr as (b'&Hb'&Hj). simplify_eq.
  by destruct (proj1 (bucket_is_empty_true b) Hb j r).
Qed.

Lemma slot_at_insert (t : Table) (b : Bucket) i j (c : option record) p :
  t !! i = Some b → (j < length b)%nat →
  slot_at (<[i := <[j := c]> b]> t) p = if decide (p = (i, j)) then c else slot_at t p.
Proof.
  intros Hi Hj. destruct p as [i' j']. unfold slot_at. cbn [fst snd].
  pose proof (lookup_lt_Some _ _ _ Hi).
  destruct (decide (i = i')) as [<-|Hne].
  - rewrite list_lookup_insert_eq by done. rewrite Hi. cbn [mbind option_bind].
    destruct (decide (j = j')) as [<-|Hne].
    + rewrite list_lookup_insert_eq by done. by rewrite decide_True.
    + rewrite list_lookup_insert_ne by done. rewrite decide_False by congruence. done.
  - rewrite list_lookup_insert_ne by done. rewrite decide_False by congruence. done.
Qed.

Section Proofs.
Context `{DefaultHasher}.
Context (B S W : nat) (HB : (0 < B)%nat) (HS : (0 < S)%nat) (HW : (0 < W)%nat).
Implicit Types (t : Table) (b : Bucket) (r : record).

Abbreviation dbucket := (derive_bucket B W).
Abbreviation dslot := (derive_slot S).

(** The bucket and slot a record is stored at. *)
Definition pos r : nat * nat := (dbucket r, dslot r).

Definition table_shape t : Prop :=
  length t = B ∧ Forall (λ b : Bucket, length b = S) t.

(** The invariant: [B] buckets of [S] slots, and every record is well formed
    and sits at its own position. *)
Definition table_ok t : Prop :=
  table_shape t ∧ ∀ p r, slot_at t p = Some r → p = pos r ∧ record_ok r.

Lemma derive_bucket_lt r : (dbucket r < B)%nat.
Proof. by apply to_nat_mod_lt. Qed.
Lemma derive_slot_lt r : (dslot r < S)%nat.
Proof. by apply to_nat_mod_lt. Qed.
Lemma random_bucket_lt h : (random_bucket B h < B)%nat.
Proof. by apply to_nat_mod_lt. Qed.
Lemma random_slot_lt h : (random_slot S h < S)%nat.
Proof. by apply to_nat_mod_lt. Qed.

(** The position depends on the address and the source only. *)
Lemma pos_ext r r' : r.(addr) = r'.(addr) → r.(source) = r'.(source) → pos r = pos r'.
Proof. intros Ha Hs. unfold pos, derive_bucket, derive_slot. by rewrite Ha, Hs. Qed.

(** Indexing at the position of a record succeeds. *)
Lemma locate t r :
  table_shape t →
  ∃ b c, t !! dbucket r = Some b ∧ length b = S ∧
         b !! dslot r = Some c ∧ slot_at t (pos r) = c.
Proof.
  intros [Hl Hf].
  destruct (lookup_lt_is_Some_2 t (dbucket r)) as [b Hb].
  { rewrite Hl. apply derive_bucket_lt. }
  assert (length b = S) as Hb' by exact (Forall_lookup_1 _ _ _ _ Hf Hb).
  destruct (lookup_lt_is_Some_2 b (dslot r)) as [c Hc].
  { rewrite Hb'. apply derive_slot_lt. }
  exists b, c. split_and!; try done. unfold pos.
  rewrite (slot_at_bucket _ b) by done. by rewrite Hc.
Qed.

Lemma shape_insert t b i b' :
  table_shape t → t !! i = Some b → length b' = S → table_shape (<[i := b']> t).
Proof.
  intros [Hl Hf] Hi Hb. split; [by rewrite length_insert|]. by apply Forall_insert.
Qed.

(** Writing a cell at the position of [r]. *)
Lemma write_cell t r b c :
  table_shape t → t !! dbucket r = Some b → length b = S →
  let t' := <[dbucket r := <[dslot r := c]> b]> t in
  table_shape t' ∧ ∀ p, slot_at t' p = if decide (p = pos r) then c else slot_at t p.
Proof.
  intros Ht Hb Hl. split.
  - eapply shape_insert; [done..|]. by rewrite length_insert.
  - intros p. apply slot_at_insert; [done|]. rewrite Hl. apply derive_slot_lt.
Qed.

Lemma add_total t r :
  table_shape t → ∃ t' c, add B S W t r = Some (t', c) ∧ table_shape t'.
Proof.
  intros Ht. destruct (locate t r Ht) as (b&c&Hb&Hl&Hc&_).
  unfold add, bucket_add. rewrite Hb. cbn [mbind option_bind]. rewrite Hc.
  destruct c as [o|]; eexists _, _; (split; [done|]);
    (eapply shape_insert; [done..|]); by rewrite ?length_insert.
Qed.

(** *** The abstract table: a finite map from positions to records *)

Definition refines t (m : gmap (nat * nat) record) : Prop :=
  table_shape t ∧ ∀ p, slot_at t p = m !! p.

Definition spec_add (m : gmap (nat * nat) record) r
  : gmap (nat * nat) record * option record :=
  match m !! pos r with
  | Some occupied => (m, Some occupied)
  | None => (<[pos r := r]> m, None)
  end.

(** The effect of a reported success or failure on the stored record. *)
Definition succeeded (now1 now2 : Duration) (flags : Z) r : record :=
  mk_record r.(addr) r.(port) r.(source) flags 0 (Some now2) (Some now1).
Definition failed (now : Duration) r : record :=
  mk_record r.(addr) r.(port) r.(source) r.(services)
    (saturating_add 8 r.(failed_attempts) 1) r.(last_connection) (Some now).

Lemma add_refines t m r :
  refines t m →
  ∃ t', add B S W t r = Some (t', (spec_add m r).2) ∧ refines t' (spec_add m r).1.
Proof.
  intros [Hs Hm]. destruct (locate t r Hs) as (b&c&Hb&Hl&Hc&Hat).
  unfold add, bucket_add, spec_add. rewrite Hb. cbn [mbind option_bind]. rewrite Hc.
  cbn [mbind option_bind]. rewrite <- (Hm (pos r)), Hat.
  destruct c as [o|]; cbn [fst snd].
  - eexists. split; [done|]. by rewrite list_insert_id.
  - eexists. split; [done|].
    destruct (write_cell t r b (Some r)) as [Hs' Hw]; [done..|].
    split; [done|]. intros p. rewrite Hw. case_decide as Hp.
    + subst. by rewrite lookup_insert_eq.
    + by rewrite lookup_insert_ne.
Qed.

Lemma remove_refines t m r :
  refines t m → ∃ t', remove B S W t r = Some t' ∧ refines t' (delete (pos r) m).
Proof.
  intros [Hs Hm]. destruct (locate t r Hs) as (b&c&Hb&Hl&Hc&Hat).
  unfold remove, at_bucket, bucket_remove. rewrite Hb. cbn [mbind option_bind].
  rewrite Hc. cbn [mbind option_bind]. eexists. split; [done|].
  destruct (write_cell t r b None) as [Hs' Hw]; [done..|].
  split; [done|]. intros p. rewrite Hw. case_decide as Hp.
  - subst. by rewrite lookup_delete_eq.
  - by rewrite lookup_delete_ne.
Qed.

(** An operation that rewrites the record found in the slot, if any. *)
Lemma update_refines (f : record → record) (g : Bucket → record → option Bucket) t m r :
  (∀ b c, b !! dslot r = Some c →
     g b r = Some (match c with
                   | Some o => <[dslot r := Some (f o)]> b
                   | None => b end)) →
  refines t m →
  ∃ t', at_bucket B W g t r = Some t' ∧ refines t' (alter f (pos r) m).
Proof.
  intros Hg [Hs Hm]. destruct (locate t r Hs) as (b&c&Hb&Hl&Hc&Hat).
  unfold at_bucket. rewrite Hb. cbn [mbind option_bind]. rewrite (Hg _ _ Hc).
  cbn [mbind option_bind]. eexists. split; [done|].
  destruct c as [o|].
  - destruct (write_cell t r b (Some (f o))) as [Hs' Hw]; [done..|].
    split; [done|]. intros p. rewrite Hw. case_decide as Hp.
    + subst. rewrite lookup_alter_eq, <- Hm, Hat. done.
    + by rewrite lookup_alter_ne.
  - rewrite list_insert_id by done. split; [done|]. intros p.
    destruct (decide (p = pos r)) as [->|Hp].
    + rewrite lookup_alter_eq, <- Hm, Hat. done.
    + by rewrite lookup_alter_ne.
Qed.

Lemma successful_refines now1 now2 t m r :
  refines t m →
  ∃ t', successful_connection B S W now1 now2 t r = Some t' ∧
        refines t' (alter (succeeded now1 now2 r.(services)) (pos r) m).
Proof.
  apply update_refines. intros b [o|] Hc; unfold bucket_successful; by rewrite Hc.
Qed.

Lemma failed_refines now t m r :
  refines t m →
  ∃ t', failed_connection B S W now t r = Some t' ∧ refines t' (alter (failed now) (pos r) m).
Proof.
  apply update_refines. intros b [o|] Hc; unfold bucket_failed; by rewrite Hc.
Qed.

(** *** The invariant through the abstract table *)

Definition map_ok (m : gmap (nat * nat) record) : Prop :=
  map_Forall (λ p r, p = pos r ∧ record_ok r) m.

Lemma table_ok_refines t m : refines t m → table_ok t ↔ map_ok m.
Proof.
  intros [Hs Hm]. unfold table_ok, map_ok, map_Forall. setoid_rewrite Hm. naive_solver.
Qed.

Lemma map_ok_add m r : map_ok m → record_ok r → map_ok (spec_add m r).1.
Proof.
  intros Hm Hr. unfold spec_add. case_match; [done|]. apply map_Forall_insert_2; done.
Qed.

Lemma map_ok_alter f m p :
  (∀ r, record_ok r → record_ok (f r) ∧ pos (f r) = pos r) →
  map_ok m → map_ok (alter f p m).
Proof.
  intros Hf Hm q r [(<-&r'&Hr'&->)|[_ Hr]]%lookup_alter_Some; [|by apply Hm].
  apply Hm in Hr' as [-> Hr']. by destruct (Hf r') as [? ->].
Qed.

Lemma succeeded_ok now1 now2 flags r :
  time_ok (Some now1) → time_ok (Some now2) → in_u 64 flags →
  record_ok r → record_ok (succeeded now1 now2 flags r) ∧ pos (succeeded now1 now2 flags r) = pos r.
Proof. intros ??? (?&?&?&?&?&?&?). split; [|done]. by split_and!. Qed.

Lemma failed_ok now r :
  time_ok (Some now) → record_ok r → record_ok (failed now r) ∧ pos (failed now r) = pos r.
Proof.
  intros Hn (?&?&?&?&Hf&?&?). split; [|done]. split_and!; try done.
  apply saturating_add_range; [lia|apply Hf|lia].
Qed.

(** *** Operations on the concrete table, and reachable tables *)

Inductive op :=
| OpAdd (r : record)
| OpRemove (r : record)
| OpSuccess (now1 now2 : Duration) (r : record)
| OpFailure (now : Duration) (r : record).

Definition op_ok (o : op) : Prop :=
  match o with
  | OpAdd r => record_ok r
  | OpRemove _ => True
  | OpSuccess now1 now2 r =>
      time_ok (Some now1) ∧ time_ok (Some now2) ∧ record_ok r
  | OpFailure now r => time_ok (Some now)
  end.

Definition run_op (o : op) t : option Table :=
  match o with
  | OpAdd r => fst <$> add B S W t r
  | OpRemove r => remove B S W t r
  | OpSuccess now1 now2 r => successful_connection B S W now1 now2 t r
  | OpFailure now r => failed_connection B S W now t r
  end.

Definition spec_op (o : op) (m : gmap (nat * nat) record) : gmap (nat * nat) record :=
  match o with
  | OpAdd r => (spec_add m r).1
  | OpRemove r => delete (pos r) m
  | OpSuccess now1 now2 r => alter (succeeded now1 now2 r.(services)) (pos r) m
  | OpFailure now r => alter (failed now) (pos r) m
  end.

Lemma op_refines o t m :
  refines t m → ∃ t', run_op o t = Some t' ∧ refines t' (spec_op o m).
Proof.
  intros Hr. destruct o as [r|r|n1 n2 r|n r]; cbn [run_op spec_op].
  - destruct (add_refines t m r Hr) as (t'&->&?). by exists t'.
  - by apply remove_refines.
  - by apply successful_refines.
  - by apply failed_refines.
Qed.

Lemma spec_op_ok o m : op_ok o → map_ok m → map_ok (spec_op o m).
Proof.
  destruct o as [r|r|n1 n2 r|n r]; cbn [op_ok spec_op].
  - intros. by apply map_ok_add.
  - intros _ Hm. by apply map_Forall_delete.
  - intros (?&?&Hr). apply map_ok_alter. intros r' Hr'.
    apply succeeded_ok; try done. apply Hr.
  - intros Hn. apply map_ok_alter. intros r' Hr'. by apply failed_ok.
Qed.

Lemma table_new_refines : refines (table_new B S) ∅.
Proof.
  unfold table_new, bucket_new. split.
  - split; [by rewrite length_replicate|]. apply Forall_replicate. apply length_replicate.
  - intros [i j]. rewrite lookup_empty. unfold slot_at. cbn [fst snd].
    destruct (replicate B _ !! i) as [b|] eqn:Hb; [|done]. cbn [mbind option_bind].
    apply lookup_replicate in Hb as [-> _].
    destruct (replicate S None !! j) as [c|] eqn:Hc; [|done]. cbn [mbind option_bind].
    by apply lookup_replicate in Hc as [-> _].
Qed.

(** A sequence of operations from the empty table. *)
Definition run_ops (os : list op) : option Table :=
  foldl (λ ot o, t ← ot; run_op o t) (Some (table_new B S)) os.
Definition spec_ops (os : list op) : gmap (nat * nat) record :=
  foldl (λ m o, spec_op o m) ∅ os.

Lemma run_ops_refines os :
  ∃ t, run_ops os = Some t ∧ refines t (spec_ops os).
Proof.
  induction os as [|o os IH] using rev_ind.
  - exists (table_new B S). split; [done|]. apply table_new_refines.
  - unfold run_ops, spec_ops in *. rewrite !foldl_snoc.
    destruct IH as (t&->&Ht). cbn [mbind option_bind]. by apply op_refines.
Qed.

Lemma reachable_refines os t :
  run_ops os = Some t → refines t (spec_ops os).
Proof.
  intros Hrun. destruct (run_ops_refines os) as (t'&Hrun'&Hr). congruence.
Qed.

Lemma spec_ops_ok os : Forall op_ok os → map_ok (spec_ops os).
Proof.
  induction os as [|o os IH] using rev_ind.
  - intros _. apply map_Forall_empty.
  - rewrite Forall_app, Forall_singleton. intros [Hos Ho].
    unfold spec_ops. rewrite foldl_snoc. by apply spec_op_ok, IH.
Qed.
End Proofs.

(** ** Selection *)

Section Probe.
Context (S : nat) (HS : (0 < S)%nat).
Implicit Types (t : Table) (b : Bucket) (r : record).


(** A record that was not attempted during the last minute. *)
Definition rested (now : Duration) r : Prop :=
  match r.(last_attempt) with
  | None => True
  | Some last => saturating_sub now last > ONE_MINUTE
  end.

Lemma bucket_is_empty_false b :
  bucket_is_empty b = false → ∃ i r, b !! i = Some (Some r).
Proof.
  induction b as [|[r|] b IH]; intros Hb; [done|by exists 0%nat, r|].
  destruct IH as (i&r&?); [done|]. by exists (Datatypes.S i), r.
Qed.

Lemma is_empty_true t : is_empty t = true ↔ ∀ p, slot_at t p = None.
Proof.
  unfold is_empty. rewrite forallb_lookup. split.
  - intros Ht [i j]. destruct (slot_at t (i, j)) as [r|] eqn:Hr; [|done].
    apply slot_at_inv in Hr as (b&Hb&Hj). apply Ht in Hb.
    by destruct (proj1 (bucket_is_empty_true b) Hb j r).
  - intros Ht i b Hi. apply bucket_is_empty_true. intros j r Hj.
    specialize (Ht (i, j)). by rewrite (slot_at_Some t b i j r) in Ht.
Qed.

Lemma get_lt b i : length b = S → (i < S)%nat → get S b i = b !! i.
Proof. intros. unfold get. by rewrite Nat.mod_small. Qed.

(** The probing loop, entered with [k] slots left to visit. *)
Lemma probe_slots_spec now b a k fuel :
  length b = S → (a < S)%nat → (k < S)%nat → (k < fuel)%nat →
  ∃ res, probe_slots S fuel now b a (ring_at S a k) = Some res ∧
    match res with
    | Some r => rested now r ∧ ∃ i, i ≠ a ∧ b !! i = Some (Some r)
    | None => ∀ j r, (0 < j ≤ k)%nat → b !! ring_at S a j = Some (Some r) → ¬ rested now r
    end.
Proof.
  intros Hl Ha. revert fuel. induction k as [|k IH]; intros fuel Hk Hf;
    (destruct fuel as [|fuel]; [lia|]); cbn [probe_slots].
  - rewrite ring_zero by done. rewrite decide_True by done.
    exists None. split; [done|]. lia.
  - rewrite decide_False by (apply ring_ne; lia).
    rewrite get_lt by (done || by apply ring_lt).
    destruct (lookup_lt_is_Some_2 b (ring_at S a (Datatypes.S k))) as [c Hc].
    { rewrite Hl. by apply ring_lt. }
    rewrite Hc. cbn [mbind option_bind].
    rewrite ring_next by lia. replace (Datatypes.S k - 1)%nat with k by lia.
    destruct (IH fuel) as (res&->&Hres); [lia..|].
    assert (∀ r, c = Some r → ¬ rested now r → ∃ res', Some res = Some res' ∧
      match res' with
      | Some r => rested now r ∧ ∃ i, i ≠ a ∧ b !! i = Some (Some r)
      | None => ∀ j r, (0 < j ≤ Datatypes.S k)%nat →
                  b !! ring_at S a j = Some (Some r) → ¬ rested now r
      end) as Hskip.
    { intros r -> Hr. exists res. split; [done|]. destruct res; [done|].
      intros j r' Hj Hr'. destruct (decide (j = Datatypes.S k)) as [->|].
      - congruence.
      - apply (Hres j); [lia|done]. }
    destruct c as [r|].
    + destruct (last_attempt r) as [last|] eqn:Hlast.
      * case_decide as Hd; [|apply (Hskip r); [done|by unfold rested; rewrite Hlast]].
        exists (Some r). split; [done|]. split; [by unfold rested; rewrite Hlast|].
        eexists. split; [|exact Hc]. apply ring_ne; lia.
      * exists (Some r). split; [done|]. split; [by unfold rested; rewrite Hlast|].
        eexists. split; [|exact Hc]. apply ring_ne; lia.
    + exists res. split; [done|]. destruct res; [done|].
      intros j r' Hj Hr'. destruct (decide (j = Datatypes.S k)) as [->|]; [congruence|].
      apply (Hres j); [lia|done].
Qed.

(** What polling a bucket returns. *)
Lemma random_from_bucket_spec h now b :
  length b = S →
  ∃ res, random_from_bucket S h now b = Some res ∧
    (res = None ↔ bucket_is_empty b = true) ∧
    (∀ r, res = Some r → ∃ i, b !! i = Some (Some r)) ∧
    (∀ i r', i ≠ random_slot S h → b !! i = Some (Some r') → rested now r' →
       ∃ r, res = Some r ∧ rested now r).
Proof.
  intros Hl. unfold random_from_bucket.
  destruct (bucket_is_empty b) eqn:He.
  { exists None. rewrite bucket_is_empty_true in He. split_and!; try done.
    intros i r' _ Hi. by apply He in Hi. }
  pose proof (random_slot_lt S HS h) as Ha. set (a := random_slot S h) in *.
  rewrite ring_start by done.
  destruct (probe_slots_spec now b a (S - 1) S) as (res&->&Hres); [done|done|lia|lia|].
  cbn [mbind option_bind]. destruct res as [r|].
  { destruct Hres as [Hr (i&_&Hi)]. exists (Some r). split_and!; try done.
    - naive_solver.
    - intros _ _ _ _ _. eauto. }
  rewrite get_lt by done. destruct (lookup_lt_is_Some_2 b a) as [c Hc]; [by rewrite Hl|].
  rewrite Hc. cbn [mbind option_bind]. eexists. split; [done|].
  apply bucket_is_empty_false in He as (i&r&Hi).
  assert (∃ r0, head (flatten_opts b) = Some r0 ∧ Some r0 ∈ b) as (r0&Hh&Hr0).
  { assert (r ∈ flatten_opts b) as Hr.
    { apply elem_of_flatten_opts. by eapply list_elem_of_lookup_2. }
    destruct (flatten_opts b) as [|r0 l] eqn:Hf; [by apply not_elem_of_nil in Hr|].
    exists r0. split; [done|]. apply elem_of_flatten_opts. rewrite Hf. apply list_elem_of_here. }
  apply list_elem_of_lookup in Hr0. split_and!.
  - destruct c; [done|]. by rewrite Hh.
  - intros r1 Hr1. destruct c as [r2|]; [|rewrite Hh in Hr1]; simplify_eq; eauto.
  - intros i' r' Hne Hi' Hr'. exfalso.
    destruct (ring_all S a Ha i') as (k&Hk&->); [|done|].
    { rewrite <- Hl. by eapply lookup_lt_Some. }
    eapply (Hres k); [lia|done..].
Qed.

End Probe.

Section Select.
Context (B S : nat) (HB : (0 < B)%nat) (HS : (0 < S)%nat).
Implicit Types (t : Table) (b : Bucket) (r : record).

Lemma bucket_at_length t i b : table_shape B S t → t !! i = Some b → length b = S.
Proof. intros [_ Hf] Hi. exact (Forall_lookup_1 _ _ _ _ Hf Hi). Qed.

(** The polling loop over the buckets, entered with [k] buckets left. *)
Lemma poll_buckets_spec hh nn t a k fuel :
  table_shape B S t → (a < B)%nat → (k < B)%nat → (k < fuel)%nat →
  ∃ res, poll_buckets B S fuel hh nn t a (ring_at B a k) = Some res ∧
    match res with
    | Some r => ∃ p, slot_at t p = Some r
    | None => ∀ j i, (0 < j ≤ k)%nat → slot_at t (ring_at B a j, i) = None
    end.
Proof.
  intros Hs Ha. revert fuel. induction k as [|k IH]; intros fuel Hk Hf;
    (destruct fuel as [|fuel]; [lia|]); cbn [poll_buckets].
  - rewrite ring_zero by done. rewrite decide_True by done.
    exists None. split; [done|]. lia.
  - rewrite decide_False by (apply ring_ne; lia).
    destruct (lookup_lt_is_Some_2 t (ring_at B a (Datatypes.S k))) as [b Hb].
    { rewrite (proj1 Hs). by apply ring_lt. }
    rewrite Hb. cbn [mbind option_bind].
    set (q := ring_at B a (Datatypes.S k)) in *.
    destruct (random_from_bucket_spec S HS (hh q) (nn q) b) as (res&->&He&Hin&_).
    { by eapply bucket_at_length. }
    cbn [mbind option_bind]. destruct res as [r|].
    + exists (Some r). split; [done|]. destruct (Hin r) as [i Hi]; [done|].
      exists (q, i). by eapply slot_at_Some.
    + unfold q. rewrite ring_next by lia. replace (Datatypes.S k - 1)%nat with k by lia.
      destruct (IH fuel) as (res&->&Hres); [lia..|]. exists res. split; [done|].
      destruct res; [done|]. intros j i Hj.
      destruct (decide (j = Datatypes.S k)) as [->|]; [|apply Hres; lia].
      eapply slot_at_empty; [done|by apply He].
Qed.

(** [select] always returns, finds a record whenever there is one, and only
    returns stored records. *)
Lemma select_spec hb hh nn t :
  table_shape B S t →
  ∃ res, select B S hb hh nn t = Some res ∧
    (res = None ↔ ∀ p, slot_at t p = None) ∧
    (∀ r, res = Some r → ∃ p, slot_at t p = Some r).
Proof.
  intros Hs. unfold select. destruct (is_empty t) eqn:He.
  { exists None. rewrite is_empty_true in He. by split_and!. }
  pose proof (random_bucket_lt B HB hb) as Ha. set (a := random_bucket B hb) in *.
  destruct (lookup_lt_is_Some_2 t a) as [b Hb]; [by rewrite (proj1 Hs)|].
  rewrite Hb. cbn [mbind option_bind].
  pose proof (bucket_at_length _ _ _ Hs Hb) as Hl.
  assert (¬ ∀ p, slot_at t p = None) as Hne.
  { rewrite <- is_empty_true, He. done. }
  destruct (bucket_is_empty b) eqn:Hbe.
  - rewrite ring_start by done.
    destruct (poll_buckets_spec hh nn t a (B - 1) B) as (res&->&Hres); [done..|lia|lia|].
    exists res. split; [done|]. destruct res as [r|]; [by naive_solver|].
    exfalso. apply Hne. intros [i j].
    destruct (decide (i = a)) as [->|Hi].
    + by eapply slot_at_empty.
    + destruct (decide (i < B)%nat) as [Hlt|Hge].
      * destruct (ring_all B a Ha i) as (k&Hk&->); [done..|]. apply Hres. lia.
      * unfold slot_at. cbn [fst snd]. rewrite lookup_ge_None_2; [done|].
        rewrite (proj1 Hs). lia.
  - destruct (random_from_bucket_spec S HS (hh a) (nn a) b Hl) as (res&->&Hemp&Hin&_).
    exists res. split; [done|]. split.
    + split; [intros ->|done]. exfalso. rewrite (proj1 Hemp) in Hbe; done.
    + intros r ->. destruct (Hin r) as [i Hi]; [done|]. exists (a, i).
      by eapply slot_at_Some.
Qed.
End Select.

(** ** The limit on a single source *)

Section SourceLimit.
Context `{DefaultHasher}.
Context (B S W : nat) (HB : (0 < B)%nat) (HS : (0 < S)%nat) (HW : (0 < W)%nat).

(** Does a bucket hold a record gossiped by the source [src]? *)
Definition holds_source (src : list Z) (b : Bucket) : bool :=
  existsb (λ c, match c with Some r => bool_decide (r.(source) = src) | None => false end) b.

(** The buckets that hold a record of the source. *)
Definition source_buckets (src : list Z) (t : Table) : list nat :=
  filter (λ i, from_option (holds_source src) false (t !! i) = true) (seq 0 B).

(** The [W] buckets [derive_bucket] can reach for a source. *)
Definition window (src : list Z) : list nat :=
  (λ i, Z.to_nat ((((from_le_bytes src mod Z.of_nat W) * RUN B W) mod Z.of_nat B
                   + Z.of_nat i) mod Z.of_nat B)) <$> seq 0 W.

Lemma derive_bucket_window r : derive_bucket B W r ∈ window r.(source).
Proof.
  unfold window. apply list_elem_of_fmap.
  exists (Z.to_nat (from_le_bytes (destination_id r.(addr)) mod Z.of_nat W)).
  pose proof (Z.mod_pos_bound (from_le_bytes (destination_id r.(addr))) (Z.of_nat W)).
  split.
  - unfold derive_bucket. rewrite Z2Nat.id by lia. done.
  - apply elem_of_seq. lia.
Qed.

Lemma holds_source_true src (b : Bucket) :
  holds_source src b = true → ∃ j r, b !! j = Some (Some r) ∧ r.(source) = src.
Proof.
  unfold holds_source. rewrite existsb_exists. intros ([r|]&Hin&Hr); [|done].
  apply bool_decide_eq_true in Hr. apply list_elem_of_In, list_elem_of_lookup in Hin as [j Hj].
  eauto.
Qed.

Lemma source_buckets_window src t :
  table_ok B S W t → source_buckets src t ⊆ window src.
Proof.
  intros [_ Hp] i. unfold source_buckets. rewrite list_elem_of_filter.
  intros [Hi _]. destruct (t !! i) as [b|] eqn:Hb; [|done]. cbn in Hi.
  apply holds_source_true in Hi as (j&r&Hj&<-).
  destruct (Hp (i, j) r) as [[= -> _] _]; [by eapply slot_at_Some|].
  apply derive_bucket_window.
Qed.

Lemma source_buckets_length src t :
  table_ok B S W t → (length (source_buckets src t) ≤ W)%nat.
Proof.
  intros Ht. apply source_buckets_window with (src := src) in Ht.
  assert (NoDup (source_buckets src t)) as Hnd.
  { apply NoDup_filter, NoDup_seq. }
  transitivity (length (window src)).
  - by apply submseteq_length, NoDup_submseteq.
  - unfold window. by rewrite length_fmap, length_seq.
Qed.
End SourceLimit.

(** ** Properties of the table *)

Section Properties.
Context `{DefaultHasher}.
Context (B S W : nat) (HB : (0 < B)%nat) (HS : (0 < S)%nat) (HW : (0 < W)%nat).

(** C20: every sequence of [add], [remove], [successful_connection] and
    [failed_connection] on a new table runs without an out-of-range index and
    implements the abstract table, a finite map from (bucket, slot) to record. *)
Theorem table_refines_map (os : list op) :
  ∃ t, run_ops B S W os = Some t ∧ refines B S t (spec_ops B S W os).
Proof. by apply run_ops_refines. Qed.

Lemma reachable_ok os t :
  Forall op_ok os → run_ops B S W os = Some t → table_ok B S W t.
Proof.
  intros Hos Hrun. apply reachable_refines in Hrun; [|done..].
  apply (table_ok_refines B S W t _ Hrun). by apply spec_ops_ok.
Qed.

(** In every reachable table there are [B] buckets of [S] slots and each
    stored record is well formed and sits in the bucket and slot derived from
    its source and address. *)
Theorem table_placed (os : list op) t :
  Forall op_ok os → run_ops B S W os = Some t →
  length t = B ∧ Forall (λ b : Bucket, length b = S) t ∧
  ∀ i j r, slot_at t (i, j) = Some r →
    i = derive_bucket B W r ∧ j = derive_slot S r ∧ record_ok r.
Proof.
  intros Hos Hrun. destruct (reachable_ok os t Hos Hrun) as [[Hl Hf] Hp].
  split_and!; [done..|]. intros i j r Hr. by destruct (Hp _ _ Hr) as [[= -> ->] ?].
Qed.

(** C21: whatever is done to the table, the records gossiped by one source are
    spread over at most [W] of the [B] buckets; with [W < B] some bucket is
    free of that source. *)
Theorem source_limited (os : list op) t src :
  Forall op_ok os → run_ops B S W os = Some t →
  (length (source_buckets B src t) ≤ W)%nat ∧
  ((W < B)%nat → ∃ i, (i < B)%nat ∧ i ∉ source_buckets B src t).
Proof.
  intros Hos Hrun. apply reachable_ok in Hrun; [|done].
  assert (length (source_buckets B src t) ≤ W)%nat as Hlen
    by by apply (source_buckets_length B S W).
  split; [done|].
  intros HWB. destruct (decide (Forall (.∈ source_buckets B src t) (seq 0 B))) as [Hall|Hn].
  - exfalso. rewrite Forall_forall in Hall.
    assert (length (seq 0 B) ≤ length (source_buckets B src t))%nat as Hle.
    { apply submseteq_length, NoDup_submseteq; [apply NoDup_seq|exact Hall]. }
    rewrite length_seq in Hle. lia.
  - apply not_Forall_Exists in Hn; [|apply _]. apply Exists_exists in Hn as (i&Hi&Hn).
    exists i. apply elem_of_seq in Hi. split; [lia|done].
Qed.

(** [select] terminates without panicking whatever the clock and the
    random hashes, returns [None] only for an empty table, and otherwise a
    record that is stored. *)
Theorem select_total (os : list op) t hb (hh nn : nat → Z) :
  run_ops B S W os = Some t →
  ∃ res, select B S hb hh nn t = Some res ∧
    (res = None ↔ ∀ p, slot_at t p = None) ∧
    (∀ r, res = Some r → ∃ p, slot_at t p = Some r).
Proof.
  intros Hrun. apply reachable_refines in Hrun; [|done..].
  apply (select_spec B S HB HS hb hh nn t), Hrun.
Qed.

(** Polling a bucket that holds, outside the random slot, a record not
    attempted during the last minute returns such a record; a non-empty bucket
    always yields one of its records. *)
Theorem polled_record_is_rested h now (b : Bucket) :
  length b = S →
  ∃ res, random_from_bucket S h now b = Some res ∧
    (res = None ↔ bucket_is_empty b = true) ∧
    (∀ r, res = Some r → ∃ i, b !! i = Some (Some r)) ∧
    (∀ i r', i ≠ random_slot S h → b !! i = Some (Some r') → rested now r' →
       ∃ r, res = Some r ∧ rested now r).
Proof. by apply random_from_bucket_spec. Qed.

Lemma has_record_other t i (b : Bucket) r :
  table_ok B S W t → t !! i = Some b → i ≠ derive_bucket B W r → has_record S b r = Some false.
Proof.
  intros [[Hl Hf] Hp] Hi Hne. unfold has_record.
  pose proof (Forall_lookup_1 _ _ _ _ Hf Hi) as Hlb. cbn in Hlb.
  destruct (lookup_lt_is_Some_2 b (derive_slot S r)) as [c Hc].
  { rewrite Hlb. by apply derive_slot_lt. }
  rewrite Hc. cbn [mbind option_bind]. destruct c as [r'|]; [|done].
  rewrite bool_decide_eq_false_2; [done|]. intros ->.
  destruct (Hp (i, derive_slot S r) r) as [[= ?] _]; [by eapply slot_at_Some|done].
Qed.

Lemma count_trues (k n : nat) (x : bool) :
  (k < n)%nat →
  length (filter (λ y : bool, y = true) (<[k := x]> (replicate n false)))
  = if x then 1%nat else 0%nat.
Proof.
  assert (∀ n, filter (λ y : bool, y = true) (replicate n false) = []) as Hnil.
  { clear. induction n; cbn [replicate]; [done|]. by rewrite filter_cons_False. }
  revert k. induction n as [|n IH]; intros k Hk; [lia|]. destruct k as [|k].
  - change (<[0%nat := x]> (replicate (Datatypes.S n) false)) with (x :: replicate n false).
    destruct x; [rewrite filter_cons_True by done|rewrite filter_cons_False by done];
      by rewrite Hnil.
  - change (<[Datatypes.S k := x]> (replicate (Datatypes.S n) false))
      with (false :: <[k := x]> (replicate n false)).
    rewrite filter_cons_False by done. apply IH. lia.
Qed.

Lemma count_ok t r :
  table_ok B S W t →
  count S t r = Some (if bool_decide (slot_at t (pos B S W r) = Some r) then 1%nat else 0%nat).
Proof.
  intros Ht. destruct (locate B S W HB HS t r (proj1 Ht)) as (b&c&Hb&Hl&Hc&Hat).
  rewrite Hat. unfold count.
  assert (mapM (λ b, has_record S b r) t =
          Some (<[derive_bucket B W r := bool_decide (c = Some r)]> (replicate B false))) as ->.
  { apply mapM_Some, Forall2_same_length_lookup. rewrite length_insert, length_replicate.
    split; [apply Ht|]. intros i b' x Hi Hx.
    apply list_lookup_insert_Some in Hx as [(<-&<-&_)|[Hne Hx]].
    - assert (b' = b) as -> by congruence. unfold has_record. rewrite Hc.
      destruct c as [r'|]; cbn; f_equal; apply bool_decide_ext; split; congruence.
    - apply lookup_replicate in Hx as [-> _]. by eapply has_record_other. }
  cbn [mbind option_bind]. by rewrite count_trues by by apply derive_bucket_lt.
Qed.

(** The network address of a record is counted once when the record is
    stored and never otherwise; adding a record to a free position stores it,
    adding to an occupied one changes nothing and returns the occupant. *)
Theorem add_then_count (os : list op) t r :
  Forall op_ok os → record_ok r → run_ops B S W os = Some t →
  ∃ t', match slot_at t (pos B S W r) with
        | None => add B S W t r = Some (t', None) ∧ count S t' r = Some 1%nat
        | Some o => add B S W t r = Some (t', Some o) ∧ t' = t ∧
                    count S t r = Some (if bool_decide (o = r) then 1%nat else 0%nat)
        end.
Proof.
  intros Hos Hr Hrun.
  assert (table_ok B S W t) as Hok by by eapply reachable_ok.
  destruct (locate B S W HB HS t r (proj1 Hok)) as (b&c&Hb&Hl&Hc&Hat).
  rewrite Hat. unfold add, bucket_add. rewrite Hb. cbn [mbind option_bind]. rewrite Hc.
  cbn [mbind option_bind]. destruct c as [o|]; cbn [mbind option_bind].
  - exists t. rewrite list_insert_id by done. split_and!; try done.
    rewrite count_ok, Hat by done.
    rewrite (bool_decide_ext (Some o = Some r) (o = r)); [done|]. split; congruence.
  - eexists. split; [done|].
    assert (table_ok B S W (<[derive_bucket B W r:=<[derive_slot S r:=Some r]> b]> t)) as Hok'.
    { apply (reachable_ok (os ++ [OpAdd r])).
      - apply Forall_app. split; [done|]. by apply Forall_singleton.
      - unfold run_ops in *. rewrite foldl_app, Hrun. cbn. unfold add, bucket_add.
        rewrite Hb. cbn [mbind option_bind]. by rewrite Hc. }
    rewrite count_ok by done. rewrite bool_decide_eq_true_2; [done|].
    destruct (write_cell B S W HS t r b (Some r)) as [_ Hw]; [apply Hok|done..|].
    rewrite Hw. by rewrite decide_True.
Qed.
End Properties.

(** ** Witnesses, at the sizes of [AddrTable] ([src/net/addr.rs]) *)

Module Witness.
Import Addr.Demo.

Definition peer (k port : Z) : record :=
  record_new (Ipv4 [10; 0; 0; k]) port 1 (V4 [1; 1; 1; 1]).
Definition demo_ops : list op :=
  [OpAdd (peer 1 8333); OpAdd (peer 2 8333); OpFailure 5000000000 (peer 1 8333);
   OpSuccess 6000000000 6000000001 (peer 2 8333); OpRemove (peer 9 8333)].
Definition demo_table : Table := default [] (run_ops 16 16 4 demo_ops).

Lemma demo_ops_ok : Forall op_ok demo_ops.
Proof. repeat constructor; by apply (bool_decide_unpack _); vm_compute. Qed.
Lemma demo_run : run_ops 16 16 4 demo_ops = Some demo_table.
Proof. vm_compute. reflexivity. Qed.

Lemma table_refines_map_witness :
  ∃ t, run_ops 16 16 4 demo_ops = Some t ∧ refines 16 16 t (spec_ops 16 16 4 demo_ops).
Proof. apply (table_refines_map 16 16 4); lia. Defined.

Lemma table_placed_witness :
  length demo_table = 16%nat ∧ Forall (λ b : Bucket, length b = 16%nat) demo_table ∧
  ∀ i j r, slot_at demo_table (i, j) = Some r →
    i = derive_bucket 16 4 r ∧ j = derive_slot 16 r ∧ record_ok r.
Proof.
  apply (table_placed 16 16 4 ltac:(lia) ltac:(lia) ltac:(lia) demo_ops).
  - apply demo_ops_ok.
  - apply demo_run.
Defined.

Definition demo_source : list Z := source_id (V4 [1; 1; 1; 1]).

Lemma source_limited_witness :
  (length (source_buckets 16 demo_source demo_table) ≤ 4)%nat ∧
  ((4 < 16)%nat → ∃ i, (i < 16)%nat ∧
     i ∉ source_buckets 16 demo_source demo_table).
Proof.
  apply (source_limited 16 16 4 ltac:(lia) ltac:(lia) ltac:(lia) demo_ops).
  - apply demo_ops_ok.
  - apply demo_run.
Defined.

Lemma select_total_witness :
  ∃ res, select 16 16 77 (λ i, Z.of_nat i) (λ _, 7000000000) demo_table = Some res ∧
    (res = None ↔ ∀ p, slot_at demo_table p = None) ∧
    (∀ r, res = Some r → ∃ p, slot_at demo_table p = Some r).
Proof.
  apply (select_total 16 16 4 ltac:(lia) ltac:(lia) demo_ops). apply demo_run.
Defined.

Lemma polled_record_is_rested_witness :
  ∃ res, random_from_bucket 2 0 0 [None; Some (peer 1 8333)] = Some res ∧
    (res = None ↔ bucket_is_empty [None; Some (peer 1 8333)] = true) ∧
    (∀ r, res = Some r → ∃ i, [None; Some (peer 1 8333)] !! i = Some (Some r)) ∧
    (∀ i r', i ≠ random_slot 2 0 → [None; Some (peer 1 8333)] !! i = Some (Some r') →
       rested 0 r' → ∃ r, res = Some r ∧ rested 0 r).
Proof. apply (polled_record_is_rested 2 ltac:(lia)). reflexivity. Defined.

Lemma add_then_count_witness :
  ∃ t', match slot_at demo_table (pos 16 16 4 (peer 5 8333)) with
        | None => add 16 16 4 demo_table (peer 5 8333) = Some (t', None) ∧
                  count 16 t' (peer 5 8333) = Some 1%nat
        | Some o => add 16 16 4 demo_table (peer 5 8333) = Some (t', Some o) ∧
                    t' = demo_table ∧
                    count 16 demo_table (peer 5 8333)
                    = Some (if bool_decide (o = peer 5 8333) then 1%nat else 0%nat)
        end.
Proof.
  apply (add_then_count 16 16 4 ltac:(lia) ltac:(lia) ltac:(lia) demo_ops).
  - apply demo_ops_ok.
  - by apply (bool_decide_unpack _); vm_compute.
  - apply demo_run.
Defined.
End Witness.
