(* ===== verification/AddrIo.v ===== *)
(** * The address book on disk

    [crates/address-book/src/io.rs]: [write_table] and [read_table] over the
    bytes of the file: the file is the list of its bytes and short reads are
    [UnexpectedEof]. *)

From S2P Require Import Prelude Addr AddressBook AddrTable.

(** [MAGIC], the bytes of ["ADBK"]. *)
Definition MAGIC : list Z := [65; 68; 66; 75].

Section Io.
Context `{DefaultHasher} `{AddrCodec}.
Context (B S W : nat).

(** The records [write_table] collects, in bucket order. *)
Definition unordered_records (t : Table) : list record :=
  filter (λ r, is_serializable r = true) (t ≫= flatten_opts).

(** [FileExt::write_table]: the bytes written. *)
Definition write_table (t : Table) : option (list Z) :=
  let records := unordered_records t in
  bodies ← mapM serialize records;
  Some (MAGIC ++ to_le_bytes 8 (wrap_u 64 (Z.of_nat (length records))) ++ concat bodies).

(** The loop of [FileExt::read_table]. *)
Fixpoint read_records (size : nat) (t : Table) (s : list Z) : outcome io_error Table :=
  match size with
  | O => Ok t
  | Datatypes.S size =>
      '(r, s) ← deserialize s;
      '(t, _) ← or_panic (add B S W t r);
      read_records size t s
  end.

(** [FileExt::read_table]. *)
Definition read_table (s : list Z) : outcome io_error Table :=
  '(magic_buf, s) ← read_exact 4 s;
  if decide (magic_buf ≠ MAGIC) then Err InvalidData
  else
    '(size_buf, s) ← read_exact 8 s;
    read_records (Z.to_nat (from_le_bytes size_buf)) (table_new B S) s.

(** What survives a save and a load: serializable records, without the
    sub-second part of their times. *)
Definition persisted_cell (c : option record) : option record :=
  match c with
  | Some r => if is_serializable r then Some (truncate_times r) else None
  | None => None
  end.
Definition persisted (t : Table) : Table := (λ b : Bucket, persisted_cell <$> b) <$> t.
End Io.

Section IoProofs.
Context `{DefaultHasher} `{AddrCodec} `{!AddrCodecLaws}.
Context (B S W : nat) (HB : (0 < B)%nat) (HS : (0 < S)%nat) (HW : (0 < W)%nat).
Implicit Types (t : Table) (r : record) (l : list record).

Abbreviation rpos := (pos B S W).

(** *** Positions of the collected records *)

Lemma bucket_positions (b : Bucket) i off :
  (∀ j r, b !! j = Some (Some r) → rpos r = (i, off + j)%nat) →
  NoDup (rpos <$> flatten_opts b) ∧
  ∀ p, p ∈ rpos <$> flatten_opts b → p.1 = i ∧ (off ≤ p.2)%nat.
Proof.
  revert off. induction b as [|c b IH]; intros off Hb.
  - split; [constructor|]. intros p Hp. by apply not_elem_of_nil in Hp.
  - destruct (IH (Datatypes.S off)) as [Hnd Hin].
    { intros j r Hj. rewrite (Hb (Datatypes.S j)) by done. f_equal. lia. }
    destruct c as [r|].
    + change (flatten_opts (Some r :: b)) with (r :: flatten_opts b).
      rewrite fmap_cons. rewrite (Hb 0%nat r) by done. rewrite Nat.add_0_r.
      split.
      * constructor; [|done]. intros Hp. apply Hin in Hp as [_ Hp]. cbn in Hp. lia.
      * intros p [->|Hp]%elem_of_cons; [done|]. apply Hin in Hp. lia.
    + change (flatten_opts (None :: b)) with (flatten_opts b).
      split; [done|]. intros p Hp. apply Hin in Hp. lia.
Qed.

Lemma table_positions t off :
  (∀ k (b : Bucket) j r, t !! k = Some b → b !! j = Some (Some r) →
     rpos r = (off + k, j)%nat) →
  NoDup (rpos <$> (t ≫= flatten_opts)) ∧
  ∀ p, p ∈ rpos <$> (t ≫= flatten_opts) → (off ≤ p.1)%nat.
Proof.
  revert off. induction t as [|b t IH]; intros off Ht.
  - split; [constructor|]. intros p Hp. by apply not_elem_of_nil in Hp.
  - destruct (IH (Datatypes.S off)) as [Hnd Hin].
    { intros k b' j r Hk Hj. rewrite (Ht (Datatypes.S k) b' j) by done. f_equal. lia. }
    destruct (bucket_positions b off 0) as [Hndb Hinb].
    { intros j r Hj. rewrite (Ht 0%nat b j r) by done. f_equal. lia. }
    change ((b :: t) ≫= flatten_opts) with (flatten_opts b ++ (t ≫= flatten_opts)).
    rewrite fmap_app. split.
    + apply NoDup_app. split_and!; [done| |done].
      intros p Hp Hp'. apply Hinb in Hp. apply Hin in Hp'. lia.
    + intros p [Hp|Hp]%elem_of_app; [apply Hinb in Hp|apply Hin in Hp]; lia.
Qed.

Lemma records_NoDup t : table_ok B S W t → NoDup (rpos <$> unordered_records t).
Proof.
  intros [_ Ht]. eapply sublist_NoDup.
  - apply (table_positions t 0). intros k b j r Hk Hj.
    destruct (Ht (k, j) r) as [<- _]; [by eapply slot_at_Some|done].
  - apply fmap_sublist, sublist_filter.
Qed.

Lemma elem_of_records t r :
  table_ok B S W t →
  r ∈ unordered_records t ↔ is_serializable r = true ∧ slot_at t (rpos r) = Some r.
Proof.
  intros [_ Ht]. unfold unordered_records.
  rewrite list_elem_of_filter, list_elem_of_bind. f_equiv. split.
  - intros (b&Hr%elem_of_flatten_opts&Hb).
    apply list_elem_of_lookup in Hr as [j Hj]. apply list_elem_of_lookup in Hb as [k Hk].
    assert (slot_at t (k, j) = Some r) as Hs by by eapply slot_at_Some.
    by destruct (Ht _ _ Hs) as [<- _].
  - intros Hs. apply slot_at_inv in Hs as (b&Hb&Hj). exists b. split.
    + apply elem_of_flatten_opts. by eapply list_elem_of_lookup_2.
    + by eapply list_elem_of_lookup_2.
Qed.

Lemma records_ok t : table_ok B S W t → Forall record_ok (unordered_records t).
Proof.
  intros Ht. apply Forall_forall. intros r Hr. apply elem_of_records in Hr as [_ Hr]; [|done].
  by destruct (proj2 Ht _ _ Hr).
Qed.

(** *** Reading back a sequence of records *)

Lemma pos_truncate r : rpos (truncate_times r) = rpos r.
Proof. by apply pos_ext. Qed.

Lemma spec_ops_adds l :
  NoDup (rpos <$> l) →
  spec_ops B S W (OpAdd <$> l) = list_to_map ((λ r, (rpos r, r)) <$> l).
Proof.
  induction l as [|r l IH] using rev_ind; [done|].
  rewrite fmap_app. intros (Hl&Hr&_)%NoDup_app. unfold spec_ops in *.
  rewrite !fmap_app, foldl_app, IH by done. cbn.
  unfold spec_add. rewrite not_elem_of_list_to_map_1.
  - cbn. rewrite list_to_map_snoc; [done|].
    rewrite <- list_fmap_compose. intros Hin. eapply Hr; [exact Hin|]. set_solver.
  - rewrite <- list_fmap_compose. intros Hin. eapply Hr; [exact Hin|]. set_solver.
Qed.

Lemma read_records_spec l bodies t rest :
  Forall record_ok l → mapM serialize l = Some bodies →
  table_shape B S t →
  read_records B S W (length l) t (concat bodies ++ rest)
  = or_panic (foldl (λ ot o, t ← ot; run_op B S W o t) (Some t)
                (OpAdd <$> (truncate_times <$> l))).
Proof.
  intros Hl Hm. apply mapM_Some in Hm.
  revert t. induction Hm as [|r bs l bodies Hr Hm IH]; intros t Ht; [done|].
  inversion_clear Hl as [|?? Hrok Hlok].
  cbn [length read_records concat]. rewrite <- app_assoc.
  rewrite (deserialize_serialize_app r) by done. simpl_outcome.
  cbn [fmap list_fmap foldl mbind option_bind run_op].
  destruct (add_total B S W HB HS t (truncate_times r) Ht) as (t'&c&->&Ht').
  simpl_outcome. cbn [fmap option_fmap option_map]. by apply IH.
Qed.

(** *** Equality of tables *)

Lemma table_ext t t' :
  table_shape B S t → table_shape B S t' →
  (∀ p, slot_at t p = slot_at t' p) → t = t'.
Proof.
  intros [Hl Hf] [Hl' Hf'] He. apply list_eq_same_length with B; [done..|].
  intros i b b' Hi Hb Hb'. pose proof (Forall_lookup_1 _ _ _ _ Hf Hb) as Hlb.
  pose proof (Forall_lookup_1 _ _ _ _ Hf' Hb') as Hlb'. cbn in Hlb, Hlb'.
  apply list_eq_same_length with S; [done..|]. intros j c c' Hj Hc Hc'.
  specialize (He (i, j)). rewrite (slot_at_bucket t b), (slot_at_bucket t' b') in He by done.
  by rewrite Hc, Hc' in He.
Qed.

Lemma persisted_shape t : table_shape B S t → table_shape B S (persisted t).
Proof.
  intros [Hl Hf]. unfold persisted. split; [by rewrite length_fmap|].
  apply Forall_fmap. eapply Forall_impl; [exact Hf|]. intros b Hb. cbn in *.
  by rewrite length_fmap.
Qed.

Lemma slot_at_persisted t p : slot_at (persisted t) p = persisted_cell (slot_at t p).
Proof.
  destruct p as [i j]. unfold slot_at, persisted. cbn [fst snd].
  rewrite list_lookup_fmap. destruct (t !! i) as [b|]; [|done].
  cbn [fmap option_fmap option_map mbind option_bind]. rewrite list_lookup_fmap.
  by destruct (b !! j).
Qed.

Lemma count_bound t :
  table_shape B S t → (length (unordered_records t) ≤ B * S)%nat.
Proof.
  clear HB. intros [<- Hf]. unfold unordered_records.
  transitivity (length (t ≫= flatten_opts)); [apply length_filter|].
  induction Hf as [|b t Hb Hf IH]; [done|].
  change ((b :: t) ≫= flatten_opts) with (flatten_opts b ++ (t ≫= flatten_opts)).
  rewrite length_app. cbn [length].
  assert (length (flatten_opts b) ≤ S)%nat.
  { rewrite <- Hb. clear. induction b as [|[r|] b IH]; cbn in *; unfold flatten_opts in *; cbn in *; lia. }
  rewrite Nat.mul_succ_l. lia.
Qed.

Lemma mapM_serialize l :
  Forall record_ok l → Forall (λ r, is_serializable r = true) l →
  is_Some (mapM serialize l).
Proof.
  intros Hok Hs. apply mapM_is_Some_2. apply Forall_forall. intros r Hr.
  rewrite Forall_forall in Hok. rewrite Forall_forall in Hs.
  apply serialize_Some; auto.
Qed.

Lemma file_roundtrip (os : list op) t :
  Z.of_nat (B * S) < 2 ^ 64 → Forall op_ok os → run_ops B S W os = Some t →
  ∃ bs, write_table t = Some bs ∧ read_table B S W bs = Ok (persisted t).
Proof.
  intros Hmax Hos Hrun.
  assert (table_ok B S W t) as Hok by by eapply reachable_ok.
  pose proof (records_ok t Hok) as Hrok.
  destruct (mapM_serialize (unordered_records t)) as [bodies Hb]; [done|..].
  { unfold unordered_records. apply Forall_forall. intros r Hr.
    by apply list_elem_of_filter in Hr as [? _]. }
  pose proof (count_bound t (proj1 Hok)) as Hlen.
  unfold write_table. rewrite Hb. eexists. split; [done|].
  unfold read_table. rewrite read_exact_app by done. simpl_outcome.
  rewrite decide_False by (intros Hn; by apply Hn).
  rewrite read_exact_app by done. simpl_outcome.
  rewrite wrap_u_small by (unfold in_u; lia).
  rewrite from_to_le_bytes by (unfold in_u; cbn; lia). rewrite Nat2Z.id.
  rewrite <- (app_nil_r (concat bodies)).
  rewrite read_records_spec; [|done..|apply table_new_refines].
  change (or_panic (E:=io_error) (run_ops B S W (OpAdd <$> (truncate_times <$> unordered_records t)))
          = Ok (persisted t)).
  destruct (run_ops_refines B S W HB HS (OpAdd <$> (truncate_times <$> unordered_records t)))
    as (t'&->&Hs&Hm).
  cbn [or_panic]. f_equal. apply table_ext; [done|by apply persisted_shape, Hok|].
  intros p. rewrite slot_at_persisted, Hm. clear dependent t'.
  rewrite spec_ops_adds.
  2: { rewrite <- list_fmap_compose. erewrite list_fmap_ext; [by apply records_NoDup|].
       intros i r _. apply pos_truncate. }
  apply option_eq. intros r. rewrite <- elem_of_list_to_map.
  2: { rewrite <- !list_fmap_compose. erewrite list_fmap_ext; [by apply records_NoDup|].
       intros i r' _. apply pos_truncate. }
  rewrite <- list_fmap_compose, list_elem_of_fmap. setoid_rewrite elem_of_records; [|done].
  unfold compose. setoid_rewrite pos_truncate. split.
  - intros (r'&[= -> ->]&Hs'&->). cbn [persisted_cell]. by rewrite Hs'.
  - destruct (slot_at t p) as [r'|] eqn:Hr'; [|done]. cbn [persisted_cell].
    destruct (is_serializable r') eqn:Hs'; [|done]. intros [= <-].
    destruct (proj2 Hok _ _ Hr') as [-> _]. eauto.
Qed.

(** writing a reachable table to a file and reading the file back gives
    the same table, slot for slot, less the records of unknown networks (which
    are not written) and the sub-second part of the times. *)
Theorem table_file_roundtrip (os : list op) t :
  Z.of_nat (B * S) < 2 ^ 64 → Forall op_ok os → run_ops B S W os = Some t →
  ∃ bs, write_table t = Some bs ∧ read_table B S W bs = Ok (persisted t).
Proof. apply file_roundtrip. Qed.

Lemma read_records_no_panic n t s :
  table_shape B S t → read_records B S W n t s ≠ Panic.
Proof.
  revert t s. induction n as [|n IH]; intros t s Ht; [done|]. cbn [read_records].
  destruct (deserialize s) as [[r s']|?|] eqn:Hd; simpl_outcome; [|done|].
  - destruct (add_total B S W HB HS t r Ht) as (t'&c&->&Ht'). simpl_outcome. by apply IH.
  - by destruct (deserialize_not_panic s).
Qed.

(** A table that was read is one the operations build. *)
Lemma read_records_ops n os t s t' :
  bytes_ok s → Forall op_ok os → run_ops B S W os = Some t → read_records B S W n t s = Ok t' →
  ∃ os', Forall op_ok os' ∧ run_ops B S W os' = Some t'.
Proof.
  revert os t s. induction n as [|n IH]; intros os t s Hs Hos Ht; cbn [read_records].
  { intros [= <-]. by exists os. }
  intros ([r s'] & [Hr Hs']%deserialize_ok & ([t1 c] & Ha%or_panic_Ok & Hrest)%bind_Ok)%bind_Ok; [|done].
  eapply (IH (os ++ [OpAdd r])); [exact Hs'| | |exact Hrest].
  - apply Forall_app. split; [done|by apply Forall_singleton].
  - unfold run_ops in *. rewrite foldl_snoc, Ht. simpl. by rewrite Ha.
Qed.

Lemma read_table_ops s t :
  bytes_ok s → read_table B S W s = Ok t → ∃ os, Forall op_ok os ∧ run_ops B S W os = Some t.
Proof.
  intros Hs. unfold read_table. intros ([m s1] & [_ Hs1]%read_exact_ok & Hm)%bind_Ok; [|done].
  case_decide; [done|]. apply bind_Ok in Hm as ([c s2] & [_ Hs2]%read_exact_ok & Hm); [|done].
  by eapply (read_records_ops _ []) in Hm.
Qed.

Lemma read_table_no_panic s : read_table B S W s ≠ Panic.
Proof.
  unfold read_table. destruct (read_exact 4 s) as [[m s']|?|] eqn:E; simpl_outcome;
    [|done|by apply read_exact_no_panic in E].
  case_decide; [done|].
  destruct (read_exact 8 s') as [[m' s'']|?|] eqn:E'; simpl_outcome;
    [|done|by apply read_exact_no_panic in E'].
  apply read_records_no_panic, table_new_refines.
Qed.

(** Reading an address book from arbitrary bytes never panics; bytes that
    do not start with the magic are [InvalidData], and a header that is cut
    short is [UnexpectedEof]. *)
Theorem read_table_robust s :
  read_table B S W s ≠ Panic ∧
  ((4 ≤ length s)%nat → take 4 s ≠ MAGIC → read_table B S W s = Err InvalidData) ∧
  ((length s < 12)%nat → (4 ≤ length s)%nat → take 4 s = MAGIC →
     read_table B S W s = Err UnexpectedEof).
Proof.
  split_and!; [apply read_table_no_panic| |]; unfold read_table.
  - intros Hl Hm. unfold read_exact. rewrite decide_True by done. simpl_outcome.
    by rewrite decide_True.
  - intros Hs Hl Hm. rewrite <- (take_drop 4 s), read_exact_app by (rewrite length_take; lia).
    simpl_outcome. rewrite Hm, decide_False by (intros Hn; by apply Hn).
    rewrite read_exact_short; [done|]. rewrite length_drop. lia.
Qed.
End IoProofs.

Module Witness.
Import Addr.Demo AddrTable.Witness.

Lemma table_file_roundtrip_witness :
  ∃ bs, write_table demo_table = Some bs ∧ read_table 16 16 4 bs = Ok (persisted demo_table).
Proof.
  apply (table_file_roundtrip 16 16 4 ltac:(lia) ltac:(lia) ltac:(lia) demo_ops).
  - vm_compute. reflexivity.
  - apply demo_ops_ok.
  - apply demo_run.
Defined.

Lemma read_table_robust_witness :
  read_table 16 16 4 [65; 68; 66; 75; 1] ≠ Panic ∧
  ((4 ≤ length [65; 68; 66; 75; 1])%nat → take 4 [65; 68; 66; 75; 1] ≠ MAGIC →
     read_table 16 16 4 [65; 68; 66; 75; 1] = Err InvalidData) ∧
  ((length [65; 68; 66; 75; 1] < 12)%nat → (4 ≤ length [65; 68; 66; 75; 1])%nat →
     take 4 [65; 68; 66; 75; 1] = MAGIC →
     read_table 16 16 4 [65; 68; 66; 75; 1] = Err UnexpectedEof).
Proof. apply (read_table_robust 16 16 4); lia. Defined.
End Witness.

