(* ===== verification/Messages.v ===== *)
(** * Peer-to-peer messages

    The message type of [bitcoin::p2p] as the program builds and matches it,
    over abstract header, block and transaction types, and the message
    validation of [crates/p2p/src/validation.rs]. *)

From S2P Require Import Prelude Addr.

(** A block hash is the 256-bit value of its 32 bytes; the all-zeros hash is 0. *)
Abbreviation BlockHash := Z (only parsing).

(** The consensus types of the [bitcoin] crate the program passes around, with
    the projections it uses. *)
Class Bitcoin := {
  Header : Type;
  Block : Type;
  Transaction : Type;
  header_hash : Header → BlockHash;
  block_header : Block → Header;
  prev_blockhash : Header → BlockHash;
}.

(** [Block::block_hash] is the hash of its header. *)
Definition block_hash `{Bitcoin} (b : Block) : BlockHash := header_hash (block_header b).

(** [bitcoin::p2p::message_blockdata::Inventory]; [InvOther] is any other kind. *)
Inductive Inventory :=
| InvTransaction (txid : Z)
| InvWTx (wtxid : Z)
| InvWitnessTransaction (txid : Z)
| InvBlock (h : BlockHash)
| InvWitnessBlock (h : BlockHash)
| InvCompactBlock (h : BlockHash)
| InvOther (kind h : Z).
#[global] Instance Inventory_eq_dec : EqDecision Inventory.
Proof. solve_decision. Defined.

Record SendCmpct := mk_send_cmpct { send_compact : bool; cmpct_version : Z }.
#[global] Instance SendCmpct_eq_dec : EqDecision SendCmpct.
Proof. solve_decision. Defined.

(** [bitcoin::p2p::Address]: services, and a socket address. *)
Record Address := mk_address { address_services : Z; address_ip : IpAddr; address_port : Z }.

Record VersionMessage := mk_version {
  version : Z;
  version_services : Z;
  timestamp : Z;
  receiver : Address;
  sender : Address;
  nonce : Z;
  user_agent : string;
  start_height : Z;
  relay : bool;
}.

(** [GetHeadersMessage] and [GetBlocksMessage]. *)
Record Locator := mk_locator {
  locator_version : Z;
  locator_hashes : list BlockHash;
  stop_hash : BlockHash;
}.

(** One address of an [addrv2] message. *)
Record AddrV2Message := mk_addrv2 {
  amsg_addr : AddrV2;
  amsg_port : Z;
  amsg_services : Z;
}.

Inductive NetworkMessage `{Bitcoin} :=
| Version (v : VersionMessage)
| Verack
| SendAddrV2
| WtxidRelay
| SendHeaders
| SendCmpctMsg (c : SendCmpct)
| FeeFilter (rate : Z)
| GetAddr
| Ping (n : Z)
| Pong (n : Z)
| Headers (hs : list Header)
| BlockMsg (b : Block)
| Inv (inv : list Inventory)
| GetData (inv : list Inventory)
| GetHeaders (l : Locator)
| GetBlocks (l : Locator)
| AddrMsg (addrs : list Address)
| AddrV2Msg (addrs : list AddrV2Message)
| CFilter (payload : list Z)
| FilterClear
| FilterLoad (payload : list Z)
| FilterAdd (payload : list Z)
| MemPool
| Tx (tx : Transaction)
| OtherMsg (command : string) (payload : list Z).

(** ** [crates/p2p/src/validation.rs] *)

Section Validation.
Context `{Bitcoin}.

Definition MAX_INV_SIZE : Z := 50000.
Definition MAX_LOCATOR_HASHES : Z := 101.

(** [ValidationExt::is_handshake_message]. *)
Definition is_handshake_message (m : NetworkMessage) : bool :=
  match m with
  | Verack | Version _ | SendAddrV2 | WtxidRelay => true
  | _ => false
  end.

(** [ValidationExt::is_discouraged]. *)
Definition is_discouraged (m : NetworkMessage) : bool :=
  match m with
  | FilterClear | FilterLoad _ | FilterAdd _ | MemPool => true
  | AddrMsg l => bool_decide (Z.of_nat (length l) > MAX_INV_SIZE)
  | AddrV2Msg l => bool_decide (Z.of_nat (length l) > MAX_INV_SIZE)
  | Inv l => bool_decide (Z.of_nat (length l) > MAX_INV_SIZE)
  | GetData l => bool_decide (Z.of_nat (length l) > MAX_INV_SIZE)
  | GetBlocks l => bool_decide (Z.of_nat (length l.(locator_hashes)) > MAX_LOCATOR_HASHES)
  | GetHeaders l => bool_decide (Z.of_nat (length l.(locator_hashes)) > MAX_LOCATOR_HASHES)
  | _ => false
  end.

(** [ValidationExt::is_malformed]. *)
Definition is_malformed (m : NetworkMessage) : bool := false.
End Validation.

(** ** A concrete instance, for the witnesses: a header is its hash and the
    hash of its parent, a block is its header. *)

Module Demo.
#[export] Instance demo_bitcoin : Bitcoin := {|
  Header := Z * Z;
  Block := Z * Z;
  Transaction := Z;
  header_hash := fst;
  block_header b := b;
  prev_blockhash := snd;
|}.
End Demo.
