(* ===== verification/Kernel.v ===== *)
(** * The block validation kernel, as an interface

    [bitcoinkernel] is not part of the repository. The program uses it through
    the block tree ([BlockTreeEntry]), the active chain and the processing of
    headers and blocks; [Kernel] names those operations and [KernelLaws] the
    documented facts the node relies on. [Demo] is a small executable tree that
    satisfies them. *)

From S2P Require Import Prelude Messages.

Class Kernel `{Bitcoin} := {
  (** The chainstate manager. *)
  Chainman : Type;
  (** A block tree entry: a header the kernel knows, linked to its parents. *)
  Entry : Type;
  (** [bitcoinkernel::Block]. *)
  KBlock : Type;
  height : Entry → Z;
  entry_hash : Entry → BlockHash;
  prev : Entry → option Entry;
  ancestor : Entry → Z → option Entry;
  best_entry : Chainman → option Entry;
  active_tip : Chainman → Entry;
  active_contains : Chainman → Entry → bool;
  get_block_tree_entry : Chainman → BlockHash → option Entry;
  (** [Ok(Valid)] or not, and the manager afterwards. *)
  process_block_header : Chainman → Header → bool * Chainman;
  process_block : Chainman → KBlock → Chainman;
  (** [CrateBlockExt::convert] and [Block::hash]. *)
  convert : Block → KBlock;
  kblock_hash : KBlock → BlockHash;
}.

Class KernelLaws `{Kernel} := {
  height_range : ∀ e, 0 ≤ height e < 2 ^ 31;
  prev_height : ∀ e p, prev e = Some p → height p = height e - 1;
  prev_genesis : ∀ e, prev e = None ↔ height e = 0;
  ancestor_self : ∀ e, ancestor e (height e) = Some e;
  ancestor_prev : ∀ e p h, prev e = Some p → 0 ≤ h ≤ height p → ancestor e h = ancestor p h;
  (** A block tree always knows the genesis header, hence a best one. *)
  best_entry_some : ∀ c, is_Some (best_entry c);
  (** The active chain runs from the genesis block to its tip. *)
  genesis_active : ∀ c e, height e = 0 → active_contains c e = true;
  active_contains_tip : ∀ c, active_contains c (active_tip c) = true;
  active_contains_prev : ∀ c e p,
    prev e = Some p → active_contains c e = true → active_contains c p = true;
  (** A hash names one entry of the tree. *)
  entry_hash_inj : ∀ e e', entry_hash e = entry_hash e' → e = e';
  (** Converting a block keeps its hash. *)
  convert_hash : ∀ b, kblock_hash (convert b) = block_hash b;
}.

Section KernelFacts.
Context `{KernelLaws}.

(** The entries from [e] down to genesis, following [prev]; the fuel is the
    height, one link per block. *)
Fixpoint path_from (fuel : nat) (e : Entry) : list Entry :=
  e :: match fuel, prev e with
       | S fuel, Some p => path_from fuel p
       | _, _ => []
       end.
Definition path (e : Entry) : list Entry := path_from (Z.to_nat (height e)) e.

Lemma path_unfold e :
  path e = e :: match prev e with Some p => path p | None => [] end.
Proof.
  unfold path. pose proof (height_range e) as Hr.
  destruct (prev e) as [p|] eqn:Hp.
  - pose proof (prev_height _ _ Hp). pose proof (height_range p).
    replace (Z.to_nat (height e)) with (S (Z.to_nat (height p))) by lia.
    cbn [path_from]. by rewrite Hp.
  - pose proof (proj1 (prev_genesis e) Hp) as Hh. rewrite Hh. cbn. done.
Qed.

(** Induction from the genesis block up. *)
Lemma entry_ind (P : Entry → Prop) :
  (∀ e, prev e = None → P e) →
  (∀ e p, prev e = Some p → P p → P e) →
  ∀ e, P e.
Proof.
  intros Hg Hs e. pose proof (height_range e) as Hr.
  remember (Z.to_nat (height e)) as n eqn:Hn. revert e Hr Hn.
  induction n as [|n IH]; intros e Hr Hn; destruct (prev e) as [p|] eqn:Hp; eauto.
  - pose proof (prev_height _ _ Hp). pose proof (height_range p). lia.
  - pose proof (prev_height _ _ Hp). pose proof (height_range p).
    eapply Hs; [done|]. apply IH; lia.
Qed.

(** Every height up to an entry's own has an ancestor. *)
Lemma ancestor_spec e h :
  0 ≤ h ≤ height e → ∃ a, ancestor e h = Some a ∧ height a = h.
Proof.
  induction e as [e Hg|e p Hp IH] using entry_ind; intros Hh.
  - pose proof (proj1 (prev_genesis e) Hg) as Hz. assert (h = height e) as -> by lia.
    exists e. by rewrite ancestor_self.
  - destruct (decide (h = height e)) as [->|Hne].
    { exists e. by rewrite ancestor_self. }
    pose proof (prev_height _ _ Hp).
    rewrite (ancestor_prev _ _ _ Hp) by lia. apply IH. lia.
Qed.

Lemma path_heights e : Forall (λ a, height a ≤ height e) (path e).
Proof.
  induction e as [e Hg|e p Hp IH] using entry_ind; rewrite path_unfold.
  - rewrite Hg. repeat constructor. lia.
  - rewrite Hp. constructor; [lia|]. eapply Forall_impl; [exact IH|].
    pose proof (prev_height _ _ Hp). simpl. intros. lia.
Qed.

Lemma ancestor_in_path e h a : 0 ≤ h ≤ height e → ancestor e h = Some a → a ∈ path e.
Proof.
  induction e as [e Hg|e p Hp IH] using entry_ind; intros Hh Ha; rewrite path_unfold.
  - pose proof (proj1 (prev_genesis e) Hg) as Hz. assert (h = height e) as -> by lia.
    rewrite ancestor_self in Ha. simplify_eq. apply list_elem_of_here.
  - destruct (decide (h = height e)) as [->|Hne].
    { rewrite ancestor_self in Ha. simplify_eq. apply list_elem_of_here. }
    pose proof (prev_height _ _ Hp).
    rewrite Hp. apply list_elem_of_further. apply IH; [lia|].
    by rewrite <- (ancestor_prev _ _ _ Hp) by lia.
Qed.
End KernelFacts.

(** ** A block tree for the witnesses

    Two branches: the blocks [(false, h)] form the main one, the blocks
    [(true, h)] with [h > FORK] a branch that leaves it after height [FORK].
    The manager holds the best header and the active tip. *)

Module Demo.
Import Messages.Demo.

Definition FORK : Z := 2.
Definition node_ok (n : bool * Z) : bool :=
  bool_decide (0 ≤ n.2 < 2 ^ 31) && (negb n.1 || bool_decide (FORK < n.2)).
Definition node : Type := { n : bool * Z | node_ok n = true }.
Definition mk (b : bool) (h : Z) : option node :=
  match decide (node_ok (b, h) = true) with
  | left H => Some (exist _ (b, h) H)
  | right _ => None
  end.
Definition node_height (e : node) : Z := (proj1_sig e).2.
Definition node_hash (e : node) : Z :=
  100 + 2 * (proj1_sig e).2 + (if (proj1_sig e).1 then 1 else 0).
(** The block of the entry's chain at height [h]. *)
Definition node_ancestor (e : node) (h : Z) : option node :=
  if decide (0 ≤ h ≤ node_height e) then
    mk ((proj1_sig e).1 && bool_decide (FORK < h)) h
  else None.
Definition node_prev (e : node) : option node :=
  node_ancestor e (node_height e - 1).
Definition node_of_hash (z : Z) : option node :=
  mk (Z.odd z) ((z - 100) / 2).

Lemma node_eq (e e' : node) : proj1_sig e = proj1_sig e' → e = e'.
Proof.
  destruct e as [x p], e' as [y q]; simpl. intros ->. f_equal. apply proof_irrel.
Qed.
#[global] Instance node_eq_dec : EqDecision node.
Proof.
  intros e e'. destruct (decide (proj1_sig e = proj1_sig e')) as [H|H].
  - left. by apply node_eq.
  - right. congruence.
Defined.

Lemma mk_Some b h e : mk b h = Some e ↔ proj1_sig e = (b, h).
Proof.
  unfold mk. split.
  - destruct (decide _); naive_solver.
  - intros Heq. destruct (decide _) as [Hd|Hd].
    + f_equal. by apply node_eq.
    + destruct e as [x p]. simpl in *. congruence.
Qed.

Definition is_ancestor (e a : node) : bool := bool_decide (node_ancestor e (node_height a) = Some a).

Record manager := mk_manager { dm_best : node; dm_active : node }.

Definition knows (c : manager) (e : node) : bool :=
  is_ancestor c.(dm_best) e || is_ancestor c.(dm_active) e.

(** A header is valid when it is a block of the tree on top of a known one; a
    higher one becomes the best. *)
Definition demo_header (c : manager) (h : Z * Z) : bool * manager :=
  match node_of_hash h.1 with
  | Some e =>
      match node_prev e with
      | Some p =>
          if bool_decide (node_hash p = h.2) && knows c p then
            (true, if decide (node_height c.(dm_best) < node_height e)
                   then mk_manager e c.(dm_active) else c)
          else (false, c)
      | None => (false, c)
      end
  | None => (false, c)
  end.

(** A block on top of the active tip extends the active chain. *)
Definition demo_block (c : manager) (b : Z * Z) : manager :=
  match node_of_hash b.1 with
  | Some e => if bool_decide (node_prev e = Some c.(dm_active))
              then mk_manager c.(dm_best) e else c
  | None => c
  end.

#[export] Instance demo_kernel : Kernel := {|
  Chainman := manager;
  Entry := node;
  KBlock := Z * Z;
  height := node_height;
  entry_hash := node_hash;
  prev := node_prev;
  ancestor := node_ancestor;
  best_entry c := Some c.(dm_best);
  active_tip := dm_active;
  active_contains c e := is_ancestor c.(dm_active) e;
  get_block_tree_entry c h :=
    e ← node_of_hash h; if knows c e then Some e else None;
  process_block_header := demo_header;
  process_block := demo_block;
  convert b := b;
  kblock_hash := fst;
|}.

Lemma node_range (e : node) :
  0 ≤ node_height e < 2 ^ 31 ∧ ((proj1_sig e).1 = true → FORK < node_height e).
Proof.
  destruct e as [[b h] p]. unfold node_ok, node_height in *. simpl in *.
  apply andb_true_iff in p as [?%bool_decide_eq_true Hb]. split; [done|].
  intros ->. simpl in Hb. by apply bool_decide_eq_true in Hb.
Qed.

Lemma node_ancestor_Some e h a :
  node_ancestor e h = Some a ↔
  0 ≤ h ≤ node_height e ∧ proj1_sig a = ((proj1_sig e).1 && bool_decide (FORK < h), h).
Proof.
  unfold node_ancestor. case_decide; rewrite ?mk_Some; naive_solver.
Qed.

Lemma node_ancestor_is_Some e h :
  0 ≤ h ≤ node_height e → is_Some (node_ancestor e h).
Proof.
  intros Hh. pose proof (node_range e) as [Hr _].
  unfold node_ancestor. rewrite decide_True by done. unfold mk.
  destruct (decide _) as [Hd|Hd]; [eauto|]. contradict Hd. unfold node_ok.
  cbn [fst snd]. rewrite (bool_decide_true (0 ≤ h < 2 ^ 31)) by lia. cbn [andb].
  destruct (bool_decide (FORK < h)); [apply orb_true_r|]. by rewrite andb_false_r.
Qed.

Lemma node_ancestor_trans e p h :
  node_ancestor e (node_height p) = Some p → 0 ≤ h ≤ node_height p →
  node_ancestor e h = node_ancestor p h.
Proof.
  rewrite node_ancestor_Some. intros [Hr Hp] Hh.
  unfold node_ancestor. rewrite !decide_True by lia. f_equal. rewrite Hp. simpl.
  destruct (proj1_sig e).1; simpl; [|done].
  destruct (decide (FORK < h)).
  - by rewrite !bool_decide_true by lia.
  - rewrite (bool_decide_false (FORK < h)) by lia. by rewrite andb_false_r.
Qed.

Lemma node_ancestor_self e : node_ancestor e (node_height e) = Some e.
Proof.
  apply node_ancestor_Some. pose proof (node_range e) as [Hr Hb]. split; [lia|].
  destruct e as [[[] h] ?]; unfold node_height in *; simpl in *; [|done].
  rewrite bool_decide_true by (apply Hb; done). done.
Qed.

Lemma node_prev_Some e p :
  node_prev e = Some p →
  node_height p = node_height e - 1 ∧ node_ancestor e (node_height p) = Some p.
Proof.
  unfold node_prev. intros Hp. pose proof Hp as [Hr Heq]%node_ancestor_Some.
  assert (node_height p = node_height e - 1) as Hh.
  { unfold node_height at 1. by rewrite Heq. }
  by rewrite Hh.
Qed.

#[export] Instance demo_laws : KernelLaws.
Proof.
  split.
  - intros e. apply node_range.
  - intros e p Hp%node_prev_Some. apply Hp.
  - intros e. change (node_prev e = None ↔ node_height e = 0).
    pose proof (node_range e) as [Hr _]. split.
    + intros Hn. destruct (decide (node_height e = 0)) as [|Hne]; [done|].
      destruct (node_ancestor_is_Some e (node_height e - 1)) as [a Ha]; [lia|].
      unfold node_prev in Hn. congruence.
    + intros H0. unfold node_prev, node_ancestor. by rewrite decide_False by lia.
  - apply node_ancestor_self.
  - intros e p h Hp Hh. apply node_prev_Some in Hp as [_ Hp]. by apply node_ancestor_trans.
  - intros c. eauto.
  - intros c e H0. change (node_height e = 0) in H0.
    apply bool_decide_eq_true, node_ancestor_Some.
    pose proof (node_range e) as [_ Hb]. pose proof (node_range (dm_active c)) as [Hr _].
    rewrite H0 in *. split; [lia|].
    rewrite (bool_decide_false (FORK < 0)) by (unfold FORK; lia). rewrite andb_false_r.
    destruct e as [[[] h] ?]; simpl in *; [|unfold node_height in H0; simpl in H0; by subst].
    exfalso. unfold FORK in Hb. assert (2 < 0) by (by apply Hb). lia.
  - intros c. apply bool_decide_eq_true, node_ancestor_self.
  - intros c e p Hp. apply node_prev_Some in Hp as [Hh Hp].
    change (is_ancestor (dm_active c) e = true → is_ancestor (dm_active c) p = true).
    unfold is_ancestor. rewrite !bool_decide_eq_true. intros He.
    rewrite (node_ancestor_trans _ e); [done|done|].
    pose proof (node_range p). lia.
  - intros [[b h] p] [[b' h'] p'] Heq. apply node_eq. simpl.
    change (node_hash (exist _ (b, h) p) = node_hash (exist _ (b', h') p')) in Heq.
    unfold node_hash in Heq. simpl proj1_sig in Heq. simpl fst in Heq. simpl snd in Heq.
    destruct b, b'; (lia || (f_equal; lia)).
  - done.
Qed.
End Demo.
