(* ===== verification/Convert.v ===== *)
(** * Conversions between the block types of two crates (src/ext.rs)

    Blocks and headers pass between [bitcoin] and [bitcoinkernel] as their
    consensus serialization. Both crates' coders are the class [BlockCodec]; the
    laws say that the two read and write the same format. From these the
    operations [convert] and [kblock_hash] of the kernel's interface and the law
    they obey are obtained. *)

From S2P Require Import Prelude Messages.

(** [encode::serialize] and [encode::deserialize] of [bitcoin]; [try_from],
    [consensus_encode] and [hash] of [bitcoinkernel::Block], and
    [BlockHeader::new]. *)
Class BlockCodec `{Bitcoin} := {
  KernelBlock : Type;
  KernelHeader : Type;
  serialize_block : Block → list Z;
  deserialize_block : list Z → option Block;
  serialize_header : Header → list Z;
  kernel_block_of_bytes : list Z → option KernelBlock;
  kernel_block_to_bytes : KernelBlock → option (list Z);
  kernel_header_of_bytes : list Z → option KernelHeader;
  kernel_block_hash : KernelBlock → list Z;
  (** [BlockTreeEntry] and its hash. *)
  KernelEntry : Type;
  kernel_entry_hash : KernelEntry → list Z;
}.

(** [BlockHash::from_byte_array]. *)
Definition hash_of_bytes (bytes : list Z) : BlockHash := from_le_bytes bytes.

Class BlockCodecLaws `{BlockCodec} := {
  deserialize_serialize : ∀ b, deserialize_block (serialize_block b) = Some b;
  (** The kernel reads what [bitcoin] writes, writes it back as it was, and takes
      the hash of the same bytes. *)
  kernel_reads : ∀ b, ∃ k, kernel_block_of_bytes (serialize_block b) = Some k ∧
    hash_of_bytes (kernel_block_hash k) = block_hash b;
  kernel_writes : ∀ bytes k, kernel_block_of_bytes bytes = Some k → kernel_block_to_bytes k = Some bytes;
  kernel_reads_header : ∀ h, is_Some (kernel_header_of_bytes (serialize_header h));
}.

Section Convert.
Context `{BlockCodec}.

(** [KernelBlockExt::convert]. *)
Definition block_of_kernel (k : KernelBlock) : outcome Empty_set Block :=
  bytes ← or_panic (kernel_block_to_bytes k);
  or_panic (deserialize_block bytes).

(** [CrateBlockExt::convert]. *)
Definition block_to_kernel (b : Block) : outcome Empty_set KernelBlock :=
  or_panic (kernel_block_of_bytes (serialize_block b)).

(** [CrateHeaderExt::convert]. *)
Definition header_to_kernel (h : Header) : outcome Empty_set KernelHeader :=
  or_panic (kernel_header_of_bytes (serialize_header h)).

(** [BlockHash::from_byte_array(block.hash().into())]. *)
Definition hash_of_kernel (k : KernelBlock) : BlockHash := hash_of_bytes (kernel_block_hash k).

(** [GetBlockHashExt::block_hash]. *)
Definition hash_of_entry (e : KernelEntry) : BlockHash := hash_of_bytes (kernel_entry_hash e).

(** [convert] without its [unwrap], for the kernel's interface. *)
Definition convert_block `{!Inhabited KernelBlock} (b : Block) : KernelBlock :=
  match block_to_kernel b with Ok k => k | _ => inhabitant end.
End Convert.

Section Properties.
Context `{BlockCodecLaws}.

(** Converting a block to the kernel's type never panics, keeps its hash, and
    converting back gives the block; headers convert without a panic. *)
Theorem conversions_faithful :
  (∀ b, ∃ k, block_to_kernel b = Ok k ∧ hash_of_kernel k = block_hash b ∧ block_of_kernel k = Ok b) ∧
  (∀ h, ∃ kh, header_to_kernel h = Ok kh).
Proof.
  split.
  - intros b. destruct (kernel_reads b) as (k & Hk & Hh). exists k. unfold block_to_kernel, block_of_kernel.
    rewrite Hk. split_and!; [done|done|]. rewrite (kernel_writes _ _ Hk). simpl_outcome.
    by rewrite deserialize_serialize.
  - intros h. destruct (kernel_reads_header h) as [kh Hkh]. exists kh. unfold header_to_kernel. by rewrite Hkh.
Qed.

(** The law [convert_hash] of the kernel's interface. *)
Lemma convert_block_hash `{!Inhabited KernelBlock} b : hash_of_kernel (convert_block b) = block_hash b.
Proof.
  unfold convert_block. destruct (kernel_reads b) as (k & Hk & Hh).
  unfold block_to_kernel. by rewrite Hk.
Qed.

(** Equal hashes come from equal bytes. *)
Lemma hash_of_bytes_inj x y : array_ok 32 x → array_ok 32 y → hash_of_bytes x = hash_of_bytes y → x = y.
Proof. intros [? ?] [? ?]. apply from_le_bytes_inj; [done|done|congruence]. Qed.
End Properties.

(** ** A coder on which the laws hold *)

Module Witness.

(** A block is its hash and its parent's, each in 32 bytes. *)
#[local] Instance small_bitcoin : Bitcoin := {|
  Header := Z * Z;
  Block := Z * Z;
  Transaction := unit;
  header_hash h := wrap_u 256 h.1;
  block_header b := b;
  prev_blockhash h := h.2;
|}.

Definition coder : BlockCodec := {|
  KernelBlock := Z * Z;
  KernelHeader := Z * Z;
  serialize_block b := [b.1; b.2];
  deserialize_block l := match l with [a; b] => Some (a, b) | _ => None end;
  serialize_header h := [h.1; h.2];
  kernel_block_of_bytes l := match l with [a; b] => Some (a, b) | _ => None end;
  kernel_block_to_bytes k := Some [k.1; k.2];
  kernel_header_of_bytes l := match l with [a; b] => Some (a, b) | _ => None end;
  kernel_block_hash k := to_le_bytes 32 k.1;
  KernelEntry := Z;
  kernel_entry_hash e := to_le_bytes 32 e;
|}.

Lemma coder_laws : BlockCodecLaws (H0:=coder).
Proof.
  split.
  - by intros [a b].
  - intros [a b]. exists (a, b). split; [done|].
    change (from_le_bytes (to_le_bytes 32 a) = wrap_u 256 a). apply (from_to_le_bytes_mod 32).
  - intros bytes [a b]. simpl. destruct bytes as [|x [|y []]]; try done. by intros [= <- <-].
  - intros [a b]. by exists (a, b).
Qed.

Lemma conversions_witness :
  block_to_kernel (H0:=coder) (5, 4) = Ok (5, 4) ∧ hash_of_kernel (H0:=coder) (5, 4) = 5.
Proof. split; vm_compute; reflexivity. Qed.
End Witness.
