(* ===== verification/Download.v ===== *)
(** * The download scheduler ([DownloadState], src/net/peer.rs)

    One structure, behind a mutex, is shared by all peer threads and the block
    processing thread: the queue of blocks to fetch, the set of blocks some
    peer was asked for, and the buffer of blocks that arrived before their
    parent. A [HashMap] or [HashSet] has no defined iteration order: the
    operations that iterate take the order as a list argument and the theorems
    quantify over every order of the keys ([iterates]). *)

From S2P Require Import Prelude Messages Kernel.

Definition DOWNLOAD_BATCH_SIZE : nat := 16.

(** Over the type [K] of blocks the kernel takes. *)
Record DownloadState (K : Type) := mk_download {
  queue : list BlockHash;
  in_flight : gset BlockHash;
  (** Blocks by the hash of their parent. *)
  buffer : gmap BlockHash K;
}.
Arguments mk_download {K} _ _ _.
Arguments queue {K} _.
Arguments in_flight {K} _.
Arguments buffer {K} _.

Section Download.
Context `{Kernel}.

(** [Default]. *)
Definition download_default : DownloadState KBlock := mk_download [] ∅ ∅.

(** ** Operations *)

(** The loop of [pop_batch]: the hashes claimed, what is left of the queue and
    the in-flight set; [room] is [batch_size - batch.len()]. *)
Fixpoint pop_loop (q : list BlockHash) (flying : gset BlockHash) (room : nat)
    : list BlockHash * list BlockHash * gset BlockHash :=
  match room with
  | O => ([], q, flying)
  | S room' =>
      match q with
      | [] => ([], [], flying)
      | hash :: q =>
          if decide (hash ∈ flying) then pop_loop q flying room
          else let '(batch, q', flying') := pop_loop q ({[hash]} ∪ flying) room' in
               (hash :: batch, q', flying')
      end
  end.

Definition pop_batch (batch_size : nat) (d : DownloadState KBlock)
    : list BlockHash * DownloadState KBlock :=
  let '(batch, q, flying) := pop_loop d.(queue) d.(in_flight) batch_size in
  (batch, mk_download q flying d.(buffer)).

(** The filter of [claim]: keep a hash when [insert] reports it new. *)
Fixpoint claim_loop (hashes : list BlockHash) (flying : gset BlockHash)
    : list BlockHash * gset BlockHash :=
  match hashes with
  | [] => ([], flying)
  | hash :: hashes =>
      if decide (hash ∈ flying) then claim_loop hashes flying
      else let '(claimed, flying') := claim_loop hashes ({[hash]} ∪ flying) in
           (hash :: claimed, flying')
  end.

Definition claim (hashes : list BlockHash) (d : DownloadState KBlock)
    : list BlockHash * DownloadState KBlock :=
  let '(claimed, flying) := claim_loop hashes d.(in_flight) in
  (claimed, mk_download d.(queue) flying d.(buffer)).

Definition release (hash : BlockHash) (d : DownloadState KBlock) : bool * DownloadState KBlock :=
  (bool_decide (hash ∈ d.(in_flight)),
   mk_download d.(queue) (d.(in_flight) ∖ {[hash]}) d.(buffer)).

Definition requeue_one (d : DownloadState KBlock) (hash : BlockHash) : DownloadState KBlock :=
  mk_download (hash :: d.(queue)) (d.(in_flight) ∖ {[hash]}) d.(buffer).

(** [order] is the order the inventory is iterated in. *)
Definition requeue_unreceived (order : list BlockHash) (d : DownloadState KBlock)
    : DownloadState KBlock :=
  match order with
  | [] => d
  | _ => foldl requeue_one d order
  end.

Definition buffer_block (prev_hash : BlockHash) (b : KBlock) (d : DownloadState KBlock)
    : DownloadState KBlock :=
  mk_download d.(queue) d.(in_flight) (<[prev_hash := b]> d.(buffer)).

Definition buffered_hashes (d : DownloadState KBlock) : gset BlockHash :=
  list_to_set (kblock_hash <$> (map_to_list d.(buffer)).*2).

(** [order] is the order of [self.buffer.keys()]. *)
Definition buffer_head (order : list BlockHash) (d : DownloadState KBlock) : option BlockHash :=
  find_first (λ p, bool_decide (p ∉ buffered_hashes d)) order.

(** [HashMap::remove]. *)
Definition buffer_remove (p : BlockHash) (d : DownloadState KBlock)
    : option KBlock * DownloadState KBlock :=
  (d.(buffer) !! p, mk_download d.(queue) d.(in_flight) (delete p d.(buffer))).

Definition take_connectable (order : list BlockHash) (is_connected : BlockHash → bool)
    (d : DownloadState KBlock) : option KBlock * DownloadState KBlock :=
  match find_first is_connected order with
  | Some p => buffer_remove p d
  | None =>
      if negb (is_nil d.(queue)) || negb (bool_decide (d.(in_flight) = ∅)) then (None, d)
      else match buffer_head order d with
           | Some p => buffer_remove p d
           | None => (None, d)
           end
  end.

(** ** Vocabulary of the properties *)

(** [order] is one way to iterate a hash set: each element once. *)
Definition iterates (order : list BlockHash) (X : gset BlockHash) : Prop :=
  NoDup order ∧ ∀ h, h ∈ order ↔ h ∈ X.

(** What is still to come: queued or asked for. *)
Definition outstanding (d : DownloadState KBlock) : gset BlockHash :=
  list_to_set d.(queue) ∪ d.(in_flight).

(** No peer owes anything and nothing is queued. *)
Definition idle (d : DownloadState KBlock) : Prop := d.(queue) = [] ∧ d.(in_flight) = ∅.

(** The blocks held form no cycle of parents: there is a rank (their height)
    that grows from parent to child. *)
Definition acyclic (m : gmap BlockHash KBlock) : Prop :=
  ∃ rank : BlockHash → nat, ∀ p b, m !! p = Some b → (rank p < rank (kblock_hash b))%nat.

(** ** Claiming *)

Lemma pop_loop_spec q flying room :
  match pop_loop q flying room with
  | (batch, q', flying') =>
      NoDup batch ∧ (length batch ≤ room)%nat ∧
      (∀ h, h ∈ batch → h ∉ flying) ∧
      flying' = flying ∪ list_to_set batch ∧
      (∃ popped, q = popped ++ q' ∧ batch `sublist_of` popped ∧
        ∀ h, h ∈ popped → h ∈ flying ∨ h ∈ batch) ∧
      ((length batch < room)%nat → q' = [])
  end.
Proof.
  revert flying room. induction q as [|h q IH]; intros flying [|room]; simpl.
  1-3: split_and!; [constructor|simpl; lia|set_solver|set_solver| |by (intros ?; simpl in *; lia || done)];
       exists []; split_and!; [done|constructor|set_solver].
  - case_decide as Hin.
    + specialize (IH flying (S room)). destruct (pop_loop _ _ _) as [[batch q'] flying'].
      destruct IH as (Hnd & Hlen & Hdisj & Hfl & (popped & -> & Hsub & Hpop) & Hend).
      split_and!; try done. exists (h :: popped). split_and!; [done|by constructor|].
      intros x [->|Hx]%elem_of_cons; [by left|by apply Hpop].
    + specialize (IH ({[h]} ∪ flying) room).
      destruct (pop_loop _ _ _) as [[batch q'] flying'].
      destruct IH as (Hnd & Hlen & Hdisj & Hfl & (popped & -> & Hsub & Hpop) & Hend).
      split_and!; simpl.
      * constructor; [|done]. intros Hh%Hdisj. set_solver.
      * lia.
      * intros x [->|Hx]%elem_of_cons; [done|]. apply Hdisj in Hx. set_solver.
      * rewrite Hfl. set_solver.
      * exists (h :: popped). split_and!; [done|by constructor|].
        intros x [->|Hx]%elem_of_cons; [right; by constructor|].
        apply Hpop in Hx. set_solver.
      * intros. apply Hend. lia.
Qed.

(** [claim] is the batch loop with room for every hash. *)
Lemma claim_loop_pop hashes flying room :
  (length hashes ≤ room)%nat →
  pop_loop hashes flying room =
    ((claim_loop hashes flying).1, [], (claim_loop hashes flying).2).
Proof.
  revert flying room. induction hashes as [|h hashes IH]; intros flying room Hr.
  { by destruct room. }
  destruct room as [|room]; simpl in *; [lia|]. case_decide.
  - apply IH. lia.
  - rewrite IH by lia. by destruct (claim_loop _ _).
Qed.

Lemma pop_batch_spec n d :
  let '(batch, d') := pop_batch n d in
  NoDup batch ∧ (length batch ≤ n)%nat ∧ list_to_set batch ## d.(in_flight) ∧
  d'.(in_flight) = d.(in_flight) ∪ list_to_set batch ∧ d'.(buffer) = d.(buffer) ∧
  (∃ popped, d.(queue) = popped ++ d'.(queue) ∧ batch `sublist_of` popped ∧
    ∀ h, h ∈ popped → h ∈ d.(in_flight) ∨ h ∈ batch) ∧
  ((length batch < n)%nat → d'.(queue) = []).
Proof.
  unfold pop_batch. pose proof (pop_loop_spec d.(queue) d.(in_flight) n) as Hp.
  destruct (pop_loop _ _ _) as [[batch q] fl]; simpl in *.
  destruct Hp as (?&?&?&?&?&?). split_and!; try done. set_solver.
Qed.

Lemma pop_batch_outstanding n d :
  outstanding (pop_batch n d).2 = outstanding d.
Proof.
  pose proof (pop_batch_spec n d) as Hp. unfold outstanding.
  destruct (pop_batch n d) as [batch d']; simpl.
  destruct Hp as (_&_&_&Hf&_&(popped&Hq&Hs&Hc)&_). rewrite Hf, Hq, list_to_set_app_L.
  assert (∀ h, h ∈ batch → h ∈ popped) as Hin.
  { intros h Hh. eapply elem_of_submseteq; [done|]. by apply sublist_submseteq. }
  set_solver.
Qed.

Lemma claim_spec hashes d :
  let '(claimed, d') := claim hashes d in
  NoDup claimed ∧ list_to_set claimed = list_to_set hashes ∖ d.(in_flight) ∧
  d'.(in_flight) = d.(in_flight) ∪ list_to_set hashes ∧
  d'.(queue) = d.(queue) ∧ d'.(buffer) = d.(buffer).
Proof.
  unfold claim. pose proof (pop_loop_spec hashes d.(in_flight) (length hashes)) as Hp.
  rewrite claim_loop_pop in Hp by done. destruct (claim_loop _ _) as [c fl]; simpl in *.
  destruct Hp as (Hnd & _ & Hdisj & -> & (popped & Hq & Hs & Hc) & _).
  rewrite app_nil_r in Hq. subst popped.
  assert (∀ h, h ∈ c → h ∈ hashes) as Hin.
  { intros h Hh. eapply elem_of_submseteq; [done|]. by apply sublist_submseteq. }
  split_and!; [done| |set_solver|done|done].
  apply set_eq. intros h. rewrite elem_of_difference, !elem_of_list_to_set. naive_solver.
Qed.

(** A duplicate free prefix nobody holds is claimed as a whole. *)
Lemma pop_loop_front front rest flying :
  NoDup front → (∀ h, h ∈ front → h ∉ flying) →
  pop_loop (front ++ rest) flying (length front) = (front, rest, list_to_set front ∪ flying).
Proof.
  revert flying. induction front as [|h front IH]; intros flying Hnd Hd; simpl.
  { destruct rest; by rewrite (left_id_L ∅ (∪)). }
  apply NoDup_cons in Hnd as [Hh Hnd].
  rewrite decide_False by (apply Hd; constructor). rewrite IH; [|done|].
  - f_equal. set_solver.
  - intros x Hx. assert (x ≠ h) by congruence.
    assert (x ∉ flying) by (apply Hd; by constructor). set_solver.
Qed.

(** ** Giving hashes back *)

Lemma foldl_requeue order d :
  foldl requeue_one d order =
    mk_download (reverse order ++ d.(queue)) (d.(in_flight) ∖ list_to_set order) d.(buffer).
Proof.
  revert d. induction order as [|h order IH]; intros d; simpl.
  - destruct d; simpl. f_equal. set_solver.
  - rewrite IH. unfold requeue_one. simpl. f_equal; [|set_solver].
    by rewrite reverse_cons, <- app_assoc.
Qed.

Lemma requeue_spec order d :
  requeue_unreceived order d =
    mk_download (reverse order ++ d.(queue)) (d.(in_flight) ∖ list_to_set order) d.(buffer).
Proof.
  unfold requeue_unreceived. destruct order; [|by rewrite foldl_requeue].
  destruct d; simpl. f_equal. set_solver.
Qed.

(** ** Handing blocks to the kernel *)

Lemma elem_of_buffered_hashes d h :
  h ∈ buffered_hashes d ↔ ∃ p b, d.(buffer) !! p = Some b ∧ kblock_hash b = h.
Proof.
  unfold buffered_hashes. rewrite elem_of_list_to_set, list_elem_of_fmap. split.
  - intros (b & -> & Hb). apply list_elem_of_fmap in Hb as ([p b'] & -> & Hb).
    apply elem_of_map_to_list in Hb. eauto.
  - intros (p & b & Hb & <-). exists b. split; [done|]. apply list_elem_of_fmap.
    exists (p, b). split; [done|]. by apply elem_of_map_to_list.
Qed.

(** Among the blocks held without a cycle one has no held parent. *)
Lemma buffer_head_exists order d :
  iterates order (dom d.(buffer)) → acyclic d.(buffer) → d.(buffer) ≠ ∅ →
  is_Some (buffer_head order d).
Proof.
  intros [_ Hord] [rank Hrank] Hne. destruct (buffer_head order d) eqn:Hh; [eauto|].
  exfalso. unfold buffer_head in Hh.
  (* an infinite descent: every key is the hash of a block under a lower key *)
  assert (∀ n p b, (rank p < n)%nat → d.(buffer) !! p = Some b → False) as Hdesc.
  { induction n as [|n IH]; intros p b Hr Hb; [lia|].
    assert (p ∈ order) as Hp by (apply Hord, elem_of_dom; eauto).
    apply (find_first_None _ _ Hh) in Hp.
    apply bool_decide_eq_false, dec_stable, elem_of_buffered_hashes in Hp as (p'&b'&Hb'&<-).
    pose proof (Hrank _ _ Hb'). eapply IH; [|done]. lia. }
  apply map_choose in Hne as (p & b & Hb). by apply (Hdesc (S (rank p)) p b); [lia|].
Qed.

Lemma take_connectable_Some order conn d b d' :
  iterates order (dom d.(buffer)) →
  take_connectable order conn d = (Some b, d') →
  ∃ p, d.(buffer) !! p = Some b ∧
    d' = mk_download d.(queue) d.(in_flight) (delete p d.(buffer)) ∧
    (conn p = true ∨
     (idle d ∧ (p ∉ buffered_hashes d) ∧ (∀ p', p' ∈ dom d.(buffer) → conn p' = false))).
Proof.
  intros [_ Hord]. unfold take_connectable.
  destruct (find_first conn order) as [p|] eqn:Hf.
  - apply find_first_Some in Hf as [_ Hc]. unfold buffer_remove. intros [= Hb <-].
    eauto 10.
  - destruct (negb _ || negb _) eqn:Hidle; [done|].
    apply orb_false_iff in Hidle as [Hq Hfl].
    apply negb_false_iff in Hq, Hfl. apply bool_decide_eq_true in Hfl.
    destruct (buffer_head order d) as [p|] eqn:Hh; [|done].
    apply find_first_Some in Hh as [Hin Hp%bool_decide_eq_true].
    unfold buffer_remove. intros [= Hb <-]. exists p. split_and!; [done|done|].
    right. split_and!; [|done|].
    + split; [|done]. by destruct (queue d).
    + intros p' Hp'. apply (find_first_None _ _ Hf). by apply Hord.
Qed.

Lemma take_connectable_None order conn d d' :
  iterates order (dom d.(buffer)) → acyclic d.(buffer) →
  take_connectable order conn d = (None, d') →
  d' = d ∧ (∀ p, p ∈ dom d.(buffer) → conn p = false) ∧ (idle d → d.(buffer) = ∅).
Proof.
  intros Hit Hac. unfold take_connectable.
  destruct (find_first conn order) as [p|] eqn:Hf.
  { apply find_first_Some in Hf as [Hin _]. apply Hit, elem_of_dom in Hin as [b Hb].
    unfold buffer_remove. rewrite Hb. done. }
  pose proof (find_first_None _ _ Hf) as Hnone. destruct Hit as [Hnd Hord].
  destruct (negb _ || negb _) eqn:Hidle.
  { intros [= <-]. split_and!; [done|by setoid_rewrite <- Hord|].
    intros [Hq Hfl]. rewrite Hq, Hfl in Hidle. by rewrite bool_decide_true in Hidle. }
  destruct (buffer_head order d) as [p|] eqn:Hh.
  - apply find_first_Some in Hh as [Hin _]. apply Hord, elem_of_dom in Hin as [b Hb].
    unfold buffer_remove. rewrite Hb. done.
  - intros [= <-]. split_and!; [done|by setoid_rewrite <- Hord|]. intros _.
    destruct (decide (buffer d = ∅)) as [|Hne]; [done|].
    destruct (buffer_head_exists order d) as [? ?]; [by split|done|done|congruence].
Qed.

(** ** Sequences of batches and of hand-overs *)

(** Batches popped one after the other, as the peer threads do. *)
Fixpoint pop_batches (sizes : list nat) (d : DownloadState KBlock)
    : list (list BlockHash) * DownloadState KBlock :=
  match sizes with
  | [] => ([], d)
  | n :: sizes =>
      let '(batch, d1) := pop_batch n d in
      let '(batches, d2) := pop_batches sizes d1 in
      (batch :: batches, d2)
  end.

Lemma pop_batches_spec sizes d :
  let '(batches, d') := pop_batches sizes d in
  NoDup (concat batches) ∧
  d'.(in_flight) = d.(in_flight) ∪ list_to_set (concat batches) ∧
  (∃ popped, d.(queue) = popped ++ d'.(queue) ∧ concat batches `sublist_of` popped) ∧
  list_to_set (concat batches) ## d.(in_flight) ∧ outstanding d' = outstanding d.
Proof.
  revert d. induction sizes as [|n sizes IH]; intros d; simpl.
  { split_and!; [constructor|set_solver|by exists []|set_solver|done]. }
  pose proof (pop_batch_spec n d) as Hp. pose proof (pop_batch_outstanding n d) as Ho.
  destruct (pop_batch n d) as [batch d1]. specialize (IH d1).
  destruct (pop_batches sizes d1) as [batches d2]. simpl in *.
  destruct Hp as (Hnd & _ & Hdisj & Hf & _ & (popped & Hq & Hs & _) & _).
  destruct IH as (Hnd' & Hf' & (popped' & Hq' & Hs') & Hdisj' & Ho').
  split_and!; [| | |set_solver|congruence].
  - apply NoDup_app. split_and!; [done| |done]. intros h Hh Hh'. set_solver.
  - rewrite Hf', Hf, list_to_set_app_L. set_solver.
  - exists (popped ++ popped'). rewrite <- app_assoc, Hq, Hq'. split; [done|].
    by apply sublist_app.
Qed.

(** A run of the block thread over a quiet download state: the blocks taken,
    each with the view of the active chain it was taken under, which the
    kernel may change in any way between two steps. *)
Inductive drain : DownloadState KBlock → list ((BlockHash → bool) * KBlock) → DownloadState KBlock → Prop :=
| drain_done d : drain d [] d
| drain_next d order conn b d1 tr d2 :
    iterates order (dom d.(buffer)) →
    take_connectable order conn d = (Some b, d1) →
    drain d1 tr d2 →
    drain d ((conn, b) :: tr) d2.

Lemma idle_buffer_only d p : idle d → idle (mk_download d.(queue) d.(in_flight) (delete p d.(buffer))).
Proof. done. Qed.

Lemma acyclic_delete m p : acyclic m → acyclic (delete p m).
Proof. intros [rank Hr]. exists rank. intros p' b [_ Hb]%lookup_delete_Some. eauto. Qed.

Lemma drain_perm d tr d' :
  drain d tr d' →
  tr.*2 ++ (map_to_list d'.(buffer)).*2 ≡ₚ (map_to_list d.(buffer)).*2 ∧
  d'.(buffer) ⊆ d.(buffer) ∧ d'.(queue) = d.(queue) ∧ d'.(in_flight) = d.(in_flight) ∧
  (acyclic d.(buffer) → acyclic d'.(buffer)).
Proof.
  induction 1 as [d|d order conn b d1 tr d2 Hit Ht _ IH]; simpl; [done|].
  apply take_connectable_Some in Ht as (p & Hb & -> & _); [|done]. simpl in IH.
  destruct IH as (IH & Hsub & ? & ? & Hac). rewrite IH.
  split_and!; [|etrans; [done|apply delete_subseteq]|done|done|
    intros; by apply Hac, acyclic_delete].
  by rewrite <- (map_to_list_delete d.(buffer) p b).
Qed.

Lemma drain_parents d tr d' i j conn b conn' c :
  drain d tr d' → tr !! i = Some (conn, b) → tr !! j = Some (conn', c) → (i < j)%nat →
  d.(buffer) !! kblock_hash c = Some b →
  (∀ p p', d.(buffer) !! p = Some b → d.(buffer) !! p' = Some b → p = p') →
  conn (kblock_hash c) = true.
Proof.
  intros Hd. revert i j. induction Hd as [d|d order conn0 b0 d1 tr d2 Hit Ht Hd IH];
    intros i j Hi Hj Hlt Hpar Huniq; [done|].
  pose proof Ht as (p & Hb & -> & Hor)%take_connectable_Some; [|done].
  destruct i as [|i], j as [|j]; simpl in *; [lia| |lia|].
  - simplify_eq. assert (p = kblock_hash c) as -> by eauto. destruct Hor as [|(_ & Hnb & _)]; [done|].
    exfalso. apply Hnb.
    assert (c ∈ (map_to_list (delete (kblock_hash c) d.(buffer))).*2) as Hc.
    { rewrite <- (proj1 (drain_perm _ _ _ Hd)). apply elem_of_app. left.
      apply list_elem_of_fmap. exists (conn', c). split; [done|].
      by eapply list_elem_of_lookup_2. }
    apply list_elem_of_fmap in Hc as ([q c'] & -> & Hc%elem_of_map_to_list).
    apply lookup_delete_Some in Hc as [_ Hc]. apply elem_of_buffered_hashes.
    by exists q, c'.
  - eapply IH; [done|done|lia| |].
    + apply lookup_delete_Some. split; [|done]. intros ->.
      assert (b ∈ (map_to_list (delete (kblock_hash c) d.(buffer))).*2) as Hbb.
      { rewrite <- (proj1 (drain_perm _ _ _ Hd)). apply elem_of_app. left.
        apply list_elem_of_fmap. exists (conn, b). split; [done|].
        by eapply list_elem_of_lookup_2. }
      apply list_elem_of_fmap in Hbb as ([q b'] & Heq & Hc%elem_of_map_to_list).
      simpl in Heq; subst b'. apply lookup_delete_Some in Hc as [Hne Hc]. by apply Hne, Huniq.
    + intros q q' [_ Hq]%lookup_delete_Some [_ Hq']%lookup_delete_Some. by apply Huniq.
Qed.

(** ** Properties *)

(** However many batches the peers pop, one after the other, no block is
    handed out twice and none that is already in flight: the batches are
    duplicate free, disjoint from the blocks already asked for, follow the
    order of the queue, and what is queued or in flight in total is unchanged. *)
Theorem batches_claim_once sizes d :
  let '(batches, d') := pop_batches sizes d in
  NoDup (concat batches) ∧ list_to_set (concat batches) ## d.(in_flight) ∧
  (∃ popped, d.(queue) = popped ++ d'.(queue) ∧ concat batches `sublist_of` popped) ∧
  d'.(in_flight) = d.(in_flight) ∪ list_to_set (concat batches) ∧
  outstanding d' = outstanding d.
Proof.
  pose proof (pop_batches_spec sizes d) as Hs.
  destruct (pop_batches sizes d). naive_solver.
Qed.

(** A batch has at most the requested number of blocks, and a short batch
    means that the queue ran empty; every hash it skipped was in flight. *)
Theorem batch_is_full_or_drains n d :
  let '(batch, d') := pop_batch n d in
  (length batch ≤ n)%nat ∧ ((length batch < n)%nat → d'.(queue) = []) ∧
  (∀ h, h ∈ d.(queue) → h ∉ d'.(queue) → h ∈ d.(in_flight) ∨ h ∈ batch).
Proof.
  pose proof (pop_batch_spec n d) as Hs. destruct (pop_batch n d) as [batch d'].
  destruct Hs as (_ & Hn & _ & _ & _ & (popped & Hq & _ & Hp) & He).
  split_and!; [done|done|]. intros h Hh Hn'. rewrite Hq in Hh.
  apply elem_of_app in Hh as [Hh|Hh]; [by apply Hp|done].
Qed.

(** [claim] keeps exactly the announced blocks nobody was asked for, each
    once, and marks every announced block in flight. *)
Theorem claim_keeps_unclaimed hashes d :
  let '(claimed, d') := claim hashes d in
  NoDup claimed ∧ list_to_set claimed = list_to_set hashes ∖ d.(in_flight) ∧
  d'.(in_flight) = d.(in_flight) ∪ list_to_set hashes ∧ d'.(queue) = d.(queue).
Proof.
  pose proof (claim_spec hashes d) as Hs. destruct (claim hashes d). naive_solver.
Qed.

(** Requeueing what a peer still owed, in any iteration order of its
    inventory, loses nothing: the hashes are no longer in flight, they are at
    the front of the queue, each once, ahead of everything queued before, and
    the next batch can claim them again. *)
Theorem requeue_keeps_all order inventory d :
  iterates order inventory → inventory ⊆ d.(in_flight) →
  let d' := requeue_unreceived order d in
  outstanding d' = outstanding d ∧
  d'.(in_flight) = d.(in_flight) ∖ inventory ∧
  (∃ front, d'.(queue) = front ++ d.(queue) ∧ iterates front inventory) ∧
  list_to_set (pop_batch (length order) d').1 = inventory.
Proof.
  intros [Hnd Hord] Hsub. rewrite requeue_spec. simpl.
  assert (list_to_set order = inventory) as Hset.
  { apply set_eq. intros h. by rewrite elem_of_list_to_set. }
  split_and!.
  - unfold outstanding. simpl. rewrite list_to_set_app_L, list_to_set_reverse_L, Hset.
    apply set_eq. intros h. destruct (decide (h ∈ inventory)); set_solver.
  - by rewrite Hset.
  - exists (reverse order). split; [done|]. split; [by rewrite reverse_Permutation|].
    intros h. by rewrite elem_of_reverse.
  - unfold pop_batch. simpl. rewrite Hset.
    rewrite <- (length_reverse order).
    rewrite (pop_loop_front (reverse order)); [|by rewrite reverse_Permutation|].
    + simpl. rewrite list_to_set_reverse_L. done.
    + intros h. rewrite elem_of_reverse. set_solver.
Qed.

(** C19: A run of the block thread hands every block over after its parent: when
    a block is taken while its parent is still held, the parent was already on
    the active chain at that moment. *)
Theorem drain_parent_first (parent : KBlock → BlockHash) d tr d' i j conn b conn' c :
  (∀ p b, d.(buffer) !! p = Some b → parent b = p) →
  drain d tr d' →
  tr !! i = Some (conn, b) → tr !! j = Some (conn', c) → (i < j)%nat →
  parent b = kblock_hash c →
  conn (kblock_hash c) = true.
Proof.
  intros Hpar Hd Hi Hj Hlt Heq.
  assert (b ∈ (map_to_list d.(buffer)).*2) as Hb.
  { rewrite <- (proj1 (drain_perm _ _ _ Hd)). apply elem_of_app. left.
    apply list_elem_of_fmap. exists (conn, b). split; [done|].
    by eapply list_elem_of_lookup_2. }
  apply list_elem_of_fmap in Hb as ([p b'] & Hbb & Hb%elem_of_map_to_list).
  simpl in Hbb; subst b'. eapply drain_parents; try done.
  - by rewrite <- Heq, (Hpar _ _ Hb).
  - intros q q' Hq%Hpar Hq'%Hpar. congruence.
Qed.

(** C18: Once nothing is queued or in flight the block thread empties the
    buffer: a run that can take nothing more has taken every buffered block
    exactly once, a run never takes more blocks than were buffered, and as long
    as a block is held the next step takes one, whatever the active chain and
    the iteration order. *)
Theorem drain_complete d tr d' :
  idle d → acyclic d.(buffer) → drain d tr d' →
  (length tr ≤ size d.(buffer))%nat ∧
  (∀ order conn, iterates order (dom d'.(buffer)) → d'.(buffer) ≠ ∅ →
     is_Some (take_connectable order conn d').1) ∧
  (∀ order conn d'', iterates order (dom d'.(buffer)) →
     take_connectable order conn d' = (None, d'') →
     tr.*2 ≡ₚ (map_to_list d.(buffer)).*2).
Proof.
  intros Hi Hac Hd. apply drain_perm in Hd as (Hperm & _ & Hq & Hf & Hac').
  assert (idle d') as Hi' by (unfold idle in *; by rewrite Hq, Hf).
  assert (∀ order conn d'', iterates order (dom d'.(buffer)) →
    take_connectable order conn d' = (None, d'') → d'.(buffer) = ∅) as Hnone.
  { intros order conn d'' Hit Ht. by apply take_connectable_None in Ht as (_&_&?); auto. }
  split_and!.
  - apply Permutation_length in Hperm. rewrite length_app, !length_fmap, !length_map_to_list in Hperm.
    lia.
  - intros order conn Hit Hne. destruct (take_connectable order conn d') as [[b|] d''] eqn:Ht; [eauto|].
    by apply Hnone in Ht.
  - intros order conn d'' Hit Ht. rewrite (Hnone _ _ _ Hit Ht), map_to_list_empty in Hperm.
    simpl in Hperm. by rewrite app_nil_r in Hperm.
Qed.

(** While a block is queued or in flight, only blocks whose parent is on the
    active chain are taken, and one is taken whenever there is such a block. *)
Theorem busy_takes_connected_only order conn d :
  iterates order (dom d.(buffer)) → ¬ idle d →
  (is_Some (take_connectable order conn d).1 ↔ ∃ p, p ∈ dom d.(buffer) ∧ conn p = true) ∧
  (∀ b, (take_connectable order conn d).1 = Some b →
     ∃ p, d.(buffer) !! p = Some b ∧ conn p = true).
Proof.
  intros Hit Hbusy. destruct (take_connectable order conn d) as [o d'] eqn:Ht. simpl.
  assert (∀ b, o = Some b → ∃ p, d.(buffer) !! p = Some b ∧ conn p = true) as Hs.
  { intros b ->. apply take_connectable_Some in Ht as (p & Hb & _ & [Hc|[Hc _]]); eauto. }
  split; [|done]. split.
  - intros [b ->]. destruct (Hs b) as (p & Hb & Hc); [done|].
    exists p. by rewrite elem_of_dom, Hb.
  - intros (p & Hp & Hc). unfold take_connectable in Ht.
    destruct (find_first conn order) as [q|] eqn:Hf.
    + apply find_first_Some in Hf as [Hin _]. apply Hit, elem_of_dom in Hin as [b Hb].
      unfold buffer_remove in Ht. rewrite Hb in Ht. simplify_eq. eauto.
    + apply Hit in Hp. by rewrite (find_first_None _ _ Hf _ Hp) in Hc.
Qed.

(** The buffer holds one block per parent: when a second child of the same
    parent arrives the first is dropped, and afterwards it is neither held,
    queued nor in flight. *)
Theorem sibling_overwritten p b b' d :
  kblock_hash b ≠ kblock_hash b' →
  kblock_hash b ∉ outstanding d → kblock_hash b ∉ buffered_hashes d →
  let d' := buffer_block p b' (buffer_block p b d) in
  (kblock_hash b ∉ buffered_hashes d') ∧ (kblock_hash b ∉ outstanding d').
Proof.
  intros Hne Ho Hb. simpl. split; [|done]. contradict Hb.
  apply elem_of_buffered_hashes in Hb as (q & c & Hc & Hh). simpl in Hc.
  rewrite insert_insert_eq in Hc. apply lookup_insert_Some in Hc as [[_ ->]|[_ Hc]].
  - by rewrite Hh in Hne.
  - apply elem_of_buffered_hashes. eauto.
Qed.
End Download.

(** ** Concrete runs *)

Module Witness.
Import Messages.Demo Kernel.Demo.

(** Three blocks of one chain, [104 <- 106 <- 108 <- 110], held out of order. *)
Definition held : DownloadState KBlock :=
  buffer_block 108 (110, 108) (buffer_block 104 (106, 104) (buffer_block 106 (108, 106) download_default)).
(** Only the block 104 is on the active chain. *)
Definition on_104 (h : Z) : bool := bool_decide (h = 104).
Definition nothing (h : Z) : bool := false.

Lemma iterates_intro (order : list Z) (X : gset Z) :
  NoDup order → list_to_set order = X → iterates order X.
Proof. intros Hnd <-. split; [done|]. intros h. by rewrite elem_of_list_to_set. Qed.

Lemma held_acyclic : acyclic held.(buffer).
Proof.
  exists Z.to_nat. intros p b Hb. unfold held in Hb. simpl in Hb.
  repeat (apply lookup_insert_Some in Hb as [[<- <-]|[_ Hb]]; [vm_compute; lia|]).
  by rewrite lookup_empty in Hb.
Qed.

Lemma held_keys : ∀ p b, held.(buffer) !! p = Some b → b.2 = p.
Proof.
  intros p b Hb. unfold held in Hb. simpl in Hb.
  repeat (apply lookup_insert_Some in Hb as [[<- <-]|[_ Hb]]; [done|]).
  by rewrite lookup_empty in Hb.
Qed.

(** The chain is drained in order although it is iterated out of order; the
    first step sees the parent on the active chain, the others do not. *)
Lemma held_drain :
  ∃ d', drain held [(on_104, (106, 104)); (nothing, (108, 106)); (nothing, (110, 108))] d' ∧
    d'.(buffer) = ∅.
Proof.
  eexists. split.
  - eapply (drain_next (H0:=demo_kernel) _ [108; 106; 104]).
    { apply iterates_intro; [apply (bool_decide_unpack _); by vm_compute|by vm_compute]. }
    { vm_compute. reflexivity. }
    eapply (drain_next (H0:=demo_kernel) _ [108; 106]).
    { apply iterates_intro; [apply (bool_decide_unpack _); by vm_compute|by vm_compute]. }
    { vm_compute. reflexivity. }
    eapply (drain_next (H0:=demo_kernel) _ [108]).
    { apply iterates_intro; [apply (bool_decide_unpack _); by vm_compute|by vm_compute]. }
    { vm_compute. reflexivity. }
    apply (drain_done (H0:=demo_kernel)).
  - by vm_compute.
Qed.

Lemma requeue_keeps_all_witness :
  let d := mk_download [7; 8] {[1; 2; 3]} ∅ in
  (requeue_unreceived [2; 1] d).(queue) = [1; 2; 7; 8] ∧
  outstanding (requeue_unreceived [2; 1] d) = outstanding d.
Proof.
  split; [by vm_compute|].
  apply (requeue_keeps_all [2; 1] {[1; 2]}).
  - apply iterates_intro; [apply (bool_decide_unpack _); by vm_compute|by vm_compute].
  - apply (bool_decide_unpack _). by vm_compute.
Defined.

(** The block 108 is taken while its parent 106 is still held: 106 was on the
    active chain. *)
Definition on_106 (h : Z) : bool := bool_decide (h = 106).

Lemma early_drain : ∃ d', drain held [(on_106, (108, 106)); (nothing, (106, 104))] d'.
Proof.
  eexists. eapply (drain_next (H0:=demo_kernel) _ [108; 106; 104]).
  { apply iterates_intro; [apply (bool_decide_unpack _); by vm_compute|by vm_compute]. }
  { vm_compute. reflexivity. }
  eapply (drain_next (H0:=demo_kernel) _ [104; 108]).
  { apply iterates_intro; [apply (bool_decide_unpack _); by vm_compute|by vm_compute]. }
  { vm_compute. reflexivity. }
  apply (drain_done (H0:=demo_kernel)).
Qed.

Lemma drain_parent_first_witness :
  ∃ d', drain held [(on_106, (108, 106)); (nothing, (106, 104))] d' ∧ on_106 106 = true.
Proof.
  destruct early_drain as [d' Hd]. exists d'. split; [exact Hd|].
  exact (drain_parent_first snd held _ d' 0 1 on_106 (108, 106) nothing (106, 104)
    held_keys Hd eq_refl eq_refl ltac:(lia) eq_refl).
Defined.

Lemma drain_complete_witness :
  ∃ tr d', drain held tr d' ∧ tr.*2 ≡ₚ (map_to_list held.(buffer)).*2.
Proof.
  destruct held_drain as (d' & Hd & He). eexists _, d'. split; [exact Hd|].
  destruct (drain_complete held _ d' (conj eq_refl eq_refl) held_acyclic Hd) as (_ & _ & Hall).
  apply (Hall [] nothing d').
  - apply (iterates_intro []); [constructor|]. by rewrite He, dom_empty_L.
  - unfold take_connectable. simpl. by destruct (negb _ || negb _).
Defined.

Lemma busy_takes_connected_only_witness :
  let d := mk_download [99] ∅ held.(buffer) in
  is_Some (take_connectable [108; 106; 104] on_104 d).1 ∧
  (take_connectable [108; 106; 104] nothing d).1 = None.
Proof.
  intros d. split; [|by vm_compute].
  apply (busy_takes_connected_only [108; 106; 104] on_104 d).
  - apply iterates_intro; [apply (bool_decide_unpack _); by vm_compute|by vm_compute].
  - by intros [? _].
  - exists 104. split; [|done]. apply elem_of_dom. by exists (106, 104).
Defined.

Lemma sibling_overwritten_witness :
  let d' := buffer_block 104 (107, 104) (buffer_block 104 (106, 104) download_default) in
  106 ∉ buffered_hashes d'.
Proof.
  apply (sibling_overwritten (H0:=demo_kernel) 104 (106, 104) (107, 104) download_default);
    apply (bool_decide_unpack _); by vm_compute.
Defined.
End Witness.
