(* ===== verification/Peer.v ===== *)
(** * The peer protocol (src/net/peer.rs)

    Block locators, the download queue, the per-peer state machine with its
    message handler, and the peer object that drives it. The handler takes and
    releases the download mutex several times; what the other threads do to the
    download state at each of those points is the argument [other]. *)

From S2P Require Import Prelude Addr Messages Kernel Download.

Definition PROTOCOL_VERSION : Z := 70015.
Definition MAX_LOCATOR_HASHES : nat := 101.
Definition PEER_STALL_TIMEOUT : Duration := from_secs 30.

(** [NodeState], over the kernel's manager and block types. [addr_tx] holds what
    was sent to the address manager, or [None] once its receiver is gone. The
    condition variable carries no data. *)
Record NodeState (C K : Type) := mk_node {
  addr_tx : option (list (AddrV2 * list AddrV2Message));
  chainman : C;
  download : DownloadState K;
}.
Arguments mk_node {C K} _ _ _.
Arguments addr_tx {C K} _.
Arguments chainman {C K} _.
Arguments download {C K} _.

Inductive PeerStateMachine :=
| AwaitingHeaders
| AwaitingInv
| AwaitingBlock (peer_inventory : gset BlockHash).
#[global] Instance PeerStateMachine_eq_dec : EqDecision PeerStateMachine.
Proof. solve_decision. Defined.

(** The points of [process_message] where the download mutex is free between
    two critical sections. *)
Inductive site :=
| AfterQueueCheck
| AfterPopulate
| AfterRelease
| AfterBuffer.

Section Peer.
Context `{Kernel}.

Abbreviation Node := (NodeState Chainman KBlock).
Abbreviation Downloads := (DownloadState KBlock).

(** What the other threads do to the download state at each site. *)
Definition interleaving : Type := site → Downloads → Downloads.
Definition quiet : interleaving := λ _ d, d.

Definition with_download (ns : Node) (d : Downloads) : Node :=
  mk_node ns.(addr_tx) ns.(chainman) d.
Definition with_chainman (ns : Node) (c : Chainman) : Node :=
  mk_node ns.(addr_tx) c ns.(download).

(** ** [NodeState] *)

Definition is_on_active_chain (c : Chainman) (hash : BlockHash) : bool :=
  match get_block_tree_entry c hash with
  | Some entry => active_contains c entry
  | None => false
  end.

Definition node_buffer_block (p : BlockHash) (b : KBlock) (ns : Node) : Node :=
  with_download ns (buffer_block p b ns.(download)).

(** The first attempt; when it fails the thread waits, [during] being what the
    node does meanwhile, and tries once more. *)
Definition wait_for_connectable (order : Node → list BlockHash) (during : Node → Node)
    (ns : Node) : option KBlock * Node :=
  let try ns :=
    let '(b, d) := take_connectable (order ns) (is_on_active_chain ns.(chainman)) ns.(download) in
    (b, with_download ns d) in
  match try ns with
  | (Some b, ns) => (Some b, ns)
  | (None, ns) => try (during ns)
  end.

(** ** Locators *)

(** The loop of [build_block_locators], with [len] locators pushed so far; a
    run pushes at most [MAX_LOCATOR_HASHES], which bounds the fuel. [step] is an
    [i32]. *)
Fixpoint locator_loop (fuel : nat) (tip : Entry) (current_height step : Z) (len : nat)
    : outcome Empty_set (list BlockHash) :=
  match fuel with
  | O => Panic
  | S fuel =>
      entry ← or_panic (ancestor tip current_height);
      let len := S len in
      if decide (current_height = 0 ∨ (MAX_LOCATOR_HASHES ≤ len)%nat)
      then Ok [entry_hash entry]
      else
        let next := Z.max (current_height - step) 0 in
        let step := if decide (10 < len)%nat then wrap_i 32 (step * 2) else step in
        cons (entry_hash entry) <$> locator_loop fuel tip next step len
  end.

Definition build_block_locators (tip : Entry) : outcome Empty_set (list BlockHash) :=
  if decide (0 ≤ height tip) then
    locator_loop MAX_LOCATOR_HASHES tip (height tip) 1 0
  else Panic.

(** ** The download queue *)

(** The walk from [current] back to the active chain: the hashes off it, best
    first, and the fork point; [None] when the walk leaves the tree. *)
Fixpoint fork_walk (fuel : nat) (c : Chainman) (current : Entry)
    : option (list BlockHash * BlockHash) :=
  if active_contains c current then Some ([], entry_hash current)
  else match fuel, prev current with
       | S fuel, Some p =>
           '(hashes, fork_point) ← fork_walk fuel c p;
           Some (entry_hash current :: hashes, fork_point)
       | _, _ => None
       end.

Definition populate_download_queue (c : Chainman) (other : interleaving) (d : Downloads)
    : Downloads :=
  if negb (is_nil d.(queue)) then d else
  let d := other AfterQueueCheck d in
  match best_entry c with
  | None => d
  | Some best =>
      match fork_walk (Z.to_nat (height best)) c best with
      | None => d
      | Some (hashes, fork_point) =>
          if is_nil hashes then d else
          if negb (is_nil d.(queue)) then d else
          let buffered := buffered_hashes d in
          let queued :=
            filter (λ hash, (hash ∉ buffered) ∧ (hash ∉ d.(in_flight))) (reverse hashes) in
          if is_nil queued then d
          else mk_download queued d.(in_flight) d.(buffer)
      end
  end.

(** ** Messages *)

Definition create_getheaders_message (locators : list BlockHash) : NetworkMessage :=
  GetHeaders (mk_locator PROTOCOL_VERSION locators 0).
Definition create_getblocks_message (locators : list BlockHash) : NetworkMessage :=
  GetBlocks (mk_locator PROTOCOL_VERSION locators 0).
Definition create_getdata_message (hashes : list BlockHash) : NetworkMessage :=
  GetData (InvWitnessBlock <$> hashes).

(** The header loops: headers are given to the kernel until one is rejected;
    the hashes of the accepted ones. *)
Fixpoint accept_headers (c : Chainman) (headers : list Header)
    : list BlockHash * Chainman :=
  match headers with
  | [] => ([], c)
  | header :: headers =>
      let '(valid, c) := process_block_header c header in
      if valid then
        let '(announced, c) := accept_headers c headers in
        (header_hash header :: announced, c)
      else ([], c)
  end.

(** [filter_map] of the block entries of an inventory. *)
Definition inv_blocks (inv : list Inventory) : list BlockHash :=
  omap (λ i, match i with InvBlock h => Some h | _ => None end) inv.

(** ** [process_message] *)

Definition reply : Type := PeerStateMachine * list NetworkMessage * Node.

(** Ask for the headers after the best known one. *)
Definition request_headers (ns : Node) : outcome Empty_set reply :=
  best ← or_panic (best_entry ns.(chainman));
  locators ← build_block_locators best;
  Ok (AwaitingHeaders, [create_getheaders_message locators], ns).

(** Take the next batch, or ask for new blocks when there is none. *)
Definition next_batch (ns : Node) : outcome Empty_set reply :=
  let '(batch, d) := pop_batch DOWNLOAD_BATCH_SIZE ns.(download) in
  let ns := with_download ns d in
  if negb (is_nil batch) then
    Ok (AwaitingBlock (list_to_set batch), [create_getdata_message batch], ns)
  else
    locators ← build_block_locators (active_tip ns.(chainman));
    Ok (AwaitingInv, [create_getblocks_message locators], ns).

Definition on_headers_sync (other : interleaving) (headers : list Header) (ns : Node)
    : outcome Empty_set reply :=
  let '(_, c) := accept_headers ns.(chainman) headers in
  let ns := with_chainman ns c in
  if decide (Z.of_nat (length headers) ≠ 2000) then
    let d := populate_download_queue c other ns.(download) in
    next_batch (with_download ns (other AfterPopulate d))
  else request_headers ns.

Definition on_headers_announced (headers : list Header) (ns : Node)
    : outcome Empty_set reply :=
  let '(announced, c) := accept_headers ns.(chainman) headers in
  let ns := with_chainman ns c in
  if is_nil announced then request_headers ns
  else
    let '(claimed, d) := claim announced ns.(download) in
    let ns := with_download ns d in
    if is_nil claimed then Ok (AwaitingInv, [], ns)
    else Ok (AwaitingBlock (list_to_set claimed), [create_getdata_message claimed], ns).

Definition on_inv (inv : list Inventory) (ns : Node) : outcome Empty_set reply :=
  if negb (is_nil (inv_blocks inv)) then request_headers ns
  else Ok (AwaitingInv, [], ns).

Definition on_block (other : interleaving) (inventory : gset BlockHash) (b : Block) (ns : Node)
    : outcome Empty_set reply :=
  let hash := block_hash b in
  let inventory := inventory ∖ {[hash]} in
  let '(released, d) := release hash ns.(download) in
  let ns := with_download ns d in
  let ns := if released then
              let ns := with_download ns (other AfterRelease ns.(download)) in
              node_buffer_block (prev_blockhash (block_header b)) (convert b) ns
            else ns in
  if decide (inventory = ∅) then
    next_batch (with_download ns (other AfterBuffer ns.(download)))
  else Ok (AwaitingBlock inventory, [], ns).

Definition process_message (other : interleaving) (state_machine : PeerStateMachine)
    (event : NetworkMessage) (source : AddrV2) (ns : Node) : outcome Empty_set reply :=
  match event with
  | Ping nonce => Ok (state_machine, [Pong nonce], ns)
  | AddrV2Msg payload =>
      let sent := (λ l, l ++ [(source, payload)]) <$> ns.(addr_tx) in
      Ok (state_machine, [], mk_node sent ns.(chainman) ns.(download))
  | _ =>
      match state_machine with
      | AwaitingHeaders =>
          match event with
          | Headers headers => on_headers_sync other headers ns
          | _ => Ok (AwaitingHeaders, [], ns)
          end
      | AwaitingInv =>
          match event with
          | Headers headers => on_headers_announced headers ns
          | Inv inventory => on_inv inventory ns
          | _ => Ok (AwaitingInv, [], ns)
          end
      | AwaitingBlock inventory =>
          match event with
          | BlockMsg b => on_block other inventory b ns
          | _ => Ok (AwaitingBlock inventory, [], ns)
          end
      end
  end.

(** ** [BitcoinPeer] *)

(** [elapsed] of an [Instant] is zero when the clock has not moved on. *)
Definition stalled (state : PeerStateMachine) (last_progress now : Duration) : bool :=
  negb (bool_decide (state = AwaitingInv)) &&
  bool_decide (PEER_STALL_TIMEOUT < saturating_sub now last_progress).

Definition delivers_requested_block (state : PeerStateMachine) (msg : NetworkMessage) : bool :=
  match state, msg with
  | AwaitingBlock inventory, BlockMsg b => bool_decide (block_hash b ∈ inventory)
  | _, _ => false
  end.

(** Reader and writer are the arguments of the operations that use them. *)
Record BitcoinPeer := mk_peer {
  dest_addr : AddrV2;
  state_machine : PeerStateMachine;
  last_progress : Duration;
}.

Definition is_stalled (p : BitcoinPeer) (now : Duration) : bool :=
  stalled p.(state_machine) p.(last_progress) now.

(** [order] is the order the peer's inventory is iterated in. *)
Definition release_in_flight (order : list BlockHash) (p : BitcoinPeer) (d : Downloads)
    : Downloads :=
  match p.(state_machine) with
  | AwaitingBlock _ => requeue_unreceived order d
  | _ => d
  end.

Definition is_request (m : NetworkMessage) : bool :=
  match m with GetHeaders _ | GetData _ => true | _ => false end.

(** The messages written until one fails, and the failure. *)
Fixpoint send_all {E} (send : NetworkMessage → outcome E unit) (messages : list NetworkMessage)
    : list NetworkMessage * outcome E unit :=
  match messages with
  | [] => ([], Ok ())
  | m :: messages =>
      match send m with
      | Ok _ => let '(sent, r) := send_all send messages in (m :: sent, r)
      | Err e => ([], Err e)
      | Panic => ([], Panic)
      end
  end.

(** [BitcoinPeer::new]: [connect] is the outcome of [manager::connect]. *)
Definition peer_new {E} (connect : outcome E unit) (send : NetworkMessage → outcome E unit)
    (destination : AddrV2) (now : Duration) (ns : Node)
    : outcome E (BitcoinPeer * list NetworkMessage) :=
  _ ← connect;
  best ← or_panic (best_entry ns.(chainman));
  locators ← map_err (λ e : Empty_set, match e with end) (build_block_locators best);
  _ ← send (create_getheaders_message locators);
  Ok (mk_peer destination AwaitingHeaders now, [create_getheaders_message locators]).

(** What the reader returned is [msg], [None] standing for a transport that
    gives no message; [now] is the clock. The result, the peer and the node
    afterwards, and what was written. *)
Definition receive_and_process_message {E} (other : interleaving)
    (send : NetworkMessage → outcome E unit) (now : Duration)
    (msg : outcome E (option NetworkMessage)) (p : BitcoinPeer) (ns : Node)
    : outcome E unit * BitcoinPeer * Node * list NetworkMessage :=
  match msg with
  | Err e => (Err e, p, ns, [])
  | Panic | Ok None => (Panic, p, ns, [])
  | Ok (Some msg) =>
      let delivered := delivers_requested_block p.(state_machine) msg in
      match process_message other p.(state_machine) msg p.(dest_addr) ns with
      | Ok (sm, messages, ns) =>
          let requested := existsb is_request messages in
          let p := mk_peer p.(dest_addr) sm
                     (if delivered || requested then now else p.(last_progress)) in
          let '(sent, r) := send_all send messages in
          (r, p, ns, sent)
      | _ => (Panic, mk_peer p.(dest_addr) AwaitingHeaders p.(last_progress), ns, [])
      end
  end.
End Peer.

(** ** Locators *)

Section Locators.
Context `{KernelLaws}.

(** Heights from [h] strictly down to the genesis block. *)
Inductive descends : Z → list Z → Prop :=
| descends_genesis : descends 0 [0]
| descends_to h h' hs : 0 ≤ h' < h → descends h' hs → descends h (h :: hs).

(** [ls] are the hashes of [tip]'s ancestors at the heights [hs]. *)
Definition hashes_at (tip : Entry) (hs : list Z) (ls : list BlockHash) : Prop :=
  Forall2 (λ h l, ∃ a, ancestor tip h = Some a ∧ entry_hash a = l) hs ls.

(** The doubling phase, entered with [10 + k] locators and step [2 ^ k]: the
    31-bit height is used up after at most [32 - k] more. *)
Lemma locator_loop_doubling n tip cur k fuel len :
  k + Z.of_nat n = 31 → 0 ≤ k → 0 ≤ cur ≤ height tip → cur ≤ 2 ^ 31 - 2 ^ k →
  (n < fuel)%nat → (10 ≤ len)%nat → (len + S n < MAX_LOCATOR_HASHES)%nat →
  ∃ hs ls, locator_loop fuel tip cur (wrap_i 32 (2 ^ k)) len = Ok ls ∧
    hashes_at tip hs ls ∧ descends cur hs ∧ (length hs ≤ S n)%nat.
Proof.
  revert cur k fuel len. induction n as [|n IH]; intros cur k fuel len Hk Hk0 Hc Hb Hf Hl Hm;
    (destruct fuel as [|fuel]; [lia|]); cbn [locator_loop];
    destruct (ancestor_spec tip cur) as (a & Ha & Hh); try lia; rewrite Ha; simpl_outcome.
  - assert (k = 31) as -> by lia. assert (cur = 0) as -> by lia.
    rewrite decide_True by lia. exists [0], [entry_hash a].
    split_and!; [done| |constructor|done]. repeat constructor. eauto.
  - destruct (decide (cur = 0)) as [->|Hne].
    { rewrite decide_True by lia. exists [0], [entry_hash a].
      split_and!; [done| |constructor|simpl; lia]. repeat constructor. eauto. }
    rewrite decide_False by (intros [?|?]; [done|lia]). rewrite decide_True by lia.
    assert (2 ^ k ≤ 2 ^ 30) as Hle by (apply Z.pow_le_mono_r; lia).
    assert (0 < 2 ^ k) by (apply Z.pow_pos_nonneg; lia).
    assert (2 ^ (k + 1) = 2 * 2 ^ k) as Hs by (rewrite Z.pow_add_r; lia).
    rewrite (wrap_i_small 32 (2 ^ k)) by (unfold in_i; lia).
    rewrite (Z.mul_comm (2 ^ k)), <- Hs.
    destruct (IH (Z.max (cur - 2 ^ k) 0) (k + 1) fuel (S len)) as (hs & ls & -> & Hat & Hd & Hlen);
      try lia.
    exists (cur :: hs), (entry_hash a :: ls). split_and!; [done| | |simpl; lia].
    + constructor; [eauto|done].
    + econstructor; [|exact Hd]. lia.
Qed.

(** The first phase, one block at a time, entered with [10 - m] locators. *)
Lemma locator_loop_single m tip cur fuel len :
  (len + m = 10)%nat → 0 ≤ cur ≤ height tip → cur + Z.of_nat len ≤ 2 ^ 31 - 1 →
  (m + 31 < fuel)%nat →
  ∃ hs ls, locator_loop fuel tip cur 1 len = Ok ls ∧
    hashes_at tip hs ls ∧ descends cur hs ∧ (length hs ≤ m + 32)%nat ∧
    (∀ i : nat, (i ≤ m)%nat → Z.of_nat i ≤ cur → hs !! i = Some (cur - Z.of_nat i)).
Proof.
  revert cur fuel len. induction m as [|m IH]; intros cur fuel len Hm Hc Hb Hf.
  - destruct (locator_loop_doubling 31 tip cur 0 fuel len) as (hs & ls & Hl & Hat & Hd & Hlen);
      try (unfold MAX_LOCATOR_HASHES; lia).
    exists hs, ls. split_and!; try done. intros i Hi _. assert (i = 0%nat) as -> by lia.
    inversion Hd; subst; simpl; f_equal; lia.
  - destruct fuel as [|fuel]; [lia|]. cbn [locator_loop].
    destruct (ancestor_spec tip cur) as (a & Ha & Hh); [lia|]. rewrite Ha. simpl_outcome.
    destruct (decide (cur = 0)) as [->|Hne].
    { rewrite decide_True by lia. exists [0], [entry_hash a].
      split_and!; [done| |constructor|simpl; lia|].
      - repeat constructor. eauto.
      - intros i _ Hi. assert (i = 0%nat) as -> by lia. done. }
    rewrite decide_False by (unfold MAX_LOCATOR_HASHES; intros [?|?]; [done|lia]).
    rewrite decide_False by lia. rewrite Z.max_l by lia.
    destruct (IH (cur - 1) fuel (S len)) as (hs & ls & -> & Hat & Hd & Hlen & Hfst); try lia.
    exists (cur :: hs), (entry_hash a :: ls). split_and!; [done| | |simpl; lia|].
    + constructor; [eauto|done].
    + econstructor; [|exact Hd]. lia.
    + intros [|i] Hi Hic; simpl; [f_equal; lia|]. rewrite Hfst by lia. f_equal. lia.
Qed.

Lemma locators_spec tip :
  ∃ hs ls, build_block_locators tip = Ok ls ∧ hashes_at tip hs ls ∧
    descends (height tip) hs ∧ (length ls ≤ 42)%nat ∧
    (∀ i : nat, (i ≤ 10)%nat → Z.of_nat i ≤ height tip → hs !! i = Some (height tip - Z.of_nat i)).
Proof.
  pose proof (height_range tip) as Hr. unfold build_block_locators. rewrite decide_True by lia.
  destruct (locator_loop_single 10 tip (height tip) MAX_LOCATOR_HASHES 0)
    as (hs & ls & Hl & Hat & Hd & Hlen & Hf); [lia|lia|lia|unfold MAX_LOCATOR_HASHES; lia|].
  exists hs, ls. split_and!; try done.
  by rewrite <- (Forall2_length _ _ _ Hat).
Qed.

Lemma locators_ok tip : ∃ ls, build_block_locators tip = Ok ls.
Proof. destruct (locators_spec tip) as (_ & ls & ? & _). eauto. Qed.
End Locators.

(** ** The walk to the active chain *)

Section Walk.
Context `{KernelLaws}.

Lemma path_unfold_prev e p : prev e = Some p → path e = e :: path p.
Proof. intros Hp. by rewrite path_unfold, Hp. Qed.

Lemma path_NoDup e : NoDup (path e).
Proof.
  induction e as [e Hg|e p Hp IH] using entry_ind.
  - rewrite path_unfold, Hg. constructor; [by intros ?%elem_of_nil|constructor].
  - rewrite (path_unfold_prev _ _ Hp). constructor; [|done]. intros Hin.
    pose proof (path_heights p) as Hle. rewrite Forall_forall in Hle.
    apply Hle in Hin. pose proof (prev_height _ _ Hp). lia.
Qed.

Lemma hashes_NoDup (es : list Entry) : NoDup es → NoDup (entry_hash <$> es).
Proof. intros. apply NoDup_fmap_2_strong; [|done]. eauto using entry_hash_inj. Qed.

(** The walk always reaches the active chain, at the last block of [e]'s chain
    that is on it. *)
Lemma fork_walk_spec c e :
  ∃ es f rest, fork_walk (Z.to_nat (height e)) c e = Some (entry_hash <$> es, entry_hash f) ∧
    path e = es ++ f :: rest ∧ active_contains c f = true ∧
    Forall (λ a, active_contains c a = false) es.
Proof.
  induction e as [e Hg|e p Hp IH] using entry_ind.
  - pose proof (proj1 (prev_genesis e) Hg) as Hz. pose proof (genesis_active c e Hz) as Ha.
    exists [], e, []. rewrite Hz, path_unfold, Hg. simpl. rewrite Ha. done.
  - destruct (active_contains c e) eqn:Ha.
    + exists [], e, (path p). rewrite (path_unfold_prev _ _ Hp).
      split_and!; [|done|done|done].
      destruct (Z.to_nat (height e)); simpl; by rewrite Ha.
    + destruct IH as (es & f & rest & Hw & Hpath & Hf & Hes).
      exists (e :: es), f, rest. pose proof (prev_height _ _ Hp). pose proof (height_range p).
      replace (Z.to_nat (height e)) with (S (Z.to_nat (height p))) by lia.
      cbn [fork_walk]. rewrite Ha, Hp, Hw, (path_unfold_prev _ _ Hp), Hpath.
      split_and!; [done|done|done|by constructor].
Qed.

(** The blocks to fetch: the branch from the active chain to the best header,
    oldest first, less what is held or asked for. *)
Definition missing (es : list Entry) (d : DownloadState KBlock) : list BlockHash :=
  filter (λ h, (h ∉ buffered_hashes d) ∧ (h ∉ d.(in_flight))) (reverse (entry_hash <$> es)).

Lemma populate_spec c other d best :
  best_entry c = Some best → d.(queue) = [] →
  let d1 := other AfterQueueCheck d in
  ∃ es f rest, path best = es ++ f :: rest ∧ active_contains c f = true ∧
    Forall (λ a, active_contains c a = false) es ∧
    populate_download_queue c other d =
      if is_nil d1.(queue) then mk_download (missing es d1) d1.(in_flight) d1.(buffer) else d1.
Proof.
  intros Hb Hq d1. destruct (fork_walk_spec c best) as (es & f & rest & Hw & Hpath & Hf & Hes).
  exists es, f, rest. split_and!; try done.
  unfold populate_download_queue. rewrite Hq. simpl. fold d1. rewrite Hb, Hw.
  unfold missing. destruct d1 as [[|x q] fl bu] eqn:Hd1; simpl; [|by destruct es].
  destruct es as [|e es]; simpl; [done|]. by destruct (filter _ _) eqn:Hfil.
Qed.

Lemma populate_kept c other d :
  d.(queue) ≠ [] → populate_download_queue c other d = d.
Proof. unfold populate_download_queue. by destruct (queue d). Qed.

Lemma missing_NoDup es d : NoDup es → NoDup (missing es d).
Proof.
  intros Hnd. apply NoDup_filter. rewrite reverse_Permutation. by apply hashes_NoDup.
Qed.
End Walk.

(** ** The handler *)

Section Handler.
Context `{KernelLaws}.

(** Hashes of a locator built from some tip. *)
Definition locators_of (tip : Entry) (ls : list BlockHash) : Prop :=
  build_block_locators tip = Ok ls.

(** The messages a state ignores. *)
Definition ignored (sm : PeerStateMachine) (m : NetworkMessage) : bool :=
  match m, sm with
  | Ping _, _ | AddrV2Msg _, _ => false
  | Headers _, (AwaitingHeaders | AwaitingInv) => false
  | Inv _, AwaitingInv => false
  | BlockMsg _, AwaitingBlock _ => false
  | _, _ => true
  end.

(** The protocol as a transition system: from a state, on a message, to a state
    with the messages written. *)
Inductive transition : PeerStateMachine → NetworkMessage →
    PeerStateMachine → list NetworkMessage → Prop :=
| t_ping sm n : transition sm (Ping n) sm [Pong n]
| t_addr sm l : transition sm (AddrV2Msg l) sm []
| t_ignored sm m : ignored sm m = true → transition sm m sm []
| t_more_headers hs tip ls :
    length hs = 2000%nat → locators_of tip ls →
    transition AwaitingHeaders (Headers hs) AwaitingHeaders [create_getheaders_message ls]
| t_first_batch hs batch :
    length hs ≠ 2000%nat → batch ≠ [] → (length batch ≤ DOWNLOAD_BATCH_SIZE)%nat → NoDup batch →
    transition AwaitingHeaders (Headers hs)
      (AwaitingBlock (list_to_set batch)) [create_getdata_message batch]
| t_synced hs tip ls :
    length hs ≠ 2000%nat → locators_of tip ls →
    transition AwaitingHeaders (Headers hs) AwaitingInv [create_getblocks_message ls]
| t_announced hs claimed :
    claimed ≠ [] → NoDup claimed → (∀ h, h ∈ claimed → h ∈ header_hash <$> hs) →
    transition AwaitingInv (Headers hs)
      (AwaitingBlock (list_to_set claimed)) [create_getdata_message claimed]
| t_nothing_new hs : transition AwaitingInv (Headers hs) AwaitingInv []
| t_unconnecting hs tip ls :
    locators_of tip ls →
    transition AwaitingInv (Headers hs) AwaitingHeaders [create_getheaders_message ls]
| t_inv_blocks inv tip ls :
    inv_blocks inv ≠ [] → locators_of tip ls →
    transition AwaitingInv (Inv inv) AwaitingHeaders [create_getheaders_message ls]
| t_inv_other inv :
    inv_blocks inv = [] → transition AwaitingInv (Inv inv) AwaitingInv []
| t_block inventory b :
    inventory ∖ {[block_hash b]} ≠ ∅ →
    transition (AwaitingBlock inventory) (BlockMsg b)
      (AwaitingBlock (inventory ∖ {[block_hash b]})) []
| t_next_batch inventory b batch :
    inventory ⊆ {[block_hash b]} →
    batch ≠ [] → (length batch ≤ DOWNLOAD_BATCH_SIZE)%nat → NoDup batch →
    transition (AwaitingBlock inventory) (BlockMsg b)
      (AwaitingBlock (list_to_set batch)) [create_getdata_message batch]
| t_batches_done inventory b tip ls :
    inventory ⊆ {[block_hash b]} → locators_of tip ls →
    transition (AwaitingBlock inventory) (BlockMsg b) AwaitingInv [create_getblocks_message ls].

Lemma request_headers_spec ns :
  ∃ tip ls, locators_of tip ls ∧
    request_headers ns = Ok (AwaitingHeaders, [create_getheaders_message ls], ns).
Proof.
  unfold request_headers. destruct (best_entry_some ns.(chainman)) as [best ->]. simpl_outcome.
  destruct (locators_ok best) as [ls Hls]. rewrite Hls. simpl_outcome. eauto.
Qed.

(** The two ways [next_batch] ends. *)
Lemma next_batch_spec ns :
  let '(batch, d) := pop_batch DOWNLOAD_BATCH_SIZE ns.(download) in
  (batch ≠ [] ∧ next_batch ns =
     Ok (AwaitingBlock (list_to_set batch), [create_getdata_message batch], with_download ns d)) ∨
  (batch = [] ∧ ∃ ls, locators_of (active_tip ns.(chainman)) ls ∧ next_batch ns =
     Ok (AwaitingInv, [create_getblocks_message ls], with_download ns d)).
Proof.
  unfold next_batch. destruct (pop_batch _ _) as [batch d]. destruct batch as [|h batch].
  - right. split; [done|]. simpl. destruct (locators_ok (active_tip ns.(chainman))) as [ls Hls].
    exists ls. split; [done|]. rewrite Hls. done.
  - by left.
Qed.

(** The accepted headers are a prefix of those received. *)
Lemma accept_headers_prefix c hs :
  (accept_headers c hs).1 `prefix_of` (header_hash <$> hs).
Proof.
  revert c. induction hs as [|h hs IH]; intros c; simpl; [done|].
  destruct (process_block_header c h) as [[] c']; [|apply prefix_nil].
  specialize (IH c'). destruct (accept_headers c' hs) as [an c'']; simpl in *.
  by apply prefix_cons.
Qed.

Lemma on_headers_sync_spec other hs ns :
  ∃ sm msgs ns', on_headers_sync other hs ns = Ok (sm, msgs, ns') ∧
    transition AwaitingHeaders (Headers hs) sm msgs.
Proof.
  unfold on_headers_sync. destruct (accept_headers _ _) as [an c]. case_decide as Hlen.
  - set (ns1 := with_download _ _). pose proof (next_batch_spec ns1) as Hn.
    pose proof (pop_batch_spec DOWNLOAD_BATCH_SIZE ns1.(download)) as Hp.
    destruct (pop_batch _ _) as [batch d]. destruct Hp as (Hnd & Hle & _).
    destruct Hn as [(Hne & ->)|(-> & ls & Hls & ->)]; do 3 eexists; (split; [done|]).
    + constructor; [lia|done..].
    + econstructor; [lia|done].
  - destruct (request_headers_spec (with_chainman ns c)) as (tip & ls & Hls & ->).
    do 3 eexists. split; [done|]. econstructor; [lia|done].
Qed.

Lemma on_headers_announced_spec hs ns :
  ∃ sm msgs ns', on_headers_announced hs ns = Ok (sm, msgs, ns') ∧
    transition AwaitingInv (Headers hs) sm msgs.
Proof.
  unfold on_headers_announced. pose proof (accept_headers_prefix ns.(chainman) hs) as Hpre.
  destruct (accept_headers _ _) as [an c]. destruct (is_nil an).
  - destruct (request_headers_spec (with_chainman ns c)) as (tip & ls & Hls & ->).
    do 3 eexists. split; [done|]. by econstructor.
  - pose proof (claim_spec an (download (with_chainman ns c))) as Hc.
    destruct (claim _ _) as [claimed d]. destruct Hc as (Hnd & Hset & _).
    destruct (is_nil claimed) eqn:Hn; do 3 eexists; (split; [done|]); [apply t_nothing_new|].
    constructor; [by apply is_nil_false|done|]. intros h Hh.
    assert (h ∈ an) as Han.
    { apply (elem_of_list_to_set (C:=gset Z)) in Hh. rewrite Hset in Hh. set_solver. }
    by eapply elem_of_prefix.
Qed.

Lemma on_inv_spec inv ns :
  ∃ sm msgs ns', on_inv inv ns = Ok (sm, msgs, ns') ∧ transition AwaitingInv (Inv inv) sm msgs.
Proof.
  unfold on_inv. destruct (is_nil (inv_blocks inv)) eqn:Hi; simpl.
  - do 3 eexists. split; [done|]. apply t_inv_other. by apply is_nil_true.
  - destruct (request_headers_spec ns) as (tip & ls & Hls & ->).
    do 3 eexists. split; [done|]. econstructor; [by apply is_nil_false|done].
Qed.

Lemma on_block_spec other inventory b ns :
  ∃ sm msgs ns', on_block other inventory b ns = Ok (sm, msgs, ns') ∧
    transition (AwaitingBlock inventory) (BlockMsg b) sm msgs.
Proof.
  unfold on_block. destruct (release _ _) as [released d]. case_decide as Hempty.
  - set (ns1 := with_download _ (other AfterBuffer _)). pose proof (next_batch_spec ns1) as Hn.
    pose proof (pop_batch_spec DOWNLOAD_BATCH_SIZE ns1.(download)) as Hp.
    destruct (pop_batch _ _) as [batch d']. destruct Hp as (Hnd & Hle & _).
    destruct Hn as [(Hne & ->)|(-> & ls & Hls & ->)]; do 3 eexists; (split; [done|]).
    + by apply t_next_batch; [apply difference_singleton_empty| | |].
    + by eapply t_batches_done; [apply difference_singleton_empty|].
  - do 3 eexists. split; [done|]. by apply t_block.
Qed.

(** Every message is handled, along the transition system. *)
Lemma process_message_spec other sm ev src ns :
  ∃ sm' msgs ns', process_message other sm ev src ns = Ok (sm', msgs, ns') ∧
    transition sm ev sm' msgs.
Proof.
  destruct ev, sm; cbn [process_message];
    first [ apply on_headers_sync_spec | apply on_headers_announced_spec
          | apply on_inv_spec | apply on_block_spec
          | do 3 eexists; split; [done|]; by constructor ].
Qed.
End Handler.

(** ** Stalling *)

Section Stall.
Context `{KernelLaws}.

(** Messages received one after the other, each with the clock at that time,
    over a connection that accepts every write. *)
Fixpoint receive_many (msgs : list (Duration * NetworkMessage)) (p : BitcoinPeer)
    (ns : NodeState Chainman KBlock) : BitcoinPeer * NodeState Chainman KBlock :=
  match msgs with
  | [] => (p, ns)
  | (now, m) :: msgs =>
      let '(_, p, ns, _) :=
        receive_and_process_message (E:=unit) quiet (λ _, Ok ()) now (Ok (Some m)) p ns in
      receive_many msgs p ns
  end.

(** Messages that neither deliver a block nor move the state machine: pings,
    addresses and everything the state ignores. *)
Definition chatter (sm : PeerStateMachine) (m : NetworkMessage) : bool :=
  match m with
  | Ping _ | AddrV2Msg _ => true
  | _ => ignored sm m
  end.

Lemma chatter_spec sm m source ns :
  chatter sm m = true →
  delivers_requested_block sm m = false ∧
  ∃ msgs ns', process_message quiet sm m source ns = Ok (sm, msgs, ns') ∧
    existsb is_request msgs = false ∧ ns'.(download) = ns.(download) ∧
    ns'.(chainman) = ns.(chainman).
Proof.
  intros Hc. destruct m, sm; try discriminate Hc; (split; [done|]); do 2 eexists; done.
Qed.

Lemma receive_chatter msgs p ns :
  Forall (λ '(_, m), chatter p.(state_machine) m = true) msgs →
  ∃ ns', receive_many msgs p ns = (p, ns') ∧ ns'.(download) = ns.(download) ∧
    ns'.(chainman) = ns.(chainman).
Proof.
  revert ns. induction msgs as [|[now m] msgs IH]; intros ns Hall; [by exists ns|].
  apply Forall_cons in Hall as [Hm Hall]. simpl.
  destruct (chatter_spec p.(state_machine) m p.(dest_addr) ns Hm)
    as (-> & ms & ns' & -> & -> & Hd & Hc).
  simpl. destruct (send_all _ ms) as [sent r].
  destruct (IH ns' Hall) as (ns'' & Hr & Hd' & Hc').
  exists ns''. destruct p. simpl in *. split_and!; congruence.
Qed.
End Stall.

(** ** Properties *)

Section Properties.
Context `{KernelLaws}.

(** C17: Building a locator always succeeds, for every height the kernel can
    report: the hashes are those of ancestors of the tip at heights that start
    at the tip, strictly descend and end at the genesis block, the first eleven
    one by one; there are at most 42 of them, so the cap of 101 that a receiver
    enforces is never reached and the loop ends at genesis. *)
Theorem locators_reach_genesis tip :
  ∃ hs ls, build_block_locators tip = Ok ls ∧ hashes_at tip hs ls ∧
    descends (height tip) hs ∧ (length ls ≤ 42)%nat ∧
    is_discouraged (create_getheaders_message ls) = false ∧
    (∀ i : nat, (i ≤ 10)%nat → Z.of_nat i ≤ height tip → hs !! i = Some (height tip - Z.of_nat i)).
Proof.
  destruct (locators_spec tip) as (hs & ls & ? & ? & ? & Hlen & ?).
  exists hs, ls. split_and!; try done. apply bool_decide_eq_false. simpl.
  unfold Messages.MAX_LOCATOR_HASHES. lia.
Qed.

(** C16: With an empty queue, [populate_download_queue] queues exactly the blocks
    of the best header chain that follow its last block on the active chain,
    oldest first and each once, less those already held or in flight, unless
    another thread filled the queue while the tree was walked; a non-empty
    queue is left alone. *)
Theorem queue_is_missing_branch c other d best :
  best_entry c = Some best →
  (d.(queue) ≠ [] → populate_download_queue c other d = d) ∧
  (d.(queue) = [] →
     let d1 := other AfterQueueCheck d in
     ∃ es f rest, path best = es ++ f :: rest ∧ active_contains c f = true ∧
       Forall (λ a, active_contains c a = false) es ∧ NoDup (missing es d1) ∧
       populate_download_queue c other d =
         if is_nil d1.(queue) then mk_download (missing es d1) d1.(in_flight) d1.(buffer)
         else d1).
Proof.
  intros Hb. split; [by apply populate_kept|]. intros Hq.
  destruct (populate_spec c other d best Hb Hq) as (es & f & rest & Hp & Hf & Hes & Heq).
  exists es, f, rest. split_and!; try done. apply missing_NoDup.
  pose proof (path_NoDup best) as Hnd. rewrite Hp in Hnd. by apply NoDup_app in Hnd as (? & _).
Qed.

(** C1: The handler implements the protocol: whatever the message, the node's
    state and the interleaving with other threads, it returns (no [unwrap],
    [expect] or assertion fails) and its new state and replies are a transition
    of the protocol from the old state. *)
Theorem handler_refines_protocol other sm m source ns :
  ∃ sm' msgs ns', process_message other sm m source ns = Ok (sm', msgs, ns') ∧
    transition sm m sm' msgs.
Proof. apply process_message_spec. Qed.

(** C36: Chatter cannot keep a connection alive: however many pings, addresses
    and ignored messages a peer sends, its state and the time of its last
    progress stay the same, so that it counts as stalled exactly when more than
    thirty seconds have passed since that progress, unless it is waiting for an
    announcement. *)
Theorem chatter_does_not_delay_stall msgs p ns now :
  Forall (λ '(_, m), chatter p.(state_machine) m = true) msgs →
  (receive_many msgs p ns).1 = p ∧
  (p.(last_progress) ≤ now →
   is_stalled (receive_many msgs p ns).1 now = true ↔
   p.(state_machine) ≠ AwaitingInv ∧ now - p.(last_progress) > PEER_STALL_TIMEOUT).
Proof.
  intros Hall. destruct (receive_chatter msgs p ns Hall) as (ns' & -> & _). simpl.
  split; [done|]. intros Hle. unfold is_stalled, stalled, saturating_sub.
  rewrite andb_true_iff, negb_true_iff, bool_decide_eq_false, bool_decide_eq_true.
  rewrite Z.max_l by lia. naive_solver lia.
Qed.

(** A delivered block is held under its parent and no longer in flight when
    somebody was waiting for it, and changes nothing held when nobody was;
    delivering a requested block counts as progress at the time of delivery. *)
Theorem delivery_is_buffered {E} (send : NetworkMessage → outcome E unit) now p ns inventory b :
  p.(state_machine) = AwaitingBlock inventory → inventory ≠ {[block_hash b]} →
  block_hash b ∈ inventory →
  ∃ p' ns', receive_and_process_message quiet send now (Ok (Some (BlockMsg b))) p ns
      = (Ok (), p', ns', []) ∧
    p'.(state_machine) = AwaitingBlock (inventory ∖ {[block_hash b]}) ∧
    p'.(last_progress) = now ∧
    ns'.(download).(in_flight) = ns.(download).(in_flight) ∖ {[block_hash b]} ∧
    ns'.(download).(queue) = ns.(download).(queue) ∧
    ns'.(download).(buffer) =
      (if decide (block_hash b ∈ ns.(download).(in_flight))
       then <[prev_blockhash (block_header b) := convert b]> ns.(download).(buffer)
       else ns.(download).(buffer)).
Proof.
  intros Hsm Hne Hin. destruct p as [addr sm lp]. simpl in Hsm. subst sm.
  unfold receive_and_process_message. simpl.
  rewrite (bool_decide_true (block_hash b ∈ inventory)) by done.
  unfold on_block. simpl. unfold quiet. rewrite decide_False.
  - do 2 eexists. split; [done|]. simpl. split_and!; try done;
      case_bool_decide; simpl; try done; by rewrite ?decide_True, ?decide_False by done.
  - intros He%difference_singleton_empty. apply Hne. apply (anti_symm (⊆)); [done|].
    by intros ? ->%elem_of_singleton.
Qed.
End Properties.

(** ** Concrete runs *)

Module Witness.
Import Messages.Demo Kernel.Demo.

(** The main branch up to height 5 is active, the best header is at height 8 of
    the other branch, which leaves the main one after height 2. *)
Definition entry (b : bool) (h : Z) (H : node_ok (b, h) = true) : Entry := exist _ (b, h) H.
Definition mgr : Chainman := mk_manager (entry true 8 eq_refl) (entry false 5 eq_refl).
Definition ns0 : NodeState Chainman KBlock := mk_node (Some []) mgr download_default.
Definition src : AddrV2 := Addr.Ipv4 [1; 2; 3; 4].

Lemma locators_witness :
  ∃ ls, build_block_locators (entry false 20 eq_refl) = Ok ls ∧
    (length ls ≤ 42)%nat ∧ ls = [140; 138; 136; 134; 132; 130; 128; 126; 124; 122; 120; 118; 114; 106; 100].
Proof.
  destruct (locators_reach_genesis (entry false 20 eq_refl)) as (hs & ls & Hl & _ & _ & Hlen & _).
  exists ls. split; [done|]. split; [done|]. vm_compute in Hl. congruence.
Defined.

Lemma populate_witness :
  (populate_download_queue mgr quiet download_default).(queue) = [107; 109; 111; 113; 115; 117] ∧
  NoDup (populate_download_queue mgr quiet download_default).(queue).
Proof.
  split; [by vm_compute|].
  destruct (queue_is_missing_branch mgr quiet download_default (entry true 8 eq_refl) eq_refl)
    as [_ Hq].
  destruct (Hq eq_refl) as (es & f & rest & _ & _ & _ & Hnd & ->). exact Hnd.
Defined.

(** An empty headers message ends the header sync: the branch is queued and asked for. *)
Lemma handler_witness :
  ∃ ns', process_message quiet AwaitingHeaders (Headers []) src ns0 =
      Ok (AwaitingBlock (list_to_set [107; 109; 111; 113; 115; 117]),
          [create_getdata_message [107; 109; 111; 113; 115; 117]], ns') ∧
    transition AwaitingHeaders (Headers [])
      (AwaitingBlock (list_to_set [107; 109; 111; 113; 115; 117]))
      [create_getdata_message [107; 109; 111; 113; 115; 117]].
Proof.
  destruct (handler_refines_protocol quiet AwaitingHeaders (Headers []) src ns0)
    as (sm & msgs & ns' & Hok & Ht).
  exists ns'. vm_compute in Hok. injection Hok as <- <- <-. split; [by vm_compute|exact Ht].
Defined.

Lemma stall_witness :
  let p := mk_peer src AwaitingHeaders (from_secs 100) in
  is_stalled (receive_many [(from_secs 129, Ping 5); (from_secs 130, Verack)] p ns0).1 (from_secs 131) = true.
Proof.
  apply (chatter_does_not_delay_stall
    [(from_secs 129, Ping 5); (from_secs 130, Verack)] (mk_peer src AwaitingHeaders (from_secs 100)) ns0 (from_secs 131)).
  - repeat constructor.
  - by vm_compute.
  - split; [done|by vm_compute].
Defined.

Lemma delivery_witness :
  let p := mk_peer src (AwaitingBlock {[107; 109]}) 0 in
  let ns : NodeState Chainman KBlock := mk_node (Some []) mgr (mk_download [] {[107; 109]} ∅) in
  ∃ p' ns', receive_and_process_message (E:=unit) quiet (λ _, Ok ()) 7 (Ok (Some (BlockMsg (109, 107)))) p ns
      = (Ok (), p', ns', []) ∧ p'.(last_progress) = 7 ∧ ns'.(download).(buffer) = {[107 := (109, 107)]}.
Proof.
  intros p ns.
  destruct (delivery_is_buffered (E:=unit) (λ _, Ok ()) 7 p ns {[107; 109]} (109, 107))
    as (p' & ns' & Hr & _ & Hl & _ & _ & Hb); [done|..].
  - apply (bool_decide_unpack _). by vm_compute.
  - apply (bool_decide_unpack _). by vm_compute.
  - exists p', ns'. split; [done|]. split; [done|]. rewrite Hb. by vm_compute.
Defined.
End Witness.
