(* ===== verification/PeerSystem.v ===== *)
(** * The node's peers together

    Every connection runs the state machine of [Peer] on one shared download
    state, peers come and go, and the block thread hands connectable blocks to
    the kernel. A step of the system is one message, one connection, one
    disconnection or one block; the theorems hold for every run. *)

From S2P Require Import Prelude Addr Messages Kernel Download Peer.

Record system (C K : Type) := mk_system {
  sys_node : NodeState C K;
  (** The live connections. *)
  peers : gmap nat PeerStateMachine;
  (** The blocks given to the kernel, latest first. *)
  processed : list K;
}.
Arguments mk_system {C K} _ _ _.
Arguments sys_node {C K} _.
Arguments peers {C K} _.
Arguments processed {C K} _.

Section System.
Context `{KernelLaws}.

Abbreviation system := (system Chainman KBlock).

(** What a peer was asked for and has not delivered. *)
Definition inventory_of (sm : PeerStateMachine) : gset BlockHash :=
  match sm with AwaitingBlock inventory => inventory | _ => ∅ end.

Inductive label :=
| LConnect (i : nat)
| LMessage (i : nat) (m : NetworkMessage) (source : AddrV2)
| LDisconnect (i : nat) (order : list BlockHash)
| LBlock (order : list BlockHash).

(** The thread of a peer that leaves gives its inventory back
    ([release_in_flight]); the block thread takes a block and processes it. *)
Inductive step : system → label → system → Prop :=
| step_connect ns ps pr i :
    ps !! i = None →
    step (mk_system ns ps pr) (LConnect i) (mk_system ns (<[i := AwaitingHeaders]> ps) pr)
| step_message ns ps pr i m source sm sm' msgs ns' :
    ps !! i = Some sm →
    process_message quiet sm m source ns = Ok (sm', msgs, ns') →
    step (mk_system ns ps pr) (LMessage i m source) (mk_system ns' (<[i := sm']> ps) pr)
| step_disconnect ns ps pr i order p :
    ps !! i = Some p.(state_machine) →
    iterates order (inventory_of p.(state_machine)) →
    step (mk_system ns ps pr) (LDisconnect i order)
      (mk_system (with_download ns (release_in_flight order p ns.(download))) (delete i ps) pr)
| step_block ns ps pr order b d :
    iterates order (dom ns.(download).(buffer)) →
    take_connectable order (is_on_active_chain ns.(chainman)) ns.(download) = (Some b, d) →
    step (mk_system ns ps pr) (LBlock order)
      (mk_system (mk_node ns.(addr_tx) (process_block ns.(chainman) b) d) ps (b :: pr)).

(** A run whose every step satisfies [L]. *)
Inductive run (L : system → label → Prop) : system → list label → system → Prop :=
| run_nil s : run L s [] s
| run_cons s l s1 ls s2 : step s l s1 → L s l → run L s1 ls s2 → run L s (l :: ls) s2.

(** Any run. *)
Definition anything (s : system) (l : label) : Prop := True.

Lemma run_invariant (I : system → Prop) (L : system → label → Prop) s ls s' :
  (∀ s l s', step s l s' → L s l → I s → I s') → run L s ls s' → I s → I s'.
Proof. intros Hstep. induction 1; eauto. Qed.

(** ** The effect of one message on the download state *)

(** What a message frees: the block that a block-awaiting peer delivers. *)
Definition freed (sm : PeerStateMachine) (m : NetworkMessage) : gset BlockHash :=
  match sm, m with
  | AwaitingBlock _, BlockMsg b => {[block_hash b]}
  | _, _ => ∅
  end.

(** The message moves [claimed] into flight and into the peer's inventory, and
    takes what it frees out of both. *)
Definition effect (sm : PeerStateMachine) (m : NetworkMessage) (d : DownloadState KBlock)
    (sm' : PeerStateMachine) (d' : DownloadState KBlock) (claimed : gset BlockHash) : Prop :=
  let F := freed sm m in
  d'.(in_flight) = (d.(in_flight) ∖ F) ∪ claimed ∧
  claimed ## d.(in_flight) ∖ F ∧
  inventory_of sm' = (inventory_of sm ∖ F) ∪ claimed ∧
  (claimed ≠ ∅ → inventory_of sm ⊆ F).

Lemma populate_quiet_in_flight c d :
  (populate_download_queue c quiet d).(in_flight) = d.(in_flight) ∧
  (populate_download_queue c quiet d).(buffer) = d.(buffer).
Proof.
  destruct (best_entry_some c) as [best Hb].
  destruct (decide (d.(queue) = [])) as [Hq|Hq].
  - destruct (populate_spec c quiet d best Hb Hq) as (es & f & rest & _ & _ & _ & ->).
    unfold quiet. by destruct (is_nil _).
  - by rewrite populate_kept.
Qed.

Lemma next_batch_effect ns :
  ∃ sm msgs d' batch, next_batch ns = Ok (sm, msgs, with_download ns d') ∧
    pop_batch DOWNLOAD_BATCH_SIZE ns.(download) = (batch, d') ∧
    inventory_of sm = list_to_set batch ∧ (inventory_of sm = ∅ → sm = AwaitingInv).
Proof.
  pose proof (next_batch_spec ns) as Hn. destruct (pop_batch _ _) as [batch d'].
  destruct Hn as [(Hne & ->)|(-> & ls & _ & ->)]; do 4 eexists; split_and!; try done.
  simpl. by intros ?%list_to_set_nil_L.
Qed.

(** Blocks the node has not lost sight of: queued, asked for or held. *)
Definition tracked (d : DownloadState KBlock) : gset BlockHash :=
  outstanding d ∪ buffered_hashes d.

(** The block that a delivered block replaces in the buffer. *)
Definition overwritten (sm : PeerStateMachine) (m : NetworkMessage) (d : DownloadState KBlock)
    : gset BlockHash :=
  match sm, m with
  | AwaitingBlock _, BlockMsg b =>
      match d.(buffer) !! prev_blockhash (block_header b) with
      | Some old => {[kblock_hash old]}
      | None => ∅
      end
  | _, _ => ∅
  end.

Definition effect_of (sm : PeerStateMachine) (m : NetworkMessage) (d : DownloadState KBlock)
    (sm' : PeerStateMachine) (d' : DownloadState KBlock) : Prop :=
  (∃ claimed, effect sm m d sm' d' claimed) ∧
  tracked d ⊆ tracked d' ∪ overwritten sm m d ∧
  (sm ≠ AwaitingBlock ∅ → sm' ≠ AwaitingBlock ∅).

Lemma buffered_hashes_eq (d d' : DownloadState KBlock) :
  d.(buffer) = d'.(buffer) → buffered_hashes d = buffered_hashes d'.
Proof. unfold buffered_hashes. by intros ->. Qed.

Lemma effect_refl sm m d sm' :
  freed sm m = ∅ → inventory_of sm' = inventory_of sm →
  (sm ≠ AwaitingBlock ∅ → sm' ≠ AwaitingBlock ∅) → effect_of sm m d sm' d.
Proof.
  intros Hf Hi Hne. split_and!; [|set_solver|done]. exists ∅. unfold effect.
  rewrite Hf, Hi. split_and!; set_solver.
Qed.

(** A peer that owes nothing claims [claimed]. *)
Lemma effect_claim sm m (d : DownloadState KBlock) sm' (d' : DownloadState KBlock) claimed :
  freed sm m = ∅ → inventory_of sm = ∅ →
  d'.(in_flight) = d.(in_flight) ∪ claimed → claimed ## d.(in_flight) →
  inventory_of sm' = claimed → ∃ claimed, effect sm m d sm' d' claimed.
Proof.
  intros Hf Hi Hd Hdisj Hi'. exists claimed. unfold effect. rewrite Hf, Hi, Hd, Hi'.
  clear -Hdisj. split_and!; set_solver.
Qed.

Lemma sync_effect hs ns sm' msgs ns' :
  on_headers_sync quiet hs ns = Ok (sm', msgs, ns') →
  effect_of AwaitingHeaders (Headers hs) ns.(download) sm' ns'.(download).
Proof.
  unfold on_headers_sync. destruct (accept_headers _ _) as [an c]. case_decide.
  - change (download (with_chainman ns c)) with ns.(download).
    set (d1 := populate_download_queue _ _ _). change (quiet AfterPopulate d1) with d1.
    destruct (next_batch_effect (with_download (with_chainman ns c) d1))
      as (sm & ms & d' & batch & -> & Hpop & Hinv & Hne). simpl in Hpop. intros [= <- <- <-]. simpl.
    destruct (populate_quiet_in_flight c ns.(download)) as [Hf1 Hb1].
    pose proof (pop_batch_spec DOWNLOAD_BATCH_SIZE d1) as Hp.
    pose proof (pop_batch_outstanding DOWNLOAD_BATCH_SIZE d1) as Ho. rewrite Hpop in Hp, Ho.
    destruct Hp as (Hnd & _ & Hdisj & Hf & Hb & _). simpl in Ho. fold d1 in Hf1, Hb1.
    split_and!.
    + apply (effect_claim _ _ _ _ _ (list_to_set batch)); [done|done|congruence| |done].
      by rewrite <- Hf1.
    + unfold tracked. rewrite Ho, (buffered_hashes_eq d' ns.(download)) by congruence.
      enough (outstanding ns.(download) ⊆ outstanding d1) by set_solver.
      unfold outstanding. rewrite Hf1. destruct (decide (ns.(download).(queue) = [])) as [Hq|Hq].
      * rewrite Hq. set_solver.
      * unfold d1. by rewrite populate_kept.
    + intros _ ->. by discriminate (Hne eq_refl).
  - destruct (request_headers_spec (with_chainman ns c)) as (tip & ls & _ & ->).
    intros [= <- <- <-]. by apply effect_refl.
Qed.

Lemma announced_effect hs ns sm' msgs ns' :
  on_headers_announced hs ns = Ok (sm', msgs, ns') →
  effect_of AwaitingInv (Headers hs) ns.(download) sm' ns'.(download).
Proof.
  unfold on_headers_announced. destruct (accept_headers _ _) as [an c]. destruct (is_nil an).
  { destruct (request_headers_spec (with_chainman ns c)) as (tip & ls & _ & ->).
    intros [= <- <- <-]. by apply effect_refl. }
  change (download (with_chainman ns c)) with ns.(download).
  pose proof (claim_spec an ns.(download)) as Hc.
  destruct (claim an _) as [claimed d]. destruct Hc as (Hnd & Hset & Hf & Hq & Hb).
  assert (tracked ns.(download) ⊆ tracked d) as Ht.
  { unfold tracked, outstanding. rewrite (buffered_hashes_eq d ns.(download)), Hq, Hf by done.
    set_solver. }
  assert (d.(in_flight) = ns.(download).(in_flight) ∪ list_to_set claimed) as Hf'.
  { rewrite Hf, Hset. apply set_eq. intros h.
    destruct (decide (h ∈ ns.(download).(in_flight))); set_solver. }
  destruct (is_nil claimed) eqn:Hn; intros [= <- <- <-]; simpl.
  - apply is_nil_true in Hn as ->. split_and!; [|clear -Ht; set_solver|done].
    by apply (effect_claim _ _ _ _ _ ∅); [..|apply disjoint_empty_l|].
  - apply is_nil_false in Hn. split_and!; [|clear -Ht; set_solver|].
    + apply (effect_claim _ _ _ _ _ (list_to_set claimed)); [done|done|done| |done].
      rewrite Hset. clear. set_solver.
    + intros _ [= He]. by apply list_to_set_nil_L in He.
Qed.

Lemma tracked_buffer p b d :
  tracked d ∪ {[kblock_hash b]} ⊆ tracked (buffer_block p b d) ∪
    match d.(buffer) !! p with Some old => {[kblock_hash old]} | None => ∅ end.
Proof.
  intros h. unfold tracked. change (outstanding (buffer_block p b d)) with (outstanding d).
  rewrite !elem_of_union, elem_of_singleton, !elem_of_buffered_hashes. simpl.
  intros [[?|(q & c & Hc & <-)] | -> ]; [naive_solver| |].
  - destruct (decide (p = q)) as [->|Hne].
    + right. rewrite Hc. set_solver.
    + left. right. exists q, c. by rewrite lookup_insert_ne.
  - left. right. exists p, b. by rewrite lookup_insert_eq.
Qed.

(** The download state once a block is delivered: no longer in flight, and held
    under its parent when it was. *)
Definition delivered_to (b : Block) (d : DownloadState KBlock) : DownloadState KBlock :=
  let d0 := mk_download d.(queue) (d.(in_flight) ∖ {[block_hash b]}) d.(buffer) in
  if bool_decide (block_hash b ∈ d.(in_flight))
  then buffer_block (prev_blockhash (block_header b)) (convert b) d0 else d0.

Lemma on_block_quiet inventory b ns :
  let ns1 := with_download ns (delivered_to b ns.(download)) in
  on_block quiet inventory b ns =
    if decide (inventory ∖ {[block_hash b]} = ∅) then next_batch ns1
    else Ok (AwaitingBlock (inventory ∖ {[block_hash b]}), [], ns1).
Proof.
  unfold on_block, quiet, node_buffer_block, delivered_to. simpl. by case_bool_decide.
Qed.

Lemma delivered_to_in_flight b d :
  (delivered_to b d).(in_flight) = d.(in_flight) ∖ {[block_hash b]}.
Proof. unfold delivered_to. by case_bool_decide. Qed.

Lemma delivered_to_tracked inventory b d :
  tracked d ⊆ tracked (delivered_to b d) ∪ overwritten (AwaitingBlock inventory) (BlockMsg b) d.
Proof.
  unfold delivered_to. set (d0 := mk_download _ _ _). simpl.
  assert (tracked d ⊆ tracked d0 ∪ {[block_hash b]}) as Ht0.
  { unfold tracked, outstanding. simpl. change (buffered_hashes d0) with (buffered_hashes d).
    intros h. destruct (decide (h = block_hash b)); set_solver. }
  case_bool_decide as Hin.
  - pose proof (tracked_buffer (prev_blockhash (block_header b)) (convert b) d0) as Htr.
    rewrite convert_hash in Htr. by etrans.
  - unfold tracked, outstanding. simpl. change (buffered_hashes d0) with (buffered_hashes d).
    clear Ht0. intros h. destruct (decide (h = block_hash b)); set_solver.
Qed.

Lemma block_effect inventory b ns sm' msgs ns' :
  on_block quiet inventory b ns = Ok (sm', msgs, ns') →
  effect_of (AwaitingBlock inventory) (BlockMsg b) ns.(download) sm' ns'.(download).
Proof.
  rewrite on_block_quiet. simpl. set (d1 := delivered_to b _).
  pose proof (delivered_to_in_flight b ns.(download)) as Hf1. fold d1 in Hf1.
  pose proof (delivered_to_tracked inventory b ns.(download)) as Ht1. fold d1 in Ht1.
  case_decide as Hemp.
  - destruct (next_batch_effect (with_download ns d1)) as (sm & ms & d' & batch & -> & Hpop & Hinv & Hne).
    intros [= <- <- <-]. simpl in *.
    pose proof (pop_batch_spec DOWNLOAD_BATCH_SIZE d1) as Hp.
    pose proof (pop_batch_outstanding DOWNLOAD_BATCH_SIZE d1) as Ho. rewrite Hpop in Hp, Ho.
    destruct Hp as (_ & _ & Hdisj & Hf & Hb & _). simpl in Ho.
    split_and!.
    + exists (list_to_set batch). unfold effect. simpl. rewrite Hf, Hf1, Hinv, Hemp in *.
      clear -Hdisj Hemp. split_and!; [done|done|set_solver|].
      intros _. by apply difference_singleton_empty.
    + assert (tracked d' = tracked d1) as ->; [|done].
      unfold tracked. by rewrite Ho, (buffered_hashes_eq d' d1).
    + intros _ ->. by discriminate (Hne eq_refl).
  - intros [= <- <- <-]. simpl. split_and!; [|done|].
    + exists ∅. unfold effect. simpl. rewrite Hf1. clear. split_and!; set_solver.
    + by intros _ [=].
Qed.

Lemma message_effect sm m source ns sm' msgs ns' :
  process_message quiet sm m source ns = Ok (sm', msgs, ns') →
  effect_of sm m ns.(download) sm' ns'.(download).
Proof.
  destruct m, sm; cbn [process_message];
    try (intros Hok; injection Hok as <- <- <-; by apply effect_refl).
  - apply sync_effect.
  - apply announced_effect.
  - apply block_effect.
  - unfold on_inv. destruct (negb _).
    + destruct (request_headers_spec ns) as (tip & ls & _ & ->).
      intros [= <- <- <-]. by apply effect_refl.
    + intros [= <- <- <-]. by apply effect_refl.
Qed.

(** ** Invariants of runs *)

(** Before the first connection. *)
Definition initial (s : system) : Prop :=
  s.(peers) = ∅ ∧ s.(sys_node).(download) = download_default.

(** Every block in flight is owed by a live peer, and no peer waits for
    nothing. *)
Definition accounted (s : system) : Prop :=
  (∀ h, h ∈ s.(sys_node).(download).(in_flight) →
     ∃ i sm, s.(peers) !! i = Some sm ∧ h ∈ inventory_of sm) ∧
  (∀ i, s.(peers) !! i ≠ Some (AwaitingBlock ∅)).

(** What a peer that leaves gives back. *)
Lemma release_in_flight_spec order p d :
  iterates order (inventory_of p.(state_machine)) →
  (release_in_flight order p d).(in_flight) = d.(in_flight) ∖ inventory_of p.(state_machine) ∧
  tracked d ⊆ tracked (release_in_flight order p d).
Proof.
  intros Hit. unfold release_in_flight. destruct (state_machine p) as [| |inventory]; simpl in *.
  1-2: split; [clear; set_solver|done].
  assert (list_to_set order = inventory) as Hset.
  { apply set_eq. intros h. rewrite elem_of_list_to_set. apply Hit. }
  rewrite requeue_spec, Hset. simpl. split; [done|].
  unfold tracked, outstanding. simpl. rewrite list_to_set_app_L, list_to_set_reverse_L, Hset.
  unfold buffered_hashes. simpl. clear. intros h.
  destruct (decide (h ∈ inventory)); set_solver.
Qed.

Lemma accounted_message ns ps pr i m source sm sm' msgs ns' :
  ps !! i = Some sm → process_message quiet sm m source ns = Ok (sm', msgs, ns') →
  accounted (mk_system ns ps pr) → accounted (mk_system ns' (<[i:=sm']> ps) pr).
Proof.
  intros Hi Hm [Hacc Hne]. apply message_effect in Hm as ((claimed & Hf & _ & Hinv & _) & _ & Hne').
  simpl in *. split; simpl.
  - intros h Hh. rewrite Hf in Hh.
    destruct (decide (h ∈ inventory_of sm')) as [Hin|Hnin].
    { exists i, sm'. by rewrite lookup_insert_eq. }
    rewrite Hinv in Hnin. destruct (Hacc h) as (j & smj & Hj & Hhj); [clear -Hh Hnin; set_solver|].
    exists j, smj. split; [|done]. rewrite lookup_insert_ne; [done|]. intros ->.
    simplify_eq. clear -Hh Hnin Hhj. set_solver.
  - intros j. destruct (decide (i = j)) as [->|Hij].
    + rewrite lookup_insert_eq. intros [= ->]. apply Hne'; [|done]. intros ->. by apply (Hne j).
    + by rewrite lookup_insert_ne.
Qed.

Lemma accounted_step s l s' : step s l s' → accounted s → accounted s'.
Proof.
  intros [ns ps pr i Hi|ns ps pr i m source sm sm' msgs ns' Hi Hm
         |ns ps pr i order p Hi Hit|ns ps pr order b d Hit Ht] Hinv.
  - destruct Hinv as [Hacc Hne]. split; simpl in *.
    + intros h (j & smj & Hj & Hhj)%Hacc. exists j, smj. split; [|done].
      rewrite lookup_insert_ne; [done|]. congruence.
    + intros j. destruct (decide (i = j)) as [->|Hij].
      * by rewrite lookup_insert_eq.
      * by rewrite lookup_insert_ne.
  - by eapply accounted_message.
  - destruct Hinv as [Hacc Hne]. destruct (release_in_flight_spec order p ns.(download) Hit) as [Hf _].
    split; simpl in *.
    + intros h Hh. rewrite Hf in Hh. apply elem_of_difference in Hh as [Hh Hn].
      destruct (Hacc h Hh) as (j & smj & Hj & Hhj). exists j, smj. split; [|done].
      apply lookup_delete_Some. split; [|done]. congruence.
    + intros j Hj. apply lookup_delete_Some in Hj as [_ Hj]. by apply (Hne j).
  - destruct Hinv as [Hacc Hne]. apply take_connectable_Some in Ht as (p & _ & -> & _); [|done].
    split; simpl in *; [apply Hacc|done].
Qed.

Lemma accounted_initial s : initial s → accounted s.
Proof. intros [Hp Hd]. split; rewrite ?Hd, ?Hp; simpl; [clear; set_solver|done]. Qed.

(** ** Exclusive requests *)

(** A block message carries a block its peer was asked for, or one that nobody
    is waiting for. *)
Definition solicited (s : system) (l : label) : Prop :=
  match l with
  | LMessage i (BlockMsg b) _ =>
      ∀ sm, s.(peers) !! i = Some sm →
        block_hash b ∈ inventory_of sm ∨ (block_hash b ∉ s.(sys_node).(download).(in_flight))
  | _ => True
  end.

(** What the peers owe is in flight, and no block is owed twice. *)
Definition exclusive (s : system) : Prop :=
  (∀ i sm, s.(peers) !! i = Some sm → inventory_of sm ⊆ s.(sys_node).(download).(in_flight)) ∧
  (∀ i j sm sm', i ≠ j → s.(peers) !! i = Some sm → s.(peers) !! j = Some sm' →
     inventory_of sm ## inventory_of sm').

Lemma exclusive_message ns ps pr i m source sm sm' msgs ns' :
  ps !! i = Some sm → process_message quiet sm m source ns = Ok (sm', msgs, ns') →
  solicited (mk_system ns ps pr) (LMessage i m source) →
  exclusive (mk_system ns ps pr) → exclusive (mk_system ns' (<[i:=sm']> ps) pr).
Proof.
  intros Hi Hm Hsol [Hsub Hdis]. apply message_effect in Hm as ((claimed & Hf & Hcl & Hinv & _) & _).
  simpl in *. set (F := freed sm m) in *.
  (* what is freed is owed by no other peer *)
  assert (∀ j smj, i ≠ j → ps !! j = Some smj → F ## inventory_of smj) as HF.
  { intros j smj Hij Hj. unfold F. destruct sm as [| |inventory], m; simpl; try (clear; set_solver).
    pose proof (Hsub _ _ Hj) as Hsj. pose proof (Hdis _ _ _ _ Hij Hi Hj) as Hdj.
    destruct (Hsol _ Hi) as [Hin|Hnin]; [clear -Hin Hdj|clear -Hnin Hsj]; set_solver. }
  split; simpl.
  - intros j smj Hj. rewrite Hf. destruct (decide (i = j)) as [->|Hij].
    + rewrite lookup_insert_eq in Hj. simplify_eq. rewrite Hinv.
      pose proof (Hsub _ _ Hi) as Hs. clear -Hs. set_solver.
    + rewrite lookup_insert_ne in Hj by done. pose proof (Hsub _ _ Hj) as Hs.
      pose proof (HF _ _ Hij Hj) as Hd. clear -Hs Hd. set_solver.
  - assert (∀ j smj, i ≠ j → ps !! j = Some smj → inventory_of sm' ## inventory_of smj) as Hnew.
    { intros j smj Hij Hj. rewrite Hinv. pose proof (Hdis _ _ _ _ Hij Hi Hj) as Hd.
      pose proof (Hsub _ _ Hj) as Hs. pose proof (HF _ _ Hij Hj) as HFj.
      clear -Hd Hs Hcl HFj. set_solver. }
    intros j k smj smk Hjk Hj Hk.
    apply lookup_insert_Some in Hj as [[<- <-]|[Hij Hj]];
      apply lookup_insert_Some in Hk as [[<- <-]|[Hik Hk]]; eauto; try done.
    symmetry. eauto.
Qed.

Lemma exclusive_step s l s' : step s l s' → solicited s l → exclusive s → exclusive s'.
Proof.
  intros [ns ps pr i Hi|ns ps pr i m source sm sm' msgs ns' Hi Hm
         |ns ps pr i order p Hi Hit|ns ps pr order b d Hit Ht] Hsol Hinv.
  - destruct Hinv as [Hsub Hdis]. split; simpl in *.
    + intros j smj [[<- <-]|[_ Hj]]%lookup_insert_Some; [simpl; clear; set_solver|by eapply Hsub].
    + intros j k smj smk Hjk [[<- <-]|[_ Hj]]%lookup_insert_Some [[<- <-]|[_ Hk]]%lookup_insert_Some;
        simpl; [done|clear; set_solver|clear; set_solver|by eapply Hdis].
  - by eapply exclusive_message.
  - destruct Hinv as [Hsub Hdis]. destruct (release_in_flight_spec order p ns.(download) Hit) as [Hf _].
    split; simpl in *.
    + intros j smj [Hij Hj]%lookup_delete_Some. rewrite Hf.
      pose proof (Hsub _ _ Hj) as Hs. pose proof (Hdis _ _ _ _ Hij Hi Hj) as Hd.
      clear -Hs Hd. set_solver.
    + intros j k smj smk Hjk [_ Hj]%lookup_delete_Some [_ Hk]%lookup_delete_Some. by eapply Hdis.
  - destruct Hinv as [Hsub Hdis]. apply take_connectable_Some in Ht as (p & _ & -> & _); [|done].
    by split.
Qed.

(** ** Nothing is lost *)

(** A delivered block finds no other block under its parent. *)
Definition no_sibling (s : system) (l : label) : Prop :=
  match l with
  | LMessage _ (BlockMsg b) _ =>
      s.(sys_node).(download).(buffer) !! prev_blockhash (block_header b) = None
  | _ => True
  end.

(** The blocks in sight of the system or handed to the kernel. *)
Definition known (s : system) : gset BlockHash :=
  tracked s.(sys_node).(download) ∪ list_to_set (kblock_hash <$> s.(processed)).

Lemma tracked_remove p b (d : DownloadState KBlock) :
  d.(buffer) !! p = Some b →
  tracked d ⊆ tracked (mk_download d.(queue) d.(in_flight) (delete p d.(buffer))) ∪ {[kblock_hash b]}.
Proof.
  intros Hb h. unfold tracked.
  rewrite !elem_of_union, elem_of_singleton, !elem_of_buffered_hashes. simpl.
  change (outstanding (mk_download d.(queue) d.(in_flight) (delete p d.(buffer)))) with (outstanding d).
  intros [?|(q & c & Hc & <-)]; [naive_solver|]. destruct (decide (p = q)) as [->|Hne].
  - right. congruence.
  - left. right. exists q, c. by rewrite lookup_delete_ne.
Qed.

Lemma known_step s l s' : step s l s' → no_sibling s l → known s ⊆ known s'.
Proof.
  intros [ns ps pr i Hi|ns ps pr i m source sm sm' msgs ns' Hi Hm
         |ns ps pr i order p Hi Hit|ns ps pr order b d Hit Ht] Hns; unfold known; simpl in *.
  - done.
  - apply message_effect in Hm as (_ & Ht & _).
    assert (overwritten sm m ns.(download) = ∅) as Ho.
    { destruct sm, m; simpl in *; try done. by rewrite Hns. }
    rewrite Ho in Ht. clear -Ht. set_solver.
  - destruct (release_in_flight_spec order p ns.(download) Hit) as [_ Ht]. clear -Ht. set_solver.
  - apply take_connectable_Some in Ht as (p & Hb & -> & _); [|done].
    apply tracked_remove in Hb. clear -Hb. set_solver.
Qed.

(** ** Properties *)

(** In every run, whatever the peers send, each block in flight is owed by a
    live connection, so that it is delivered or requeued when that connection
    ends, and a peer that awaits blocks always awaits at least one. *)
Theorem nothing_stranded s ls s' :
  initial s → run anything s ls s' → accounted s'.
Proof.
  intros Hi Hr. eapply (run_invariant accounted anything); [|done|by apply accounted_initial].
  intros ? ? ? ? _. by eapply accounted_step.
Qed.

(** In every run whose peers deliver only what they were asked for, or what
    nobody waits for, no block is asked of two peers at once: the inventories
    of different peers are disjoint and all in flight. *)
Theorem requests_exclusive s ls s' :
  initial s → run solicited s ls s' → exclusive s'.
Proof.
  intros [Hp Hd] Hr. eapply (run_invariant exclusive solicited); [|done|].
  - intros. by eapply exclusive_step.
  - split; rewrite Hp; by intros.
Qed.

(** In every run in which no two children of one block are held at the same
    time, no block is forgotten: what was queued, in flight or held stays so
    until it is handed to the kernel, and once nothing is outstanding and the
    buffer is empty it has been. *)
Theorem no_block_lost s ls s' h :
  run no_sibling s ls s' → h ∈ tracked s.(sys_node).(download) →
  (h ∈ tracked s'.(sys_node).(download) ∨ h ∈ kblock_hash <$> s'.(processed)) ∧
  (idle s'.(sys_node).(download) → s'.(sys_node).(download).(buffer) = ∅ →
     h ∈ kblock_hash <$> s'.(processed)).
Proof.
  intros Hr Hh.
  assert (h ∈ known s') as Hk.
  { eapply (run_invariant (λ s, h ∈ known s) no_sibling); [|done|].
    - intros s1 l s2 Hst Hl. by apply (known_step _ _ _ Hst Hl).
    - unfold known. clear -Hh. set_solver. }
  unfold known in Hk. rewrite elem_of_union, elem_of_list_to_set in Hk.
  split; [done|]. intros [Hq Hf] Hb. destruct Hk as [Hk|Hk]; [|done].
  exfalso. unfold tracked, outstanding in Hk. rewrite Hq, Hf in Hk.
  apply elem_of_union in Hk as [Hk|(p & b & Hbb & _)%elem_of_buffered_hashes]; [clear -Hk; set_solver|].
  by rewrite Hb, lookup_empty in Hbb.
Qed.
End System.

(** ** A concrete run

    Peer 0 connects, ends the header sync and is asked for the six blocks of
    the missing branch; it delivers the second one, peer 1 connects, peer 0
    leaves and gives the other five back; peer 1 ends its header sync and is
    asked for them, and delivers the first: the block thread takes it. *)

Module Witness.
Import Messages.Demo Kernel.Demo Peer.Witness.

Definition start : system Chainman KBlock := mk_system ns0 ∅ [].
Definition script : list label :=
  [LConnect 0; LMessage 0 (Headers []) src; LMessage 0 (BlockMsg (109, 107)) src;
   LConnect 1; LDisconnect 0 [113; 107; 117; 111; 115];
   LMessage 1 (Headers []) src; LMessage 1 (BlockMsg (107, 104)) src; LBlock [104; 107]].

Lemma start_initial : initial start.
Proof. done. Qed.

(** The steps as a function, to evaluate a script. *)
Definition exec (l : label) (s : system Chainman KBlock) : option (system Chainman KBlock) :=
  match l with
  | LConnect i =>
      match s.(peers) !! i with
      | None => Some (mk_system s.(sys_node) (<[i := AwaitingHeaders]> s.(peers)) s.(processed))
      | Some _ => None
      end
  | LMessage i m source =>
      sm ← s.(peers) !! i;
      match process_message quiet sm m source s.(sys_node) with
      | Ok (sm', _, ns') => Some (mk_system ns' (<[i := sm']> s.(peers)) s.(processed))
      | _ => None
      end
  | LDisconnect i order =>
      sm ← s.(peers) !! i;
      if decide (NoDup order ∧ list_to_set order = inventory_of sm) then
        Some (mk_system
          (with_download s.(sys_node) (release_in_flight order (mk_peer src sm 0) s.(sys_node).(download)))
          (delete i s.(peers)) s.(processed))
      else None
  | LBlock order =>
      if decide (NoDup order ∧ list_to_set order = dom s.(sys_node).(download).(buffer)) then
        match take_connectable order (is_on_active_chain s.(sys_node).(chainman)) s.(sys_node).(download) with
        | (Some b, d) =>
            Some (mk_system
              (mk_node s.(sys_node).(addr_tx) (process_block s.(sys_node).(chainman) b) d)
              s.(peers) (b :: s.(processed)))
        | _ => None
        end
      else None
  end.

Fixpoint exec_all (L : system Chainman KBlock → label → bool) (ls : list label)
    (s : system Chainman KBlock) : option (system Chainman KBlock) :=
  match ls with
  | [] => Some s
  | l :: ls => if L s l then s' ← exec l s; exec_all L ls s' else None
  end.

Lemma iterates_list_to_set (order : list Z) (X : gset Z) :
  NoDup order ∧ list_to_set order = X → iterates order X.
Proof. intros [Hnd <-]. split; [done|]. intros h. by rewrite elem_of_list_to_set. Qed.

Lemma exec_step l s s' : exec l s = Some s' → step s l s'.
Proof.
  destruct s as [ns ps pr], l as [i|i m source|i order|order]; unfold exec; simpl.
  - destruct (ps !! i) eqn:Hi; [done|]. intros [= <-]. by constructor.
  - destruct (ps !! i) as [sm|] eqn:Hi; simpl; [|done].
    destruct (process_message quiet sm m source ns) as [[[sm' msgs] ns']| |] eqn:Hm; try done.
    intros [= <-]. by econstructor.
  - destruct (ps !! i) as [sm|] eqn:Hi; simpl; [|done]. case_decide as Hit; [|done].
    intros [= <-]. apply (step_disconnect ns ps pr i order (mk_peer src sm 0)); [done|].
    by apply iterates_list_to_set.
  - case_decide as Hit; [|done].
    destruct (take_connectable _ _ _) as [[b|] d] eqn:Ht; [|done]. intros [= <-].
    apply (step_block (H0:=demo_kernel) ns ps pr order b d); [by apply iterates_list_to_set|done].
Qed.

Lemma exec_all_run (L : system Chainman KBlock → label → Prop) Lb ls s s' :
  (∀ s l, Lb s l = true → L s l) → exec_all Lb ls s = Some s' → run L s ls s'.
Proof.
  intros HL. revert s. induction ls as [|l ls IH]; intros s; cbn [exec_all].
  { intros [= ->]. constructor. }
  destruct (Lb s l) eqn:Hl; [|done].
  destruct (exec l s) as [s1|] eqn:Hs; simpl; [|done]. intros Hr.
  econstructor; [by apply exec_step|by apply HL|by apply IH].
Qed.

Definition finish : system Chainman KBlock := default start (exec_all (λ _ _, true) script start).

(** At the end peer 1 still owes four blocks, one block is held and one has
    gone to the kernel. *)
Lemma finish_state :
  finish.(peers) = {[1%nat := AwaitingBlock {[111; 113; 115; 117]}]} ∧
  finish.(processed) = [(107, 104)] ∧ finish.(sys_node).(download).(buffer) = {[107 := (109, 107)]}.
Proof. split_and!; by vm_compute. Qed.

Definition solicited_b (s : system Chainman KBlock) (l : label) : bool :=
  match l with
  | LMessage i (BlockMsg b) _ =>
      match s.(peers) !! i with
      | Some sm => bool_decide (block_hash b ∈ inventory_of sm)
      | None => true
      end
  | _ => true
  end.

Lemma solicited_b_ok s l : solicited_b s l = true → solicited s l.
Proof.
  destruct l as [|i [] src| |]; try done. simpl.
  intros Hb sm Hi. rewrite Hi in Hb. left. by apply bool_decide_eq_true in Hb.
Qed.

Definition no_sibling_b (s : system Chainman KBlock) (l : label) : bool :=
  match l with
  | LMessage _ (BlockMsg b) _ =>
      bool_decide (s.(sys_node).(download).(buffer) !! prev_blockhash (block_header b) = None)
  | _ => true
  end.

Lemma no_sibling_b_ok s l : no_sibling_b s l = true → no_sibling s l.
Proof. destruct l as [|i [] src| |]; try done. apply bool_decide_eq_true. Qed.

Lemma nothing_stranded_witness : accounted finish.
Proof.
  apply (nothing_stranded start script finish start_initial).
  apply (exec_all_run anything (λ _ _, true)); [done|]. by vm_compute.
Defined.

Lemma requests_exclusive_witness : exclusive finish.
Proof.
  apply (requests_exclusive start script finish start_initial).
  apply (exec_all_run solicited solicited_b); [apply solicited_b_ok|]. by vm_compute.
Defined.

(** The block 107, asked for after the second message, has reached the kernel. *)
Definition asked : system Chainman KBlock :=
  default start (exec_all (λ _ _, true) (take 2 script) start).

Lemma no_block_lost_witness :
  107 ∈ tracked asked.(sys_node).(download) ∧
  (107 ∈ tracked finish.(sys_node).(download) ∨ 107 ∈ kblock_hash <$> finish.(processed)).
Proof.
  assert (107 ∈ tracked asked.(sys_node).(download)) as Hin.
  { apply (bool_decide_unpack _). by vm_compute. }
  split; [exact Hin|].
  apply (no_block_lost asked (drop 2 script) finish 107); [|exact Hin].
  apply (exec_all_run no_sibling no_sibling_b); [apply no_sibling_b_ok|]. by vm_compute.
Defined.
End Witness.
