(* ===== verification/Critical.v ===== *)
(** * The message handler, critical section by critical section

    [Peer.process_message] runs a message to its end. In the program every
    connection has a thread of its own, and a handler shares the kernel and the
    download state with the other handlers and the block thread between any two
    of its accesses to them. Here a handler is cut at each of those accesses
    (src/net/peer.rs): a [phase] is the point where a thread stands with its
    local variables, [section] does one access and what follows up to the next.
    Handlers of any number of peers, the block thread and connections that end
    interleave section by section. *)

From S2P Require Import Prelude Addr Messages Kernel Download Peer PeerSystem.

(** ** Phases *)

Inductive phase `{Kernel} :=
(** The handler has returned this. *)
| Replied (state_machine : PeerStateMachine) (messages : list NetworkMessage)
(** The header loop of [AwaitingHeaders], before its next header. *)
| SyncHeaders (headers : list Header) (msg_len : Z)
(** [populate_download_queue]: the first lock, the read of the best entry, the
    walk back at [current] and the second lock. *)
| CheckQueue
| ReadBest
| WalkBack (current : Entry) (hashes : list BlockHash)
| FillQueue (hashes : list BlockHash)
(** The lock around [pop_batch], and the locators when it gave nothing. *)
| PopBatch
| ReadTip
(** The header loop of [AwaitingInv], and the lock around [claim]. *)
| AcceptAnnounced (headers : list Header) (announced : list BlockHash)
| ClaimAnnounced (announced : list BlockHash)
(** The read of the best entry for a [getheaders]. *)
| AskHeaders
(** A block: the lock around [release], then the one in [buffer_block]. *)
| ReleaseBlock (inventory : gset BlockHash) (b : Block)
| BufferBlock (inventory : gset BlockHash) (b : Block).

Section Handler.
Context `{Kernel}.

Abbreviation Node := (NodeState Chainman KBlock).

(** What follows the header loop of [AwaitingHeaders]. *)
Definition after_sync (msg_len : Z) : phase :=
  if decide (msg_len ≠ 2000) then CheckQueue else AskHeaders.
(** What follows the header loop of [AwaitingInv]. *)
Definition after_announced (announced : list BlockHash) : phase :=
  if is_nil announced then AskHeaders else ClaimAnnounced announced.
(** What follows the delivery of a block. *)
Definition after_block (inventory : gset BlockHash) : phase :=
  if decide (inventory = ∅) then PopBatch else Replied (AwaitingBlock inventory) [].

(** [process_message] up to its first access to what is shared, [addr_tx] apart. *)
Definition dispatch (state_machine : PeerStateMachine) (event : NetworkMessage)
    (source : AddrV2) (ns : Node) : phase * Node :=
  match event with
  | Ping nonce => (Replied state_machine [Pong nonce], ns)
  | AddrV2Msg payload =>
      let sent := (λ l, l ++ [(source, payload)]) <$> ns.(addr_tx) in
      (Replied state_machine [], mk_node sent ns.(chainman) ns.(download))
  | _ =>
      (match state_machine with
       | AwaitingHeaders =>
           match event with
           | Headers headers => SyncHeaders headers (Z.of_nat (length headers))
           | _ => Replied AwaitingHeaders []
           end
       | AwaitingInv =>
           match event with
           | Headers headers => AcceptAnnounced headers []
           | Inv inventory =>
               if negb (is_nil (inv_blocks inventory)) then AskHeaders else Replied AwaitingInv []
           | _ => Replied AwaitingInv []
           end
       | AwaitingBlock inventory =>
           match event with
           | BlockMsg b => ReleaseBlock inventory b
           | _ => Replied (AwaitingBlock inventory) []
           end
       end, ns)
  end.

(** One access to the kernel or the download state. A handler that has returned
    stays where it is. *)
Definition section (ph : phase) (ns : Node) : outcome Empty_set (phase * Node) :=
  match ph with
  | Replied _ _ => Ok (ph, ns)
  | SyncHeaders [] msg_len => Ok (after_sync msg_len, ns)
  | SyncHeaders (header :: headers) msg_len =>
      let '(valid, c) := process_block_header ns.(chainman) header in
      Ok (if valid then SyncHeaders headers msg_len else after_sync msg_len, with_chainman ns c)
  | CheckQueue => Ok (if negb (is_nil ns.(download).(queue)) then PopBatch else ReadBest, ns)
  | ReadBest =>
      Ok (match best_entry ns.(chainman) with
          | Some best => WalkBack best []
          | None => PopBatch
          end, ns)
  | WalkBack current hashes =>
      Ok (if active_contains ns.(chainman) current
          then if is_nil hashes then PopBatch else FillQueue hashes
          else match prev current with
               | Some p => WalkBack p (hashes ++ [entry_hash current])
               | None => PopBatch
               end, ns)
  | FillQueue hashes =>
      let d := ns.(download) in
      let queued :=
        filter (λ hash, (hash ∉ buffered_hashes d) ∧ (hash ∉ d.(in_flight))) (reverse hashes) in
      Ok (PopBatch,
          if negb (is_nil d.(queue)) || is_nil queued then ns
          else with_download ns (mk_download queued d.(in_flight) d.(buffer)))
  | PopBatch =>
      let '(batch, d) := pop_batch DOWNLOAD_BATCH_SIZE ns.(download) in
      Ok (if negb (is_nil batch)
          then Replied (AwaitingBlock (list_to_set batch)) [create_getdata_message batch]
          else ReadTip, with_download ns d)
  | ReadTip =>
      locators ← build_block_locators (active_tip ns.(chainman));
      Ok (Replied AwaitingInv [create_getblocks_message locators], ns)
  | AcceptAnnounced [] announced => Ok (after_announced announced, ns)
  | AcceptAnnounced (header :: headers) announced =>
      let '(valid, c) := process_block_header ns.(chainman) header in
      Ok (if valid then AcceptAnnounced headers (announced ++ [header_hash header])
          else after_announced announced, with_chainman ns c)
  | ClaimAnnounced announced =>
      let '(claimed, d) := claim announced ns.(download) in
      Ok (if is_nil claimed then Replied AwaitingInv []
          else Replied (AwaitingBlock (list_to_set claimed)) [create_getdata_message claimed],
          with_download ns d)
  | AskHeaders =>
      best ← or_panic (best_entry ns.(chainman));
      locators ← build_block_locators best;
      Ok (Replied AwaitingHeaders [create_getheaders_message locators], ns)
  | ReleaseBlock inventory b =>
      let inventory := inventory ∖ {[block_hash b]} in
      let '(released, d) := release (block_hash b) ns.(download) in
      Ok (if released then BufferBlock inventory b else after_block inventory, with_download ns d)
  | BufferBlock inventory b =>
      Ok (after_block inventory,
          node_buffer_block (prev_blockhash (block_header b)) (convert b) ns)
  end.

(** The rest of a handler that nothing interrupts. *)
Fixpoint finish (fuel : nat) (ph : phase) (ns : Node) : outcome Empty_set reply :=
  match ph with
  | Replied sm messages => Ok (sm, messages, ns)
  | _ => match fuel with
         | O => Panic
         | S fuel => '(ph, ns) ← section ph ns; finish fuel ph ns
         end
  end.
End Handler.

(** ** A handler and its surroundings *)

Section Interleaving.
Context `{KernelLaws}.

Abbreviation Node := (NodeState Chainman KBlock).

(** A thread does a section, or the others change the node along [R]. *)
Definition turn (R : Node → Node → Prop) (x y : phase * Node) : Prop :=
  section x.1 x.2 = Ok y ∨ (x.1 = y.1 ∧ R x.2 y.2).

(** [R] covers what [other] does between the critical sections. *)
Definition covers (R : Node → Node → Prop) (other : interleaving) : Prop :=
  ∀ p ns, R ns (with_download ns (other p ns.(download))).

Lemma turn_section R ph ns y z :
  section ph ns = Ok y → rtc (turn R) y z → rtc (turn R) (ph, ns) z.
Proof. intros Hs. apply rtc_l. by left. Qed.

Lemma turn_other R other p ph ns z :
  covers R other → rtc (turn R) (ph, with_download ns (other p ns.(download))) z →
  rtc (turn R) (ph, ns) z.
Proof. intros Hc. apply rtc_l. right. split; [done|]. apply Hc. Qed.

(** *** The pieces of the handler as sequences of sections *)

Lemma sync_turns R hs len ns z :
  rtc (turn R) (after_sync len, with_chainman ns (accept_headers ns.(chainman) hs).2) z →
  rtc (turn R) (SyncHeaders hs len, ns) z.
Proof.
  revert ns. induction hs as [|h hs IH]; intros ns Hz; simpl in Hz.
  - apply turn_section with (after_sync len, ns); [done|]. by destruct ns.
  - eapply turn_section; [simpl; by rewrite (surjective_pairing (process_block_header _ _))|].
    destruct (process_block_header ns.(chainman) h) as [[] c]; simpl in *; [|done].
    apply IH. simpl. by destruct (accept_headers c hs).
Qed.

Lemma announced_turns R hs an ns z :
  rtc (turn R) (after_announced (an ++ (accept_headers ns.(chainman) hs).1),
                with_chainman ns (accept_headers ns.(chainman) hs).2) z →
  rtc (turn R) (AcceptAnnounced hs an, ns) z.
Proof.
  revert an ns. induction hs as [|h hs IH]; intros an ns Hz; simpl in Hz.
  - apply turn_section with (after_announced an, ns); [done|].
    rewrite app_nil_r in Hz. by destruct ns.
  - eapply turn_section; [simpl; by rewrite (surjective_pairing (process_block_header _ _))|].
    destruct (process_block_header ns.(chainman) h) as [[] c]; simpl in *.
    + apply IH. simpl. destruct (accept_headers c hs). by rewrite <- app_assoc.
    + by rewrite app_nil_r in Hz.
Qed.

Lemma walk_turns R fuel e acc ns z :
  fuel = Z.to_nat (height e) →
  (∀ hashes f, fork_walk fuel ns.(chainman) e = Some (hashes, f) →
     rtc (turn R) (if is_nil (acc ++ hashes) then PopBatch else FillQueue (acc ++ hashes), ns) z) →
  rtc (turn R) (WalkBack e acc, ns) z.
Proof.
  revert fuel acc. induction e as [e Hg|e p Hp IH] using entry_ind; intros fuel acc Hfuel Hz;
    (eapply turn_section; [reflexivity|]); simpl.
  - rewrite (genesis_active ns.(chainman) e (proj1 (prev_genesis e) Hg)) in *.
    rewrite <- (app_nil_r acc). apply (Hz [] (entry_hash e)).
    destruct fuel; simpl; by rewrite (genesis_active ns.(chainman) e (proj1 (prev_genesis e) Hg)).
  - pose proof (prev_height _ _ Hp). pose proof (height_range p).
    destruct fuel as [|fuel]; [lia|]. simpl in Hz. destruct (active_contains ns.(chainman) e).
    + rewrite <- (app_nil_r acc). by apply (Hz [] (entry_hash e)).
    + rewrite Hp in *. apply (IH fuel); [lia|]. intros hashes f Hw.
      rewrite <- app_assoc. apply (Hz _ f). by rewrite Hw.
Qed.

Lemma populate_turns R other ns z :
  covers R other →
  rtc (turn R) (PopBatch, with_download ns (populate_download_queue ns.(chainman) other ns.(download))) z →
  rtc (turn R) (CheckQueue, ns) z.
Proof.
  intros Hc Hz. eapply turn_section; [reflexivity|]. unfold populate_download_queue in Hz.
  destruct (negb (is_nil (queue (download ns)))). { by destruct ns. }
  apply (turn_other R other AfterQueueCheck); [done|]. set (d1 := other AfterQueueCheck _) in *.
  eapply turn_section; [reflexivity|]. simpl. destruct (best_entry ns.(chainman)) as [best|]; [|done].
  apply (walk_turns R _ best [] (with_download ns d1) z eq_refl). simpl.
  intros hashes f Hw. rewrite Hw in Hz. destruct (is_nil hashes); [done|].
  eapply turn_section; [reflexivity|]. simpl.
  destruct (negb (is_nil d1.(queue))); simpl; [done|]. by destruct (is_nil (filter _ _)).
Qed.

Lemma batch_turns R ns sm msgs ns' :
  next_batch ns = Ok (sm, msgs, ns') → rtc (turn R) (PopBatch, ns) (Replied sm msgs, ns').
Proof.
  unfold next_batch. intros Hb. destruct (pop_batch _ _) as [batch d] eqn:Hp.
  eapply turn_section; [simpl; by rewrite Hp|]. destruct (negb (is_nil batch)).
  - by injection Hb as <- <- <-.
  - apply bind_Ok in Hb as (ls & Hls & [= <- <- <-]).
    eapply turn_section; [|reflexivity]. simpl in *. by rewrite Hls.
Qed.

Lemma ask_turns R ns sm msgs ns' :
  request_headers ns = Ok (sm, msgs, ns') → rtc (turn R) (AskHeaders, ns) (Replied sm msgs, ns').
Proof.
  unfold request_headers. intros Hb. eapply turn_section; [|reflexivity]. simpl.
  destruct (best_entry _); [|done]. simpl in *.
  apply bind_Ok in Hb as (ls & Hls & [= <- <- <-]). by rewrite Hls.
Qed.

Lemma after_block_turns R other inv ns sm msgs ns' :
  covers R other →
  (if decide (inv = ∅) then next_batch (with_download ns (other AfterBuffer ns.(download)))
   else Ok (AwaitingBlock inv, [], ns)) = Ok (sm, msgs, ns') →
  rtc (turn R) (after_block inv, ns) (Replied sm msgs, ns').
Proof.
  intros Hc. unfold after_block. case_decide.
  - intros Hb. apply (turn_other R other AfterBuffer); [done|]. by apply batch_turns.
  - by intros [= <- <- <-].
Qed.

(** The handler of [Peer] is a sequence of sections, with what [other] does in
    between. *)
Lemma handler_turns R other sm m source ns sm' msgs ns' :
  covers R other → process_message other sm m source ns = Ok (sm', msgs, ns') →
  rtc (turn R) (dispatch sm m source ns) (Replied sm' msgs, ns').
Proof.
  intros Hc. destruct m, sm; cbn [process_message dispatch];
    try (intros [= <- <- <-]; reflexivity).
  - unfold on_headers_sync. intros Hm. apply sync_turns.
    destruct (accept_headers _ _) as [an c]. simpl. unfold after_sync. case_decide.
    + apply (populate_turns R other); [done|]. simpl. apply (turn_other R other AfterPopulate); [done|].
      by apply batch_turns.
    + by apply ask_turns.
  - unfold on_headers_announced. intros Hm. apply announced_turns.
    destruct (accept_headers _ _) as [an c]. simpl. unfold after_announced.
    destruct (is_nil an); [by apply ask_turns|].
    destruct (claim an _) as [claimed d] eqn:Hcl.
    eapply turn_section; [simpl in *; by rewrite Hcl|].
    destruct (is_nil claimed); by injection Hm as <- <- <-.
  - unfold on_block. intros Hm. eapply turn_section; [reflexivity|]. simpl in *.
    set (ns1 := with_download ns _) in *.
    destruct (bool_decide _); [|by apply (after_block_turns R other)].
    apply (turn_other R other AfterRelease); [done|].
    eapply turn_section; [reflexivity|]. by apply (after_block_turns R other).
  - unfold on_inv. destruct (negb _); [by apply ask_turns|by intros [= <- <- <-]].
Qed.

(** ** Progress

    Sections left to a handler, whatever the others do. *)
Definition sections_left (ph : phase) : Z :=
  match ph with
  | Replied _ _ => 0
  | ReadTip | AskHeaders | ClaimAnnounced _ => 1
  | PopBatch => 2
  | FillQueue _ | BufferBlock _ _ => 3
  | ReleaseBlock _ _ => 4
  | WalkBack current _ => 4 + height current
  | ReadBest => 4 + 2 ^ 31
  | CheckQueue => 5 + 2 ^ 31
  | SyncHeaders headers _ => 6 + 2 ^ 31 + Z.of_nat (length headers)
  | AcceptAnnounced headers _ => 2 + Z.of_nat (length headers)
  end.

Definition returned (ph : phase) : bool :=
  match ph with Replied _ _ => true | _ => false end.

Lemma sections_left_nonneg ph : 0 ≤ sections_left ph.
Proof.
  destruct ph; cbn [sections_left]; try lia. pose proof (height_range current). lia.
Qed.

(** A section never panics and brings the handler closer to its end. *)
Lemma section_progress ph ns :
  returned ph = false →
  ∃ ph' ns', section ph ns = Ok (ph', ns') ∧ sections_left ph' < sections_left ph.
Proof.
  intros Hr. destruct ph as [|[|h hs] len| | |e acc|hashes| | |[|h hs] an|an| |inv b|inv b];
    try discriminate Hr; cbn [section].
  - do 2 eexists. split; [done|]. unfold after_sync. case_decide; simpl; lia.
  - destruct (process_block_header _ _) as [[] c]; do 2 eexists; (split; [done|]); simpl; [lia|].
    unfold after_sync. case_decide; simpl; lia.
  - do 2 eexists. split; [done|]. destruct (negb _); simpl; lia.
  - do 2 eexists. split; [done|]. destruct (best_entry _) as [best|]; simpl; [|lia].
    pose proof (height_range best). lia.
  - do 2 eexists. split; [done|]. pose proof (height_range e).
    destruct (active_contains _ _); [destruct (is_nil acc); simpl; lia|].
    destruct (prev e) as [p|] eqn:Hp; simpl; [|lia]. pose proof (prev_height _ _ Hp). lia.
  - do 2 eexists. split; [done|]. simpl. lia.
  - destruct (pop_batch _ _) as [batch d]. do 2 eexists. split; [done|].
    destruct (negb _); simpl; lia.
  - destruct (locators_ok (active_tip ns.(chainman))) as [ls ->].
    do 2 eexists. split; [done|]. simpl. lia.
  - do 2 eexists. split; [done|]. unfold after_announced. destruct (is_nil an); simpl; lia.
  - destruct (process_block_header _ _) as [[] c]; do 2 eexists; (split; [done|]); simpl; [lia|].
    unfold after_announced. destruct (is_nil an); simpl; lia.
  - destruct (claim _ _) as [claimed d]. do 2 eexists. split; [done|].
    destruct (is_nil claimed); simpl; lia.
  - destruct (best_entry_some ns.(chainman)) as [best ->]. simpl_outcome.
    destruct (locators_ok best) as [ls ->]. do 2 eexists. split; [done|]. simpl. lia.
  - do 2 eexists. split; [done|]. case_bool_decide; simpl; [lia|].
    unfold after_block. case_decide; simpl; lia.
  - do 2 eexists. split; [done|]. unfold after_block. case_decide; simpl; lia.
Qed.

Lemma finish_more fuel fuel' ph ns r :
  finish fuel ph ns = Ok r → (fuel ≤ fuel')%nat → finish fuel' ph ns = Ok r.
Proof.
  revert fuel' ph ns. induction fuel as [|fuel IH]; intros fuel' ph ns Hf Hle.
  { by destruct ph, fuel'. }
  destruct fuel' as [|fuel']; [lia|].
  destruct ph; [done|..]; cbn [finish] in *; apply bind_Ok in Hf as ([ph1 ns1] & -> & Hf);
    simpl; apply IH; (done || lia).
Qed.

Lemma finish_turns fuel ph ns sm msgs ns' :
  sections_left ph ≤ Z.of_nat fuel → rtc (turn eq) (ph, ns) (Replied sm msgs, ns') →
  finish fuel ph ns = Ok (sm, msgs, ns').
Proof.
  intros Hf Ht. revert fuel Hf. remember (ph, ns) as x eqn:Hx.
  remember (Replied sm msgs, ns') as y eqn:Hy. revert ph ns Hx.
  induction Ht as [x|x [ph1 ns1] z Hxy Ht IH]; intros ph ns -> fuel Hf.
  - injection Hy as -> ->. by destruct fuel.
  - destruct Hxy as [Hs|[Hp Hn]]; simpl in *.
    + destruct (returned ph) eqn:Hr.
      { destruct ph; try discriminate Hr. injection Hs as <- <-. by apply IH. }
      destruct (section_progress ph ns Hr) as (ph2 & ns2 & Hs' & Hlt). rewrite Hs in Hs'.
      injection Hs' as <- <-. pose proof (sections_left_nonneg ph1).
      destruct fuel as [|fuel]; [lia|].
      assert (finish (S fuel) ph ns = '(ph, ns) ← section ph ns; finish fuel ph ns) as ->.
      { by destruct ph. }
      rewrite Hs. simpl. apply IH; [done|done|lia].
    + subst. by apply IH.
Qed.
(** ** The protocol under interleaving *)

(** The messages a getheaders answers. *)
Inductive asks_headers : PeerStateMachine → NetworkMessage → Prop :=
| asks_more hs : length hs = 2000%nat → asks_headers AwaitingHeaders (Headers hs)
| asks_unconnecting hs : asks_headers AwaitingInv (Headers hs)
| asks_inv inv : inv_blocks inv ≠ [] → asks_headers AwaitingInv (Inv inv).

(** The messages after which a peer takes a batch. *)
Inductive takes_batch : PeerStateMachine → NetworkMessage → Prop :=
| takes_synced hs : length hs ≠ 2000%nat → takes_batch AwaitingHeaders (Headers hs)
| takes_next inventory b :
    inventory ⊆ {[block_hash b]} → takes_batch (AwaitingBlock inventory) (BlockMsg b).

(** The phase serves the message [m] received in the state [sm]. *)
Definition serves (sm : PeerStateMachine) (m : NetworkMessage) (ph : phase) : Prop :=
  match ph with
  | Replied sm' msgs => transition sm m sm' msgs
  | SyncHeaders _ len =>
      ∃ hs, sm = AwaitingHeaders ∧ m = Headers hs ∧ len = Z.of_nat (length hs)
  | CheckQueue | ReadBest | WalkBack _ _ | FillQueue _ =>
      ∃ hs, sm = AwaitingHeaders ∧ m = Headers hs ∧ length hs ≠ 2000%nat
  | PopBatch | ReadTip => takes_batch sm m
  | AcceptAnnounced todo an =>
      ∃ hs, sm = AwaitingInv ∧ m = Headers hs ∧ an ++ (header_hash <$> todo) = header_hash <$> hs
  | ClaimAnnounced an =>
      ∃ hs, sm = AwaitingInv ∧ m = Headers hs ∧ an `prefix_of` (header_hash <$> hs)
  | AskHeaders => asks_headers sm m
  | ReleaseBlock inventory b => sm = AwaitingBlock inventory ∧ m = BlockMsg b
  | BufferBlock inventory b =>
      ∃ inv, sm = AwaitingBlock inv ∧ m = BlockMsg b ∧ inventory = inv ∖ {[block_hash b]}
  end.

Lemma serves_dispatch sm m source ns : serves sm m (dispatch sm m source ns).1.
Proof.
  destruct m, sm; cbn [dispatch fst serves]; try (by constructor); try (by eauto).
  destruct (is_nil (inv_blocks inv)) eqn:Hn; simpl; [apply t_inv_other|constructor].
  - by apply is_nil_true.
  - by apply is_nil_false.
Qed.

Lemma serves_after_sync hs : serves AwaitingHeaders (Headers hs) (after_sync (Z.of_nat (length hs))).
Proof.
  unfold after_sync. case_decide; simpl.
  - exists hs. split_and!; [done|done|lia].
  - constructor. lia.
Qed.

Lemma serves_after_announced hs an :
  an `prefix_of` (header_hash <$> hs) → serves AwaitingInv (Headers hs) (after_announced an).
Proof.
  intros Hp. unfold after_announced. destruct (is_nil an); simpl; [constructor|eauto].
Qed.

Lemma serves_after_block inv b :
  serves (AwaitingBlock inv) (BlockMsg b) (after_block (inv ∖ {[block_hash b]})).
Proof.
  unfold after_block. case_decide as Hd; simpl.
  - constructor. by apply difference_singleton_empty.
  - by constructor.
Qed.

Lemma serves_batch sm m batch d d' :
  takes_batch sm m → pop_batch DOWNLOAD_BATCH_SIZE d = (batch, d') → batch ≠ [] →
  transition sm m (AwaitingBlock (list_to_set batch)) [create_getdata_message batch].
Proof.
  intros Ht Hp Hne. pose proof (pop_batch_spec DOWNLOAD_BATCH_SIZE d) as Hs. rewrite Hp in Hs.
  destruct Hs as (Hnd & Hlen & _). destruct Ht; by constructor.
Qed.

Lemma serves_claim hs an claimed (d d' : DownloadState KBlock) :
  an `prefix_of` (header_hash <$> hs) → claim an d = (claimed, d') → claimed ≠ [] →
  transition AwaitingInv (Headers hs) (AwaitingBlock (list_to_set claimed)) [create_getdata_message claimed].
Proof.
  intros Hp Hc Hne. pose proof (claim_spec an d) as Hs. rewrite Hc in Hs.
  destruct Hs as (Hnd & Hset & _). constructor; [done..|]. intros h Hh.
  eapply elem_of_prefix; [|done].
  apply (elem_of_list_to_set (C:=gset Z)) in Hh. rewrite Hset in Hh. set_solver.
Qed.

(** Whatever the node looks like when a section is done, it serves the message. *)
Lemma serves_section sm m ph ns ph' ns' :
  section ph ns = Ok (ph', ns') → serves sm m ph → serves sm m ph'.
Proof.
  destruct ph as [|[|h hs] len| | |e acc|hashes| | |[|h hs] an|an| |inv b|inv b];
    cbn [section]; intros Hs Hv.
  - by injection Hs as <- <-.
  - injection Hs as <- <-. destruct Hv as (hs & -> & -> & ->). apply serves_after_sync.
  - destruct (process_block_header _ _) as [[] c]; injection Hs as <- <-; [done|].
    destruct Hv as (hs' & -> & -> & ->). apply serves_after_sync.
  - injection Hs as <- <-. destruct (negb _); simpl in *; [|done].
    destruct Hv as (hs & -> & -> & ?). by constructor.
  - injection Hs as <- <-. destruct (best_entry _); simpl in *; [done|].
    destruct Hv as (hs & -> & -> & ?). by constructor.
  - injection Hs as <- <-.
    assert (takes_batch sm m) by (destruct Hv as (hs & -> & -> & ?); by constructor).
    destruct (active_contains _ _); [by destruct (is_nil acc)|by destruct (prev e)].
  - injection Hs as <- <-. destruct Hv as (hs & -> & -> & ?). by constructor.
  - destruct (pop_batch _ _) as [batch d] eqn:Hp. injection Hs as <- <-.
    destruct (is_nil batch) eqn:Hn; simpl; [done|]. eapply serves_batch; [done..|].
    by apply is_nil_false.
  - apply bind_Ok in Hs as (ls & Hls & [= <- <-]). destruct Hv; by econstructor.
  - injection Hs as <- <-. destruct Hv as (hs & -> & -> & Heq). apply serves_after_announced.
    rewrite app_nil_r in Heq. by rewrite Heq.
  - destruct Hv as (hs' & -> & -> & Heq).
    destruct (process_block_header _ _) as [[] c]; injection Hs as <- <-.
    + exists hs'. split_and!; [done|done|]. by rewrite <- app_assoc.
    + apply serves_after_announced. rewrite <- Heq. by apply prefix_app_r.
  - destruct (claim _ _) as [claimed d] eqn:Hc. injection Hs as <- <-.
    destruct Hv as (hs & -> & -> & Hp). destruct (is_nil claimed) eqn:Hn; simpl; [apply t_nothing_new|].
    eapply serves_claim; [done..|]. by apply is_nil_false.
  - apply bind_Ok in Hs as (best & _ & Hs). apply bind_Ok in Hs as (ls & Hls & [= <- <-]).
    destruct Hv; by econstructor.
  - injection Hs as <- <-. destruct Hv as [-> ->]. case_bool_decide; [simpl; eauto|].
    apply serves_after_block.
  - injection Hs as <- <-. destruct Hv as (inv' & -> & -> & ->). apply serves_after_block.
Qed.

(** [n] sections of one thread, each on the node as it finds it. *)
Inductive own_sections : phase → nat → phase → Prop :=
| own_none ph : own_sections ph 0 ph
| own_more ph ns ph1 ns1 n ph2 :
    returned ph = false → section ph ns = Ok (ph1, ns1) → own_sections ph1 n ph2 →
    own_sections ph (S n) ph2.

Lemma own_sections_serve sm m ph n ph' :
  own_sections ph n ph' → serves sm m ph →
  serves sm m ph' ∧ Z.of_nat n + sections_left ph' ≤ sections_left ph.
Proof.
  induction 1 as [ph|ph ns ph1 ns1 n ph2 Hr Hs Ho IH]; intros Hv; [split; [done|lia]|].
  destruct IH as [Hv2 Hle]; [by eapply serves_section|]. split; [done|].
  destruct (section_progress ph ns Hr) as (ph3 & ns3 & Hs' & Hlt). rewrite Hs in Hs'.
  injection Hs' as <- <-. lia.
Qed.
End Interleaving.

(** ** All threads together *)

Record threads `{Kernel} := mk_threads {
  th_node : NodeState Chainman KBlock;
  (** The peer threads, each at a point of its handler; between two messages at
      the end of the last one. *)
  handlers : gmap nat phase;
  (** What the block thread has taken from the buffer and not yet processed. *)
  in_hand : option KBlock;
  (** The blocks given to the kernel, latest first. *)
  handed : list KBlock;
}.
Arguments mk_threads {_ _} _ _ _ _.
Arguments th_node {_ _} _.
Arguments handlers {_ _} _.
Arguments in_hand {_ _} _.
Arguments handed {_ _} _.

Inductive event `{Kernel} :=
| EConnect (i : nat)
| EReceive (i : nat) (m : NetworkMessage) (source : AddrV2)
| ESection (i : nat)
| ELeave (i : nat) (order : list BlockHash)
| ETake (order : list BlockHash)
| EProcess.

Section Threads.
Context `{KernelLaws}.

(** A thread receives and leaves only between two messages. The block thread
    holds the lock while it looks for a block and not while it processes it. *)
Inductive tstep : threads → event → threads → Prop :=
| t_connect ns hs k pr i :
    hs !! i = None →
    tstep (mk_threads ns hs k pr) (EConnect i)
      (mk_threads ns (<[i := Replied AwaitingHeaders []]> hs) k pr)
| t_receive ns hs k pr i sm msgs m source ph ns' :
    hs !! i = Some (Replied sm msgs) → dispatch sm m source ns = (ph, ns') →
    tstep (mk_threads ns hs k pr) (EReceive i m source) (mk_threads ns' (<[i := ph]> hs) k pr)
| t_section ns hs k pr i ph ph' ns' :
    hs !! i = Some ph → returned ph = false → section ph ns = Ok (ph', ns') →
    tstep (mk_threads ns hs k pr) (ESection i) (mk_threads ns' (<[i := ph']> hs) k pr)
| t_leave ns hs k pr i order p msgs :
    hs !! i = Some (Replied p.(state_machine) msgs) →
    iterates order (inventory_of p.(state_machine)) →
    tstep (mk_threads ns hs k pr) (ELeave i order)
      (mk_threads (with_download ns (release_in_flight order p ns.(download))) (delete i hs) k pr)
| t_take ns hs pr order b d :
    iterates order (dom ns.(download).(buffer)) →
    take_connectable order (is_on_active_chain ns.(chainman)) ns.(download) = (Some b, d) →
    tstep (mk_threads ns hs None pr) (ETake order) (mk_threads (with_download ns d) hs (Some b) pr)
| t_process ns hs b pr :
    tstep (mk_threads ns hs (Some b) pr) EProcess
      (mk_threads (with_chainman ns (process_block ns.(chainman) b)) hs None (b :: pr)).

(** A run whose every step satisfies [L]. *)
Inductive truns (L : threads → event → Prop) : threads → list event → threads → Prop :=
| truns_nil s : truns L s [] s
| truns_cons s e s1 es s2 : tstep s e s1 → L s e → truns L s1 es s2 → truns L s (e :: es) s2.

Lemma truns_invariant (I : threads → Prop) (L : threads → event → Prop) s es s' :
  (∀ s e s', tstep s e s' → L s e → I s → I s') → truns L s es s' → I s → I s'.
Proof. intros Hstep. induction 1; eauto. Qed.

Lemma truns_one L s e s' : truns L s [e] s' → tstep s e s'.
Proof. inversion 1 as [|? ? ? ? ? Hs _ Hr]; subst. by inversion Hr; subst. Qed.

(** Before the first connection. *)
Definition no_threads (s : threads) : Prop :=
  s.(handlers) = ∅ ∧ s.(th_node).(download) = download_default.

(** ** The effect of one section *)

(** What a peer was asked for and has not given back. *)
Definition owed (ph : phase) : gset BlockHash :=
  match ph with
  | Replied sm _ => inventory_of sm
  | ReleaseBlock inventory _ | BufferBlock inventory _ => inventory
  | _ => ∅
  end.

(** A block released and not yet held: it is in a local variable of its thread. *)
Definition carried (ph : phase) : gset BlockHash :=
  match ph with BufferBlock _ b => {[block_hash b]} | _ => ∅ end.

(** The block a section takes out of flight. *)
Definition released_by (ph : phase) : gset BlockHash :=
  match ph with ReleaseBlock _ b => {[block_hash b]} | _ => ∅ end.

(** The block a section replaces in the buffer. *)
Definition replaced_by (ph : phase) (d : DownloadState KBlock) : gset BlockHash :=
  match ph with
  | BufferBlock _ b =>
      match d.(buffer) !! prev_blockhash (block_header b) with
      | Some old => {[kblock_hash old]}
      | None => ∅
      end
  | _ => ∅
  end.

Definition section_effect (ph : phase) (d : DownloadState KBlock) (ph' : phase)
    (d' : DownloadState KBlock) (claimed : gset BlockHash) : Prop :=
  let F := released_by ph in
  d'.(in_flight) = (d.(in_flight) ∖ F) ∪ claimed ∧
  claimed ## d.(in_flight) ∖ F ∧
  owed ph' = (owed ph ∖ F) ∪ claimed ∧
  tracked d ∪ carried ph ⊆ tracked d' ∪ carried ph' ∪ replaced_by ph d.

Lemma owed_dispatch sm m source ns :
  owed (dispatch sm m source ns).1 = inventory_of sm ∧
  carried (dispatch sm m source ns).1 = ∅ ∧
  (dispatch sm m source ns).2.(download) = ns.(download).
Proof. destruct m, sm; simpl; try done. by destruct (negb _). Qed.

Lemma owed_after_block inv : owed (after_block inv) = inv ∧ carried (after_block inv) = ∅.
Proof. unfold after_block. by case_decide. Qed.

(** A section that leaves the download state and what is owed alone. *)
Lemma effect_none ph d ph' :
  owed ph = ∅ → carried ph = ∅ → released_by ph = ∅ → owed ph' = ∅ → section_effect ph d ph' d ∅.
Proof.
  intros Ho Hc Hr Ho'. unfold section_effect. rewrite Ho, Hc, Hr, Ho'. clear.
  split_and!; set_solver.
Qed.

(** A section that claims blocks for a peer that owes nothing. *)
Lemma effect_claims ph (d : DownloadState KBlock) ph' (d' : DownloadState KBlock) claimed :
  owed ph = ∅ → carried ph = ∅ → released_by ph = ∅ → owed ph' = claimed →
  d'.(in_flight) = d.(in_flight) ∪ claimed → claimed ## d.(in_flight) →
  tracked d ⊆ tracked d' → section_effect ph d ph' d' claimed.
Proof.
  intros Ho Hc Hr Ho' Hf Hd Ht. unfold section_effect. rewrite Ho, Hc, Hr, Ho', Hf.
  clear -Hd Ht. split_and!; set_solver.
Qed.

Lemma effect_fill hashes (ns : NodeState Chainman KBlock) ph' ns' :
  section (FillQueue hashes) ns = Ok (ph', ns') →
  section_effect (FillQueue hashes) ns.(download) ph' ns'.(download) ∅.
Proof.
  simpl. set (queued := filter _ _). intros [= <- <-]. apply effect_claims; try done.
  - destruct (_ || _); simpl; by rewrite (right_id_L ∅ (∪)).
  - destruct (negb (is_nil (queue (download ns)))) eqn:Hq; [done|].
    destruct (is_nil queued); [done|]. apply negb_false_iff, is_nil_true in Hq.
    unfold tracked, outstanding, buffered_hashes. simpl. rewrite Hq. clear. set_solver.
Qed.

Lemma effect_pop (ns : NodeState Chainman KBlock) ph' ns' :
  section PopBatch ns = Ok (ph', ns') →
  ∃ claimed, section_effect PopBatch ns.(download) ph' ns'.(download) claimed.
Proof.
  simpl. pose proof (pop_batch_spec DOWNLOAD_BATCH_SIZE ns.(download)) as Hp.
  pose proof (pop_batch_outstanding DOWNLOAD_BATCH_SIZE ns.(download)) as Ho.
  destruct (pop_batch _ _) as [batch d]. intros [= <- <-]. simpl in Ho.
  destruct Hp as (_ & _ & Hdisj & Hf & Hb & _). exists (list_to_set batch).
  apply effect_claims; try done.
  - by destruct batch.
  - simpl. unfold tracked. by rewrite Ho, (buffered_hashes_eq d ns.(download)).
Qed.

Lemma effect_announced an (ns : NodeState Chainman KBlock) ph' ns' :
  section (ClaimAnnounced an) ns = Ok (ph', ns') →
  ∃ claimed, section_effect (ClaimAnnounced an) ns.(download) ph' ns'.(download) claimed.
Proof.
  simpl. pose proof (claim_spec an ns.(download)) as Hp.
  destruct (claim _ _) as [claimed d]. intros [= <- <-]. simpl.
  destruct Hp as (_ & Hset & Hf & Hq & Hb). exists (list_to_set claimed).
  apply effect_claims; try done.
  - by destruct claimed.
  - simpl. rewrite Hf, Hset. apply set_eq. intros h.
    destruct (decide (h ∈ ns.(download).(in_flight))); set_solver.
  - rewrite Hset. clear. set_solver.
  - simpl. unfold tracked, outstanding. rewrite (buffered_hashes_eq d ns.(download)), Hq, Hf by done.
    clear. set_solver.
Qed.

Lemma effect_release inv b (ns : NodeState Chainman KBlock) ph' ns' :
  section (ReleaseBlock inv b) ns = Ok (ph', ns') →
  section_effect (ReleaseBlock inv b) ns.(download) ph' ns'.(download) ∅.
Proof.
  simpl. intros [= <- <-]. destruct (owed_after_block (inv ∖ {[block_hash b]})) as [Ho Hc].
  unfold section_effect, tracked, outstanding. simpl.
  change (buffered_hashes (mk_download _ _ _)) with (buffered_hashes ns.(download)).
  generalize (buffered_hashes ns.(download)) as B. intros B.
  case_bool_decide as Hin; simpl; rewrite ?Ho, ?Hc; clear -Hin;
    (split_and!; [set_solver..|]); intros h; destruct (decide (h = block_hash b)); set_solver.
Qed.

Lemma effect_buffer inv b (ns : NodeState Chainman KBlock) ph' ns' :
  section (BufferBlock inv b) ns = Ok (ph', ns') →
  section_effect (BufferBlock inv b) ns.(download) ph' ns'.(download) ∅.
Proof.
  simpl. intros [= <- <-]. destruct (owed_after_block inv) as [Ho Hc].
  pose proof (tracked_buffer (prev_blockhash (block_header b)) (convert b) ns.(download)) as Ht.
  rewrite convert_hash in Ht. unfold section_effect. simpl in *. rewrite Ho, Hc.
  split_and!; [clear; set_solver..|]. by rewrite (right_id_L ∅ (∪)).
Qed.

Lemma section_has_effect ph ns ph' ns' :
  section ph ns = Ok (ph', ns') → returned ph = false →
  ∃ claimed, section_effect ph ns.(download) ph' ns'.(download) claimed.
Proof.
  destruct ph as [|[|h hs] len| | |e acc|hashes| | |[|h hs] an|an| |inv b|inv b]; intros Hs Hr;
    [discriminate Hr|..]; try (by eauto using effect_fill, effect_pop, effect_announced,
      effect_release, effect_buffer); exists ∅; cbn [section] in Hs.
  - injection Hs as <- <-. apply effect_none; try done. unfold after_sync. by case_decide.
  - destruct (process_block_header _ _) as [v c]. injection Hs as <- <-.
    apply effect_none; try done. unfold after_sync. destruct v; [done|by case_decide].
  - injection Hs as <- <-. apply effect_none; try done. by destruct (negb _).
  - injection Hs as <- <-. apply effect_none; try done. by destruct (best_entry _).
  - injection Hs as <- <-. apply effect_none; try done.
    destruct (active_contains _ _); [by destruct (is_nil acc)|by destruct (prev e)].
  - apply bind_Ok in Hs as (ls & Hls & [= <- <-]). by apply effect_none.
  - injection Hs as <- <-. apply effect_none; try done. unfold after_announced. by destruct (is_nil an).
  - destruct (process_block_header _ _) as [v c]. injection Hs as <- <-.
    apply effect_none; try done. unfold after_announced. destruct v; [done|by destruct (is_nil an)].
  - apply bind_Ok in Hs as (best & _ & Hs). apply bind_Ok in Hs as (ls & Hls & [= <- <-]).
    by apply effect_none.
Qed.
(** ** Invariants of every interleaving *)

(** Every block in flight is owed by a live connection. *)
Definition all_owed (s : threads) : Prop :=
  ∀ h, h ∈ s.(th_node).(download).(in_flight) →
    ∃ i ph, s.(handlers) !! i = Some ph ∧ h ∈ owed ph.

(** What the peers owe is in flight, and no block is owed twice. *)
Definition owed_once (s : threads) : Prop :=
  (∀ i ph, s.(handlers) !! i = Some ph → owed ph ⊆ s.(th_node).(download).(in_flight)) ∧
  (∀ i j ph ph', i ≠ j → s.(handlers) !! i = Some ph → s.(handlers) !! j = Some ph' →
     owed ph ## owed ph').

(** The block a section releases was asked of this peer, or nobody waits for it. *)
Definition releases_own (s : threads) (e : event) : Prop :=
  match e with
  | ESection i =>
      ∀ inventory b, s.(handlers) !! i = Some (ReleaseBlock inventory b) →
        block_hash b ∈ inventory ∨ (block_hash b ∉ s.(th_node).(download).(in_flight))
  | _ => True
  end.

(** A section that holds a block finds no other block under its parent. *)
Definition one_child (s : threads) (e : event) : Prop :=
  match e with
  | ESection i =>
      ∀ inventory b old, s.(handlers) !! i = Some (BufferBlock inventory b) →
        s.(th_node).(download).(buffer) !! prev_blockhash (block_header b) = Some old →
        kblock_hash old = block_hash b
  | _ => True
  end.

(** The blocks in sight: queued, in flight or held, in the hands of a thread, or
    given to the kernel. *)
Definition in_sight (s : threads) (h : BlockHash) : Prop :=
  h ∈ tracked s.(th_node).(download) ∨
  (∃ i ph, s.(handlers) !! i = Some ph ∧ h ∈ carried ph) ∨
  h ∈ kblock_hash <$> (option_list s.(in_hand) ++ s.(handed)).

Lemma all_owed_move ns (hs : gmap nat phase) k pr i ph ph' ns' claimed F :
  hs !! i = Some ph →
  ns'.(download).(in_flight) = (ns.(download).(in_flight) ∖ F) ∪ claimed →
  owed ph' = (owed ph ∖ F) ∪ claimed →
  all_owed (mk_threads ns hs k pr) → all_owed (mk_threads ns' (<[i := ph']> hs) k pr).
Proof.
  intros Hi Hf Ho Hinv h Hh. simpl in *. rewrite Hf in Hh.
  destruct (decide (h ∈ owed ph')) as [Hin|Hnin].
  { exists i, ph'. by rewrite lookup_insert_eq. }
  rewrite Ho in Hnin. destruct (Hinv h) as (j & phj & Hj & Hhj); [simpl; clear -Hh Hnin; set_solver|].
  exists j, phj. split; [|done]. rewrite lookup_insert_ne; [done|]. intros ->.
  simpl in Hj. simplify_eq. clear -Hh Hnin Hhj. set_solver.
Qed.

Lemma owed_once_move ns (hs : gmap nat phase) k pr i ph ph' ns' claimed F :
  hs !! i = Some ph →
  ns'.(download).(in_flight) = (ns.(download).(in_flight) ∖ F) ∪ claimed →
  claimed ## ns.(download).(in_flight) ∖ F →
  owed ph' = (owed ph ∖ F) ∪ claimed →
  (∀ j phj, i ≠ j → hs !! j = Some phj → F ## owed phj) →
  owed_once (mk_threads ns hs k pr) → owed_once (mk_threads ns' (<[i := ph']> hs) k pr).
Proof.
  intros Hi Hf Hcl Ho HF [Hsub Hdis]. simpl in *. split; simpl.
  - intros j phj Hj. rewrite Hf. destruct (decide (i = j)) as [->|Hij].
    + rewrite lookup_insert_eq in Hj. simplify_eq. rewrite Ho.
      pose proof (Hsub _ _ Hi) as Hs. clear -Hs. set_solver.
    + rewrite lookup_insert_ne in Hj by done. pose proof (Hsub _ _ Hj) as Hs.
      pose proof (HF _ _ Hij Hj) as Hd. clear -Hs Hd. set_solver.
  - assert (∀ j phj, i ≠ j → hs !! j = Some phj → owed ph' ## owed phj) as Hnew.
    { intros j phj Hij Hj. rewrite Ho. pose proof (Hdis _ _ _ _ Hij Hi Hj) as Hd.
      pose proof (Hsub _ _ Hj) as Hs. pose proof (HF _ _ Hij Hj) as HFj.
      clear -Hd Hs Hcl HFj. set_solver. }
    intros j k' phj phk Hjk Hj Hk.
    apply lookup_insert_Some in Hj as [[<- <-]|[Hij Hj]];
      apply lookup_insert_Some in Hk as [[<- <-]|[Hik Hk]]; eauto; try done.
    symmetry. eauto.
Qed.

(** Connecting and receiving claim and free nothing. *)
Lemma all_owed_receive ns (hs : gmap nat phase) k pr i ph ph' ns' :
  hs !! i = Some ph → ns'.(download) = ns.(download) → owed ph' = owed ph →
  all_owed (mk_threads ns hs k pr) → all_owed (mk_threads ns' (<[i := ph']> hs) k pr).
Proof.
  intros Hi Hd Ho. apply (all_owed_move _ _ _ _ _ ph _ _ ∅ ∅ Hi); rewrite ?Hd, ?Ho; clear; set_solver.
Qed.

Lemma owed_once_receive ns (hs : gmap nat phase) k pr i ph ph' ns' :
  hs !! i = Some ph → ns'.(download) = ns.(download) → owed ph' = owed ph →
  owed_once (mk_threads ns hs k pr) → owed_once (mk_threads ns' (<[i := ph']> hs) k pr).
Proof.
  intros Hi Hd Ho. apply (owed_once_move _ _ _ _ _ ph _ _ ∅ ∅ Hi); rewrite ?Hd, ?Ho; clear; set_solver.
Qed.

Lemma dispatch_keeps sm m source ns ph ns' :
  dispatch sm m source ns = (ph, ns') →
  ns'.(download) = ns.(download) ∧ owed ph = inventory_of sm ∧ carried ph = ∅.
Proof. intros Hd. pose proof (owed_dispatch sm m source ns) as Ho. rewrite Hd in Ho. naive_solver. Qed.

Lemma all_owed_step s e s' : tstep s e s' → all_owed s → all_owed s'.
Proof.
  intros [ns hs k pr i Hi|ns hs k pr i sm msgs m source ph ns' Hi Hd|ns hs k pr i ph ph' ns' Hi Hr Hs
         |ns hs k pr i order p msgs Hi Hit|ns hs pr order b d Hit Ht|ns hs b pr] Hinv.
  - intros h (j & phj & Hj & Hhj)%Hinv. exists j, phj. split; [|done]. simpl in *.
    rewrite lookup_insert_ne; [done|]. congruence.
  - apply dispatch_keeps in Hd as (Hd & Ho & _). by eapply all_owed_receive.
  - destruct (section_has_effect ph ns ph' ns' Hs Hr) as (cl & Hf & _ & Ho & _).
    by eapply all_owed_move.
  - intros h Hh. simpl in *.
    destruct (release_in_flight_spec order p ns.(download) Hit) as [Hf _].
    rewrite Hf in Hh. apply elem_of_difference in Hh as [Hh Hn].
    destruct (Hinv h Hh) as (j & phj & Hj & Hhj). exists j, phj. split; [|done].
    apply lookup_delete_Some. split; [|done]. intros ->. simpl in Hj. rewrite Hi in Hj.
    by injection Hj as <-.
  - apply take_connectable_Some in Ht as (p & _ & -> & _); [|done]. apply Hinv.
  - apply Hinv.
Qed.

Lemma owed_once_step s e s' : tstep s e s' → releases_own s e → owed_once s → owed_once s'.
Proof.
  intros [ns hs k pr i Hi|ns hs k pr i sm msgs m source ph ns' Hi Hd|ns hs k pr i ph ph' ns' Hi Hr Hs
         |ns hs k pr i order p msgs Hi Hit|ns hs pr order b d Hit Ht|ns hs b pr] Hown Hinv.
  - destruct Hinv as [Hsub Hdis]. split; simpl in *.
    + intros j phj [[<- <-]|[_ Hj]]%lookup_insert_Some; [simpl; clear; set_solver|by eapply Hsub].
    + intros j l phj phl Hjl [[<- <-]|[_ Hj]]%lookup_insert_Some [[<- <-]|[_ Hl]]%lookup_insert_Some;
        simpl; [done|clear; set_solver|clear; set_solver|by eapply Hdis].
  - apply dispatch_keeps in Hd as (Hd & Ho & _). by eapply owed_once_receive.
  - destruct (section_has_effect ph ns ph' ns' Hs Hr) as (cl & Hf & Hcl & Ho & _).
    eapply owed_once_move; [done..| |done]. intros j phj Hij Hj. destruct Hinv as [Hsub Hdis].
    destruct ph as [| | | | | | | | | | |inv b|]; simpl in *; try apply disjoint_empty_l.
    pose proof (Hsub _ _ Hj) as Hsj. pose proof (Hdis _ _ _ _ Hij Hi Hj) as Hdj. simpl in Hdj.
    destruct (Hown _ _ Hi) as [Hin|Hnin]; [clear -Hin Hdj|clear -Hnin Hsj]; set_solver.
  - destruct Hinv as [Hsub Hdis]. destruct (release_in_flight_spec order p ns.(download) Hit) as [Hf _].
    split; simpl in *.
    + intros j phj [Hij Hj]%lookup_delete_Some. rewrite Hf.
      pose proof (Hsub _ _ Hj) as Hs. pose proof (Hdis _ _ _ _ Hij Hi Hj) as Hd. simpl in Hd.
      clear -Hs Hd. set_solver.
    + intros j l phj phl Hjl [_ Hj]%lookup_delete_Some [_ Hl]%lookup_delete_Some. by eapply Hdis.
  - destruct Hinv as [Hsub Hdis]. apply take_connectable_Some in Ht as (p & _ & -> & _); [|done].
    by split.
  - done.
Qed.

(** A thread that moves keeps what the others carry. *)
Lemma in_sight_move ns (hs : gmap nat phase) k pr i ph ph' ns' h :
  hs !! i = Some ph →
  (h ∈ tracked ns.(download) ∪ carried ph → h ∈ tracked ns'.(download) ∪ carried ph') →
  in_sight (mk_threads ns hs k pr) h → in_sight (mk_threads ns' (<[i := ph']> hs) k pr) h.
Proof.
  intros Hi Hkeep Hk. unfold in_sight in *. simpl in *.
  assert (h ∈ tracked ns'.(download) ∪ carried ph' →
    h ∈ tracked ns'.(download) ∨ (∃ j p, <[i:=ph']> hs !! j = Some p ∧ h ∈ carried p)) as Hnew.
  { intros [?|?]%elem_of_union; [by left|]. right. exists i, ph'. by rewrite lookup_insert_eq. }
  destruct Hk as [Ht|[(j & p & Hj & Hp)|Hk]]; [|destruct (decide (i = j)) as [->|Hij]|by auto].
  - destruct Hnew; [|by auto..]. apply Hkeep. set_solver.
  - simplify_eq. destruct Hnew; [|by auto..]. apply Hkeep. set_solver.
  - right. left. exists j, p. by rewrite lookup_insert_ne.
Qed.

Lemma in_sight_step s e s' h : tstep s e s' → one_child s e → in_sight s h → in_sight s' h.
Proof.
  intros [ns hs k pr i Hi|ns hs k pr i sm msgs m source ph ns' Hi Hd|ns hs k pr i ph ph' ns' Hi Hr Hs
         |ns hs k pr i order p msgs Hi Hit|ns hs pr order b d Hit Ht|ns hs b pr] Hone Hk.
  - destruct Hk as [?|[(j & p & Hj & Hp)|?]]; [by left| |by right; right].
    right. left. exists j, p. split; [|done]. simpl in *. rewrite lookup_insert_ne; [done|]. congruence.
  - apply dispatch_keeps in Hd as (Hd & _ & Hc). eapply in_sight_move; [done| |done].
    rewrite Hd, Hc. by simpl.
  - destruct (section_has_effect ph ns ph' ns' Hs Hr) as (cl & _ & _ & _ & Ht).
    eapply in_sight_move; [done| |done]. intros Hh. apply Ht in Hh.
    apply elem_of_union in Hh as [Hh|Hh]; [done|].
    destruct ph as [| | | | | | | | | | | |inv b]; simpl in Hh; try by apply elem_of_empty in Hh.
    destruct (buffer (download ns) !! _) as [old|] eqn:Hb; [|by apply elem_of_empty in Hh].
    apply elem_of_singleton in Hh as ->. rewrite (Hone inv b old Hi Hb).
    simpl in Hs. injection Hs as <- <-. apply elem_of_union_l. unfold tracked.
    apply elem_of_union_r, elem_of_buffered_hashes. do 2 eexists.
    split; [apply lookup_insert_eq|apply convert_hash].
  - destruct (release_in_flight_spec order p ns.(download) Hit) as [_ Ht].
    destruct Hk as [?|[(j & q & Hj & Hq)|?]]; [left; by apply Ht| |by right; right].
    right. left. exists j, q. split; [|done]. apply lookup_delete_Some. split; [|done].
    intros ->. simpl in Hj. simplify_eq. by apply elem_of_empty in Hq.
  - apply take_connectable_Some in Ht as (p & Hb & -> & _); [|done].
    destruct Hk as [Ht|[?|Hk]]; [|by right; left|right; right; by apply elem_of_cons; right].
    apply (tracked_remove p b) in Ht; [|done]. apply elem_of_union in Ht as [Ht|Ht%elem_of_singleton].
    + by left.
    + right. right. rewrite Ht. simpl. left.
  - by destruct Hk as [?|[?|?]]; [left|right; left|right; right].
Qed.
End Threads.

(** ** Properties *)

Section Properties.
Context `{KernelLaws}.

Lemma owed_once_run L s es s' :
  (∀ s e, L s e → releases_own s e) → s.(handlers) = ∅ → truns L s es s' → owed_once s'.
Proof.
  intros HL Hh Hr. eapply (truns_invariant owed_once L); [|done|].
  - intros ? ? ? ? ?%HL. by eapply owed_once_step.
  - split; rewrite Hh; by intros.
Qed.

(** C3: Nothing is lost in cutting the handler up: left alone, the sections of a
    message compose to [process_message], with its new state, its messages and
    its node, within the sections counted by [sections_left]. *)
Theorem sections_are_handler fuel sm m source ns :
  sections_left (dispatch sm m source ns).1 ≤ Z.of_nat fuel →
  finish fuel (dispatch sm m source ns).1 (dispatch sm m source ns).2 =
    process_message quiet sm m source ns.
Proof.
  intros Hf. destruct (process_message_spec quiet sm m source ns) as (sm' & msgs & ns' & Hm & _).
  rewrite Hm. apply finish_turns; [done|]. rewrite <- surjective_pairing.
  eapply handler_turns; [|done]. by intros p [].
Qed.

(** C2: Whatever the other threads do to the kernel and to the download state
    before each of its accesses, a handler runs to its end: it can always do its
    next section without a panic, at most [2 ^ 31 + 6] and the number of headers
    of them are left, and what it returns is a transition of the protocol for
    the message it was given. *)
Theorem interleaved_handler_refines sm m source ns n ph :
  own_sections (dispatch sm m source ns).1 n ph →
  Z.of_nat n ≤ sections_left (dispatch sm m source ns).1 ≤
    2 ^ 31 + 6 + match m with Headers hs => Z.of_nat (length hs) | _ => 0 end ∧
  match ph with
  | Replied sm' msgs => transition sm m sm' msgs
  | _ => ∀ ns, ∃ ph' ns', section ph ns = Ok (ph', ns')
  end.
Proof.
  intros Ho. destruct (own_sections_serve sm m _ _ _ Ho (serves_dispatch sm m source ns)) as [Hv Hle].
  pose proof (sections_left_nonneg ph). split; [split; [lia|]|].
  - clear. destruct m, sm; simpl; try lia. destruct (negb _); simpl; lia.
  - assert (returned ph = false → ∀ ns, ∃ ph' ns', section ph ns = Ok (ph', ns')) as Hgo.
    { intros Hr ns'. destruct (section_progress ph ns' Hr) as (ph' & ns'' & ? & _). eauto. }
    destruct ph; [exact Hv|by apply Hgo..].
Qed.

(** C4: In every interleaving of handlers, disconnections and the block thread,
    each block in flight is owed by a live connection; and as long as a handler
    releases only what its peer was asked for, or what nobody waits for, no
    block is owed by two connections. *)
Theorem interleaved_requests L s es s' :
  no_threads s → truns L s es s' →
  all_owed s' ∧ ((∀ s e, L s e → releases_own s e) → owed_once s').
Proof.
  intros [Hh Hd] Hr. split.
  - eapply (truns_invariant all_owed L); [|done|].
    + intros ? ? ? ? _. by eapply all_owed_step.
    + intros h. rewrite Hd. by intros ?%elem_of_empty.
  - intros HL. by eapply owed_once_run.
Qed.

(** C5: In every interleaving in which no two children of one block are held at
    once, no block is forgotten, also between its release and its buffering:
    it stays queued, in flight or held, in the hands of a thread, or was given
    to the kernel; and when nothing is outstanding, held or in hand, it was. *)
Theorem interleaved_no_loss s es s' h :
  truns one_child s es s' → in_sight s h →
  in_sight s' h ∧
  (idle s'.(th_node).(download) → s'.(th_node).(download).(buffer) = ∅ →
   (∀ i ph, s'.(handlers) !! i = Some ph → returned ph = true) → s'.(in_hand) = None →
   h ∈ kblock_hash <$> s'.(handed)).
Proof.
  intros Hr Hs. assert (in_sight s' h) as Hs'.
  { eapply (truns_invariant (λ s, in_sight s h) one_child); [|done|done].
    intros. by eapply in_sight_step. }
  split; [done|]. intros [Hq Hf] Hb Hret Hk. destruct Hs' as [Ht|[(i & ph & Hi & Hc)|Hh]].
  - exfalso. unfold tracked, outstanding in Ht. rewrite Hq, Hf in Ht.
    apply elem_of_union in Ht as [Ht|(p & b & Hbb & _)%elem_of_buffered_hashes]; [clear -Ht; set_solver|].
    by rewrite Hb, lookup_empty in Hbb.
  - apply Hret in Hi. destruct ph; try discriminate Hi. by apply elem_of_empty in Hc.
  - by rewrite Hk in Hh.
Qed.

(** C6: The block thread takes a block whose parent is off the active chain only
    when the queue is empty and no block is marked in flight; the parent is then
    not held, and if the node has it in sight at all, it was given to the kernel
    before or a peer thread is just about to buffer it. That no connection owes
    a block then is stated for runs in which a handler releases only what its
    peer was asked for, or what nobody waits for: the mark of a block another
    peer was asked for is removed by whoever delivers it. *)
Theorem early_take L s es s1 order s2 b :
  no_threads s → truns L s es s1 →
  tstep s1 (ETake order) s2 → s2.(in_hand) = Some b →
  ∃ p, s1.(th_node).(download).(buffer) !! p = Some b ∧
    (is_on_active_chain s1.(th_node).(chainman) p = true ∨
     s1.(th_node).(download).(queue) = [] ∧ s1.(th_node).(download).(in_flight) = ∅ ∧
     (p ∉ buffered_hashes s1.(th_node).(download)) ∧
     (in_sight s1 p → p ∈ kblock_hash <$> s1.(handed) ∨
        ∃ i inventory c, s1.(handlers) !! i = Some (BufferBlock inventory c) ∧ block_hash c = p) ∧
     ((∀ s e, L s e → releases_own s e) → ∀ i ph, s1.(handlers) !! i = Some ph → owed ph = ∅)).
Proof.
  intros [Hh Hd] Hr Ht Hb.
  inversion Ht as [| | | |ns hs pr order' b' d Hit Htake|]; subst. simpl in *. injection Hb as ->.
  apply take_connectable_Some in Htake as (p & Hp & -> & Hcase); [|done].
  exists p. split; [done|]. destruct Hcase as [Hc|((Hq & Hf) & Hnb & _)]; [by left|right].
  split_and!; [done..| |].
  - intros [Htr|[(i & ph & Hi & Hc)|Hk]].
    + exfalso. unfold tracked, outstanding in Htr. simpl in Htr. rewrite Hq, Hf in Htr.
      clear -Htr Hnb. set_solver.
    + right. destruct ph; simpl in Hc; try by apply elem_of_empty in Hc.
      apply elem_of_singleton in Hc as ->. eauto.
    + by left.
  - intros HL. destruct (owed_once_run L _ _ _ HL Hh Hr) as [Hsub _].
    intros i ph Hi. apply Hsub in Hi. simpl in Hi. rewrite Hf in Hi. clear -Hi. set_solver.
Qed.
End Properties.

(** ** Concrete interleavings *)

Module Witness.
Import Messages.Demo Kernel.Demo Peer.Witness.

Definition th0 : threads := mk_threads ns0 ∅ None [].

(** The steps as a function, to evaluate a script. *)
Definition texec (e : event) (s : threads) : option threads :=
  let '(mk_threads ns hs k pr) := s in
  match e with
  | EConnect i =>
      match hs !! i with
      | None => Some (mk_threads ns (<[i := Replied AwaitingHeaders []]> hs) k pr)
      | Some _ => None
      end
  | EReceive i m source =>
      match hs !! i with
      | Some (Replied sm _) =>
          let '(ph, ns') := dispatch sm m source ns in Some (mk_threads ns' (<[i := ph]> hs) k pr)
      | _ => None
      end
  | ESection i =>
      match hs !! i with
      | Some ph =>
          if returned ph then None else
          match section ph ns with
          | Ok (ph', ns') => Some (mk_threads ns' (<[i := ph']> hs) k pr)
          | _ => None
          end
      | None => None
      end
  | ELeave i order =>
      match hs !! i with
      | Some (Replied sm _) =>
          if decide (NoDup order ∧ list_to_set order = inventory_of sm) then
            Some (mk_threads (with_download ns (release_in_flight order (mk_peer src sm 0) ns.(download)))
                    (delete i hs) k pr)
          else None
      | _ => None
      end
  | ETake order =>
      if decide (NoDup order ∧ list_to_set order = dom ns.(download).(buffer)) then
        match k, take_connectable order (is_on_active_chain ns.(chainman)) ns.(download) with
        | None, (Some b, d) => Some (mk_threads (with_download ns d) hs (Some b) pr)
        | _, _ => None
        end
      else None
  | EProcess =>
      match k with
      | Some b => Some (mk_threads (with_chainman ns (process_block ns.(chainman) b)) hs None (b :: pr))
      | None => None
      end
  end.

Fixpoint texec_all (L : threads → event → bool) (es : list event) (s : threads) : option threads :=
  match es with
  | [] => Some s
  | e :: es => if L s e then s' ← texec e s; texec_all L es s' else None
  end.

Lemma texec_step e s s' : texec e s = Some s' → tstep s e s'.
Proof.
  destruct s as [ns hs k pr], e as [i|i m source|i|i order|order|]; unfold texec.
  - destruct (hs !! i) eqn:Hi; [done|]. intros [= <-]. by constructor.
  - destruct (hs !! i) as [[]|] eqn:Hi; try done.
    destruct (dispatch _ _ _ _) as [ph ns'] eqn:Hd. intros [= <-]. by econstructor.
  - destruct (hs !! i) as [ph|] eqn:Hi; [|done]. destruct (returned ph) eqn:Hr; [done|].
    destruct (section ph ns) as [[ph' ns']| |] eqn:Hs; try done. intros [= <-]. by econstructor.
  - destruct (hs !! i) as [[]|] eqn:Hi; try done. case_decide as Hit; [|done]. intros [= <-].
    apply (t_leave ns hs k pr i order (mk_peer src state_machine 0) messages); [done|].
    by apply PeerSystem.Witness.iterates_list_to_set.
  - case_decide as Hit; [|done]. destruct k; [done|].
    destruct (take_connectable _ _ _) as [[b|] d] eqn:Ht; [|done]. intros [= <-].
    apply (t_take (H0:=demo_kernel) ns hs pr order b d); [|done].
    by apply PeerSystem.Witness.iterates_list_to_set.
  - destruct k; [|done]. intros [= <-]. constructor.
Qed.

(** The state after a script whose steps all satisfy [Lb]. *)
Definition after (Lb : threads → event → bool) (es : list event) (s : threads) : threads :=
  default s (texec_all Lb es s).

Lemma texec_all_run (L : threads → event → Prop) Lb es s :
  (∀ s e, Lb s e = true → L s e) → bool_decide (is_Some (texec_all Lb es s)) = true →
  truns L s es (after Lb es s).
Proof.
  intros HL [s' Hs]%bool_decide_eq_true. unfold after. rewrite Hs. simpl. revert s Hs.
  induction es as [|e es IH]; intros s; cbn [texec_all].
  { intros [= ->]. constructor. }
  destruct (Lb s e) eqn:He; [|done].
  destruct (texec e s) as [s1|] eqn:Hs; simpl; [|done]. intros Hr.
  econstructor; [by apply texec_step|by apply HL|by apply IH].
Qed.

Definition own_b (s : threads) (e : event) : bool :=
  match e with
  | ESection i =>
      match s.(handlers) !! i with
      | Some (ReleaseBlock inventory b) => bool_decide (block_hash b ∈ inventory)
      | _ => true
      end
  | _ => true
  end.

Lemma own_b_ok s e : own_b s e = true → releases_own s e.
Proof.
  destruct e; try done. simpl. intros Hb inventory b Hi. rewrite Hi in Hb. left.
  by apply bool_decide_eq_true in Hb.
Qed.

Definition child_b (s : threads) (e : event) : bool :=
  match e with
  | ESection i =>
      match s.(handlers) !! i with
      | Some (BufferBlock _ b) =>
          bool_decide (s.(th_node).(download).(buffer) !! prev_blockhash (block_header b) = None)
      | _ => true
      end
  | _ => true
  end.

Lemma child_b_ok s e : child_b s e = true → one_child s e.
Proof.
  destruct e; try done. simpl. intros Hb inventory b old Hi Ho. rewrite Hi in Hb.
  apply bool_decide_eq_true in Hb. congruence.
Qed.

(** Two peers end their header sync at the same time: both find the queue empty
    and walk the tree; the first fills the queue and takes the six blocks, the
    second then finds them in flight. Peer 0 delivers the blocks from the second
    to the last; of the first it is about to buffer what it has released. *)
Definition sync (i : nat) (n : nat) : list event := replicate n (ESection i).
Definition deliver (h : Z) : list event :=
  [EReceive 0 (BlockMsg (h, h - 2)) src; ESection 0; ESection 0].
Definition script : list event :=
  [EConnect 0; EConnect 1; EReceive 0 (Headers []) src; EReceive 1 (Headers []) src] ++
  sync 0 5 ++ sync 1 7 ++ sync 0 7 ++ sync 1 6 ++
  mjoin (deliver <$> [109; 111; 113; 115; 117]) ++
  [EReceive 0 (BlockMsg (107, 104)) src; ESection 0].
Definition checks (s : threads) (e : event) : bool := own_b s e && child_b s e.
Definition gap : threads := after checks script th0.
Definition take_now : list event := [ETake [107; 109; 111; 113; 115]].
Definition after_take : threads := after checks take_now gap.

Definition proper (s : threads) (e : event) : Prop := releases_own s e ∧ one_child s e.

Lemma checks_ok s e : checks s e = true → proper s e.
Proof. intros [Ho Hc]%andb_true_iff. split; [by apply own_b_ok|by apply child_b_ok]. Qed.

Lemma proper_own s e : proper s e → releases_own s e.
Proof. by intros []. Qed.

Lemma th0_none : no_threads th0.
Proof. done. Qed.

Lemma gap_run : truns proper th0 script gap.
Proof. apply texec_all_run; [apply checks_ok|]. vm_compute. reflexivity. Qed.

Lemma gap_take : tstep gap (ETake [107; 109; 111; 113; 115]) after_take.
Proof.
  apply (truns_one proper).
  apply texec_all_run; [apply checks_ok|]. vm_compute. reflexivity.
Qed.

(** The block thread comes at that moment: it finds nothing outstanding and takes
    the second block of the branch, whose parent is off the active chain and has
    not been given to the kernel; peer 0 has it. *)
Lemma early_take_witness :
  after_take.(in_hand) = Some (109, 107) ∧
  is_on_active_chain gap.(th_node).(chainman) 107 = false ∧
  (107 ∉ kblock_hash <$> gap.(handed)) ∧
  ∃ i inventory c, gap.(handlers) !! i = Some (BufferBlock inventory c) ∧ block_hash c = 107.
Proof.
  assert (after_take.(in_hand) = Some (109, 107)) as Hhand by (vm_compute; reflexivity).
  assert (is_on_active_chain gap.(th_node).(chainman) 107 = false) as Hoff by (vm_compute; reflexivity).
  assert (107 ∉ kblock_hash <$> gap.(handed)) as Hnew.
  { apply (bool_decide_unpack _). vm_compute. reflexivity. }
  assert (∃ i ph, gap.(handlers) !! i = Some ph ∧ 107 ∈ carried ph) as Hcarry.
  { exists 0%nat. destruct (gap.(handlers) !! 0%nat) as [ph|] eqn:Hi.
    - exists ph. split; [done|]. assert (carried <$> Some ph = Some {[107]}) as [= ->].
      { rewrite <- Hi. vm_compute. reflexivity. }
      by apply elem_of_singleton.
    - exfalso. assert (carried <$> (gap.(handlers) !! 0%nat) = Some {[107]}) as Hc
        by (vm_compute; reflexivity).
      by rewrite Hi in Hc. }
  split; [exact Hhand|]. split; [exact Hoff|]. split; [exact Hnew|].
  destruct (early_take proper th0 script gap [107; 109; 111; 113; 115] after_take (109, 107)
    th0_none gap_run gap_take Hhand) as (p & Hp & Hcase).
  assert (p = 107) as ->.
  { apply elem_of_map_to_list in Hp.
    assert (Forall (λ x, x.2.1 = 109 → x.1 = 107) (map_to_list gap.(th_node).(download).(buffer))) as Hb.
    { apply (bool_decide_unpack _). vm_compute. reflexivity. }
    rewrite Forall_forall in Hb. exact (Hb _ Hp eq_refl). }
  destruct Hcase as [Hc|(_ & _ & _ & Hs & _)]; [rewrite Hoff in Hc; discriminate Hc|].
  destruct (Hs (or_intror (or_introl Hcarry))) as [Hk|Hk]; [destruct (Hnew Hk)|exact Hk].
Defined.

Lemma interleaved_requests_witness : all_owed gap ∧ owed_once gap.
Proof.
  destruct (interleaved_requests proper th0 script gap th0_none gap_run) as [Ha Ho].
  split; [exact Ha|exact (Ho proper_own)].
Defined.

(** A block asked for at the start of the run is still in sight. *)
Definition asked : threads := after checks (take 23 script) th0.
Definition delivered : threads := after child_b (drop 23 script) asked.

Lemma interleaved_no_loss_witness : in_sight asked 107 ∧ in_sight delivered 107.
Proof.
  assert (in_sight asked 107) as Hin.
  { left. apply (bool_decide_unpack _). vm_compute. reflexivity. }
  split; [exact Hin|].
  apply (interleaved_no_loss asked (drop 23 script) delivered 107); [|exact Hin].
  apply texec_all_run; [apply child_b_ok|]. vm_compute. reflexivity.
Defined.

Definition last_block : NetworkMessage := BlockMsg (109, 107).

Lemma sections_witness :
  let x := dispatch (AwaitingBlock {[109]}) last_block src ns0 in
  finish 4 x.1 x.2 = process_message quiet (AwaitingBlock {[109]}) last_block src ns0.
Proof. exact (sections_are_handler 4 (AwaitingBlock {[109]}) last_block src ns0 (Z.le_refl 4)). Defined.

(** A peer that waits for announcements is told of a block the kernel accepts;
    before it claims it, another node state appears in which the block is in
    flight already. *)
Definition ns_taken : NodeState Chainman KBlock :=
  mk_node (Some []) mgr (mk_download [] {[119]} ∅).

(** The sections of a thread, each on the next of the given nodes. *)
Fixpoint sections_on (nodes : list (NodeState Chainman KBlock)) (ph : phase) : option phase :=
  match nodes with
  | [] => Some ph
  | ns :: nodes =>
      if returned ph then None else
      match section ph ns with Ok (ph, _) => sections_on nodes ph | _ => None end
  end.

Lemma sections_on_own nodes ph ph' :
  sections_on nodes ph = Some ph' → own_sections ph (length nodes) ph'.
Proof.
  revert ph. induction nodes as [|ns nodes IH]; intros ph; simpl; [intros [= ->]; constructor|].
  destruct (returned ph) eqn:Hr; [done|]. destruct (section ph ns) as [[ph1 ns1]| |] eqn:Hs; try done.
  intros Ho. by eapply own_more; [..|apply IH].
Qed.

Definition announcement : NetworkMessage := Headers [(119, 117)].
Definition seen : list (NodeState Chainman KBlock) := [ns0; ns0; ns_taken].

Lemma interleaved_handler_witness :
  ∃ sm msgs, sections_on seen (dispatch AwaitingInv announcement src ns0).1 = Some (Replied sm msgs) ∧
    transition AwaitingInv announcement sm msgs ∧ sm = AwaitingInv.
Proof.
  assert ((λ ph, (returned ph, match ph with Replied AwaitingInv _ => true | _ => false end)) <$>
    sections_on seen (dispatch AwaitingInv announcement src ns0).1 = Some (true, true)) as Hb
    by (vm_compute; reflexivity).
  destruct (sections_on _ _) as [ph|] eqn:Hs; [|discriminate Hb].
  destruct (interleaved_handler_refines AwaitingInv announcement src ns0 3 ph
    (sections_on_own _ _ _ Hs)) as [_ Ht].
  destruct ph as [sm msgs| | | | | | | | | | | |]; try discriminate Hb.
  exists sm, msgs. split; [reflexivity|]. split; [exact Ht|]. destruct sm; try discriminate Hb. reflexivity.
Defined.
End Witness.
