(* ===== verification/Handshake.v ===== *)
(** * Version negotiation (crates/p2p/src/handshake.rs)

    The connection configuration, the answer to a peer's version message and
    the negotiation up to the verack. [command], the name of a message, is the
    [bitcoin] crate's. *)

From Corelib Require Import SpecFloat.
From S2P Require Import Prelude Addr Messages.

(** ** Floating point seconds

    [Duration::as_secs_f64] is the double [secs + nanos / 1e9], and [as i64]
    truncates and saturates. *)

Definition f64_of_Z (z : Z) : spec_float := binary_normalize 53 1024 z 0 false.
Definition as_secs_f64 (d : Duration) : spec_float :=
  SFadd 53 1024 (f64_of_Z (d / NANOS))
    (SFdiv 53 1024 (f64_of_Z (d mod NANOS)) (f64_of_Z NANOS)).
Definition f64_as_i64 (x : spec_float) : Z :=
  let clamp z := Z.max (- 2 ^ 63) (Z.min z (2 ^ 63 - 1)) in
  match x with
  | S754_zero _ | S754_nan => 0
  | S754_infinity s => if s then - 2 ^ 63 else 2 ^ 63 - 1
  | S754_finite s m e =>
      let a := if decide (0 ≤ e) then Z.pos m * 2 ^ e else Z.pos m / 2 ^ (- e) in
      clamp (if s then - a else a)
  end.

(** ** Configuration *)

Definition WTXID_RELAY_VERSION : Z := 70016.
Definition SENDHEADERS_VERSION : Z := 70012.
Definition MIN_PEER_PROTO_VERSION : Z := 31800.

(** [bitcoin::Network]. *)
Inductive Network := Bitcoin_ | Testnet | Testnet4 | Signet | Regtest.
#[global] Instance Network_eq_dec : EqDecision Network.
Proof. solve_decision. Defined.

(** [ServiceFlags] are the bits of a [u64]; [has] tests a subset. *)
Definition SERVICE_NONE : Z := 0.
Definition SERVICE_NETWORK : Z := 1.
Definition SERVICE_WITNESS : Z := 8.
Definition has (flags required : Z) : bool := bool_decide (Z.land flags required = required).

Definition useless_address : Address := mk_address SERVICE_NONE (V4 [127; 0; 0; 1]) 1.

Record FeelerData := mk_feeler {
  effective_version : Z;
  services : Z;
  net_time_difference : Z;
  reported_height : Z;
  feeler_nonce : Z;
}.

Record Preferences := mk_preferences {
  sendheaders : bool;
  sendaddrv2 : bool;
  sendcmpct : SendCmpct;
  sendwtxid : bool;
}.
(** [Preferences::new] and [default]. *)
Definition preferences_new : Preferences := mk_preferences false false (mk_send_cmpct false 0) false.

Record ConnectionConfig := mk_config {
  our_version : Z;
  our_services : Z;
  expected_version : Z;
  expected_services : Z;
  our_send_cmpct : SendCmpct;
  our_user_agent : string;
  our_height : Z;
  fee_filter : Z;
  network : Network;
  request_addr : bool;
}.

Definition config_new : ConnectionConfig :=
  {| our_version := WTXID_RELAY_VERSION;
     our_services := SERVICE_NONE;
     expected_version := WTXID_RELAY_VERSION;
     expected_services := SERVICE_NONE;
     our_send_cmpct := mk_send_cmpct false 0;
     our_user_agent := "/bitcoin-p2p:0.1.0/";
     our_height := 0;
     fee_filter := 0;
     network := Bitcoin_;
     request_addr := false |}.

(** The builder methods. *)
Definition change_network (n : Network) (c : ConnectionConfig) : ConnectionConfig :=
  mk_config c.(our_version) c.(our_services) c.(expected_version) c.(expected_services)
    c.(our_send_cmpct) c.(our_user_agent) c.(our_height) c.(fee_filter) n c.(request_addr).
Definition set_request_addr (c : ConnectionConfig) : ConnectionConfig :=
  mk_config c.(our_version) c.(our_services) c.(expected_version) c.(expected_services)
    c.(our_send_cmpct) c.(our_user_agent) c.(our_height) c.(fee_filter) c.(network) true.
Definition decrease_version_requirement (v : Z) (c : ConnectionConfig) : ConnectionConfig :=
  mk_config c.(our_version) c.(our_services) v c.(expected_services)
    c.(our_send_cmpct) c.(our_user_agent) c.(our_height) c.(fee_filter) c.(network) c.(request_addr).
Definition set_service_requirement (f : Z) (c : ConnectionConfig) : ConnectionConfig :=
  mk_config c.(our_version) c.(our_services) c.(expected_version) f
    c.(our_send_cmpct) c.(our_user_agent) c.(our_height) c.(fee_filter) c.(network) c.(request_addr).
Definition offer_services (f : Z) (c : ConnectionConfig) : ConnectionConfig :=
  mk_config c.(our_version) f c.(expected_version) c.(expected_services)
    c.(our_send_cmpct) c.(our_user_agent) c.(our_height) c.(fee_filter) c.(network) c.(request_addr).
Definition set_user_agent (a : string) (c : ConnectionConfig) : ConnectionConfig :=
  mk_config c.(our_version) c.(our_services) c.(expected_version) c.(expected_services)
    c.(our_send_cmpct) a c.(our_height) c.(fee_filter) c.(network) c.(request_addr).
Definition set_send_cmpct (s : SendCmpct) (c : ConnectionConfig) : ConnectionConfig :=
  mk_config c.(our_version) c.(our_services) c.(expected_version) c.(expected_services)
    s c.(our_user_agent) c.(our_height) c.(fee_filter) c.(network) c.(request_addr).
Definition set_our_height (h : Z) (c : ConnectionConfig) : ConnectionConfig :=
  mk_config c.(our_version) c.(our_services) c.(expected_version) c.(expected_services)
    c.(our_send_cmpct) c.(our_user_agent) h c.(fee_filter) c.(network) c.(request_addr).
Definition set_fee_filter (f : Z) (c : ConnectionConfig) : ConnectionConfig :=
  mk_config c.(our_version) c.(our_services) c.(expected_version) c.(expected_services)
    c.(our_send_cmpct) c.(our_user_agent) c.(our_height) f c.(network) c.(request_addr).

(** The configuration of a node's peer ([BitcoinPeer::new], src/net/peer.rs). *)
Definition peer_config (n : Network) (h : Z) : ConnectionConfig :=
  set_user_agent "/kernel-node:0.1.0/" (offer_services SERVICE_WITNESS
    (set_service_requirement SERVICE_NETWORK (set_request_addr
      (set_our_height h (change_network n config_new))))).

Inductive handshake_error :=
| IrrelevantMessage (command : string)
| ConnectionToSelf
| TooLowVersion (v : Z)
| MissingService (s : Z).

Record InitializedHandshake := mk_initialized {
  ih_feeler : FeelerData;
  ih_preferences : Preferences;
  ih_fee_filter : Z;
  ih_send_cmpct : SendCmpct;
  ih_request_addr : bool;
}.

Record CompletedHandshake := mk_completed {
  ch_feeler : FeelerData;
  ch_preferences : Preferences;
}.

Section Handshake.
Context `{Bitcoin} (command : NetworkMessage → string).

(** [unix_time.as_secs() as i64]. *)
Definition build_our_version (c : ConnectionConfig) (unix_time : Duration) (n : Z)
    : VersionMessage :=
  {| version := c.(our_version);
     version_services := c.(our_services);
     timestamp := wrap_i 64 (as_secs unix_time);
     receiver := useless_address;
     sender := useless_address;
     nonce := n;
     user_agent := c.(our_user_agent);
     start_height := c.(our_height);
     relay := false |}.

(** The subtraction of the times is an [i64] one, wrapping in a release build. *)
Definition start_handshake (c : ConnectionConfig) (unix_time : Duration)
    (network_message : NetworkMessage) (n : Z)
    : outcome handshake_error (InitializedHandshake * list NetworkMessage) :=
  match network_message with
  | Version v =>
      if decide (v.(nonce) = n) then Err ConnectionToSelf else
      if decide (v.(version) < c.(expected_version) ∨ v.(version) < MIN_PEER_PROTO_VERSION)
      then Err (TooLowVersion v.(version)) else
      if negb (has v.(version_services) c.(expected_services))
      then Err (MissingService v.(version_services)) else
      let effective := Z.min c.(our_version) v.(version) in
      let suggested :=
        (if decide (WTXID_RELAY_VERSION ≤ effective) then [WtxidRelay] else []) ++
        (if decide (70016 ≤ effective) then [SendAddrV2] else []) ++
        (if decide (SENDHEADERS_VERSION ≤ effective) then [SendHeaders] else []) in
      let feeler :=
        {| effective_version := effective;
           services := v.(version_services);
           net_time_difference := wrap_i 64 (f64_as_i64 (as_secs_f64 unix_time) - v.(timestamp));
           reported_height := v.(start_height);
           feeler_nonce := n |} in
      Ok ({| ih_feeler := feeler;
             ih_preferences := preferences_new;
             ih_fee_filter := c.(fee_filter);
             ih_send_cmpct := c.(our_send_cmpct);
             ih_request_addr := c.(request_addr) |}, suggested)
  | e => Err (IrrelevantMessage (command e))
  end.

Definition with_preferences (h : InitializedHandshake) (p : Preferences) : InitializedHandshake :=
  mk_initialized h.(ih_feeler) p h.(ih_fee_filter) h.(ih_send_cmpct) h.(ih_request_addr).

(** The result and the handshake it leaves. *)
Definition negotiate (h : InitializedHandshake) (message : NetworkMessage)
    : outcome handshake_error (option (CompletedHandshake * list NetworkMessage))
      * InitializedHandshake :=
  let p := h.(ih_preferences) in
  match message with
  | Verack =>
      let messages := [Verack; SendCmpctMsg h.(ih_send_cmpct); FeeFilter h.(ih_fee_filter)] in
      let messages := if h.(ih_request_addr) then messages ++ [GetAddr] else messages in
      (Ok (Some (mk_completed h.(ih_feeler) p, messages)), h)
  | WtxidRelay =>
      (Ok None, with_preferences h (mk_preferences p.(sendheaders) p.(sendaddrv2) p.(sendcmpct) true))
  | SendAddrV2 =>
      (Ok None, with_preferences h (mk_preferences p.(sendheaders) true p.(sendcmpct) p.(sendwtxid)))
  | SendCmpctMsg cmpct =>
      (Ok None, with_preferences h (mk_preferences p.(sendheaders) p.(sendaddrv2) cmpct p.(sendwtxid)))
  | SendHeaders =>
      (Ok None, with_preferences h (mk_preferences true p.(sendaddrv2) p.(sendcmpct) p.(sendwtxid)))
  | e => (Err (IrrelevantMessage (command e)), h)
  end.
End Handshake.
