(* ===== verification/Connection.v ===== *)
(** * Connections (crates/p2p/src/net.rs, lib.rs)

    The v1 transport over a byte stream, the handshake over a connection, the
    reader's bookkeeping and the writer thread with its pings. Serialization of
    whole messages is the [bitcoin] crate's ([Wire]); the v1 header is parsed
    here as the source does. *)

From S2P Require Import Prelude Addr Messages Handshake.
From Corelib Require Import SpecFloat.

(** The consensus encoding of messages, and the names of commands. *)
Class Wire `{Bitcoin} := {
  DeserializeError : Type;
  (** [Network::magic], four bytes. *)
  magic_of : Network → list Z;
  command : NetworkMessage → string;
  (** Decoding of the twelve bytes of a [CommandString]. *)
  decode_command : list Z → outcome DeserializeError string;
  (** [serialize] and [deserialize] of a [RawNetworkMessage]. *)
  serialize_raw : list Z → NetworkMessage → list Z;
  (** Messages whose payload the 32-bit length field can describe. *)
  sendable : NetworkMessage → Prop;
  deserialize_raw : list Z → outcome DeserializeError NetworkMessage;
}.

(** The v1 framing: magic, command, payload length, checksum, payload. *)
Class WireLaws `{Wire} := {
  magic_len : ∀ n, length (magic_of n) = 4%nat;
  raw_layout : ∀ magic m, length magic = 4%nat → sendable m →
    ∃ cmd name sum payload,
      serialize_raw magic m =
        magic ++ cmd ++ to_le_bytes 4 (Z.of_nat (length payload)) ++ sum ++ payload ∧
      length cmd = 12%nat ∧ decode_command cmd = Ok name ∧ length sum = 4%nat ∧
      Z.of_nat (length payload) < 2 ^ 32;
  raw_roundtrip : ∀ magic m, length magic = 4%nat → sendable m →
    deserialize_raw (serialize_raw magic m) = Ok m;
  (** Decoding reports errors as values. *)
  decode_command_total : ∀ l, decode_command l ≠ Panic;
  deserialize_raw_total : ∀ l, deserialize_raw l ≠ Panic;
}.

(** ** The transport *)

Section Transport.
Context `{Wire}.

Inductive net_error :=
| Deserialize (e : DeserializeError)
| Io (e : io_error)
| HandshakeError (e : handshake_error)
| UnexpectedMagic (magic : list Z)
| MissingVersion
| ChannelClosed.

Record V1MessageHeader := mk_header {
  magic : list Z;
  header_command : string;
  payload_length : Z;
  checksum : list Z;
}.

(** [consensus_decode] of the header: its fields in order. *)
Definition deserialize_header (buf : list Z) : outcome DeserializeError V1MessageHeader :=
  cmd ← decode_command (slice 4 12 buf);
  Ok (mk_header (slice 0 4 buf) cmd (from_le_bytes (slice 16 4 buf)) (slice 20 4 buf)).

(** [ReadTransport::read_message]: the message and the rest of the stream. *)
Definition transport_read (expected : list Z) (stream : list Z)
    : outcome net_error (option NetworkMessage * list Z) :=
  '(message_buf, stream) ← map_err Io (read_exact 24 stream);
  header ← map_err Deserialize (deserialize_header message_buf);
  if decide (header.(magic) ≠ expected) then Err (UnexpectedMagic header.(magic)) else
  '(contents_buf, stream) ← map_err Io (read_exact (Z.to_nat header.(payload_length)) stream);
  message ← map_err Deserialize (deserialize_raw (message_buf ++ contents_buf));
  Ok (Some message, stream).

(** [WriteTransport::write_message]: the bytes handed to the stream. *)
Definition transport_write (m : list Z) (message : NetworkMessage) : list Z :=
  serialize_raw m message.
End Transport.

(** ** What a connection keeps *)

Inductive TimedMessage := BlockHeaders | CFilters | Block_ | Addr_ | TransactionAnnouncement.
#[global] Instance TimedMessage_eq_dec : EqDecision TimedMessage.
Proof. solve_decision. Defined.
Definition timed_index (t : TimedMessage) : nat :=
  match t with BlockHeaders => 0 | CFilters => 1 | Block_ => 2 | Addr_ => 3 | TransactionAnnouncement => 4 end.
Definition timed_of_index (n : nat) : option TimedMessage :=
  [BlockHeaders; CFilters; Block_; Addr_; TransactionAnnouncement] !! n.
#[global] Instance TimedMessage_countable : Countable TimedMessage.
Proof. apply (inj_countable timed_index timed_of_index). by intros []. Defined.

(** A count is a double that is a non-negative integer. Addition of two such
    doubles rounds the exact sum to 53 bits, ties to even. *)
Definition f64_round (n : Z) : Z :=
  if decide (n < 2 ^ 53) then n
  else
    let u := 2 ^ (Z.log2 n - 52) in
    let q := n / u in
    let r := n mod u in
    if decide (2 * r < u ∨ (2 * r = u ∧ Z.even q = true)) then q * u else (q + 1) * u.

Inductive MessageRate :=
| NoneReceived
| Ongoing (count : Z) (start : Duration).

Definition add_messages (num_messages : Z) (now : Duration) (r : MessageRate) : MessageRate :=
  if decide (num_messages = 0) then r
  else
    let n := Z.min num_messages (u_max 32) in
    match r with
    | NoneReceived => Ongoing n now
    | Ongoing count start => Ongoing (f64_round (count + n)) start
    end.

Definition add_single_message (now : Duration) (r : MessageRate) : MessageRate :=
  add_messages 1 now r.

(** [count as u32] saturates. *)
Definition total_count (r : MessageRate) : Z :=
  match r with NoneReceived => 0 | Ongoing count _ => Z.min count (u_max 32) end.

(** [duration_since] is zero for a later instant. *)
Definition messages_per_secs (now : Duration) (r : MessageRate) : option spec_float :=
  match r with
  | NoneReceived => None
  | Ongoing count start =>
      Some (SFdiv 53 1024 (f64_of_Z count) (as_secs_f64 (saturating_sub now start)))
  end.

Record TimedMessages := mk_timed {
  tracked : gmap TimedMessage MessageRate;
  last_block : Duration;
}.

Definition timed_new (now : Duration) : TimedMessages :=
  mk_timed (foldl (λ m k, <[k := NoneReceived]> m) ∅
    [BlockHeaders; CFilters; Block_; Addr_; TransactionAnnouncement]) now.

(** [get_mut] with [expect]. *)
Definition add_many (k : TimedMessage) (n : Z) (now : Duration) (t : TimedMessages)
    : outcome Empty_set TimedMessages :=
  val ← or_panic (t.(tracked) !! k);
  Ok (mk_timed (<[k := add_messages n now val]> t.(tracked)) t.(last_block)).

Definition add_single (k : TimedMessage) (now : Duration) (t : TimedMessages)
    : outcome Empty_set TimedMessages :=
  val ← or_panic (t.(tracked) !! k);
  Ok (mk_timed (<[k := add_single_message now val]> t.(tracked)) t.(last_block)).

Definition message_rate (k : TimedMessage) (t : TimedMessages) : outcome Empty_set MessageRate :=
  or_panic (t.(tracked) !! k).

Definition set_last_block (now : Duration) (t : TimedMessages) : TimedMessages :=
  mk_timed t.(tracked) now.

Inductive OutboundPing :=
| Waiting (nonce : Z) (since : Duration)
| LastReceived (at_ : Duration).

(** The state shared by the reader, the writer thread and the metrics. *)
Record ConnectionMetrics := mk_metrics {
  feeler : FeelerData;
  their_preferences : Preferences;
  timed_messages : TimedMessages;
  start_time : Duration;
  outbound_ping_state : OutboundPing;
}.

Definition connection_time (now : Duration) (c : ConnectionMetrics) : Duration :=
  saturating_sub now c.(start_time).
Definition stale_block (timeout now : Duration) (c : ConnectionMetrics) : bool :=
  bool_decide (timeout < saturating_sub now c.(timed_messages).(last_block)).
Definition ping_timed_out (timeout now : Duration) (c : ConnectionMetrics) : bool :=
  match c.(outbound_ping_state) with
  | Waiting _ since => bool_decide (timeout < saturating_sub now since)
  | LastReceived _ => false
  end.

Definition with_prefs (p : Preferences) (c : ConnectionMetrics) : ConnectionMetrics :=
  mk_metrics c.(feeler) p c.(timed_messages) c.(start_time) c.(outbound_ping_state).
Definition with_timed (t : TimedMessages) (c : ConnectionMetrics) : ConnectionMetrics :=
  mk_metrics c.(feeler) c.(their_preferences) t c.(start_time) c.(outbound_ping_state).
Definition with_ping (p : OutboundPing) (c : ConnectionMetrics) : ConnectionMetrics :=
  mk_metrics c.(feeler) c.(their_preferences) c.(timed_messages) c.(start_time) p.

(** ** The reader *)

Section Reader.
Context `{Wire}.

(** One entry of an inventory message. *)
Definition note_inventory (now : Duration) (t : TimedMessages) (i : Inventory)
    : outcome Empty_set TimedMessages :=
  match i with
  | InvWTx _ | InvWitnessTransaction _ | InvTransaction _ =>
      add_single TransactionAnnouncement now t
  | InvBlock _ | InvWitnessBlock _ | InvCompactBlock _ => Ok (set_last_block now t)
  | InvOther _ _ => Ok t
  end.

Fixpoint note_inventories (now : Duration) (t : TimedMessages) (l : list Inventory)
    : outcome Empty_set TimedMessages :=
  match l with
  | [] => Ok t
  | i :: l => t ← note_inventory now t i; note_inventories now t l
  end.

(** The bookkeeping of [ConnectionReader::read_message] for one message; [now]
    and [now'] are the readings of the clock. *)
Definition note_message (now now' : Duration) (m : NetworkMessage) (c : ConnectionMetrics)
    : outcome Empty_set ConnectionMetrics :=
  let p := c.(their_preferences) in
  let t := c.(timed_messages) in
  match m with
  | SendHeaders =>
      Ok (with_prefs (mk_preferences true p.(sendaddrv2) p.(sendcmpct) p.(sendwtxid)) c)
  | SendCmpctMsg cmpct =>
      Ok (with_prefs (mk_preferences p.(sendheaders) p.(sendaddrv2) cmpct p.(sendwtxid)) c)
  | BlockMsg _ => t ← add_single Block_ now t; Ok (with_timed t c)
  | Headers _ =>
      t ← add_single BlockHeaders now t; Ok (with_timed (set_last_block now' t) c)
  | CFilter _ => t ← add_single CFilters now t; Ok (with_timed t c)
  | AddrMsg l => t ← add_many Addr_ (Z.of_nat (length l)) now t; Ok (with_timed t c)
  | AddrV2Msg l => t ← add_many Addr_ (Z.of_nat (length l)) now t; Ok (with_timed t c)
  | Pong pong =>
      match c.(outbound_ping_state) with
      | Waiting n _ => Ok (if decide (pong = n) then with_ping (LastReceived now) c else c)
      | LastReceived _ => Ok c
      end
  | Inv payload => t ← note_inventories now t payload; Ok (with_timed t c)
  | _ => Ok c
  end.

(** [ConnectionReader::read_message] on the bytes still to come. *)
Definition read_message (expected : list Z) (now now' : Duration)
    (stream : list Z) (c : ConnectionMetrics)
    : outcome net_error (option NetworkMessage * list Z * ConnectionMetrics) :=
  '(message, stream) ← transport_read expected stream;
  match message with
  | Some m =>
      c ← map_err (λ e : Empty_set, match e with end) (note_message now now' m c);
      Ok (Some m, stream, c)
  | None => Ok (None, stream, c)
  end.
End Reader.

(** ** Opening a connection *)

Definition READ_TIMEOUT : Duration := from_secs 60.
Definition PING_INTERVAL : Duration := from_secs 30.
Definition TCP_TIMEOUT : Duration := from_secs 2.

Record TimeoutParams := mk_timeouts {
  read_to : option Duration;
  write_to : option Duration;
  tcp_to : Duration;
  ping_interval : Duration;
}.
(** [TimeoutParams::new] and [default]. *)
Definition timeouts_default : TimeoutParams :=
  mk_timeouts (Some READ_TIMEOUT) None TCP_TIMEOUT PING_INTERVAL.
Definition read_timeout (t : Duration) (p : TimeoutParams) : TimeoutParams :=
  mk_timeouts (Some t) p.(write_to) p.(tcp_to) p.(ping_interval).
Definition write_timeout (t : Duration) (p : TimeoutParams) : TimeoutParams :=
  mk_timeouts p.(read_to) (Some t) p.(tcp_to) p.(ping_interval).
Definition tcp_handshake_timeout (t : Duration) (p : TimeoutParams) : TimeoutParams :=
  mk_timeouts p.(read_to) p.(write_to) t p.(ping_interval).
Definition set_ping_interval (t : Duration) (p : TimeoutParams) : TimeoutParams :=
  mk_timeouts p.(read_to) p.(write_to) p.(tcp_to) t.

Section Open.
Context `{Wire}.

(** Messages written one after the other until the stream fails; [write] says
    whether writing a message fails. *)
Fixpoint write_each (write : NetworkMessage → option io_error) (ms : list NetworkMessage)
    : list NetworkMessage * outcome net_error unit :=
  match ms with
  | [] => ([], Ok ())
  | m :: ms =>
      match write m with
      | Some e => ([], Err (Io e))
      | None => let '(sent, r) := write_each write ms in (m :: sent, r)
      end
  end.

(** The negotiation loop: every round reads a message of at least 24 bytes, so
    the length of the stream bounds the rounds. [sent] is what was written
    before; [now] is the clock at the end of the handshake. *)
Fixpoint negotiation_loop (fuel : nat) (write : NetworkMessage → option io_error)
    (expected : list Z) (now : Duration) (h : InitializedHandshake)
    (stream : list Z) (sent : list NetworkMessage)
    : outcome net_error (ConnectionMetrics * list Z) * list NetworkMessage :=
  match fuel with
  | O => (Panic, sent)
  | S fuel =>
      match transport_read expected stream with
      | Err e => (Err e, sent)
      | Panic => (Panic, sent)
      | Ok (None, stream) => negotiation_loop fuel write expected now h stream sent
      | Ok (Some message, stream) =>
          match negotiate command h message with
          | (Err e, _) => (Err (HandshakeError e), sent)
          | (Panic, _) => (Panic, sent)
          | (Ok None, h) => negotiation_loop fuel write expected now h stream sent
          | (Ok (Some (completed, responses)), _) =>
              let '(more, r) := write_each write responses in
              (_ ← r;
               Ok (mk_metrics completed.(ch_feeler) completed.(ch_preferences)
                     (timed_new now) now (LastReceived now), stream),
               sent ++ more)
          end
      end
  end.

(** [ConnectionConfig::handshake] over the bytes [stream] the peer sends: the
    connection and the bytes left, or the error, with the messages written. *)
Definition handshake (c : ConnectionConfig) (write : NetworkMessage → option io_error)
    (unix_time now : Duration) (nonce : Z) (stream : list Z)
    : outcome net_error (ConnectionMetrics * list Z) * list NetworkMessage :=
  let ours := Version (build_our_version c unix_time nonce) in
  let expected := magic_of c.(network) in
  match write_each write [ours] with
  | (sent, Ok _) =>
      match transport_read expected stream with
      | Err e => (Err e, sent)
      | Panic => (Panic, sent)
      | Ok (None, _) => (Err MissingVersion, sent)
      | Ok (Some message, stream) =>
          match start_handshake command c unix_time message nonce with
          | Err e => (Err (HandshakeError e), sent)
          | Panic => (Panic, sent)
          | Ok (h, messages) =>
              match write_each write messages with
              | (more, Ok _) =>
                  negotiation_loop (S (length stream)) write expected now h stream (sent ++ more)
              | (more, Err e) => (Err e, sent ++ more)
              | (more, Panic) => (Panic, sent ++ more)
              end
          end
      end
  | (sent, Err e) => (Err e, sent)
  | (sent, Panic) => (Panic, sent)
  end.

(** ** Sockets *)

(** [set_read_timeout] and [set_write_timeout] refuse a timeout of zero, as does
    [connect_timeout]. *)
Definition set_timeout (t : option Duration) : outcome io_error unit :=
  match t with
  | Some d => if decide (d = 0) then Err InvalidInput else Ok ()
  | None => Ok ()
  end.
Definition set_timeouts (p : TimeoutParams) : outcome io_error unit :=
  _ ← set_timeout p.(read_to); set_timeout p.(write_to).

(** The handshake on a socket, or the error that kept it from opening. *)
Definition handshake_on (socket : outcome io_error (list Z)) (c : ConnectionConfig)
    (write : NetworkMessage → option io_error) (unix_time now : Duration) (nonce : Z)
    : outcome net_error (ConnectionMetrics * list Z) * list NetworkMessage :=
  match socket with
  | Ok stream => handshake c write unix_time now nonce stream
  | Err e => (Err (Io e), [])
  | Panic => (Panic, [])
  end.

(** [tcp]: the bytes the other end sends once connected, or why it is not. *)
Definition open_connection (c : ConnectionConfig) (p : TimeoutParams) (tcp : outcome io_error (list Z))
    (write : NetworkMessage → option io_error) (unix_time now : Duration) (nonce : Z)
    : outcome net_error (ConnectionMetrics * list Z) * list NetworkMessage :=
  handshake_on (_ ← set_timeout (Some p.(tcp_to)); stream ← tcp; _ ← set_timeouts p; Ok stream)
    c write unix_time now nonce.

(** [bind] fails or not; [accepted] is the stream of the first to connect. *)
Definition listen (c : ConnectionConfig) (p : TimeoutParams) (bind : outcome io_error unit)
    (accepted : outcome io_error (list Z)) (write : NetworkMessage → option io_error)
    (unix_time now : Duration) (nonce : Z)
    : outcome net_error (ConnectionMetrics * list Z) * list NetworkMessage :=
  handshake_on (_ ← bind; stream ← accepted; _ ← set_timeouts p; Ok stream) c write unix_time now nonce.

(** ** The writer thread *)

Inductive WriteRequest :=
| Shutdown
| SendMessage (m : NetworkMessage).

(** What [recv_timeout] returns. *)
Inductive received :=
| Request (r : WriteRequest)
| Timeout_
| Disconnected.

(** How an iteration of [maintain_connection] ends: go round again, return, or
    fail. *)
Inductive iteration :=
| Again
| Return
| Failed (e : io_error).

(** Who made a message: the owner of the connection, who asked for it to be sent,
    or the writer thread. *)
Inductive origin := OfOwner | OfThread.

(** The second half of an iteration, after the messages [written]: a new ping
    once the last one was answered longer than [interval] ago. [now] is the
    clock when the ping state is looked at, [now'] when the ping is written. *)
Definition ping_check (interval : Duration) (write : NetworkMessage → option io_error)
    (nonce : Z) (now now' : Duration) (ping : OutboundPing) (written : list (origin * NetworkMessage))
    : iteration * list (origin * NetworkMessage) * OutboundPing :=
  match ping with
  | LastReceived then_ =>
      if decide (interval < saturating_sub now then_) then
        match write (Ping nonce) with
        | Some e => (Failed e, written, ping)
        | None => (Again, written ++ [(OfThread, Ping nonce)], Waiting nonce now')
        end
      else (Again, written, ping)
  | Waiting _ _ => (Again, written, ping)
  end.

(** One iteration: what was received, whether writes and the shutdown of the
    socket fail, and a fresh nonce. The messages written and the ping state
    afterwards. *)
Definition writer_iteration (interval : Duration) (write : NetworkMessage → option io_error)
    (shutdown : option io_error) (r : received) (nonce : Z) (now now' : Duration)
    (ping : OutboundPing) : iteration * list (origin * NetworkMessage) * OutboundPing :=
  match r with
  | Request (SendMessage m) =>
      match write m with
      | Some e => (Failed e, [], ping)
      | None => ping_check interval write nonce now now' ping [(OfOwner, m)]
      end
  | Request Shutdown =>
      match shutdown with
      | Some e => (Failed e, [], ping)
      | None => ping_check interval write nonce now now' ping []
      end
  | Timeout_ => ping_check interval write nonce now now' ping []
  | Disconnected => (Return, [], ping)
  end.

(** What the joined writer thread ended with: its error, if it returned one. *)
Definition take_errors (joined : outcome io_error unit) : option io_error :=
  match joined with Err e => Some e | _ => None end.

(** [ConnectionWriter]: the channel to the thread, [None] once it has ended. *)
Definition send_message (m : NetworkMessage) (channel : option (list WriteRequest))
    : outcome net_error (list WriteRequest) :=
  match channel with
  | Some q => Ok (q ++ [SendMessage m])
  | None => Err ChannelClosed
  end.
Definition shutdown (channel : option (list WriteRequest))
    : outcome net_error (list WriteRequest) :=
  match channel with
  | Some q => Ok (q ++ [Shutdown])
  | None => Err ChannelClosed
  end.
End Open.

(** ** The transport, proved *)

Section TransportFacts.
Context `{WireLaws}.

(** Reading past a header: the magic decides, then the payload is read. *)
Lemma transport_read_header expected m cmd name n sum tail :
  length m = 4%nat → length cmd = 12%nat → decode_command cmd = Ok name → length sum = 4%nat →
  0 ≤ n < 2 ^ 32 →
  let hdr := m ++ cmd ++ to_le_bytes 4 n ++ sum in
  transport_read expected (hdr ++ tail) =
    if decide (m ≠ expected) then Err (UnexpectedMagic m) else
    '(contents_buf, stream) ← map_err Io (read_exact (Z.to_nat n) tail);
    message ← map_err Deserialize (deserialize_raw (hdr ++ contents_buf));
    Ok (Some message, stream).
Proof.
  intros Hm Hcmd Hname Hsum Hn hdr. set (len := to_le_bytes 4 n).
  assert (length len = 4%nat) as Hl4 by apply length_to_le_bytes.
  assert (length hdr = 24%nat) as Hh by (unfold hdr; rewrite !length_app; fold len; lia).
  unfold transport_read. rewrite (read_exact_app 24 hdr) by done. simpl_outcome.
  unfold deserialize_header.
  assert (slice 4 12 hdr = cmd) as -> by (by apply (slice_app_exact 4 m cmd (len ++ sum))).
  rewrite Hname. simpl_outcome. simpl.
  assert (slice 0 4 hdr = m) as -> by (by apply (slice_app_exact 0 [] m (cmd ++ len ++ sum))).
  assert (slice 16 4 hdr = len) as ->.
  { unfold hdr. rewrite (app_assoc m). apply (slice_app_exact 16 (m ++ cmd) len sum); [|done].
    rewrite length_app. lia. }
  unfold len. rewrite from_to_le_bytes by (unfold in_u; simpl; lia). done.
Qed.

Lemma transport_roundtrip m msg rest :
  length m = 4%nat → sendable msg →
  transport_read m (transport_write m msg ++ rest) = Ok (Some msg, rest).
Proof.
  intros Hm Hs. pose proof (raw_roundtrip m msg Hm Hs) as Hrt. unfold transport_write.
  destruct (raw_layout m msg Hm Hs) as (cmd & name & sum & payload & Heq & Hcmd & Hname & Hsum & Hlen).
  rewrite Heq, (app_assoc _ sum), (app_assoc cmd), (app_assoc m) in Hrt.
  rewrite Heq, (app_assoc _ sum), (app_assoc cmd), (app_assoc m), <- app_assoc.
  rewrite (transport_read_header _ m cmd name) by (done || lia).
  rewrite decide_False by naive_solver. rewrite Nat2Z.id, read_exact_app by done. simpl_outcome. by rewrite Hrt.
Qed.

Lemma transport_read_consumes m stream msg rest :
  transport_read m stream = Ok (msg, rest) → (length rest + 24 ≤ length stream)%nat ∧ is_Some msg.
Proof.
  unfold transport_read. unfold map_err.
  destruct (read_exact 24 stream) as [[buf s1]| |] eqn:Hr; simpl; [|done|done].
  apply read_exact_Ok in Hr as [-> Hlen].
  destruct (deserialize_header buf) as [hd| |]; simpl; [|done|done]. case_decide; [done|].
  destruct (read_exact _ s1) as [[buf2 s2]| |] eqn:Hr2; simpl; [|done|done].
  apply read_exact_Ok in Hr2 as [-> _].
  destruct (deserialize_raw _); simpl; [|done|done]. intros [= <- <-].
  rewrite !length_app. split; [lia|eauto].
Qed.

Lemma transport_read_total m stream : transport_read m stream ≠ Panic.
Proof.
  unfold transport_read, deserialize_header, map_err.
  destruct (read_exact 24 stream) as [[buf s1]| |] eqn:Hr; simpl; [|done|].
  2: { unfold read_exact in Hr. by case_decide. }
  pose proof (decode_command_total (slice 4 12 buf)) as Hc.
  destruct (decode_command _) as [cmd| |]; simpl; [|done|done]. case_decide; [done|].
  destruct (read_exact _ s1) as [[buf2 s2]| |] eqn:Hr2; simpl; [|done|].
  2: { unfold read_exact in Hr2. by case_decide. }
  pose proof (deserialize_raw_total (buf ++ buf2)) as Hd.
  by destruct (deserialize_raw _).
Qed.
End TransportFacts.

(** ** The handshake, proved *)

Section HandshakeFacts.
Context `{WireLaws}.

(** The messages at the head of a stream, and what follows them. *)
Inductive reads (m : list Z) : list Z → list NetworkMessage → list Z → Prop :=
| reads_nil s : reads m s [] s
| reads_cons s msg s1 ms rest :
    transport_read m s = Ok (Some msg, s1) → reads m s1 ms rest → reads m s (msg :: ms) rest.

Lemma reads_written m msgs rest :
  length m = 4%nat → Forall sendable msgs →
  reads m (concat (transport_write m <$> msgs) ++ rest) msgs rest.
Proof.
  intros Hm. induction 1 as [|msg msgs Hs _ IH]; simpl; [constructor|].
  econstructor; [|exact IH]. rewrite <- app_assoc. by apply transport_roundtrip.
Qed.

(** The peer's preferences, as the messages before its verack set them. *)
Definition is_preference (m : NetworkMessage) : bool :=
  match m with WtxidRelay | SendAddrV2 | SendCmpctMsg _ | SendHeaders => true | _ => false end.
Definition apply_preference (p : Preferences) (m : NetworkMessage) : Preferences :=
  match m with
  | WtxidRelay => mk_preferences p.(sendheaders) p.(sendaddrv2) p.(sendcmpct) true
  | SendAddrV2 => mk_preferences p.(sendheaders) true p.(sendcmpct) p.(sendwtxid)
  | SendCmpctMsg c => mk_preferences p.(sendheaders) p.(sendaddrv2) c p.(sendwtxid)
  | SendHeaders => mk_preferences true p.(sendaddrv2) p.(sendcmpct) p.(sendwtxid)
  | _ => p
  end.

(** Our last messages of a handshake. *)
Definition responses (cmpct : SendCmpct) (fee : Z) (ask : bool) : list NetworkMessage :=
  [Verack; SendCmpctMsg cmpct; FeeFilter fee] ++ (if ask then [GetAddr] else []).

Lemma negotiate_preference h m :
  is_preference m = true →
  negotiate command h m = (Ok None, with_preferences h (apply_preference h.(ih_preferences) m)).
Proof. by destruct m. Qed.

Lemma negotiate_cases h m :
  (is_preference m = true ∧
     negotiate command h m = (Ok None, with_preferences h (apply_preference h.(ih_preferences) m))) ∨
  (m = Verack ∧ negotiate command h m =
     (Ok (Some (mk_completed h.(ih_feeler) h.(ih_preferences),
                responses h.(ih_send_cmpct) h.(ih_fee_filter) h.(ih_request_addr))), h)) ∨
  (∃ e, negotiate command h m = (Err e, h)).
Proof.
  destruct m; simpl; eauto. right. left. split; [done|].
  unfold responses. by destruct (ih_request_addr h).
Qed.

Lemma write_each_spec write ms :
  match write_each write ms with
  | (sent, Ok _) => sent = ms
  | (sent, Err _) => sent `prefix_of` ms
  | (_, Panic) => False
  end.
Proof.
  induction ms as [|m ms IH]; simpl; [done|]. destruct (write m); [apply prefix_nil|].
  destruct (write_each write ms) as [sent []]; [by subst|by apply prefix_cons|done].
Qed.

Lemma write_each_all write ms : (∀ m, write m = None) → write_each write ms = (ms, Ok ()).
Proof. intros Hw. induction ms as [|m ms IH]; simpl; [done|]. by rewrite Hw, IH. Qed.

(** What the loop makes of a handshake after the preferences [ps]. *)
Definition completed_as (h : InitializedHandshake) (ps : list NetworkMessage) (now : Duration)
    : ConnectionMetrics :=
  mk_metrics h.(ih_feeler) (foldl apply_preference h.(ih_preferences) ps)
    (timed_new now) now (LastReceived now).

Lemma negotiation_loop_sound fuel write m now h s sent conn rest sent' :
  negotiation_loop fuel write m now h s sent = (Ok (conn, rest), sent') →
  ∃ ps, reads m s (ps ++ [Verack]) rest ∧ Forall (λ p, is_preference p = true) ps ∧
    conn = completed_as h ps now ∧
    sent' = sent ++ responses h.(ih_send_cmpct) h.(ih_fee_filter) h.(ih_request_addr).
Proof.
  revert h s. induction fuel as [|fuel IH]; intros h s; [done|]. cbn [negotiation_loop].
  destruct (transport_read m s) as [[[msg|] s1]| |] eqn:Hr; try done.
  2: { apply transport_read_consumes in Hr as [_ [? ?]]. done. }
  destruct (negotiate_cases h msg) as [(Hp & ->)|[(-> & ->)|(e & ->)]]; [| |done].
  - intros (ps & Hreads & Hps & -> & ->)%IH. exists (msg :: ps).
    split_and!; [by econstructor|by constructor|done|done].
  - pose proof (write_each_spec write
      (responses h.(ih_send_cmpct) h.(ih_fee_filter) h.(ih_request_addr))) as Hw.
    destruct (write_each _ _) as [more [u| |]]; simpl; try done. subst more.
    intros [= <- <- <-]. exists []. split_and!; [|done|done|done].
    econstructor; [done|constructor].
Qed.

Lemma negotiation_loop_complete fuel write m now h s sent ps rest :
  (∀ msg, write msg = None) → (length s < fuel)%nat →
  reads m s (ps ++ [Verack]) rest → Forall (λ p, is_preference p = true) ps →
  negotiation_loop fuel write m now h s sent =
    (Ok (completed_as h ps now, rest),
     sent ++ responses h.(ih_send_cmpct) h.(ih_fee_filter) h.(ih_request_addr)).
Proof.
  intros Hw. revert h s fuel. induction ps as [|p ps IH]; intros h s fuel Hf Hreads Hps;
    (destruct fuel as [|fuel]; [lia|]); cbn [negotiation_loop];
    inversion Hreads as [|? ? s1 ? ? Hr Hrest]; subst; rewrite Hr.
  - destruct (negotiate_cases h Verack) as [(Hp & _)|[(_ & ->)|(e & ?)]]; [done| |done].
    rewrite write_each_all by done. simpl_outcome.
    inversion Hrest; subst. done.
  - apply Forall_cons in Hps as [Hp Hps]. rewrite negotiate_preference by done.
    pose proof (transport_read_consumes _ _ _ _ Hr) as [Hlen _].
    rewrite (IH _ s1 fuel) by (done || lia). done.
Qed.

Lemma negotiation_loop_total fuel write m now h s sent :
  (length s < fuel)%nat → (negotiation_loop fuel write m now h s sent).1 ≠ Panic.
Proof.
  revert h s. induction fuel as [|fuel IH]; intros h s Hf; [lia|]. cbn [negotiation_loop].
  pose proof (transport_read_total m s) as Ht.
  destruct (transport_read m s) as [[[msg|] s1]| |] eqn:Hr; try done.
  2: { apply transport_read_consumes in Hr as [_ [? ?]]. done. }
  apply transport_read_consumes in Hr as [Hlen _].
  destruct (negotiate_cases h msg) as [(Hp & ->)|[(-> & ->)|(e & ->)]]; [|  |done].
  - apply IH. lia.
  - match goal with |- context [write_each ?w ?l] => pose proof (write_each_spec w l) as Hw;
      destruct (write_each w l) as [more [u| |]]; done end.
Qed.

(** The requirements a peer's version message must meet. *)
Definition acceptable (c : ConnectionConfig) (nonce0 : Z) (v : VersionMessage) : Prop :=
  v.(nonce) ≠ nonce0 ∧ c.(expected_version) ≤ v.(version) ∧
  MIN_PEER_PROTO_VERSION ≤ v.(version) ∧ has v.(version_services) c.(expected_services) = true.

(** The features announced before the verack. *)
Definition announcements (effective : Z) : list NetworkMessage :=
  (if decide (70016 ≤ effective) then [WtxidRelay; SendAddrV2] else []) ++
  (if decide (70012 ≤ effective) then [SendHeaders] else []).

Definition feeler_for (c : ConnectionConfig) (unix_time : Duration) (nonce0 : Z) (v : VersionMessage)
    : FeelerData :=
  mk_feeler (Z.min c.(our_version) v.(version)) v.(version_services)
    (wrap_i 64 (f64_as_i64 (as_secs_f64 unix_time) - v.(timestamp))) v.(start_height) nonce0.

Lemma start_handshake_ok c t msg n h ms :
  start_handshake command c t msg n = Ok (h, ms) ↔
  ∃ v, msg = Version v ∧ acceptable c n v ∧
    h = mk_initialized (feeler_for c t n v) preferences_new c.(fee_filter)
          c.(our_send_cmpct) c.(request_addr) ∧
    ms = announcements (Z.min c.(our_version) v.(version)).
Proof.
  unfold acceptable. split.
  - destruct msg as [v| | | | | | | | | | | | | | | | | | | | | | | |]; try done. simpl.
    case_decide; [done|]. case_decide; [done|].
    destruct (has _ _) eqn:Hs; simpl; [|done]. intros [= <- <-].
    exists v. split_and!; try done; try lia.
    unfold announcements, WTXID_RELAY_VERSION, SENDHEADERS_VERSION.
    by repeat case_decide.
  - intros (v & -> & (Hn & Hv & Hm & Hs) & -> & ->). simpl.
    rewrite decide_False by done. rewrite decide_False by lia. rewrite Hs. simpl.
    unfold announcements, WTXID_RELAY_VERSION, SENDHEADERS_VERSION, feeler_for.
    do 2 f_equal. by repeat case_decide.
Qed.
End HandshakeFacts.

(** ** Message counts *)

Section Counts.

(** Batches of messages received, oldest first. *)
Definition count_all (ns : list (Z * Duration)) (r : MessageRate) : MessageRate :=
  foldl (λ r '(n, now), add_messages n now r) r ns.

(** The sum of the batch sizes, each capped as [try_into().unwrap_or(u32::MAX)] does. *)
Definition capped_sum (ns : list (Z * Duration)) : Z :=
  foldr (λ '(n, _) s, Z.min n (u_max 32) + s) 0 ns.

Definition count_of (r : MessageRate) : Z :=
  match r with NoneReceived => 0 | Ongoing count _ => count end.

Lemma f64_round_exact n : n < 2 ^ 53 → f64_round n = n.
Proof. intros. unfold f64_round. by rewrite decide_True. Qed.

Lemma capped_sum_nonneg ns : Forall (λ '(n, _), 0 ≤ n) ns → 0 ≤ capped_sum ns.
Proof.
  induction 1 as [|[n now] ns Hn _ IH]; [cbn; lia|].
  change (capped_sum ((n, now) :: ns)) with (Z.min n (u_max 32) + capped_sum ns).
  assert (0 ≤ u_max 32) by (by vm_compute). lia.
Qed.

Lemma count_add n now r :
  0 ≤ n → count_of r + Z.min n (u_max 32) < 2 ^ 53 →
  count_of (add_messages n now r) = count_of r + Z.min n (u_max 32).
Proof.
  intros Hn Hb. unfold add_messages. case_decide as Hz.
  - subst n. rewrite Z.min_l by (by vm_compute). lia.
  - destruct r; simpl in *; [lia|]. by apply f64_round_exact.
Qed.

Lemma count_all_exact ns r :
  Forall (λ '(n, _), 0 ≤ n) ns → 0 ≤ count_of r → count_of r + capped_sum ns < 2 ^ 53 →
  count_of (count_all ns r) = count_of r + capped_sum ns.
Proof.
  revert r. induction ns as [|[n now] ns IH]; intros r Hall Hr Hb; [cbn; lia|].
  apply Forall_cons in Hall as [Hn Hall]. pose proof (capped_sum_nonneg ns Hall).
  change (capped_sum ((n, now) :: ns)) with (Z.min n (u_max 32) + capped_sum ns) in *.
  change (count_all ((n, now) :: ns) r) with (count_all ns (add_messages n now r)).
  assert (0 ≤ u_max 32) by (by vm_compute).
  rewrite IH; rewrite ?count_add by lia; (done || lia).
Qed.
End Counts.

(** ** A connection at work *)

Section Life.
Context `{WireLaws}.

(** Every kind of timed message has its counter. *)
Definition timed_ok (t : TimedMessages) : Prop := ∀ k, is_Some (t.(tracked) !! k).

Lemma timed_new_ok now : timed_ok (timed_new now).
Proof. intros []; by eexists. Qed.

Lemma add_many_ok k n now t : timed_ok t → ∃ t', add_many k n now t = Ok t' ∧ timed_ok t'.
Proof.
  intros Ht. unfold add_many. destruct (Ht k) as [v ->]. simpl_outcome. eexists. split; [done|].
  intros k'. simpl. destruct (decide (k = k')) as [->|Hne].
  - rewrite lookup_insert_eq. eauto.
  - by rewrite lookup_insert_ne.
Qed.

Lemma add_single_ok k now t : timed_ok t → ∃ t', add_single k now t = Ok t' ∧ timed_ok t'.
Proof. apply (add_many_ok k 1). Qed.

Lemma note_inventories_ok now t l :
  timed_ok t → ∃ t', note_inventories now t l = Ok t' ∧ timed_ok t'.
Proof.
  revert t. induction l as [|i l IH]; intros t Ht; simpl; [eauto|].
  assert (∃ t', note_inventory now t i = Ok t' ∧ timed_ok t') as (t' & -> & Ht').
  { destruct i; simpl; eauto using add_single_ok. }
  simpl_outcome. by apply IH.
Qed.

(** The ping state after a message: only the pong it waits for changes it. *)
Definition ping_after (now : Duration) (m : NetworkMessage) (p : OutboundPing) : OutboundPing :=
  match m, p with
  | Pong k, Waiting n _ => if decide (k = n) then LastReceived now else p
  | _, _ => p
  end.

Lemma note_message_ok now now' m c :
  timed_ok c.(timed_messages) →
  ∃ c', note_message now now' m c = Ok c' ∧ timed_ok c'.(timed_messages) ∧
    c'.(outbound_ping_state) = ping_after now m c.(outbound_ping_state).
Proof.
  intros Ht. destruct m as [v| | | | |cm|r| |n|n|hs|b|inv|inv|lo|lo|l|l|pl| |pl|pl| |tx|cd pl];
    try (eexists; split_and!; [reflexivity|exact Ht|done]); simpl.
  - destruct (outbound_ping_state c) eqn:Hp; eexists; (split; [done|]).
    + case_decide; simpl; by rewrite ?Hp.
    + by rewrite Hp.
  - destruct (add_single_ok BlockHeaders now _ Ht) as (t' & -> & Ht'). by eexists.
  - destruct (add_single_ok Block_ now _ Ht) as (t' & -> & Ht'). by eexists.
  - destruct (note_inventories_ok now _ inv Ht) as (t' & -> & Ht'). by eexists.
  - destruct (add_many_ok Addr_ (Z.of_nat (length l)) now _ Ht) as (t' & -> & Ht'). by eexists.
  - destruct (add_many_ok Addr_ (Z.of_nat (length l)) now _ Ht) as (t' & -> & Ht'). by eexists.
  - destruct (add_single_ok CFilters now _ Ht) as (t' & -> & Ht'). by eexists.
Qed.

(** What happens on an open connection: a turn of the writer thread, or a
    message read. *)
Inductive turn :=
| WriterTurn (write : NetworkMessage → option io_error) (shut : option io_error)
    (r : received) (nonce : Z) (now now' : Duration)
| ReaderTurn (m : NetworkMessage) (now now' : Duration).

(** The messages that crossed the connection, oldest first. *)
Inductive traffic :=
| Wrote (by_ : origin) (m : NetworkMessage) (at_time : Duration)
| Got (m : NetworkMessage) (at_time : Duration).

Record connection := mk_connection {
  metrics : ConnectionMetrics;
  writer_alive : bool;
  log : list traffic;
}.

Definition take_turn (interval : Duration) (t : turn) (s : connection)
    : outcome Empty_set connection :=
  match t with
  | WriterTurn write shut r nonce now now' =>
      if s.(writer_alive) then
        let '(it, written, p) :=
          writer_iteration interval write shut r nonce now now' s.(metrics).(outbound_ping_state) in
        Ok (mk_connection (with_ping p s.(metrics))
              (match it with Again => true | _ => false end)
              (s.(log) ++ ((λ '(o, m), Wrote o m now') <$> written)))
      else Ok s
  | ReaderTurn m now now' =>
      c ← note_message now now' m s.(metrics);
      Ok (mk_connection c s.(writer_alive) (s.(log) ++ [Got m now]))
  end.

Fixpoint take_turns (interval : Duration) (ts : list turn) (s : connection)
    : outcome Empty_set connection :=
  match ts with
  | [] => Ok s
  | t :: ts => s ← take_turn interval t s; take_turns interval ts s
  end.

(** The ping of the writer thread that the traffic leaves unanswered; one its owner
    asked for is a message like any other. *)
Definition answer (pending : option (Z * Duration)) (e : traffic) : option (Z * Duration) :=
  match e with
  | Wrote OfThread (Ping n) t => Some (n, t)
  | Got (Pong k) _ =>
      match pending with
      | Some (n, t) => if decide (k = n) then None else pending
      | None => None
      end
  | _ => pending
  end.
Definition unanswered (l : list traffic) : option (Z * Duration) := foldl answer None l.

(** No ping of the thread was written while another was unanswered. *)
Definition one_at_a_time (l : list traffic) : Prop :=
  ∀ pre n t post, l = pre ++ Wrote OfThread (Ping n) t :: post → unanswered pre = None.

Definition ping_view (p : OutboundPing) : option (Z * Duration) :=
  match p with Waiting n t => Some (n, t) | LastReceived _ => None end.

(** The invariant of a connection. *)
Definition pinging (s : connection) : Prop :=
  timed_ok s.(metrics).(timed_messages) ∧
  ping_view s.(metrics).(outbound_ping_state) = unanswered s.(log) ∧ one_at_a_time s.(log).

Lemma unanswered_app l k : unanswered (l ++ k) = foldl answer (unanswered l) k.
Proof. unfold unanswered. by rewrite foldl_app. Qed.

Lemma one_at_a_time_snoc l e :
  one_at_a_time l → (∀ n t, e = Wrote OfThread (Ping n) t → unanswered l = None) → one_at_a_time (l ++ [e]).
Proof.
  intros Hl He pre n t post Heq. destruct post as [|x post _] using rev_ind.
  - apply app_inj_tail in Heq as [-> ->]. eauto.
  - rewrite app_comm_cons, app_assoc in Heq. apply app_inj_tail in Heq as [-> _]. eauto.
Qed.

Lemma pinging_wrote s m t :
  pinging s → pinging (mk_connection s.(metrics) s.(writer_alive) (s.(log) ++ [Wrote OfOwner m t])).
Proof.
  intros (Ht & Hv & Ho). split_and!; simpl; [done| |].
  - by rewrite unanswered_app.
  - by apply one_at_a_time_snoc.
Qed.

Lemma pinging_ping s n t :
  unanswered s.(log) = None → pinging s →
  pinging (mk_connection (with_ping (Waiting n t) s.(metrics)) s.(writer_alive)
             (s.(log) ++ [Wrote OfThread (Ping n) t])).
Proof.
  intros Hn (Ht & Hv & Ho). split_and!; simpl; [done| |].
  - by rewrite unanswered_app.
  - by apply one_at_a_time_snoc.
Qed.

Lemma pinging_alive s b : pinging s → pinging (mk_connection s.(metrics) b s.(log)).
Proof. done. Qed.

Lemma with_ping_same (c : ConnectionMetrics) p : c.(outbound_ping_state) = p → with_ping p c = c.
Proof. intros <-. by destruct c. Qed.

(** A turn that ends in a state with traffic [l]. *)
Definition turn_ok (s : connection) (now' : Duration)
    (x : iteration * list (origin * NetworkMessage) * OutboundPing) : Prop :=
  let '(it, written, p) := x in
  pinging (mk_connection (with_ping p s.(metrics)) (match it with Again => true | _ => false end)
             (s.(log) ++ ((λ '(o, m), Wrote o m now') <$> written))).

Lemma ping_check_ok interval write nonce now now' s s1 written :
  pinging s1 → s1.(metrics) = s.(metrics) →
  s1.(log) = s.(log) ++ ((λ '(o, m), Wrote o m now') <$> written) →
  turn_ok s now' (ping_check interval write nonce now now' s.(metrics).(outbound_ping_state) written).
Proof.
  intros Hs1 Hm Hl.
  assert (∀ it, turn_ok s now' (it, written, s.(metrics).(outbound_ping_state))) as Hsame.
  { intros it. unfold turn_ok. rewrite with_ping_same by done. rewrite <- Hl, <- Hm.
    by apply pinging_alive. }
  unfold ping_check. destruct (outbound_ping_state (metrics s)) eqn:Hp; [apply Hsame|].
  case_decide; [|apply Hsame]. destruct (write (Ping nonce)); [apply Hsame|].
  unfold turn_ok. rewrite fmap_app, app_assoc, <- Hl, <- Hm.
  apply (pinging_alive (mk_connection _ s1.(writer_alive) _)).
  apply pinging_ping; [|done]. destruct Hs1 as (_ & Hv & _). rewrite <- Hv, Hm, Hp. done.
Qed.

Lemma writer_iteration_ok interval write shut r nonce now now' s :
  pinging s →
  turn_ok s now' (writer_iteration interval write shut r nonce now now'
                    s.(metrics).(outbound_ping_state)).
Proof.
  intros Hs.
  assert (∀ it, turn_ok s now' (it, [], s.(metrics).(outbound_ping_state))) as Hstop.
  { intros it. unfold turn_ok. rewrite with_ping_same by done. rewrite app_nil_r.
    by apply pinging_alive. }
  assert (turn_ok s now' (ping_check interval write nonce now now' s.(metrics).(outbound_ping_state) []))
    as Hidle.
  { apply (ping_check_ok _ _ _ _ _ s s); [done|done|]. simpl. by rewrite app_nil_r. }
  unfold writer_iteration. destruct r as [[|m]| |]; [destruct shut|destruct (write m)| |]; eauto.
  apply (ping_check_ok _ _ _ _ _ s
    (mk_connection s.(metrics) s.(writer_alive) (s.(log) ++ [Wrote OfOwner m now']))); try done.
  by apply pinging_wrote.
Qed.

Lemma take_turn_pinging interval t s :
  pinging s → ∃ s', take_turn interval t s = Ok s' ∧ pinging s'.
Proof.
  intros Hs. destruct t as [write shut r nonce now now'|m now now']; simpl.
  - destruct (writer_alive s); [|eauto].
    pose proof (writer_iteration_ok interval write shut r nonce now now' s Hs) as Hw.
    unfold turn_ok in Hw. destruct (writer_iteration _ _ _ _ _ _ _ _) as [[it written] p]. eauto.
  - destruct Hs as (Ht & Hv & Ho).
    destruct (note_message_ok now now' m s.(metrics) Ht) as (c & -> & Htc & Hp).
    simpl_outcome. eexists. split; [done|]. split_and!; simpl; [done| |].
    + rewrite unanswered_app, Hp, <- Hv. simpl.
      destruct m; try done; simpl. destruct (outbound_ping_state (metrics s)); simpl; [|done].
      by case_decide.
    + by apply one_at_a_time_snoc.
Qed.

Lemma take_turns_pinging interval ts s :
  pinging s → ∃ s', take_turns interval ts s = Ok s' ∧ pinging s'.
Proof.
  revert s. induction ts as [|t ts IH]; intros s Hs; simpl; [eauto|].
  destruct (take_turn_pinging interval t s Hs) as (s1 & -> & Hs1). simpl_outcome. by apply IH.
Qed.
End Life.

(** ** Properties *)

Section Properties.
Context `{WireLaws}.

(** C23: The v1 transport is lossless and framed: a message written to the stream
    is read back, whatever follows it, and exactly its bytes are consumed; under
    the magic of another network nothing beyond the header is read; and a stream
    that ends inside the message, in its header or its payload, is an end-of-file
    error. *)
Theorem transport_framing m msg rest :
  length m = 4%nat → sendable msg →
  transport_read m (transport_write m msg ++ rest) = Ok (Some msg, rest) ∧
  (∀ m', length m' = 4%nat → m' ≠ m →
     transport_read m' (transport_write m msg ++ rest) = Err (UnexpectedMagic m)) ∧
  (∀ k, (k < length (transport_write m msg))%nat →
     transport_read m (take k (transport_write m msg)) = Err (Io UnexpectedEof)).
Proof.
  intros Hm Hs. split; [by apply transport_roundtrip|]. unfold transport_write.
  destruct (raw_layout m msg Hm Hs) as (cmd & name & sum & payload & -> & Hcmd & Hname & Hsum & Hlen).
  split.
  - intros m' Hm' Hne. rewrite (app_assoc _ sum), (app_assoc cmd), (app_assoc m), <- app_assoc.
    rewrite (transport_read_header _ m cmd name) by (done || lia). by rewrite decide_True.
  - rewrite (app_assoc _ sum), (app_assoc cmd), (app_assoc m). set (hdr := m ++ _).
    assert (length hdr = 24%nat) as Hh.
    { unfold hdr. rewrite !length_app, length_to_le_bytes. lia. }
    intros k Hk. rewrite length_app in Hk. destruct (decide (k < 24)%nat) as [Hlt|Hge].
    + unfold transport_read. rewrite read_exact_short by (rewrite length_take; lia). done.
    + rewrite take_app_ge by lia. rewrite Hh. unfold hdr.
      rewrite (transport_read_header _ m cmd name) by (done || lia). rewrite decide_False by naive_solver.
      rewrite Nat2Z.id, read_exact_short by (rewrite length_take; lia). done.
Qed.

(** C22: When no write fails, the handshake succeeds exactly when the peer's
    stream starts with an acceptable version message, any number of preference
    messages and a verack; the connection then has the negotiated version and
    the peer's preferences, the bytes after the verack are left for the reader,
    and we have written our version, the feature announcements the common
    version allows and, after the peer's verack, our own with our settings. *)
Theorem handshake_characterised c write t now n stream conn rest sent :
  (∀ msg, write msg = None) →
  handshake c write t now n stream = (Ok (conn, rest), sent) ↔
  ∃ v ps, reads (magic_of c.(network)) stream (Version v :: ps ++ [Verack]) rest ∧
    acceptable c n v ∧ Forall (λ p, is_preference p = true) ps ∧
    conn = mk_metrics (feeler_for c t n v) (foldl apply_preference preferences_new ps)
             (timed_new now) now (LastReceived now) ∧
    sent = [Version (build_our_version c t n)]
             ++ announcements (Z.min c.(our_version) v.(version))
             ++ responses c.(our_send_cmpct) c.(fee_filter) c.(request_addr).
Proof.
  intros Hw. unfold handshake. rewrite write_each_all by done. split.
  - destruct (transport_read _ stream) as [[[msg|] s1]| |] eqn:Hr; try done.
    destruct (start_handshake command c t msg n) as [[h ms]| |] eqn:Hs; try done.
    apply start_handshake_ok in Hs as (v & -> & Hacc & -> & ->).
    rewrite write_each_all by done.
    intros (ps & Hreads & Hps & -> & ->)%negotiation_loop_sound. exists v, ps.
    split_and!; [by econstructor|done|done|done|done].
  - intros (v & ps & Hreads & Hacc & Hps & -> & ->).
    inversion Hreads as [|? ? s1 ? ? Hr Hrest]; subst. rewrite Hr.
    assert (start_handshake command c t (Version v) n = Ok
      (mk_initialized (feeler_for c t n v) preferences_new c.(fee_filter)
         c.(our_send_cmpct) c.(request_addr),
       announcements (Z.min c.(our_version) v.(version)))) as ->.
    { apply start_handshake_ok. eauto. }
    rewrite write_each_all by done.
    rewrite (negotiation_loop_complete _ _ _ _ _ s1 _ ps rest) by (done || lia). done.
Qed.

Lemma handshake_total c write t now n stream :
  (handshake c write t now n stream).1 ≠ Panic.
Proof.
  unfold handshake.
  pose proof (write_each_spec write [Version (build_our_version c t n)]) as Hw.
  destruct (write_each write _) as [sent [u| |]]; [|done|done].
  pose proof (transport_read_total (magic_of c.(network)) stream) as Ht.
  destruct (transport_read _ stream) as [[[msg|] s1]| |] eqn:Hr; try done.
  destruct (start_handshake command c t msg n) as [[h ms]| |] eqn:Hs; [|done|].
  - pose proof (write_each_spec write ms) as Hw2.
    destruct (write_each write ms) as [more [u2| |]]; [|done|done].
    apply negotiation_loop_total. lia.
  - unfold start_handshake in Hs. by destruct msg; simpl in Hs; repeat case_decide; simplify_eq; destruct (has _ _).
Qed.

(** Whatever bytes the peer sends and whichever writes fail, the handshake
    ends with a connection or an error: it never panics and never runs out of
    rounds. *)
Theorem handshake_terminates c write t now n stream :
  (handshake c write t now n stream).1 ≠ Panic.
Proof. apply handshake_total. Qed.

(** C24: On an open connection, in every interleaving of writer turns and
    messages read, the reader's bookkeeping never fails, at most one of the
    writer thread's own pings is unanswered at any time, and the ping state is
    exactly that ping with the time it was written: a ping counts as timed out if
    and only if it has been unanswered for longer than the timeout. A ping the
    owner of the connection asks to send, as the broadcast of a transaction does,
    is not one of them: it is neither waited for here nor does it disturb the
    state. *)
Theorem one_ping_outstanding interval ts s timeout now :
  pinging s →
  ∃ s', take_turns interval ts s = Ok s' ∧ one_at_a_time s'.(log) ∧
    ping_view s'.(metrics).(outbound_ping_state) = unanswered s'.(log) ∧
    (ping_timed_out timeout now s'.(metrics) = true ↔
     ∃ n since, unanswered s'.(log) = Some (n, since) ∧ timeout < saturating_sub now since).
Proof.
  intros Hs. destruct (take_turns_pinging interval ts s Hs) as (s' & -> & Ht & Hv & Ho).
  exists s'. split_and!; try done. rewrite <- Hv. unfold ping_timed_out.
  destruct (outbound_ping_state (metrics s')) as [n since|]; simpl; [|naive_solver].
  rewrite bool_decide_eq_true. naive_solver.
Qed.
End Properties.

(** The clock difference of an accepted peer is exact as long as it fits a
    signed 64-bit integer; a peer whose timestamp lies further in the past makes
    the subtraction overflow, and the recorded difference is then off by 2^64. *)
Theorem time_difference_exact `{WireLaws} c t n v h ms :
  start_handshake command c t (Version v) n = Ok (h, ms) →
  in_i 64 v.(timestamp) → 0 ≤ f64_as_i64 (as_secs_f64 t) < 2 ^ 63 →
  let exact := f64_as_i64 (as_secs_f64 t) - v.(timestamp) in
  h.(ih_feeler).(net_time_difference) =
    if decide (exact < 2 ^ 63) then exact else exact - 2 ^ 64.
Proof.
  intros (v' & [= <-] & _ & -> & _)%start_handshake_ok Hts Ht. simpl.
  unfold in_i in Hts. set (T := f64_as_i64 _) in *. clearbody T. case_decide as Hd.
  - apply wrap_i_small; [lia|]. unfold in_i. lia.
  - rewrite <- (wrap_i_sub 64) by lia. apply wrap_i_small; [lia|]. unfold in_i. lia.
Qed.

(** Counting messages is exact: below 2^53 messages the total is the sum of
    the batches (each capped at the largest [u32]), itself capped at the largest
    [u32]; the floating point counter loses nothing. *)
Theorem total_count_exact ns :
  Forall (λ '(n, _), 0 ≤ n) ns → capped_sum ns < 2 ^ 53 →
  total_count (count_all ns NoneReceived) = Z.min (capped_sum ns) (u_max 32).
Proof.
  intros Hall Hb. pose proof (count_all_exact ns NoneReceived Hall) as He. simpl in He.
  pose proof (capped_sum_nonneg ns Hall). assert (0 ≤ u_max 32) by (by vm_compute).
  destruct (count_all ns NoneReceived); simpl in *; lia.
Qed.

(** ** Concrete runs *)

Module Witness.
Import Messages.Demo.

Definition demo_version : VersionMessage :=
  mk_version 70016 9 1700000000 useless_address useless_address 42 "/peer/" 800000 true.

(** A codec for a few messages: the payload is an index, and the nonce of pings. *)
Definition demo_payload (m : NetworkMessage) : list Z :=
  match m with
  | Version _ => [0] | Verack => [1] | WtxidRelay => [2] | SendAddrV2 => [3] | SendHeaders => [4]
  | Ping n => [5; n] | Pong n => [6; n] | _ => [7]
  end.
Definition demo_parse (l : list Z) : outcome unit NetworkMessage :=
  match l with
  | [0] => Ok (Version demo_version) | [1] => Ok Verack | [2] => Ok WtxidRelay
  | [3] => Ok SendAddrV2 | [4] => Ok SendHeaders | [5; n] => Ok (Ping n) | [6; n] => Ok (Pong n)
  | _ => Err ()
  end.
#[local] Instance demo_wire : Wire := {|
  DeserializeError := unit;
  magic_of n := match n with Bitcoin_ => [249; 190; 180; 217] | _ => [250; 191; 181; 218] end;
  command m := match m with Verack => "verack" | _ => "other" end;
  decode_command l := if decide (length l = 12%nat) then Ok "name" else Err ();
  serialize_raw magic m :=
    magic ++ replicate 12 0 ++ to_le_bytes 4 (Z.of_nat (length (demo_payload m)))
      ++ [0; 0; 0; 0] ++ demo_payload m;
  sendable m :=
    match m with
    | Version v => v = demo_version
    | Verack | WtxidRelay | SendAddrV2 | SendHeaders | Ping _ | Pong _ => True
    | _ => False
    end;
  deserialize_raw l := demo_parse (drop 24 l);
|}.

Lemma demo_parse_total l : demo_parse l ≠ Panic.
Proof.
  unfold demo_parse. repeat (case_match; try done).
Qed.

#[local] Instance demo_wire_laws : WireLaws.
Proof.
  split.
  - by intros [].
  - intros magic m Hm Hs. exists (replicate 12 0), "name", [0; 0; 0; 0], (demo_payload m).
    split_and!; try done. by destruct m.
  - intros magic m Hm Hs. cbn [deserialize_raw serialize_raw demo_wire].
    destruct magic as [|a [|b [|c [|d [|e l]]]]]; try done.
    destruct m; simpl in Hs; try done. by subst.
  - intros l. simpl. by case_decide.
  - intros l. apply demo_parse_total.
Qed.

Lemma transport_framing_witness :
  transport_read [250; 191; 181; 218] (transport_write [249; 190; 180; 217] (Ping 7) ++ [1; 2]) =
    Err (UnexpectedMagic [249; 190; 180; 217]) ∧
  transport_read [249; 190; 180; 217] (transport_write [249; 190; 180; 217] (Ping 7) ++ [1; 2]) =
    Ok (Some (Ping 7), [1; 2]) ∧
  transport_read [249; 190; 180; 217] (take 25 (transport_write [249; 190; 180; 217] (Ping 7))) =
    Err (Io UnexpectedEof).
Proof.
  destruct (transport_framing (H0:=demo_wire) [249; 190; 180; 217] (Ping 7) [1; 2] eq_refl I) as (Hr & He & Hshort).
  split; [by apply He|]. split; [exact Hr|]. apply Hshort. vm_compute. lia.
Defined.

(** A peer that supports everything, with two preference messages. *)
Definition peer_stream : list Z :=
  concat (transport_write (magic_of Bitcoin_) <$> [Version demo_version; WtxidRelay; SendHeaders; Verack])
    ++ [9; 9].
Definition conf : ConnectionConfig := peer_config Bitcoin_ 100.

Lemma handshake_witness :
  ∃ conn, handshake conf (λ _, None) (from_secs 1700000005) 3 77 peer_stream =
      (Ok (conn, [9; 9]),
       [Version (build_our_version conf (from_secs 1700000005) 77); WtxidRelay; SendAddrV2; SendHeaders;
        Verack; SendCmpctMsg (mk_send_cmpct false 0); FeeFilter 0; GetAddr]) ∧
    conn.(feeler).(net_time_difference) = 5 ∧ conn.(their_preferences).(sendwtxid) = true.
Proof.
  eexists. split.
  - apply (handshake_characterised conf (λ _, None) (from_secs 1700000005) 3 77 peer_stream); [done|].
    exists demo_version, [WtxidRelay; SendHeaders]. split_and!.
    + apply reads_written; [done|]. by repeat constructor.
    + split_and!; [done|by vm_compute|by vm_compute|by vm_compute].
    + by repeat constructor.
    + reflexivity.
    + by vm_compute.
  - split; by vm_compute.
Defined.

(** A stream that stops in the middle of a header. *)
Lemma handshake_terminates_witness :
  (handshake conf (λ _, None) 0 3 77 [1; 2; 3]).1 = Err (Io UnexpectedEof) ∧
  (handshake conf (λ _, None) 0 3 77 [1; 2; 3]).1 ≠ Panic.
Proof. split; [by vm_compute|]. apply handshake_terminates. Defined.

Definition fresh : connection :=
  mk_connection (mk_metrics (mk_feeler 70016 9 0 0 1) preferences_new (timed_new 0) 0 (LastReceived 0))
    true [].
Definition turns : list turn :=
  [WriterTurn (λ _, None) None Timeout_ 5 (from_secs 31) (from_secs 31);
   WriterTurn (λ _, None) None (Request (SendMessage (Ping 6))) 7 (from_secs 62) (from_secs 62);
   ReaderTurn (Pong 4) (from_secs 63) (from_secs 63)].

Lemma one_ping_outstanding_witness :
  ∃ s', take_turns PING_INTERVAL turns fresh = Ok s' ∧
    unanswered s'.(log) = Some (5, from_secs 31) ∧ ping_timed_out (from_secs 60) (from_secs 92) s'.(metrics) = true.
Proof.
  destruct (one_ping_outstanding PING_INTERVAL turns fresh (from_secs 60) (from_secs 92))
    as (s' & Hs & _ & _ & Hto).
  - split_and!; [apply timed_new_ok|done|]. intros [] ? ? ? ?; done.
  - assert (unanswered s'.(log) = Some (5, from_secs 31)) as Hu.
    { vm_compute in Hs. injection Hs as <-. by vm_compute. }
    exists s'. split_and!; [exact Hs|exact Hu|]. apply Hto.
    exists 5, (from_secs 31). split; [exact Hu|by vm_compute].
Defined.

Lemma time_difference_witness :
  let v := mk_version 70016 9 (- 2 ^ 63) useless_address useless_address 42 "/peer/" 0 true in
  ∃ h ms, start_handshake command conf (from_secs 1700000000) (Version v) 77 = Ok (h, ms) ∧
    h.(ih_feeler).(net_time_difference) = 1700000000 - 2 ^ 63.
Proof.
  intros v. do 2 eexists. split; [reflexivity|].
  rewrite (time_difference_exact conf (from_secs 1700000000) 77 v _ _ eq_refl); by vm_compute.
Defined.

Lemma total_count_witness :
  total_count (count_all [(1000, 0); (0, 1); (2 ^ 32, 2)] NoneReceived) = u_max 32.
Proof.
  rewrite (total_count_exact [(1000, 0); (0, 1); (2 ^ 32, 2)]); [by vm_compute| |by vm_compute].
  repeat constructor; lia.
Defined.
End Witness.
