(* ===== verification/Fs.v ===== *)
(** * Files

    The file system as the contents of its files, and the replacement of a file
    through a temporary one, which the wallet and the address book share: create
    the temporary file, write it, sync it, rename it. Each operation can fail,
    and a crash leaves one of the disk states gone through. *)

From S2P Require Import Prelude.

Abbreviation fs := (gmap string (list Z)).

(** The outcome of each operation: [None] or the error it fails with. [File::create],
    [write_all] after [k] bytes, [sync_data] and [rename]. *)
Record faults := mk_faults {
  create_fails : option io_error;
  write_fails : option (nat * io_error);
  sync_fails : option io_error;
  rename_fails : option io_error;
}.

(** The disk while [0 .. k] bytes have been written. *)
Definition writing (tmp : string) (bytes : list Z) (d : fs) (k : nat) : list fs :=
  (λ i, <[tmp := take i bytes]> d) <$> seq 0 (S k).

(** The error, if any, and the disk states gone through, oldest first. *)
Definition replace_file (f : faults) (tmp path : string) (bytes : list Z) (d : fs)
    : option io_error * list fs :=
  match f.(create_fails) with
  | Some e => (Some e, [d])
  | None =>
      match f.(write_fails) with
      | Some (k, e) => (Some e, d :: writing tmp bytes d k)
      | None =>
          let states := d :: writing tmp bytes d (length bytes) in
          match f.(sync_fails), f.(rename_fails) with
          | Some e, _ | None, Some e => (Some e, states)
          | None, None => (None, states ++ [<[path := bytes]> (delete tmp d)])
          end
      end
  end.

Lemma writing_others tmp bytes d k s p :
  s ∈ d :: writing tmp bytes d k → p ≠ tmp → s !! p = d !! p.
Proof.
  intros [->|Hin]%elem_of_cons Hp; [done|].
  apply list_elem_of_fmap in Hin as (i & -> & _). by rewrite lookup_insert_ne.
Qed.

Lemma writing_last tmp bytes d k p :
  p ≠ tmp → ∃ s, last (d :: writing tmp bytes d k) = Some s ∧ s !! p = d !! p.
Proof.
  intros Hp. destruct (last (d :: writing tmp bytes d k)) as [s|] eqn:Hl; [|by apply last_None in Hl].
  exists s. split; [done|]. eapply writing_others; [|done]. by apply last_Some_elem_of.
Qed.

(** At every point the file is the old one or the new one, and the last state
    says which. *)
Lemma replace_file_spec f tmp path bytes d r states :
  tmp ≠ path → replace_file f tmp path bytes d = (r, states) →
  (∀ s, s ∈ states → s !! path = d !! path ∨ s !! path = Some bytes) ∧
  (∀ s p, s ∈ states → p ≠ path → p ≠ tmp → s !! p = d !! p) ∧
  (∃ final, last states = Some final ∧
     match r with
     | None => final !! path = Some bytes ∧ final !! tmp = None
     | Some _ => final !! path = d !! path
     end).
Proof.
  intros Htmp. unfold replace_file. destruct (create_fails f) as [e|].
  { intros [= <- <-]. split_and!; [intros s ->%list_elem_of_singleton; by left|
      by intros s p ->%list_elem_of_singleton|by exists d]. }
  assert (∀ k, (∀ s, s ∈ d :: writing tmp bytes d k → s !! path = d !! path) ∧
    (∀ s p, s ∈ d :: writing tmp bytes d k → p ≠ path → p ≠ tmp → s !! p = d !! p)) as Hw.
  { intros k. split; intros; by eapply writing_others. }
  destruct (write_fails f) as [[k e]|].
  { intros [= <- <-]. destruct (Hw k) as [H1 H2]. split_and!; [intros; left; auto|done|].
    by apply writing_last. }
  destruct (Hw (length bytes)) as [H1 H2].
  destruct (writing_last tmp bytes d (length bytes) path) as (l & Hl & Hlp); [done|].
  revert H1 H2 Hl. generalize (d :: writing tmp bytes d (length bytes)). intros st H1 H2 Hl.
  destruct (sync_fails f) as [e|], (rename_fails f) as [e'|]; intros [= <- <-].
  1-3: split_and!; [intros; left; auto|done|by exists l].
  split_and!.
  - intros s [Hin| ->%list_elem_of_singleton]%elem_of_app; [left; auto|].
    right. by rewrite lookup_insert_eq.
  - intros s p [Hin| ->%list_elem_of_singleton]%elem_of_app Hp Hpt; [by eapply H2|].
    by rewrite lookup_insert_ne, lookup_delete_ne.
  - eexists. split; [apply last_snoc|]. rewrite lookup_insert_eq, lookup_insert_ne by done.
    by rewrite lookup_delete_eq.
Qed.
