(* ===== verification/Wallet.v ===== *)
(** * The silent payments wallet (crates/wallet/src/silentpayments/wallet.rs,
      scanning.rs, mod.rs)

    The wallet's coins and keys, the scan of connected blocks and the rollback
    of disconnected ones. The cryptography ([secp256k1], the [silentpayments]
    crate) and the kernel's block accessors are an interface, [SilentPayments]
    and the records of what the accessors return. *)

From S2P Require Import Prelude.

(** [silentpayments::Network]. *)
Inductive Network := Mainnet | Testnet | Regtest.
#[global] Instance Network_eq_dec : EqDecision Network.
Proof. solve_decision. Defined.

(** A [Txid] is its 32 bytes. *)
Abbreviation Txid := (list Z) (only parsing).

Record OutPoint := mk_outpoint { txid : Txid; vout : Z }.
#[global] Instance OutPoint_eq_dec : EqDecision OutPoint.
Proof. solve_decision. Defined.
#[global] Instance OutPoint_countable : Countable OutPoint.
Proof.
  apply (inj_countable (λ o, (o.(txid), o.(vout))) (λ p, Some (mk_outpoint p.1 p.2))).
  by intros [].
Defined.

Record SpentBy := mk_spent { spent_txid : Txid; spent_height : Z }.
#[global] Instance SpentBy_eq_dec : EqDecision SpentBy.
Proof. solve_decision. Defined.

(** [tweak] and [label] are secp256k1 scalars, as integers. *)
Record Coin := mk_coin {
  value : Z;
  script_pubkey : list Z;
  tweak : Z;
  label : option Z;
  block_height : Z;
  spent_by : option SpentBy;
}.
#[global] Instance Coin_eq_dec : EqDecision Coin.
Proof. solve_decision. Defined.

Inductive HistoryEntry :=
| Received (outpoint : OutPoint) (value : Z) (at_height : Z)
| Spent (outpoint : OutPoint) (value : Z) (spent_at : Z).

(** ** What the wallet uses of other crates *)

Class SilentPayments := {
  SecretKey : Type;
  PublicKey : Type;
  XOnlyPublicKey : Type;
  xonly_eq_dec :: EqDecision XOnlyPublicKey;
  Receiver : Type;
  Label : Type;
  SpError : Type;
  (** [x_only_public_key], with [true] for an odd parity. *)
  x_only_public_key : SecretKey → XOnlyPublicKey * bool;
  negate : SecretKey → SecretKey;
  from_secret_key : SecretKey → PublicKey;
  (** [from_x_only_public_key] with even parity. *)
  from_x_only_even : XOnlyPublicKey → PublicKey;
  label_new : SecretKey → Z → Label;
  label_inner : Label → Z;
  receiver_new : PublicKey → PublicKey → Label → Network → outcome SpError Receiver;
  receiving_code : Receiver → string;
  get_pubkey_from_input : list Z → list (list Z) → list Z → outcome SpError (option PublicKey);
  calculate_tweak_data : list PublicKey → list (list Z) → outcome SpError PublicKey;
  calculate_ecdh_shared_secret : PublicKey → SecretKey → PublicKey;
  (** [Receiver::scan_transaction]: the maps in the order they are iterated. *)
  receiver_scan : Receiver → PublicKey → list XOnlyPublicKey →
    outcome SpError (list (option Label * list (XOnlyPublicKey * Z)));
  (** [Script::is_p2tr] and [XOnlyPublicKey::from_slice]. *)
  is_p2tr : list Z → bool;
  xonly_from_slice : list Z → option XOnlyPublicKey;
}.

(** A pay-to-taproot script is a one byte version, a length byte and 32 bytes. *)
Class SilentPaymentsLaws `{SilentPayments} := {
  is_p2tr_length : ∀ s, is_p2tr s = true → length s = 34%nat;
}.

(** What the kernel's accessors return of a block. *)
Record KTxIn := mk_txin {
  in_outpoint : OutPoint;
  script_sig : option (list Z);
  witness_stack : list (list Z);
}.
Record KTxOut := mk_txout { out_value : Z; out_script : list Z }.
Record KTx := mk_tx { ktxid : Txid; inputs : list KTxIn; outputs : list KTxOut }.
(** The scripts of the outputs a transaction spends, one per input. *)
Abbreviation TxSpent := (list (list Z)) (only parsing).

Section Wallet.
Context `{SilentPayments}.

Record SilentPaymentKeys := mk_keys { receiver : Receiver; scan_key : SecretKey }.

Record Wallet := mk_wallet {
  scan_height : Z;
  keys : option SilentPaymentKeys;
  spend_key : option PublicKey;
  spend_secret : option SecretKey;
  network : Network;
  utxos : gmap OutPoint Coin;
  reserved : gset OutPoint;
}.

Definition wallet_new (n : Network) : Wallet :=
  mk_wallet 0 None None None n ∅ ∅.

Definition from_parts (height : Z) (n : Network) (coins : gmap OutPoint Coin) : Wallet :=
  mk_wallet height None None None n coins ∅.

Definition with_utxos (w : Wallet) (coins : gmap OutPoint Coin) : Wallet :=
  mk_wallet w.(scan_height) w.(keys) w.(spend_key) w.(spend_secret) w.(network) coins w.(reserved).
Definition with_reserved (w : Wallet) (r : gset OutPoint) : Wallet :=
  mk_wallet w.(scan_height) w.(keys) w.(spend_key) w.(spend_secret) w.(network) w.(utxos) r.

Definition reserve_coins (ops : list OutPoint) (w : Wallet) : Wallet :=
  with_reserved w (w.(reserved) ∪ list_to_set ops).
Definition release_coins (ops : list OutPoint) (w : Wallet) : Wallet :=
  with_reserved w (foldl (λ r o, r ∖ {[o]}) w.(reserved) ops).

(** ** Keys *)

Definition build_receiver (b_scan : SecretKey) (b_spend_pub : PublicKey) (n : Network)
    : outcome SpError Receiver :=
  receiver_new (from_secret_key b_scan) b_spend_pub (label_new b_scan 0) n.

Definition import_keys (scan : SecretKey) (spend_xonly : XOnlyPublicKey) (w : Wallet)
    : outcome SpError Wallet :=
  let spend_pub := from_x_only_even spend_xonly in
  rcv ← build_receiver scan spend_pub w.(network);
  Ok (mk_wallet w.(scan_height) (Some (mk_keys rcv scan)) (Some spend_pub) w.(spend_secret)
        w.(network) w.(utxos) w.(reserved)).

Definition import_signing_keys (scan spend : SecretKey) (w : Wallet) : outcome SpError Wallet :=
  let '(spend_xonly, odd) := x_only_public_key spend in
  let normalized := if odd : bool then negate spend else spend in
  w ← import_keys scan spend_xonly w;
  Ok (mk_wallet w.(scan_height) w.(keys) w.(spend_key) (Some normalized)
        w.(network) w.(utxos) w.(reserved)).

Definition receive_address (w : Wallet) : option string :=
  (λ k, receiving_code k.(receiver)) <$> w.(keys).

(** ** Scanning *)

Record InputData := mk_input {
  id_script_sig : list Z;
  id_witness : list (list Z);
  id_prevout_script : list Z;
  id_outpoint : list Z;
}.

Definition parse_p2tr (script : list Z) : option XOnlyPublicKey :=
  if is_p2tr script then xonly_from_slice (drop 2 script) else None.

(** The keys the inputs reveal, with their outpoints. *)
Definition input_keys (ins : list InputData) : list (PublicKey * list Z) :=
  omap (λ i, match get_pubkey_from_input i.(id_script_sig) i.(id_witness) i.(id_prevout_script) with
             | Ok (Some pk) => Some (pk, i.(id_outpoint))
             | _ => None
             end) ins.

Definition find_output (pk : XOnlyPublicKey) (outs : list (nat * XOnlyPublicKey)) : option nat :=
  fst <$> find_first (λ o, bool_decide (o.2 = pk)) outs.

Definition scan_transaction (rcv : Receiver) (b_scan : SecretKey) (ins : list InputData)
    (taproot_outputs : list (nat * XOnlyPublicKey)) : list (nat * Z * option Label) :=
  let ks := input_keys ins in
  if is_nil ks then [] else
  match calculate_tweak_data ks.*1 ks.*2 with
  | Ok tweak_data =>
      let shared := calculate_ecdh_shared_secret tweak_data b_scan in
      match receiver_scan rcv shared taproot_outputs.*2 with
      | Ok found =>
          flat_map (λ '(label, pks),
            omap (λ '(pk, tweak),
              match find_output pk taproot_outputs with
              | Some idx => Some (idx, tweak, label)
              | None => None
              end) pks) found
      | _ => []
      end
  | _ => []
  end.

(** The 36 bytes of an outpoint. *)
Definition outpoint_bytes (o : OutPoint) : list Z := o.(txid) ++ to_le_bytes 4 o.(vout).

(** The inputs of a transaction with the scripts they spend. *)
Fixpoint collect_inputs (idx : nat) (ins : list KTxIn) (spent : TxSpent)
    : outcome Empty_set (list InputData) :=
  match ins with
  | [] => Ok []
  | i :: ins =>
      prevout ← or_panic (spent !! idx);
      sig ← or_panic i.(script_sig);
      rest ← collect_inputs (S idx) ins spent;
      Ok (mk_input sig i.(witness_stack) prevout (outpoint_bytes i.(in_outpoint)) :: rest)
  end.

Definition taproot_outputs_of (outs : list KTxOut) : list (nat * XOnlyPublicKey) :=
  omap (λ '(i, o), (λ pk, (i, pk)) <$> parse_p2tr o.(out_script)) (zip (seq 0 (length outs)) outs).

(** The coins of the matches: [value as u64], [index as u32]. *)
Fixpoint found_coins (tx : KTx) (height : Z) (matches : list (nat * Z * option Label))
    : outcome Empty_set (list (OutPoint * Coin)) :=
  match matches with
  | [] => Ok []
  | (idx, tw, lbl) :: matches =>
      out ← or_panic (tx.(outputs) !! idx);
      rest ← found_coins tx height matches;
      Ok ((mk_outpoint tx.(ktxid) (wrap_u 32 (Z.of_nat idx)),
           mk_coin (wrap_u 64 out.(out_value)) out.(out_script) tw (label_inner <$> lbl) height None)
          :: rest)
  end.

Definition scan_tx (rcv : Receiver) (b_scan : SecretKey) (height : Z) (tx : KTx) (spent : TxSpent)
    : outcome Empty_set (list (OutPoint * Coin)) :=
  let touts := taproot_outputs_of tx.(outputs) in
  if is_nil touts then Ok [] else
  ins ← collect_inputs 0 tx.(inputs) spent;
  found_coins tx height (scan_transaction rcv b_scan ins touts).

Fixpoint scan_txs (rcv : Receiver) (b_scan : SecretKey) (height : Z) (txs : list (KTx * TxSpent))
    : outcome Empty_set (list (OutPoint * Coin)) :=
  match txs with
  | [] => Ok []
  | (tx, spent) :: txs =>
      found ← scan_tx rcv b_scan height tx spent;
      rest ← scan_txs rcv b_scan height txs;
      Ok (found ++ rest)
  end.

(** The coinbase is skipped; the spent outputs start with the second transaction. *)
Definition scan_block_inner (rcv : Receiver) (b_scan : SecretKey) (block : list KTx)
    (spent_outputs : list TxSpent) (height : Z) : outcome Empty_set (list (OutPoint * Coin)) :=
  scan_txs rcv b_scan height (zip (drop 1 block) spent_outputs).

(** ** Blocks in and out *)

Definition mark_spent (height : Z) (tx : Txid) (coins : gmap OutPoint Coin) (o : OutPoint)
    : gmap OutPoint Coin :=
  alter (λ c, mk_coin c.(value) c.(script_pubkey) c.(tweak) c.(label) c.(block_height)
                (Some (mk_spent tx height))) o coins.

Definition spend_tx (height : Z) (coins : gmap OutPoint Coin) (tx : KTx) : gmap OutPoint Coin :=
  foldl (mark_spent height tx.(ktxid)) coins (in_outpoint <$> tx.(inputs)).

Definition add_coins (coins : gmap OutPoint Coin) (found : list (OutPoint * Coin))
    : gmap OutPoint Coin :=
  foldl (λ m '(o, c), <[o := c]> m) coins found.

(** The number of coins found, and the wallet. *)
Definition scan_block (block : list KTx) (spent_outputs : list TxSpent) (height : Z) (w : Wallet)
    : outcome Empty_set (Z * Wallet) :=
  match w.(keys) with
  | None => Ok (0, w)
  | Some k =>
      found ← scan_block_inner k.(receiver) k.(scan_key) block spent_outputs height;
      let coins := add_coins w.(utxos) found in
      let coins := foldl (spend_tx height) coins block in
      Ok (Z.of_nat (length found),
          mk_wallet height w.(keys) w.(spend_key) w.(spend_secret) w.(network) coins w.(reserved))
  end.

(** The spend of a coin forgotten when [txids] has its transaction. *)
Definition unspend (txids : gset (list Z)) (c : Coin) : Coin :=
  match c.(spent_by) with
  | Some s =>
      if decide (s.(spent_txid) ∈ txids)
      then mk_coin c.(value) c.(script_pubkey) c.(tweak) c.(label) c.(block_height) None
      else c
  | None => c
  end.

Definition block_txids (block : list KTx) : gset (list Z) := list_to_set (ktxid <$> block).

Definition process_disconnect (block : list KTx) (w : Wallet) : Wallet :=
  let txids := block_txids block in
  let kept := filter (λ '(o, _), o.(txid) ∉ txids) w.(utxos) in
  with_utxos w (unspend txids <$> kept).

(** ** Queries *)

Definition is_unspent (c : Coin) : bool := bool_decide (c.(spent_by) = None).

(** A [HashMap] is iterated in no fixed order: the queries take the coins in the
    order met, [iter], which is any ordering of the map ([iterates_coins]). *)
Definition iterates_coins (iter : list (OutPoint * Coin)) (w : Wallet) : Prop :=
  iter ≡ₚ map_to_list w.(utxos).

Definition utxo_count (iter : list (OutPoint * Coin)) : Z :=
  Z.of_nat (length (filter (λ c, is_unspent c = true) iter.*2)).

(** [Amount] addition panics when it leaves [u64]. *)
Definition add_amount (acc : outcome Empty_set Z) (v : Z) : outcome Empty_set Z :=
  a ← acc; if decide (a + v ≤ u_max 64) then Ok (a + v) else Panic.

Definition balance (iter : list (OutPoint * Coin)) : outcome Empty_set Z :=
  foldl add_amount (Ok 0) (value <$> filter (λ c, is_unspent c = true) iter.*2).

Definition entries_of (p : OutPoint * Coin) : list HistoryEntry :=
  let '(o, c) := p in
  Received o c.(value) c.(block_height) ::
  match c.(spent_by) with
  | Some s => [Spent o c.(value) s.(spent_height)]
  | None => []
  end.

Definition entry_height (e : HistoryEntry) : Z :=
  match e with Received _ _ h => h | Spent _ _ h => h end.

(** The order of [sort_by_key], which is a stable sort. *)
Definition by_height (a b : HistoryEntry) : Prop := entry_height a ≤ entry_height b.
#[global] Instance by_height_dec a b : Decision (by_height a b).
Proof. unfold by_height. apply _. Defined.

Definition history (iter : list (OutPoint * Coin)) : list HistoryEntry :=
  merge_sort by_height (flat_map entries_of iter).
End Wallet.

(** ** Scanning, proved *)

Section Scanning.
Context `{SilentPaymentsLaws}.

Lemma taproot_outputs_spec outs i pk :
  (i, pk) ∈ taproot_outputs_of outs →
  ∃ o, outs !! i = Some o ∧ length o.(out_script) = 34%nat.
Proof.
  unfold taproot_outputs_of. rewrite list_elem_of_omap. intros ([j o] & Hin & Hp).
  apply fmap_Some in Hp as (pk' & Hp & [= -> ->]).
  exists o. split.
  - apply list_elem_of_lookup in Hin as [k Hk]. apply lookup_zip_Some in Hk as [Hj Ho].
    apply lookup_seq in Hj as [-> _]. done.
  - unfold parse_p2tr in Hp. destruct (is_p2tr _) eqn:Hs; [|done]. by apply is_p2tr_length.
Qed.

Lemma scan_transaction_indices rcv b ins touts idx tw lbl :
  (idx, tw, lbl) ∈ scan_transaction rcv b ins touts → ∃ pk, (idx, pk) ∈ touts.
Proof.
  unfold scan_transaction. destruct (is_nil _); [by intros ?%elem_of_nil|].
  destruct (calculate_tweak_data _ _); [|by intros ?%elem_of_nil..].
  destruct (receiver_scan _ _ _) as [found| |]; [|by intros ?%elem_of_nil..].
  intros Hin. apply list_elem_of_In, in_flat_map in Hin as ([l pks] & _ & Hin).
  apply list_elem_of_In, list_elem_of_omap in Hin as ([pk t] & _ & Heq).
  destruct (find_output pk touts) as [i|] eqn:Hf; [|done]. simplify_eq.
  unfold find_output in Hf. apply fmap_Some in Hf as ([j pk'] & Hf & ->).
  apply find_first_Some in Hf as [Hin _]. eauto.
Qed.

(** A coin the scan can produce for a block at [height]. *)
Definition scanned (block : list KTx) (height : Z) (p : OutPoint * Coin) : Prop :=
  p.1.(txid) ∈ block_txids block ∧ length p.2.(script_pubkey) = 34%nat ∧
  p.2.(spent_by) = None ∧ p.2.(block_height) = height ∧ in_u 64 p.2.(value) ∧ in_u 32 p.1.(vout).

Lemma found_coins_spec block tx height matches :
  tx ∈ block →
  (∀ idx tw lbl, (idx, tw, lbl) ∈ matches →
     ∃ o, tx.(outputs) !! idx = Some o ∧ length o.(out_script) = 34%nat) →
  ∃ found, found_coins tx height matches = Ok found ∧ Forall (scanned block height) found.
Proof.
  intros Htx. induction matches as [|[[idx tw] lbl] matches IH]; intros Hm; simpl; [eauto|].
  destruct (Hm idx tw lbl) as (o & Ho & Hlen); [by constructor|]. rewrite Ho. simpl_outcome.
  destruct IH as (found & -> & Hf); [intros; eapply Hm; by constructor|]. simpl_outcome.
  eexists. split; [done|]. constructor; [|done]. split_and!; simpl; try done.
  - unfold block_txids. apply elem_of_list_to_set, list_elem_of_fmap. eauto.
  - by apply wrap_u_range.
  - by apply wrap_u_range.
Qed.

(** The spent outputs of a transaction match its inputs. *)
Definition spent_match (p : KTx * TxSpent) : Prop :=
  (length p.1.(inputs) ≤ length p.2)%nat ∧ Forall (λ i, is_Some i.(script_sig)) p.1.(inputs).

Lemma collect_inputs_ok idx ins spent :
  (idx + length ins ≤ length spent)%nat → Forall (λ i, is_Some i.(script_sig)) ins →
  ∃ l, collect_inputs idx ins spent = Ok l.
Proof.
  revert idx. induction ins as [|i ins IH]; intros idx Hlen Hs; simpl in *; [eauto|].
  apply Forall_cons in Hs as [[sig Hsig] Hs].
  destruct (lookup_lt_is_Some_2 spent idx) as [p Hp]; [lia|]. rewrite Hp, Hsig. simpl_outcome.
  destruct (IH (S idx)) as [l ->]; [lia|done|]. simpl_outcome. eauto.
Qed.

Lemma scan_tx_spec rcv b height block tx spent :
  tx ∈ block → spent_match (tx, spent) →
  ∃ found, scan_tx rcv b height tx spent = Ok found ∧ Forall (scanned block height) found.
Proof.
  intros Htx [Hlen Hs]. unfold scan_tx. destruct (is_nil _); [eauto|].
  destruct (collect_inputs_ok 0 tx.(inputs) spent) as [l ->]; [done|done|]. simpl_outcome.
  apply found_coins_spec; [done|]. intros idx tw lbl [pk Hpk]%scan_transaction_indices.
  by eapply taproot_outputs_spec.
Qed.

Lemma scan_txs_spec rcv b height block txs :
  (∀ p, p ∈ txs → p.1 ∈ block) → Forall spent_match txs →
  ∃ found, scan_txs rcv b height txs = Ok found ∧ Forall (scanned block height) found.
Proof.
  induction txs as [|[tx spent] txs IH]; intros Hin Hall; simpl; [eauto|].
  apply Forall_cons in Hall as [Hm Hall].
  destruct (scan_tx_spec rcv b height block tx spent) as (f & -> & Hf);
    [apply (Hin (tx, spent)); by constructor|done|].
  simpl_outcome. destruct IH as (r & -> & Hr); [intros; apply Hin; by constructor|done|].
  simpl_outcome. eexists. split; [done|]. by apply Forall_app.
Qed.

(** The kernel's undo data fit the block. *)
Definition spent_outputs_match (block : list KTx) (spent_outputs : list TxSpent) : Prop :=
  Forall spent_match (zip (drop 1 block) spent_outputs).

Lemma scan_block_inner_spec rcv b block spent height :
  spent_outputs_match block spent →
  ∃ found, scan_block_inner rcv b block spent height = Ok found ∧
    Forall (scanned block height) found.
Proof.
  intros Hm. apply scan_txs_spec; [|done]. intros [tx sp] Hin.
  apply elem_of_zip_l in Hin. simpl in *. apply list_elem_of_lookup in Hin as [i Hi].
  rewrite lookup_drop in Hi. by eapply list_elem_of_lookup_2.
Qed.
End Scanning.

(** ** Coins in and out *)

Section Coins.
Context `{SilentPaymentsLaws}.

Definition set_spent (c : Coin) (s : SpentBy) : Coin :=
  mk_coin c.(value) c.(script_pubkey) c.(tweak) c.(label) c.(block_height) (Some s).

(** [m'] is [m] with some coins marked spent by transactions of [block]. *)
Definition spends (block : list KTx) (height : Z) (m m' : gmap OutPoint Coin) : Prop :=
  ∀ o, m' !! o = m !! o ∨
    ∃ c tx, m !! o = Some c ∧ tx ∈ block ∧ o ∈ in_outpoint <$> tx.(inputs) ∧
      m' !! o = Some (set_spent c (mk_spent tx.(ktxid) height)).

Lemma spends_refl block height m : spends block height m m.
Proof. by left. Qed.

Lemma spends_trans block height m1 m2 m3 :
  spends block height m1 m2 → spends block height m2 m3 → spends block height m1 m3.
Proof.
  intros H12 H23 o. destruct (H23 o) as [->|(c & tx & Hc & Htx & Ho & H3)]; [apply H12|].
  right. destruct (H12 o) as [Heq|(c0 & tx0 & Hc0 & _ & _ & H2)].
  - exists c, tx. by rewrite <- Heq.
  - exists c0, tx. split_and!; try done. by simplify_eq.
Qed.

Lemma mark_spent_spends block height tx o m :
  tx ∈ block → o ∈ in_outpoint <$> tx.(inputs) →
  spends block height m (mark_spent height tx.(ktxid) m o).
Proof.
  intros Htx Ho o'. unfold mark_spent. destruct (decide (o = o')) as [<-|Hne].
  - rewrite lookup_alter_eq. destruct (m !! o) as [c|] eqn:Hc; [|by left].
    right. exists c, tx. done.
  - left. by rewrite lookup_alter_ne.
Qed.

Lemma spend_tx_spends block height tx m :
  tx ∈ block → spends block height m (spend_tx height m tx).
Proof.
  intros Htx. unfold spend_tx.
  assert (∀ os m, (∀ o, o ∈ os → o ∈ in_outpoint <$> tx.(inputs)) →
    spends block height m (foldl (mark_spent height tx.(ktxid)) m os)) as Hfold.
  { induction os as [|o os IH]; intros m' Hos; simpl; [apply spends_refl|].
    eapply spends_trans; [apply mark_spent_spends; [done|apply Hos; by constructor]|].
    apply IH. intros. apply Hos. by constructor. }
  by apply Hfold.
Qed.

Lemma spend_block_spends block height m :
  spends block height m (foldl (spend_tx height) m block).
Proof.
  assert (∀ txs m, (∀ tx, tx ∈ txs → tx ∈ block) →
    spends block height m (foldl (spend_tx height) m txs)) as Hfold.
  { induction txs as [|tx txs IH]; intros m' Hin; simpl; [apply spends_refl|].
    eapply spends_trans; [apply spend_tx_spends, Hin; by constructor|].
    apply IH. intros. apply Hin. by constructor. }
  by apply Hfold.
Qed.

Lemma add_coins_lookup m found o :
  o ∉ found.*1 → add_coins m found !! o = m !! o.
Proof.
  unfold add_coins. revert m. induction found as [|[o' c] found IH]; intros m Hn; simpl in *; [done|].
  apply not_elem_of_cons in Hn as [Hne Hn]. rewrite IH by done. by rewrite lookup_insert_ne.
Qed.

Lemma add_coins_Forall (P : OutPoint → Coin → Prop) m found :
  map_Forall P m → Forall (λ p, P p.1 p.2) found → map_Forall P (add_coins m found).
Proof.
  unfold add_coins. revert m. induction found as [|[o c] found IH]; intros m Hm Hf; simpl; [done|].
  apply Forall_cons in Hf as [Hc Hf]. apply IH; [|done]. by apply map_Forall_insert_2.
Qed.

(** ** The rollback *)

(** The wallet has seen neither the transactions of [block] nor another spend
    of the coins it spends, as for a block that extends the scanned chain. *)
Definition fresh_block (block : list KTx) (w : Wallet) : Prop :=
  (∀ o c, w.(utxos) !! o = Some c → o.(txid) ∉ block_txids block) ∧
  (∀ o c s, w.(utxos) !! o = Some c → c.(spent_by) = Some s → s.(spent_txid) ∉ block_txids block) ∧
  (∀ tx o c, tx ∈ block → o ∈ in_outpoint <$> tx.(inputs) → w.(utxos) !! o = Some c →
     c.(spent_by) = None).

Lemma unspend_other txids c :
  (∀ s, c.(spent_by) = Some s → s.(spent_txid) ∉ txids) → unspend txids c = c.
Proof.
  intros Hs. unfold unspend. destruct (spent_by c) as [s|] eqn:Hc; [|done].
  rewrite decide_False by (by apply Hs). done.
Qed.

Lemma unspend_set_spent txids c s :
  s.(spent_txid) ∈ txids → c.(spent_by) = None → unspend txids (set_spent c s) = c.
Proof.
  intros Hs Hc. unfold unspend. simpl. rewrite decide_True by done. destruct c; simpl in *. by subst.
Qed.

(** Away from the block's own outputs, scanning only marks coins spent. *)
Lemma scanned_lookup block height w found coins o :
  Forall (scanned block height) found → spends block height (add_coins w.(utxos) found) coins →
  o.(txid) ∉ block_txids block →
  coins !! o = w.(utxos) !! o ∨
  ∃ c tx, w.(utxos) !! o = Some c ∧ tx ∈ block ∧ o ∈ in_outpoint <$> tx.(inputs) ∧
    coins !! o = Some (set_spent c (mk_spent tx.(ktxid) height)).
Proof.
  intros Hf Hs Ho. specialize (Hs o). rewrite add_coins_lookup in Hs; [done|].
  intros Hin. apply list_elem_of_fmap in Hin as ([o' c] & -> & Hin).
  rewrite Forall_forall in Hf. by apply Hf in Hin as [? _].
Qed.

(** Forgetting a block's outputs and spends undoes its scan. *)
Lemma forget_block block height w found coins :
  fresh_block block w → Forall (scanned block height) found →
  spends block height (add_coins w.(utxos) found) coins →
  unspend (block_txids block) <$> filter (λ '(o, _), o.(txid) ∉ block_txids block) coins
    = w.(utxos).
Proof.
  intros (Hnew & Hspent & Hunspent) Hf Hs. apply map_eq. intros o. rewrite lookup_fmap.
  destruct (decide (o.(txid) ∈ block_txids block)) as [Hin|Hnin].
  - rewrite (proj2 (eq_None_not_Some (w.(utxos) !! o))) by (intros [c Hc]; by apply (Hnew o c)).
    rewrite (proj2 (map_lookup_filter_None _ _ o)); [done|]. right. by intros c _ ?.
  - destruct (scanned_lookup _ _ _ _ _ o Hf Hs Hnin) as [Heq|(c & tx & Hc & Htx & Ho & Hc')].
    + destruct (w.(utxos) !! o) as [c|] eqn:Hc.
      * rewrite (proj2 (map_lookup_filter_Some _ _ o c)) by done. simpl.
        rewrite unspend_other; [done|]. intros s Hs'. by eapply Hspent.
      * rewrite (proj2 (map_lookup_filter_None _ _ o)); [done|]. by left.
    + rewrite (proj2 (map_lookup_filter_Some _ _ o _) (conj Hc' Hnin)). simpl.
      rewrite Hc. f_equal. apply unspend_set_spent; [|by eapply Hunspent].
      apply elem_of_list_to_set, list_elem_of_fmap. eauto.
Qed.

(** What [scan_block] does to the coins. *)
Lemma scan_block_spec block spent height w :
  spent_outputs_match block spent →
  ∃ n w' found, scan_block block spent height w = Ok (n, w') ∧
    Forall (scanned block height) found ∧ n = Z.of_nat (length found) ∧
    spends block height (add_coins w.(utxos) found) w'.(utxos) ∧
    w'.(reserved) = w.(reserved) ∧ w'.(keys) = w.(keys).
Proof.
  intros Hm. unfold scan_block. destruct (keys w) as [k|] eqn:Hk.
  - destruct (scan_block_inner_spec k.(receiver) k.(scan_key) block spent height Hm)
      as (found & -> & Hf). simpl_outcome. do 3 eexists.
    split_and!; [done|done|done|apply spend_block_spends|done|done].
  - do 3 eexists. split_and!; [done|apply Forall_nil_2|done|apply spends_refl|done|done].
Qed.

(** A connected or disconnected block, as the scan thread receives them. *)
Inductive chain_event :=
| Connected (block : list KTx) (spent_outputs : list TxSpent) (height : Z)
| Disconnected (block : list KTx).

Definition on_event (w : outcome Empty_set Wallet) (e : chain_event) : outcome Empty_set Wallet :=
  w ← w;
  match e with
  | Connected block spent height => snd <$> scan_block block spent height w
  | Disconnected block => Ok (process_disconnect block w)
  end.

End Coins.

(** ** Accounts *)

Section Accounts.
Context `{SilentPaymentsLaws}.

Lemma add_amounts vs a :
  Forall (λ v, 0 ≤ v) vs → 0 ≤ a → a + sumZ vs ≤ u_max 64 →
  foldl add_amount (Ok a) vs = Ok (a + sumZ vs).
Proof.
  intros Hvs. revert a. induction Hvs as [|v vs Hv Hvs IH]; intros a Ha Hb; simpl.
  { f_equal. cbn. lia. }
  change (sumZ (v :: vs)) with (v + sumZ vs) in *. pose proof (sumZ_nonneg vs Hvs).
  rewrite decide_True by lia. rewrite IH by lia. f_equal. lia.
Qed.

(** The value a history entry adds to the balance. *)
Definition signed (e : HistoryEntry) : Z :=
  match e with Received _ v _ => v | Spent _ v _ => - v end.

Lemma net_entries iter :
  sumZ (signed <$> flat_map entries_of iter) =
  sumZ (value <$> filter (λ c, is_unspent c = true) iter.*2).
Proof.
  induction iter as [|[o c] iter IH]; [done|]. cbn [flat_map fmap list_fmap].
  rewrite fmap_app, sumZ_app. change (([] ++ [c]) ++ iter.*2) with (c :: iter.*2).
  rewrite IH. unfold is_unspent. simpl.
  destruct (spent_by c) as [s|] eqn:Hs; simpl.
  - rewrite filter_cons_False by (rewrite Hs; by rewrite bool_decide_false). cbn. lia.
  - rewrite filter_cons_True by (by rewrite Hs). cbn. unfold sumZ. lia.
Qed.

#[global] Instance by_height_total : Total by_height.
Proof. intros a b. unfold by_height. lia. Qed.
#[global] Instance by_height_trans : Transitive by_height.
Proof. intros a b c. unfold by_height. lia. Qed.

Lemma sum_filter_le (l : list Coin) :
  Forall (λ c, 0 ≤ c.(value)) l →
  sumZ (value <$> filter (λ c, is_unspent c = true) l) ≤ sumZ (value <$> l).
Proof.
  induction 1 as [|c l Hc _ IH]; [done|]. cbn [fmap list_fmap].
  change (sumZ (value c :: (value <$> l))) with (value c + sumZ (value <$> l)).
  destruct (decide (is_unspent c = true)).
  - rewrite filter_cons_True by done. cbn [fmap list_fmap].
    change (sumZ (value c :: ?x)) with (value c + sumZ x). lia.
  - rewrite filter_cons_False by done. lia.
Qed.

(** C25: Disconnecting a block right after it was connected restores the wallet's
    coins, spends included, whatever the block pays to or takes from the wallet;
    scanning it does not fail. *)
Theorem disconnect_undoes_scan block spent height w :
  fresh_block block w → spent_outputs_match block spent →
  ∃ n w', scan_block block spent height w = Ok (n, w') ∧
    (process_disconnect block w').(utxos) = w.(utxos).
Proof.
  intros Hfresh Hm. destruct (scan_block_spec block spent height w Hm)
    as (n & w' & found & Hs & Hf & _ & Hsp & _).
  exists n, w'. split; [done|]. simpl. by eapply forget_block.
Qed.

(** C35: The history lists every receipt and every spend of the wallet's coins,
    each once, by ascending height, and it balances: the balance is the sum of
    the receipts less the spends, and does not depend on the order in which the
    coins are stored. *)
Theorem history_balances iter w :
  iterates_coins iter w →
  map_Forall (λ _ c, 0 ≤ c.(value)) w.(utxos) →
  sumZ (value <$> (map_to_list w.(utxos)).*2) ≤ u_max 64 →
  Sorted by_height (history iter) ∧
  history iter ≡ₚ flat_map entries_of (map_to_list w.(utxos)) ∧
  balance iter = Ok (sumZ (signed <$> history iter)) ∧
  balance iter = balance (map_to_list w.(utxos)).
Proof.
  intros Hit Hpos Hmax. unfold iterates_coins in Hit.
  assert (∀ l, l ≡ₚ map_to_list w.(utxos) →
    balance l = Ok (sumZ (value <$> filter (λ c, is_unspent c = true) l.*2))) as Hbal.
  { intros l Hl. unfold balance. rewrite add_amounts; [done| |lia|].
    - apply Forall_fmap, Forall_forall. intros c [_ Hc]%list_elem_of_filter. simpl.
      rewrite Hl in Hc. apply list_elem_of_fmap in Hc as ([o c'] & -> & Hc%elem_of_map_to_list).
      by apply Hpos in Hc.
    - rewrite Hl. etrans; [|exact Hmax]. apply sum_filter_le. apply Forall_forall. intros c Hc.
      apply list_elem_of_fmap in Hc as ([o c'] & -> & Hc%elem_of_map_to_list).
      by apply Hpos in Hc. }
  split_and!.
  - apply Sorted_merge_sort, _.
  - unfold history. by rewrite merge_sort_Permutation, Hit.
  - rewrite Hbal by done. f_equal. rewrite <- net_entries. unfold history.
    by rewrite merge_sort_Permutation.
  - rewrite !Hbal by done. by rewrite Hit.
Qed.
End Accounts.

(** ** Concrete runs *)

Module Demo.
(** Keys are numbers; a receiver finds the outputs whose key ends with its number. *)
#[export] Instance demo_sp : SilentPayments := {|
  SecretKey := Z;
  PublicKey := Z;
  XOnlyPublicKey := list Z;
  xonly_eq_dec := _;
  Receiver := Z;
  Label := Z;
  SpError := unit;
  x_only_public_key k := ([k], false);
  negate k := k;
  from_secret_key k := k;
  from_x_only_even _ := 0;
  label_new k _ := k;
  label_inner l := l;
  receiver_new a _ _ _ := Ok a;
  receiving_code _ := "sp1";
  get_pubkey_from_input _ _ _ := Ok (Some 1);
  calculate_tweak_data _ _ := Ok 1;
  calculate_ecdh_shared_secret a _ := a;
  receiver_scan r _ outs := Ok [(None, (λ pk, (pk, 77)) <$> filter (λ pk, last pk = Some r) outs)];
  is_p2tr s := bool_decide (length s = 34%nat);
  xonly_from_slice s := Some s;
|}.
#[export] Instance demo_sp_laws : SilentPaymentsLaws.
Proof. split. intros s. apply bool_decide_eq_true. Qed.

Definition tx_id (n : Z) : Txid := replicate 31 0 ++ [n].
Definition p2tr_to (n : Z) : list Z := [81; 32] ++ replicate 31 5 ++ [n].

(** A wallet with one coin, and a block that spends it and pays 300 back. *)
Definition coin1 : Coin := mk_coin 1000 (p2tr_to 9) 3 None 10 None.
Definition op1 : OutPoint := mk_outpoint (tx_id 1) 0.
Definition demo_wallet : Wallet :=
  mk_wallet 10 (Some (mk_keys (9 : Receiver) (4 : SecretKey))) None None Regtest {[op1 := coin1]} ∅.
Definition demo_block : list KTx :=
  [mk_tx (tx_id 2) [] [];
   mk_tx (tx_id 3) [mk_txin op1 (Some []) []] [mk_txout 600 (p2tr_to 8); mk_txout 300 (p2tr_to 9)]].
Definition demo_spent : list (list (list Z)) := [[p2tr_to 9]].

Lemma demo_spent_match : spent_outputs_match demo_block demo_spent.
Proof. repeat constructor. by eexists. Qed.

Lemma demo_utxos o c : demo_wallet.(utxos) !! o = Some c → o = op1 ∧ c = coin1.
Proof.
  change (({[op1 := coin1]} : gmap OutPoint Coin) !! o = Some c → o = op1 ∧ c = coin1).
  by intros [<- <-]%lookup_singleton_Some.
Qed.

Lemma demo_fresh : fresh_block demo_block demo_wallet.
Proof.
  split_and!.
  - intros o c [-> _]%demo_utxos. apply (bool_decide_unpack _). by vm_compute.
  - by intros o c s [_ ->]%demo_utxos.
  - by intros tx o c _ _ [_ ->]%demo_utxos.
Qed.

Lemma disconnect_witness :
  ∃ n w', scan_block demo_block demo_spent 11 demo_wallet = Ok (n, w') ∧ n = 1 ∧
    balance (map_to_list w'.(utxos)) = Ok 300 ∧
    (process_disconnect demo_block w').(utxos) = {[op1 := coin1]}.
Proof.
  destruct (disconnect_undoes_scan demo_block demo_spent 11 demo_wallet demo_fresh demo_spent_match)
    as (n & w' & Hs & Hd).
  exists n, w'. vm_compute in Hs. injection Hs as <- <-.
  split_and!; [by vm_compute|done|by vm_compute|exact Hd].
Defined.

Lemma history_witness :
  let w := with_utxos demo_wallet
    {[op1 := mk_coin 1000 (p2tr_to 9) 3 None 10 (Some (mk_spent (tx_id 3) 11));
      mk_outpoint (tx_id 3) 1 := mk_coin 300 (p2tr_to 9) 77 None 11 None]} in
  balance (map_to_list w.(utxos)) = Ok (sumZ (signed <$> history (map_to_list w.(utxos)))) ∧
  balance (map_to_list w.(utxos)) = Ok 300.
Proof.
  intros w. split; [|by vm_compute].
  apply (history_balances (map_to_list w.(utxos)) w).
  - apply Permutation_refl.
  - apply (bool_decide_unpack _). by vm_compute.
  - by vm_compute.
Defined.
End Demo.
