(* ===== verification/WalletStore.v ===== *)
(** * The wallet file (crates/wallet/src/silentpayments/wallet_store.rs)

    The byte layout of the wallet file with its fixed-size coin records, the
    errors of decoding, and the save that writes a temporary file and renames
    it, over a file system that can fail or stop at any point. *)

From S2P Require Import Prelude Fs Wallet.

(** [Scalar::from_be_bytes] accepts the values below the group order. *)
Class Scalars := {
  ORDER : Z;
  order_range : 0 < ORDER ≤ 2 ^ 256;
}.

(** ** Constants *)

(** ["SPWF"]. *)
Definition MAGIC : list Z := [83; 80; 87; 70].
Definition VERSION : Z := 1.
Definition HEADER_LEN : nat := 10.
Definition COUNT_LEN : nat := 4.
Definition RECORD_LEN : nat := 192.
Definition SCRIPT_LEN : nat := 34.
Definition NETWORK_MAINNET : Z := 0.
Definition NETWORK_TESTNET : Z := 1.
Definition NETWORK_REGTEST : Z := 2.
Definition SPENT_FLAG_UNSPENT : Z := 0.
Definition SPENT_FLAG_SPENT : Z := 1.
Definition LABEL_TAG_NONE : Z := 0.
Definition LABEL_TAG_SOME : Z := 1.
Definition R_SPENT_FLAG : nat := 0.
Definition R_TXID : nat := R_SPENT_FLAG + 1.
Definition R_VOUT : nat := R_TXID + 32.
Definition R_VALUE : nat := R_VOUT + 4.
Definition R_SCRIPT : nat := R_VALUE + 8.
Definition R_TWEAK : nat := R_SCRIPT + SCRIPT_LEN.
Definition R_LABEL_TAG : nat := R_TWEAK + 32.
Definition R_LABEL_SCALAR : nat := R_LABEL_TAG + 1.
Definition R_BLOCK_HEIGHT : nat := R_LABEL_SCALAR + 32.
Definition R_SPENT_TXID : nat := R_BLOCK_HEIGHT + 4.
Definition R_SPENT_HEIGHT : nat := R_SPENT_TXID + 32.

Inductive WalletPersistenceError :=
| Io (e : io_error)
| BadMagic
| WrongVersion (v : Z)
| UnknownNetwork (n : Z)
| UnknownSpentFlag (s : Z)
| UnknownLabelTag (t : Z)
| InvalidScalar
| NonP2trScript (got : Z)
| TruncatedFile.

Inductive WalletStoreError :=
| Persistence (e : WalletPersistenceError)
| NetworkMismatch (file expected : Network).

(** ** Records *)

Definition encode_network (n : Network) : Z :=
  match n with
  | Mainnet => NETWORK_MAINNET
  | Testnet => NETWORK_TESTNET
  | Regtest => NETWORK_REGTEST
  end.

Definition decode_network (b : Z) : outcome WalletPersistenceError Network :=
  if decide (b = NETWORK_MAINNET) then Ok Mainnet
  else if decide (b = NETWORK_TESTNET) then Ok Testnet
  else if decide (b = NETWORK_REGTEST) then Ok Regtest
  else Err (UnknownNetwork b).

Definition encode_record (o : OutPoint) (c : Coin) : outcome WalletPersistenceError (list Z) :=
  let script := c.(script_pubkey) in
  if decide (length script ≠ SCRIPT_LEN) then Err (NonP2trScript (Z.of_nat (length script))) else
  let buf := replicate RECORD_LEN 0 in
  let buf := splice R_SPENT_FLAG
    [match c.(spent_by) with Some _ => SPENT_FLAG_SPENT | None => SPENT_FLAG_UNSPENT end] buf in
  let buf := splice R_TXID o.(txid) buf in
  let buf := splice R_VOUT (to_le_bytes 4 o.(vout)) buf in
  let buf := splice R_VALUE (to_le_bytes 8 c.(value)) buf in
  let buf := splice R_SCRIPT script buf in
  let buf := splice R_TWEAK (to_be_bytes 32 c.(tweak)) buf in
  let buf :=
    match c.(label) with
    | Some l =>
        splice R_LABEL_SCALAR (to_be_bytes 32 l) (splice R_LABEL_TAG [LABEL_TAG_SOME] buf)
    | None => splice R_LABEL_TAG [LABEL_TAG_NONE] buf
    end in
  let buf := splice R_BLOCK_HEIGHT (to_le_bytes 4 c.(block_height)) buf in
  let buf :=
    match c.(spent_by) with
    | Some s =>
        splice R_SPENT_HEIGHT (to_le_bytes 4 s.(spent_height))
          (splice R_SPENT_TXID s.(spent_txid) buf)
    | None => buf
    end in
  Ok buf.

Section Decode.
Context `{Scalars}.

Definition scalar_from_be_bytes (b : list Z) : outcome WalletPersistenceError Z :=
  let s := from_be_bytes b in
  if decide (s < ORDER) then Ok s else Err InvalidScalar.

Definition decode_label (tag : Z) (buf : list Z) : outcome WalletPersistenceError (option Z) :=
  if decide (tag = LABEL_TAG_NONE) then Ok None
  else if decide (tag = LABEL_TAG_SOME)
  then Some <$> scalar_from_be_bytes (slice R_LABEL_SCALAR 32 buf)
  else Err (UnknownLabelTag tag).

Definition decode_record (buf : list Z) : outcome WalletPersistenceError (OutPoint * Coin) :=
  spent_flag ← or_panic (buf !! R_SPENT_FLAG);
  if decide (spent_flag ≠ SPENT_FLAG_UNSPENT ∧ spent_flag ≠ SPENT_FLAG_SPENT)
  then Err (UnknownSpentFlag spent_flag) else
  let outpoint := mk_outpoint (slice R_TXID 32 buf) (from_le_bytes (slice R_VOUT 4 buf)) in
  let value := from_le_bytes (slice R_VALUE 8 buf) in
  let script := slice R_SCRIPT SCRIPT_LEN buf in
  tweak ← scalar_from_be_bytes (slice R_TWEAK 32 buf);
  tag ← or_panic (buf !! R_LABEL_TAG);
  label ← decode_label tag buf;
  let block_height := from_le_bytes (slice R_BLOCK_HEIGHT 4 buf) in
  let spent_by :=
    if decide (spent_flag = SPENT_FLAG_SPENT)
    then Some (mk_spent (slice R_SPENT_TXID 32 buf) (from_le_bytes (slice R_SPENT_HEIGHT 4 buf)))
    else None in
  Ok (outpoint, mk_coin value script tweak label block_height spent_by).

(** ** The file *)

Fixpoint encode_records (iter : list (OutPoint * Coin)) : outcome WalletPersistenceError (list Z) :=
  match iter with
  | [] => Ok []
  | (o, c) :: iter =>
      r ← encode_record o c;
      rest ← encode_records iter;
      Ok (r ++ rest)
  end.

(** [iter] is the order the coins are iterated in. *)
Definition wallet_to_bytes `{SilentPayments} (iter : list (OutPoint * Coin)) (w : Wallet)
    : outcome WalletPersistenceError (list Z) :=
  let n := Z.of_nat (length iter) in
  if decide (u_max 32 < n) then Panic else
  records ← encode_records iter;
  Ok (MAGIC ++ [VERSION] ++ [encode_network w.(network)] ++ to_le_bytes 4 w.(scan_height)
        ++ to_le_bytes 4 n ++ records).

(** The loop over the records [i .. i + k]. *)
Fixpoint decode_records (k i : nat) (bytes : list Z) (utxos : gmap OutPoint Coin)
    : outcome WalletPersistenceError (gmap OutPoint Coin) :=
  match k with
  | O => Ok utxos
  | S k =>
      '(o, c) ← decode_record (slice (HEADER_LEN + COUNT_LEN + i * RECORD_LEN) RECORD_LEN bytes);
      decode_records k (S i) bytes (<[o := c]> utxos)
  end.

Definition wallet_from_bytes `{SilentPayments} (bytes : list Z)
    : outcome WalletPersistenceError Wallet :=
  if decide (length bytes < HEADER_LEN + COUNT_LEN)%nat then Err TruncatedFile else
  if decide (slice 0 4 bytes ≠ MAGIC) then Err BadMagic else
  v ← or_panic (bytes !! 4%nat);
  if decide (v ≠ VERSION) then Err (WrongVersion v) else
  nb ← or_panic (bytes !! 5%nat);
  net ← decode_network nb;
  let height := from_le_bytes (slice 6 4 bytes) in
  let count := from_le_bytes (slice 10 4 bytes) in
  let expected_len := Z.of_nat HEADER_LEN + Z.of_nat COUNT_LEN + count * Z.of_nat RECORD_LEN in
  if decide (Z.of_nat (length bytes) ≠ expected_len) then Err TruncatedFile else
  coins ← decode_records (Z.to_nat count) 0 bytes ∅;
  Ok (from_parts height net coins).
End Decode.

(** ** Saving and loading *)

Definition tmp_of (path : string) : string := path +:+ ".tmp".

(** The result and the disk states gone through, oldest first. *)
Definition save_atomic (f : faults) (path : string) (bytes : list Z) (d : fs)
    : outcome WalletPersistenceError unit * list fs :=
  let tmp := tmp_of path in
  let '(failed, states) := replace_file f tmp path bytes d in
  (match failed with Some e => Err (Io e) | None => Ok () end, states).

Section Store.
Context `{Scalars} `{SilentPayments}.

Definition wallet_save (f : faults) (path : string) (iter : list (OutPoint * Coin)) (w : Wallet)
    (d : fs) : outcome WalletPersistenceError unit * list fs :=
  match wallet_to_bytes iter w with
  | Ok bytes => save_atomic f path bytes d
  | Err e => (Err e, [d])
  | Panic => (Panic, [d])
  end.

Definition wallet_load (path : string) (d : fs) : outcome WalletPersistenceError Wallet :=
  bytes ← map_err Io (ok_or (d !! path) NotFound);
  wallet_from_bytes bytes.

Record WalletStore := mk_store { store_path : string; store_network : Network }.

Definition store_exists (s : WalletStore) (d : fs) : bool := bool_decide (is_Some (d !! s.(store_path))).
Definition store_save (f : faults) (s : WalletStore) (iter : list (OutPoint * Coin)) (w : Wallet)
    (d : fs) : outcome WalletPersistenceError unit * list fs :=
  wallet_save f s.(store_path) iter w d.
Definition store_load (s : WalletStore) (d : fs) : outcome WalletStoreError Wallet :=
  w ← map_err Persistence (wallet_load s.(store_path) d);
  if decide (w.(network) ≠ s.(store_network))
  then Err (NetworkMismatch w.(network) s.(store_network))
  else Ok w.
End Store.

(** ** Layout of a record *)

(** Field [i] of a concatenation of fields. *)
Lemma slice_concat (l : list (list Z)) i x off n :
  l !! i = Some x → off = length (concat (take i l)) → n = length x →
  slice off n (concat l) = x.
Proof.
  intros Hi -> ->. rewrite <- (take_drop_middle l i x) at 2 by done.
  rewrite concat_app. cbn [concat]. by apply slice_app_exact.
Qed.

Lemma lookup_slice_1 off (buf : list Z) b : slice off 1 buf = [b] → buf !! off = Some b.
Proof.
  unfold slice. rewrite <- (Nat.add_0_r off) at 2. rewrite <- lookup_drop.
  destruct (drop off buf) as [|x l]; simpl; [done|]. rewrite take_0. congruence.
Qed.

(** The value ranges of a coin that its Rust types guarantee. *)
Definition coin_typed `{Scalars} (o : OutPoint) (c : Coin) : Prop :=
  array_ok 32 o.(txid) ∧ in_u 32 o.(vout) ∧ in_u 64 c.(value) ∧ bytes_ok c.(script_pubkey) ∧
  0 ≤ c.(tweak) < ORDER ∧ (∀ l, c.(label) = Some l → 0 ≤ l < ORDER) ∧
  in_u 32 c.(block_height) ∧
  (∀ s, c.(spent_by) = Some s → array_ok 32 s.(spent_txid) ∧ in_u 32 s.(spent_height)).

Definition record_fields (o : OutPoint) (c : Coin) : list (list Z) :=
  [[match c.(spent_by) with Some _ => SPENT_FLAG_SPENT | None => SPENT_FLAG_UNSPENT end];
   o.(txid); to_le_bytes 4 o.(vout); to_le_bytes 8 c.(value); c.(script_pubkey);
   to_be_bytes 32 c.(tweak);
   [match c.(label) with Some _ => LABEL_TAG_SOME | None => LABEL_TAG_NONE end];
   match c.(label) with Some l => to_be_bytes 32 l | None => replicate 32 0 end;
   to_le_bytes 4 c.(block_height);
   match c.(spent_by) with Some s => s.(spent_txid) | None => replicate 32 0 end;
   match c.(spent_by) with Some s => to_le_bytes 4 s.(spent_height) | None => replicate 4 0 end;
   replicate 8 0].

(** Write the next field, [m] zeros remaining. *)
Ltac fill m := rewrite (splice_next _ _ _ _ m) by (autorewrite with bytes; lia).

Lemma encode_record_fields o c :
  length o.(txid) = 32%nat → length c.(script_pubkey) = SCRIPT_LEN →
  (∀ s, c.(spent_by) = Some s → length s.(spent_txid) = 32%nat) →
  encode_record o c = Ok (concat (record_fields o c)).
Proof.
  intros Htx Hs Hsp. unfold encode_record, record_fields. rewrite decide_False by naive_solver.
  unfold R_SPENT_HEIGHT, R_SPENT_TXID, R_BLOCK_HEIGHT, R_LABEL_SCALAR, R_LABEL_TAG, R_TWEAK,
    R_SCRIPT, R_VALUE, R_VOUT, R_TXID, R_SPENT_FLAG, SCRIPT_LEN in *.
  f_equal. change (replicate RECORD_LEN 0) with ([] ++ replicate 192 0).
  fill 191%nat. fill 159%nat. fill 155%nat. fill 147%nat. fill 113%nat. fill 81%nat.
  destruct (label c) as [l|], (spent_by c) as [s|]; rewrite ?(Hsp s eq_refl).
  - pose proof (Hsp s eq_refl). fill 80%nat. fill 48%nat. fill 44%nat. fill 12%nat. fill 8%nat.
    cbn [concat]. by rewrite <- !app_assoc.
  - fill 80%nat. fill 48%nat. fill 44%nat. rewrite (zeros_split _ 32 12), (zeros_split _ 4 8).
    cbn [concat]. by rewrite <- !app_assoc.
  - pose proof (Hsp s eq_refl). fill 80%nat. rewrite (zeros_split _ 32 48).
    fill 44%nat. fill 12%nat. fill 8%nat. cbn [concat]. by rewrite <- !app_assoc.
  - fill 80%nat. rewrite (zeros_split _ 32 48). fill 44%nat.
    rewrite (zeros_split _ 32 12), (zeros_split _ 4 8).
    cbn [concat]. by rewrite <- !app_assoc.
Qed.

(** ** Decoding what was encoded *)

Section Roundtrip.
Context `{Scalars}.

Lemma scalar_roundtrip z :
  0 ≤ z < ORDER → scalar_from_be_bytes (to_be_bytes 32 z) = Ok z.
Proof.
  intros Hz. pose proof order_range. unfold scalar_from_be_bytes.
  rewrite from_to_be_bytes by (unfold in_u; simpl; lia). by rewrite decide_True by lia.
Qed.

(** Field [i] of the record of [o] and [c], at offset [off]. *)
Lemma record_slice o c i x off n :
  coin_typed o c → length c.(script_pubkey) = SCRIPT_LEN →
  record_fields o c !! i = Some x →
  off = sum_list_with id (take i [1; 32; 4; 8; 34; 32; 1; 32; 4; 32; 4; 8])%nat →
  n = length x →
  slice off n (concat (record_fields o c)) = x.
Proof.
  intros ([Htx _] & _ & _ & _ & _ & _ & _ & Hsp) Hs Hi -> ->. apply (slice_concat _ i); [done| |done].
  assert (length <$> record_fields o c = [1; 32; 4; 8; 34; 32; 1; 32; 4; 32; 4; 8]%nat) as <-.
  { unfold record_fields, SCRIPT_LEN in *. cbn [fmap list_fmap].
    destruct (spent_by c) as [s|] eqn:Hspent; [destruct (Hsp s eq_refl) as [[Hst _] _]; rewrite Hst|];
      destruct (label c); autorewrite with bytes; rewrite Htx, Hs; done. }
  rewrite <- fmap_take. generalize (take i (record_fields o c)). intros l.
  induction l as [|y l IH]; [done|]. cbn [fmap list_fmap concat sum_list_with]. rewrite length_app.
  unfold id at 1. by rewrite IH.
Qed.

Lemma decode_fields o c :
  coin_typed o c → length c.(script_pubkey) = SCRIPT_LEN →
  decode_record (concat (record_fields o c)) = Ok (o, c).
Proof.
  intros Hty Hs. pose proof (record_slice o c) as Hf.
  pose proof Hty as ([Htx _] & Hvout & Hval & _ & Htw & Hlab & Hbh & Hsp).
  set (buf := concat (record_fields o c)) in *.
  assert (buf !! R_SPENT_FLAG = Some (match spent_by c with
    | Some _ => SPENT_FLAG_SPENT | None => SPENT_FLAG_UNSPENT end)) as H0.
  { apply lookup_slice_1. by apply (Hf 0%nat). }
  assert (buf !! R_LABEL_TAG = Some (match label c with
    | Some _ => LABEL_TAG_SOME | None => LABEL_TAG_NONE end)) as H6.
  { apply lookup_slice_1. by apply (Hf 6%nat). }
  unfold decode_record. rewrite H0, H6. simpl_outcome.
  rewrite decide_False by (destruct (spent_by c); intros [? ?]; done).
  rewrite (Hf 1%nat (txid o) R_TXID 32%nat) by done.
  rewrite (Hf 2%nat (to_le_bytes 4 (vout o)) R_VOUT 4%nat) by done.
  rewrite (Hf 3%nat (to_le_bytes 8 (value c)) R_VALUE 8%nat) by done.
  rewrite (Hf 4%nat (script_pubkey c) R_SCRIPT SCRIPT_LEN) by done.
  rewrite (Hf 5%nat (to_be_bytes 32 (tweak c)) R_TWEAK 32%nat) by done.
  rewrite (Hf 8%nat (to_le_bytes 4 (block_height c)) R_BLOCK_HEIGHT 4%nat) by done.
  rewrite scalar_roundtrip by done. simpl_outcome. rewrite !from_to_le_bytes by done.
  assert (decode_label (match label c with Some _ => LABEL_TAG_SOME | None => LABEL_TAG_NONE end) buf
    = Ok (label c)) as ->.
  { unfold decode_label. destruct (label c) as [l|] eqn:Hl; [|done]. simpl.
    rewrite (Hf 7%nat (to_be_bytes 32 l) R_LABEL_SCALAR 32%nat); [|done|done| |done|by rewrite length_to_be_bytes].
    - by rewrite scalar_roundtrip by (by apply Hlab).
    - unfold record_fields. by rewrite Hl. }
  simpl_outcome. destruct (spent_by c) as [s|] eqn:Hspent; simpl.
  - destruct (Hsp s eq_refl) as [[Hst _] Hsh].
    rewrite (Hf 9%nat (spent_txid s) R_SPENT_TXID 32%nat); [|done|done| |done|done].
    2: { unfold record_fields. by rewrite Hspent. }
    rewrite (Hf 10%nat (to_le_bytes 4 (spent_height s)) R_SPENT_HEIGHT 4%nat); [|done|done| |done|done].
    2: { unfold record_fields. by rewrite Hspent. }
    rewrite from_to_le_bytes by done. destruct o, c, s; simpl in *; by subst.
  - destruct o, c; simpl in *. by subst.
Qed.

Definition record_bytes (p : OutPoint * Coin) : list Z := concat (record_fields p.1 p.2).

Lemma length_record_bytes o c :
  coin_typed o c → length c.(script_pubkey) = SCRIPT_LEN → length (record_bytes (o, c)) = RECORD_LEN.
Proof.
  intros ([Htx _] & _ & _ & _ & _ & _ & _ & Hsp) Hs. unfold record_bytes, record_fields, SCRIPT_LEN in *.
  cbn [fst snd concat]. destruct (spent_by c) as [s|]; [destruct (Hsp s eq_refl) as [[Hst _] _]|];
    destruct (label c); autorewrite with bytes; rewrite ?Hst, Htx, Hs; done.
Qed.

(** A coin that can be saved. *)
Definition savable (p : OutPoint * Coin) : Prop :=
  coin_typed p.1 p.2 ∧ length p.2.(script_pubkey) = SCRIPT_LEN.

Lemma encode_records_savable iter :
  Forall savable iter → encode_records iter = Ok (concat (record_bytes <$> iter)).
Proof.
  induction 1 as [|[o c] iter [Hty Hs] _ IH]; [done|]. cbn [encode_records].
  pose proof Hty as ([Htx _] & _ & _ & _ & _ & _ & _ & Hsp).
  rewrite encode_record_fields; [|done|done|intros s Hsome; by destruct (Hsp s Hsome) as [[? _] _]].
  simpl_outcome. rewrite IH. done.
Qed.

(** Record [i] of a file. *)
Lemma file_record (hdr : list Z) (rs : list (list Z)) i r :
  length hdr = (HEADER_LEN + COUNT_LEN)%nat → Forall (λ r, length r = RECORD_LEN) rs →
  rs !! i = Some r →
  slice (HEADER_LEN + COUNT_LEN + i * RECORD_LEN) RECORD_LEN (hdr ++ concat rs) = r.
Proof.
  intros Hh Hall Hi. rewrite <- (take_drop_middle rs i r) at 1 by done.
  rewrite concat_app. cbn [concat]. rewrite app_assoc. apply slice_app_exact.
  - rewrite length_app, Hh. f_equal.
    assert (∀ l : list (list Z), Forall (λ r, length r = RECORD_LEN) l →
      length (concat l) = (length l * RECORD_LEN)%nat) as Hc.
    { induction 1 as [|x l Hx _ IH]; [done|]. cbn [concat]. rewrite length_app, IH, Hx. done. }
    rewrite Hc by (by apply Forall_take). rewrite length_take. f_equal.
    apply lookup_lt_Some in Hi. lia.
  - exact (Forall_lookup_1 _ _ _ _ Hall Hi).
Qed.

Lemma decode_records_file hdr iter k i m :
  length hdr = (HEADER_LEN + COUNT_LEN)%nat → Forall savable iter →
  (i + k = length iter)%nat →
  decode_records k i (hdr ++ concat (record_bytes <$> iter)) m = Ok (add_coins m (drop i iter)).
Proof.
  intros Hh Hall. revert i m. induction k as [|k IH]; intros i m Hik; cbn [decode_records].
  { by rewrite drop_ge by lia. }
  destruct (lookup_lt_is_Some_2 iter i) as [[o c] Hi]; [lia|].
  rewrite (file_record hdr (record_bytes <$> iter) i (record_bytes (o, c))); [|done| |].
  - destruct (Forall_lookup_1 _ _ _ _ Hall Hi) as [Hty Hs].
    change (record_bytes (o, c)) with (concat (record_fields o c)).
    rewrite decode_fields by done. simpl_outcome.
    rewrite IH by lia. by rewrite (drop_S iter _ i Hi).
  - apply Forall_fmap. eapply Forall_impl; [exact Hall|]. intros [o' c'] [? ?].
    by apply length_record_bytes.
  - by rewrite list_lookup_fmap, Hi.
Qed.

Lemma add_coins_union m iter :
  NoDup iter.*1 → add_coins m iter = list_to_map iter ∪ m.
Proof.
  unfold add_coins. revert m. induction iter as [|[o c] iter IH]; intros m Hnd; simpl.
  { by rewrite (left_id_L ∅ (∪)). }
  apply NoDup_cons in Hnd as [Ho Hnd]. rewrite IH by done.
  rewrite <- insert_union_r by (by apply not_elem_of_list_to_map_1). by rewrite insert_union_l.
Qed.

Lemma add_coins_iter iter (m : gmap OutPoint Coin) :
  iter ≡ₚ map_to_list m → add_coins ∅ iter = m.
Proof.
  intros Hit. assert (NoDup iter.*1) as Hnd by (rewrite Hit; apply NoDup_fst_map_to_list).
  rewrite add_coins_union, (right_id_L ∅ (∪)) by done.
  rewrite (list_to_map_proper _ (map_to_list m)) by done. apply list_to_map_to_list.
Qed.
End Roundtrip.

(** ** Decoding arbitrary bytes *)

Section Robust.
Context `{Scalars} `{SilentPayments}.

Lemma decode_record_total buf :
  length buf = RECORD_LEN → decode_record buf ≠ Panic.
Proof.
  intros Hlen. unfold decode_record, decode_label, scalar_from_be_bytes.
  destruct (lookup_lt_is_Some_2 buf R_SPENT_FLAG) as [a ->]; [rewrite Hlen; vm_compute; lia|].
  destruct (lookup_lt_is_Some_2 buf R_LABEL_TAG) as [b ->]; [rewrite Hlen; vm_compute; lia|].
  simpl_outcome. repeat (case_decide; simpl_outcome; try done).
Qed.

Lemma decode_records_total k i bytes m :
  (HEADER_LEN + COUNT_LEN + (i + k) * RECORD_LEN ≤ length bytes)%nat →
  decode_records k i bytes m ≠ Panic.
Proof.
  revert i m. induction k as [|k IH]; intros i m Hlen; cbn [decode_records]; [done|].
  pose proof (decode_record_total
    (slice (HEADER_LEN + COUNT_LEN + i * RECORD_LEN) RECORD_LEN bytes)) as Hr.
  destruct (decode_record _) as [[o c]| |]; simpl_outcome; [|done|].
  - apply IH. lia.
  - intros _. apply Hr; [|done]. apply length_slice. lia.
Qed.

(** The fixed part of a file. *)
Definition header (w : Wallet) (n : Z) : list Z :=
  MAGIC ++ [VERSION] ++ [encode_network w.(network)] ++ to_le_bytes 4 w.(scan_height)
    ++ to_le_bytes 4 n.

Lemma length_header w n : length (header w n) = (HEADER_LEN + COUNT_LEN)%nat.
Proof. unfold header. by autorewrite with bytes. Qed.

Lemma decode_encode_network n : decode_network (encode_network n) = Ok n.
Proof. by destruct n. Qed.

(** Reading past a well-formed header. *)
Lemma from_bytes_header w n body :
  in_u 32 w.(scan_height) → in_u 32 n →
  wallet_from_bytes (header w n ++ body) =
    if decide (Z.of_nat (length body) ≠ n * Z.of_nat RECORD_LEN) then Err TruncatedFile
    else coins ← decode_records (Z.to_nat n) 0 (header w n ++ body) ∅;
         Ok (from_parts w.(scan_height) w.(network) coins).
Proof.
  intros Hsh Hn. unfold wallet_from_bytes.
  assert (length (header w n ++ body) = (14 + length body)%nat) as Hlen
    by (by rewrite length_app, length_header).
  rewrite Hlen. rewrite decide_False by (unfold HEADER_LEN, COUNT_LEN; lia).
  assert (slice 0 4 (header w n ++ body) = MAGIC) as -> by done.
  rewrite decide_False by naive_solver.
  assert ((header w n ++ body) !! 4%nat = Some VERSION) as -> by done.
  assert ((header w n ++ body) !! 5%nat = Some (encode_network w.(network))) as -> by done.
  simpl_outcome. rewrite decide_False by naive_solver. rewrite decode_encode_network. simpl_outcome.
  assert (slice 6 4 (header w n ++ body) = to_le_bytes 4 w.(scan_height)) as ->.
  { unfold header. rewrite <- !app_assoc.
    apply (slice_app_exact 6 (MAGIC ++ [VERSION] ++ [encode_network w.(network)])
             (to_le_bytes 4 w.(scan_height)) (to_le_bytes 4 n ++ body)); [done|apply length_to_le_bytes]. }
  assert (slice 10 4 (header w n ++ body) = to_le_bytes 4 n) as ->.
  { unfold header.
    replace ((MAGIC ++ [VERSION] ++ [encode_network w.(network)] ++ to_le_bytes 4 w.(scan_height)
      ++ to_le_bytes 4 n) ++ body)
      with ((MAGIC ++ [VERSION] ++ [encode_network w.(network)] ++ to_le_bytes 4 w.(scan_height))
        ++ to_le_bytes 4 n ++ body) by (by rewrite <- !app_assoc).
    apply slice_app_exact; [by autorewrite with bytes|apply length_to_le_bytes]. }
  rewrite !from_to_le_bytes by done.
  destruct (decide (Z.of_nat (length body) ≠ n * Z.of_nat RECORD_LEN)) as [Hne|Heq];
    [rewrite decide_True|rewrite decide_False]; try done; unfold HEADER_LEN, COUNT_LEN in *; lia.
Qed.

Lemma wallet_from_bytes_total bytes : wallet_from_bytes bytes ≠ Panic.
Proof.
  unfold wallet_from_bytes. case_decide as Hlen; [done|]. case_decide; [done|].
  destruct (lookup_lt_is_Some_2 bytes 4) as [v ->]; [unfold HEADER_LEN, COUNT_LEN in *; lia|].
  destruct (lookup_lt_is_Some_2 bytes 5) as [nb ->]; [unfold HEADER_LEN, COUNT_LEN in *; lia|].
  simpl_outcome. case_decide; [done|].
  destruct (decode_network nb) as [net| |] eqn:Hnet; simpl_outcome; [|done|].
  2: { unfold decode_network in Hnet. by repeat case_decide. }
  case_decide as Hexp; [done|].
  pose proof (decode_records_total (Z.to_nat (from_le_bytes (slice 10 4 bytes))) 0 bytes ∅) as Hd.
  destruct (decode_records _ _ _ _); simpl_outcome; [done|done|].
  exfalso. apply Hd; [|done]. unfold HEADER_LEN, COUNT_LEN, RECORD_LEN in *. lia.
Qed.

Lemma to_bytes_savable iter w :
  Forall savable iter → Z.of_nat (length iter) ≤ u_max 32 →
  wallet_to_bytes iter w =
    Ok (header w (Z.of_nat (length iter)) ++ concat (record_bytes <$> iter)).
Proof.
  intros Hall Hn. unfold wallet_to_bytes. rewrite decide_False by lia.
  rewrite encode_records_savable by done. simpl_outcome. unfold header. by rewrite <- !app_assoc.
Qed.

Lemma length_records iter :
  Forall savable iter →
  Z.of_nat (length (concat (record_bytes <$> iter))) = Z.of_nat (length iter) * Z.of_nat RECORD_LEN.
Proof.
  induction 1 as [|[o c] iter [? ?] _ IH]; [done|]. cbn [fmap list_fmap concat].
  rewrite length_app, length_record_bytes by done. simpl length. lia.
Qed.

(** What is in the file of a wallet. *)
Definition saved_part (w : Wallet) : Wallet := from_parts w.(scan_height) w.(network) w.(utxos).

(** The bytes of a wallet whose coins can be saved, and what they decode to. *)
Lemma bytes_of_savable iter w :
  iterates_coins iter w →
  map_Forall (λ o c, savable (o, c)) w.(utxos) →
  in_u 32 w.(scan_height) → Z.of_nat (size w.(utxos)) ≤ u_max 32 →
  ∃ bytes, wallet_to_bytes iter w = Ok bytes ∧ wallet_from_bytes bytes = Ok (saved_part w).
Proof.
  intros Hit Hsav Hsh Hsize. unfold iterates_coins in Hit.
  assert (length iter = size w.(utxos)) as Hlen.
  { rewrite Hit. by rewrite length_map_to_list. }
  assert (Forall savable iter) as Hall.
  { rewrite Hit. apply Forall_forall. intros [o c] Hin%elem_of_map_to_list. by apply Hsav. }
  eexists. split; [apply to_bytes_savable; [done|lia]|].
  rewrite from_bytes_header; [|done|unfold in_u, u_max in *; lia].
  rewrite decide_False by (rewrite length_records by done; lia).
  rewrite decode_records_file; [|apply length_header|done|lia].
  simpl_outcome. rewrite drop_0. by rewrite (add_coins_iter _ w.(utxos)).
Qed.

(** ** Properties *)

(** C26: A saved wallet loads back: decoding the bytes of a wallet, written in any
    order of its coins, gives the same height, network and coins, spends
    included; keys and reservations are not part of the file. *)
Theorem wallet_file_roundtrip iter w :
  iterates_coins iter w →
  map_Forall (λ o c, savable (o, c)) w.(utxos) →
  in_u 32 w.(scan_height) → Z.of_nat (size w.(utxos)) ≤ u_max 32 →
  ∃ bytes, wallet_to_bytes iter w = Ok bytes ∧
    wallet_from_bytes bytes = Ok (from_parts w.(scan_height) w.(network) w.(utxos)).
Proof. apply bytes_of_savable. Qed.

(** Decoding never panics, whatever the bytes, and a file whose length does
    not match the number of records it announces is refused as truncated: a
    saved wallet with bytes missing or added after its header does not load. *)
Theorem damaged_file_rejected bytes :
  wallet_from_bytes bytes ≠ Panic ∧
  (∀ iter w body, bytes = header w (Z.of_nat (length iter)) ++ body →
     in_u 32 w.(scan_height) → Z.of_nat (length iter) ≤ u_max 32 →
     Forall savable iter →
     length body ≠ length (concat (record_bytes <$> iter)) →
     wallet_from_bytes bytes = Err TruncatedFile).
Proof.
  split.
  - apply wallet_from_bytes_total.
  - intros iter w body -> Hsh Hn Hall Hne.
    rewrite from_bytes_header; [|done|unfold in_u, u_max in *; lia].
    rewrite decide_True; [done|]. rewrite <- length_records by done. lia.
Qed.

(** ** Crash safety *)

Lemma tmp_of_ne path : tmp_of path ≠ path.
Proof.
  unfold tmp_of. intros Heq. apply (f_equal String.length) in Heq.
  assert (∀ s, String.length (s +:+ ".tmp") = (String.length s + 4)%nat) as Hl.
  { induction s as [|ch s IH]; simpl; [done|]. by rewrite IH. }
  rewrite Hl in Heq. lia.
Qed.

(** Saving is atomic: whichever operation fails and wherever it stops, every disk
    state on the way has the wallet file as it was or complete as it is now, other
    files but the temporary one untouched; after a success the file holds the new
    bytes and the temporary file is gone, after an error it is as it was. *)
Lemma save_atomic_spec f path bytes d r states :
  save_atomic f path bytes d = (r, states) →
  (∀ s, s ∈ states → s !! path = d !! path ∨ s !! path = Some bytes) ∧
  (∀ s p, s ∈ states → p ≠ path → p ≠ tmp_of path → s !! p = d !! p) ∧
  (∃ final, last states = Some final ∧
     match r with
     | Ok _ => final !! path = Some bytes ∧ final !! tmp_of path = None
     | _ => final !! path = d !! path
     end).
Proof.
  unfold save_atomic. destruct (replace_file f (tmp_of path) path bytes d) as [failed st] eqn:Hr.
  intros [= <- <-]. destruct (replace_file_spec _ _ _ _ _ _ _ (tmp_of_ne path) Hr) as (? & ? & ?).
  split_and!; [done|done|]. by destruct failed.
Qed.

End Robust.

(** ** Concrete runs *)

Module Witness.
Import Wallet.Demo.
#[local] Instance demo_scalars : Scalars := {| ORDER := 2 ^ 255; order_range := ltac:(lia) |}.

Definition spent_coin : Coin :=
  mk_coin 1000 (p2tr_to 9) 3 (Some 12) 10 (Some (mk_spent (tx_id 3) 11)).
Definition file_wallet : Wallet := with_utxos demo_wallet {[op1 := spent_coin]}.

Lemma spent_coin_savable : savable (op1, spent_coin).
Proof.
  split; [|done]. split_and!; try done; try (by apply (bool_decide_unpack _); vm_compute).
  - by intros l [= <-].
  - intros s [= <-]. split; by apply (bool_decide_unpack _); vm_compute.
Qed.

Lemma file_utxos o c : file_wallet.(utxos) !! o = Some c → o = op1 ∧ c = spent_coin.
Proof.
  change (({[op1 := spent_coin]} : gmap OutPoint Coin) !! o = Some c → o = op1 ∧ c = spent_coin).
  by intros [<- <-]%lookup_singleton_Some.
Qed.

Lemma file_roundtrip_witness :
  ∃ bytes, wallet_to_bytes [(op1, spent_coin)] file_wallet = Ok bytes ∧ length bytes = 206%nat ∧
    wallet_from_bytes bytes = Ok (from_parts 10 Regtest {[op1 := spent_coin]}).
Proof.
  destruct (wallet_file_roundtrip [(op1, spent_coin)] file_wallet) as (bytes & Hb & Hw).
  - unfold iterates_coins. apply reflexive_eq. by vm_compute.
  - intros o c [-> ->]%file_utxos. apply spent_coin_savable.
  - by vm_compute.
  - by vm_compute.
  - exists bytes. split; [exact Hb|]. split; [|exact Hw].
    vm_compute in Hb. injection Hb as <-. by vm_compute.
Defined.

Lemma damaged_file_witness :
  wallet_from_bytes (header file_wallet 1 ++ take 191 (record_bytes (op1, spent_coin))) = Err TruncatedFile.
Proof.
  apply (proj2 (damaged_file_rejected _) [(op1, spent_coin)] file_wallet
           (take 191 (record_bytes (op1, spent_coin)))).
  - reflexivity.
  - by vm_compute.
  - by vm_compute.
  - constructor; [apply spent_coin_savable|constructor].
  - by vm_compute.
Defined.

End Witness.
