(* ===== verification/WalletTyped.v ===== *)
(** * Wallets that can be saved

    A wallet file can hold every coin whose fields have the ranges of their Rust
    types and whose script is a taproot one. Coins read from a file are such
    coins, and scanning and disconnecting blocks keeps them so: what the node
    holds can always be written, and the file counts its coins in 32 bits. *)

From S2P Require Import Prelude Wallet WalletStore.

(** The ranges the types of a block's parts guarantee. *)
Definition tx_typed (tx : KTx) : Prop :=
  array_ok 32 tx.(ktxid) ∧ Forall (λ o, bytes_ok o.(out_script)) tx.(outputs).
Definition block_typed (block : list KTx) : Prop := Forall tx_typed block.

(** Tweaks and labels are scalars of the curve. *)
Class ScanScalars `{Scalars} `{SilentPayments} := {
  scan_scalars : ∀ r s outs found l pks pk t,
    receiver_scan r s outs = Ok found → (l, pks) ∈ found → (pk, t) ∈ pks →
    0 ≤ t < ORDER ∧ ∀ lb, l = Some lb → 0 ≤ label_inner lb < ORDER;
}.

Definition wallet_savable `{Scalars} `{SilentPayments} (w : Wallet) : Prop :=
  map_Forall (λ o c, savable (o, c)) w.(utxos) ∧ in_u 32 w.(scan_height).

(** The outputs of a block, which bound how many coins it can add. *)
Definition block_outpoints (block : list KTx) : list OutPoint :=
  tx ← block; (λ i : nat, mk_outpoint tx.(ktxid) (wrap_u 32 (Z.of_nat i))) <$> seq 0 (length tx.(outputs)).

Section Typed.
Context `{ScanScalars} `{!SilentPaymentsLaws}.

(** ** Scanning *)

Lemma scan_transaction_scalars rcv b ins touts idx tw lbl :
  (idx, tw, lbl) ∈ scan_transaction rcv b ins touts →
  0 ≤ tw < ORDER ∧ ∀ lb, lbl = Some lb → 0 ≤ label_inner lb < ORDER.
Proof.
  unfold scan_transaction. destruct (is_nil _); [by intros ?%elem_of_nil|].
  destruct (calculate_tweak_data _ _); [|by intros ?%elem_of_nil..].
  destruct (receiver_scan _ _ _) as [found| |] eqn:Hr; [|by intros ?%elem_of_nil..].
  intros Hin. apply list_elem_of_In, in_flat_map in Hin as ([l pks] & Hl & Hin).
  apply list_elem_of_In, list_elem_of_omap in Hin as ([pk t] & Hpk & Heq).
  destruct (find_output pk touts) as [i|]; [|done]. simplify_eq.
  eapply scan_scalars; [exact Hr| |exact Hpk]. by apply list_elem_of_In.
Qed.

(** A coin found at one of the block's outputs that can be saved but for the
    length of its script. *)
Definition found_ok (block : list KTx) (p : OutPoint * Coin) : Prop :=
  coin_typed p.1 p.2 ∧ p.1 ∈ block_outpoints block.

Lemma found_coins_typed block tx h matches found :
  tx ∈ block → tx_typed tx → in_u 32 h →
  (∀ idx tw lbl, (idx, tw, lbl) ∈ matches →
     0 ≤ tw < ORDER ∧ ∀ lb, lbl = Some lb → 0 ≤ label_inner lb < ORDER) →
  found_coins tx h matches = Ok found → Forall (found_ok block) found.
Proof.
  intros Hin [Hid Hout] Hh. revert found.
  induction matches as [|[[idx tw] lbl] matches IH]; intros found Hm; cbn [found_coins].
  { intros [= <-]. constructor. }
  intros (out & Ho%or_panic_Ok & (rest & Hrest & [= <-])%bind_Ok)%bind_Ok.
  constructor; [|apply IH; [|done]; intros ??? Hin'; eapply Hm; by constructor].
  destruct (Hm idx tw lbl) as [Htw Hlb]; [by constructor|]. split; [split_and!|]; simpl.
  - done.
  - by apply wrap_u_range.
  - by apply wrap_u_range.
  - by eapply (Forall_lookup_1 _ _ _ _ Hout).
  - lia.
  - lia.
  - intros l Hl. apply fmap_Some in Hl as (lb & -> & ->). by apply Hlb.
  - done.
  - done.
  - apply list_elem_of_bind. exists tx. split; [|done].
    apply list_elem_of_fmap. exists idx. split; [done|]. apply elem_of_seq.
    apply lookup_lt_Some in Ho. lia.
Qed.

Lemma scan_txs_typed block rcv b h txs found :
  (∀ p, p ∈ txs → p.1 ∈ block) → block_typed block → in_u 32 h →
  scan_txs rcv b h txs = Ok found → Forall (found_ok block) found.
Proof.
  intros Hin Hty Hh. revert found. induction txs as [|[tx sp] txs IH]; intros found; cbn [scan_txs].
  { intros [= <-]. constructor. }
  intros (f & Hf & (r & Hr & [= <-])%bind_Ok)%bind_Ok. apply Forall_app. split.
  - unfold scan_tx in Hf. destruct (is_nil _); [simplify_eq; constructor|].
    apply bind_Ok in Hf as (ins & _ & Hf).
    assert (tx ∈ block) as Htx by (apply (Hin (tx, sp)); by constructor).
    eapply found_coins_typed; [done|by eapply Forall_forall|done| |exact Hf].
    intros ???. apply scan_transaction_scalars.
  - apply IH; [|done]. intros p Hp. apply Hin. by constructor.
Qed.

(** What a scanned block adds. *)
Lemma scan_block_found block spent h w n w' :
  block_typed block → spent_outputs_match block spent → in_u 32 h →
  scan_block block spent h w = Ok (n, w') →
  ∃ found, Forall (λ p, savable p ∧ p.1 ∈ block_outpoints block) found ∧
    spends block h (add_coins w.(utxos) found) w'.(utxos) ∧
    (w'.(scan_height) = h ∨ w'.(scan_height) = w.(scan_height)) ∧ w'.(network) = w.(network).
Proof.
  intros Hty Hm Hh. unfold scan_block. destruct (keys w) as [k|].
  - intros (found & Hf & [= _ <-])%bind_Ok. exists found. split_and!; [|apply spend_block_spends|by left|done].
    destruct (scan_block_inner_spec k.(receiver) k.(scan_key) block spent h Hm) as (found' & Hf' & Hsc).
    rewrite Hf in Hf'. injection Hf' as <-.
    assert (Forall (found_ok block) found) as Hok.
    { eapply scan_txs_typed; [|done|done|exact Hf]. intros [tx sp] Hin%elem_of_zip_l. simpl in *.
      apply list_elem_of_lookup in Hin as [i Hi]. rewrite lookup_drop in Hi. by eapply list_elem_of_lookup_2. }
    apply Forall_forall. intros [o c] Hin. rewrite Forall_forall in Hok, Hsc.
    destruct (Hok _ Hin) as [? ?], (Hsc _ Hin) as (_ & ? & _). done.
  - intros [= _ <-]. exists []. split_and!; [constructor|apply spends_refl|by right|done].
Qed.

(** Marking coins spent and forgetting them keeps coins savable. *)
Lemma spends_savable block h m m' :
  block_typed block → in_u 32 h → spends block h m m' →
  map_Forall (λ o c, savable (o, c)) m → map_Forall (λ o c, savable (o, c)) m'.
Proof.
  intros Hty Hh Hs Hm o c Hc. destruct (Hs o) as [Heq|(c0 & tx & Hc0 & Htx & _ & Hc')].
  - apply Hm. congruence.
  - simplify_eq. destruct (Hm _ _ Hc0) as [(? & ? & ? & ? & ? & ? & ? & _) ?]. simpl in *.
    split; [|done]. unfold coin_typed. simpl. split_and!; try done; try lia.
    intros s [= <-]. split; [|done].
    by destruct (proj1 (Forall_forall _ _) Hty tx Htx).
Qed.

Lemma disconnect_savable block w :
  wallet_savable w → wallet_savable (process_disconnect block w).
Proof.
  intros [Hm Hh]. split; [|done]. intros o c Hc. simpl in Hc. rewrite lookup_fmap in Hc.
  apply fmap_Some in Hc as (c0 & Hc0 & ->). apply map_lookup_filter_Some in Hc0 as [Hc0 _].
  destruct (Hm _ _ Hc0) as [(? & ? & ? & ? & ? & ? & ? & Hsp) ?]. unfold unspend.
  destruct (spent_by c0) as [s|] eqn:Hs; [case_decide|];
    (split; [unfold coin_typed; simpl in *; rewrite ?Hs; split_and!|]); try done; try lia; by rewrite <- Hs.
Qed.

Lemma scan_savable block spent h w n w' :
  block_typed block → spent_outputs_match block spent → in_u 32 h →
  scan_block block spent h w = Ok (n, w') → wallet_savable w → wallet_savable w'.
Proof.
  intros Hty Hm Hh Hs [Hsav Hsh].
  destruct (scan_block_found _ _ _ _ _ _ Hty Hm Hh Hs) as (found & Hf & Hsp & Hheight & _).
  split; [|by destruct Hheight as [->| ->]]. eapply spends_savable; [done|exact Hh|exact Hsp|].
  apply add_coins_Forall; [done|]. eapply Forall_impl; [exact Hf|]. by intros [o c] [? _].
Qed.

(** ** How many coins *)

Lemma size_list_to_set_le (l : list OutPoint) : (size (list_to_set (C:=gset OutPoint) l) ≤ length l)%nat.
Proof.
  induction l as [|o l IH]; cbn [list_to_set length]; [by rewrite size_empty|].
  rewrite size_union_alt, size_singleton.
  assert (size ((list_to_set l : gset OutPoint) ∖ {[o]}) ≤ size (list_to_set (C:=gset OutPoint) l))%nat
    by (apply subseteq_size; set_solver). lia.
Qed.

Lemma add_coins_dom m found (X : gset OutPoint) :
  dom m ⊆ X → Forall (λ p, p.1 ∈ X) found → dom (add_coins m found) ⊆ X.
Proof.
  unfold add_coins. revert m. induction found as [|[o c] found IH]; intros m Hm Hf; simpl; [done|].
  apply Forall_cons in Hf as [Ho Hf]. apply IH; [|done]. rewrite dom_insert. simpl in Ho. set_solver.
Qed.

Lemma spends_dom block h m m' : spends block h m m' → dom m' = dom m.
Proof.
  intros Hs. apply set_eq. intros o. rewrite !elem_of_dom.
  destruct (Hs o) as [->|(c & tx & -> & _ & _ & ->)]; [done|]. split; eauto.
Qed.

Lemma scan_size block spent h w n w' :
  block_typed block → spent_outputs_match block spent → in_u 32 h →
  scan_block block spent h w = Ok (n, w') →
  (size w'.(utxos) ≤ size w.(utxos) + length (block_outpoints block))%nat.
Proof.
  intros Hty Hm Hh Hs. destruct (scan_block_found _ _ _ _ _ _ Hty Hm Hh Hs) as (found & Hf & Hsp & _).
  rewrite <- !(size_dom (D:=gset OutPoint)). rewrite (spends_dom _ _ _ _ Hsp).
  etrans; [apply subseteq_size, (add_coins_dom _ _ (dom w.(utxos) ∪ list_to_set (block_outpoints block)))|].
  - set_solver.
  - eapply Forall_impl; [exact Hf|]. intros p [_ ?]. apply elem_of_union_r, elem_of_list_to_set. done.
  - rewrite size_union_alt. apply Nat.add_le_mono_l.
    etrans; [apply subseteq_size, (subseteq_difference_l _ _ _ (reflexivity _))|]. apply size_list_to_set_le.
Qed.

Lemma disconnect_size block w :
  (size (process_disconnect block w).(utxos) ≤ size w.(utxos))%nat.
Proof. simpl. rewrite map_size_fmap. apply map_subseteq_size, map_filter_subseteq. Qed.

(** ** Reading *)

Lemma slice_array off n buf :
  bytes_ok buf → (off + n ≤ length buf)%nat → array_ok n (slice off n buf).
Proof. intros Hb Hl. split; [by apply length_slice|by apply slice_ok]. Qed.

Lemma slice_le_range off n buf :
  bytes_ok buf → (off + n ≤ length buf)%nat → in_u (8 * Z.of_nat n) (from_le_bytes (slice off n buf)).
Proof.
  intros Hb Hl. pose proof (from_le_bytes_range (slice off n buf) (slice_ok _ _ _ Hb)) as Hr.
  by rewrite length_slice in Hr.
Qed.

Lemma scalar_from_be_range b s :
  bytes_ok b → scalar_from_be_bytes b = Ok s → 0 ≤ s < ORDER.
Proof.
  intros Hb. unfold scalar_from_be_bytes. case_decide; intros [= <-]. split; [|done].
  unfold from_be_bytes. apply from_le_bytes_range. by apply Forall_reverse.
Qed.

Lemma decode_label_range tag buf l lb :
  bytes_ok buf → decode_label tag buf = Ok l → l = Some lb → 0 ≤ lb < ORDER.
Proof.
  intros Hb. unfold decode_label. case_decide; [by intros [= <-]|]. case_decide; [|done].
  intros (s & Hs & ->)%fmap_Ok [= <-]. eapply scalar_from_be_range; [|exact Hs]. by apply slice_ok.
Qed.

Lemma decode_record_savable buf p :
  bytes_ok buf → length buf = RECORD_LEN → decode_record buf = Ok p → savable p.
Proof.
  intros Hb Hlen. unfold decode_record. intros (flag & _ & Hd)%bind_Ok. case_decide; [done|].
  apply bind_Ok in Hd as (tw & Htw & (tag & _ & (l & Hl & [= <-])%bind_Ok)%bind_Ok).
  assert (∀ off n, (off + n ≤ RECORD_LEN)%nat → in_u (8 * Z.of_nat n) (from_le_bytes (slice off n buf))) as Hle
    by (intros; apply slice_le_range; [done|lia]).
  assert (∀ off n, (off + n ≤ RECORD_LEN)%nat → array_ok n (slice off n buf)) as Harr
    by (intros; apply slice_array; [done|lia]).
  apply scalar_from_be_range in Htw; [|by apply slice_ok].
  split; [unfold coin_typed; simpl; split_and!|]; simpl.
  - apply Harr. by vm_compute; lia.
  - apply (Hle _ 4%nat). by vm_compute; lia.
  - apply (Hle _ 8%nat). by vm_compute; lia.
  - by apply slice_ok.
  - lia.
  - lia.
  - intros lb Heq. by eapply decode_label_range.
  - apply (Hle _ 4%nat). by vm_compute; lia.
  - intros s. case_decide; [|done]. intros [= <-]. split; [apply Harr|apply (Hle _ 4%nat)]; by vm_compute; lia.
  - apply length_slice. rewrite Hlen. by vm_compute; lia.
Qed.

Lemma decode_records_savable k i bytes m m' :
  bytes_ok bytes → (HEADER_LEN + COUNT_LEN + (i + k) * RECORD_LEN ≤ length bytes)%nat →
  decode_records k i bytes m = Ok m' →
  map_Forall (λ o c, savable (o, c)) m →
  map_Forall (λ o c, savable (o, c)) m' ∧ (size m' ≤ size m + k)%nat.
Proof.
  intros Hb. revert i m. induction k as [|k IH]; intros i m Hlen; cbn [decode_records].
  { intros [= <-] Hm. split; [done|lia]. }
  intros ([o c] & Hr & Hd)%bind_Ok Hm. apply IH in Hd as [Hs Hsz].
  - split; [done|]. etrans; [exact Hsz|]. rewrite map_size_insert. destruct (m !! o); simpl; lia.
  - lia.
  - apply map_Forall_insert_2; [|done]. eapply decode_record_savable; [by apply slice_ok| |exact Hr].
    apply length_slice. lia.
Qed.

(** Whatever loads can be saved again. *)
Lemma loaded_savable bytes w :
  bytes_ok bytes → wallet_from_bytes bytes = Ok w →
  wallet_savable w ∧ Z.of_nat (size w.(utxos)) ≤ u_max 32 ∧ saved_part w = w.
Proof.
  intros Hb. unfold wallet_from_bytes. case_decide as Hlen; [done|]. case_decide; [done|].
  intros (v & _ & Hv)%bind_Ok. case_decide; [done|].
  apply bind_Ok in Hv as (nb & _ & (net & _ & Hv)%bind_Ok). case_decide as Hexp; [done|].
  apply bind_Ok in Hv as (coins & Hd & [= <-]).
  assert (in_u 32 (from_le_bytes (slice 10 4 bytes))) as Hc
    by (apply (slice_le_range 10 4); [done|unfold HEADER_LEN, COUNT_LEN in *; lia]).
  apply decode_records_savable in Hd as [Hs Hsz]; [|done| |by apply map_Forall_empty].
  - split_and!; [split; [done|]|..]; simpl.
    + apply (slice_le_range 6 4); [done|unfold HEADER_LEN, COUNT_LEN in *; lia].
    + rewrite map_size_empty in Hsz. unfold in_u, u_max in *. lia.
    + done.
  - unfold HEADER_LEN, COUNT_LEN, RECORD_LEN in *. unfold in_u in Hc. lia.
Qed.
End Typed.
