(* ===== verification/KeysFile.v ===== *)
(** * The keys file (crates/wallet/src/silentpayments/keys_file.rs)

    The 69-byte encoding of a scan key and a spend key, and the save that
    refuses to overwrite. *)

From S2P Require Import Prelude Fs Wallet WalletStore.

(** The byte forms of keys, from [secp256k1]. *)
Class KeyBytes `{SilentPayments} := {
  secret_bytes : SecretKey → list Z;
  (** [SecretKey::from_slice], [None] for an invalid key. *)
  secret_from_slice : list Z → option SecretKey;
  xonly_serialize : XOnlyPublicKey → list Z;
}.
Class KeyBytesLaws `{KeyBytes} := {
  secret_bytes_len : ∀ k, length (secret_bytes k) = 32%nat;
  secret_roundtrip : ∀ k, secret_from_slice (secret_bytes k) = Some k;
  xonly_len : ∀ k, length (xonly_serialize k) = 32%nat;
  xonly_roundtrip : ∀ k, xonly_from_slice (xonly_serialize k) = Some k;
}.

(** ["SPKF"]. *)
Definition MAGIC : list Z := [83; 80; 75; 70].
Definition KEY_LEN : nat := 32.
Definition TAG_LEN : nat := 1.
Definition FILE_LEN : nat := length MAGIC + KEY_LEN + TAG_LEN + KEY_LEN.
Definition SPEND_TAG_SECRET : Z := 0.
Definition SPEND_TAG_XONLY_PUB : Z := 1.

Inductive KeysFileError :=
| KeysIo (e : io_error)
| KeysBadMagic
| WrongLength (expected actual : Z)
| UnknownSpendTag (t : Z)
| InvalidKey.

Section KeysFile.
Context `{KeyBytes}.

Inductive SpendKey :=
| Secret (k : SecretKey)
| XOnlyPublic (k : XOnlyPublicKey).

Record SilentPaymentKeysFile := mk_keys_file { kf_scan : SecretKey; kf_spend : SpendKey }.

(** [SpendKey::xonly]. *)
Definition spend_xonly (k : SpendKey) : XOnlyPublicKey :=
  match k with Secret sk => (x_only_public_key sk).1 | XOnlyPublic pk => pk end.

Definition to_bytes (f : SilentPaymentKeysFile) : list Z :=
  let buf := replicate FILE_LEN 0 in
  let off := 0%nat in
  let buf := splice off MAGIC buf in
  let off := (off + length MAGIC)%nat in
  let buf := splice off (secret_bytes f.(kf_scan)) buf in
  let off := (off + KEY_LEN)%nat in
  match f.(kf_spend) with
  | Secret sk => splice (off + TAG_LEN) (secret_bytes sk) (splice off [SPEND_TAG_SECRET] buf)
  | XOnlyPublic pk => splice (off + TAG_LEN) (xonly_serialize pk) (splice off [SPEND_TAG_XONLY_PUB] buf)
  end.

(** [strip_prefix]. *)
Definition strip_prefix (p l : list Z) : option (list Z) :=
  if decide (take (length p) l = p) then Some (drop (length p) l) else None.

Definition from_bytes (bytes : list Z) : outcome KeysFileError SilentPaymentKeysFile :=
  if decide (length bytes ≠ FILE_LEN)
  then Err (WrongLength (Z.of_nat FILE_LEN) (Z.of_nat (length bytes))) else
  body ← ok_or (strip_prefix MAGIC bytes) KeysBadMagic;
  scan ← ok_or (secret_from_slice (take KEY_LEN body)) InvalidKey;
  tag ← or_panic (body !! KEY_LEN);
  let spend_bytes := drop (KEY_LEN + TAG_LEN) body in
  spend ← (if decide (tag = SPEND_TAG_SECRET)
           then Secret <$> ok_or (secret_from_slice spend_bytes) InvalidKey
           else if decide (tag = SPEND_TAG_XONLY_PUB)
           then XOnlyPublic <$> ok_or (xonly_from_slice spend_bytes) InvalidKey
           else Err (UnknownSpendTag tag));
  Ok (mk_keys_file scan spend).

(** [create_new], which fails on an existing file and may fail otherwise, and
    [write_all], which may stop after some bytes. *)
Definition keys_save (create_fails : option io_error) (write_fails : option (nat * io_error))
    (f : SilentPaymentKeysFile) (path : string) (d : fs) : outcome KeysFileError unit * fs :=
  match d !! path, create_fails with
  | Some _, _ => (Err (KeysIo AlreadyExists), d)
  | None, Some e => (Err (KeysIo e), d)
  | None, None =>
      match write_fails with
      | Some (k, e) => (Err (KeysIo e), <[path := take k (to_bytes f)]> d)
      | None => (Ok (), <[path := to_bytes f]> d)
      end
  end.

Definition keys_load (path : string) (d : fs) : outcome KeysFileError SilentPaymentKeysFile :=
  bytes ← map_err KeysIo (ok_or (d !! path) NotFound);
  from_bytes bytes.
End KeysFile.

Section Properties.
Context `{KeyBytesLaws}.

(** The tag and the bytes of a spend key. *)
Definition spend_fields (k : SpendKey) : Z * list Z :=
  match k with
  | Secret sk => (SPEND_TAG_SECRET, secret_bytes sk)
  | XOnlyPublic pk => (SPEND_TAG_XONLY_PUB, xonly_serialize pk)
  end.

Lemma to_bytes_layout f :
  to_bytes f = MAGIC ++ secret_bytes f.(kf_scan) ++ [(spend_fields f.(kf_spend)).1]
                 ++ (spend_fields f.(kf_spend)).2.
Proof.
  unfold to_bytes. pose proof (secret_bytes_len f.(kf_scan)) as Hl.
  change (replicate FILE_LEN 0) with ([] ++ replicate 69 0).
  rewrite (splice_next _ _ _ _ 65) by done.
  rewrite (splice_next _ _ _ _ 33) by (rewrite ?Hl; done).
  assert (∀ t k, length k = 32%nat →
    splice (0 + length MAGIC + KEY_LEN + TAG_LEN) k
      (splice (0 + length MAGIC + KEY_LEN) [t]
         ((([] ++ MAGIC) ++ secret_bytes f.(kf_scan)) ++ replicate 33 0)) =
    MAGIC ++ secret_bytes f.(kf_scan) ++ [t] ++ k) as Htail.
  { intros t k Hk. rewrite (splice_next _ _ _ _ 32) by (autorewrite with bytes; rewrite ?Hl; done).
    rewrite (splice_next _ _ _ _ 0) by (autorewrite with bytes; rewrite ?Hl, ?Hk; done).
    simpl. by rewrite app_nil_r, <- !app_assoc. }
  destruct (kf_spend f); simpl spend_fields; apply Htail; [apply secret_bytes_len|apply xonly_len].
Qed.

Lemma to_bytes_length f : length (to_bytes f) = FILE_LEN.
Proof.
  rewrite to_bytes_layout. autorewrite with bytes. rewrite secret_bytes_len.
  destruct (kf_spend f); simpl; by rewrite ?secret_bytes_len, ?xonly_len.
Qed.

Lemma keys_roundtrip f : from_bytes (to_bytes f) = Ok f.
Proof.
  unfold from_bytes. rewrite decide_False by (rewrite to_bytes_length; naive_solver). rewrite to_bytes_layout.
  unfold strip_prefix. rewrite take_app_length, decide_True by done. rewrite drop_app_length.
  simpl_outcome. rewrite take_app_length' by (by rewrite secret_bytes_len).
  rewrite secret_roundtrip. simpl_outcome.
  rewrite lookup_app_r by (rewrite secret_bytes_len; unfold KEY_LEN; lia).
  rewrite secret_bytes_len.
  assert (∀ t k, drop (KEY_LEN + TAG_LEN) (secret_bytes f.(kf_scan) ++ [t] ++ k) = k) as ->.
  { intros t k. rewrite app_assoc. apply drop_app_length'. autorewrite with bytes.
    by rewrite secret_bytes_len. }
  simpl_outcome. simpl.
  destruct f as [scan [sk|pk]]; simpl; by rewrite ?secret_roundtrip, ?xonly_roundtrip.
Qed.

Lemma keys_save_load f path d :
  d !! path = None → ∃ d', keys_save None None f path d = (Ok (), d') ∧ keys_load path d' = Ok f.
Proof.
  intros Hn. unfold keys_save. rewrite Hn. eexists. split; [done|].
  unfold keys_load. rewrite lookup_insert_eq. apply keys_roundtrip.
Qed.

(** A keys file reads back as written, and saving it never replaces a file:
    when the path is taken nothing changes, and when it is free the saved keys
    load back; no other file is ever touched. *)
Theorem keys_file_safe f path d :
  from_bytes (to_bytes f) = Ok f ∧ length (to_bytes f) = FILE_LEN ∧
  (∀ cf wf, is_Some (d !! path) → keys_save cf wf f path d = (Err (KeysIo AlreadyExists), d)) ∧
  (d !! path = None → ∃ d', keys_save None None f path d = (Ok (), d') ∧ keys_load path d' = Ok f) ∧
  (∀ cf wf p, p ≠ path → (keys_save cf wf f path d).2 !! p = d !! p).
Proof.
  split_and!; [apply keys_roundtrip|apply to_bytes_length| |apply keys_save_load|].
  - intros cf wf [x Hx]. unfold keys_save. by rewrite Hx.
  - intros cf wf p Hp. unfold keys_save. repeat case_match; simpl; by rewrite ?lookup_insert_ne.
Qed.
End Properties.

(** ** A concrete file *)

Module Witness.
(** Keys as numbers, padded to 32 bytes. *)
#[local] Instance keys_sp : SilentPayments := {|
  SecretKey := Z; PublicKey := Z; XOnlyPublicKey := Z; xonly_eq_dec := _;
  Receiver := Z; Label := Z; SpError := unit;
  x_only_public_key k := (k, false);
  negate k := k; from_secret_key k := k; from_x_only_even k := k;
  label_new k _ := k; label_inner l := l;
  receiver_new a _ _ _ := Ok a; receiving_code _ := "sp1";
  get_pubkey_from_input _ _ _ := Ok None;
  calculate_tweak_data _ _ := Err ();
  calculate_ecdh_shared_secret a _ := a;
  receiver_scan _ _ _ := Ok [];
  is_p2tr _ := false;
  xonly_from_slice l := head l;
|}.
#[local] Instance keys_bytes : KeyBytes := {|
  secret_bytes k := (k : Z) :: replicate 31 0;
  secret_from_slice l := head (l : list SecretKey);
  xonly_serialize k := (k : Z) :: replicate 31 0;
|}.
#[local] Instance keys_bytes_laws : KeyBytesLaws.
Proof. by split. Qed.

Definition demo_file : SilentPaymentKeysFile :=
  mk_keys_file (3 : SecretKey) (XOnlyPublic (5 : XOnlyPublicKey)).

Lemma keys_file_witness :
  length (to_bytes demo_file) = 69%nat ∧ from_bytes (to_bytes demo_file) = Ok demo_file ∧
  keys_save None None demo_file "k" {["k" := [1]]} = (Err (KeysIo AlreadyExists), {["k" := [1]]}).
Proof.
  destruct (keys_file_safe demo_file "k" {["k" := [1]]}) as (Hrt & Hlen & Hs & _).
  split; [exact Hlen|]. split; [exact Hrt|]. apply Hs. by eexists.
Defined.
End Witness.
