(* ===== verification/Scan.v ===== *)
(** * The scan thread and the wallet on disk (src/bin/node.rs)

    The kernel reports connected and disconnected blocks through callbacks, which
    put them into a channel; the scan thread takes them out, applies them to the
    shared wallet and saves it. Failures end the node through the shutdown
    signal. [start_node] is what [main] does with the wallet before that. *)

From S2P Require Import Prelude Joinable Shutdown Fs Messages Kernel Wallet WalletStore WalletTyped KeysFile.

(** What the scan thread reads of the kernel: the transactions of a block, and
    the outputs a block of the tree spends, [None] for an error. *)
Class BlockData `{Kernel} := {
  block_txs : KBlock → list KTx;
  read_spent_outputs : Chainman → Entry → option (list (list (list Z)));
}.
Class BlockDataLaws `{BlockData} := {
  block_txs_typed : ∀ b, block_typed (block_txs b);
  (** The undo data have an output for every input after the coinbase. *)
  spent_outputs_fit : ∀ c b e spent,
    get_block_tree_entry c (kblock_hash b) = Some e → read_spent_outputs c e = Some spent →
    spent_outputs_match (block_txs b) spent;
}.

(** The order [HashMap] iterates the coins in. *)
Abbreviation coin_order := (gmap OutPoint Coin → list (OutPoint * Coin)).

(** [ScanEvent] of src/lib.rs, over the type of blocks. *)
Inductive ScanEvent (K : Type) :=
| Connected (block : K) (block_hash : BlockHash)
| Disconnected (block : K) (block_height : Z).
Arguments Connected {_} _ _.
Arguments Disconnected {_} _ _.

(** The wallet behind its mutex, the channel of scan events and whether its
    receiver is alive, the running flag, the shutdown signal and the disk. *)
Record node_of `{SilentPayments} (K : Type) := mk_node {
  nd_wallet : Wallet;
  nd_events : list (ScanEvent K);
  nd_receiving : bool;
  nd_running : bool;
  nd_fatal : FatalShutdown;
  nd_disk : fs;
}.
Arguments mk_node {_ _} _ _ _ _ _ _.
Arguments nd_wallet {_ _} _.
Arguments nd_events {_ _} _.
Arguments nd_receiving {_ _} _.
Arguments nd_running {_ _} _.
Arguments nd_fatal {_ _} _.
Arguments nd_disk {_ _} _.
Abbreviation node := (node_of KBlock).

Section Scan.
Context `{BlockData} `{Scalars} `{!SilentPayments} `{!KeyBytes}.

Definition with_wallet (w : Wallet) (nd : node) : node :=
  mk_node w nd.(nd_events) nd.(nd_receiving) nd.(nd_running) nd.(nd_fatal) nd.(nd_disk).
Definition with_events (es : list (ScanEvent KBlock)) (nd : node) : node :=
  mk_node nd.(nd_wallet) es nd.(nd_receiving) nd.(nd_running) nd.(nd_fatal) nd.(nd_disk).
Definition with_fatal (f : FatalShutdown) (nd : node) : node :=
  mk_node nd.(nd_wallet) nd.(nd_events) nd.(nd_receiving) nd.(nd_running) f nd.(nd_disk).
Definition with_disk (d : fs) (nd : node) : node :=
  mk_node nd.(nd_wallet) nd.(nd_events) nd.(nd_receiving) nd.(nd_running) nd.(nd_fatal) d.

(** ** Starting *)

(** [main] leaves with exit code 1 when the wallet file does not load. *)
Definition initial_wallet (store : WalletStore) (d : fs) : outcome WalletStoreError Wallet :=
  if store_exists store d then store_load store d
  else Ok (wallet_new store.(store_network)).

(** Both failures panic. *)
Definition auto_import_keys {E} (path : string) (d : fs) (w : Wallet) : outcome E Wallet :=
  match keys_load path d with
  | Ok file =>
      let result :=
        match file.(kf_spend) with
        | Secret spend_secret => import_signing_keys file.(kf_scan) spend_secret w
        | XOnlyPublic spend_xonly => import_keys file.(kf_scan) spend_xonly w
        end in
      match result with Ok w => Ok w | _ => Panic end
  | _ => Panic
  end.

Definition start_node (store : WalletStore) (sp_keys_file : option string) (d : fs)
    : outcome WalletStoreError node :=
  w ← initial_wallet store d;
  w ← match sp_keys_file with Some path => auto_import_keys path d w | None => Ok w end;
  Ok (mk_node w [] true true (fatal_new true) d).

(** ** The kernel's callbacks *)

(** [FatalShutdown::trigger]; [None] when it panics. *)
Definition fatal_trigger (nd : node) : option node :=
  let '(sent, f) := trigger nd.(nd_fatal) in
  if sent then Some (with_fatal f nd) else None.

(** Sending fails when the receiver is gone. *)
Definition send_event (e : ScanEvent KBlock) (nd : node) : option node :=
  if nd.(nd_receiving) then Some (with_events (nd.(nd_events) ++ [e]) nd) else fatal_trigger nd.

Definition on_block_connected (block : KBlock) (nd : node) : option node :=
  match nd.(nd_wallet).(keys) with
  | None => Some nd
  | Some _ => send_event (Connected block (kblock_hash block)) nd
  end.

Definition on_block_disconnected (block : KBlock) (entry : Entry) (nd : node) : option node :=
  send_event (Disconnected block (wrap_u 32 (height entry))) nd.

(** ** The scan thread *)

(** Save and report a failure; the disk states gone through come first. *)
Definition save_wallet (store : WalletStore) (f : faults) (iter : coin_order) (nd : node)
    : option (list fs * node) :=
  let w := nd.(nd_wallet) in
  let '(r, states) := store_save f store (iter w.(utxos)) w nd.(nd_disk) in
  let nd := with_disk (default nd.(nd_disk) (last states)) nd in
  match r with
  | Ok _ => Some (states, nd)
  | Err _ => (λ nd, (states, nd)) <$> fatal_trigger nd
  | Panic => None
  end.

(** The body of the loop for one event; [None] is a panic. *)
Definition scan_event (store : WalletStore) (chainman : Chainman) (f : faults) (iter : coin_order)
    (e : ScanEvent KBlock) (nd : node) : option (list fs * node) :=
  match e with
  | Connected block block_hash =>
      match get_block_tree_entry chainman block_hash with
      | None => (λ nd, ([], nd)) <$> fatal_trigger nd
      | Some entry =>
          let block_height := wrap_u 32 (height entry) in
          match read_spent_outputs chainman entry with
          | None => (λ nd, ([], nd)) <$> fatal_trigger nd
          | Some spent_outputs =>
              match scan_block (block_txs block) spent_outputs block_height nd.(nd_wallet) with
              | Ok (_, w) => save_wallet store f iter (with_wallet w nd)
              | _ => None
              end
          end
      end
  | Disconnected block _ =>
      save_wallet store f iter (with_wallet (process_disconnect (block_txs block) nd.(nd_wallet)) nd)
  end.

(** The thread ends and drops the receiver with what is still queued. *)
Definition close (nd : node) : node :=
  mk_node nd.(nd_wallet) [] false nd.(nd_running) nd.(nd_fatal) nd.(nd_disk).

(** One turn of the loop: the running flag, then [recv_timeout]. [senders] says
    whether a sender is left. *)
Definition scan_turn (store : WalletStore) (chainman : Chainman) (f : faults) (iter : coin_order)
    (senders : bool) (nd : node) : option (list fs * node) :=
  if nd.(nd_running) then
    match nd.(nd_events) with
    | [] => Some ([], if senders then nd else close nd)
    | e :: es => scan_event store chainman f iter e (with_events es nd)
    end
  else Some ([], close nd).

(** ** The other threads *)

(** [IpcInterface::shutdown]: an error when nobody listens. *)
Definition ipc_shutdown (nd : node) : bool * node :=
  let '(sent, f) := send_signal nd.(nd_fatal) in (sent, with_fatal f nd).

(** [run] receives the signal. *)
Definition stop_running (nd : node) : node :=
  mk_node nd.(nd_wallet) nd.(nd_events) nd.(nd_receiving) false nd.(nd_fatal) nd.(nd_disk).

(** ** Runs *)

Inductive label :=
| LConnected (block : KBlock)
| LDisconnected (block : KBlock)
| LKernelError
| LTurn (chainman : Chainman) (f : faults)
| LImport (scan : SecretKey) (spend : XOnlyPublicKey)
| LReserve (ops : list OutPoint)
| LRelease (ops : list OutPoint)
| LShutdown
| LStop.

(** A step with the disk states it goes through. [LKernelError] is a flush error
    or a fatal error of the kernel. *)
Inductive nstep (store : WalletStore) : node → label → list fs → node → Prop :=
| n_connected block nd nd' :
    on_block_connected block nd = Some nd' → nstep store nd (LConnected block) [] nd'
| n_disconnected block entry nd nd' :
    on_block_disconnected block entry nd = Some nd' → nstep store nd (LDisconnected block) [] nd'
| n_kernel_error nd nd' :
    fatal_trigger nd = Some nd' → nstep store nd LKernelError [] nd'
| n_turn chainman f (iter : coin_order) senders nd states nd' :
    (∀ m, iter m ≡ₚ map_to_list m) → nd.(nd_receiving) = true →
    scan_turn store chainman f iter senders nd = Some (states, nd') →
    nstep store nd (LTurn chainman f) states nd'
| n_import scan spend nd w :
    import_keys scan spend nd.(nd_wallet) = Ok w →
    nstep store nd (LImport scan spend) [] (with_wallet w nd)
| n_reserve ops nd : nstep store nd (LReserve ops) [] (with_wallet (reserve_coins ops nd.(nd_wallet)) nd)
| n_release ops nd : nstep store nd (LRelease ops) [] (with_wallet (release_coins ops nd.(nd_wallet)) nd)
| n_shutdown nd : nstep store nd LShutdown [] (ipc_shutdown nd).2
| n_stop nd : (0 < nd.(nd_fatal).(signals))%nat → nstep store nd LStop [] (stop_running nd).

(** A run with the wallets held along it. *)
Inductive nrun (store : WalletStore) (nd0 : node) : list label → list Wallet → node → Prop :=
| nrun_start : nrun store nd0 [] [nd0.(nd_wallet)] nd0
| nrun_step ls ws nd l states nd' :
    nrun store nd0 ls ws nd → nstep store nd l states nd' →
    nrun store nd0 (ls ++ [l]) (ws ++ [nd'.(nd_wallet)]) nd'.

(** How many coins the blocks reported in a run can bring. *)
Definition block_size (block : KBlock) : nat := length (block_outpoints (block_txs block)).
Definition label_size (l : label) : nat := match l with LConnected block => block_size block | _ => 0 end.
Definition run_size (ls : list label) : nat := sum_list_with label_size ls.
Definition event_size (e : ScanEvent KBlock) : nat := match e with Connected block _ => block_size block | _ => 0 end.
End Scan.

(** ** Properties *)

Section Properties.
Context `{BlockDataLaws} `{Scalars} `{!SilentPayments} `{!KeyBytes}.
Context `{!ScanScalars} `{!SilentPaymentsLaws}.
Variable store : WalletStore.

(** The disk is one on which every file holds bytes. *)
Definition files_ok (d : fs) : Prop := map_Forall (λ _, bytes_ok) d.

(** [initial_wallet] looks at the wallet file only. *)
Lemma initial_wallet_path d d' :
  d !! store.(store_path) = d' !! store.(store_path) → initial_wallet store d = initial_wallet store d'.
Proof. intros Heq. unfold initial_wallet, store_exists, store_load, wallet_load. by rewrite Heq. Qed.

Lemma saved_network w bytes d :
  w.(network) = store.(store_network) → wallet_from_bytes bytes = Ok (saved_part w) →
  d !! store.(store_path) = Some bytes → initial_wallet store d = Ok (saved_part w).
Proof.
  intros Hn Hb Hd. unfold initial_wallet, store_exists, store_load, wallet_load. rewrite Hd.
  rewrite bool_decide_true by eauto. simpl_outcome. rewrite Hb. simpl_outcome.
  by rewrite decide_False by (intros Hne; by apply Hne).
Qed.

(** What a save does to the disk. *)
Lemma store_save_spec f iter w d r states :
  iter ≡ₚ map_to_list w.(utxos) → wallet_savable w → Z.of_nat (size w.(utxos)) ≤ u_max 32 →
  w.(network) = store.(store_network) → store_save f store iter w d = (r, states) →
  r ≠ Panic ∧
  (∀ s, s ∈ states → initial_wallet store s = initial_wallet store d ∨
                     initial_wallet store s = Ok (saved_part w)) ∧
  ∃ final, last states = Some final ∧
    initial_wallet store final = (if is_ok r then Ok (saved_part w) else initial_wallet store d).
Proof.
  intros Hit [Hsav Hh] Hsz Hn. unfold store_save, wallet_save.
  destruct (bytes_of_savable iter w Hit Hsav Hh Hsz) as (bytes & -> & Hb). intros Hs.
  destruct (save_atomic_spec _ _ _ _ _ _ Hs) as (Hst & _ & final & Hl & Hf).
  split_and!.
  - unfold save_atomic in Hs. repeat case_match; simplify_eq; done.
  - intros s [Heq|Heq]%Hst; [left; by apply initial_wallet_path|right; by eapply saved_network].
  - exists final. split; [done|]. destruct r; simpl.
    + destruct Hf as [Hf _]. by eapply saved_network.
    + by apply initial_wallet_path.
    + by apply initial_wallet_path.
Qed.

(** ** The invariant *)

(** [ws] are the wallets held so far, [bound] the coins they may come to have. *)
Record node_ok (ws : list Wallet) (bound : nat) (nd : node) : Prop := {
  ok_savable : wallet_savable nd.(nd_wallet);
  ok_network : nd.(nd_wallet).(network) = store.(store_network);
  ok_listening : nd.(nd_fatal).(listening) = true;
  ok_events : ∀ block hash, Connected block hash ∈ nd.(nd_events) → hash = kblock_hash block;
  ok_size : (size nd.(nd_wallet).(utxos) + sum_list_with event_size nd.(nd_events) ≤ bound)%nat;
  ok_disk : ∃ w, w ∈ ws ∧ initial_wallet store nd.(nd_disk) = Ok (saved_part w) ∧
    (nd.(nd_fatal).(triggered) = false → saved_part w = saved_part nd.(nd_wallet));
}.

(** Steps that touch neither the saved part, nor the disk, nor the channel. *)
Lemma node_ok_same ws ws' bound nd nd' :
  node_ok ws bound nd → (∀ w, w ∈ ws → w ∈ ws') →
  saved_part nd'.(nd_wallet) = saved_part nd.(nd_wallet) → nd'.(nd_disk) = nd.(nd_disk) →
  nd'.(nd_events) = nd.(nd_events) ∨ nd'.(nd_events) = [] →
  nd'.(nd_fatal).(listening) = true →
  (nd'.(nd_fatal).(triggered) = false → nd.(nd_fatal).(triggered) = false) →
  node_ok ws' bound nd'.
Proof.
  intros [[Hm Hh] Hn Hl He Hsz (w & Hw & Hd & Ht)] Hws Hp Hdisk Hev Hl' Htr.
  injection Hp as Hph Hpn Hpu. split.
  - split; [by rewrite Hpu|by rewrite Hph].
  - congruence.
  - done.
  - intros b h. destruct Hev as [->| ->]; [apply He|by intros ?%elem_of_nil].
  - rewrite Hpu. destruct Hev as [->| ->]; [done|]. simpl. lia.
  - exists w. split_and!; [by apply Hws|congruence|]. intros Hf. rewrite Ht by auto.
    unfold saved_part. congruence.
Qed.

Lemma trigger_listening f : f.(listening) = true →
  ∃ f', trigger f = (true, f') ∧ f'.(listening) = true ∧ f'.(triggered) = true.
Proof.
  intros Hl. unfold trigger. destruct (triggered f) eqn:Ht; [by exists f|]. rewrite Hl. eauto.
Qed.

Lemma fatal_trigger_ok ws bound nd :
  node_ok ws bound nd → ∃ nd', fatal_trigger nd = Some nd' ∧ node_ok ws bound nd' ∧
    nd'.(nd_wallet) = nd.(nd_wallet) ∧ nd'.(nd_disk) = nd.(nd_disk) ∧
    nd'.(nd_fatal).(triggered) = true.
Proof.
  intros Hok. destruct (trigger_listening _ (ok_listening _ _ _ Hok)) as (f & Hf & Hl & Ht).
  unfold fatal_trigger. rewrite Hf. eexists. split_and!; [done| |done|done|done].
  apply (node_ok_same ws ws bound nd); simpl; auto. congruence.
Qed.

Lemma send_event_ok ws bound e nd :
  node_ok ws bound nd → (∀ block hash, e = Connected block hash → hash = kblock_hash block) →
  ∃ nd', send_event e nd = Some nd' ∧ node_ok ws (bound + event_size e) nd' ∧
    nd'.(nd_wallet) = nd.(nd_wallet).
Proof.
  intros Hok He. unfold send_event. destruct (nd_receiving nd).
  - eexists. split_and!; [done| |done]. destruct Hok as [? ? ? Hev Hsz ?]. split; try done; simpl.
    + intros b h [?|<-%list_elem_of_singleton]%elem_of_app; [by apply Hev|by apply He].
    + rewrite sum_list_with_app. simpl. lia.
  - destruct (fatal_trigger_ok _ _ _ Hok) as (nd' & -> & Hok' & Hw & _). eexists. split_and!; [done| |done].
    destruct Hok' as [? ? ? ? ? ?]. split; try done. lia.
Qed.

Lemma save_wallet_ok ws bound f (iter : coin_order) nd :
  (∀ m, iter m ≡ₚ map_to_list m) → Z.of_nat bound ≤ u_max 32 →
  wallet_savable nd.(nd_wallet) → nd.(nd_wallet).(network) = store.(store_network) →
  nd.(nd_fatal).(listening) = true →
  (∀ block hash, Connected block hash ∈ nd.(nd_events) → hash = kblock_hash block) →
  (size nd.(nd_wallet).(utxos) + sum_list_with event_size nd.(nd_events) ≤ bound)%nat →
  (∃ w, w ∈ ws ∧ initial_wallet store nd.(nd_disk) = Ok (saved_part w)) →
  ∃ states nd', save_wallet store f iter nd = Some (states, nd') ∧
    node_ok (ws ++ [nd.(nd_wallet)]) bound nd' ∧ nd'.(nd_wallet) = nd.(nd_wallet) ∧
    ∀ s, s ∈ states → initial_wallet store s = initial_wallet store nd.(nd_disk) ∨
                      initial_wallet store s = Ok (saved_part nd.(nd_wallet)).
Proof.
  intros Hiter Hbound Hsav Hnet Hlist Hev Hsz (w & Hw & Hd). unfold save_wallet.
  destruct (store_save f store _ _ _) as [r states] eqn:Hs.
  destruct (store_save_spec _ _ _ _ _ _ (Hiter _) Hsav ltac:(lia) Hnet Hs) as (Hr & Hst & final & Hl & Hf).
  rewrite Hl. simpl. set (nd1 := with_disk final nd).
  assert (∀ b ws' w', w' ∈ ws' → initial_wallet store final = Ok (saved_part w') →
    (b = false → saved_part w' = saved_part nd.(nd_wallet)) →
    node_ok ws' bound (with_fatal (mk_fatal b nd.(nd_fatal).(signals) true) nd1)) as Hok1.
  { intros. split; try done. eexists. split_and!; done. }
  destruct r as [u|e|]; simpl in Hf; [| |done].
  - exists states, nd1. split_and!; [done| |done|done].
    assert (nd1 = with_fatal (mk_fatal nd.(nd_fatal).(triggered) nd.(nd_fatal).(signals) true) nd1) as ->.
    { unfold nd1, with_fatal, with_disk. simpl. destruct (nd_fatal nd); simpl in *. by subst. }
    apply (Hok1 _ _ nd.(nd_wallet)); [|done|done]. apply elem_of_app. right. by apply list_elem_of_singleton.
  - unfold fatal_trigger. destruct (trigger_listening _ Hlist) as (f2 & Hf2 & Hl2 & Ht2).
    change (nd_fatal nd1) with (nd_fatal nd). rewrite Hf2. do 2 eexists. split_and!; [done| |done|done].
    apply (node_ok_same _ _ _ _ _ (Hok1 true (ws ++ [nd.(nd_wallet)]) w
      ltac:(by apply elem_of_app; left) ltac:(congruence) ltac:(done))); simpl; auto; congruence.
Qed.

(** One event never panics, and keeps the invariant. *)
Lemma scan_event_ok ws bound chainman f (iter : coin_order) e nd :
  (∀ m, iter m ≡ₚ map_to_list m) → Z.of_nat bound ≤ u_max 32 →
  (∀ block hash, e = Connected block hash → hash = kblock_hash block) →
  node_ok ws (bound - event_size e) nd → (event_size e ≤ bound)%nat →
  ∃ states nd', scan_event store chainman f iter e nd = Some (states, nd') ∧
    node_ok (ws ++ [nd'.(nd_wallet)]) bound nd' ∧
    ∀ s, s ∈ states → initial_wallet store s = initial_wallet store nd.(nd_disk) ∨
                      initial_wallet store s = Ok (saved_part nd'.(nd_wallet)).
Proof.
  intros Hiter Hbound He Hok Hle.
  assert (∃ states nd', (λ nd, ([] : list fs, nd)) <$> fatal_trigger nd = Some (states, nd') ∧
    node_ok (ws ++ [nd'.(nd_wallet)]) bound nd' ∧
    ∀ s, s ∈ states → initial_wallet store s = initial_wallet store nd.(nd_disk) ∨
                      initial_wallet store s = Ok (saved_part nd'.(nd_wallet))) as Hfail.
  { destruct (fatal_trigger_ok _ _ _ Hok) as (nd' & -> & Hok' & _). do 2 eexists.
    split_and!; [done| |by intros s ?%elem_of_nil].
    destruct Hok' as [? ? ? ? ? (w & ? & ?)]. split; try done; [lia|]. exists w. by rewrite elem_of_app; auto. }
  pose proof Hok as [Hsav Hnet Hlist Hev Hsz (w0 & Hw0 & Hd & _)].
  assert (∀ w, wallet_savable w → w.(network) = nd.(nd_wallet).(network) →
    (size w.(utxos) ≤ size nd.(nd_wallet).(utxos) + event_size e)%nat →
    ∃ states nd', save_wallet store f iter (with_wallet w nd) = Some (states, nd') ∧
      node_ok (ws ++ [nd'.(nd_wallet)]) bound nd' ∧
      ∀ s, s ∈ states → initial_wallet store s = initial_wallet store nd.(nd_disk) ∨
                        initial_wallet store s = Ok (saved_part nd'.(nd_wallet))) as Hsave.
  { intros w Hw Hn Hsize.
    destruct (save_wallet_ok ws bound f iter (with_wallet w nd)) as (states & nd' & Hs & Hok' & Hnw & Hst);
      try done; simpl in *; [congruence|lia|eauto|].
    exists states, nd'. rewrite Hnw. done. }
  destruct e as [block hash|block h]; cbn [scan_event].
  - destruct (get_block_tree_entry chainman hash) as [entry|] eqn:Hentry; [|done].
    destruct (read_spent_outputs chainman entry) as [spent|] eqn:Hspent; [|done].
    rewrite (He block hash eq_refl) in Hentry.
    pose proof (spent_outputs_fit _ _ _ _ Hentry Hspent) as Hfit.
    destruct (scan_block_spec (block_txs block) spent (wrap_u 32 (height entry)) (nd_wallet nd) Hfit)
      as (n & w' & found & Hs & _). rewrite Hs.
    pose proof (block_txs_typed block) as Hty. pose proof (wrap_u_range 32 (height entry) ltac:(lia)) as Hh.
    destruct (scan_block_found _ _ _ _ _ _ Hty Hfit Hh Hs) as (_ & _ & _ & _ & Hn).
    apply Hsave; [by eapply scan_savable|done|by eapply scan_size].
  - apply Hsave; [by apply disconnect_savable|done|]. etrans; [apply disconnect_size|]. simpl. lia.
Qed.

Lemma scan_turn_ok ws bound chainman f (iter : coin_order) senders nd :
  (∀ m, iter m ≡ₚ map_to_list m) → Z.of_nat bound ≤ u_max 32 → node_ok ws bound nd →
  ∃ states nd', scan_turn store chainman f iter senders nd = Some (states, nd') ∧
    node_ok (ws ++ [nd'.(nd_wallet)]) bound nd' ∧
    ∀ s, s ∈ states → initial_wallet store s = initial_wallet store nd.(nd_disk) ∨
                      initial_wallet store s = Ok (saved_part nd'.(nd_wallet)).
Proof.
  intros Hiter Hbound Hok. unfold scan_turn.
  assert (∀ nd', nd'.(nd_wallet) = nd.(nd_wallet) → nd'.(nd_disk) = nd.(nd_disk) →
    nd'.(nd_events) = nd.(nd_events) ∨ nd'.(nd_events) = [] → nd'.(nd_fatal) = nd.(nd_fatal) →
    ∃ states nd'', Some ([] : list fs, nd') = Some (states, nd'') ∧
      node_ok (ws ++ [nd''.(nd_wallet)]) bound nd'' ∧
      ∀ s, s ∈ states → initial_wallet store s = initial_wallet store nd.(nd_disk) ∨
                        initial_wallet store s = Ok (saved_part nd''.(nd_wallet))) as Hsame.
  { intros nd' Hw Hd He Hf. do 2 eexists. split_and!; [done| |by intros s ?%elem_of_nil].
    eapply node_ok_same; [exact Hok|..]; rewrite ?Hf; try done.
    - intros w ?. by apply elem_of_app; left.
    - by rewrite Hw.
    - by apply (ok_listening _ _ _ Hok). }
  destruct (nd_running nd); [|apply Hsame; simpl; auto].
  destruct (nd_events nd) as [|e es] eqn:Hes; [destruct senders; apply Hsame; rewrite ?Hes; simpl; auto|].
  destruct Hok as [? ? ? Hev Hsz ?]. rewrite Hes in Hev, Hsz. simpl in Hsz.
  apply (scan_event_ok ws bound chainman f iter e (with_events es nd)); try done; [| |lia].
  - intros block hash ->. apply Hev. by constructor.
  - split; try done; simpl; [|lia]. intros b h ?. apply Hev. by constructor.
Qed.

(** ** Starting and running *)

Lemma import_saved scan spend w w' : import_keys scan spend w = Ok w' → saved_part w' = saved_part w.
Proof. unfold import_keys. by intros (rcv & _ & [= <-])%bind_Ok. Qed.

Lemma import_signing_saved scan spend w w' :
  import_signing_keys scan spend w = Ok w' → saved_part w' = saved_part w.
Proof.
  unfold import_signing_keys. destruct (x_only_public_key spend) as [pk odd].
  intros (w1 & Hw & [= <-])%bind_Ok. by apply import_saved in Hw.
Qed.

Lemma auto_import_saved {E} path d w w' :
  auto_import_keys (E:=E) path d w = Ok w' → saved_part w' = saved_part w.
Proof.
  unfold auto_import_keys. destruct (keys_load path d) as [[scan [k|k]]| |]; simpl; try done.
  - destruct (import_signing_keys scan k w) eqn:Hi; intros [= <-]. by eapply import_signing_saved.
  - destruct (import_keys scan k w) eqn:Hi; intros [= <-]. by eapply import_saved.
Qed.

Lemma initial_wallet_savable d w :
  files_ok d → initial_wallet store d = Ok w →
  wallet_savable w ∧ w.(network) = store.(store_network) ∧ saved_part w = w.
Proof.
  intros Hd. unfold initial_wallet. destruct (store_exists store d).
  - unfold store_load. intros (w0 & Hw & Hn)%bind_Ok. case_decide as Hnet; [done|]. injection Hn as <-.
    unfold wallet_load in Hw. destruct (d !! store_path store) as [bytes|] eqn:Hb; [|done].
    simpl in Hw. destruct (wallet_from_bytes bytes) as [w1| |] eqn:Hf; [|done|done]. injection Hw as ->.
    destruct (loaded_savable bytes w0) as (? & _ & ?); [by apply (Hd _ _ Hb)|done|].
    split_and!; [done|by destruct (decide (w0.(network) = store.(store_network)))|done].
  - intros [= <-]. split_and!; [split; [apply map_Forall_empty|by vm_compute]|done|done].
Qed.

Lemma start_ok sp_keys_file d nd :
  files_ok d → start_node store sp_keys_file d = Ok nd →
  node_ok [nd.(nd_wallet)] (size nd.(nd_wallet).(utxos)) nd.
Proof.
  intros Hd. unfold start_node. intros (w & Hw & (w' & Hw' & [= <-])%bind_Ok)%bind_Ok.
  destruct (initial_wallet_savable _ _ Hd Hw) as ([Hm Hh] & Hn & Hs).
  assert (saved_part w' = w) as Hsw.
  { rewrite <- Hs. destruct sp_keys_file; [by eapply auto_import_saved|by simplify_eq]. }
  assert (w'.(scan_height) = w.(scan_height) ∧ w'.(network) = w.(network) ∧ w'.(utxos) = w.(utxos))
    as (Hh' & Hn' & Hu') by (rewrite <- Hsw; done).
  split; simpl; [by split; [rewrite Hu'|rewrite Hh']|congruence|done|by intros ? ? ?%elem_of_nil|lia|].
  exists w'. split_and!; [by apply list_elem_of_singleton|by rewrite Hsw|done].
Qed.

Lemma node_ok_weaken ws ws' b b' nd :
  node_ok ws b nd → (∀ w, w ∈ ws → w ∈ ws') → (b ≤ b')%nat → node_ok ws' b' nd.
Proof.
  intros [? ? ? ? ? (w & ? & ?)] Hws Hb. split; try done; [lia|]. exists w. auto.
Qed.

(** Every step keeps the invariant and shows only wallets on disk that were held. *)
Lemma step_ok ws bound nd l states nd' :
  node_ok ws bound nd → nstep store nd l states nd' → Z.of_nat bound ≤ u_max 32 →
  node_ok (ws ++ [nd'.(nd_wallet)]) (bound + label_size l) nd' ∧
  ∀ s, s ∈ states → initial_wallet store s = initial_wallet store nd.(nd_disk) ∨
                    initial_wallet store s = Ok (saved_part nd'.(nd_wallet)).
Proof.
  intros Hok Hst Hbound.
  assert (∀ nd1 b, node_ok ws b nd1 → (b ≤ bound + label_size l)%nat →
    node_ok (ws ++ [nd1.(nd_wallet)]) (bound + label_size l) nd1 ∧
    ∀ s : fs, s ∈ [] → initial_wallet store s = initial_wallet store nd.(nd_disk) ∨
                       initial_wallet store s = Ok (saved_part nd1.(nd_wallet))) as Hquiet.
  { intros nd1 b Hok1 Hb. split; [|by intros s ?%elem_of_nil].
    eapply node_ok_weaken; [done| |done]. intros w ?. by apply elem_of_app; left. }
  assert (∀ w, saved_part w = saved_part nd.(nd_wallet) → node_ok ws bound (with_wallet w nd)) as Hwallet.
  { intros w Hw. eapply node_ok_same; [exact Hok|..]; simpl; auto. apply (ok_listening _ _ _ Hok). }
  destruct Hst as [block nd nd' Hc|block entry nd nd' Hc|nd nd' Hf|chainman f iter senders nd states nd' Hi _ Ht
    |scan spend nd w Hw|ops nd|ops nd|nd|nd Hsig].
  - unfold on_block_connected in Hc. destruct (keys (nd_wallet nd)).
    + destruct (send_event_ok ws bound (Connected block (kblock_hash block)) nd Hok) as (nd1 & Hs & Hok1 & _).
      { by intros ? ? [= -> <-]. }
      simplify_eq. by eapply Hquiet.
    + simplify_eq. eapply Hquiet; [done|lia].
  - destruct (send_event_ok ws bound (Disconnected block (wrap_u 32 (height entry))) nd Hok)
      as (nd1 & Hs & Hok1 & _); [done|]. unfold on_block_disconnected in Hc. simplify_eq. by eapply Hquiet.
  - destruct (fatal_trigger_ok _ _ _ Hok) as (nd1 & Hs & Hok1 & _). simplify_eq. eapply Hquiet; [done|lia].
  - destruct (scan_turn_ok ws bound chainman f iter senders nd Hi Hbound Hok) as (st & nd1 & Ht' & Hok1 & Hs).
    simplify_eq. split; [|done]. eapply node_ok_weaken; [done|done|lia].
  - eapply Hquiet; [apply Hwallet; by eapply import_saved|lia].
  - eapply Hquiet; [by apply Hwallet|lia].
  - eapply Hquiet; [by apply Hwallet|lia].
  - eapply Hquiet; [|apply Nat.le_add_r]. unfold ipc_shutdown, send_signal. rewrite (ok_listening _ _ _ Hok).
    eapply node_ok_same; [exact Hok|..]; simpl; auto.
  - eapply Hquiet; [|apply Nat.le_add_r].
    eapply node_ok_same; [exact Hok|..]; simpl; auto. apply (ok_listening _ _ _ Hok).
Qed.

Lemma run_size_snoc ls l : run_size (ls ++ [l]) = (run_size ls + label_size l)%nat.
Proof. unfold run_size. rewrite sum_list_with_app. simpl. lia. Qed.

Lemma nrun_ok nd0 ls ws nd :
  node_ok [nd0.(nd_wallet)] (size nd0.(nd_wallet).(utxos)) nd0 → nrun store nd0 ls ws nd →
  Z.of_nat (size nd0.(nd_wallet).(utxos) + run_size ls) ≤ u_max 32 →
  node_ok ws (size nd0.(nd_wallet).(utxos) + run_size ls) nd.
Proof.
  intros Hstart. induction 1 as [|ls ws nd l states nd' _ IH Hst]; intros Hb.
  { eapply node_ok_weaken; [done|done|lia]. }
  rewrite run_size_snoc in *. eapply step_ok in Hst as [Hok _]; [|apply IH; lia|lia].
  eapply node_ok_weaken; [done|done|lia].
Qed.

(** The flag stays up. *)
Lemma fatal_trigger_spec nd nd' :
  fatal_trigger nd = Some nd' →
  nd'.(nd_wallet) = nd.(nd_wallet) ∧ nd'.(nd_events) = nd.(nd_events) ∧ nd'.(nd_fatal).(triggered) = true.
Proof.
  unfold fatal_trigger, trigger. destruct (triggered (nd_fatal nd)) eqn:Ht; [by intros [= <-]|].
  destruct (listening (nd_fatal nd)); [by intros [= <-]|done].
Qed.

Lemma save_wallet_fields f (iter : coin_order) nd states nd' :
  save_wallet store f iter nd = Some (states, nd') →
  nd'.(nd_events) = nd.(nd_events) ∧ (nd.(nd_fatal).(triggered) = true → nd'.(nd_fatal).(triggered) = true).
Proof.
  unfold save_wallet. destruct (store_save _ _ _ _ _) as [[u|e|] st]; [by intros [= <- <-]| |done].
  intros (nd1 & Hf & [= <- <-])%fmap_Some. by apply fatal_trigger_spec in Hf as (_ & ? & ?).
Qed.

Lemma scan_event_fields chainman f (iter : coin_order) e nd states nd' :
  scan_event store chainman f iter e nd = Some (states, nd') →
  nd'.(nd_events) = nd.(nd_events) ∧ (nd.(nd_fatal).(triggered) = true → nd'.(nd_fatal).(triggered) = true).
Proof.
  assert ((λ nd, ([] : list fs, nd)) <$> fatal_trigger nd = Some (states, nd') →
    nd'.(nd_events) = nd.(nd_events) ∧ (nd.(nd_fatal).(triggered) = true → nd'.(nd_fatal).(triggered) = true))
    as Hf by (intros (nd1 & Hf & [= -> ->])%fmap_Some; by apply fatal_trigger_spec in Hf as (_ & ? & ?)).
  assert (∀ w, save_wallet store f iter (with_wallet w nd) = Some (states, nd') →
    nd'.(nd_events) = nd.(nd_events) ∧ (nd.(nd_fatal).(triggered) = true → nd'.(nd_fatal).(triggered) = true))
    as Hs by (by intros w Hw%save_wallet_fields).
  destruct e as [block hash|block h]; cbn [scan_event]; [|apply Hs].
  repeat (case_match; try done). apply Hs.
Qed.

Lemma triggered_stays nd l states nd' :
  nstep store nd l states nd' → nd'.(nd_fatal).(triggered) = false → nd.(nd_fatal).(triggered) = false.
Proof.
  intros Hst. enough (nd.(nd_fatal).(triggered) = true → nd'.(nd_fatal).(triggered) = true)
    by (destruct (triggered (nd_fatal nd)), (triggered (nd_fatal nd')); naive_solver).
  assert (∀ e nd nd', send_event e nd = Some nd' →
    nd.(nd_fatal).(triggered) = true → nd'.(nd_fatal).(triggered) = true) as Hsend.
  { intros e nd1 nd2. unfold send_event. destruct (nd_receiving nd1); [by intros [= <-]|].
    by intros (_ & _ & ?)%fatal_trigger_spec. }
  destruct Hst as [block nd nd' Hc|block entry nd nd' Hc|nd nd' Hf|chainman f iter senders nd states nd' Hi _ Ht
    |scan spend nd w Hw|ops nd|ops nd|nd|nd Hsig]; try done.
  - unfold on_block_connected in Hc. destruct (keys (nd_wallet nd)); [by eapply Hsend|by simplify_eq].
  - by eapply Hsend.
  - by apply fatal_trigger_spec in Hf as (_ & _ & ?).
  - unfold scan_turn in Ht. destruct (nd_running nd); [|by simplify_eq].
    destruct (nd_events nd) as [|e es]; [destruct senders; by simplify_eq|].
    by apply scan_event_fields in Ht as [_ ?].
  - unfold ipc_shutdown, send_signal. by destruct (listening (nd_fatal nd)).
Qed.

(** ** The disk *)

(** C12: The node always finds its wallet again: stop it at any instant of any run,
    in the middle of a save or after one that failed, and starting on what is
    then on disk loads the height and coins of a wallet the node held during
    the run; as long as no failure was reported it is the wallet before or
    after the step that was cut short. The run brings no more coins than the
    wallet file can count, in 32 bits. *)
Theorem restart_finds_wallet sp_keys_file d nd0 ls ws nd l states nd' s :
  files_ok d → start_node store sp_keys_file d = Ok nd0 →
  nrun store nd0 ls ws nd → nstep store nd l states nd' →
  Z.of_nat (size nd0.(nd_wallet).(utxos) + run_size (ls ++ [l])) ≤ u_max 32 →
  s ∈ nd.(nd_disk) :: states ++ [nd'.(nd_disk)] →
  ∃ w, w ∈ ws ++ [nd'.(nd_wallet)] ∧ initial_wallet store s = Ok (saved_part w) ∧
    (nd'.(nd_fatal).(triggered) = false →
       saved_part w = saved_part nd.(nd_wallet) ∨ saved_part w = saved_part nd'.(nd_wallet)).
Proof.
  intros Hd Hstart Hrun Hst Hb Hs. rewrite run_size_snoc in Hb.
  pose proof (nrun_ok _ _ _ _ (start_ok _ _ _ Hd Hstart) Hrun ltac:(lia)) as Hok.
  destruct (step_ok _ _ _ _ _ _ Hok Hst ltac:(lia)) as [Hok' Hstates].
  destruct Hok as [_ _ _ _ _ (w & Hw & Hi & Hf)], Hok' as [_ _ _ _ _ (w' & Hw' & Hi' & Hf')].
  assert (nd'.(nd_fatal).(triggered) = false → nd.(nd_fatal).(triggered) = false) as Hmono
    by (by eapply triggered_stays).
  assert (w ∈ ws ++ [nd'.(nd_wallet)]) as Hin by (by apply elem_of_app; left).
  apply elem_of_cons in Hs as [->|[Hs| ->%list_elem_of_singleton]%elem_of_app]; [by exists w; auto 9| |by exists w'; auto 9].
  destruct (Hstates s Hs) as [->| ->]; [by exists w; auto 9|].
  exists nd'.(nd_wallet). split_and!; [|done|by right]. apply elem_of_app. right. by apply list_elem_of_singleton.
Qed.

(** ** Failures *)

(** C34: No thread of the node panics over the wallet: wherever a run has come to,
    the kernel's callbacks return, the scan thread completes its turn whatever
    the kernel answers and whatever fails on disk, and a failed save, a block
    missing from the tree or unreadable undo data trigger the shutdown, the
    latter two leaving the wallet as it was. The run brings no more coins than the
    wallet file can count, in 32 bits. *)
Theorem scan_never_panics sp_keys_file d nd0 ls ws nd :
  files_ok d → start_node store sp_keys_file d = Ok nd0 → nrun store nd0 ls ws nd →
  Z.of_nat (size nd0.(nd_wallet).(utxos) + run_size ls) ≤ u_max 32 →
  (∀ block, is_Some (on_block_connected block nd)) ∧
  (∀ block entry, is_Some (on_block_disconnected block entry nd)) ∧
  is_Some (fatal_trigger nd) ∧
  (∀ chainman f (iter : coin_order) senders, (∀ m, iter m ≡ₚ map_to_list m) →
     ∃ states nd', scan_turn store chainman f iter senders nd = Some (states, nd') ∧
       (nd.(nd_running) = true → ∀ e es, nd.(nd_events) = e :: es →
          nd'.(nd_events) = es ∧
          match e with
          | Connected block _ =>
              get_block_tree_entry chainman (kblock_hash block) ≫= read_spent_outputs chainman = None →
              nd'.(nd_wallet) = nd.(nd_wallet) ∧ nd'.(nd_fatal).(triggered) = true
          | _ => True
          end ∧
          (initial_wallet store nd'.(nd_disk) ≠ Ok (saved_part nd'.(nd_wallet)) →
             nd'.(nd_fatal).(triggered) = true))).
Proof.
  intros Hd Hstart Hrun Hb. pose proof (nrun_ok _ _ _ _ (start_ok _ _ _ Hd Hstart) Hrun Hb) as Hok.
  split_and!.
  - intros block. unfold on_block_connected. case_match; [|eauto].
    edestruct (send_event_ok _ _ (Connected block (kblock_hash block)) _ Hok) as (nd' & -> & _); [|eauto].
    by intros ? ? [= -> <-].
  - intros block entry. unfold on_block_disconnected.
    edestruct (send_event_ok _ _ (Disconnected block (wrap_u 32 (height entry))) _ Hok)
      as (nd' & -> & _); [done|eauto].
  - destruct (fatal_trigger_ok _ _ _ Hok) as (nd' & -> & _). eauto.
  - intros chainman f iter senders Hiter.
    destruct (scan_turn_ok _ _ chainman f iter senders nd Hiter Hb Hok) as (states & nd' & Ht & Hok' & _).
    exists states, nd'. split; [done|]. intros Hr e es Hes. unfold scan_turn in Ht. rewrite Hr, Hes in Ht.
    split_and!.
    + by apply scan_event_fields in Ht as [? _].
    + destruct e as [block hash|]; [|done]. intros Hnone. pose proof Hok as [_ _ _ Hev _ _].
      rewrite (Hev block hash) in Ht by (rewrite Hes; by constructor). simpl in Ht.
      destruct (get_block_tree_entry chainman (kblock_hash block)) as [entry|]; simpl in *;
        [rewrite Hnone in Ht|]; apply fmap_Some in Ht as (nd1 & Hf & [= -> ->]);
        by apply fatal_trigger_spec in Hf as (-> & ? & ?).
    + intros Hne. destruct (triggered (nd_fatal nd')) eqn:Htr; [done|]. exfalso. apply Hne.
      destruct Hok' as [_ _ _ _ _ (w & _ & -> & Hw)]. by rewrite Hw.
Qed.

(** ** The order of events *)

Definition has_keys (w : Wallet) : bool := match w.(keys) with Some _ => true | None => false end.

(** The blocks the wallet is told of, connected ([true]) or disconnected: one
    without keys is not told of connected blocks. [k] says whether there are keys
    at the start. *)
Fixpoint reported (k : bool) (ls : list label) : list (bool * KBlock) :=
  match ls with
  | [] => []
  | LConnected block :: ls => (if k then [(true, block)] else []) ++ reported k ls
  | LDisconnected block :: ls => (false, block) :: reported k ls
  | LImport _ _ :: ls => reported true ls
  | _ :: ls => reported k ls
  end.
Definition imported (ls : list label) : list (SecretKey * XOnlyPublicKey) :=
  omap (λ l, match l with LImport scan spend => Some (scan, spend) | _ => None end) ls.
Definition keyed (k : bool) (ls : list label) : bool :=
  k || negb (is_nil (imported ls)).
Definition queued (es : list (ScanEvent KBlock)) : list (bool * KBlock) :=
  (λ e, match e with Connected block _ => (true, block) | Disconnected block _ => (false, block) end) <$> es.

(** The wallet's event for a reported block, with the undo data and the height
    the kernel gives for it. *)
Definition event_for (r : bool * KBlock) (e : chain_event) : Prop :=
  match r with
  | (true, block) =>
      ∃ chainman entry spent,
        get_block_tree_entry chainman (kblock_hash block) = Some entry ∧
        read_spent_outputs chainman entry = Some spent ∧
        e = Wallet.Connected (block_txs block) spent (wrap_u 32 (height entry))
  | (false, block) => e = Wallet.Disconnected (block_txs block)
  end.

(** What changes the wallet: events of the chain and imports of keys. *)
Inductive action :=
| AEvent (e : chain_event)
| AImport (scan : SecretKey) (spend : XOnlyPublicKey).

Definition act (w : outcome Empty_set Wallet) (a : action) : outcome Empty_set Wallet :=
  match a with
  | AEvent e => on_event w e
  | AImport scan spend =>
      w ← w;
      match import_keys scan spend w with Ok w => Ok w | _ => Panic end
  end.

Definition events_of (acts : list action) : list chain_event :=
  omap (λ a, match a with AEvent e => Some e | _ => None end) acts.
Definition imports_of (acts : list action) : list (SecretKey * XOnlyPublicKey) :=
  omap (λ a, match a with AImport scan spend => Some (scan, spend) | _ => None end) acts.

(** Reservations do not matter to scanning or to importing. *)
Lemma on_event_reserve w r e w' :
  on_event (Ok w) e = Ok w' → on_event (Ok (with_reserved w r)) e = Ok (with_reserved w' r).
Proof.
  destruct e as [block spent h|block]; simpl; [|by intros [= <-]]. unfold scan_block. simpl.
  destruct (keys w); [|by intros [= <-]].
  intros ([n w1] & (found & Hf & [= <- <-])%bind_Ok & ->)%fmap_Ok. by rewrite Hf.
Qed.

Lemma act_reserve w r a w' : act (Ok w) a = Ok w' → act (Ok (with_reserved w r)) a = Ok (with_reserved w' r).
Proof.
  destruct a as [e|scan spend]; [apply on_event_reserve|]. simpl. unfold import_keys. simpl.
  destruct (build_receiver _ _ _); simpl; [|done..]. by intros [= <-].
Qed.

(** The wallet holds what the blocks taken from the channel and the imports [ims]
    make of [w0]. *)
Definition caught_up (w0 : Wallet) (rs : list (bool * KBlock)) (ims : list (SecretKey * XOnlyPublicKey))
    (nd : node) : Prop :=
  ∃ taken acts w r, rs = taken ++ queued nd.(nd_events) ∧ Forall2 event_for taken (events_of acts) ∧
    imports_of acts = ims ∧ foldl act (Ok w0) acts = Ok w ∧ nd.(nd_wallet) = with_reserved w r.

Lemma caught_up_same w0 rs ims nd nd' :
  caught_up w0 rs ims nd → nd'.(nd_events) = nd.(nd_events) →
  (∃ r, nd'.(nd_wallet) = with_reserved nd.(nd_wallet) r) → caught_up w0 rs ims nd'.
Proof.
  intros (taken & acts & w & r & Hrs & Hall & Him & Hf & Hw) He [r' Hw']. exists taken, acts, w, r'.
  rewrite He, Hw', Hw. done.
Qed.

Lemma with_reserved_same w : with_reserved w w.(reserved) = w.
Proof. by destruct w. Qed.

(** One more action. *)
Lemma caught_up_act w0 rs taken acts w r (nd nd' : node) a :
  foldl act (Ok w0) acts = Ok w → nd.(nd_wallet) = with_reserved w r →
  act (Ok nd.(nd_wallet)) a = Ok nd'.(nd_wallet) →
  rs = taken ++ queued nd'.(nd_events) → Forall2 event_for taken (events_of (acts ++ [a])) →
  caught_up w0 rs (imports_of (acts ++ [a])) nd'.
Proof.
  intros Hf Hw Hon Hrs Hall. apply (act_reserve _ w.(reserved)) in Hon. rewrite Hw in Hon.
  change (with_reserved (with_reserved w r) w.(reserved)) with (with_reserved w w.(reserved)) in Hon.
  rewrite with_reserved_same in Hon.
  exists taken, (acts ++ [a]), (with_reserved nd'.(nd_wallet) w.(reserved)), nd'.(nd_wallet).(reserved).
  split_and!; [done..| |by destruct (nd_wallet nd')]. by rewrite foldl_app, Hf.
Qed.

Lemma caught_up_send w0 rs ims e nd nd' :
  caught_up w0 rs ims nd → nd'.(nd_receiving) = true → send_event e nd = Some nd' →
  caught_up w0 (rs ++ queued [e]) ims nd'.
Proof.
  intros (taken & acts & w & r & -> & Hall & Him & Hf & Hw) Hr. unfold send_event. destruct (nd_receiving nd) eqn:Hrec.
  - intros [= <-]. exists taken, acts, w, r. simpl. unfold queued. rewrite fmap_app, app_assoc. done.
  - unfold fatal_trigger. destruct (trigger _) as [[] f]; [|done]. intros [= <-]. simpl in Hr. congruence.
Qed.

Lemma caught_up_import w0 rs ims scan spend nd w' :
  caught_up w0 rs ims nd → import_keys scan spend nd.(nd_wallet) = Ok w' →
  caught_up w0 rs (ims ++ [(scan, spend)]) (with_wallet w' nd).
Proof.
  intros (taken & acts & w & r & -> & Hall & <- & Hf & Hw) Hi.
  replace (imports_of acts ++ _) with (imports_of (acts ++ [AImport scan spend]))
    by (unfold imports_of; by rewrite omap_app).
  eapply caught_up_act; [done..| |done|].
  - simpl. by rewrite Hi.
  - unfold events_of. rewrite omap_app. simpl. by rewrite app_nil_r.
Qed.

(** Saving without a failure. *)
Lemma save_wallet_quiet f (iter : coin_order) nd states nd' :
  save_wallet store f iter nd = Some (states, nd') → nd'.(nd_fatal).(triggered) = false →
  nd'.(nd_wallet) = nd.(nd_wallet) ∧ nd'.(nd_events) = nd.(nd_events).
Proof.
  unfold save_wallet. destruct (store_save _ _ _ _ _) as [[u|e|] st]; [by intros [= <- <-]| |done].
  intros (nd1 & Hf & [= <- <-])%fmap_Some. apply fatal_trigger_spec in Hf as (_ & _ & Ht). congruence.
Qed.

(** An event handled without a failure. *)
Lemma scan_event_quiet chainman f (iter : coin_order) e nd states nd' :
  scan_event store chainman f iter e nd = Some (states, nd') → nd'.(nd_fatal).(triggered) = false →
  (∀ block hash, e = Connected block hash → hash = kblock_hash block) →
  ∃ ce, (∀ b, queued [e] = [b] → event_for b ce) ∧ on_event (Ok nd.(nd_wallet)) ce = Ok nd'.(nd_wallet).
Proof.
  intros Hs Ht He.
  assert ((λ nd, ([] : list fs, nd)) <$> fatal_trigger nd = Some (states, nd') → False) as Hno.
  { intros (nd1 & Hf & [= -> ->])%fmap_Some. apply fatal_trigger_spec in Hf as (_ & _ & Hf). congruence. }
  destruct e as [block hash|block h]; cbn [scan_event] in Hs.
  - destruct (get_block_tree_entry chainman hash) as [entry|] eqn:Hentry; [|by exfalso].
    destruct (read_spent_outputs chainman entry) as [spent|] eqn:Hspent; [|by exfalso].
    destruct (scan_block _ _ _ _) as [[n w]| |] eqn:Hscan; [|done|done].
    apply save_wallet_quiet in Hs as [Hw _]; [|done]. simpl in Hw.
    exists (Wallet.Connected (block_txs block) spent (wrap_u 32 (height entry))). split.
    + intros b [= <-]. rewrite (He block hash eq_refl) in Hentry. eexists _, _, _. eauto.
    + simpl. rewrite Hscan. simpl. by rewrite Hw.
  - apply save_wallet_quiet in Hs as [Hw _]; [|done]. simpl in Hw.
    exists (Wallet.Disconnected (block_txs block)). split; [by intros b [= <-]|]. simpl. by rewrite Hw.
Qed.

Lemma queued_cons e es : queued (e :: es) = queued [e] ++ queued es.
Proof. done. Qed.

Lemma caught_up_turn w0 rs ims chainman f (iter : coin_order) e es nd states nd' :
  caught_up w0 rs ims nd → nd.(nd_events) = e :: es →
  (∀ block hash, e = Connected block hash → hash = kblock_hash block) →
  scan_event store chainman f iter e (with_events es nd) = Some (states, nd') →
  nd'.(nd_fatal).(triggered) = false → caught_up w0 rs ims nd'.
Proof.
  intros (taken & acts & w & r & -> & Hall & <- & Hf & Hw) Hes He Hs Ht.
  pose proof (scan_event_fields _ _ _ _ _ _ _ Hs) as [Hev _]. simpl in Hev.
  destruct (scan_event_quiet _ _ _ _ _ _ _ Hs Ht He) as (ce & Hce & Hon). simpl in Hon.
  destruct (queued [e]) as [|b []] eqn:Hq; [by destruct e| |by destruct e].
  replace (imports_of acts) with (imports_of (acts ++ [AEvent ce]))
    by (unfold imports_of; rewrite omap_app; simpl; by rewrite app_nil_r).
  eapply (caught_up_act _ _ (taken ++ [b])); [done..| |].
  - rewrite Hes, queued_cons, Hq, Hev. by rewrite <- app_assoc.
  - unfold events_of. rewrite omap_app. apply Forall2_app; [done|]. constructor; [by apply Hce|constructor].
Qed.

Lemma on_event_keys e w w' : on_event (Ok w) e = Ok w' → has_keys w' = has_keys w.
Proof.
  destruct e as [block spent h|block]; simpl; [|by intros [= <-]].
  unfold scan_block, has_keys. destruct (keys w) eqn:Hk; [|intros [= <-]; by rewrite Hk].
  intros ([n w2] & (found & _ & [= _ <-])%bind_Ok & ->)%fmap_Ok. simpl. by rewrite ?Hk.
Qed.

Lemma reported_app k ls ls' : reported k (ls ++ ls') = reported k ls ++ reported (keyed k ls) ls'.
Proof.
  revert k. induction ls as [|l ls IH]; intros k; simpl; [by unfold keyed; simpl; rewrite orb_false_r|].
  destruct l; simpl; rewrite IH; unfold keyed; simpl; rewrite ?orb_true_r; try done. by rewrite <- app_assoc.
Qed.

Lemma keyed_snoc k ls l : keyed k (ls ++ [l]) = keyed (keyed k ls) [l].
Proof.
  unfold keyed, imported. rewrite omap_app, <- orb_assoc. f_equal.
  destruct (omap _ ls); simpl; [done|]. done.
Qed.

Lemma receiving_stays nd l states nd' :
  nstep store nd l states nd' → nd'.(nd_receiving) = true → nd.(nd_receiving) = true.
Proof.
  assert (∀ e nd nd', send_event e nd = Some nd' → nd'.(nd_receiving) = true → nd.(nd_receiving) = true) as Hsend.
  { intros e nd1 nd2. unfold send_event, fatal_trigger. destruct (nd_receiving nd1) eqn:Hr; [done|].
    destruct (trigger _) as [[] f]; [|done]. intros [= <-]. by rewrite <- Hr. }
  destruct 1 as [block nd nd' Hc|block entry nd nd' Hc|nd nd' Hf|chainman f iter senders nd states nd' Hi Hr Ht
    |scan spend nd w Hw|ops nd|ops nd|nd|nd Hsig]; try done.
  - unfold on_block_connected in Hc. destruct (keys (nd_wallet nd)); [by eapply Hsend|by simplify_eq].
  - by eapply Hsend.
  - unfold fatal_trigger in Hf. destruct (trigger _) as [[] f]; [|done]. by simplify_eq.
  - unfold ipc_shutdown, send_signal. by destruct (listening (nd_fatal nd)).
Qed.

Lemma keyed_step k ws bound nd l states nd' :
  has_keys nd.(nd_wallet) = k → node_ok ws bound nd → nstep store nd l states nd' →
  nd'.(nd_fatal).(triggered) = false → has_keys nd'.(nd_wallet) = keyed k [l].
Proof.
  assert (∀ nd nd', fatal_trigger nd = Some nd' → nd'.(nd_wallet) = nd.(nd_wallet)) as Hfatal.
  { intros nd1 nd2 (? & _ & _)%fatal_trigger_spec. by subst. }
  assert (∀ e nd nd', send_event e nd = Some nd' → nd'.(nd_wallet) = nd.(nd_wallet)) as Hsend.
  { intros e nd1 nd2. unfold send_event. destruct (nd_receiving nd1); [by intros [= <-]|apply Hfatal]. }
  intros <- Hok Hst Ht. unfold keyed.
  destruct Hst as [block nd nd' Hcon|block entry nd nd' Hcon|nd nd' Hf|chainman f iter senders nd states nd' Hi _ Htn
    |scan spend nd w Hw|ops nd|ops nd|nd|nd Hsig]; simpl; rewrite ?orb_false_r, ?orb_true_r; try done.
  - unfold on_block_connected in Hcon. destruct (keys _); [by rewrite (Hsend _ _ _ Hcon)|by simplify_eq].
  - by rewrite (Hsend _ _ _ Hcon).
  - by rewrite (Hfatal _ _ Hf).
  - unfold scan_turn in Htn. destruct (nd_running nd); [|simplify_eq; done].
    destruct (nd_events nd) as [|e es] eqn:Hes; [destruct senders; simplify_eq; done|].
    destruct (scan_event_quiet _ _ _ _ _ _ _ Htn Ht) as (ce & _ & Hon); [|by apply on_event_keys in Hon].
    intros block hash ->. apply (ok_events _ _ _ Hok). rewrite Hes. by constructor.
  - unfold import_keys in Hw. by apply bind_Ok in Hw as (rcv & _ & [= <-]).
  - unfold ipc_shutdown. by destruct (send_signal (nd_fatal nd)).
Qed.

Lemma caught_up_step w0 rs ims k ws bound nd l states nd' :
  caught_up w0 rs ims nd → has_keys nd.(nd_wallet) = k → node_ok ws bound nd → nstep store nd l states nd' →
  nd'.(nd_receiving) = true → nd'.(nd_fatal).(triggered) = false →
  caught_up w0 (rs ++ reported k [l]) (ims ++ imported [l]) nd'.
Proof.
  intros Hc Hk Hok Hst Hr Ht.
  destruct Hst as [block nd nd' Hcon|block entry nd nd' Hcon|nd nd' Hf|chainman f iter senders nd states nd' Hi _ Htn
    |scan spend nd w Hw|ops nd|ops nd|nd|nd Hsig]; simpl; rewrite ?app_nil_r; try done.
  - unfold on_block_connected in Hcon. unfold has_keys in Hk. destruct (keys _); subst k.
    + by eapply caught_up_send in Hcon.
    + simplify_eq. by rewrite app_nil_r.
  - by eapply caught_up_send in Hcon.
  - apply fatal_trigger_spec in Hf as (_ & _ & Hf). congruence.
  - unfold scan_turn in Htn. destruct (nd_running nd); [|simplify_eq; done].
    destruct (nd_events nd) as [|e es] eqn:Hes; [destruct senders; simplify_eq; done|].
    eapply caught_up_turn; [done|exact Hes| |exact Htn|done].
    intros block hash ->. apply (ok_events _ _ _ Hok). rewrite Hes. by constructor.
  - by apply caught_up_import.
  - eapply caught_up_same; [done|done|]. by eexists.
  - eapply caught_up_same; [done|done|]. by eexists.
  - unfold ipc_shutdown. destruct (send_signal (nd_fatal nd)) as [sent f].
    eapply caught_up_same; [done|done|]. exists nd.(nd_wallet).(reserved). by rewrite with_reserved_same.
Qed.

(** C15: The wallet follows the kernel, as long as the scan thread receives and no
    failure was reported, and within the 2^32 coins a wallet file can count: the
    blocks the kernel disconnected since the start, and those it connected while
    the wallet had keys, are those the wallet has applied, each once and in the
    order they were reported, followed by those still in the channel; besides
    them only the imports of keys, each once and in their order, have changed the
    wallet. A block connected while the wallet has no keys is not among them: the
    callback drops it. *)
Theorem scan_in_order sp_keys_file d nd0 ls ws nd :
  files_ok d → start_node store sp_keys_file d = Ok nd0 → nrun store nd0 ls ws nd →
  Z.of_nat (size nd0.(nd_wallet).(utxos) + run_size ls) ≤ u_max 32 →
  nd.(nd_receiving) = true → nd.(nd_fatal).(triggered) = false →
  ∃ taken acts w, reported (has_keys nd0.(nd_wallet)) ls = taken ++ queued nd.(nd_events) ∧
    Forall2 event_for taken (events_of acts) ∧ imports_of acts = imported ls ∧
    foldl act (Ok nd0.(nd_wallet)) acts = Ok w ∧ saved_part nd.(nd_wallet) = saved_part w.
Proof.
  intros Hd Hstart Hrun Hb Hr Ht. pose proof (start_ok _ _ _ Hd Hstart) as Hok0.
  enough (caught_up nd0.(nd_wallet) (reported (has_keys nd0.(nd_wallet)) ls) (imported ls) nd ∧
          has_keys nd.(nd_wallet) = keyed (has_keys nd0.(nd_wallet)) ls)
    as [(taken & acts & w & r & ? & ? & ? & ? & Hw) _].
  { exists taken, acts, w. by rewrite Hw. }
  induction Hrun as [|ls ws nd l states nd' Hrun IH Hst].
  { apply bind_Ok in Hstart as (w & _ & (w' & _ & [= <-])%bind_Ok). split; [|unfold keyed; by rewrite orb_false_r].
    exists [], [], w', w'.(reserved). split_and!; [done|constructor|done|done|]. by rewrite with_reserved_same. }
  rewrite run_size_snoc in Hb.
  destruct IH as [Hc Hk]; [lia|by eapply receiving_stays|by eapply triggered_stays|].
  assert (node_ok ws (size nd0.(nd_wallet).(utxos) + run_size ls) nd) as Hok
    by (eapply nrun_ok; [done|exact Hrun|lia]).
  rewrite reported_app, keyed_snoc. unfold imported at 1. rewrite omap_app.
  split; [by eapply caught_up_step|by eapply keyed_step].
Qed.
End Properties.

(** ** As a thread to be joined *)

Section Join.
Context `{BlockDataLaws} `{Scalars} `{!SilentPayments} `{!KeyBytes}.
Context `{!ScanScalars} `{!SilentPaymentsLaws} `{!Inhabited Chainman}.
Variable store : WalletStore.

(** The wallet file counts its coins in 32 bits. *)
Definition fits (nd : node) : Prop :=
  Z.of_nat (size nd.(nd_wallet).(utxos) + sum_list_with event_size nd.(nd_events)) ≤ u_max 32.

(** The flag is the main thread's. *)
Definition of_scan (l : label) : bool := match l with LStop => false | _ => true end.

#[global] Instance scan_joinable : Joinable node label () := {|
  j_step nd l nd' := of_scan l = true ∧ fits nd' ∧ ∃ states, nstep store nd l states nd';
  j_ok nd := fits nd ∧ ∃ ws bound, node_ok store ws bound nd;
  j_halted nd := nd.(nd_running) = false;
  j_threads _ := [()];
  j_left nd _ := if nd.(nd_receiving) then 1%nat else 0%nat;
  j_ended nd _ := negb nd.(nd_receiving);
  j_turn l := match l with LTurn _ _ => Some () | _ => None end;
|}.

(** The bound of the invariant can be what there is. *)
Lemma node_ok_exact ws bound nd :
  node_ok store ws bound nd →
  node_ok store ws (size nd.(nd_wallet).(utxos) + sum_list_with event_size nd.(nd_events)) nd.
Proof. intros [? ? ? ? _ ?]. by split. Qed.

Lemma running_stays nd l states nd' :
  nstep store nd l states nd' → nd.(nd_running) = false → nd'.(nd_running) = false.
Proof.
  assert (∀ nd nd', fatal_trigger nd = Some nd' → nd.(nd_running) = false → nd'.(nd_running) = false) as Hf.
  { intros nd1 nd2. unfold fatal_trigger. destruct (trigger _) as [[] f]; [|done]. by intros [= <-]. }
  assert (∀ e nd nd', send_event e nd = Some nd' → nd.(nd_running) = false → nd'.(nd_running) = false) as Hs.
  { intros e nd1 nd2. unfold send_event. destruct (nd_receiving nd1); [by intros [= <-]|apply Hf]. }
  destruct 1 as [block nd nd' Hc|block entry nd nd' Hc|nd nd' Ht|chainman f iter senders nd states nd' Hi Hr Ht
    |scan spend nd w Hw|ops nd|ops nd|nd|nd Hsig]; intros Hrun; try done.
  - unfold on_block_connected in Hc. destruct (keys (nd_wallet nd)); [by eapply Hs|by simplify_eq].
  - by eapply Hs.
  - by eapply Hf.
  - unfold scan_turn in Ht. rewrite Hrun in Ht. by simplify_eq.
  - unfold ipc_shutdown. by destruct (send_signal _).
Qed.

#[global] Instance scan_joinable_laws : JoinableLaws node label () (H:=scan_joinable).
Proof.
  split.
  - intros nd l nd' (_ & Hfit' & states & Hst) [Hfit (ws & bound & Hok)]. split; [done|].
    eapply step_ok in Hst as [Hok' _]; [eauto|by apply node_ok_exact in Hok|done].
  - intros nd l nd' (_ & _ & states & Hst). by eapply running_stays.
  - done.
  - intros nd. apply NoDup_singleton.
  - intros nd l nd' [] (_ & _ & states & Hst) _ Hh _. simpl in *.
    unfold counts. case_decide as Hl.
    + destruct l; try done. inversion Hst as [| | |? ? ? ? ? ? ? ? ? Ht| | | | |]; subst.
      unfold scan_turn in Ht. rewrite Hh in Ht. injection Ht as <- <-. simpl. lia.
    + pose proof (receiving_stays _ _ _ _ _ Hst) as Hr.
      destruct (nd_receiving nd'), (nd_receiving nd); try lia.
  - intros nd [] [Hfit _] Hh _ Hl. simpl in *. destruct (nd_receiving nd) eqn:Hr; [|lia].
    exists (LTurn inhabitant (mk_faults None None None None)), (close nd). split; [done|].
    split_and!; [done| |exists []].
    + unfold fits in *. simpl. lia.
    + apply (n_turn store inhabitant (mk_faults None None None None) map_to_list true nd); [done|done|].
      unfold scan_turn. by rewrite Hh.
  - intros nd [] _ _ Hl. simpl in *. by destruct (nd_receiving nd).
Qed.
End Join.

(** ** Concrete runs *)

Module Witness.
Import Messages.Demo Kernel.Demo Wallet.Demo.
#[local] Existing Instance WalletStore.Witness.demo_scalars.
#[local] Instance scan_scalars_demo : ScanScalars.
Proof.
  split. intros r s outs found l pks pk t [= <-] [= -> ->]%list_elem_of_singleton Hpk.
  apply list_elem_of_fmap in Hpk as (pk' & [= -> ->] & _). split; [by vm_compute|done].
Qed.
(** Every block holds the transactions of [demo_block]. *)
#[local] Instance demo_data : BlockData := {|
  block_txs _ := demo_block;
  read_spent_outputs _ _ := Some demo_spent;
|}.
#[local] Instance demo_data_laws : BlockDataLaws.
Proof.
  split.
  - intros b. repeat constructor; try done; repeat constructor; by vm_compute.
  - intros c b e spent _ [= <-]. apply demo_spent_match.
Qed.
#[local] Instance demo_key_bytes : KeyBytes := {|
  secret_bytes k := (k : Z) :: replicate 31 0;
  secret_from_slice l := head (l : list SecretKey);
  xonly_serialize k := k;
|}.

Definition store : WalletStore := mk_store "wallet.bin" Regtest.
(** A keys file with scan key 9, and nothing else on disk. *)
Definition key_file : list Z := KeysFile.MAGIC ++ [9] ++ replicate 31 0 ++ [SPEND_TAG_XONLY_PUB] ++ replicate 32 4.
Definition disk0 : fs := {["keys" := key_file]}.
Definition blk : KBlock := (106, 104).
Definition entry3 : Entry := exist _ (false, 3) eq_refl.
Definition chain : Chainman := mk_manager entry3 entry3.
Definition no_faults : faults := mk_faults None None None None.
Definition order : coin_order := map_to_list.

Definition run_from (o : outcome WalletStoreError (node_of KBlock)) (f : node_of KBlock → option (node_of KBlock)) : node_of KBlock :=
  match o with
  | Ok nd => default nd (f nd)
  | _ => mk_node (wallet_new Regtest) [] false false (fatal_new false) ∅
  end.
Definition nd0 : node_of KBlock := run_from (start_node store (Some "keys") disk0) Some.
(** A block is reported and then scanned. *)
Definition nd1 : node_of KBlock := default nd0 (on_block_connected blk nd0).
Definition turn (f : faults) (nd : node_of KBlock) : list fs * node_of KBlock :=
  default ([], nd) (scan_turn store chain f order true nd).
Definition nd2 : node_of KBlock := (turn no_faults nd1).2.

Lemma start0 : start_node store (Some "keys") disk0 = Ok nd0.
Proof. vm_compute. reflexivity. Qed.
Lemma disk0_ok : files_ok disk0.
Proof.
  intros p b Hb. unfold disk0 in Hb. apply lookup_singleton_Some in Hb as [_ <-]. repeat constructor; by vm_compute.
Qed.
Lemma step1 : nstep store nd0 (LConnected blk) [] nd1.
Proof. apply n_connected. vm_compute. reflexivity. Qed.
Lemma step2 f : nstep store nd1 (LTurn chain f) (turn f nd1).1 (turn f nd1).2.
Proof.
  apply (n_turn _ chain f order true); [done|by vm_compute|].
  unfold turn. destruct (scan_turn store chain f order true nd1) as [[st nd]|] eqn:Ht; [done|].
  exfalso. destruct (scan_turn_ok store [nd1.(nd_wallet); nd0.(nd_wallet)] 10 chain f order true nd1) as (? & ? & ? & _).
  - done.
  - by vm_compute.
  - pose proof (start_ok _ _ _ _ disk0_ok start0) as Hok.
    destruct (step_ok _ _ _ _ _ _ _ Hok step1) as [Hok1 _]; [by vm_compute|].
    eapply node_ok_weaken; [exact Hok1| |by vm_compute; lia].
    intros w. simpl. rewrite !elem_of_cons. tauto.
  - congruence.
Qed.

Definition run1 : nrun store nd0 [LConnected blk] [nd0.(nd_wallet); nd1.(nd_wallet)] nd1 :=
  nrun_step store nd0 [] _ nd0 _ _ nd1 (nrun_start store nd0) step1.

(** A save that stops after five bytes: what is on disk then loads as the wallet
    before the block. *)
Definition short_write : faults := mk_faults None (Some (5%nat, Other)) None None.

Definition cut_off : fs := default disk0 (last (turn short_write nd1).1).
Lemma cut_off_last : last (turn short_write nd1).1 = Some cut_off.
Proof. vm_compute. reflexivity. Qed.

Lemma restart_witness :
  cut_off !! "wallet.bin.tmp" = Some [83; 80; 87; 70; 1] ∧
  ∃ w, w ∈ [nd0.(nd_wallet); nd1.(nd_wallet)] ++ [(turn short_write nd1).2.(nd_wallet)] ∧
    initial_wallet store cut_off = Ok (saved_part w).
Proof.
  split; [vm_compute; reflexivity|].
  edestruct (restart_finds_wallet store (Some "keys") disk0 nd0 [LConnected blk] _ nd1
    (LTurn chain short_write) _ (turn short_write nd1).2 cut_off disk0_ok start0 run1 (step2 short_write))
    as (w & Hw & Hi & _).
  - vm_compute. discriminate.
  - apply elem_of_cons. right. apply elem_of_app. left. apply last_Some_elem_of. exact cut_off_last.
  - exists w. exact (conj Hw Hi).
Defined.

(** The failed save raised the flag. *)
Lemma never_panics_witness :
  ∃ states nd', scan_turn store chain short_write order true nd1 = Some (states, nd') ∧
    nd'.(nd_events) = [].
Proof.
  destruct (scan_never_panics store (Some "keys") disk0 nd0 [LConnected blk] _ nd1 disk0_ok start0 run1)
    as (_ & _ & _ & Hturn).
  - vm_compute. discriminate.
  - destruct (Hturn chain short_write order true (λ m, Permutation_refl _)) as (states & nd' & Ht & He).
    exists states, nd'. split; [exact Ht|].
    destruct (He eq_refl (Connected blk 106) [] eq_refl) as [Hes _]. exact Hes.
Defined.

(** A node started without keys: a block connected then is not scanned; a client
    imports keys, and the next block is. *)
Definition early : KBlock := (104, 102).
Definition late_scan : @SecretKey demo_sp := 9.
Definition late_spend : @XOnlyPublicKey demo_sp := replicate 32 4.
Definition kl0 : node_of KBlock := run_from (start_node store None ∅) Some.
Definition kl1 : node_of KBlock :=
  match import_keys late_scan late_spend kl0.(nd_wallet) with
  | Ok w => with_wallet w kl0
  | _ => kl0
  end.
Definition kl2 : node_of KBlock := default kl1 (on_block_connected blk kl1).
Definition kl3 : node_of KBlock := (turn no_faults kl2).2.
Definition kl_run : list label :=
  [LConnected early; LImport late_scan late_spend; LConnected blk; LTurn chain no_faults].

Lemma kl_ran : nrun store kl0 kl_run (nd_wallet <$> [kl0; kl0; kl1; kl2; kl3]) kl3.
Proof.
  assert (nstep store kl0 (LConnected early) [] kl0) as H1 by (apply n_connected; vm_compute; reflexivity).
  assert (nstep store kl0 (LImport late_scan late_spend) [] kl1) as H2.
  { apply (n_import store late_scan late_spend kl0 kl1.(nd_wallet)).
    vm_compute. reflexivity. }
  assert (nstep store kl1 (LConnected blk) [] kl2) as H3 by (apply n_connected; vm_compute; reflexivity).
  assert (nstep store kl2 (LTurn chain no_faults) (turn no_faults kl2).1 kl3) as H4.
  { apply (n_turn _ chain no_faults order true); [done|vm_compute; reflexivity|].
    assert (match scan_turn store chain no_faults order true kl2 with Some _ => true | None => false end = true)
      as Hs by (vm_compute; reflexivity).
    unfold kl3, turn. destruct (scan_turn store chain no_faults order true kl2) as [[st nd]|]; [done|discriminate Hs]. }
  pose proof (nrun_step store kl0 _ _ _ _ _ _ (nrun_start store kl0) H1) as R1.
  pose proof (nrun_step store kl0 _ _ _ _ _ _ R1 H2) as R2.
  pose proof (nrun_step store kl0 _ _ _ _ _ _ R2 H3) as R3.
  exact (nrun_step store kl0 _ _ _ _ _ _ R3 H4).
Qed.

(** The block applied is the second one, and its payment is found. *)
Lemma in_order_witness :
  has_keys kl0.(nd_wallet) = false ∧ size kl3.(nd_wallet).(utxos) = 1%nat ∧
  ∃ taken acts w, [(true, blk)] = taken ++ queued kl3.(nd_events) ∧
    Forall2 event_for taken (events_of acts) ∧
    imports_of acts = [(late_scan, late_spend)] ∧
    foldl act (Ok kl0.(nd_wallet)) acts = Ok w ∧ saved_part kl3.(nd_wallet) = saved_part w.
Proof.
  split; [vm_compute; reflexivity|]. split; [vm_compute; reflexivity|].
  apply (scan_in_order store None ∅ kl0 kl_run (nd_wallet <$> [kl0; kl0; kl1; kl2; kl3]) kl3).
  - apply map_Forall_empty.
  - vm_compute. reflexivity.
  - exact kl_ran.
  - vm_compute. discriminate.
  - reflexivity.
  - reflexivity.
Defined.

(** ** Events dropped at shutdown *)

(** A client stops the node while a reported block is in the channel: the scan
    thread ends without looking at it. *)
Definition stopped : node_of KBlock := (turn no_faults (stop_running (ipc_shutdown nd1).2)).2.

(** The block is connected in the kernel, which does not report it again, and the
    wallet on disk is without the payment it holds. *)
Lemma shutdown_drops_events :
  nd1.(nd_events) = [Connected blk 106] ∧ stopped.(nd_receiving) = false ∧ stopped.(nd_events) = [] ∧
  stopped.(nd_fatal).(triggered) = false ∧
  initial_wallet store stopped.(nd_disk) = Ok (wallet_new Regtest) ∧
  size nd2.(nd_wallet).(utxos) = 1%nat.
Proof. split_and!; vm_compute; reflexivity. Qed.
End Witness.
