(* ===== verification/Sending.v ===== *)
(** * Spending (crates/wallet/src/silentpayments/sending.rs)

    Parsing of recipients, coin selection and the construction of a signed
    transaction. The coin selector ([bdk_coin_select]), the silent payments
    derivation, scripts, sighashes and signatures are the interface
    [Spending]; the order in which inputs and outputs are shuffled is an
    argument. *)

From Corelib Require Import SpecFloat.
From S2P Require Import Prelude Wallet.

(** [bitcoin::Network], as far as [bitcoin_network] maps to it. *)
Inductive BitcoinNetwork := NetBitcoin | NetTestnet | NetRegtest.

Definition bitcoin_network (n : Network) : BitcoinNetwork :=
  match n with Mainnet => NetBitcoin | Testnet => NetTestnet | Regtest => NetRegtest end.

Record TxOut := mk_out { tx_value : Z; tx_script : list Z }.
Record TxIn := mk_in { previous_output : OutPoint; tx_witness : list (list Z) }.
(** Version 2 and the RBF sequence number are the same in every transaction. *)
Record Transaction := mk_transaction {
  lock_time : Z;
  input : list TxIn;
  output : list TxOut;
}.

(** ** What the module uses of other crates *)

Record Target := mk_target { target_feerate : spec_float; target_weight : Z; target_value : Z }.
Record ChangePolicy := mk_policy {
  min_change : Z; policy_feerate : spec_float; policy_long_term : spec_float }.

Class Spending `{SilentPayments} := {
  SpCode : Type;
  KeyMaterial : Type;
  material_eq_dec :: EqDecision KeyMaterial;
  Address : Type;
  UncheckedAddress : Type;
  PartialSecret : Type;
  SecpError : Type;
  SighashError : Type;
  sp_code_parse : string → option SpCode;
  sp_code_network : SpCode → Network;
  address_parse : string → outcome string UncheckedAddress;
  require_network : UncheckedAddress → BitcoinNetwork → option Address;
  address_script : Address → list Z;
  material : SpCode → KeyMaterial;
  change_code : Receiver → SpCode;
  minimal_non_dust : list Z → Z;
  new_p2tr_tweaked : XOnlyPublicKey → list Z;
  add_tweak : SecretKey → Z → outcome SecpError SecretKey;
  calculate_partial_secret : list (SecretKey * bool) → list (list Z) → outcome SpError PartialSecret;
  generate_recipient_pubkeys : list KeyMaterial → PartialSecret →
    outcome SpError (list (KeyMaterial * list XOnlyPublicKey));
  sighash : Transaction → nat → list TxOut → outcome SighashError (list Z);
  (** The serialized taproot key-spend signature of a digest. *)
  sign : SecretKey → list Z → list Z;
  (** [DrainWeights::TR_KEYSPEND.output_weight]. *)
  TR_KEYSPEND_OUTPUT_WEIGHT : Z;
  (** [run_bnb] on candidates of the given values: the selected indices. *)
  run_bnb : list Z → Target → ChangePolicy → spec_float → Z → option (list nat);
  (** Largest first until the target is met, or the missing amount. *)
  select_until_target_met : list Z → Target → outcome Z (list nat);
  (** The change of a selection, if there is any. *)
  drain : list Z → list nat → Target → ChangePolicy → option Z;
}.

(** The documented contract of the coin selector: a selection picks candidates,
    none twice, worth at least the target and the change. *)
Class SpendingLaws `{Spending} := {
  bnb_valid : ∀ vs t p f n sel, run_bnb vs t p f n = Some sel →
    NoDup sel ∧ Forall (λ i, (i < length vs)%nat) sel;
  greedy_valid : ∀ vs t sel, select_until_target_met vs t = Ok sel →
    NoDup sel ∧ Forall (λ i, (i < length vs)%nat) sel;
  greedy_total : ∀ vs t, select_until_target_met vs t ≠ Panic;
  selection_funds : ∀ vs t p sel,
    (∃ f n, run_bnb vs t p f n = Some sel) ∨ select_until_target_met vs t = Ok sel →
    t.(target_value) + default 0 (drain vs sel t p) ≤ sumZ (omap (λ i, vs !! i) sel);
  (** Change is a [u64]. *)
  drain_nonneg : ∀ vs sel t p, 0 ≤ default 0 (drain vs sel t p);
}.

Section Sending.
Context `{Spending}.

Inductive SendError :=
| WatchOnly
| NoSpendableCoins
| DustAmount (amount dust : Z)
| InsufficientFunds (needed available : Z)
| NetworkMismatch
| InvalidRecipient (e : string)
| OutputDerivation
| SilentPaymentsError (e : SpError)
| Secp (e : SecpError)
| Sighash (e : SighashError).

Definition is_user_error (e : SendError) : bool :=
  match e with
  | WatchOnly | NoSpendableCoins | DustAmount _ _ | InsufficientFunds _ _
  | NetworkMismatch | InvalidRecipient _ => true
  | _ => false
  end.

Inductive Recipient :=
| SilentPayment (code : SpCode)
| ToAddress (a : Address).

Definition recipient_parse (s : string) (n : Network) : outcome SendError Recipient :=
  match sp_code_parse s with
  | Some sp =>
      if decide (sp_code_network sp ≠ n) then Err NetworkMismatch else Ok (SilentPayment sp)
  | None =>
      unchecked ← map_err InvalidRecipient (address_parse s);
      address ← ok_or (require_network unchecked (bitcoin_network n)) NetworkMismatch;
      Ok (ToAddress address)
  end.

(** [to_sat_per_kwu() as f32 / 1000.0]. *)
Definition cs_feerate (sat_per_kwu : Z) : spec_float :=
  SFdiv 24 128 (binary_normalize 24 128 sat_per_kwu 0 false) (binary_normalize 24 128 1000 0 false).

Definition output_weight (script_len : nat) : Z := (8 + 1 + Z.of_nat script_len) * 4.

Definition p2tr_dust (spend : SecretKey) : Z :=
  minimal_non_dust (new_p2tr_tweaked (x_only_public_key spend).1).

(** [HashMap::get], on the derived keys in any order. *)
Definition derived_keys (derived : list (KeyMaterial * list XOnlyPublicKey)) (m : KeyMaterial)
    : option (list XOnlyPublicKey) :=
  snd <$> find_first (λ p, bool_decide (p.1 = m)) derived.

Definition sp_output_script (derived : list (KeyMaterial * list XOnlyPublicKey)) (code : SpCode)
    : outcome SendError (list Z) :=
  xonly ← ok_or (derived_keys derived (material code) ≫= head) OutputDerivation;
  Ok (new_p2tr_tweaked xonly).

(** ** Coin selection *)

(** [u64::saturating_add] over the values. *)
Definition available_sats (coins : list (OutPoint * Coin)) : Z :=
  foldl (saturating_add 64) 0 (value <$> coins.*2).

Definition select_coins (coins : list (OutPoint * Coin)) (target : Target) (policy : ChangePolicy)
    (long_term_fee_rate : Z) (max_bnb_rounds : Z)
    : outcome SendError (list (OutPoint * Coin) * option Z) :=
  let values := value <$> coins.*2 in
  selection ←
    match run_bnb values target policy (cs_feerate long_term_fee_rate) max_bnb_rounds with
    | Some sel => Ok sel
    | None =>
        map_err (λ missing,
          InsufficientFunds (saturating_add 64 (available_sats coins) missing) (available_sats coins))
          (select_until_target_met values target)
    end;
  Ok (omap (λ i, coins !! i) selection, drain values selection target policy).

(** ** The transaction *)

(** [collect] into a [Result]. *)
Fixpoint signing_keys (spend : SecretKey) (selected : list (OutPoint * Coin))
    : outcome SendError (list SecretKey) :=
  match selected with
  | [] => Ok []
  | (_, c) :: selected =>
      k ← map_err Secp (add_tweak spend c.(tweak));
      ks ← signing_keys spend selected;
      Ok (k :: ks)
  end.

Fixpoint sign_inputs (tx : Transaction) (prevouts : list TxOut) (i : nat) (ks : list SecretKey)
    : outcome SendError (list (list (list Z))) :=
  match ks with
  | [] => Ok []
  | k :: ks =>
      h ← map_err Sighash (sighash tx i prevouts);
      rest ← sign_inputs tx prevouts (S i) ks;
      Ok ([sign k h] :: rest)
  end.

(** The keys of the silent payment outputs, when there are any. *)
Definition derive_outputs (recipient : Recipient) (change : option Z) (change_address : SpCode)
    (ks : list SecretKey) (selected : list (OutPoint * Coin))
    : outcome SendError (list (KeyMaterial * list XOnlyPublicKey)) :=
  let to_sp := match recipient with SilentPayment sp => [material sp] | ToAddress _ => [] end in
  let to_change := match change with Some _ => [material change_address] | None => [] end in
  if is_nil (to_sp ++ to_change) then Ok [] else
  secret ← map_err SilentPaymentsError
    (calculate_partial_secret ((λ k, (k, true)) <$> ks) (outpoint_bytes <$> selected.*1));
  map_err SilentPaymentsError (generate_recipient_pubkeys (to_sp ++ to_change) secret).

(** [LockTime::from_height]: a height below 500 000 000. *)
Definition lock_time_of (tip_height : Z) : Z :=
  if decide (tip_height < 500000000) then tip_height else 0.

Definition build_transaction_with (shuffle_in : list (OutPoint * Coin) → list (OutPoint * Coin))
    (shuffle_out : list TxOut → list TxOut)
    (spend : SecretKey) (recipient : Recipient) (amount fee_rate long_term_fee_rate : Z)
    (tip_height : Z) (change_address : SpCode) (coins : list (OutPoint * Coin))
    : outcome SendError Transaction :=
  if is_nil coins then Err NoSpendableCoins else
  let recipient_dust :=
    match recipient with
    | ToAddress a => minimal_non_dust (address_script a)
    | SilentPayment _ => p2tr_dust spend
    end in
  if decide (amount < recipient_dust) then Err (DustAmount amount recipient_dust) else
  let change_dust := p2tr_dust spend in
  let recipient_weight :=
    match recipient with
    | ToAddress a => output_weight (length (address_script a))
    | SilentPayment _ => TR_KEYSPEND_OUTPUT_WEIGHT
    end in
  let feerate := cs_feerate fee_rate in
  let target := mk_target feerate recipient_weight amount in
  let policy := mk_policy change_dust feerate (cs_feerate long_term_fee_rate) in
  '(selected, change) ← select_coins coins target policy long_term_fee_rate 100000;
  let selected := shuffle_in selected in
  ks ← signing_keys spend selected;
  derived ← derive_outputs recipient change change_address ks selected;
  recipient_script ←
    match recipient with
    | ToAddress a => Ok (address_script a)
    | SilentPayment sp => sp_output_script derived sp
    end;
  change_output ←
    match change with
    | Some v => s ← sp_output_script derived change_address; Ok [mk_out v s]
    | None => Ok []
    end;
  let outputs := shuffle_out (mk_out amount recipient_script :: change_output) in
  let tx := mk_transaction (lock_time_of tip_height) ((λ o, mk_in o []) <$> selected.*1) outputs in
  let prevouts := (λ c, mk_out c.(value) c.(script_pubkey)) <$> selected.*2 in
  witnesses ← sign_inputs tx prevouts 0 ks;
  Ok (mk_transaction tx.(lock_time) (zip_with (λ i w, mk_in i.(previous_output) w) tx.(input) witnesses)
        tx.(output)).

(** The coins a transaction may spend, in the order [iter] of the map. *)
Definition spendable (w : Wallet) (iter : list (OutPoint * Coin)) : list (OutPoint * Coin) :=
  filter (λ p, p.2.(spent_by) = None ∧ (p.1 ∉ w.(reserved))) iter.

(** [Wallet::build_transaction]. *)
Definition build_transaction (shuffle_in : list (OutPoint * Coin) → list (OutPoint * Coin))
    (shuffle_out : list TxOut → list TxOut) (iter : list (OutPoint * Coin)) (w : Wallet)
    (recipient : Recipient) (amount fee_rate long_term_fee_rate : Z)
    : outcome SendError Transaction :=
  spend ← ok_or w.(spend_secret) WatchOnly;
  k ← ok_or w.(keys) WatchOnly;
  build_transaction_with shuffle_in shuffle_out spend recipient amount fee_rate long_term_fee_rate
    w.(scan_height) (change_code k.(receiver)) (spendable w iter).
End Sending.

(** ** What a built transaction spends and pays *)

Section Facts.
Context `{SpendingLaws}.

Lemma omap_lookup_fmap {A B} (f : A → B) (l : list A) (sel : list nat) :
  omap (λ i, (f <$> l) !! i) sel = f <$> omap (λ i, l !! i) sel.
Proof.
  induction sel as [|i sel IH]; csimpl; [done|]. rewrite list_lookup_fmap, IH.
  by destruct (l !! i).
Qed.

Lemma elem_of_selection {A} (l : list A) (sel : list nat) x :
  x ∈ omap (λ i, l !! i) sel → ∃ i, i ∈ sel ∧ l !! i = Some x.
Proof. rewrite list_elem_of_omap. naive_solver. Qed.

Lemma NoDup_selection {A K} (f : A → K) (l : list A) (sel : list nat) :
  NoDup (f <$> l) → NoDup sel → NoDup (f <$> omap (λ i, l !! i) sel).
Proof.
  intros Hl. induction 1 as [|i sel Hi _ IH]; csimpl; [constructor|].
  destruct (l !! i) as [x|] eqn:Hx; csimpl; [|done]. constructor; [|done].
  intros Hin. apply list_elem_of_fmap in Hin as (y & Heq & Hy).
  apply elem_of_selection in Hy as (j & Hj & Hy). apply Hi.
  assert (i = j) as ->; [|done]. eapply (NoDup_lookup (f <$> l)); [done| |].
  - rewrite list_lookup_fmap, Hx. done.
  - rewrite list_lookup_fmap, Hy. simpl. by rewrite Heq.
Qed.

Lemma select_coins_spec coins target policy lt n selected change :
  NoDup coins.*1 → select_coins coins target policy lt n = Ok (selected, change) →
  NoDup selected.*1 ∧ (∀ p, p ∈ selected → p ∈ coins) ∧
  target.(target_value) + default 0 change ≤ sumZ (value <$> selected.*2) ∧ 0 ≤ default 0 change.
Proof.
  intros Hnd. unfold select_coins. set (values := value <$> coins.*2). intros Hs.
  apply bind_Ok in Hs as (sel & Hsel & [= <- <-]).
  assert (NoDup sel ∧ ((∃ f n, run_bnb values target policy f n = Some sel) ∨
    select_until_target_met values target = Ok sel)) as [Hsd Hsrc].
  { destruct (run_bnb values target policy (cs_feerate lt) n) as [b|] eqn:Hb.
    - simplify_eq. split; [by eapply bnb_valid|eauto].
    - destruct (select_until_target_met values target) as [g| |] eqn:Hg; simplify_eq/=.
      split; [by eapply greedy_valid|eauto]. }
  split_and!.
  - by apply NoDup_selection.
  - intros p Hp. apply elem_of_selection in Hp as (i & _ & Hi). by eapply list_elem_of_lookup_2.
  - pose proof (selection_funds values target policy sel Hsrc) as Hf. etrans; [exact Hf|].
    unfold values. rewrite <- list_fmap_compose, omap_lookup_fmap, list_fmap_compose. done.
  - apply drain_nonneg.
Qed.

(** *** The specification of a payment to silent payment codes *)

(** The silent payment codes a transaction pays, the recipient's first. *)
Definition codes_paid (recipient : Recipient) (change_codes : list SpCode) : list SpCode :=
  match recipient with SilentPayment code => [code] | ToAddress _ => [] end ++ change_codes.

(** [script] is the output that BIP 352 prescribes for [code] in a transaction with
    the inputs [os], of keys [ks], that pays [codes]: the first key derived for
    the code from the secret all the inputs share. *)
Definition pays_code (codes : list SpCode) (code : SpCode) (ks : list SecretKey) (os : list OutPoint)
    (script : list Z) : Prop :=
  ∃ secret derived key more,
    calculate_partial_secret ((λ k, (k, true)) <$> ks) (outpoint_bytes <$> os) = Ok secret ∧
    generate_recipient_pubkeys (material <$> codes) secret = Ok derived ∧
    derived_keys derived (material code) = Some (key :: more) ∧ script = new_p2tr_tweaked key.

(** The transaction as it is before it is signed, and the outputs it spends. *)
Definition unsigned (tx : Transaction) : Transaction :=
  mk_transaction tx.(lock_time) ((λ i, mk_in i.(previous_output) []) <$> tx.(input)) tx.(output).
Definition prevouts_of (coins : list Coin) : list TxOut :=
  (λ c, mk_out c.(value) c.(script_pubkey)) <$> coins.

(** Input by input: one signature, by the input's key, of the digest of the whole
    transaction and of what it spends. *)
Definition signed_by (tx : Transaction) (coins : list Coin) (ks : list SecretKey) : Prop :=
  length ks = length tx.(input) ∧
  ∀ i inp k, tx.(input) !! i = Some inp → ks !! i = Some k →
    ∃ h, sighash (unsigned tx) i (prevouts_of coins) = Ok h ∧ inp.(tx_witness) = [sign k h].

Lemma signing_keys_spec spend selected ks :
  signing_keys spend selected = Ok ks →
  Forall2 (λ p k, add_tweak spend p.2.(tweak) = Ok k) selected ks.
Proof.
  revert ks. induction selected as [|[o c] selected IH]; intros ks; simpl; [intros [= <-]; constructor|].
  intros (k & Hk & (ks' & Hks & [= <-])%bind_Ok)%bind_Ok. constructor; [|by apply IH]. simpl.
  by destruct (add_tweak spend (tweak c)); simplify_eq/=.
Qed.

Lemma sign_inputs_spec tx prevouts i ks ws :
  sign_inputs tx prevouts i ks = Ok ws →
  length ws = length ks ∧
  ∀ j w k, ws !! j = Some w → ks !! j = Some k →
    ∃ h, sighash tx (i + j)%nat prevouts = Ok h ∧ w = [sign k h].
Proof.
  revert i ws. induction ks as [|k ks IH]; intros i ws; simpl; [intros [= <-]; by split|].
  intros (h & Hh & (ws' & Hws & [= <-])%bind_Ok)%bind_Ok.
  destruct (IH (S i) ws' Hws) as [Hl Hall]. split; [simpl; by rewrite Hl|].
  intros [|j] w k'; simpl.
  - intros [= <-] [= <-]. exists h. rewrite Nat.add_0_r. split; [|done].
    by destruct (sighash tx i prevouts); simplify_eq/=.
  - intros Hw Hk. destruct (Hall j w k' Hw Hk) as (h' & ? & ?). exists h'. by rewrite Nat.add_succ_r.
Qed.

Lemma sp_output_pays recipient change change_address ks selected derived code script :
  derive_outputs recipient change change_address ks selected = Ok derived →
  sp_output_script derived code = Ok script →
  pays_code (codes_paid recipient match change with Some _ => [change_address] | None => [] end)
    code ks selected.*1 script.
Proof.
  unfold derive_outputs, codes_paid, pays_code. intros Hd (key & Hk & [= <-])%bind_Ok.
  destruct (derived_keys derived (material code)) as [[|key' more]|] eqn:Hkeys; simplify_eq/=.
  destruct (is_nil _); [simplify_eq; done|].
  apply bind_Ok in Hd as (secret & Hs & Hd). exists secret, derived, key, more.
  split_and!; [by destruct (calculate_partial_secret _ _); simplify_eq/=| |done|done].
  destruct (generate_recipient_pubkeys _ secret) as [d| |] eqn:Hg; simplify_eq/=. rewrite <- Hg. f_equal.
  by destruct recipient, change.
Qed.

(** Putting the signatures in. *)
Lemma zip_inputs (os : list OutPoint) (ws : list (list (list Z))) :
  length ws = length os →
  let ins := zip_with (λ i w, mk_in i.(previous_output) w) ((λ o, mk_in o []) <$> os) ws in
  previous_output <$> ins = os ∧ tx_witness <$> ins = ws ∧
  (λ i, mk_in i.(previous_output) []) <$> ins = (λ o, mk_in o []) <$> os.
Proof.
  revert ws. induction os as [|o os IH]; intros [|w ws] Hl; try done.
  destruct (IH ws ltac:(simpl in Hl; lia)) as (Hp & Hw & Hu). csimpl. split_and!; by f_equal.
Qed.

(** What a successful build consists of; [selected] are the spent coins in the
    order of the inputs. *)
Lemma build_with_spec sin sout spend recipient amount fee lt tip change_address coins tx :
  (∀ l, sin l ≡ₚ l) → (∀ l, sout l ≡ₚ l) → NoDup coins.*1 →
  build_transaction_with sin sout spend recipient amount fee lt tip change_address coins = Ok tx →
  ∃ selected change script change_script,
    previous_output <$> tx.(input) = selected.*1 ∧ NoDup selected.*1 ∧
    (∀ p, p ∈ selected → p ∈ coins) ∧
    tx.(output) ≡ₚ mk_out amount script ::
      match change with Some v => [mk_out v change_script] | None => [] end ∧
    amount + default 0 change ≤ sumZ (value <$> selected.*2) ∧
    tx.(lock_time) = lock_time_of tip ∧ 0 ≤ default 0 change ∧
    ∃ ks, Forall2 (λ p k, add_tweak spend p.2.(tweak) = Ok k) selected ks ∧
      signed_by tx selected.*2 ks ∧
      let codes := codes_paid recipient match change with Some _ => [change_address] | None => [] end in
      match recipient with
      | ToAddress a => script = address_script a
      | SilentPayment code => pays_code codes code ks selected.*1 script
      end ∧
      (change ≠ None → pays_code codes change_address ks selected.*1 change_script).
Proof.
  intros Hsin Hsout Hnd. unfold build_transaction_with.
  destruct (is_nil coins); [done|]. case_decide; [done|].
  intros ([selected change] & Hsel & Hb)%bind_Ok.
  apply bind_Ok in Hb as (ks & Hks & Hb). apply bind_Ok in Hb as (derived & Hder & Hb).
  apply bind_Ok in Hb as (script & Hscript & Hb). apply bind_Ok in Hb as (chg & Hchg & Hb).
  apply bind_Ok in Hb as (ws & Hws & [= <-]). simpl.
  apply select_coins_spec in Hsel as (Hsd & Hin & Hfunds & Hpos); [|done]. simpl in Hfunds.
  pose proof (signing_keys_spec _ _ _ Hks) as Hkeys. pose proof (Forall2_length _ _ _ Hkeys) as Hlen.
  apply sign_inputs_spec in Hws as [Hwl Hw].
  assert (∃ cs, chg = match change with Some v => [mk_out v cs] | None => [] end ∧
    (change ≠ None → sp_output_script derived change_address = Ok cs)) as (cs & -> & Hcs).
  { destruct change; [|by exists []; simplify_eq/=].
    apply bind_Ok in Hchg as (cs & Hcs & [= <-]). by exists cs. }
  destruct (zip_inputs (sin selected).*1 ws) as (Hprev & Hwit & Huns); [rewrite length_fmap; congruence|].
  exists (sin selected), change, script, cs. split_and!; try done.
  - by rewrite (Hsin selected).
  - intros p Hp. apply Hin. by rewrite (Hsin selected) in Hp.
  - by rewrite (Hsin selected).
  - exists ks. split_and!; [done| | |].
    + split; [simpl; rewrite <- (length_fmap tx_witness), Hwit; congruence|].
      intros i inp k Hi Hk. unfold unsigned. simpl. rewrite Huns.
      apply (Hw i); [|done]. rewrite <- Hwit, list_lookup_fmap. simpl in Hi. by rewrite Hi.
    + destruct recipient; [by eapply sp_output_pays|by simplify_eq].
    + intros Hc%Hcs. by eapply sp_output_pays.
Qed.

(** The value of the wallet's coins at some outpoints. *)
Definition value_at (w : Wallet) (os : list OutPoint) : Z :=
  sumZ (omap (λ o, value <$> w.(utxos) !! o) os).

Lemma value_at_coins w (l : list (OutPoint * Coin)) :
  (∀ p, p ∈ l → w.(utxos) !! p.1 = Some p.2) → value_at w l.*1 = sumZ (value <$> l.*2).
Proof.
  unfold value_at. induction l as [|[o c] l IH]; intros Hl; [done|]. csimpl.
  pose proof (Hl (o, c) ltac:(constructor)) as Ho. simpl in Ho. rewrite Ho. csimpl. unfold sumZ in *. cbn [foldr]. rewrite IH; [done|].
  intros p Hp. apply Hl. by constructor.
Qed.

Lemma spendable_spec w iter p :
  iterates_coins iter w → p ∈ spendable w iter →
  w.(utxos) !! p.1 = Some p.2 ∧ p.2.(spent_by) = None ∧ (p.1 ∉ w.(reserved)).
Proof.
  intros Hit Hp. unfold spendable in Hp. apply list_elem_of_filter in Hp as [[Hs Hr] Hp].
  split_and!; [|done|done]. unfold iterates_coins in Hit. rewrite Hit in Hp.
  destruct p. by apply elem_of_map_to_list.
Qed.

Lemma spendable_NoDup w iter : iterates_coins iter w → NoDup (spendable w iter).*1.
Proof.
  intros Hit. unfold spendable, iterates_coins in *.
  assert (NoDup iter.*1) as Hnd by (rewrite Hit; apply NoDup_fst_map_to_list).
  clear Hit. induction iter as [|[o c] iter IH]; [constructor|].
  apply NoDup_cons in Hnd as [Ho Hnd]. rewrite filter_cons. case_decide; [|by apply IH].
  csimpl. apply NoDup_cons. split; [|by apply IH]. intros Hin. apply Ho.
  apply list_elem_of_fmap in Hin as (p & Heq & Hp). apply list_elem_of_filter in Hp as [_ Hp].
  apply list_elem_of_fmap. exists p. split; [exact Heq|exact Hp].
Qed.

(** ** Properties *)

(** C27: A transaction the wallet builds spends only coins it holds, unspent and
    not reserved, none twice, each with one signature, by the coin's own key, of
    this transaction and all it spends. It pays exactly the amount asked to the
    recipient: at the script of its address or, for a silent payment code, at the
    key that is derived for this code from the secret of the inputs. Besides there
    is at most one output, at the key derived for the wallet's own change code,
    and it does not pay out more than it takes in. *)
Theorem built_transaction_sound sin sout iter w recipient amount fee lt tx :
  (∀ l, sin l ≡ₚ l) → (∀ l, sout l ≡ₚ l) → iterates_coins iter w →
  build_transaction sin sout iter w recipient amount fee lt = Ok tx →
  let spent := previous_output <$> tx.(input) in
  NoDup spent ∧
  (∀ o, o ∈ spent → ∃ c, w.(utxos) !! o = Some c ∧ c.(spent_by) = None ∧ (o ∉ w.(reserved))) ∧
  (∃ spend k coins ks script change,
    w.(spend_secret) = Some spend ∧ w.(keys) = Some k ∧
    Forall2 (λ o c, w.(utxos) !! o = Some c) spent coins ∧
    Forall2 (λ c key, add_tweak spend c.(tweak) = Ok key) coins ks ∧ signed_by tx coins ks ∧
    tx.(output) ≡ₚ mk_out amount script :: change ∧ (length change ≤ 1)%nat ∧
    let codes := codes_paid recipient ((λ _, change_code k.(receiver)) <$> change) in
    match recipient with
    | ToAddress a => script = address_script a
    | SilentPayment code => pays_code codes code ks spent script
    end ∧
    Forall (λ out, pays_code codes (change_code k.(receiver)) ks spent out.(tx_script)) change) ∧
  sumZ (tx_value <$> tx.(output)) ≤ value_at w spent.
Proof.
  intros Hsin Hsout Hit. unfold build_transaction.
  intros (spend & Hspend & (k & Hk & Hb)%bind_Ok)%bind_Ok.
  apply build_with_spec in Hb as
    (selected & change & script & cs & Hin & Hnd & Hsub & Hout & Hfunds & _ & _ & ks & Hks & Hsig & Hpay & Hchg);
    [|done|done|by apply spendable_NoDup].
  assert (∀ p, p ∈ selected →
    w.(utxos) !! p.1 = Some p.2 ∧ p.2.(spent_by) = None ∧ (p.1 ∉ w.(reserved))) as Hsp.
  { intros p Hp%Hsub. by eapply spendable_spec. }
  simpl. rewrite Hin. split_and!; [done| | |].
  - intros o Ho. apply list_elem_of_fmap in Ho as ([o' c] & -> & Hp). exists c. by apply (Hsp (o', c)).
  - exists spend, k, selected.*2, ks, script, match change with Some v => [mk_out v cs] | None => [] end.
    split_and!; try done.
    + by destruct (spend_secret w); simplify_eq/=.
    + by destruct (keys w); simplify_eq/=.
    + apply Forall2_fmap_2, Forall_Forall2_diag, Forall_forall. intros p Hp. by apply Hsp.
    + by apply Forall2_fmap_l.
    + by destruct change; simpl; lia.
    + by destruct change.
    + destruct change; [|constructor]. apply Forall_singleton. by apply Hchg.
  - rewrite (value_at_coins w selected) by (intros p Hp; by apply Hsp).
    rewrite Hout. etrans; [|exact Hfunds]. unfold sumZ.
    by destruct change; simpl; lia.
Qed.

(** Reserving the inputs of a built transaction keeps a later one from
    spending them, until they are released. *)
Theorem reserved_not_respent sin sout iter w r1 a1 f1 l1 tx1 r2 a2 f2 l2 tx2 :
  (∀ l, sin l ≡ₚ l) → (∀ l, sout l ≡ₚ l) → iterates_coins iter w →
  build_transaction sin sout iter w r1 a1 f1 l1 = Ok tx1 →
  build_transaction sin sout iter (reserve_coins (previous_output <$> tx1.(input)) w) r2 a2 f2 l2 = Ok tx2 →
  (∀ o, o ∈ previous_output <$> tx1.(input) → o ∉ previous_output <$> tx2.(input)) ∧
  (release_coins (previous_output <$> tx1.(input))
     (reserve_coins (previous_output <$> tx1.(input)) w)).(reserved) = w.(reserved).
Proof.
  intros Hsin Hsout Hit Hb1 Hb2. unfold build_transaction in Hb1, Hb2.
  apply bind_Ok in Hb1 as (s1 & _ & (k1 & _ & Hb1)%bind_Ok).
  apply bind_Ok in Hb2 as (s2 & _ & (k2 & _ & Hb2)%bind_Ok).
  apply build_with_spec in Hb1 as (sel1 & _ & _ & _ & Hin1 & _ & Hsub1 & _); [|done|done|by apply spendable_NoDup].
  apply build_with_spec in Hb2 as (sel2 & _ & _ & _ & Hin2 & _ & Hsub2 & _); [|done|done|by apply spendable_NoDup].
  split.
  - intros o Ho1 Ho2. rewrite Hin2 in Ho2. apply list_elem_of_fmap in Ho2 as (p & -> & Hp%Hsub2).
    apply spendable_spec in Hp as (_ & _ & Hr); [|done]. apply Hr. simpl.
    apply elem_of_union_r, elem_of_list_to_set. done.
  - simpl. set (os := previous_output <$> input tx1) in *.
    assert (∀ o, o ∈ os → o ∉ w.(reserved)) as Hfree.
    { intros o Ho. rewrite Hin1 in Ho. apply list_elem_of_fmap in Ho as (p & -> & Hp%Hsub1).
      by apply spendable_spec in Hp as (_ & _ & ?). }
    assert (∀ (l : list OutPoint) (r : gset OutPoint),
      foldl (λ r o, r ∖ {[o]}) r l = r ∖ list_to_set l) as Hfold.
    { induction l as [|o l IHl]; intros r; simpl; [set_solver|]. rewrite IHl. set_solver. }
    rewrite Hfold. clear -Hfree. apply set_eq. intros o. specialize (Hfree o).
    rewrite elem_of_difference, elem_of_union, elem_of_list_to_set. naive_solver.
Qed.
End Facts.

(** ** Concrete runs *)

Module Witness.
Import Wallet.Demo.

(** Codes and addresses are numbers; the selector takes the first coin when it is
    enough and else every coin, and gives no change. *)
#[local] Instance demo_spending : Spending := {|
  SpCode := Z; KeyMaterial := Z; material_eq_dec := _; Address := Z; UncheckedAddress := Z;
  PartialSecret := Z; SecpError := unit; SighashError := unit;
  sp_code_parse _ := None;
  sp_code_network _ := Regtest;
  address_parse _ := Ok 1;
  require_network a _ := Some a;
  address_script a := [0; a];
  material c := c;
  change_code r := r;
  minimal_non_dust _ := 330;
  new_p2tr_tweaked k := [81; 32] ++ k;
  add_tweak k t := Ok k;
  calculate_partial_secret _ _ := Ok 0;
  generate_recipient_pubkeys ms _ := Ok ((λ m, (m, [[m]])) <$> ms);
  sighash _ _ _ := Ok [1];
  sign k h := h;
  TR_KEYSPEND_OUTPUT_WEIGHT := 172;
  run_bnb _ _ _ _ _ := None;
  select_until_target_met vs t :=
    if decide (t.(target_value) ≤ default 0 (head vs) ∧ vs ≠ []) then Ok [0%nat]
    else if decide (t.(target_value) ≤ sumZ vs) then Ok (seq 0 (length vs))
    else Err (t.(target_value) - sumZ vs);
  drain _ _ _ _ := None;
|}.

Definition to_address : Z → Recipient (H0:=demo_spending) := ToAddress (H0:=demo_spending).

Lemma take_all (vs : list Z) : omap (λ i, vs !! i) (seq 0 (length vs)) = vs.
Proof.
  assert (∀ (l pre : list Z), omap (λ i, (pre ++ l) !! i) (seq (length pre) (length l)) = l) as Hg.
  { induction l as [|x l IH]; intros pre; [done|]. cbn [length seq]. csimpl.
    rewrite list_lookup_middle by done. f_equal.
    specialize (IH (pre ++ [x])). rewrite length_app, <- app_assoc in IH. simpl in IH.
    by rewrite Nat.add_1_r in IH. }
  apply (Hg vs []).
Qed.

#[local] Instance demo_spending_laws : SpendingLaws.
Proof.
  split; simpl.
  - done.
  - intros vs t sel. case_decide as Hh.
    { intros [= <-]. split; [apply NoDup_singleton|]. destruct vs; [naive_solver|].
      apply Forall_singleton. simpl. lia. }
    case_decide; [|done]. intros [= <-]. split; [apply NoDup_seq|].
    apply Forall_forall. intros i Hi. apply elem_of_seq in Hi. lia.
  - intros vs t. by repeat case_decide.
  - intros vs t p sel [(f & n & ?)|Hs]; [done|]. case_decide as Hh.
    { simplify_eq. destruct vs; [naive_solver|]. csimpl. unfold sumZ. simpl in *. lia. }
    case_decide; [|done]. simplify_eq. rewrite take_all. lia.
  - done.
Qed.

Definition op2 : OutPoint := mk_outpoint (tx_id 5) 1.
Definition coin2 : Coin := mk_coin 500 (p2tr_to 9) 4 None 9 None.
Definition signing_wallet : Wallet :=
  mk_wallet 10 (Some (mk_keys (9 : Receiver) (4 : SecretKey))) None (Some (7 : SecretKey)) Regtest
    {[op1 := coin1; op2 := coin2]} ∅.
Definition iter : list (OutPoint * Coin) := [(op1, coin1); (op2, coin2)].

Lemma iter_ok : iterates_coins iter signing_wallet.
Proof.
  unfold iterates_coins. change (iter ≡ₚ map_to_list (<[op1 := coin1]> {[op2 := coin2]})).
  rewrite map_to_list_insert by done. by rewrite map_to_list_singleton.
Qed.

Definition to_code : Z → Recipient (H0:=demo_spending) := SilentPayment (H0:=demo_spending).

(** A silent payment to code 5 goes to the key derived for this code. *)
Lemma built_transaction_witness :
  ∃ tx, build_transaction id id iter signing_wallet (to_code 5) 900 250 250 = Ok tx ∧
    previous_output <$> tx.(input) = [op1] ∧ tx.(output) = [mk_out 900 [81; 32; 5]] ∧
    sumZ (tx_value <$> tx.(output)) ≤ value_at signing_wallet (previous_output <$> tx.(input)) ∧
    ∃ script, mk_out 900 script ∈ tx.(output) ∧ ∃ codes ks, pays_code codes (5 : SpCode) ks [op1] script.
Proof.
  eexists. split; [vm_compute; reflexivity|]. split; [by vm_compute|]. split; [by vm_compute|].
  edestruct (built_transaction_sound id id iter signing_wallet (to_code 5) 900 250 250)
    as (_ & _ & (spend & k & coins & ks & script & change & _ & _ & _ & _ & _ & Hout & _ & Hpay & _) & Hsum);
    [done|done|apply iter_ok|vm_compute; reflexivity|].
  split; [exact Hsum|]. exists script. split; [rewrite Hout; by left|]. do 2 eexists. exact Hpay.
Defined.

(** The second payment takes the other coin. *)
Lemma reserved_witness :
  ∃ tx1 tx2, build_transaction id id iter signing_wallet (to_address 2) 400 250 250 = Ok tx1 ∧
    build_transaction id id iter (reserve_coins (previous_output <$> tx1.(input)) signing_wallet)
      (to_address 3) 400 250 250 = Ok tx2 ∧
    previous_output <$> tx2.(input) = [op2] ∧ (op1 ∉ previous_output <$> tx2.(input)).
Proof.
  do 2 eexists. split; [vm_compute; reflexivity|]. split; [vm_compute; reflexivity|].
  split; [by vm_compute|].
  eapply (reserved_not_respent id id iter signing_wallet (to_address 2) 400 250 250 _
            (to_address 3) 400 250 250);
    [done|done|apply iter_ok|vm_compute; reflexivity|vm_compute; reflexivity|].
  apply (bool_decide_unpack _). by vm_compute.
Defined.
End Witness.
