(* ===== verification/Socks5.v ===== *)
(** * The Socks5 client and onion names (src/net/socks5.rs)

    The base32 encoder with its 64-bit shift register, onion service names and
    the Socks5 exchange. [sha3_256] is a parameter. *)

From S2P Require Import Prelude.

Definition VERSION : Z := 5.
Definition NOAUTH : Z := 0.
Definition METHODS : Z := 1.
Definition CMD_CONNECT : Z := 1.
Definition RESPONSE_SUCCESS : Z := 0.
Definition RSV : Z := 0.
Definition ADDR_TYPE_IPV4 : Z := 1.
Definition ADDR_TYPE_DOMAIN : Z := 3.
Definition ADDR_TYPE_IPV6 : Z := 4.
(** [".onion checksum"], the version byte and ["a..z2..7"]. *)
Definition SALT : list Z := [46; 111; 110; 105; 111; 110; 32; 99; 104; 101; 99; 107; 115; 117; 109].
Definition TOR_VERSION : Z := 3.
Definition ALPHABET : list Z := (Z.of_nat <$> seq 97 26) ++ (Z.of_nat <$> seq 50 6).

(** ** Base32 *)

(** The inner loop: the characters emitted and the bits left; [bits_left] bounds
    the rounds. *)
Fixpoint emit (fuel : nat) (buffer : Z) (bits_left : Z) : outcome Empty_set (list Z * Z) :=
  if decide (5 ≤ bits_left) then
    match fuel with
    | O => Panic
    | S fuel =>
        let bits_left := bits_left - 5 in
        ch ← or_panic (ALPHABET !! Z.to_nat (Z.land (Z.shiftr buffer bits_left) 31));
        '(rest, bits_left) ← emit fuel buffer bits_left;
        Ok (ch :: rest, bits_left)
    end
  else Ok ([], bits_left).

(** The outer loop; [buffer] is a [u64], whose shift drops the high bits. *)
Fixpoint base32_loop (data : list Z) (buffer bits_left : Z) : outcome Empty_set (list Z) :=
  match data with
  | [] => Ok []
  | byte :: data =>
      let buffer := Z.lor (wrap_u 64 (Z.shiftl buffer 8)) byte in
      let bits_left := bits_left + 8 in
      '(out, bits_left) ← emit (Z.to_nat bits_left) buffer bits_left;
      rest ← base32_loop data buffer bits_left;
      Ok (out ++ rest)
  end.

(** The characters in the order they are stored; for 35 bytes they fill the 56
    places of the output array. *)
Definition base32_encode_35 (data : list Z) : outcome Empty_set (list Z) :=
  base32_loop data 0 0.

(** ** Names *)

Section Onion.
Context (sha3_256 : list Z → list Z).

Definition pubkey_to_service (ed25519 : list Z) : outcome Empty_set (list Z) :=
  let cs_input := replicate 48 0 in
  let cs_input := splice 0 SALT cs_input in
  let cs_input := splice 15 ed25519 cs_input in
  let cs_input := splice 47 [TOR_VERSION] cs_input in
  let cs := sha3_256 cs_input in
  c0 ← or_panic (cs !! 0%nat);
  c1 ← or_panic (cs !! 1%nat);
  let payload := replicate 35 0 in
  let payload := splice 0 ed25519 payload in
  let payload := splice 32 [c0] payload in
  let payload := splice 33 [c1] payload in
  let payload := splice 34 [TOR_VERSION] payload in
  encoded ← base32_encode_35 payload;
  let out := replicate 62 0 in
  let out := splice 0 encoded out in
  Ok (splice 56 [46; 111; 110; 105; 111; 110] out).

(** ** Destinations and the exchange *)

Inductive SocksDestination :=
| Onion (key : list Z)
| SocksIpv4 (octets : list Z)
| SocksIpv6 (octets : list Z).

Definition type_byte (d : SocksDestination) : Z :=
  match d with
  | Onion _ => ADDR_TYPE_DOMAIN
  | SocksIpv4 _ => ADDR_TYPE_IPV4
  | SocksIpv6 _ => ADDR_TYPE_IPV6
  end.

Definition encode (d : SocksDestination) : outcome Empty_set (list Z) :=
  match d with
  | Onion key =>
      service ← pubkey_to_service key;
      Ok (splice 1 service (splice 0 [62] (replicate 63 0)))
  | SocksIpv4 o => Ok o
  | SocksIpv6 o => Ok o
  end.

(** How much of the bound address follows the reply. *)
Definition read_bound (at_ : Z) (stream : list Z) : outcome io_error (list Z) :=
  if decide (at_ = ADDR_TYPE_IPV4) then snd <$> read_exact 6 stream
  else if decide (at_ = ADDR_TYPE_IPV6) then snd <$> read_exact 18 stream
  else if decide (at_ = ADDR_TYPE_DOMAIN) then
    '(len, stream) ← read_exact 1 stream;
    snd <$> read_exact (Z.to_nat (from_le_bytes len) + 2) stream
  else Err Other.

(** [write_all] of one part after the other, the first being write number [i]:
    the failure if there is one, and the parts written. *)
Fixpoint write_parts (fails : nat → option io_error) (i : nat) (parts : list (list Z))
    : option io_error * list Z :=
  match parts with
  | [] => (None, [])
  | part :: parts =>
      match fails i with
      | Some e => (Some e, [])
      | None => let '(failed, sent) := write_parts fails (S i) parts in (failed, part ++ sent)
      end
  end.

(** [connect] over an open stream to the proxy: the bytes left after the reply,
    or the error, and the bytes written. [fails] says which write fails. *)
Definition connect (fails : nat → option io_error) (d : SocksDestination) (port : Z)
    (stream : list Z) : outcome io_error (list Z) * list Z :=
  match write_parts fails 0 [[VERSION; METHODS; NOAUTH]] with
  | (Some e, hello) => (Err e, hello)
  | (None, hello) =>
      match read_exact 2 stream with
      | Ok (resp, stream) =>
          if decide (resp !! 0%nat ≠ Some VERSION) then (Err Other, hello) else
          if decide (resp !! 1%nat ≠ Some NOAUTH) then (Err Other, hello) else
          match encode d with
          | Ok dest_bytes =>
              match write_parts fails 1
                      [[VERSION; CMD_CONNECT; RSV; type_byte d]; dest_bytes; to_be_bytes 2 port] with
              | (Some e, sent) => (Err e, hello ++ sent)
              | (None, sent) =>
                  let request := hello ++ sent in
                  match read_exact 4 stream with
                  | Ok (resp, stream) =>
                      if decide (resp !! 0%nat ≠ Some VERSION) then (Err Other, request) else
                      if decide (resp !! 1%nat ≠ Some RESPONSE_SUCCESS) then (Err Other, request) else
                      (at_ ← or_panic (resp !! 3%nat); read_bound at_ stream, request)
                  | Err e => (Err e, request)
                  | Panic => (Panic, request)
                  end
              end
          | _ => (Panic, hello)
          end
      | Err e => (Err e, hello)
      | Panic => (Panic, hello)
      end
  end.
End Onion.

(** ** Base32, proved *)

(** The value of a string of base32 digits, most significant first. *)
Definition digits_value (ds : list Z) : Z := foldl (λ v d, 32 * v + d) 0 ds.

(** The characters of digits. *)
Definition chars_of (ds cs : list Z) : Prop :=
  Forall2 (λ d c, 0 ≤ d < 32 ∧ ALPHABET !! Z.to_nat d = Some c) ds cs.

Lemma alphabet_lookup d : 0 ≤ d < 32 → is_Some (ALPHABET !! Z.to_nat d).
Proof. intros. apply lookup_lt_is_Some_2. change (length ALPHABET) with 32%nat. lia. Qed.

Lemma digits_value_app ds ds' v :
  foldl (λ v d, 32 * v + d) v (ds ++ ds') = foldl (λ v d, 32 * v + d) (foldl (λ v d, 32 * v + d) v ds) ds'.
Proof. by rewrite foldl_app. Qed.

(** A digit of the wrapped register is a digit of the whole number. *)
Lemma register_digit P bl :
  0 ≤ bl → bl + 5 ≤ 64 → 0 ≤ P →
  Z.land (Z.shiftr (P mod 2 ^ 64) bl) 31 = (P / 2 ^ bl) mod 32.
Proof.
  intros Hbl Hb HP. change 31 with (Z.ones 5). change 32 with (2 ^ 5).
  rewrite <- (Z.shiftr_div_pow2 P bl), <- (Z.land_ones P 64), <- (Z.land_ones (Z.shiftr P bl) 5) by lia.
  apply Z.bits_inj'. intros n Hn. rewrite !Z.land_spec, !Z.shiftr_spec, Z.land_spec by lia.
  destruct (decide (n < 5)).
  - rewrite (Z.ones_spec_low 64) by lia. by rewrite andb_true_r.
  - rewrite (Z.ones_spec_high 5) by lia. by rewrite !andb_false_r.
Qed.

Lemma emit_spec fuel P bl v :
  0 ≤ bl ≤ 64 → 0 ≤ P → bl ≤ Z.of_nat fuel → v = P / 2 ^ bl →
  ∃ ds cs bl', emit fuel (P mod 2 ^ 64) bl = Ok (cs, bl') ∧ chars_of ds cs ∧
    0 ≤ bl' < 5 ∧ bl = bl' + 5 * Z.of_nat (length ds) ∧
    foldl (λ v d, 32 * v + d) v ds = P / 2 ^ bl'.
Proof.
  revert bl v. induction fuel as [|fuel IH]; intros bl v Hbl HP Hf ->; cbn [emit].
  { rewrite decide_False by lia. exists [], [], bl. split_and!; [done|constructor|lia|lia|simpl; lia|done]. }
  case_decide as H5.
  2: { exists [], [], bl. split_and!; [done|constructor|lia|lia|simpl; lia|done]. }
  rewrite register_digit by lia. set (d := (P / 2 ^ (bl - 5)) mod 32).
  assert (0 ≤ d < 32) as Hd by (apply Z.mod_pos_bound; lia).
  destruct (alphabet_lookup d Hd) as [c Hc]. rewrite Hc. simpl_outcome.
  destruct (IH (bl - 5) (32 * (P / 2 ^ bl) + d)) as (ds & cs & bl' & -> & Hcs & Hbl' & Hlen & Hv);
    [lia|lia|lia| |].
  { unfold d. replace (2 ^ bl) with (2 ^ (bl - 5) * 32).
    - rewrite <- Z.div_div by (try lia; apply Z.pow_nonzero; lia).
      rewrite (Z.div_mod (P / 2 ^ (bl - 5)) 32) at 3 by lia. done.
    - change 32 with (2 ^ 5). rewrite <- Z.pow_add_r by lia. f_equal. lia. }
  simpl_outcome. exists (d :: ds), (c :: cs), bl'. split_and!; [done| |lia|lia|simpl; lia|done].
  by constructor.
Qed.

(** [(buffer << 8) | byte] on the wrapped register. *)
Lemma register_shift P b :
  0 ≤ P → in_u 8 b → Z.lor (wrap_u 64 (Z.shiftl (P mod 2 ^ 64) 8)) b = (256 * P + b) mod 2 ^ 64.
Proof.
  intros HP Hb. unfold in_u in Hb. unfold wrap_u. rewrite Z.shiftl_mul_pow2 by lia.
  change (2 ^ 8) with 256 in *.
  assert ((P mod 2 ^ 64 * 256) mod 2 ^ 64 = 256 * (P mod 2 ^ 56)) as ->.
  { change (2 ^ 64) with (2 ^ 56 * 256). rewrite Z.mul_mod_distr_r by lia.
    rewrite Z.mod_mod_divide by (exists 256; lia). lia. }
  change (2 ^ 64) with (256 * 2 ^ 56). rewrite Z.rem_mul_r by lia.
  assert ((256 * P + b) mod 256 = b) as ->.
  { rewrite Z.add_comm, Z.mul_comm, Z.mod_add by lia. apply Z.mod_small. lia. }
  assert ((256 * P + b) / 256 = P) as ->.
  { rewrite Z.add_comm, Z.mul_comm, Z.div_add by lia. rewrite Z.div_small by lia. lia. }
  rewrite Z.lor_comm. rewrite <- Z.add_lor_land.
  assert (Z.land b (256 * (P mod 2 ^ 56)) = 0) as ->; [|lia].
  change 256 with (2 ^ 8). rewrite Z.mul_comm, <- Z.shiftl_mul_pow2 by lia.
  apply Z.bits_inj'. intros n Hn. rewrite Z.land_spec, Z.bits_0, Z.shiftl_spec by lia.
  destruct (decide (n < 8)).
  - rewrite (Z.testbit_neg_r _ (n - 8)) by lia. by rewrite andb_false_r.
  - rewrite (Z.bits_above_log2 b); [done|lia|].
    destruct (decide (b = 0)) as [->|]; [simpl; lia|]. apply Z.log2_lt_pow2; [lia|].
    apply Z.lt_le_trans with (2 ^ 8); [lia|]. apply Z.pow_le_mono_r; lia.
Qed.

Lemma base32_loop_spec data P bl v :
  bytes_ok data → 0 ≤ bl < 5 → 0 ≤ P → v = P / 2 ^ bl →
  ∃ ds cs bl', base32_loop data (P mod 2 ^ 64) bl = Ok cs ∧ chars_of ds cs ∧ 0 ≤ bl' < 5 ∧
    bl + 8 * Z.of_nat (length data) = bl' + 5 * Z.of_nat (length ds) ∧
    foldl (λ v d, 32 * v + d) v ds = foldl (λ v b, 256 * v + b) P data / 2 ^ bl'.
Proof.
  intros Hdata. revert P bl v. induction Hdata as [|b data Hb _ IH]; intros P bl v Hbl HP ->;
    cbn [base32_loop foldl].
  { exists [], [], bl. split_and!; [done|constructor|lia|lia|simpl; lia|done]. }
  assert (0 ≤ 256 * P + b) as HP' by (unfold in_u in Hb; lia).
  rewrite register_shift by done.
  destruct (emit_spec (Z.to_nat (bl + 8)) (256 * P + b) (bl + 8) (P / 2 ^ bl))
    as (ds & cs & bl1 & -> & Hcs & Hbl1 & Hlen & Hv); [lia|done|lia| |].
  { rewrite Z.pow_add_r, (Z.mul_comm (2 ^ bl)) by lia. change (2 ^ 8) with 256.
    rewrite <- Z.div_div by (try lia; apply Z.pow_pos_nonneg; lia). f_equal.
    rewrite Z.add_comm, Z.mul_comm, Z.div_add by lia. unfold in_u in Hb. rewrite Z.div_small by lia. lia. }
  simpl_outcome.
  destruct (IH (256 * P + b) bl1 (foldl (λ v d, 32 * v + d) (P / 2 ^ bl) ds))
    as (ds' & cs' & bl' & -> & Hcs' & Hbl' & Hlen' & Hv'); [done|done|done|].
  simpl_outcome. exists (ds ++ ds'), (cs ++ cs'), bl'. rewrite length_app.
  split_and!; [done|by apply Forall2_app|lia|lia|simpl length; lia|]. by rewrite foldl_app.
Qed.

Lemma from_be_bytes_foldl l : from_be_bytes l = foldl (λ v b, 256 * v + b) 0 l.
Proof.
  unfold from_be_bytes. induction l as [|x l IH] using rev_ind; [done|].
  rewrite reverse_snoc, foldl_app. cbn [from_le_bytes foldl]. rewrite IH. lia.
Qed.

(** The digits of 35 bytes: 56 of them, whose value is that of the bytes. *)
Lemma base32_digits data :
  array_ok 35 data →
  ∃ ds cs, base32_encode_35 data = Ok cs ∧ chars_of ds cs ∧ length cs = 56%nat ∧
    digits_value ds = from_be_bytes data.
Proof.
  intros [Hlen Hok]. unfold base32_encode_35.
  destruct (base32_loop_spec data 0 0 0) as (ds & cs & bl & Hl & Hcs & Hbl & Hn & Hv);
    [done|lia|lia|done|].
  change (0 mod 2 ^ 64) with 0 in Hl. rewrite Hlen in Hn. assert (bl = 0) as -> by lia.
  exists ds, cs. split_and!; [done|done| |].
  - rewrite <- (Forall2_length _ _ _ Hcs). lia.
  - unfold digits_value. rewrite Hv, from_be_bytes_foldl. apply Z.div_1_r.
Qed.

Lemma chars_of_inj ds ds' cs : chars_of ds cs → chars_of ds' cs → ds = ds'.
Proof.
  assert (NoDup ALPHABET) as Hnd by (apply (bool_decide_unpack _); by vm_compute).
  intros Hd. revert ds'. induction Hd as [|d c ds cs [Hr Hc] _ IH]; intros ds' Hd'.
  { by inversion Hd'. }
  inversion Hd' as [|d' ? ds'' ? [Hr' Hc'] Hrest]; subst. f_equal; [|by apply IH].
  pose proof (NoDup_lookup _ _ _ _ Hnd Hc Hc'). lia.
Qed.

Lemma from_be_bytes_inj l k :
  bytes_ok l → bytes_ok k → length l = length k → from_be_bytes l = from_be_bytes k → l = k.
Proof.
  intros Hl Hk Hlen Heq. apply (inj reverse). apply from_le_bytes_inj; [| | |done].
  - by apply Forall_reverse.
  - by apply Forall_reverse.
  - by rewrite !length_reverse.
Qed.

Section Properties.
Context (sha3_256 : list Z → list Z).
Context (Hsha : ∀ l, array_ok 32 (sha3_256 l)).

(** The 35 bytes behind the name of [key]. *)
Definition onion_payload (key : list Z) : list Z :=
  let cs := sha3_256 (SALT ++ key ++ [TOR_VERSION]) in
  key ++ take 2 cs ++ [TOR_VERSION].

Lemma service_layout key :
  array_ok 32 key →
  pubkey_to_service sha3_256 key =
    (λ cs, cs ++ [46; 111; 110; 105; 111; 110]) <$> base32_encode_35 (onion_payload key) ∧
  array_ok 35 (onion_payload key).
Proof using Hsha.
  intros [Hk Hkok]. unfold pubkey_to_service, onion_payload.
  assert (splice 47 [TOR_VERSION] (splice 15 key (splice 0 SALT (replicate 48 0)))
    = SALT ++ key ++ [TOR_VERSION]) as ->.
  { change (replicate 48 0) with ([] ++ replicate 48 0).
    rewrite (splice_next _ _ SALT _ 33) by done.
    rewrite (splice_next _ _ key _ 1) by (rewrite ?Hk; done).
    rewrite (splice_next _ _ [TOR_VERSION] _ 0) by (rewrite ?length_app, ?Hk; done).
    by rewrite app_nil_r, <- !app_assoc. }
  destruct (Hsha (SALT ++ key ++ [TOR_VERSION])) as [Hcl Hcok].
  destruct (sha3_256 (SALT ++ key ++ [TOR_VERSION])) as [|c0 [|c1 cs]]; [done|done|].
  simpl_outcome. cbn [take lookup list_lookup or_panic mbind outcome_bind]. rewrite take_0.
  assert (splice 34 [TOR_VERSION] (splice 33 [c1] (splice 32 [c0] (splice 0 key (replicate 35 0))))
    = key ++ [c0; c1] ++ [TOR_VERSION]) as ->.
  { change (replicate 35 0) with ([] ++ replicate 35 0).
    rewrite (splice_next _ _ key _ 3) by (rewrite ?Hk; done).
    rewrite (splice_next _ _ [c0] _ 2) by (rewrite ?length_app, ?Hk; done).
    rewrite (splice_next _ _ [c1] _ 1) by (rewrite ?length_app, ?Hk; done).
    rewrite (splice_next _ _ [TOR_VERSION] _ 0) by (rewrite ?length_app, ?Hk; done).
    by rewrite app_nil_r, <- !app_assoc. }
  assert (array_ok 35 (key ++ [c0; c1] ++ [TOR_VERSION])) as Hpay.
  { split; [by rewrite length_app, Hk|]. apply Forall_app. split; [done|].
    apply Forall_cons in Hcok as [? [? _]%Forall_cons]. simpl.
    rewrite !Forall_cons. split_and!; [done|done|unfold in_u, TOR_VERSION; lia..|constructor]. }
  split; [|done]. destruct (base32_digits _ Hpay) as (ds & out & -> & _ & Hlen & _). simpl_outcome.
  change (replicate 62 0) with ([] ++ replicate 62 0).
  rewrite (splice_next _ _ out _ 6) by (rewrite ?Hlen; done).
  rewrite (splice_next _ _ _ _ 0) by (rewrite ?length_app, ?Hlen; done).
  by rewrite app_nil_r.
Qed.

(** C37: The base32 encoder is faithful although its register holds only 64 bits:
    35 bytes give exactly the 56 characters whose base32 value is the number the
    bytes spell, so that different bytes give different strings. *)
Theorem base32_faithful data :
  array_ok 35 data →
  ∃ ds cs, base32_encode_35 data = Ok cs ∧ length cs = 56%nat ∧ chars_of ds cs ∧
    digits_value ds = from_be_bytes data ∧
    (∀ data', array_ok 35 data' → base32_encode_35 data' = Ok cs → data' = data).
Proof.
  intros Hdata. destruct (base32_digits data Hdata) as (ds & cs & Hcs & Hch & Hlen & Hv).
  exists ds, cs. split_and!; try done. intros data' Hdata' Hcs'.
  destruct (base32_digits data' Hdata') as (ds' & cs' & Hcs'' & Hch' & _ & Hv').
  rewrite Hcs' in Hcs''. simplify_eq. rewrite (chars_of_inj _ _ _ Hch' Hch) in Hv'.
  destruct Hdata as [Hl Hok], Hdata' as [Hl' Hok']. apply from_be_bytes_inj; [done|done|congruence|congruence].
Qed.

(** An onion service name is the base32 of the key, two checksum bytes and
    the version, followed by ".onion", 62 bytes in all; different keys have
    different names. *)
Theorem onion_name_unique key :
  array_ok 32 key →
  ∃ name cs, pubkey_to_service sha3_256 key = Ok name ∧
    base32_encode_35 (onion_payload key) = Ok cs ∧
    name = cs ++ [46; 111; 110; 105; 111; 110] ∧ length name = 62%nat ∧
    (∀ key', array_ok 32 key' → pubkey_to_service sha3_256 key' = Ok name → key' = key).
Proof using Hsha.
  intros Hkey. destruct (service_layout key Hkey) as [Hs Hpay].
  destruct (base32_digits _ Hpay) as (ds & cs & Hcs & Hch & Hlen & Hv).
  rewrite Hs, Hcs. eexists _, cs. split_and!; [done|done|done|by rewrite length_app, Hlen|].
  intros key' Hkey' Hn. destruct (service_layout key' Hkey') as [Hs' Hpay'].
  destruct (base32_digits _ Hpay') as (ds' & cs' & Hcs' & Hch' & _ & Hv').
  rewrite Hs', Hcs' in Hn. simpl in Hn. injection Hn as Heq. apply app_inv_tail in Heq as ->.
  rewrite (chars_of_inj _ _ _ Hch' Hch) in Hv'. destruct Hpay as [Hl Hok], Hpay' as [Hl' Hok'].
  assert (onion_payload key' = onion_payload key) as Hp
    by (apply from_be_bytes_inj; [done|done|congruence|congruence]).
  unfold onion_payload in Hp. by apply app_inj_1 in Hp as [? _]; [|destruct Hkey, Hkey'; congruence].
Qed.

(** A proxy's address after its reply, [at_] saying of which kind. *)
Definition bound_ok (at_ : Z) (bound : list Z) : Prop :=
  (at_ = ADDR_TYPE_IPV4 ∧ length bound = 6%nat) ∨
  (at_ = ADDR_TYPE_IPV6 ∧ length bound = 18%nat) ∨
  (at_ = ADDR_TYPE_DOMAIN ∧ ∃ len name, bound = len :: name ∧ length name = (Z.to_nat len + 2)%nat).

Lemma read_bound_spec at_ stream rest :
  read_bound at_ stream = Ok rest ↔ ∃ bound, stream = bound ++ rest ∧ bound_ok at_ bound.
Proof.
  unfold read_bound, bound_ok. split.
  - repeat case_decide; subst.
    + intros ([b r] & Hr & ->)%fmap_Ok. apply read_exact_Ok in Hr as [-> Hl]. eauto.
    + intros ([b r] & Hr & ->)%fmap_Ok. apply read_exact_Ok in Hr as [-> Hl]. eauto 10.
    + intros ([len s] & Hr & ([b r] & Hr2 & ->)%fmap_Ok)%bind_Ok.
      apply read_exact_Ok in Hr as [-> Hl]. apply read_exact_Ok in Hr2 as [-> Hl2].
      destruct len as [|len [|? ?]]; try done. exists (len :: b). split; [done|].
      right. right. split; [done|]. exists len, b. split; [done|]. rewrite Hl2. simpl. f_equal. f_equal. lia.
    + done.
  - intros (bound & -> & [(-> & Hl)|[(-> & Hl)|(-> & len & name & -> & Hl)]]).
    + rewrite decide_True by done. by rewrite read_exact_app.
    + rewrite decide_False, decide_True by done. by rewrite read_exact_app.
    + rewrite !decide_False, decide_True by done. simpl app. rewrite read_exact_cons. simpl_outcome.
      rewrite read_exact_app; [done|]. rewrite Hl. simpl. f_equal. f_equal. lia.
Qed.

Lemma write_parts_ok fails i parts sent :
  write_parts fails i parts = (None, sent) ↔
  (∀ j, (j < length parts)%nat → fails (i + j)%nat = None) ∧ sent = concat parts.
Proof.
  revert i sent. induction parts as [|part parts IH]; intros i sent; simpl.
  { split; [intros [= <-]; split; [lia|done]|by intros [_ ->]]. }
  specialize (IH (S i)). destruct (fails i) as [e|] eqn:Hf.
  { split; [done|]. intros [Ha _]. specialize (Ha 0%nat ltac:(lia)). rewrite Nat.add_0_r in Ha. congruence. }
  destruct (write_parts fails (S i) parts) as [failed rest]. split.
  - intros [= -> <-]. destruct (proj1 (IH rest) eq_refl) as [Ha ->]. split; [|done].
    intros [|j] Hj; [by rewrite Nat.add_0_r|]. rewrite Nat.add_succ_r. apply Ha. lia.
  - intros [Ha ->]. assert ((failed, rest) = (None, concat parts)) as [= -> ->]; [|done].
    apply IH. split; [|done]. intros j Hj. rewrite <- (Ha (S j)) by lia. f_equal. lia.
Qed.

Lemma read_bound_total at_ stream : read_bound at_ stream ≠ Panic.
Proof.
  unfold read_bound, read_exact. repeat case_decide; try done; simpl_outcome; by repeat case_decide.
Qed.

Lemma connect_total fails d port stream :
  (∃ dest, encode sha3_256 d = Ok dest) → (connect sha3_256 fails d port stream).1 ≠ Panic.
Proof.
  intros [dest Hd]. unfold connect. rewrite Hd.
  destruct (write_parts fails 0 _) as [[e|] hello]; [done|].
  destruct (read_exact 2 stream) as [[resp s1]| |] eqn:H1; [|done|by apply read_exact_no_panic in H1].
  case_decide; [done|]. case_decide; [done|].
  destruct (write_parts fails 1 _) as [[e|] req]; [done|].
  destruct (read_exact 4 s1) as [[resp' s2]| |] eqn:H2; [|done|by apply read_exact_no_panic in H2].
  apply read_exact_Ok in H2 as [_ Hl]. case_decide; [done|]. case_decide; [done|].
  destruct resp' as [|? [|? [|? [|at_ ?]]]]; try done. simpl. apply read_bound_total.
Qed.

Lemma encode_total d :
  match d with Onion key => array_ok 32 key | _ => True end → ∃ dest, encode sha3_256 d = Ok dest.
Proof using Hsha.
  destruct d as [key|o|o]; simpl; [|eauto..]. intros Hkey.
  destruct (service_layout key Hkey) as [Hs Hpay].
  destruct (base32_digits _ Hpay) as (ds & cs & Hcs & _). rewrite Hs, Hcs. simpl. eauto.
Qed.

(** The Socks5 exchange succeeds exactly when no write fails, the proxy
    accepts the connection without authentication and its reply is complete;
    everything after the proxy's reply is left in the stream for the peer's own
    protocol, and what is written is the greeting followed by the request for
    the destination. It never panics. *)
Theorem socks_exchange fails d port stream rest sent dest :
  encode sha3_256 d = Ok dest →
  (connect sha3_256 fails d port stream).1 ≠ Panic ∧
  (connect sha3_256 fails d port stream = (Ok rest, sent) ↔
   (∀ i, (i < 4)%nat → fails i = None) ∧
   ∃ r at_ bound,
     stream = [VERSION; NOAUTH] ++ [VERSION; RESPONSE_SUCCESS; r; at_] ++ bound ++ rest ∧
     bound_ok at_ bound ∧
     sent = [VERSION; METHODS; NOAUTH] ++ [VERSION; CMD_CONNECT; RSV; type_byte d] ++ dest
              ++ to_be_bytes 2 port).
Proof.
  intros Hd. split; [apply connect_total; eauto|]. unfold connect. rewrite Hd. split.
  - destruct (write_parts fails 0 _) as [[e|] hello] eqn:W1; [done|].
    apply write_parts_ok in W1 as [F1 ->]. simpl concat.
    destruct (read_exact 2 stream) as [[resp s1]| |] eqn:H1; try done.
    apply read_exact_Ok in H1 as [-> Hl1]. destruct resp as [|v [|a [|? ?]]]; try done. cbn [lookup list_lookup].
    case_decide as Hv; [done|]. case_decide as Ha; [done|]. simplify_eq.
    destruct (write_parts fails 1 _) as [[e|] req] eqn:W2; [done|].
    apply write_parts_ok in W2 as [F2 ->].
    destruct (read_exact 4 s1) as [[resp s2]| |] eqn:H2; try done.
    apply read_exact_Ok in H2 as [-> Hl2].
    destruct resp as [|v [|a [|r [|at_ [|? ?]]]]]; try done. cbn [lookup list_lookup].
    case_decide as Hv; [done|]. case_decide as Ha; [done|].
    simplify_eq. intros [= Hb <-]. split.
    { intros [|i] Hi; [apply (F1 0%nat); simpl; lia|]. apply (F2 i). simpl. lia. }
    apply read_bound_spec in Hb as (bound & -> & Hb). exists r, at_, bound. split_and!; [done|done|].
    done.
  - intros (Hf & r & at_ & bound & -> & Hb & ->).
    rewrite (proj2 (write_parts_ok fails 0 _ [VERSION; METHODS; NOAUTH])).
    2: { split; [intros j Hj; apply Hf; simpl in *; lia|done]. }
    rewrite (read_exact_app 2 [VERSION; NOAUTH]) by done.
    rewrite decide_False, decide_False by naive_solver.
    rewrite (proj2 (write_parts_ok fails 1 _
      ([VERSION; CMD_CONNECT; RSV; type_byte d] ++ dest ++ to_be_bytes 2 port))).
    2: { split; [intros j Hj; apply Hf; simpl in *; lia|cbn [concat]; by rewrite app_nil_r]. }
    rewrite (read_exact_app 4 [VERSION; RESPONSE_SUCCESS; r; at_]) by done.
    rewrite decide_False, decide_False by naive_solver. simpl_outcome.
    f_equal. apply read_bound_spec. eauto.
Qed.
End Properties.

(** ** Concrete runs *)

Module Witness.
(** A digest that always is the checksum of the key below. *)
Definition demo_sha (l : list Z) : list Z := [236; 144] ++ replicate 30 0.
Lemma demo_sha_ok l : array_ok 32 (demo_sha l).
Proof. apply (bool_decide_unpack _). by vm_compute. Qed.

(** The key of the test in src/net/socks5.rs. *)
Definition test_key : list Z :=
  [215; 90; 152; 1; 130; 177; 10; 183; 213; 75; 254; 211; 201; 100; 7; 58;
   14; 225; 114; 243; 218; 166; 35; 37; 175; 2; 26; 104; 247; 7; 81; 26].

Lemma test_key_ok : array_ok 32 test_key.
Proof. apply (bool_decide_unpack _). by vm_compute. Qed.

Lemma test_payload_ok : array_ok 35 (test_key ++ [236; 144; 3]).
Proof. apply (bool_decide_unpack _). by vm_compute. Qed.

Lemma base32_witness :
  ∃ cs, base32_encode_35 (test_key ++ [236; 144; 3]) = Ok cs ∧ length cs = 56%nat ∧
    (* "25njqamcweflpvkl" *)
    take 16 cs = [50; 53; 110; 106; 113; 97; 109; 99; 119; 101; 102; 108; 112; 118; 107; 108].
Proof.
  destruct (base32_faithful (test_key ++ [236; 144; 3]) test_payload_ok) as (ds & cs & Hcs & Hl & _).
  exists cs. split; [exact Hcs|]. split; [exact Hl|].
  vm_compute in Hcs. injection Hcs as <-. by vm_compute.
Defined.

Lemma onion_witness :
  ∃ name, pubkey_to_service demo_sha test_key = Ok name ∧ length name = 62%nat.
Proof.
  destruct (onion_name_unique demo_sha demo_sha_ok test_key test_key_ok) as (name & cs & Hn & _ & _ & Hl & _).
  exists name. split; [exact Hn|exact Hl].
Defined.

Lemma socks_witness :
  ∃ sent, connect demo_sha (λ _, None) (SocksIpv4 [10; 0; 0; 1]) 8333
      [5; 0; 5; 0; 0; 1; 127; 0; 0; 1; 31; 144; 99] = (Ok [99], sent) ∧
    sent = [5; 1; 0; 5; 1; 0; 1; 10; 0; 0; 1; 32; 141].
Proof.
  eexists. split; [|reflexivity].
  apply (socks_exchange demo_sha (λ _, None) (SocksIpv4 [10; 0; 0; 1]) 8333 _ [99] _ [10; 0; 0; 1] eq_refl).
  split; [done|]. exists 0, 1, [127; 0; 0; 1; 31; 144]. split_and!; [done| |by vm_compute].
  left. done.
Defined.
End Witness.
