(* ===== verification/Service.v ===== *)
(** * The wallet service (src/ipc/wallet.rs and the broadcast thread of
      src/bin/node.rs)

    A client asks the node to pay an address; the transaction is built on the
    shared wallet, queued for the broadcast thread and its coins are reserved;
    when no peer takes it the coins are released. Blocks are scanned and
    disconnected meanwhile. *)

From Corelib Require Import SpecFloat.
From S2P Require Import Prelude Joinable Wallet Sending.

(** ** Fee rates *)

(** [x.ceil() as u64]. *)
Definition ceil_as_u64 (x : spec_float) : Z :=
  let clamp z := Z.max 0 (Z.min z (2 ^ 64 - 1)) in
  match x with
  | S754_zero _ | S754_nan => 0
  | S754_infinity s => if s then 0 else 2 ^ 64 - 1
  | S754_finite s m e =>
      let v := if s then Z.neg m else Z.pos m in
      clamp (if decide (0 ≤ e) then v * 2 ^ e else - (- v / 2 ^ (- e)))
  end.

Definition is_finite (x : spec_float) : bool :=
  match x with S754_zero _ | S754_finite _ _ _ => true | _ => false end.

(** The checked conversion of a rate in satoshi per virtual byte to one in
    satoshi per thousand weight units. *)
Definition fee_rate_of (sat_per_vb : spec_float) : option Z :=
  if negb (is_finite sat_per_vb) || SFltb sat_per_vb (S754_zero false) then None
  else Some (ceil_as_u64 (SFmul 53 1024 sat_per_vb (binary_normalize 53 1024 250 0 false))).

(** ** The service *)

Section Service.
Context `{Spending}.

(** [sv_queue] is the channel to the broadcast thread, of capacity one,
    [sv_current] the transaction the thread is busy with, [sv_sent] what peers
    have taken, [sv_open] whether the thread still holds the receiving end. *)
Record service := mk_service {
  sv_wallet : Wallet;
  sv_queue : list Transaction;
  sv_current : option Transaction;
  sv_sent : list Transaction;
  sv_open : bool;
}.

Definition CAPACITY : nat := 1.

Definition spends (tx : Transaction) : list OutPoint := previous_output <$> tx.(input).

Definition with_wallet (w : Wallet) (sv : service) : service :=
  mk_service w sv.(sv_queue) sv.(sv_current) sv.(sv_sent) sv.(sv_open).
Definition enqueue (tx : Transaction) (sv : service) : service :=
  mk_service sv.(sv_wallet) (sv.(sv_queue) ++ [tx]) sv.(sv_current) sv.(sv_sent) sv.(sv_open).

(** [try_send] fails when the channel is full or its receiver is gone. *)
Definition try_send (tx : Transaction) (sv : service) : option service :=
  if negb sv.(sv_open) then None
  else if decide (length sv.(sv_queue) < CAPACITY)%nat then Some (enqueue tx sv) else None.

(** The end of the broadcast thread drops the receiver and what is queued in the
    channel. *)
Definition close (sv : service) : service :=
  mk_service sv.(sv_wallet) [] sv.(sv_current) sv.(sv_sent) false.

(** The answer of [send_to_address]: sent, refused with a message, or an error of
    the call. *)
Inductive answer :=
| Sent (tx : Transaction)
| Declined (e : SendError)
| Failed.

(** The wallet lock is held from building to reserving. [None] is a panic. *)
Definition send_to_address (shuffle_in : list (OutPoint * Coin) → list (OutPoint * Coin))
    (shuffle_out : list TxOut → list TxOut) (iter : list (OutPoint * Coin))
    (address : string) (amount : Z) (fee_rate_sat_per_vb long_term_fee_rate_sat_per_vb : spec_float)
    (sv : service) : option (answer * service) :=
  match fee_rate_of fee_rate_sat_per_vb, fee_rate_of long_term_fee_rate_sat_per_vb with
  | Some fee_rate, Some long_term_fee_rate =>
      let w := sv.(sv_wallet) in
      let build :=
        recipient ← recipient_parse address w.(network);
        build_transaction shuffle_in shuffle_out iter w recipient amount fee_rate long_term_fee_rate in
      match build with
      | Ok tx =>
          match try_send tx sv with
          | Some sv => Some (Sent tx, with_wallet (reserve_coins (spends tx) w) sv)
          | None => Some (Failed, sv)
          end
      | Err e => if is_user_error e then Some (Declined e, sv) else Some (Failed, sv)
      | Panic => None
      end
  | _, _ => Some (Failed, sv)
  end.

(** A transaction given by its bytes, here already decoded. *)
Definition broadcast_raw_tx (tx : Transaction) (sv : service) : bool * service :=
  match try_send tx sv with
  | Some sv => (true, sv)
  | None => (false, sv)
  end.

(** The broadcast thread takes a transaction. *)
Definition receive (sv : service) : service :=
  match sv.(sv_current), sv.(sv_queue) with
  | None, tx :: queue => mk_service sv.(sv_wallet) queue (Some tx) sv.(sv_sent) sv.(sv_open)
  | _, _ => sv
  end.

(** It finishes with it: [taken] is the result of [broadcast_transaction]. *)
Definition finish (taken : bool) (sv : service) : service :=
  match sv.(sv_current) with
  | Some tx =>
      if taken then mk_service sv.(sv_wallet) sv.(sv_queue) None (tx :: sv.(sv_sent)) sv.(sv_open)
      else mk_service (release_coins (spends tx) sv.(sv_wallet)) sv.(sv_queue) None sv.(sv_sent) sv.(sv_open)
  | None => sv
  end.

(** ** Runs *)

Inductive call :=
| CSend (a : answer)
| CRaw (tx : Transaction)
| CReceive
| CFinish (taken : bool)
| CClose
| CScan (e : chain_event)
| CImport (scan : SecretKey) (spend_xonly : XOnlyPublicKey).

(** Each step holds the wallet lock. *)
Inductive svstep : service → call → service → Prop :=
| sv_send sin sout iter address amount fee lt sv a sv' :
    (∀ l, sin l ≡ₚ l) → (∀ l, sout l ≡ₚ l) → iterates_coins iter sv.(sv_wallet) →
    send_to_address sin sout iter address amount fee lt sv = Some (a, sv') →
    svstep sv (CSend a) sv'
| sv_raw tx sv : svstep sv (CRaw tx) (broadcast_raw_tx tx sv).2
| sv_receive sv : svstep sv CReceive (receive sv)
| sv_finish taken sv : svstep sv (CFinish taken) (finish taken sv)
| sv_close sv : svstep sv CClose (close sv)
| sv_scan e sv w : on_event (Ok sv.(sv_wallet)) e = Ok w → svstep sv (CScan e) (with_wallet w sv)
| sv_import scan spend sv w :
    import_keys scan spend sv.(sv_wallet) = Ok w → svstep sv (CImport scan spend) (with_wallet w sv).

Inductive svrun (L : call → Prop) : service → list call → service → Prop :=
| svrun_nil sv : svrun L sv [] sv
| svrun_cons sv c sv1 cs sv2 : svstep sv c sv1 → L c → svrun L sv1 cs sv2 → svrun L sv (c :: cs) sv2.

(** [F] is a set of coins of others: transactions given by their bytes spend only
    coins of [F], and payments none of them. *)
Definition apart (F : gset OutPoint) (c : call) : Prop :=
  match c with
  | CRaw tx => ∀ o, o ∈ spends tx → o ∈ F
  | CSend (Sent tx) => ∀ o, o ∈ spends tx → o ∉ F
  | _ => True
  end.

(** The transactions under way or taken, and what they spend. *)
Definition pending (sv : service) : list Transaction :=
  sv.(sv_sent) ++ option_list sv.(sv_current) ++ sv.(sv_queue).
Definition spent_by_pending (sv : service) : list OutPoint := concat (spends <$> pending sv).


(** What they spend outside [F]. *)
Definition spent_outside (F : gset OutPoint) (sv : service) : list OutPoint :=
  filter (λ o, o ∉ F) (spent_by_pending sv).

Definition reserved_ok (F : gset OutPoint) (sv : service) : Prop :=
  NoDup (spent_outside F sv) ∧ ∀ o, o ∈ spent_outside F sv → o ∈ sv.(sv_wallet).(reserved).
End Service.

Section Facts.
Context `{SpendingLaws}.

Lemma build_inputs sin sout iter w recipient amount fee lt tx :
  (∀ l, sin l ≡ₚ l) → (∀ l, sout l ≡ₚ l) → iterates_coins iter w →
  build_transaction sin sout iter w recipient amount fee lt = Ok tx →
  NoDup (spends tx) ∧ ∀ o, o ∈ spends tx → o ∉ w.(reserved).
Proof.
  intros Hsin Hsout Hit. unfold build_transaction.
  intros (spend & _ & (k & _ & Hb)%bind_Ok)%bind_Ok.
  apply build_with_spec in Hb as (sel & _ & _ & _ & Hin & Hnd & Hsub & _);
    [|done|done|by apply spendable_NoDup].
  unfold spends. split; [by rewrite Hin|]. intros o Ho. rewrite Hin in Ho.
  apply list_elem_of_fmap in Ho as (p & -> & Hp%Hsub).
  by apply spendable_spec in Hp as (_ & _ & ?).
Qed.

Lemma release_reserved os w :
  (release_coins os w).(reserved) = w.(reserved) ∖ list_to_set os.
Proof.
  unfold release_coins. simpl. generalize (reserved w). induction os as [|o os IH]; intros r; simpl; [set_solver|].
  rewrite IH. set_solver.
Qed.

Lemma on_event_reserved e w w' : on_event (Ok w) e = Ok w' → w'.(reserved) = w.(reserved).
Proof.
  destruct e as [block spent height|block]; simpl; [|by intros [= <-]].
  intros ([n w1] & Hs & ->)%fmap_Ok. unfold scan_block in Hs.
  destruct (keys w); [|by simplify_eq]. by apply bind_Ok in Hs as (found & _ & [= _ <-]).
Qed.

Lemma import_reserved scan spend w w' : import_keys scan spend w = Ok w' → w'.(reserved) = w.(reserved).
Proof. unfold import_keys. by intros (rcv & _ & [= <-])%bind_Ok. Qed.

(** Importing watch-only keys over signing keys leaves the old secret in place,
    so that the wallet still counts as one that can sign. *)
Lemma watch_only_import_keeps_secret scan1 spend1 scan2 spend2 w w1 w2 :
  import_signing_keys scan1 spend1 w = Ok w1 → import_keys scan2 spend2 w1 = Ok w2 →
  w2.(spend_secret) = w1.(spend_secret) ∧ is_Some w2.(spend_secret) ∧
  w2.(spend_key) = Some (from_x_only_even spend2).
Proof.
  unfold import_signing_keys. destruct (x_only_public_key spend1) as [pk odd].
  intros (w0 & _ & [= <-])%bind_Ok. unfold import_keys. intros (rcv & _ & [= <-])%bind_Ok. simpl. eauto.
Qed.

(** What is pending, up to its order; less of it may be. *)
Lemma spent_outside_perm F sv sv' :
  pending sv' ≡ₚ pending sv → spent_outside F sv' ≡ₚ spent_outside F sv.
Proof. intros Hp. unfold spent_outside, spent_by_pending. by rewrite Hp. Qed.

Lemma reserved_ok_perm F sv sv' :
  pending sv' ≡ₚ pending sv → sv'.(sv_wallet).(reserved) = sv.(sv_wallet).(reserved) →
  reserved_ok F sv → reserved_ok F sv'.
Proof.
  intros Hp%(spent_outside_perm F) Hr [Hnd Hin].
  split; [by rewrite Hp|]. intros o Ho. rewrite Hr. apply Hin. by rewrite <- Hp.
Qed.

Lemma filter_all_out (F : gset OutPoint) (l : list OutPoint) : (∀ o, o ∈ l → o ∈ F) → filter (λ o, o ∉ F) l = [].
Proof.
  intros Hl. apply elem_of_nil_inv. intros o [Hn Ho]%list_elem_of_filter. by apply Hn, Hl.
Qed.

Lemma spent_outside_enqueue F tx w sv :
  spent_outside F (with_wallet w (enqueue tx sv)) = spent_outside F sv ++ filter (λ o, o ∉ F) (spends tx).
Proof.
  unfold spent_outside, spent_by_pending, pending. simpl.
  rewrite !app_assoc, fmap_app, concat_app, filter_app. simpl. by rewrite app_nil_r.
Qed.

Lemma reserved_ok_send F sin sout iter address amount fee lt sv a sv' :
  (∀ l, sin l ≡ₚ l) → (∀ l, sout l ≡ₚ l) → iterates_coins iter sv.(sv_wallet) →
  send_to_address sin sout iter address amount fee lt sv = Some (a, sv') →
  reserved_ok F sv → reserved_ok F sv'.
Proof.
  intros Hsin Hsout Hit Hs Hok. unfold send_to_address in Hs.
  destruct (fee_rate_of fee) as [f|]; [|by simplify_eq]. destruct (fee_rate_of lt) as [l|]; [|by simplify_eq].
  destruct (recipient ← recipient_parse address _; _) as [tx|e|] eqn:Hb; [|by case_match; simplify_eq|done].
  apply bind_Ok in Hb as (recipient & _ & Hb).
  destruct (build_inputs _ _ _ _ _ _ _ _ _ Hsin Hsout Hit Hb) as [Hnd Hfree].
  unfold try_send in Hs. destruct (negb _); [by simplify_eq|]. case_decide; simplify_eq; [|done].
  destruct Hok as [Hpnd Hpin]. split; setoid_rewrite spent_outside_enqueue.
  - apply NoDup_app. split_and!; [done| |by apply NoDup_filter].
    intros o Ho%Hpin [_ Ho']%list_elem_of_filter. by eapply Hfree.
  - intros o. rewrite elem_of_app, list_elem_of_filter. simpl. rewrite elem_of_union, elem_of_list_to_set.
    intros [Ho|[_ Ho]]; [left; by apply Hpin|by right].
Qed.

Lemma reserved_ok_raw F tx sv :
  (∀ o, o ∈ spends tx → o ∈ F) → reserved_ok F sv → reserved_ok F (broadcast_raw_tx tx sv).2.
Proof.
  intros Hx. unfold broadcast_raw_tx, try_send. destruct (negb _); [done|]. case_decide; [|done]. simpl.
  assert (spent_outside F (enqueue tx sv) = spent_outside F sv) as Heq.
  { destruct sv as [w q cur sent open]. etrans; [exact (spent_outside_enqueue F tx w (mk_service w q cur sent open))|].
    by rewrite filter_all_out, app_nil_r. }
  intros [Hnd Hin]. split; by rewrite Heq.
Qed.

Lemma reserved_ok_finish F taken sv : reserved_ok F sv → reserved_ok F (finish taken sv).
Proof.
  intros Hok. unfold finish. destruct (sv_current sv) as [tx|] eqn:Hc; [|done]. destruct taken.
  { apply (reserved_ok_perm F sv); [|done|done]. unfold pending. simpl. rewrite Hc. simpl.
    by rewrite Permutation_middle. }
  destruct Hok as [Hnd Hin]. unfold reserved_ok, spent_outside, spent_by_pending, pending in *. rewrite Hc in Hnd, Hin.
  simpl in *. rewrite fmap_app, concat_app, filter_app in *. simpl in *. rewrite filter_app in *.
  set (A := concat (spends <$> sv_sent sv)) in *. set (B := concat (spends <$> sv_queue sv)) in *.
  apply NoDup_app in Hnd as (HA & HAB & (HT & HTB & HB)%NoDup_app). split.
  - apply NoDup_app. split_and!; [done| |done]. intros o Ho. specialize (HAB o Ho). rewrite elem_of_app in HAB. tauto.
  - intros o Ho. change (o ∈ (release_coins (spends tx) (sv_wallet sv)).(reserved)).
    rewrite release_reserved. apply elem_of_difference. rewrite elem_of_list_to_set. split.
    + apply Hin. rewrite !elem_of_app. apply elem_of_app in Ho. tauto.
    + intros Ht. assert (o ∈ filter (λ o, o ∉ F) (spends tx)) as Ht'.
      { apply list_elem_of_filter. split; [|done].
        apply elem_of_app in Ho as [[? _]%list_elem_of_filter|[? _]%list_elem_of_filter]; done. }
      apply elem_of_app in Ho as [Ho|Ho]; [apply (HAB o Ho), elem_of_app; by left|by apply (HTB o Ht')].
Qed.

Lemma reserved_ok_close F sv : reserved_ok F sv → reserved_ok F (close sv).
Proof.
  unfold reserved_ok, spent_outside, spent_by_pending, pending, close. simpl. rewrite app_nil_r, app_assoc.
  rewrite (fmap_app _ (_ ++ _)), concat_app, filter_app. intros [(Hnd & _)%NoDup_app Hin].
  split; [done|]. intros o Ho. apply Hin, elem_of_app. by left.
Qed.

Lemma reserved_ok_step F sv c sv' : svstep sv c sv' → apart F c → reserved_ok F sv → reserved_ok F sv'.
Proof.
  destruct 1 as [sin sout iter address amount fee lt sv a sv' Hi Ho Hit Hs|tx sv|sv|taken sv|sv|e sv w Hw|scan spend sv w Hw];
    intros Hown Hok; try done.
  - by eapply reserved_ok_send.
  - by apply reserved_ok_raw.
  - apply (reserved_ok_perm F sv); [| |done]; unfold receive, pending;
      destruct (sv_current sv) as [tx|] eqn:Hc, (sv_queue sv) as [|tx' q] eqn:Hq; simpl; rewrite ?Hc, ?Hq; done.
  - by apply reserved_ok_finish.
  - by apply reserved_ok_close.
  - apply (reserved_ok_perm F sv); [done|by eapply on_event_reserved|done].
  - apply (reserved_ok_perm F sv); [done|by eapply import_reserved|done].
Qed.

(** C11: The node's payments never spend a coin twice, as long as the transactions
    broadcast by their bytes spend no coin a payment spends: let [F] hold the
    coins of those transactions and of no payment; then in every run of payments,
    raw broadcasts, sends to peers that succeed or fail, scanned blocks, imported
    keys and the end of the broadcast thread, the transactions queued, under way
    or taken by a peer have no input outside [F] in common, and these coins stay
    reserved. Without raw broadcasts [F] is empty and this is about every coin;
    a raw transaction that spends a coin of the wallet can break it
    ([Witness.raw_broadcast_releases]). *)
Theorem no_double_spend F w cs sv :
  svrun (apart F) (mk_service w [] None [] true) cs sv →
  NoDup (spent_outside F sv) ∧
  (∀ o, o ∈ spent_outside F sv → o ∈ sv.(sv_wallet).(reserved)) ∧
  (F = ∅ → spent_outside F sv = spent_by_pending sv).
Proof.
  intros Hr. assert (reserved_ok F (mk_service w [] None [] true)) as Hok.
  { split; [constructor|]. intros o Ho. by apply elem_of_nil in Ho. }
  assert (reserved_ok F sv) as [Hnd Hin].
  { revert Hr Hok. generalize (mk_service w [] None [] true). intros sv0.
    induction 1 as [|sv1 c sv2 cs sv3 Hst Hown _ IH]; [done|]. intros Hok. apply IH. by eapply reserved_ok_step. }
  split_and!; [done..|]. intros ->. unfold spent_outside.
  induction (spent_by_pending sv) as [|o l IH]; [done|]. rewrite filter_cons_True; [by rewrite IH|set_solver].
Qed.
End Facts.

(** ** The broadcast thread *)

(** At the head of its loop, in [recv_timeout], in [broadcast_transaction], at the
    end. *)
Inductive broadcast_thread := TLoop | TReceiving | TBroadcasting | TStopped.

Section Broadcast.
Context `{Spending}.

Record payments := mk_payments {
  pay_running : bool;
  pay_thread : broadcast_thread;
  pay_service : service;
}.

(** [senders] says whether a client is left, [taken] is the result of
    [broadcast_transaction]. *)
Definition broadcast_turn (senders taken : bool) (p : payments) : payments :=
  let at_ t sv := mk_payments p.(pay_running) t sv in
  let sv := p.(pay_service) in
  match p.(pay_thread) with
  | TLoop => if p.(pay_running) then at_ TReceiving sv else at_ TStopped (close sv)
  | TReceiving =>
      match sv.(sv_queue) with
      | [] => if senders then at_ TLoop sv else at_ TStopped (close sv)
      | _ => at_ TBroadcasting (receive sv)
      end
  | TBroadcasting => at_ TLoop (finish taken sv)
  | TStopped => p
  end.

Inductive pay_label :=
| PBroadcast (senders taken : bool)
| PCall (c : call).

(** The calls of the other threads. *)
Definition of_clients (c : call) : bool :=
  match c with CReceive | CFinish _ | CClose => false | _ => true end.

Inductive paystep : payments → pay_label → payments → Prop :=
| pay_broadcast senders taken p : paystep p (PBroadcast senders taken) (broadcast_turn senders taken p)
| pay_call c p sv :
    of_clients c = true → svstep p.(pay_service) c sv →
    paystep p (PCall c) (mk_payments p.(pay_running) p.(pay_thread) sv).

Definition broadcast_left (t : broadcast_thread) : nat :=
  match t with TReceiving => 3 | TBroadcasting => 2 | TLoop => 1 | TStopped => 0 end.

(** The thread holds a transaction exactly while it broadcasts it. *)
Definition pay_ok (p : payments) : Prop :=
  p.(pay_service).(sv_current) = None ↔ p.(pay_thread) ≠ TBroadcasting.

#[global] Instance payments_joinable : Joinable payments pay_label () := {|
  j_step := paystep;
  j_ok := pay_ok;
  j_halted p := p.(pay_running) = false;
  j_threads _ := [()];
  j_left p _ := broadcast_left p.(pay_thread);
  j_ended p _ := match p.(pay_thread) with TStopped => true | _ => false end;
  j_turn l := match l with PBroadcast _ _ => Some () | PCall _ => None end;
|}.

(** A turn is a step of the service, or leaves it alone. *)
Lemma broadcast_turn_service senders taken p :
  (broadcast_turn senders taken p).(pay_service) = p.(pay_service) ∨
  ∃ c, svstep p.(pay_service) c (broadcast_turn senders taken p).(pay_service).
Proof.
  unfold broadcast_turn. destruct (pay_thread p); simpl; auto.
  - destruct (pay_running p); simpl; [by auto|]. right. exists CClose. constructor.
  - destruct (sv_queue (pay_service p)); simpl.
    + destruct senders; simpl; [by auto|]. right. exists CClose. constructor.
    + right. exists CReceive. constructor.
  - right. exists (CFinish taken). constructor.
Qed.

Lemma clients_current c sv sv' :
  of_clients c = true → svstep sv c sv' → sv'.(sv_current) = sv.(sv_current).
Proof.
  intros Hc. destruct 1 as [sin sout iter address amount fee lt sv a sv' _ _ _ Hs|tx sv|sv|taken sv|sv|e sv w _|scan spend sv w _];
    try done.
  - unfold send_to_address, try_send in Hs. repeat case_match; simplify_eq; done.
  - unfold broadcast_raw_tx, try_send. destruct (negb _); [done|]. by case_decide.
Qed.

#[global] Instance payments_joinable_laws : JoinableLaws payments pay_label ().
Proof.
  split.
  - destruct 1 as [senders taken p|c p sv Hc Hst]; simpl; unfold pay_ok; intros Hok.
    + unfold broadcast_turn. destruct p as [run t sv]; simpl in *. destruct t; simpl in *.
      * destruct run; simpl; naive_solver.
      * destruct sv as [w q cur sent open]; simpl in *. assert (cur = None) as -> by (by apply Hok).
        destruct q; simpl; [destruct senders; simpl|]; naive_solver.
      * unfold finish. destruct (sv_current sv) eqn:Hc; [destruct taken; simpl; naive_solver|naive_solver].
      * done.
    + simpl. rewrite (clients_current _ _ _ Hc Hst). done.
  - destruct 1 as [senders taken p|c p sv Hc Hst]; simpl; [|done].
    unfold broadcast_turn. intros Hr. by repeat case_match.
  - done.
  - intros p. apply NoDup_singleton.
  - intros p l p' [] Hst _ Hr _. destruct Hst as [senders taken p|c p sv Hc Hst]; simpl in *; unfold counts.
    + rewrite decide_True by done. unfold broadcast_turn. rewrite Hr.
      destruct p as [run t sv]; simpl in *. subst run. destruct t; simpl; try lia.
      destruct (sv_queue sv); simpl; [destruct senders; simpl; lia|lia].
    + rewrite decide_False by done. lia.
  - intros p [] _ _ _ _. exists (PBroadcast true true). eexists. split; [done|]. apply pay_broadcast.
  - intros p [] _ _ Hl. simpl in *. by destruct (pay_thread p).
Qed.
End Broadcast.

(** ** Concrete runs *)

Module Witness.
Import Wallet.Demo Sending.Witness.
#[local] Existing Instance demo_spending.
#[local] Existing Instance demo_spending_laws.

Definition f64 (z : Z) : spec_float := binary_normalize 53 1024 z 0 false.

(** 1.5 sat/vB is 375 sat/kwu; 0.001 sat/vB is rounded up to 1. *)
Lemma fee_rates :
  fee_rate_of (SFdiv 53 1024 (f64 3) (f64 2)) = Some 375 ∧
  fee_rate_of (SFdiv 53 1024 (f64 1) (f64 1000)) = Some 1 ∧ fee_rate_of (f64 (-1)) = None ∧
  fee_rate_of S754_nan = None.
Proof. by vm_compute. Qed.

Definition pay (amount : Z) (sv : service) : option (answer * service) :=
  send_to_address id id iter "somebody" amount (f64 1) (f64 10) sv.

Definition sv0 : service := mk_service signing_wallet [] None [] true.
Definition sv1 : service := default sv0 (snd <$> pay 400 sv0).
Definition sv2 : service := finish true (receive sv1).

Definition ok_answer (o : option (answer * service)) : answer := default Failed (fst <$> o).

Lemma pay_step amount sv a sv' :
  iterates_coins iter sv.(sv_wallet) → pay amount sv = Some (a, sv') → svstep sv (CSend a) sv'.
Proof. intros Hit Hp. by eapply (sv_send id id iter "somebody" amount (f64 1) (f64 10)). Qed.

(** A transaction of somebody else's, given by its bytes, that no peer takes. *)
Definition foreign_coin : OutPoint := mk_outpoint (tx_id 99) 0.
Definition foreign_tx : Transaction := mk_transaction 0 [mk_in foreign_coin []] [].
Definition sv4 : service := (broadcast_raw_tx foreign_tx sv2).2.
Definition sv5 : service := finish false (receive sv4).
Definition sv6 : service := default sv0 (snd <$> pay 400 sv5).

Lemma iter_wallet5 : iterates_coins iter sv5.(sv_wallet).
Proof. change (iter ≡ₚ map_to_list signing_wallet.(utxos)). apply iter_ok. Qed.

(** Two payments, the first one taken by a peer, and the foreign transaction in
    between: the payments spend different coins. *)
Lemma no_double_spend_witness :
  spent_by_pending sv6 = [op1; op2] ∧ spent_outside {[foreign_coin]} sv6 = [op1; op2] ∧
  NoDup (spent_outside {[foreign_coin]} sv6).
Proof.
  split; [by vm_compute|]. split; [by vm_compute|].
  apply (no_double_spend {[foreign_coin]} signing_wallet
    [CSend (ok_answer (pay 400 sv0)); CReceive; CFinish true; CRaw foreign_tx; CReceive; CFinish false;
     CSend (ok_answer (pay 400 sv5))] sv6).
  econstructor; [apply (pay_step 400); [apply iter_ok|by vm_compute]| |].
  { change (∀ o, o ∈ [op1] → o ∉ ({[foreign_coin]} : gset OutPoint)). intros o ->%list_elem_of_singleton.
    by rewrite elem_of_singleton. }
  econstructor; [apply sv_receive|done|].
  econstructor; [apply sv_finish|done|].
  econstructor; [apply sv_raw| |].
  { intros o ->%list_elem_of_singleton. by apply elem_of_singleton. }
  econstructor; [apply sv_receive|done|].
  econstructor; [apply sv_finish|done|].
  econstructor; [apply (pay_step 400); [apply iter_wallet5|by vm_compute]| |constructor].
  change (∀ o, o ∈ [op2] → o ∉ ({[foreign_coin]} : gset OutPoint)). intros o ->%list_elem_of_singleton.
  by rewrite elem_of_singleton.
Defined.

(** Broadcasting a transaction again by its bytes, in vain, releases the coins of
    the one a peer has taken: the next payment spends them a second time. *)
Definition again : service :=
  match sv2.(sv_sent) with tx :: _ => finish false (receive (broadcast_raw_tx tx sv2).2) | [] => sv2 end.

Lemma raw_broadcast_releases :
  spent_by_pending sv2 = [op1] ∧ (op1 ∉ again.(sv_wallet).(reserved)) ∧
  (spent_by_pending <$> (snd <$> pay 400 again)) = Some [op1; op1].
Proof.
  split; [by vm_compute|]. split; [|by vm_compute]. apply (bool_decide_unpack _). by vm_compute.
Qed.
End Witness.
