(* ===== verification/Manager.v ===== *)
(** * The peer manager (src/net/manager.rs, with [Destination] of src/net/addr.rs)

    A fixed number of threads each pick an address, claim it, connect, serve the
    connection until it fails or stalls, and start again. They share the set of
    connected destinations, one writer slot each, the address table and the
    node. [peer_turn] is one atomic step of such a thread, from one access to
    shared state to the next; [mstep] interleaves the threads with [stop] and
    with the block thread. *)

From S2P Require Import Prelude Shutdown Addr AddressBook AddrTable Messages Kernel Download Peer PeerSystem.

(** ** Constants and destinations *)

Definition TABLE_WIDTH : nat := 16.
Definition TABLE_SLOT : nat := 16.
Definition MAX_BUCKETS : nat := 4.
Definition DEFAULT_MAX_PEERS : nat := 8.
Definition EMPTY_ADDRESS_BOOK_LIMIT : Z := 60.

Record Destination := mk_destination { dst_addr : AddrV2; dst_port : Z }.
#[global] Instance Destination_eq_dec : EqDecision Destination.
Proof. solve_decision. Defined.
#[global] Instance Destination_countable : Countable Destination.
Proof.
  apply (inj_countable (λ d, (d.(dst_addr), d.(dst_port))) (λ p, Some (mk_destination p.1 p.2))).
  by intros [].
Defined.

(** [Destination::from_socket_addr]. *)
Definition from_socket_addr (ip : IpAddr) (port : Z) : Destination :=
  match ip with
  | V4 ipv4 => mk_destination (Ipv4 ipv4) port
  | V6 ipv6 => mk_destination (Ipv6 ipv6) port
  end.

(** The destinations a peer thread goes on with. *)
Definition destination_of (proxied : bool) (selected : AddrV2 * Z) : option Destination :=
  match selected with
  | (Ipv4 ipv4, port) => Some (from_socket_addr (V4 ipv4) port)
  | (Ipv6 ipv6, port) => Some (from_socket_addr (V6 ipv6) port)
  | (TorV3 pubkey, port) => if proxied then Some (mk_destination (TorV3 pubkey) port) else None
  | _ => None
  end.

(** ** Threads and shared state *)

(** Where a peer thread is: [Claiming] before it takes the lock on the connected
    peers, [Connecting] in [BitcoinPeer::new], [Publishing] before it stores its
    writer, [Serving] at the head of the inner loop, [Reading] in
    [receive_and_process_message], and the three steps of the clean-up. [c]
    numbers the connection. A panicked thread keeps what it held. *)
Inductive peer_thread :=
| Selecting (empty_selections : Z)
| Claiming (d : Destination)
| Connecting (d : Destination)
| Refused (d : Destination)
| Publishing (d : Destination) (p : BitcoinPeer) (c : nat)
| Serving (d : Destination) (p : BitcoinPeer) (c : nat)
| Reading (d : Destination) (p : BitcoinPeer) (c : nat)
| Leaving (d : Destination) (p : BitcoinPeer)
| Removing (d : Destination)
| Clearing
| Stopped
| GaveUp
| Panicked (held : option Destination) (p : option BitcoinPeer).

(** [PeerManager] with the threads' states. [shut] are the connections that were
    told to shut down; [stop_at] is where [stop] is: not called, or past that
    many writer slots. *)
Record manager (C K : Type) := mk_manager {
  running : bool;
  connected_peers : gset Destination;
  peer_writers : list (option nat);
  peer_threads : list peer_thread;
  shut : gset nat;
  next_conn : nat;
  fatal : FatalShutdown;
  addrman : Table;
  node : NodeState C K;
  done : list K;
  stop_at : option nat;
}.
Arguments mk_manager {C K} _ _ _ _ _ _ _ _ _ _ _.
Arguments running {C K} _.
Arguments connected_peers {C K} _.
Arguments peer_writers {C K} _.
Arguments peer_threads {C K} _.
Arguments shut {C K} _.
Arguments next_conn {C K} _.
Arguments fatal {C K} _.
Arguments addrman {C K} _.
Arguments node {C K} _.
Arguments done {C K} _.
Arguments stop_at {C K} _.

Section Setters.
Context {C K : Type}.
Implicit Types s : manager C K.

Definition with_connected (X : gset Destination) s : manager C K :=
  mk_manager s.(running) X s.(peer_writers) s.(peer_threads) s.(shut) s.(next_conn)
    s.(fatal) s.(addrman) s.(node) s.(done) s.(stop_at).
Definition with_writer (i : nat) (w : option nat) s : manager C K :=
  mk_manager s.(running) s.(connected_peers) (<[i := w]> s.(peer_writers)) s.(peer_threads)
    s.(shut) s.(next_conn) s.(fatal) s.(addrman) s.(node) s.(done) s.(stop_at).
Definition with_thread (i : nat) (t : peer_thread) s : manager C K :=
  mk_manager s.(running) s.(connected_peers) s.(peer_writers) (<[i := t]> s.(peer_threads))
    s.(shut) s.(next_conn) s.(fatal) s.(addrman) s.(node) s.(done) s.(stop_at).
Definition shut_down (c : nat) s : manager C K :=
  mk_manager s.(running) s.(connected_peers) s.(peer_writers) s.(peer_threads)
    ({[c]} ∪ s.(shut)) s.(next_conn) s.(fatal) s.(addrman) s.(node) s.(done) s.(stop_at).
Definition opened s : manager C K :=
  mk_manager s.(running) s.(connected_peers) s.(peer_writers) s.(peer_threads) s.(shut)
    (S s.(next_conn)) s.(fatal) s.(addrman) s.(node) s.(done) s.(stop_at).
Definition with_fatal (f : FatalShutdown) s : manager C K :=
  mk_manager s.(running) s.(connected_peers) s.(peer_writers) s.(peer_threads) s.(shut)
    s.(next_conn) f s.(addrman) s.(node) s.(done) s.(stop_at).
Definition with_addrman (t : Table) s : manager C K :=
  mk_manager s.(running) s.(connected_peers) s.(peer_writers) s.(peer_threads) s.(shut)
    s.(next_conn) s.(fatal) t s.(node) s.(done) s.(stop_at).
Definition with_node (ns : NodeState C K) (pr : list K) s : manager C K :=
  mk_manager s.(running) s.(connected_peers) s.(peer_writers) s.(peer_threads) s.(shut)
    s.(next_conn) s.(fatal) s.(addrman) ns pr s.(stop_at).

(** The loop body of [stop] and of the block thread's search for a stale
    block. *)
Definition shut_slot (k : nat) s : manager C K :=
  match s.(peer_writers) !! k with
  | Some (Some c) => shut_down c s
  | _ => s
  end.

(** The next operation of [PeerManager::stop]. *)
Definition stop_turn s : manager C K :=
  let at_ o s :=
    mk_manager false s.(connected_peers) s.(peer_writers) s.(peer_threads) s.(shut)
      s.(next_conn) s.(fatal) s.(addrman) s.(node) s.(done) o in
  match s.(stop_at) with
  | None => at_ (Some 0%nat) s
  | Some k =>
      if decide (k < length s.(peer_writers))%nat then at_ (Some (S k)) (shut_slot k s) else s
  end.
End Setters.

(** ** The peer thread *)

(** What the world contributes to a turn: the hashes and clocks of [select], the
    clock, the outcome of connecting, of sending and of reading, and the order
    an inventory is iterated in. *)
Record input `{Bitcoin} (E : Type) := mk_input {
  in_bucket : Z;
  in_hash : nat → Z;
  in_clock : nat → Z;
  in_now : Duration;
  in_connect : outcome E unit;
  in_send : NetworkMessage → outcome E unit;
  in_msg : outcome E (option NetworkMessage);
  in_order : list BlockHash;
}.
Arguments mk_input {_ E} _ _ _ _ _ _ _ _.
Arguments in_bucket {_ E} _.
Arguments in_hash {_ E} _.
Arguments in_clock {_ E} _.
Arguments in_now {_ E} _.
Arguments in_connect {_ E} _.
Arguments in_send {_ E} _.
Arguments in_msg {_ E} _.
Arguments in_order {_ E} _.

Section Manager.
Context `{Kernel} `{DefaultHasher} {E : Type} (proxied : bool).

Abbreviation manager := (manager Chainman KBlock).
Abbreviation input := (input E).

(** [PeerManager::new], [max_peers] where a number is configured, and the loop of
    [start]. *)
Definition max_peers (configured : option nat) : nat :=
  match configured with Some n => Nat.max n 1 | None => DEFAULT_MAX_PEERS end.

Definition start (configured : option nat) (t : Table) (ns : NodeState Chainman KBlock)
    (f : FatalShutdown) : manager :=
  let n := max_peers configured in
  mk_manager true ∅ (replicate n None) (replicate n (Selecting 0)) ∅ 0 f t ns [] None.

Definition peer_turn (inp : input) (i : nat) (t : peer_thread) (s : manager)
    : peer_thread * manager :=
  match t with
  | Selecting empty_selections =>
      if s.(running) then
        match select TABLE_WIDTH TABLE_SLOT inp.(in_bucket) inp.(in_hash) inp.(in_clock) s.(addrman) with
        | None => (Panicked None None, s)
        | Some (Some r) =>
            match destination_of proxied (network_addr r) with
            | Some d => (Claiming d, s)
            | None => (Selecting empty_selections, s)
            end
        | Some None =>
            let empty_selections := wrap_u 32 (empty_selections + 1) in
            if decide (EMPTY_ADDRESS_BOOK_LIMIT ≤ empty_selections) then
              let '(sent, f) := trigger s.(fatal) in
              ((if sent then GaveUp else Panicked None None), with_fatal f s)
            else (Selecting empty_selections, s)
        end
      else (Stopped, s)
  | Claiming d =>
      if decide (d ∈ s.(connected_peers)) then (Selecting 0, s)
      else (Connecting d, with_connected ({[d]} ∪ s.(connected_peers)) s)
  | Connecting d =>
      match peer_new inp.(in_connect) inp.(in_send) d.(dst_addr) inp.(in_now) s.(node) with
      | Ok (p, _) => (Publishing d p s.(next_conn), opened s)
      | Err _ => (Refused d, s)
      | Panic => (Panicked (Some d) None, s)
      end
  | Refused d => (Selecting 0, with_connected (s.(connected_peers) ∖ {[d]}) s)
  | Publishing d p c => (Serving d p c, with_writer i (Some c) s)
  | Serving d p c =>
      if s.(running) then
        if is_stalled p inp.(in_now) then (Leaving d p, shut_down c s) else (Reading d p c, s)
      else (Leaving d p, s)
  | Reading d p c =>
      let '(r, p, ns, _) :=
        receive_and_process_message quiet inp.(in_send) inp.(in_now) inp.(in_msg) p s.(node) in
      let s := with_node ns s.(done) s in
      match r with
      | Ok _ => (Serving d p c, s)
      | Err _ => (Leaving d p, s)
      | Panic => (Panicked (Some d) (Some p), s)
      end
  | Leaving d p =>
      let ns := with_download s.(node) (release_in_flight inp.(in_order) p s.(node).(download)) in
      (Removing d, with_node ns s.(done) s)
  | Removing d => (Clearing, with_connected (s.(connected_peers) ∖ {[d]}) s)
  | Clearing => (Selecting 0, with_writer i None s)
  | Stopped | GaveUp | Panicked _ _ => (t, s)
  end.

(** ** The manager's threads together *)

Inductive mlabel :=
| MTurn (i : nat) (inp : input)
| MStop
| MStale (k : nat)
| MBlock (order : list BlockHash)
| MTable (o : op)
| MOther (f : FatalShutdown).

(** An inventory is iterated in some order of its elements. *)
Definition turn_ok (t : peer_thread) (inp : input) : Prop :=
  match t with
  | Leaving _ p => iterates inp.(in_order) (inventory_of p.(state_machine))
  | _ => True
  end.

(** A turn of a peer thread, of [stop], of the block thread that drops peers or
    processes a block, an operation of another thread on the table, or a signal
    another thread sends to the main one. *)
Inductive mstep : manager → mlabel → manager → Prop :=
| mstep_turn s i inp t t' s' :
    s.(peer_threads) !! i = Some t → turn_ok t inp → peer_turn inp i t s = (t', s') →
    mstep s (MTurn i inp) (with_thread i t' s')
| mstep_stop s : mstep s MStop (stop_turn s)
| mstep_stale s k : mstep s (MStale k) (shut_slot k s)
| mstep_block s order b d :
    iterates order (dom s.(node).(download).(buffer)) →
    take_connectable order (is_on_active_chain s.(node).(chainman)) s.(node).(download) = (Some b, d) →
    mstep s (MBlock order)
      (with_node (mk_node s.(node).(addr_tx) (process_block s.(node).(chainman) b) d) (b :: s.(done)) s)
| mstep_table s o t :
    op_ok o → run_op TABLE_WIDTH TABLE_SLOT MAX_BUCKETS o s.(addrman) = Some t →
    mstep s (MTable o) (with_addrman t s)
| mstep_other s f :
    f.(listening) = s.(fatal).(listening) → mstep s (MOther f) (with_fatal f s).

Inductive mrun (L : manager → mlabel → Prop) : manager → list mlabel → manager → Prop :=
| mrun_nil s : mrun L s [] s
| mrun_cons s l s1 ls s2 : mstep s l s1 → L s l → mrun L s1 ls s2 → mrun L s (l :: ls) s2.

Definition always (s : manager) (l : mlabel) : Prop := True.

Lemma mrun_invariant (I : manager → Prop) (L : manager → mlabel → Prop) s ls s' :
  (∀ s l s', mstep s l s' → L s l → I s → I s') → mrun L s ls s' → I s → I s'.
Proof. intros Hstep. induction 1; eauto. Qed.
End Manager.

(** ** Invariants of the manager *)

(** The destination a thread has entered among the connected ones. *)
Definition held (t : peer_thread) : option Destination :=
  match t with
  | Connecting d | Refused d | Publishing d _ _ | Serving d _ _ | Reading d _ _
  | Leaving d _ | Removing d => Some d
  | Panicked d _ => d
  | _ => None
  end.

(** The connection a thread serves. *)
Definition live (t : peer_thread) : option BitcoinPeer :=
  match t with
  | Publishing _ p _ | Serving _ p _ | Reading _ p _ | Leaving _ p => Some p
  | Panicked _ p => p
  | _ => None
  end.

(** What the writer slot of a thread holds, where that is determined. *)
Definition slot_of (t : peer_thread) : option (option nat) :=
  match t with
  | Serving _ _ c | Reading _ _ c => Some (Some c)
  | Leaving _ _ | Removing _ | Clearing | Panicked _ _ => None
  | _ => Some None
  end.

Definition ended (t : peer_thread) : bool :=
  match t with Stopped | GaveUp => true | _ => false end.
Definition panicked (t : peer_thread) : bool :=
  match t with Panicked _ _ => true | _ => false end.

(** How many turns a thread takes at most once the manager is stopping. *)
Definition turns_left (t : peer_thread) : nat :=
  match t with
  | Claiming _ => 8
  | Connecting _ => 7
  | Publishing _ _ _ | Reading _ _ _ => 6
  | Serving _ _ _ => 5
  | Leaving _ _ => 4
  | Removing _ => 3
  | Clearing | Refused _ => 2
  | Selecting _ => 1
  | Stopped | GaveUp | Panicked _ _ => 0
  end.

Section Facts.
Context `{KernelLaws} `{DefaultHasher} {E : Type} (proxied : bool).

Abbreviation manager := (manager Chainman KBlock).
Abbreviation peer_turn := (peer_turn (E:=E) proxied).
Abbreviation mstep := (mstep (E:=E) proxied).
Abbreviation mrun := (mrun (E:=E) proxied).

Ltac turn_cases t :=
  let Ht := fresh "Ht" in
  intros Ht; destruct t; cbn [Manager.peer_turn] in Ht; repeat case_match; simplify_eq/=.

(** What a turn leaves alone. *)
Lemma peer_turn_frame inp i t s t' s' :
  peer_turn inp i t s = (t', s') →
  s'.(running) = s.(running) ∧ s'.(peer_threads) = s.(peer_threads) ∧
  s'.(stop_at) = s.(stop_at) ∧ s'.(addrman) = s.(addrman) ∧ s'.(done) = s.(done) ∧
  s.(shut) ⊆ s'.(shut) ∧
  length s'.(peer_writers) = length s.(peer_writers) ∧
  ∀ j, j ≠ i → s'.(peer_writers) !! j = s.(peer_writers) !! j.
Proof.
  turn_cases t; split_and!; try done; try set_solver;
    try apply length_insert; intros j Hj; by apply list_lookup_insert_ne.
Qed.

Lemma peer_turn_held inp i t s t' s' :
  peer_turn inp i t s = (t', s') →
  (held t' = held t ∧ s'.(connected_peers) = s.(connected_peers)) ∨
  (∃ d, held t = None ∧ held t' = Some d ∧ (d ∉ s.(connected_peers)) ∧
     s'.(connected_peers) = {[d]} ∪ s.(connected_peers)) ∨
  (∃ d, held t = Some d ∧ held t' = None ∧
     s'.(connected_peers) = s.(connected_peers) ∖ {[d]}).
Proof. turn_cases t; naive_solver. Qed.

Lemma peer_turn_slot inp i t s t' s' o :
  peer_turn inp i t s = (t', s') → (i < length s.(peer_writers))%nat →
  (∀ o, slot_of t = Some o → s.(peer_writers) !! i = Some o) →
  slot_of t' = Some o → s'.(peer_writers) !! i = Some o.
Proof.
  intros Ht Hi Hs. revert Ht. turn_cases t; intros Ho; simplify_eq/=; auto;
    by apply list_lookup_insert_eq.
Qed.

Lemma lookup_with_thread i t (s : manager) j :
  (i < length s.(peer_threads))%nat →
  (with_thread i t s).(peer_threads) !! j =
    if decide (i = j) then Some t else s.(peer_threads) !! j.
Proof.
  intros Hi. simpl. case_decide; subst; [by apply list_lookup_insert_eq|].
  by apply list_lookup_insert_ne.
Qed.

(** Claims: one thread per destination, and the set is what the threads hold. *)
Definition claims_ok (s : manager) : Prop :=
  (∀ i j t u d, s.(peer_threads) !! i = Some t → s.(peer_threads) !! j = Some u →
     held t = Some d → held u = Some d → i = j) ∧
  (∀ d, d ∈ s.(connected_peers) ↔ ∃ i t, s.(peer_threads) !! i = Some t ∧ held t = Some d).

Lemma claims_ok_turn s i t inp t' s' :
  s.(peer_threads) !! i = Some t → peer_turn inp i t s = (t', s') →
  claims_ok s → claims_ok (with_thread i t' s').
Proof.
  intros Hi Ht [Hex Hset]. pose proof (peer_turn_frame _ _ _ _ _ _ Ht) as (_ & Hth & _).
  pose proof (lookup_lt_Some _ _ _ Hi) as Hlt. rewrite <- Hth in Hlt.
  assert (∀ j, j ≠ i → (with_thread i t' s').(peer_threads) !! j = s.(peer_threads) !! j) as Hne.
  { intros j Hj. rewrite lookup_with_thread, decide_False, Hth; done. }
  assert ((with_thread i t' s').(peer_threads) !! i = Some t') as Heq.
  { by rewrite lookup_with_thread, decide_True. }
  assert (∀ j u d, j ≠ i → s.(peer_threads) !! j = Some u → held u = Some d →
    d ∈ s.(connected_peers)) as Hin by (intros; apply Hset; eauto).
  apply peer_turn_held in Ht. split.
  - intros j k u v d Hj Hk Hu Hv. destruct (decide (j = i)) as [->|Hji], (decide (k = i)) as [->|Hki];
      [done| | |rewrite Hne in Hj, Hk by done; by eapply Hex].
    + rewrite Heq in Hj. rewrite Hne in Hk by done. simplify_eq.
      destruct Ht as [[He _]|[(d' & _ & He & Hd & _)|(d' & _ & He & _)]]; [|naive_solver|naive_solver].
      rewrite He in Hu. by eapply (Hex i k).
    + rewrite Heq in Hk. rewrite Hne in Hj by done. simplify_eq.
      destruct Ht as [[He _]|[(d' & _ & He & Hd & _)|(d' & _ & He & _)]]; [|naive_solver|naive_solver].
      rewrite He in Hv. by eapply (Hex j i).
  - intros d. change (connected_peers (with_thread i t' s')) with (connected_peers s').
    destruct Ht as [[He ->]|[(d' & Ho & He & Hd & ->)|(d' & Ho & He & ->)]].
    + rewrite Hset. split; intros (j & u & Hj & Hu); destruct (decide (j = i)) as [->|Hji].
      * exists i, t'. simplify_eq. by rewrite He.
      * exists j, u. by rewrite Hne.
      * rewrite Heq in Hj. simplify_eq. exists i, t. by rewrite <- He.
      * exists j, u. by rewrite <- Hne.
    + rewrite elem_of_union, elem_of_singleton, Hset. split.
      * intros [->|(j & u & Hj & Hu)]; [by exists i, t'|]. exists j, u. rewrite Hne; [done|]. naive_solver.
      * intros (j & u & Hj & Hu). destruct (decide (j = i)) as [->|Hji]; [naive_solver|].
        rewrite Hne in Hj by done. eauto.
    + rewrite elem_of_difference, not_elem_of_singleton, Hset. split.
      * intros [(j & u & Hj & Hu) Hdd]. exists j, u. rewrite Hne; [done|]. naive_solver.
      * intros (j & u & Hj & Hu). destruct (decide (j = i)) as [->|Hji]; [naive_solver|].
        rewrite Hne in Hj by done. split; [eauto|]. intros ->. by apply Hji, (Hex j i u t d').
Qed.

Lemma claims_ok_step s l s' : mstep s l s' → claims_ok s → claims_ok s'.
Proof.
  destruct 1 as [s i inp t t' s' Hi _ Ht|s|s k|s order b d _ _|s o t _ _|s f Hf].
  - by eapply claims_ok_turn.
  - unfold stop_turn, shut_slot. by repeat case_match.
  - unfold shut_slot. by repeat case_match.
  - done.
  - done.
  - done.
Qed.

(** Writer slots: a thread that serves a connection has published its writer. *)
Definition slots_ok (s : manager) : Prop :=
  length s.(peer_writers) = length s.(peer_threads) ∧
  ∀ i t o, s.(peer_threads) !! i = Some t → slot_of t = Some o → s.(peer_writers) !! i = Some o.

Lemma slots_ok_turn s i t inp t' s' :
  s.(peer_threads) !! i = Some t → peer_turn inp i t s = (t', s') →
  slots_ok s → slots_ok (with_thread i t' s').
Proof.
  intros Hi Ht [Hlen Hs]. pose proof (peer_turn_frame _ _ _ _ _ _ Ht) as (_ & Hth & _ & _ & _ & _ & Hw & Hne).
  pose proof (lookup_lt_Some _ _ _ Hi) as Hlt. split.
  - simpl. rewrite length_insert. congruence.
  - intros j u o Hj. rewrite lookup_with_thread, Hth in Hj by (by rewrite Hth).
    change (peer_writers (with_thread i t' s')) with (peer_writers s'). case_decide as Hd.
    + subst j. simplify_eq. eapply peer_turn_slot; [exact Ht|lia|]. intros. by eapply Hs.
    + rewrite Hne by done. by apply Hs.
Qed.

Lemma slots_ok_step s l s' : mstep s l s' → slots_ok s → slots_ok s'.
Proof.
  destruct 1 as [s i inp t t' s' Hi _ Ht|s|s k|s order b d _ _|s o t _ _|s f Hf]; try done.
  - by eapply slots_ok_turn.
  - unfold stop_turn, shut_slot. by repeat case_match.
  - unfold shut_slot. by repeat case_match.
Qed.

(** [stop]: past a slot, a thread still reading was told to shut down. *)
Definition stop_ok (s : manager) : Prop :=
  (s.(running) = true ↔ s.(stop_at) = None) ∧
  ∀ k, s.(stop_at) = Some k → (k ≤ length s.(peer_writers))%nat ∧
    ∀ i d p c, (i < k)%nat → s.(peer_threads) !! i = Some (Reading d p c) → c ∈ s.(shut).

Lemma peer_turn_reading inp i t s d p c s' :
  peer_turn inp i t s = (Reading d p c, s') → s.(running) = true.
Proof. by turn_cases t. Qed.

Lemma stop_ok_turn s i t inp t' s' :
  s.(peer_threads) !! i = Some t → peer_turn inp i t s = (t', s') →
  stop_ok s → stop_ok (with_thread i t' s').
Proof.
  intros Hi Ht [Hrun Hs].
  pose proof (peer_turn_frame _ _ _ _ _ _ Ht) as (Hr & Hth & Hst & _ & _ & Hsh & Hw & _).
  pose proof (lookup_lt_Some _ _ _ Hi) as Hlt.
  split; [simpl; by rewrite Hr, Hst|]. intros k Hk. simpl in Hk. rewrite Hst in Hk.
  destruct (Hs k Hk) as [Hle Hread]. split; [simpl; by rewrite Hw|].
  intros j d p c Hj Hjt. rewrite lookup_with_thread, Hth in Hjt by (by rewrite Hth).
  case_decide as Hd.
  - simplify_eq. apply peer_turn_reading in Ht. apply Hrun in Ht. congruence.
  - apply Hsh. by eapply Hread.
Qed.

Lemma shut_slot_frame k (s : manager) :
  (shut_slot k s).(running) = s.(running) ∧ (shut_slot k s).(peer_threads) = s.(peer_threads) ∧
  (shut_slot k s).(peer_writers) = s.(peer_writers) ∧ (shut_slot k s).(stop_at) = s.(stop_at) ∧
  s.(shut) ⊆ (shut_slot k s).(shut) ∧
  ∀ c, s.(peer_writers) !! k = Some (Some c) → c ∈ (shut_slot k s).(shut).
Proof.
  unfold shut_slot. repeat case_match; split_and!; try done; simplify_eq/=; try set_solver.
Qed.

Lemma stop_ok_step s l s' : mstep s l s' → slots_ok s → stop_ok s → stop_ok s'.
Proof.
  destruct 1 as [s i inp t t' s' Hi _ Ht|s|s k|s order b d _ _|s o t _ _|s f Hf];
    intros [Hlen Hslot] [Hrun Hs]; try done.
  - by eapply stop_ok_turn.
  - unfold stop_turn. destruct (stop_at s) as [k|] eqn:Hk; [case_decide as Hlt|]; [|by split; rewrite Hk|].
    + destruct (shut_slot_frame k s) as (_ & Hth & Hw & _ & Hsub & Hsh). split; [done|].
      intros k' [= <-]. simpl. rewrite Hth, Hw. split; [lia|]. intros i d p c Hi Hr.
      destruct (decide (i = k)) as [->|Hne]; [by eapply Hsh, Hslot|].
      apply Hsub. eapply (proj2 (Hs k eq_refl)); [|done]. lia.
    + split; [done|]. intros k [= <-]. split; [lia|]. intros; lia.
  - destruct (shut_slot_frame k s) as (Hr & Hth & Hw & Hst & Hsub & _). split; [by rewrite Hr, Hst|].
    intros k' Hk'. rewrite Hst in Hk'. destruct (Hs k' Hk') as [Hle Hread]. rewrite Hth, Hw.
    split; [done|]. intros. apply Hsub. by eapply Hread.
Qed.

(** ** The manager implements the system of peers *)

(** The live connections, by thread. *)
Definition peer_map (ts : list peer_thread) : gmap nat PeerStateMachine :=
  omap (λ t, state_machine <$> live t) (map_seq (M:=gmap nat peer_thread) 0 ts).
Definition system_of (s : manager) : system Chainman KBlock :=
  mk_system s.(node) (peer_map s.(peer_threads)) s.(done).

Lemma lookup_peer_map ts i : peer_map ts !! i = ts !! i ≫= λ t, state_machine <$> live t.
Proof. unfold peer_map. by rewrite lookup_omap, lookup_map_seq_0. Qed.

Lemma peer_map_insert ts i t :
  (i < length ts)%nat →
  peer_map (<[i := t]> ts) =
    match live t with
    | Some p => <[i := p.(state_machine)]> (peer_map ts)
    | None => delete i (peer_map ts)
    end.
Proof.
  intros Hi. apply map_eq. intros j. rewrite lookup_peer_map.
  destruct (decide (i = j)) as [->|Hne].
  - rewrite list_lookup_insert_eq by done. simpl.
    destruct (live t); simpl; by simplify_map_eq.
  - rewrite list_lookup_insert_ne by done.
    destruct (live t); simplify_map_eq; by rewrite lookup_peer_map.
Qed.

(** What reading a message does to the peer and the node. *)
Lemma receive_spec send now (msg : outcome E (option NetworkMessage)) p ns r p' ns' sent :
  receive_and_process_message quiet send now msg p ns = (r, p', ns', sent) →
  (p' = p ∧ ns' = ns) ∨
  ∃ m msgs, process_message quiet p.(state_machine) m p.(dest_addr) ns =
    Ok (p'.(state_machine), msgs, ns').
Proof.
  unfold receive_and_process_message. destruct msg as [[m|]| |]; intros Hr; simplify_eq; [|by left..].
  right. exists m.
  destruct (process_message_spec quiet p.(state_machine) m p.(dest_addr) ns)
    as (sm & msgs & ns1 & Hp & _).
  rewrite Hp in Hr |- *. case_match. simplify_eq/=. eauto.
Qed.

Lemma peer_new_state connect (send : NetworkMessage → outcome E unit) a now ns p msgs :
  peer_new connect send a now ns = Ok (p, msgs) → p.(state_machine) = AwaitingHeaders.
Proof.
  unfold peer_new. intros (? & _ & (? & _ & (? & _ & (? & _ & [= <- <-])%bind_Ok)%bind_Ok)%bind_Ok)%bind_Ok.
  done.
Qed.

Lemma peer_turn_live inp i t s t' s' :
  peer_turn inp i t s = (t', s') → turn_ok t inp →
  (live t' = live t ∧ s'.(node) = s.(node)) ∨
  (∃ p, live t = None ∧ live t' = Some p ∧ p.(state_machine) = AwaitingHeaders ∧ s'.(node) = s.(node)) ∨
  (∃ p p' m msgs, live t = Some p ∧ live t' = Some p' ∧
     process_message quiet p.(state_machine) m p.(dest_addr) s.(node) =
       Ok (p'.(state_machine), msgs, s'.(node))) ∨
  (∃ p order, live t = Some p ∧ live t' = None ∧ iterates order (inventory_of p.(state_machine)) ∧
     s'.(node) = with_download s.(node) (release_in_flight order p s.(node).(download))).
Proof.
  intros Ht Hok. revert Ht. turn_cases t; try (left; split; done);
    try match goal with Hr : receive_and_process_message _ _ _ _ _ _ = _ |- _ =>
      apply receive_spec in Hr; naive_solver end.
  - right; left. eexists. split_and!; try done. by eapply peer_new_state.
  - do 3 right. by exists p, inp.(in_order).
Qed.

Lemma system_turn s i t inp t' s' :
  s.(peer_threads) !! i = Some t → turn_ok t inp → peer_turn inp i t s = (t', s') →
  ∃ ls, run anything (system_of s) ls (system_of (with_thread i t' s')).
Proof.
  intros Hi Hok Ht. pose proof (peer_turn_frame _ _ _ _ _ _ Ht) as (_ & Hth & _ & _ & Hd & _).
  pose proof (lookup_lt_Some _ _ _ Hi) as Hlt.
  assert (peer_map s.(peer_threads) !! i = state_machine <$> live t) as Hpi.
  { rewrite lookup_peer_map, Hi. reflexivity. }
  unfold system_of. cbn [with_thread node done peer_threads]. rewrite Hth, Hd, peer_map_insert by done.
  apply peer_turn_live in Ht as [[-> ->]|[(p & Ho & -> & Hsm & ->)|[(p & p' & m & msgs & Ho & -> & Hp)
    |(p & order & Ho & -> & Hit & ->)]]]; [| | | |done].
  - exists []. destruct (live t); simpl in Hpi; [rewrite insert_id by done|rewrite delete_id by done]; constructor.
  - exists [LConnect i]. rewrite Hsm. econstructor; [|done|constructor].
    constructor. by rewrite Hpi, Ho.
  - exists [LMessage i m p.(dest_addr)]. econstructor; [|done|constructor].
    econstructor; [|exact Hp]. by rewrite Hpi, Ho.
  - exists [LDisconnect i order]. econstructor; [|done|constructor].
    constructor; [|done]. by rewrite Hpi, Ho.
Qed.

Lemma system_step s l s' : mstep s l s' → ∃ ls, run anything (system_of s) ls (system_of s').
Proof.
  destruct 1 as [s i inp t t' s' Hi Hok Ht|s|s k|s order b d Hit Ht|s o t _ _|s f Hf].
  - by eapply system_turn.
  - exists []. unfold stop_turn, shut_slot. repeat case_match; constructor.
  - exists []. unfold shut_slot. repeat case_match; constructor.
  - exists [LBlock order]. econstructor; [|done|constructor]. by constructor.
  - exists []. constructor.
  - exists []. constructor.
Qed.

Lemma run_app s ls s1 ls' s2 :
  run anything s ls s1 → run anything s1 ls' s2 → run anything s (ls ++ ls') s2.
Proof. induction 1; [done|]. intros. econstructor; eauto. Qed.

Lemma system_run L s ls s' :
  mrun L s ls s' → ∃ ls', run anything (system_of s) ls' (system_of s').
Proof.
  induction 1 as [s|s l s1 ls s2 Hst _ _ [ls2 IH]]; [exists []; constructor|].
  destruct (system_step _ _ _ Hst) as [ls1 Hr]. exists (ls1 ++ ls2). by eapply run_app.
Qed.

(** ** Beginnings *)

Lemma start_thread n t ns f i u :
  (start n t ns f).(peer_threads) !! i = Some u → u = Selecting 0.
Proof. by intros [-> _]%lookup_replicate. Qed.

Lemma start_claims n t ns f : claims_ok (start n t ns f).
Proof.
  split.
  - intros i j u v d Hu%start_thread. by subst.
  - intros d. split; [set_solver|]. intros (i & u & Hu%start_thread & Hh). by subst.
Qed.

Lemma start_slots n t ns f : slots_ok (start n t ns f).
Proof.
  split; [simpl; by rewrite !length_replicate|]. intros i u o Hu.
  pose proof (lookup_lt_Some _ _ _ Hu) as Hlt. apply start_thread in Hu as ->. intros [= <-].
  simpl in *. rewrite length_replicate in Hlt. by apply lookup_replicate.
Qed.

Lemma start_stop n t ns f : stop_ok (start n t ns f).
Proof. done. Qed.

Lemma start_system n t ns f :
  ns.(download) = download_default → initial (system_of (start n t ns f)).
Proof.
  intros Hd. split; [|done]. apply map_eq. intros i.
  change (peers _) with (peer_map (start n t ns f).(peer_threads)).
  rewrite lookup_peer_map, lookup_empty. destruct (_ !! i) eqn:Hi; [|done].
  by apply start_thread in Hi as ->.
Qed.

(** ** Threads that do not panic *)

(** Sockets and channels report errors as values, and the v1 transport always
    gives a message. *)
Definition orderly (s : manager) (l : mlabel (E:=E)) : Prop :=
  match l with
  | MTurn _ inp => inp.(in_connect) ≠ Panic ∧ (∀ m, inp.(in_send) m ≠ Panic) ∧
      inp.(in_msg) ≠ Panic ∧ inp.(in_msg) ≠ Ok None
  | _ => True
  end.

(** The table is one the operations build and the receiver of the shutdown
    signal is alive. *)
Definition healthy (s : manager) : Prop :=
  (∃ m, refines TABLE_WIDTH TABLE_SLOT s.(addrman) m) ∧ s.(fatal).(listening) = true ∧
  ∀ i t, s.(peer_threads) !! i = Some t → panicked t = false.

Lemma send_all_total (send : NetworkMessage → outcome E unit) msgs :
  (∀ m, send m ≠ Panic) → (send_all send msgs).2 ≠ Panic.
Proof.
  intros Hs. induction msgs as [|m msgs IH]; [done|]. simpl.
  destruct (send m) eqn:Hm; [|done|by apply Hs in Hm]. by destruct (send_all send msgs).
Qed.

Lemma receive_total send now (msg : outcome E (option NetworkMessage)) p ns :
  (∀ m, send m ≠ Panic) → msg ≠ Panic → msg ≠ Ok None →
  (receive_and_process_message quiet send now msg p ns).1.1.1 ≠ Panic.
Proof.
  intros Hs Hm Hn. unfold receive_and_process_message. destruct msg as [[m|]| |]; try done.
  destruct (process_message_spec quiet p.(state_machine) m p.(dest_addr) ns)
    as (sm & msgs & ns1 & -> & _).
  pose proof (send_all_total send msgs Hs). by destruct (send_all send msgs).
Qed.

Lemma peer_new_total connect (send : NetworkMessage → outcome E unit) a now ns :
  connect ≠ Panic → (∀ m, send m ≠ Panic) → peer_new connect send a now ns ≠ Panic.
Proof.
  intros Hc Hs. unfold peer_new. destruct connect; [|done|done]. simpl.
  destruct (best_entry_some ns.(chainman)) as [best ->]. simpl.
  destruct (locators_spec best) as (_ & ls & -> & _). simpl.
  destruct (send _) eqn:Hm; [done|done|by apply Hs in Hm].
Qed.

Lemma peer_turn_healthy inp i t s t' s' :
  healthy s → orderly s (MTurn i inp) → panicked t = false → peer_turn inp i t s = (t', s') →
  panicked t' = false ∧ s'.(fatal).(listening) = true.
Proof.
  intros ([m Hm] & Hf & _) (Hc & Hs & Hr & Hn) Hp Ht.
  assert (∀ hb hh nn, select TABLE_WIDTH TABLE_SLOT hb hh nn s.(addrman) ≠ None) as Hsel.
  { intros hb hh nn. destruct (select_spec TABLE_WIDTH TABLE_SLOT ltac:(unfold TABLE_WIDTH; lia)
      ltac:(unfold TABLE_SLOT; lia) hb hh nn s.(addrman)) as (? & -> & _); [apply Hm|done]. }
  pose proof (peer_new_total inp.(in_connect) inp.(in_send)) as Hnew.
  pose proof (receive_total inp.(in_send) inp.(in_now) inp.(in_msg)) as Hrec.
  revert Ht. unfold Manager.peer_turn, trigger. destruct t; try done; intros Ht; repeat case_match;
    simplify_eq/=; try done; exfalso.
  - by eapply Hsel.
  - by eapply Hnew.
  - eapply (Hrec p s.(node)); try done. by match goal with Hx : receive_and_process_message _ _ _ _ _ _ = _ |- _ => rewrite Hx end.
Qed.

Lemma healthy_step s l s' : mstep s l s' → orderly s l → healthy s → healthy s'.
Proof.
  destruct 1 as [s i inp t t' s' Hi _ Ht|s|s k|s order b d _ _|s o t _ Ho|s f Hf]; intros Hl Hh; try done.
  - pose proof (peer_turn_frame _ _ _ _ _ _ Ht) as (_ & Hth & _ & Ha & _).
    pose proof (lookup_lt_Some _ _ _ Hi) as Hlt. pose proof Hh as (Hm & _ & Hp).
    destruct (peer_turn_healthy _ _ _ _ _ _ Hh Hl (Hp _ _ Hi) Ht) as [Hp' Hf].
    split_and!; [simpl; by rewrite Ha|done|]. intros j u. rewrite lookup_with_thread by (by rewrite Hth).
    case_decide; [by intros [= <-]|]. rewrite Hth. apply Hp.
  - unfold stop_turn, shut_slot. by repeat case_match.
  - unfold shut_slot. by repeat case_match.
  - destruct Hh as ([m Hm] & Hf & Hp). split_and!; [|done|done]. simpl.
    destruct (op_refines TABLE_WIDTH TABLE_SLOT MAX_BUCKETS ltac:(unfold TABLE_WIDTH; lia)
      ltac:(unfold TABLE_SLOT; lia) o s.(addrman) m Hm) as (t1 & Ht1 & Hr).
    rewrite Ht1 in Ho. simplify_eq. eauto.
  - destruct Hh as (Hm & Hf' & Hp). split_and!; [done|simpl; congruence|done].
Qed.

(** ** Threads that end *)

Definition turn_of (i : nat) (l : mlabel (E:=E)) : bool :=
  match l with MTurn j _ => bool_decide (j = i) | _ => false end.
Definition turns_of (i : nat) (ls : list (mlabel (E:=E))) : nat :=
  length (filter (λ l, turn_of i l = true) ls).

Lemma peer_turn_counts inp i t s t' s' :
  peer_turn inp i t s = (t', s') → s.(running) = false →
  (turns_left t' ≤ turns_left t - 1)%nat.
Proof. turn_cases t; intros; simplify_eq; lia. Qed.

Lemma stopping_stays s l s' : mstep s l s' → s.(running) = false → s'.(running) = false.
Proof.
  destruct 1 as [s i inp t t' s' Hi _ Ht|s|s k|s order b d _ _|s o t _ _|s f Hf]; intros Hr; try done.
  - apply peer_turn_frame in Ht as [Hr' _]. simpl. congruence.
  - unfold stop_turn. by repeat case_match.
  - by rewrite (proj1 (shut_slot_frame k s)).
Qed.

(** Whatever the other threads do, a thread's own turns bring it to its end. *)
Lemma turns_left_run L s ls s' i t :
  mrun L s ls s' → s.(running) = false → s.(peer_threads) !! i = Some t →
  ∃ t', s'.(peer_threads) !! i = Some t' ∧ (turns_left t' ≤ turns_left t - turns_of i ls)%nat.
Proof.
  intros Hr. revert t. induction Hr as [s|s l s1 ls s2 Hst _ _ IH]; intros t Hrun Hi.
  { exists t. split; [done|]. unfold turns_of. simpl. lia. }
  pose proof (stopping_stays _ _ _ Hst Hrun) as Hrun1.
  assert (∃ t1, s1.(peer_threads) !! i = Some t1 ∧ (turns_left t1 + turns_of i [l] ≤ turns_left t
    ∨ turns_left t1 = 0)%nat) as (t1 & Hi1 & Hle).
  { destruct Hst as [s j inp u u' s' Hj _ Ht|s|s k|s order b d _ _|s o tb _ _|s f Hf]; try (exists t; split; [done|]; unfold turns_of; simpl; lia).
    - pose proof (peer_turn_frame _ _ _ _ _ _ Ht) as (_ & Hth & _).
      rewrite lookup_with_thread by (rewrite Hth; by eapply lookup_lt_Some). rewrite Hth.
      unfold turns_of. rewrite filter_cons. simpl. case_decide as Hd; simplify_eq.
      + exists u'. split; [done|]. pose proof (peer_turn_counts _ _ _ _ _ _ Ht Hrun).
        rewrite bool_decide_true by done. simpl. lia.
      + exists t. split; [done|]. rewrite bool_decide_false by done. simpl. lia.
    - exists t. unfold stop_turn, shut_slot. repeat case_match; (split; [done|]); unfold turns_of; simpl; lia.
    - exists t. rewrite (proj1 (proj2 (shut_slot_frame k s))). split; [done|]. unfold turns_of. simpl. lia. }
  destruct (IH t1 Hrun1 Hi1) as (t2 & Hi2 & Hle2). exists t2. split; [done|].
  assert (turns_of i (l :: ls) = turns_of i [l] + turns_of i ls)%nat as ->.
  { unfold turns_of. rewrite !filter_cons. by case_decide. }
  lia.
Qed.

Lemma turns_left_bound t : (turns_left t ≤ 8)%nat.
Proof. destruct t; simpl; lia. Qed.

Lemma turns_left_zero t : turns_left t = 0%nat → panicked t = false → ended t = true.
Proof. by destruct t. Qed.

(** What is left when every thread has ended. *)
Lemma all_ended s :
  claims_ok s → slots_ok s → accounted (system_of s) →
  (∀ i t, s.(peer_threads) !! i = Some t → ended t = true) →
  s.(connected_peers) = ∅ ∧ s.(node).(download).(in_flight) = ∅ ∧
  Forall (λ w, w = None) s.(peer_writers).
Proof.
  intros [_ Hc] [Hlen Hs] [Ha _] He. split_and!.
  - apply elem_of_equiv_empty_L. intros d (i & t & Ht & Hh)%Hc. specialize (He i t Ht). by destruct t.
  - apply elem_of_equiv_empty_L. intros h (i & sm & Hp & Hin)%Ha.
    change (peers _) with (peer_map s.(peer_threads)) in Hp. rewrite lookup_peer_map in Hp.
    destruct (s.(peer_threads) !! i) as [t|] eqn:Ht; [|done]. specialize (He i t Ht). by destruct t.
  - apply Forall_lookup_2. intros i w Hw.
    destruct (lookup_lt_is_Some_2 s.(peer_threads) i) as [t Ht].
    { rewrite <- Hlen. by eapply lookup_lt_Some. }
    specialize (He i t Ht). destruct t; try done; specialize (Hs i _ None Ht eq_refl); congruence.
Qed.

Lemma threads_length L s ls s' :
  mrun L s ls s' → length s'.(peer_threads) = length s.(peer_threads).
Proof.
  induction 1 as [|s l s1 ls s2 Hst _ _ IH]; [done|]. rewrite IH. clear IH.
  destruct Hst as [s i inp t t' s' Hi _ Ht|s|s k|s order b d _ _|s o t _ _|s f Hf]; try done.
  - apply peer_turn_frame in Ht as (_ & Hth & _). simpl. by rewrite length_insert, Hth.
  - unfold stop_turn, shut_slot. by repeat case_match.
  - unfold shut_slot. by repeat case_match.
Qed.

Lemma start_healthy os n t ns f :
  run_ops TABLE_WIDTH TABLE_SLOT MAX_BUCKETS os = Some t → f.(listening) = true →
  healthy (start n t ns f).
Proof.
  intros Ht Hf. split_and!; [|done|by intros i u ->%start_thread].
  eexists. eapply reachable_refines; [| |exact Ht]; unfold TABLE_WIDTH, TABLE_SLOT; lia.
Qed.

(** The three invariants together, and the system's. *)
Lemma run_ok L n t ns f ls s :
  ns.(download) = download_default → mrun L (start n t ns f) ls s →
  claims_ok s ∧ slots_ok s ∧ accounted (system_of s).
Proof.
  intros Hd Hr. split_and!.
  - eapply (mrun_invariant proxied claims_ok L); [|done|apply start_claims].
    intros ? ? ? ? _. by eapply claims_ok_step.
  - eapply (mrun_invariant proxied slots_ok L); [|done|apply start_slots].
    intros ? ? ? ? _. by eapply slots_ok_step.
  - apply system_run in Hr as [ls' Hr].
    eapply (run_invariant accounted anything); [|exact Hr|by apply accounted_initial, start_system].
    intros ? ? ? ? _. by eapply accounted_step.
Qed.

Lemma mrun_app L s ls s1 ls' s2 : mrun L s ls s1 → mrun L s1 ls' s2 → mrun L s (ls ++ ls') s2.
Proof. induction 1; [done|]. intros. econstructor; eauto. Qed.

Lemma healthy_run n t ns f ls s :
  healthy (start n t ns f) → mrun orderly (start n t ns f) ls s → healthy s.
Proof.
  intros Hh Hr. eapply (mrun_invariant proxied healthy orderly); [|done|done].
  intros ? ? ? ?. by eapply healthy_step.
Qed.

(** ** An address book without usable addresses *)

(** A thread on its own. *)
Fixpoint solo (i : nat) (inps : list (input E)) (t : peer_thread) (s : manager)
    : peer_thread * manager :=
  match inps with
  | [] => (t, s)
  | inp :: inps => let '(t, s) := peer_turn inp i t s in solo i inps t s
  end.

Lemma solo_empty i inps k s :
  is_empty s.(addrman) = true → s.(running) = true → 0 ≤ k →
  k + Z.of_nat (length inps) < EMPTY_ADDRESS_BOOK_LIMIT →
  solo i inps (Selecting k) s = (Selecting (k + Z.of_nat (length inps)), s).
Proof.
  unfold EMPTY_ADDRESS_BOOK_LIMIT. intros He Hr.
  revert k. induction inps as [|inp inps IH]; intros k Hk Hlt; cbn [solo length] in *.
  { by rewrite Z.add_0_r. }
  unfold Manager.peer_turn at 1, select. rewrite Hr, He. simpl.
  rewrite (wrap_u_small 32 (k + 1)) by (unfold in_u; lia).
  unfold EMPTY_ADDRESS_BOOK_LIMIT. rewrite decide_False by lia. rewrite IH by lia. do 2 f_equal. lia.
Qed.

(** Where only addresses are known that the node has no way to reach, a thread
    keeps selecting, without a pause and without giving up. *)
Lemma unusable_book_spins os i inps k s :
  run_ops TABLE_WIDTH TABLE_SLOT MAX_BUCKETS os = Some s.(addrman) → s.(running) = true →
  is_empty s.(addrman) = false →
  (∀ p r, slot_at s.(addrman) p = Some r → destination_of proxied (network_addr r) = None) →
  solo i inps (Selecting k) s = (Selecting k, s).
Proof.
  intros Ht Hr He Hall. induction inps as [|inp inps IH]; [done|]. cbn [solo].
  unfold Manager.peer_turn at 1. rewrite Hr.
  destruct (select_spec TABLE_WIDTH TABLE_SLOT ltac:(unfold TABLE_WIDTH; lia)
    ltac:(unfold TABLE_SLOT; lia) inp.(in_bucket) inp.(in_hash) inp.(in_clock) s.(addrman))
    as ([r|] & -> & Hn & Hs).
  - eapply reachable_refines in Ht; [apply Ht| |]; unfold TABLE_WIDTH, TABLE_SLOT; lia.
  - destruct (Hs r eq_refl) as (p & Hp). rewrite (Hall p r Hp). apply IH.
  - apply not_true_iff_false in He. destruct He. apply is_empty_true. by apply Hn.
Qed.

(** ** Properties *)

(** C10: No two peer threads are connected to the same destination, or connecting
    to it, and the set of connected peers is exactly what the threads hold:
    every destination is given back. *)
Theorem peers_exclusive n t ns f ls s :
  mrun always (start n t ns f) ls s →
  (∀ i j u v d, s.(peer_threads) !! i = Some u → s.(peer_threads) !! j = Some v →
     held u = Some d → held v = Some d → i = j) ∧
  (∀ d, d ∈ s.(connected_peers) ↔ ∃ i u, s.(peer_threads) !! i = Some u ∧ held u = Some d).
Proof.
  intros Hr. eapply (mrun_invariant proxied claims_ok always); [|done|apply start_claims].
  intros ? ? ? ? _. by eapply claims_ok_step.
Qed.

(** C7: The threads of the manager implement the system of peers: every
    interleaving of their steps with the block thread and with [stop] is a run
    of [PeerSystem], so that in particular a block in flight is always owed by
    a thread that is still connected. *)
Theorem manager_refines_system n t ns f ls s :
  ns.(download) = download_default → mrun always (start n t ns f) ls s →
  (∃ ls', run anything (system_of (start n t ns f)) ls' (system_of s)) ∧
  (∀ h, h ∈ s.(node).(download).(in_flight) → ∃ i u p,
     s.(peer_threads) !! i = Some u ∧ live u = Some p ∧ h ∈ inventory_of p.(state_machine)).
Proof.
  intros Hd Hr. apply system_run in Hr as [ls' Hr]. split; [by exists ls'|].
  assert (accounted (system_of s)) as [Ha _].
  { eapply (run_invariant accounted anything); [|exact Hr|by apply accounted_initial, start_system].
    intros ? ? ? ? _. by eapply accounted_step. }
  intros h (i & sm & Hp & Hin)%Ha. change (peers _) with (peer_map s.(peer_threads)) in Hp.
  rewrite lookup_peer_map in Hp. destruct (s.(peer_threads) !! i) as [u|] eqn:Hu; [|done]. simpl in Hp.
  destruct (live u) as [p|] eqn:Hl; [|done]. simplify_eq/=. eauto 10.
Qed.

(** C9: When [stop] has gone through the writer slots, no thread is left waiting
    for a message of a connection that was not told to shut down, whatever the
    threads did while it ran. *)
Theorem stop_unblocks_readers n t ns f ls s :
  mrun always (start n t ns f) ls s → s.(stop_at) = Some (length s.(peer_writers)) →
  s.(running) = false ∧
  ∀ i d p c, s.(peer_threads) !! i = Some (Reading d p c) → c ∈ s.(shut).
Proof.
  intros Hr Hst.
  assert (slots_ok s ∧ stop_ok s) as [[Hlen _] [Hrun Hs]].
  { eapply (mrun_invariant proxied (λ s, slots_ok s ∧ stop_ok s) always); [|done|].
    - intros ? ? ? Hstep _ [? ?]. split; [by eapply slots_ok_step|by eapply stop_ok_step].
    - split; [apply start_slots|apply start_stop]. }
  split; [destruct (running s); [|done]; naive_solver|].
  intros i d p c Hi. eapply (proj2 (Hs _ Hst)); [|done]. rewrite Hlen. by eapply lookup_lt_Some.
Qed.

(** C33: Peer threads do not panic, whatever the peers send: not on the address
    table, not in the message handler, not when they give up. *)
Theorem threads_never_panic os n t ns f ls s :
  run_ops TABLE_WIDTH TABLE_SLOT MAX_BUCKETS os = Some t → f.(listening) = true →
  mrun orderly (start n t ns f) ls s →
  ∀ i u, s.(peer_threads) !! i = Some u → panicked u = false.
Proof. intros Ht Hf Hr. eapply healthy_run; [by eapply start_healthy|done]. Qed.

(** Once the manager is stopping, every thread ends after at most eight of
    its own turns, in whatever order they are taken; then no destination is
    held, no block is left in flight and every writer slot is empty. *)
Theorem stop_ends_threads os n t ns f ls1 s1 ls2 s2 :
  run_ops TABLE_WIDTH TABLE_SLOT MAX_BUCKETS os = Some t → f.(listening) = true →
  ns.(download) = download_default →
  mrun orderly (start n t ns f) ls1 s1 → s1.(running) = false →
  mrun orderly s1 ls2 s2 →
  (∀ i, (i < length s1.(peer_threads))%nat → (8 ≤ turns_of i ls2)%nat) →
  (∀ i u, s2.(peer_threads) !! i = Some u → ended u = true) ∧
  s2.(connected_peers) = ∅ ∧ s2.(node).(download).(in_flight) = ∅ ∧
  Forall (λ w, w = None) s2.(peer_writers).
Proof.
  intros Ht Hf Hd Hr1 Hrun Hr2 Hturns. pose proof (mrun_app _ _ _ _ _ _ Hr1 Hr2) as H12.
  destruct (run_ok _ _ _ _ _ _ _ Hd H12) as (Hc & Hs & Ha).
  assert (∀ i u, s2.(peer_threads) !! i = Some u → ended u = true) as He.
  { intros i u Hu. pose proof (lookup_lt_Some _ _ _ Hu) as Hlt.
    rewrite (threads_length _ _ _ _ Hr2) in Hlt.
    destruct (lookup_lt_is_Some_2 _ _ Hlt) as [u1 Hu1].
    destruct (turns_left_run _ _ _ _ _ _ Hr2 Hrun Hu1) as (u' & Hu' & Hle). simplify_eq.
    pose proof (turns_left_bound u1). specialize (Hturns i Hlt). apply turns_left_zero; [lia|].
    eapply healthy_run; [by eapply start_healthy|exact H12|done]. }
  split; [done|]. by apply all_ended.
Qed.

(** On an empty address book a thread waits for sixty selections in a row
    and then gives up; giving up triggers the shutdown, of which there is one
    signal however many threads give up. *)
Theorem empty_book_gives_up i inps s :
  is_empty s.(addrman) = true → s.(running) = true → s.(fatal).(listening) = true →
  (Z.of_nat (length inps) < 60 →
     solo i inps (Selecting 0) s = (Selecting (Z.of_nat (length inps)), s)) ∧
  (length inps = 60%nat →
     solo i inps (Selecting 0) s = (GaveUp, with_fatal (trigger s.(fatal)).2 s) ∧
     (trigger s.(fatal)).2.(triggered) = true ∧
     (trigger s.(fatal)).2.(signals) =
       (if s.(fatal).(triggered) then s.(fatal).(signals) else S s.(fatal).(signals)) ∧
     (trigger (trigger s.(fatal)).2).2 = (trigger s.(fatal)).2).
Proof.
  intros He Hr Hf. split.
  { intros Hlt. by rewrite solo_empty. }
  intros Hlen. destruct (exists_last (l:=inps)) as (front & last & ->); [by intros ->|].
  rewrite length_app in Hlen. simpl in Hlen.
  assert (∀ l1 l2 u v, solo i (l1 ++ l2) u v = (let '(u, v) := solo i l1 u v in solo i l2 u v)) as Happ.
  { induction l1 as [|x l1 IH]; intros l2 u v; [done|]. simpl. destruct (peer_turn x i u v). apply IH. }
  rewrite Happ, solo_empty by (done || unfold EMPTY_ADDRESS_BOOK_LIMIT; lia).
  replace (length front) with 59%nat by lia. cbn [solo]. unfold Manager.peer_turn, select.
  rewrite Hr, He. unfold trigger. rewrite Hf. by destruct (triggered (fatal s)) eqn:Htr; simpl; rewrite ?Htr.
Qed.
End Facts.

(** ** A concrete run

    Two threads and one known address: the first connects and is asked for the
    missing branch, the second finds the address taken; [stop] is called while
    the first one reads. *)

Module Witness.
Import Messages.Demo Kernel.Demo Addr.Demo Peer.Witness.

Abbreviation state := (Manager.manager Chainman KBlock).
Abbreviation label := (mlabel (E:=unit)).

Definition address : record := record_new (Ipv4 [10; 0; 0; 1]) 8333 1 (V4 [1; 1; 1; 1]).
Definition here : Destination := mk_destination (Ipv4 [10; 0; 0; 1]) 8333.

Definition turn (msg : outcome unit (option NetworkMessage)) (order : list Z) : input unit :=
  mk_input 77 (λ i, Z.of_nat i) (λ _, 7000000000) 1000 (Ok ()) (λ _, Ok ()) msg order.
Definition go (i : nat) : label := MTurn i (turn (Err ()) []).

Definition s0 : state := start (Some 2%nat) (table_new TABLE_WIDTH TABLE_SLOT) ns0 (fatal_new true).

(** Thread 0 reads the answer to its headers request, then waits for blocks. *)
Definition script : list label :=
  [MTable (OpAdd address); go 0; go 0; go 1; go 1; go 0; go 0; go 0;
   MTurn 0 (turn (Ok (Some (Headers []))) []); go 0; MStop; MStop; MStop].
Definition ending : list label :=
  [go 0; MTurn 0 (turn (Err ()) [107; 109; 111; 113; 115; 117]); go 0; go 0; go 0; go 0; go 0; go 0]
  ++ replicate 8 (go 1).

Definition exec (l : label) (s : state) : option state :=
  match l with
  | MTurn i inp =>
      t ← s.(peer_threads) !! i;
      let order_ok :=
        match t with
        | Leaving _ p => bool_decide (NoDup inp.(in_order) ∧
            list_to_set inp.(in_order) = inventory_of p.(state_machine))
        | _ => true
        end in
      if order_ok then let '(t', s') := peer_turn false inp i t s in Some (with_thread i t' s')
      else None
  | MStop => Some (stop_turn s)
  | MStale k => Some (shut_slot k s)
  | MBlock _ | MOther _ => None
  | MTable o =>
      match o with
      | OpAdd r =>
          if decide (record_ok r) then
            t ← run_op TABLE_WIDTH TABLE_SLOT MAX_BUCKETS o s.(addrman); Some (with_addrman t s)
          else None
      | _ => None
      end
  end.
Definition exec_all (ls : list label) (s : state) : option state :=
  foldl (λ s l, s ← s; exec l s) (Some s) ls.

Lemma exec_mstep l s s' : exec l s = Some s' → mstep false s l s'.
Proof.
  destruct l as [i inp| |k|order|[r|r|? ? r|? r]|f]; simpl; intros He; simplify_eq; try (by constructor).
  - apply bind_Some in He as (t & Hi & He).
    destruct (match t with Leaving _ _ => _ | _ => _ end) eqn:Ho; [|done].
    destruct (peer_turn false inp i t s) as [t' s1] eqn:Ht. simplify_eq.
    apply (mstep_turn (H0:=demo_kernel) false s i inp t t' s1); [done| |done]. destruct t; try done. simpl in *.
    apply bool_decide_eq_true in Ho. by apply PeerSystem.Witness.iterates_list_to_set.
  - case_decide as Hr; [|done].
    apply bind_Some in He as (t & Ht & [= <-]). by apply (mstep_table (H0:=demo_kernel) false s (OpAdd r)).
Qed.

Lemma exec_all_mrun (L : state → label → Prop) ls s s' :
  (∀ s l, l ∈ ls → L s l) → exec_all ls s = Some s' → mrun false L s ls s'.
Proof.
  revert s. induction ls as [|l ls IH]; intros s HL; unfold exec_all; simpl.
  { intros [= ->]. constructor. }
  destruct (exec l s) as [s1|] eqn:Hs.
  - intros Hr. econstructor; [by apply exec_mstep|apply HL; by constructor|].
    apply IH; [|done]. intros. apply HL. by constructor.
  - intros Hr. exfalso. clear -Hr. by induction ls.
Qed.

Definition stopped : state := default s0 (exec_all script s0).
Definition finish : state := default s0 (exec_all ending stopped).

Lemma run_always : mrun false always s0 script stopped.
Proof. apply exec_all_mrun; [done|]. by vm_compute. Qed.

Lemma orderly_all ls s l : l ∈ ls → ls = script ∨ ls = ending → orderly s l.
Proof.
  intros Hl Hls. assert (Forall (λ l, ∀ s, orderly s l) ls) as Hall.
  { destruct Hls as [->| ->]; [unfold script|unfold ending; simpl];
      repeat (apply Forall_cons_2; [intros ?; first [exact I|cbn; split_and!; done]|]); apply Forall_nil_2. }
  rewrite Forall_forall in Hall. by apply Hall.
Qed.

Lemma run_orderly : mrun false orderly s0 script stopped ∧ mrun false orderly stopped ending finish.
Proof.
  split; (apply exec_all_mrun; [intros; eapply orderly_all; eauto|]); vm_compute; reflexivity.
Qed.

Lemma peers_exclusive_witness :
  here ∈ stopped.(connected_peers) ∧
  (∃ p, stopped.(peer_threads) = [Reading here p 0; Selecting 0]) ∧
  (∀ i j u v d, stopped.(peer_threads) !! i = Some u → stopped.(peer_threads) !! j = Some v →
     held u = Some d → held v = Some d → i = j).
Proof.
  assert (∃ p, stopped.(peer_threads) = [Reading here p 0; Selecting 0]) as [p Hp].
  { eexists. vm_compute. reflexivity. }
  destruct (peers_exclusive false (Some 2%nat) (table_new TABLE_WIDTH TABLE_SLOT) ns0 (fatal_new true) script stopped)
    as [Hex Hset]; [apply run_always|].
  split; [|split; [by exists p|exact Hex]]. apply Hset. exists 0%nat, (Reading here p 0). rewrite Hp. split; reflexivity.
Defined.

Lemma manager_refines_witness :
  stopped.(Manager.node).(download).(in_flight) = {[107; 109; 111; 113; 115; 117]} ∧
  ∃ i u p, stopped.(peer_threads) !! i = Some u ∧ live u = Some p ∧ 107 ∈ inventory_of p.(state_machine).
Proof.
  split; [by vm_compute|].
  eapply (manager_refines_system false (Some 2%nat) (table_new TABLE_WIDTH TABLE_SLOT) ns0 (fatal_new true) script stopped);
    [done|apply run_always|]. apply (bool_decide_unpack _). by vm_compute.
Defined.

Lemma stop_unblocks_witness :
  stopped.(running) = false ∧ 0%nat ∈ stopped.(shut).
Proof.
  destruct (stop_unblocks_readers false (Some 2%nat) (table_new TABLE_WIDTH TABLE_SLOT) ns0 (fatal_new true) script stopped)
    as [Hr Hs]; [apply run_always|by vm_compute|].
  split; [exact Hr|]. eapply (Hs 0%nat). by vm_compute.
Defined.

Lemma threads_never_panic_witness :
  finish.(peer_threads) !! 0%nat = Some Stopped ∧ panicked Stopped = false.
Proof.
  assert (finish.(peer_threads) !! 0%nat = Some Stopped) as Hs by (vm_compute; reflexivity).
  split; [exact Hs|]. destruct run_orderly as [Hr1 Hr2].
  eapply (threads_never_panic false [] (Some 2%nat) (table_new TABLE_WIDTH TABLE_SLOT) ns0 (fatal_new true) (script ++ ending) finish).
  - vm_compute. reflexivity.
  - reflexivity.
  - eapply mrun_app; [exact Hr1|exact Hr2].
  - exact Hs.
Defined.

Lemma stop_ends_witness :
  finish.(connected_peers) = ∅ ∧ finish.(Manager.node).(download).(in_flight) = ∅ ∧
  finish.(Manager.node).(download).(queue) ≠ [].
Proof.
  destruct run_orderly as [Hr1 Hr2].
  destruct (stop_ends_threads false [] (Some 2%nat) (table_new TABLE_WIDTH TABLE_SLOT) ns0 (fatal_new true)
    script stopped ending finish) as (_ & Hc & Hf & _).
  - by vm_compute.
  - reflexivity.
  - reflexivity.
  - exact Hr1.
  - by vm_compute.
  - exact Hr2.
  - intros [|[|i]] Hi; [vm_compute; lia|vm_compute; lia|]. vm_compute in Hi. lia.
  - split; [exact Hc|]. split; [exact Hf|]. by vm_compute.
Defined.

Lemma empty_book_witness :
  solo false 0 (replicate 60 (turn (Err ()) [])) (Selecting 0) s0
    = (GaveUp, with_fatal (mk_fatal true 1 true) s0).
Proof.
  apply (empty_book_gives_up false 0 (replicate 60 (turn (Err ()) [])) s0); by vm_compute.
Defined.
End Witness.
