(* ===== verification/BlockThread.v ===== *)
(** * The block thread, and the threads of the network together (src/bin/node.rs)

    The block thread takes blocks that connect out of the buffer and hands them
    to the kernel; when none came for twenty minutes it shuts every connection
    down. Its turns are steps of [Manager], so what is proved there holds with
    it; with the peer threads it makes a group that can be joined. *)

From S2P Require Import Prelude Joinable Shutdown Addr AddressBook AddrTable Messages Kernel Download.
From S2P Require Import Peer PeerSystem Manager.

Definition STALE_BLOCK_DURATION : Duration := from_secs (60 * 20).

(** At the head of the loop, in [wait_for_connectable] before its first attempt
    and before its second, going through the writer slots, at the end. *)
Inductive block_thread :=
| KLoop (last_block : Duration)
| KTrying (last_block : Duration)
| KRetrying (last_block : Duration)
| KDropping (k : nat) (last_block : Duration)
| KStopped.

(** [n_running] is the flag of [run]; the manager has its own. *)
Record net (C K : Type) := mk_net {
  n_running : bool;
  n_block : block_thread;
  n_manager : manager C K;
}.
Arguments mk_net {C K} _ _ _.
Arguments n_running {C K} _.
Arguments n_block {C K} _.
Arguments n_manager {C K} _.

Inductive net_thread := ThPeer (i : nat) | ThBlock.
#[global] Instance net_thread_eq_dec : EqDecision net_thread.
Proof. solve_decision. Defined.

Section Block.
Context `{Kernel} `{DefaultHasher} {E : Type} (proxied : bool).

Abbreviation manager := (manager Chainman KBlock).
Abbreviation net := (net Chainman KBlock).

(** [go] is the flag of [run], [order] the order the buffer is searched in and
    [now] the clock. *)
Definition block_turn (go : bool) (now : Duration) (order : list BlockHash) (t : block_thread)
    (s : manager) : block_thread * manager :=
  let attempt otherwise :=
    match take_connectable order (is_on_active_chain s.(node).(chainman)) s.(node).(download) with
    | (Some b, d) =>
        (KLoop now,
         with_node (mk_node s.(node).(addr_tx) (process_block s.(node).(chainman) b) d) (b :: s.(done)) s)
    | (None, d) => (otherwise, with_node (with_download s.(node) d) s.(done) s)
    end in
  match t with
  | KLoop last_block => (if go then KTrying last_block else KStopped, s)
  | KTrying last_block => attempt (KRetrying last_block)
  | KRetrying last_block =>
      attempt (if decide (saturating_sub now last_block > STALE_BLOCK_DURATION) then KDropping 0 now
               else KLoop last_block)
  | KDropping k last_block =>
      if decide (k < length s.(peer_writers))%nat then (KDropping (S k) last_block, shut_slot k s)
      else (KLoop last_block, s)
  | KStopped => (t, s)
  end.

Inductive nlabel :=
| NPeers (l : mlabel (E:=E))
| NBlock (now : Duration) (order : list BlockHash).

(** The steps of the manager that are not the main thread's or the block
    thread's. *)
Definition of_peers (l : mlabel (E:=E)) : bool :=
  match l with MTurn _ _ | MTable _ | MOther _ => true | MStop | MStale _ | MBlock _ => false end.

Inductive netstep : net → nlabel → net → Prop :=
| net_peers s l m :
    mstep proxied s.(n_manager) l m → orderly s.(n_manager) l → of_peers l = true →
    netstep s (NPeers l) (mk_net s.(n_running) s.(n_block) m)
| net_block s now order t m :
    iterates order (dom s.(n_manager).(node).(download).(buffer)) →
    block_turn s.(n_running) now order s.(n_block) s.(n_manager) = (t, m) →
    netstep s (NBlock now order) (mk_net s.(n_running) t m).

Definition block_left (slots : nat) (t : block_thread) : nat :=
  match t with
  | KLoop _ => 1
  | KDropping k _ => slots - k + 2
  | KRetrying _ => slots + 3
  | KTrying _ => slots + 4
  | KStopped => 0
  end.

(** A network that was started and ran. *)
Definition reached (s : manager) : Prop :=
  ∃ os n t ns f ls, run_ops TABLE_WIDTH TABLE_SLOT MAX_BUCKETS os = Some t ∧ f.(listening) = true ∧
    ns.(download) = download_default ∧ mrun (E:=E) proxied orderly (start n t ns f) ls s.

#[global] Instance net_joinable : Joinable net nlabel net_thread := {|
  j_step := netstep;
  j_ok s := reached s.(n_manager);
  j_halted s := s.(n_running) = false ∧ s.(n_manager).(running) = false;
  j_threads s := (ThPeer <$> seq 0 (length s.(n_manager).(peer_threads))) ++ [ThBlock];
  j_left s t :=
    match t with
    | ThPeer i => default 0%nat (turns_left <$> s.(n_manager).(peer_threads) !! i)
    | ThBlock => block_left (length s.(n_manager).(peer_writers)) s.(n_block)
    end;
  j_ended s t :=
    match t with
    | ThPeer i => match s.(n_manager).(peer_threads) !! i with Some u => ended u | None => false end
    | ThBlock => match s.(n_block) with KStopped => true | _ => false end
    end;
  j_turn l :=
    match l with
    | NPeers (MTurn i _) => Some (ThPeer i)
    | NPeers _ => None
    | NBlock _ _ => Some ThBlock
    end;
|}.
End Block.

Section Facts.
Context `{KernelLaws} `{DefaultHasher} {E : Type} (proxied : bool).

Abbreviation manager := (manager Chainman KBlock).
Abbreviation net := (net Chainman KBlock).
Abbreviation nlabel := (nlabel (E:=E)).
Abbreviation netstep := (netstep (E:=E) proxied).
Abbreviation reached := (reached (E:=E) proxied).
#[local] Existing Instance net_joinable.

Lemma take_none_same order conn (d d' : DownloadState KBlock) :
  take_connectable order conn d = (None, d') → d' = d.
Proof.
  assert (∀ p, buffer_remove p d = (None, d') → d' = d) as Hr.
  { intros p [= Hp <-]. rewrite delete_id by done. by destruct d. }
  unfold take_connectable. repeat case_match; try apply Hr; by intros [= <-].
Qed.

(** The block thread does nothing the manager's model does not have. *)
Lemma block_turn_mrun go now order t s t' s' :
  iterates order (dom s.(node).(download).(buffer)) →
  block_turn go now order t s = (t', s') →
  ∃ ls, mrun (E:=E) proxied orderly s ls s'.
Proof.
  intros Hit. unfold block_turn.
  destruct (take_connectable order _ _) as [[b|] d] eqn:Ht.
  - assert (∃ ls, mrun (E:=E) proxied orderly s ls (with_node (mk_node s.(node).(addr_tx)
      (process_block s.(node).(chainman) b) d) (b :: s.(done)) s)) as Hb.
    { exists [MBlock order]. econstructor; [by constructor|done|constructor]. }
    destruct t as [l|l|l|k l|]; [| | |case_decide|]; intros [= <- <-]; try done; try (exists []; constructor).
    exists [MStale k]. econstructor; [constructor|done|constructor].
  - apply take_none_same in Ht as ->.
    assert (with_node (with_download s.(node) s.(node).(download)) s.(done) s = s) as -> by (by destruct s as [? ? ? ? ? ? ? ? [] ? ?]).
    destruct t as [l|l|l|k l|]; [| | |case_decide|]; intros [= <- <-]; try (exists []; constructor).
    exists [MStale k]. econstructor; [constructor|done|constructor].
Qed.

Lemma reached_run s ls s' : reached s → mrun (E:=E) proxied orderly s ls s' → reached s'.
Proof.
  intros (os & n & t & ns & f & ls0 & ? & ? & ? & Hr) Hrun.
  exists os, n, t, ns, f, (ls0 ++ ls). split_and!; [done..|by eapply mrun_app].
Qed.

Lemma reached_step s l s' : reached s → mstep (E:=E) proxied s l s' → orderly s l → reached s'.
Proof. intros Hr Hst Ho. eapply (reached_run s [l]); [done|]. econstructor; [done|done|constructor]. Qed.

Lemma reached_healthy s : reached s → healthy s.
Proof. intros (os & n & t & ns & f & ls & ? & ? & ? & Hr). eapply healthy_run; [by eapply start_healthy|done]. Qed.

Lemma reached_stop s : reached s → slots_ok s ∧ stop_ok s.
Proof.
  intros (os & n & t & ns & f & ls & _ & _ & _ & Hr).
  eapply (mrun_invariant proxied (λ s, slots_ok s ∧ stop_ok s) orderly); [|exact Hr|split; [apply start_slots|apply start_stop]].
  intros s1 l s2 Hst _ [Hs Ht]. split; [by eapply slots_ok_step|by eapply stop_ok_step].
Qed.

(** When every peer thread has ended, nothing is held. *)
Lemma reached_ended s :
  reached s → (∀ i t, s.(peer_threads) !! i = Some t → ended t = true) →
  s.(connected_peers) = ∅ ∧ s.(node).(download).(in_flight) = ∅ ∧ Forall (λ w, w = None) s.(peer_writers).
Proof.
  intros (os & n & t & ns & f & ls & _ & _ & Hd & Hr) He.
  destruct (run_ok _ _ _ _ _ _ _ _ Hd Hr) as (Hc & Hs & Ha). by apply all_ended.
Qed.

(** What no step changes. *)
Lemma mstep_sizes s l s' :
  mstep (E:=E) proxied s l s' →
  length s'.(peer_threads) = length s.(peer_threads) ∧ length s'.(peer_writers) = length s.(peer_writers).
Proof.
  destruct 1 as [s i inp t t' s' Hi _ Ht|s|s k|s order b d _ _|s o t _ _|s f Hf]; try done.
  - destruct (peer_turn_frame _ _ _ _ _ _ _ Ht) as (_ & Hth & _ & _ & _ & _ & Hw & _).
    simpl. rewrite length_insert. by rewrite Hth.
  - unfold stop_turn, shut_slot. by repeat case_match.
  - unfold shut_slot. by repeat case_match.
Qed.

Lemma block_turn_frame go now order t s t' s' :
  block_turn go now order t s = (t', s') →
  s'.(running) = s.(running) ∧ s'.(peer_threads) = s.(peer_threads) ∧
  length s'.(peer_writers) = length s.(peer_writers) ∧ s'.(stop_at) = s.(stop_at) ∧
  (go = false → block_left (length s.(peer_writers)) t' ≤ block_left (length s.(peer_writers)) t - 1)%nat.
Proof.
  unfold block_turn, shut_slot. destruct (take_connectable order _ _) as [[b|] d];
    destruct t as [l|l|l|k l|]; intros; repeat case_match; simplify_eq/=; split_and!; try done; intros; simplify_eq; lia.
Qed.

(** A set can be iterated. *)
Lemma iterates_elements (X : gset BlockHash) : iterates (elements X) X.
Proof. split; [apply NoDup_elements|]. intros x. apply elem_of_elements. Qed.

(** Turns of a stopped peer thread count down, other steps leave it alone. *)
Lemma peers_left s l s' i t :
  mstep (E:=E) proxied s l s' → s.(running) = false → s.(peer_threads) !! i = Some t →
  ∃ t', s'.(peer_threads) !! i = Some t' ∧ (turns_left t' ≤ turns_left t - turns_of i [l])%nat.
Proof.
  intros Hst Hr Hi. eapply (turns_left_run proxied (λ _ _, True) s [l] s' i t); [|done|done].
  econstructor; [done|done|constructor].
Qed.

(** A peer thread can always take a turn: here the network answers with a ping. *)
Lemma peer_progress s i t :
  s.(peer_threads) !! i = Some t →
  ∃ inp s', mstep (E:=E) proxied s (MTurn i inp) s' ∧ orderly s (MTurn i inp).
Proof.
  intros Hi.
  set (order := match t with Leaving _ p => elements (inventory_of p.(state_machine)) | _ => [] end).
  set (inp := mk_input (E:=E) 0 (λ _, 0) (λ _, 0) 0 (Ok ()) (λ _, Ok ()) (Ok (Some (Ping 0))) order).
  destruct (peer_turn proxied inp i t s) as [t' s'] eqn:Ht. exists inp, (with_thread i t' s'). split; [|done].
  constructor 1 with t; [done| |done]. unfold turn_ok. subst inp order. destruct t; try done. apply iterates_elements.
Qed.

#[global] Instance net_joinable_laws : JoinableLaws net nlabel net_thread (H:=net_joinable proxied).
Proof.
  split.
  - destruct 1 as [s l m Hst Ho _|s now order t m Hit Ht]; intros Hok; simpl in *; [by eapply reached_step|].
    destruct (block_turn_mrun _ _ _ _ _ _ _ Hit Ht) as [ls Hr]. by eapply reached_run.
  - destruct 1 as [s l m Hst Ho _|s now order t m Hit Ht]; intros [Hn Hr]; simpl in *; (split; [done|]).
    + by eapply stopping_stays.
    + destruct (block_turn_frame _ _ _ _ _ _ _ Ht) as [-> _]. done.
  - destruct 1 as [s l m Hst Ho _|s now order t m Hit Ht]; intros _; simpl.
    + by rewrite (proj1 (mstep_sizes _ _ _ Hst)).
    + by destruct (block_turn_frame _ _ _ _ _ _ _ Ht) as (_ & -> & _).
  - intros s. simpl. apply NoDup_app. split_and!.
    + apply NoDup_fmap_2; [by intros ? ? [= ->]|apply NoDup_seq].
    + by intros t (i & -> & _)%list_elem_of_fmap ?%list_elem_of_singleton.
    + apply NoDup_singleton.
  - intros s l s' t Hst _ [Hn Hr] Ht. simpl in Ht. destruct Hst as [s l m Hst _ Hl|s now order u m Hit Hu]; simpl in *.
    + destruct t as [i|]; simpl; [|rewrite (proj2 (mstep_sizes _ _ _ Hst)); unfold counts; rewrite decide_False by (by destruct l); lia].
      destruct (s.(n_manager).(peer_threads) !! i) as [t|] eqn:Hi.
      * destruct (peers_left _ _ _ _ _ Hst Hr Hi) as (t' & -> & Hle). simpl. etrans; [exact Hle|].
        unfold turns_of, counts, turn_of. destruct l as [j inp| | | | |]; simpl; try lia.
        rewrite filter_cons. repeat case_decide; simplify_eq; simpl; try lia; by rewrite bool_decide_true in *.
      * apply lookup_ge_None in Hi. rewrite <- (proj1 (mstep_sizes _ _ _ Hst)) in Hi.
        apply lookup_ge_None in Hi. rewrite Hi. simpl. lia.
    + destruct (block_turn_frame _ _ _ _ _ _ _ Hu) as (_ & -> & -> & _ & Hle). destruct t as [i|]; simpl; [unfold counts; rewrite decide_False by done; lia|].
      specialize (Hle Hn). unfold counts. rewrite decide_True by done. lia.
  - intros s t _ _ Ht Hl. simpl in *. destruct t as [i|]; simpl in *.
    + destruct (s.(n_manager).(peer_threads) !! i) as [t|] eqn:Hi; simpl in Hl; [|lia].
      destruct (peer_progress _ _ _ Hi) as (inp & m & Hst & Ho). exists (NPeers (MTurn i inp)). eexists. split; [done|].
      by apply net_peers.
    + set (order := elements (dom s.(n_manager).(node).(download).(buffer)) : list BlockHash).
      destruct (block_turn s.(n_running) 0 order s.(n_block) s.(n_manager)) as [t m] eqn:Ht'.
      exists (NBlock 0 order). eexists. split; [done|]. apply net_block; [apply iterates_elements|exact Ht'].
  - intros s t Hok Ht Hl. simpl in *. destruct t as [i|]; simpl in *.
    + apply elem_of_app in Ht as [Ht|?%list_elem_of_singleton]; [|done].
      apply list_elem_of_fmap in Ht as (j & [= <-] & Hj%elem_of_seq).
      destruct (lookup_lt_is_Some_2 s.(n_manager).(peer_threads) i) as [t Hi]; [lia|]. rewrite Hi in *. simpl in Hl.
      apply turns_left_zero; [done|]. by eapply (reached_healthy _ Hok).
    + destruct (n_block s); simpl in Hl; try lia.
Qed.
End Facts.
