(* ===== verification/Outbound.v ===== *)
(** * Outbound connections (src/net/manager.rs, src/net/addr.rs, src/bin/node.rs)

    How a connection is opened, directly or through the proxy; what the feeler
    and the transaction broadcast do with it and tell the address table; and
    how the table is filled, saved and loaded. *)

From S2P Require Import Prelude Fs Addr AddressBook AddrTable AddrIo Messages Handshake Connection Socks5.
From S2P Require Import Kernel Download Peer PeerSystem Manager.

Definition BROADCAST_TIMEOUT : Duration := from_secs 60.
Definition BROADCAST_PONG_TIMEOUT : Duration := from_secs 5.

Abbreviation W := TABLE_WIDTH.
Abbreviation SLOTS := TABLE_SLOT.
Abbreviation select := (AddrTable.select TABLE_WIDTH TABLE_SLOT).
Abbreviation add := (AddrTable.add TABLE_WIDTH TABLE_SLOT MAX_BUCKETS).
Abbreviation succeed := (AddrTable.successful_connection TABLE_WIDTH TABLE_SLOT MAX_BUCKETS).
Abbreviation fail := (AddrTable.failed_connection TABLE_WIDTH TABLE_SLOT MAX_BUCKETS).
Abbreviation run_ops := (AddrTable.run_ops TABLE_WIDTH TABLE_SLOT MAX_BUCKETS).

Section Outbound.
Context `{Wire} `{DefaultHasher} (sha3_256 : list Z → list Z).

(** ** Opening a connection *)

(** What the network does: the bytes the other end sends once the TCP connection
    is open, or why it does not open; which writes fail; the clocks and the
    nonce of the handshake. *)
Record network_io := mk_io {
  io_tcp : outcome io_error (list Z);
  io_socks : nat → option io_error;
  io_write : NetworkMessage → option io_error;
  io_unix : Duration;
  io_now : Duration;
  io_nonce : Z;
}.

(** The address as the proxy is asked for it. *)
Definition socks_destination (a : AddrV2) : option SocksDestination :=
  match a with
  | Ipv4 ipv4 => Some (SocksIpv4 ipv4)
  | Ipv6 ipv6 => Some (SocksIpv6 ipv6)
  | TorV3 pubkey => Some (Onion pubkey)
  | _ => None
  end.

Definition connect (conf : ConnectionConfig) (dest : Destination) (proxied : bool) (read_to : Duration)
    (io : network_io) : outcome net_error (ConnectionMetrics * list Z) :=
  let timeouts := read_timeout read_to timeouts_default in
  let shake stream :=
    (handshake conf io.(io_write) io.(io_unix) io.(io_now) io.(io_nonce) stream).1 in
  if proxied then
    match socks_destination dest.(dst_addr) with
    | Some d =>
        stream ← map_err Io io.(io_tcp);
        stream ← map_err Io (Socks5.connect sha3_256 io.(io_socks) d dest.(dst_port) stream).1;
        shake stream
    | None => Err (Io Other)
    end
  else
    match dest.(dst_addr) with
    | Ipv4 _ | Ipv6 _ =>
        (open_connection conf timeouts io.(io_tcp) io.(io_write) io.(io_unix) io.(io_now) io.(io_nonce)).1
    | _ => Err (Io Other)
    end.

(** ** Feelers *)

Definition feeler_config (n : Network) : ConnectionConfig :=
  set_user_agent "/kernel-node:0.1.0/" (offer_services SERVICE_WITNESS
    (set_service_requirement SERVICE_NETWORK (change_network n config_new))).

(** The random choices and clocks of one outbound attempt. *)
Record choice := mk_choice {
  ch_bucket : Z;
  ch_hash : nat → Z;
  ch_clock : nat → Z;
  ch_now1 : Duration;
  ch_now2 : Duration;
}.

(** Dialling the selected record and telling the table; [None] is a panic. The
    lock is not held in between, so [t] is the table after the call. *)
Definition feeler_report (n : Network) (proxied : bool) (ch : choice) (io : network_io) (r : record)
    (t : Table) : option Table :=
  let '(a, port) := network_addr r in
  match connect (feeler_config n) (mk_destination a port) proxied READ_TIMEOUT io with
  | Ok _ => succeed ch.(ch_now1) ch.(ch_now2) t r
  | Err _ => fail ch.(ch_now1) t r
  | Panic => None
  end.

(** The table afterwards; [None] is a panic. *)
Definition open_feeler (n : Network) (proxied : bool) (ch : choice) (io : network_io) (t : Table)
    : option Table :=
  selected ← select ch.(ch_bucket) ch.(ch_hash) ch.(ch_clock) t;
  match selected with
  | None => Some t
  | Some r => feeler_report n proxied ch io r t
  end.

(** ** Broadcasting a transaction *)

Definition broadcast_config (n : Network) : ConnectionConfig :=
  set_user_agent "/kernel-node:0.1.0/" (offer_services SERVICE_WITNESS
    (change_network n config_new)).

(** [reads] are the clock and the result of each read; [None] when the loop is
    still going after them. *)
Fixpoint wait_for_pong (deadline : Duration) (nonce : Z)
    (reads : list (Duration * (net_error + option NetworkMessage))) : option bool :=
  match reads with
  | [] => None
  | (now, r) :: reads =>
      if decide (now < deadline) then
        match r with
        | inr (Some (Pong received)) =>
            if decide (received = nonce) then Some true else wait_for_pong deadline nonce reads
        | inr _ => wait_for_pong deadline nonce reads
        | inl (Io WouldBlock) | inl (Io TimedOut) => wait_for_pong deadline nonce reads
        | inl _ => Some false
        end
      else Some false
  end.

(** What the other threads do to the table, which is locked for each of its
    operations only. *)
Definition run_others (os : list op) (t : Table) : option Table :=
  foldl (λ t o, t ≫= run_op TABLE_WIDTH TABLE_SLOT MAX_BUCKETS o) (Some t) os.

(** One round of the loop: the time since the start, what other threads do to the
    table before a record is selected, the choices, the network, whether the
    writer thread of the connection is still there for each of the two messages,
    the ping's nonce, the reads, and what other threads do to the table
    meanwhile. *)
Record attempt := mk_attempt {
  at_elapsed : Duration;
  at_before : list op;
  at_choice : choice;
  at_io : network_io;
  at_tx_open : bool;
  at_nonce : Z;
  at_ping_open : bool;
  at_pong_start : Duration;
  at_reads : list (Duration * (net_error + option NetworkMessage));
  at_during : list op;
}.

(** The channel of a connection to which [q] was handed before. *)
Definition channel (open : bool) (q : list WriteRequest) : option (list WriteRequest) :=
  if open then Some q else None.

(** A connection that was opened: the record it went to and what its writer was
    handed. *)
Definition opened : Type := record * list WriteRequest.

(** What is handed to the writer of a new connection, and whether the peer
    confirms; [None] when the read loop is still going. *)
Definition offer (tx : Transaction) (a : attempt) : list WriteRequest * option bool :=
  match send_message (Tx tx) (channel a.(at_tx_open) []) with
  | Ok q =>
      match send_message (Ping a.(at_nonce)) (channel a.(at_ping_open) q) with
      | Ok q => (q, wait_for_pong (a.(at_pong_start) + BROADCAST_PONG_TIMEOUT) a.(at_nonce) a.(at_reads))
      | _ => (q, Some false)
      end
  | _ => ([], Some false)
  end.

(** The result, [None] when the loop is still going after these rounds, the
    connections opened, and the table afterwards; [None] in place of them is a
    panic. *)
Fixpoint broadcast_transaction (n : Network) (proxied : bool) (tx : Transaction) (rounds : list attempt)
    (log : list opened) (t : Table) : option (option bool * list opened * Table) :=
  match rounds with
  | [] => Some (None, log, t)
  | a :: rounds =>
      if decide (a.(at_elapsed) < BROADCAST_TIMEOUT) then
        t ← run_others a.(at_before) t;
        selected ← select a.(at_choice).(ch_bucket) a.(at_choice).(ch_hash) a.(at_choice).(ch_clock) t;
        match selected with
        | None => Some (Some false, log, t)
        | Some r =>
            let '(addr, port) := network_addr r in
            match connect (broadcast_config n) (mk_destination addr port) proxied (from_secs 1) a.(at_io) with
            | Ok _ =>
                let '(q, answer) := offer tx a in
                let log := log ++ [(r, q)] in
                t ← run_others a.(at_during) t;
                match answer with
                | None => Some (None, log, t)
                | Some true =>
                    t ← succeed a.(at_choice).(ch_now1) a.(at_choice).(ch_now2) t r;
                    Some (Some true, log, t)
                | Some false => broadcast_transaction n proxied tx rounds log t
                end
            | Err _ =>
                t ← run_others a.(at_during) t;
                t ← fail a.(at_choice).(ch_now1) t r;
                broadcast_transaction n proxied tx rounds log t
            | Panic => None
            end
        end
      else Some (Some false, log, t)
  end.

(** ** Filling the table *)

(** The address thread on one message (src/bin/node.rs). *)
Fixpoint process_addresses (source : AddrV2) (payload : list AddrV2Message) (t : Table)
    : option Table :=
  match payload with
  | [] => Some t
  | m :: payload =>
      if is_unknown m.(amsg_addr) then process_addresses source payload t
      else
        '(t, _) ← add t (new_from_addrv2_source m.(amsg_addr) m.(amsg_port)
                           m.(amsg_services) source);
        process_addresses source payload t
  end.

Definition DNS_RESOLVER : IpAddr := V4 [1; 1; 1; 1].

(** The records of [--connect] and of the DNS seeds. *)
Definition seed_record (ip : IpAddr) (port : Z) : record :=
  record_new (match ip with V4 ipv4 => Ipv4 ipv4 | V6 ipv6 => Ipv6 ipv6 end) port SERVICE_NETWORK
    DNS_RESOLVER.

Fixpoint add_seeds (seeds : list (IpAddr * Z)) (t : Table) : option Table :=
  match seeds with
  | [] => Some t
  | (ip, port) :: seeds => '(t, _) ← add t (seed_record ip port); add_seeds seeds t
  end.

(** ** The table on disk *)

Context `{AddrCodec}.

(** [AddrTableExt::load]. *)
Definition table_load (path : string) (d : fs) : outcome Empty_set Table :=
  match d !! path with
  | Some bytes =>
      match read_table TABLE_WIDTH TABLE_SLOT MAX_BUCKETS bytes with
      | Ok t => Ok t
      | Err _ => Ok (table_new TABLE_WIDTH TABLE_SLOT)
      | Panic => Panic
      end
  | None => Ok (table_new TABLE_WIDTH TABLE_SLOT)
  end.

(** [AddrTableExt::save] in the directory of the peers file; [None] is a panic. *)
Definition table_save (f : faults) (dir file : string) (t : Table) (d : fs)
    : option (option io_error * list fs) :=
  bytes ← write_table t;
  Some (replace_file f (dir +:+ "peers.tmp") (dir +:+ file) bytes d).

(** The start of [run]: the addresses given, or the saved table, or the seeds. *)
Definition initial_table (given : list (IpAddr * Z)) (seeds : list IpAddr) (p2p_port : Z)
    (path : string) (d : fs) : outcome Empty_set Table :=
  if is_nil given then
    t ← table_load path d;
    if is_empty t then or_panic (add_seeds ((λ ip, (ip, p2p_port)) <$> seeds) t) else Ok t
  else or_panic (add_seeds given (table_new TABLE_WIDTH TABLE_SLOT)).
End Outbound.

(** ** Facts *)

Section Table.
Context `{DefaultHasher}.

(** A table the operations build. *)
Definition table_inv (t : Table) : Prop := ∃ os, Forall op_ok os ∧ run_ops os = Some t.

Lemma sizes : (0 < TABLE_WIDTH)%nat ∧ (0 < TABLE_SLOT)%nat ∧ (0 < MAX_BUCKETS)%nat.
Proof. unfold TABLE_WIDTH, TABLE_SLOT, MAX_BUCKETS. lia. Qed.

Lemma table_inv_new : table_inv (table_new TABLE_WIDTH TABLE_SLOT).
Proof. by exists []. Qed.

Lemma table_inv_refines t : table_inv t → ∃ m, refines TABLE_WIDTH TABLE_SLOT t m.
Proof. intros (os & _ & Ht). eexists. by eapply reachable_refines; [apply sizes..|exact Ht]. Qed.

Lemma table_inv_op t o :
  table_inv t → op_ok o →
  ∃ t', run_op TABLE_WIDTH TABLE_SLOT MAX_BUCKETS o t = Some t' ∧ table_inv t'.
Proof.
  intros Ht Ho. destruct (table_inv_refines t Ht) as [m Hm].
  destruct (op_refines TABLE_WIDTH TABLE_SLOT MAX_BUCKETS (proj1 sizes) (proj1 (proj2 sizes)) o t m Hm)
    as (t' & Ht' & _).
  exists t'. split; [done|]. destruct Ht as (os & Hos & Ht). exists (os ++ [o]). split.
  - apply Forall_app. split; [done|by apply Forall_singleton].
  - unfold AddrTable.run_ops in *. rewrite foldl_app, Ht. done.
Qed.

Lemma table_inv_record t p r : table_inv t → slot_at t p = Some r → record_ok r.
Proof.
  intros (os & Hos & Ht) Hr.
  eapply (reachable_ok TABLE_WIDTH TABLE_SLOT MAX_BUCKETS) in Ht; [|apply sizes..|done].
  by eapply (proj2 Ht).
Qed.

Lemma select_inv t hb hh nn :
  table_inv t → ∃ res, select hb hh nn t = Some res ∧ (res = None → ∀ p, slot_at t p = None) ∧
    (∀ r, res = Some r → record_ok r).
Proof.
  intros Ht. destruct (table_inv_refines t Ht) as [m Hm].
  destruct (select_spec TABLE_WIDTH TABLE_SLOT (proj1 sizes) (proj1 (proj2 sizes)) hb hh nn t)
    as (res & Hs & Hn & Hr); [apply Hm|].
  exists res. split_and!; [done|naive_solver|]. intros r Hres. destruct (Hr r Hres) as [p Hp].
  by eapply table_inv_record.
Qed.

(** Adding never displaces a record. *)
Lemma add_inv t r :
  table_inv t → record_ok r → ∃ t' c, add t r = Some (t', c) ∧ table_inv t' ∧
    (∀ p r', slot_at t p = Some r' → slot_at t' p = Some r') ∧
    (∀ p r', slot_at t' p = Some r' → slot_at t p = Some r' ∨ r' = r).
Proof.
  intros Ht Hr. destruct (table_inv_refines t Ht) as [m Hm].
  destruct (add_refines TABLE_WIDTH TABLE_SLOT MAX_BUCKETS (proj1 sizes) (proj1 (proj2 sizes)) t m r Hm)
    as (t' & Ha & Hm').
  destruct (table_inv_op t (OpAdd r) Ht Hr) as (t1 & Ht1 & Hinv). simpl in Ht1. rewrite Ha in Ht1.
  simplify_eq/=. exists t1, (spec_add TABLE_WIDTH TABLE_SLOT MAX_BUCKETS m r).2. split_and!; [done|done| |];
    intros p r'; rewrite (proj2 Hm), (proj2 Hm'); unfold spec_add;
    destruct (m !! pos TABLE_WIDTH TABLE_SLOT MAX_BUCKETS r) eqn:Hp; simpl; try naive_solver;
    rewrite lookup_insert_Some; naive_solver congruence.
Qed.
End Table.

Section Facts.
Context `{WireLaws} `{DefaultHasher} (sha3_256 : list Z → list Z)
  (Hsha : ∀ l, array_ok 32 (sha3_256 l)).

Lemma dial_total conf dest proxied rt io :
  addr_ok dest.(dst_addr) → io.(io_tcp) ≠ Panic → connect sha3_256 conf dest proxied rt io ≠ Panic.
Proof using Hsha H1.
  intros Ha Hio. unfold connect.
  pose proof (handshake_total conf io.(io_write) io.(io_unix) io.(io_now) io.(io_nonce)) as Hh.
  destruct proxied.
  - destruct (socks_destination dest.(dst_addr)) as [d|] eqn:Hd; [|done].
    destruct (io_tcp io) as [s| |]; [|done|done]. simpl_outcome.
    assert ((Socks5.connect sha3_256 (io_socks io) d (dst_port dest) s).1 ≠ Panic) as Hc.
    { apply Socks5.connect_total, Socks5.encode_total; [done|].
      destruct (dst_addr dest); simplify_eq/=; done. }
    destruct (Socks5.connect sha3_256 (io_socks io) d (dst_port dest) s).1; [apply Hh|done|done].
  - enough ((open_connection conf (read_timeout rt timeouts_default) io.(io_tcp) io.(io_write) io.(io_unix)
      io.(io_now) io.(io_nonce)).1 ≠ Panic) by (by destruct (dst_addr dest)).
    unfold open_connection, set_timeouts, set_timeout. simpl_outcome.
    destruct (decide (tcp_to (read_timeout rt timeouts_default) = 0)); simpl_outcome; [done|].
    destruct (io_tcp io) as [s| |]; simpl_outcome; [|done|done]. cbn [read_timeout read_to write_to].
    case_decide; simpl_outcome; [done|apply Hh].
Qed.

Lemma wait_for_pong_true deadline nonce reads :
  wait_for_pong deadline nonce reads = Some true →
  ∃ now, (now, inr (Some (Pong nonce))) ∈ reads ∧ now < deadline.
Proof.
  induction reads as [|[now r] reads IH]; simpl; [done|].
  assert (wait_for_pong deadline nonce reads = Some true →
    ∃ now', (now', inr (Some (Pong nonce))) ∈ (now, r) :: reads ∧ now' < deadline) as Hrec.
  { intros (now' & Hin & Hlt)%IH. exists now'. split; [by constructor|done]. }
  intros Hw. repeat case_match; simplify_eq; eauto. exists now. split; [constructor|done].
Qed.

Definition choice_ok (c : choice) : Prop := time_ok (Some c.(ch_now1)) ∧ time_ok (Some c.(ch_now2)).

(** The clocks are those of the machine, opening a socket does not panic, and the
    other threads use the table as they do. *)
Definition attempt_ok (a : attempt) : Prop :=
  choice_ok a.(at_choice) ∧ a.(at_io).(io_tcp) ≠ Panic ∧
  Forall op_ok a.(at_before) ∧ Forall op_ok a.(at_during).

Lemma table_inv_others os t :
  Forall op_ok os → table_inv t → ∃ t', run_others os t = Some t' ∧ table_inv t'.
Proof using.
  intros Hos. revert t. induction Hos as [|o os Ho _ IH]; intros t Ht; [by exists t|].
  destruct (table_inv_op t o Ht Ho) as (t1 & Ht1 & Hi1). unfold run_others. cbn [foldl mbind option_bind].
  rewrite Ht1. by apply IH.
Qed.

(** The transaction, and after it a ping. *)
Definition tx_then_ping (tx : Transaction) (nonce : Z) : list WriteRequest :=
  [SendMessage (Tx tx); SendMessage (Ping nonce)].

Lemma offer_spec tx a :
  (offer tx a).1 `prefix_of` tx_then_ping tx a.(at_nonce) ∧
  ((offer tx a).2 = Some true → (offer tx a).1 = tx_then_ping tx a.(at_nonce) ∧
     ∃ now, (now, inr (Some (Pong a.(at_nonce)))) ∈ a.(at_reads) ∧
       now < a.(at_pong_start) + BROADCAST_PONG_TIMEOUT) ∧
  ((offer tx a).2 = None →
     wait_for_pong (a.(at_pong_start) + BROADCAST_PONG_TIMEOUT) a.(at_nonce) a.(at_reads) = None).
Proof using.
  unfold offer, channel. destruct (at_tx_open a); simpl; [|by split_and!; [apply prefix_nil|..]].
  destruct (at_ping_open a); simpl; [|by split_and!; [apply prefix_cons, prefix_nil|..]].
  split_and!; [done| |done]. intros Hw. split; [done|by apply wait_for_pong_true].
Qed.

(** The round [a] in which the peer [r] confirms [tx]: its connection was the last
    one opened, it was handed the transaction and then the ping, a read begun
    within five seconds gave the pong with the ping's nonce, and the table [t]
    was told. *)
Definition confirmed_by (n : Network) (proxied : bool) (tx : Transaction) (a : attempt) (log : list opened)
    (t : Table) : Prop :=
  ∃ r pre conn t0, a.(at_elapsed) < BROADCAST_TIMEOUT ∧
    connect sha3_256 (broadcast_config n) (mk_destination r.(addr) r.(port)) proxied (from_secs 1) a.(at_io)
      = Ok conn ∧
    log = pre ++ [(r, tx_then_ping tx a.(at_nonce))] ∧
    (∃ now, (now, inr (Some (Pong a.(at_nonce)))) ∈ a.(at_reads) ∧
       now < a.(at_pong_start) + BROADCAST_PONG_TIMEOUT) ∧
    succeed a.(at_choice).(ch_now1) a.(at_choice).(ch_now2) t0 r = Some t.

(** The read loop of a round comes to its end. *)
Definition answered (a : attempt) : Prop :=
  wait_for_pong (a.(at_pong_start) + BROADCAST_PONG_TIMEOUT) a.(at_nonce) a.(at_reads) ≠ None.

(** Nothing but the transaction and, after it, a ping is handed to a peer. *)
Definition offers (tx : Transaction) (log : list opened) : Prop :=
  Forall (λ c, ∃ nonce, c.2 `prefix_of` tx_then_ping tx nonce) log.

(** What a broadcast reports, after which connections and on which table. *)
Definition broadcast_ok (n : Network) (proxied : bool) (tx : Transaction) (rounds : list attempt)
    (res : option bool) (log : list opened) (t : Table) : Prop :=
  offers tx log ∧
  (res = Some true → ∃ a, a ∈ rounds ∧ confirmed_by n proxied tx a log t) ∧
  (res = Some false →
     (∃ a, a ∈ rounds ∧ BROADCAST_TIMEOUT ≤ a.(at_elapsed)) ∨ ∀ p, slot_at t p = None) ∧
  (Forall answered rounds → (∃ a, a ∈ rounds ∧ BROADCAST_TIMEOUT ≤ a.(at_elapsed)) → res ≠ None).

Lemma broadcast_ok_cons n proxied tx a rounds res log t :
  a.(at_elapsed) < BROADCAST_TIMEOUT → broadcast_ok n proxied tx rounds res log t →
  broadcast_ok n proxied tx (a :: rounds) res log t.
Proof using.
  intros Hlt (Ho & Ht & Hf & Hn). split_and!; [done|..].
  - intros (b & Hb & Hc)%Ht. exists b. split; [by constructor|done].
  - intros [(b & Hb & Hc)|He]%Hf; [left|by right]. exists b. split; [by constructor|done].
  - intros [_ Ha]%Forall_cons (b & [->|Hb]%elem_of_cons & Hle); [lia|]. apply Hn; [done|]. eauto.
Qed.

(** The invariant of the loop. *)
Lemma broadcast_spec n proxied tx rounds log t :
  table_inv t → Forall attempt_ok rounds → offers tx log →
  ∃ res log' t', broadcast_transaction sha3_256 n proxied tx rounds log t = Some (res, log', t') ∧
    table_inv t' ∧ broadcast_ok n proxied tx rounds res log' t'.
Proof using Hsha H1.
  intros Ht Hok. revert log t Ht.
  induction Hok as [|a rounds ([Hn1 Hn2] & Hio & Hbef & Hdur) _ IH]; intros log t Ht Hlog;
    cbn [broadcast_transaction].
  { exists None, log, t. split_and!; [done..|]. split_and!; [done..|]. by intros _ (a & Ha%elem_of_nil & _). }
  case_decide as Hlt.
  2: { exists (Some false), log, t. split_and!; [done..|]. split_and!; [done..| |done].
       intros _. left. exists a. split; [constructor|lia]. }
  destruct (table_inv_others _ t Hbef Ht) as (t1 & -> & Ht1). cbn [mbind option_bind].
  destruct (select_inv t1 a.(at_choice).(ch_bucket) a.(at_choice).(ch_hash) a.(at_choice).(ch_clock) Ht1)
    as ([r|] & -> & Hnone & Hr); simpl.
  2: { exists (Some false), log, t1. split_and!; [done..|]. split_and!; [done..| |done].
       intros _. right. by apply Hnone. }
  assert (∀ log2 t2, table_inv t2 → offers tx log2 → ∃ res log' t',
    broadcast_transaction sha3_256 n proxied tx rounds log2 t2 = Some (res, log', t') ∧ table_inv t' ∧
    broadcast_ok n proxied tx (a :: rounds) res log' t') as Hgo.
  { intros log2 t2 Ht2 Hl2. destruct (IH log2 t2 Ht2 Hl2) as (res & log' & t' & Hb & Hi & Hbo). exists res, log', t'.
    split_and!; [done..|by apply broadcast_ok_cons]. }
  destruct (Hr r eq_refl) as (Haddr & _). destruct (table_inv_others _ t1 Hdur Ht1) as (t2 & -> & Ht2).
  pose proof (dial_total (broadcast_config n) (mk_destination r.(addr) r.(port)) proxied (from_secs 1) a.(at_io) Haddr Hio) as Hc.
  destruct (connect sha3_256 _ _ proxied _ _) as [conn|e|] eqn:Hconn; [|clear Hc|done].
  - destruct (offer_spec tx a) as (Hpre & Htrue & Hstuck). destruct (offer tx a) as [q answer]. simpl in *.
    assert (offers tx (log ++ [(r, q)])) as Hlog'.
    { apply Forall_app. split; [done|]. apply Forall_singleton. by eexists. }
    destruct answer as [[|]|]; [|by apply Hgo|].
    + destruct (table_inv_op t2 (OpSuccess a.(at_choice).(ch_now1) a.(at_choice).(ch_now2) r) Ht2)
        as (t' & Ht' & Hi); [by split_and!; [..|apply Hr]|].
      simpl in Ht'. rewrite Ht'. simpl. destruct (Htrue eq_refl) as [-> Hpong].
      exists (Some true), (log ++ [(r, tx_then_ping tx a.(at_nonce))]), t'. split_and!; [done..|].
      split_and!; [done| |done|done]. intros _. exists a. split; [constructor|].
      exists r, log, conn, t2. by split_and!.
    + exists None, (log ++ [(r, q)]), t2. split_and!; [done..|]. split_and!; [done..|].
      intros [Ha _]%Forall_cons _. by destruct Ha; apply Hstuck.
  - destruct (table_inv_op t2 (OpFailure a.(at_choice).(ch_now1) r) Ht2) as (t' & Ht' & Hi); [done|].
    simpl in Ht'. cbn [mbind option_bind]. rewrite Ht'. simpl. by apply Hgo.
Qed.

(** C29: Broadcasting a transaction never panics and keeps the address table well
    formed, whatever other threads do to the table meanwhile. To no peer it sends
    anything but the transaction and, after it, a ping. It reports success only
    when the peer dialled last was sent both and a read begun within five seconds
    gave the pong with the ping's nonce; this peer is then recorded as reached.
    It reports failure only when a round begins a minute or more after the start,
    or when no address is left. Once a round begins after the minute it has
    reported one of them, provided that the wait for a pong ended in every round:
    the time is looked at between rounds and between messages only, so that a
    message that is slow to arrive can hold the report up. *)
Theorem broadcast_confirmed n proxied tx rounds t :
  table_inv t → Forall attempt_ok rounds →
  ∃ res log t', broadcast_transaction sha3_256 n proxied tx rounds [] t = Some (res, log, t') ∧
    table_inv t' ∧ broadcast_ok n proxied tx rounds res log t'.
Proof using Hsha H1. intros Ht Hok. apply broadcast_spec; [done..|constructor]. Qed.
End Facts.

Section Gossip.
Context `{DefaultHasher}.

(** The record an address message stands for. *)
Definition gossiped (source : AddrV2) (m : AddrV2Message) : record :=
  new_from_addrv2_source m.(amsg_addr) m.(amsg_port) m.(amsg_services) source.

(** A message as the decoder gives it. *)
Definition message_ok (m : AddrV2Message) : Prop :=
  addr_ok m.(amsg_addr) ∧ in_u 16 m.(amsg_port) ∧ in_u 64 m.(amsg_services).

Lemma gossiped_ok source m : message_ok m → record_ok (gossiped source m).
Proof.
  intros (Ha & Hp & Hs). unfold record_ok, gossiped, new_from_addrv2_source. simpl.
  split_and!; try done; destruct source; try apply hash_prefix_ok; by apply (bool_decide_unpack _).
Qed.

Lemma process_addresses_spec source payload t :
  table_inv t → Forall message_ok payload →
  ∃ t', process_addresses source payload t = Some t' ∧ table_inv t' ∧
    (∀ p r, slot_at t p = Some r → slot_at t' p = Some r) ∧
    (∀ p r, slot_at t' p = Some r → slot_at t p = Some r ∨
       ∃ m, m ∈ payload ∧ is_unknown m.(amsg_addr) = false ∧ r = gossiped source m).
Proof.
  intros Ht Hok. revert t Ht. induction Hok as [|m payload Hm _ IH]; intros t Ht; cbn [process_addresses].
  { exists t. split_and!; [done|done|done|by left]. }
  destruct (is_unknown m.(amsg_addr)) eqn:Hu.
  - destruct (IH t Ht) as (t' & Hp & Hi & Hold & Hnew). exists t'. split_and!; [done|done|done|].
    intros p r [?|(m' & Hin & ?)]%Hnew; [by left|right]. exists m'. split; [by constructor|done].
  - destruct (add_inv t (gossiped source m) Ht (gossiped_ok source m Hm)) as (t1 & c & Ha & Hi1 & Hold1 & Hnew1).
    unfold gossiped in Ha. rewrite Ha. simpl.
    destruct (IH t1 Hi1) as (t' & Hp & Hi & Hold & Hnew). exists t'. split_and!; [done|done|by auto|].
    intros p r [[Hr| ->]%Hnew1|(m' & Hin & ?)]%Hnew; [by left|right|right].
    + exists m. split; [constructor|done].
    + exists m'. split; [by constructor|done].
Qed.
(** C30: Gossip fills the address table without ever displacing a record: the
    address thread does not panic on any message, every record stored before is
    still where it was, and what is new stands for an address of the message,
    of a known network. *)
Theorem gossip_never_evicts source payload t :
  table_inv t → Forall message_ok payload →
  ∃ t', process_addresses source payload t = Some t' ∧ table_inv t' ∧
    (∀ p r, slot_at t p = Some r → slot_at t' p = Some r) ∧
    (∀ p r, slot_at t' p = Some r → slot_at t p = Some r ∨
       ∃ m, m ∈ payload ∧ is_unknown m.(amsg_addr) = false ∧ r = gossiped source m).
Proof. apply process_addresses_spec. Qed.
End Gossip.

Section Disk.
Context `{DefaultHasher} `{AddrCodec} `{!AddrCodecLaws}.

Lemma table_load_total path d : ∃ t, table_load path d = Ok t.
Proof.
  unfold table_load. destruct (d !! path) as [bytes|]; [|eauto].
  pose proof (read_table_no_panic TABLE_WIDTH TABLE_SLOT MAX_BUCKETS (proj1 sizes) (proj1 (proj2 sizes)) bytes).
  destruct (read_table _ _ _ bytes); [eauto|eauto|done].
Qed.

(** A table that starts a node is one the operations build. *)
Lemma table_load_inv path d t :
  map_Forall (λ _, bytes_ok) d → table_load path d = Ok t → table_inv t.
Proof.
  intros Hd. unfold table_load. destruct (d !! path) as [bytes|] eqn:Hp; [|intros [= <-]; apply table_inv_new].
  destruct (read_table _ _ _ bytes) as [t1|e|] eqn:Hr; [|intros [= <-]; apply table_inv_new|done].
  intros [= <-]. eapply read_table_ops; [by eapply Hd|done].
Qed.

Definition socket_ok (a : IpAddr * Z) : Prop := ip_ok a.1 ∧ in_u 16 a.2.

Lemma add_seeds_inv seeds t :
  Forall socket_ok seeds → table_inv t → ∃ t', add_seeds seeds t = Some t' ∧ table_inv t'.
Proof.
  intros Hok. revert t. induction Hok as [|[ip port] seeds [Hip Hport] _ IH]; intros t Ht; cbn [add_seeds]; [by eauto|].
  destruct (add_inv t (seed_record ip port) Ht) as (t1 & c & -> & Ht1 & _); [|by apply IH].
  split_and!; [by destruct ip|done|by apply hash_prefix_ok|done|done|done|done].
Qed.

Lemma initial_table_inv given seeds p2p_port path d :
  map_Forall (λ _, bytes_ok) d → Forall socket_ok given → Forall ip_ok seeds → in_u 16 p2p_port →
  ∃ t, initial_table given seeds p2p_port path d = Ok t ∧ table_inv t.
Proof.
  intros Hd Hg Hs Hp. unfold initial_table. destruct (is_nil given).
  - destruct (table_load_total path d) as [t Ht]. rewrite Ht. simpl_outcome.
    pose proof (table_load_inv _ _ _ Hd Ht) as Hi. destruct (is_empty t); [|by eauto].
    destruct (add_seeds_inv ((λ ip, (ip, p2p_port)) <$> seeds) t) as (t' & -> & Ht'); [|done|by eauto].
    apply Forall_fmap. eapply Forall_impl; [exact Hs|]. by intros ip ?.
  - destruct (add_seeds_inv given _ Hg table_inv_new) as (t' & -> & Ht'). by eauto.
Qed.

(** The peers file survives anything: loading always gives a table, and
    whichever operation of a save fails, or wherever it is cut off, loading
    gives the table of before or the one saved, the latter exactly when the
    save succeeds. *)
Theorem peers_file_safe f dir file t d :
  file ≠ "peers.tmp" → table_inv t →
  ∃ r states, table_save f dir file t d = Some (r, states) ∧
    (∀ s, s ∈ states → table_load (dir +:+ file) s = table_load (dir +:+ file) d ∨
       table_load (dir +:+ file) s = Ok (persisted t)) ∧
    (∃ t0, table_load (dir +:+ file) d = Ok t0) ∧
    (∃ final, last states = Some final ∧
       table_load (dir +:+ file) final =
         match r with None => Ok (persisted t) | Some _ => table_load (dir +:+ file) d end).
Proof.
  intros Hfile (os & Hos & Hrun).
  destruct (file_roundtrip TABLE_WIDTH TABLE_SLOT MAX_BUCKETS (proj1 sizes) (proj1 (proj2 sizes))
    (proj2 (proj2 sizes)) os t) as (bs & Hw & Hread); [done|done|done|].
  unfold table_save. rewrite Hw. simpl.
  destruct (replace_file f (dir +:+ "peers.tmp") (dir +:+ file) bs d) as [r states] eqn:Hr.
  exists r, states. split; [done|].
  assert (∀ s, s !! (dir +:+ file) = Some bs → table_load (dir +:+ file) s = Ok (persisted t)) as Hnew.
  { intros s Hs. unfold table_load. by rewrite Hs, Hread. }
  assert (∀ s, s !! (dir +:+ file) = d !! (dir +:+ file) →
    table_load (dir +:+ file) s = table_load (dir +:+ file) d) as Hold.
  { intros s Hs. unfold table_load. by rewrite Hs. }
  apply replace_file_spec in Hr as (Hs & _ & final & Hl & Hf).
  2: { intros Heq. apply Hfile. symmetry. by apply (inj (String.append dir)). }
  split_and!; [|apply table_load_total|].
  - intros s [?|?]%Hs; [left; by apply Hold|right; by apply Hnew].
  - exists final. split; [done|]. destruct r; [by apply Hold|by apply Hnew, Hf].
Qed.
End Disk.

(** ** Concrete runs *)

Module Witness.
Import Messages.Demo Addr.Demo Connection.Witness Socks5.Witness AddrTable.Witness.
#[local] Existing Instance demo_wire.
#[local] Existing Instance demo_wire_laws.

Lemma demo_table_inv : table_inv demo_table.
Proof. exists demo_ops. split; [apply demo_ops_ok|apply demo_run]. Qed.

Definition news : list AddrV2Message :=
  [mk_addrv2 (Ipv4 [10; 0; 0; 7]) 8333 1; mk_addrv2 (Unknown 9 [1]) 8333 1].

Lemma gossip_witness :
  ∃ t', process_addresses (Ipv4 [9; 9; 9; 9]) news demo_table = Some t' ∧
    (∀ p r, slot_at demo_table p = Some r → slot_at t' p = Some r).
Proof.
  destruct (gossip_never_evicts (Ipv4 [9; 9; 9; 9]) news demo_table demo_table_inv) as (t' & Hp & _ & Ho & _).
  - repeat constructor; by apply (bool_decide_unpack _); vm_compute.
  - exists t'. split; [exact Hp|exact Ho].
Defined.

(** A save that fails after ten bytes. *)
Lemma peers_file_witness :
  ∃ states final,
    table_save (mk_faults None (Some (10%nat, Other)) None None) "/node/" "peers.bin" demo_table ∅
      = Some (Some Other, states) ∧ last states = Some final ∧
    table_load "/node/peers.bin" final = Ok (table_new TABLE_WIDTH TABLE_SLOT).
Proof.
  destruct (peers_file_safe (mk_faults None (Some (10%nat, Other)) None None) "/node/" "peers.bin" demo_table ∅)
    as (r & states & Hs & _ & _ & final & Hl & Hf); [done|apply demo_table_inv|].
  assert (r = Some Other) as ->.
  { unfold table_save in Hs. destruct (write_table demo_table); [|done]. by injection Hs as <- _. }
  exists states, final. split; [exact Hs|]. split; [exact Hl|exact Hf].
Defined.

(** Two rounds: a connection that is refused, and one that confirms. *)
Definition some_choice : choice := mk_choice 77 (λ i, Z.of_nat i) (λ _, 7000000000) 8000000000 8000000001.
Definition refused : attempt :=
  mk_attempt 0 [] some_choice (mk_io (Err TimedOut) (λ _, None) (λ _, None) 0 3 77) true 5 true 0 [] [].
Definition accepted : attempt :=
  mk_attempt (from_secs 2) [OpAdd (seed_record (V4 [10; 0; 0; 9]) 8333)] some_choice
    (mk_io (Ok peer_stream) (λ _, None) (λ _, None) 0 3 77)
    true 5 true 0 [(1, inl (Io TimedOut)); (2, inr (Some (Pong 4))); (3, inr (Some (Pong 5)))] [].

(** Transactions of the demonstration are numbers. *)
Definition demo_tx : Transaction := 42.

Lemma broadcast_witness :
  ∃ log t', broadcast_transaction demo_sha Bitcoin_ false demo_tx [refused; accepted] [] demo_table
      = Some (Some true, log, t') ∧
    log.*2 = [[SendMessage (Tx demo_tx); SendMessage (Ping 5)]] ∧
    ∃ a, a ∈ [refused; accepted] ∧ confirmed_by demo_sha Bitcoin_ false demo_tx a log t'.
Proof.
  destruct (broadcast_confirmed demo_sha demo_sha_ok Bitcoin_ false demo_tx [refused; accepted] demo_table
    demo_table_inv) as (res & log & t' & Hb & _ & _ & Hok & _).
  - assert (choice_ok some_choice) as Hc.
    { split; apply (bool_decide_unpack _); by vm_compute. }
    apply Forall_cons_2; [by split_and!|]. apply Forall_cons_2; [|apply Forall_nil_2].
    split_and!; [exact Hc|done| |apply Forall_nil_2]. apply Forall_singleton.
    apply (bool_decide_unpack _). by vm_compute.
  - assert (res = Some true ∧ log.*2 = [[SendMessage (Tx demo_tx); SendMessage (Ping 5)]]) as [-> Hlog].
    { assert ((λ x, (x.1.1, x.1.2.*2)) <$>
        broadcast_transaction demo_sha Bitcoin_ false demo_tx [refused; accepted] [] demo_table =
        Some (Some true, [[SendMessage (Tx demo_tx); SendMessage (Ping 5)]])) as Hrun by (vm_compute; reflexivity).
      rewrite Hb in Hrun. simpl in Hrun. injection Hrun as -> Hl. split; [reflexivity|exact Hl]. }
    exists log, t'. split; [exact Hb|]. split; [exact Hlog|]. by apply Hok.
Defined.
End Witness.
