(* ===== verification/Book.v ===== *)
(** * The threads around the address book (src/net/manager.rs, src/bin/node.rs)

    Three threads share the address table with the peer threads: the address
    thread adds what peers gossip, the feeler thread tries an address every
    thirty seconds, and the flush thread writes the table to the peers file
    every ten minutes and once more when the manager stops. They are split at
    every access to shared state and interleaved with the broadcast thread's
    reports, with [run] and with [PeerManager::stop]. *)

From S2P Require Import Prelude Joinable Fs Addr AddressBook AddrTable AddrIo Messages Handshake Connection Socks5.
From S2P Require Import Kernel Download Peer PeerSystem Manager Outbound.

Definition FEELER_INTERVAL : Duration := from_secs 30.
Definition FLUSH_PEERS_INTERVAL : Duration := from_secs (60 * 10).

(** [Instant::elapsed]: zero when the clock is behind. *)
Definition elapsed (since now : Duration) : Duration := saturating_sub now since.

(** ** State *)

(** Where a thread is: at the head of its loop, asleep (or in [recv_timeout]), and
    the feeler outside the lock with the record it dials, the flush thread
    before its last save. *)
Inductive feeler_thread :=
| FLoop (last_feeler : Duration)
| FSleeping (last_feeler : Duration)
| FDialling (r : record)
| FStopped
| FPanicked.

Inductive flush_thread :=
| PLoop (last_flush : Duration)
| PSleeping (last_flush : Duration)
| PLast
| PStopped
| PPanicked.

Inductive addr_thread := ALoop | AReceiving | AStopped | APanicked.

(** [bk_running] is the flag of [run], [bk_managing] the manager's. *)
Record book := mk_book {
  bk_table : Table;
  bk_disk : fs;
  bk_news : list (AddrV2 * list AddrV2Message);
  bk_running : bool;
  bk_managing : bool;
  bk_addr : addr_thread;
  bk_feeler : feeler_thread;
  bk_flush : option flush_thread;
}.

Definition with_table (t : Table) (b : book) : book :=
  mk_book t b.(bk_disk) b.(bk_news) b.(bk_running) b.(bk_managing) b.(bk_addr) b.(bk_feeler) b.(bk_flush).
Definition with_disk (d : fs) (b : book) : book :=
  mk_book b.(bk_table) d b.(bk_news) b.(bk_running) b.(bk_managing) b.(bk_addr) b.(bk_feeler) b.(bk_flush).
Definition with_news (l : list (AddrV2 * list AddrV2Message)) (b : book) : book :=
  mk_book b.(bk_table) b.(bk_disk) l b.(bk_running) b.(bk_managing) b.(bk_addr) b.(bk_feeler) b.(bk_flush).
Definition with_flags (running managing : bool) (b : book) : book :=
  mk_book b.(bk_table) b.(bk_disk) b.(bk_news) running managing b.(bk_addr) b.(bk_feeler) b.(bk_flush).
Definition with_addr (a : addr_thread) (b : book) : book :=
  mk_book b.(bk_table) b.(bk_disk) b.(bk_news) b.(bk_running) b.(bk_managing) a b.(bk_feeler) b.(bk_flush).
Definition with_feeler (f : feeler_thread) (b : book) : book :=
  mk_book b.(bk_table) b.(bk_disk) b.(bk_news) b.(bk_running) b.(bk_managing) b.(bk_addr) f b.(bk_flush).
Definition with_flush (p : flush_thread) (b : book) : book :=
  mk_book b.(bk_table) b.(bk_disk) b.(bk_news) b.(bk_running) b.(bk_managing) b.(bk_addr) b.(bk_feeler) (Some p).

Section Book.
Context `{Wire} `{DefaultHasher} `{AddrCodec} (sha3_256 : list Z → list Z).
Context (n : Network) (proxied : bool) (dir file : string).

(** ** Turns *)

(** [senders] says whether a peer is left that could send addresses. *)
Definition addr_turn (senders : bool) (b : book) : book :=
  match b.(bk_addr) with
  | ALoop => with_addr (if b.(bk_running) then AReceiving else AStopped) b
  | AReceiving =>
      match b.(bk_news) with
      | [] => with_addr (if senders then ALoop else AStopped) b
      | (source, payload) :: news =>
          match process_addresses source payload b.(bk_table) with
          | Some t => with_addr ALoop (with_table t (with_news news b))
          | None => with_addr APanicked (with_news news b)
          end
      end
  | AStopped | APanicked => b
  end.

(** [now] is the clock after the sleep and [later] after the feeler. *)
Definition feeler_turn (now later : Duration) (ch : choice) (io : network_io) (b : book) : book :=
  match b.(bk_feeler) with
  | FLoop last_feeler => with_feeler (if b.(bk_managing) then FSleeping last_feeler else FStopped) b
  | FSleeping last_feeler =>
      if decide (elapsed last_feeler now < FEELER_INTERVAL) then with_feeler (FLoop last_feeler) b
      else
        match select ch.(ch_bucket) ch.(ch_hash) ch.(ch_clock) b.(bk_table) with
        | None => with_feeler FPanicked b
        | Some None => with_feeler (FLoop later) b
        | Some (Some r) => with_feeler (FDialling r) b
        end
  | FDialling r =>
      match feeler_report sha3_256 n proxied ch io r b.(bk_table) with
      | Some t => with_feeler (FLoop later) (with_table t b)
      | None => with_feeler FPanicked b
      end
  | FStopped | FPanicked => b
  end.

(** The disk states gone through; the lock is held during the save, and an error
    is logged. [None] is a panic. *)
Definition flush_peers (f : faults) (b : book) : option (list fs * book) :=
  '(_, states) ← table_save f dir file b.(bk_table) b.(bk_disk);
  Some (states, with_disk (default b.(bk_disk) (last states)) b).

Definition flush_turn (now later : Duration) (f : faults) (b : book) : list fs * book :=
  match b.(bk_flush) with
  | Some (PLoop last_flush) =>
      ([], with_flush (if b.(bk_managing) then PSleeping last_flush else PLast) b)
  | Some (PSleeping last_flush) =>
      if decide (elapsed last_flush now < FLUSH_PEERS_INTERVAL) then ([], with_flush (PLoop last_flush) b)
      else
        match flush_peers f b with
        | Some (states, b) => (states, with_flush (PLoop later) b)
        | None => ([], with_flush PPanicked b)
        end
  | Some PLast =>
      match flush_peers f b with
      | Some (states, b) => (states, with_flush PStopped b)
      | None => ([], with_flush PPanicked b)
      end
  | Some PStopped | Some PPanicked | None => ([], b)
  end.

(** [run] up to the threads: a flush thread only without [--connect]. *)
Definition start_book (given : list (IpAddr * Z)) (seeds : list IpAddr) (p2p_port : Z) (now : Duration)
    (d : fs) : outcome Empty_set book :=
  t ← initial_table given seeds p2p_port (dir +:+ file) d;
  Ok (mk_book t d [] true true ALoop (FLoop now) (if is_nil given then Some (PLoop now) else None)).

(** ** Runs *)

Inductive blabel :=
| BAddr (senders : bool)
| BFeeler (now later : Duration) (ch : choice) (io : network_io)
| BFlush (now later : Duration) (f : faults)
| BNews (source : AddrV2) (payload : list AddrV2Message)
| BReport (o : op)
| BStop
| BStopManager.

(** A report of the broadcast thread. *)
Definition is_report (o : op) : bool :=
  match o with OpSuccess _ _ _ | OpFailure _ _ => true | _ => false end.

(** What the world may answer: clocks of the machine, sockets that do not panic,
    messages as they are decoded. *)
Definition blabel_ok (l : blabel) : Prop :=
  match l with
  | BFeeler _ _ ch io => choice_ok ch ∧ io.(io_tcp) ≠ Panic
  | BNews _ payload => Forall message_ok payload
  | BReport o => op_ok o ∧ is_report o = true
  | _ => True
  end.

(** A step with the disk states it goes through. *)
Inductive bstep : book → blabel → list fs → book → Prop :=
| b_addr senders b : bstep b (BAddr senders) [] (addr_turn senders b)
| b_feeler now later ch io b : bstep b (BFeeler now later ch io) [] (feeler_turn now later ch io b)
| b_flush now later f b states b' :
    flush_turn now later f b = (states, b') → bstep b (BFlush now later f) states b'
| b_news source payload b :
    bstep b (BNews source payload) [] (with_news (b.(bk_news) ++ [(source, payload)]) b)
| b_report o b t :
    run_op TABLE_WIDTH TABLE_SLOT MAX_BUCKETS o b.(bk_table) = Some t →
    bstep b (BReport o) [] (with_table t b)
| b_stop b : bstep b BStop [] (with_flags false b.(bk_managing) b)
| b_stop_manager b : b.(bk_running) = false → bstep b BStopManager [] (with_flags false false b).

(** A run with the tables held along it, and its disk states. *)
Inductive brun (b0 : book) : list blabel → list Table → list fs → book → Prop :=
| brun_start : brun b0 [] [b0.(bk_table)] [b0.(bk_disk)] b0
| brun_step ls ts ds b l states b' :
    brun b0 ls ts ds b → blabel_ok l → bstep b l states b' →
    brun b0 (ls ++ [l]) (ts ++ [b'.(bk_table)]) (ds ++ states) b'.
End Book.

(** ** Properties *)

(** How many turns a thread takes at most once it is to stop. *)
Definition addr_left (a : addr_thread) : nat :=
  match a with AReceiving => 2 | ALoop => 1 | AStopped | APanicked => 0 end.
Definition feeler_left (f : feeler_thread) : nat :=
  match f with FSleeping _ => 3 | FDialling _ => 2 | FLoop _ => 1 | FStopped | FPanicked => 0 end.
Definition flush_left (p : option flush_thread) : nat :=
  match p with
  | Some (PSleeping _) => 3
  | Some (PLoop _) => 2
  | Some PLast => 1
  | Some PStopped | Some PPanicked | None => 0
  end.

Section Labels.
Context `{Bitcoin}.

Definition is_addr (l : blabel) : bool := match l with BAddr _ => true | _ => false end.
Definition is_feeler (l : blabel) : bool := match l with BFeeler _ _ _ _ => true | _ => false end.
Definition is_flush (l : blabel) : bool := match l with BFlush _ _ _ => true | _ => false end.
Definition turns (own : blabel → bool) (ls : list blabel) : nat := length (filter own ls).

(** A disk that works. *)
Definition no_fault (l : blabel) : Prop :=
  match l with BFlush _ _ f => f = mk_faults None None None None | _ => True end.
End Labels.

Section Properties.
Context `{WireLaws} `{DefaultHasher} `{AddrCodec} {laws : AddrCodecLaws} (sha3_256 : list Z → list Z).
Context (Hsha : ∀ l, array_ok 32 (sha3_256 l)).
Context (n : Network) (proxied : bool) (dir file : string) (Hfile : file ≠ "peers.tmp").

Abbreviation bstep := (bstep sha3_256 n proxied dir file).
Abbreviation brun := (brun sha3_256 n proxied dir file).
Abbreviation load := (table_load (dir +:+ file)).

(** *** Well-formed states *)

Record book_ok (b : book) : Prop := {
  ok_table : table_inv b.(bk_table);
  ok_news : Forall (λ m, Forall message_ok m.2) b.(bk_news);
  ok_addr : b.(bk_addr) ≠ APanicked;
  ok_feeler : match b.(bk_feeler) with FDialling r => record_ok r | FPanicked => False | _ => True end;
  ok_flush : b.(bk_flush) ≠ Some PPanicked;
}.

Lemma feeler_report_inv ch io r t :
  table_inv t → record_ok r → choice_ok ch → io.(io_tcp) ≠ Panic →
  ∃ t', feeler_report sha3_256 n proxied ch io r t = Some t' ∧ table_inv t'.
Proof using Hsha H1.
  intros Ht Hr [Hn1 Hn2] Hio. unfold feeler_report. simpl.
  pose proof (dial_total sha3_256 Hsha (feeler_config n) (mk_destination r.(addr) r.(port)) proxied READ_TIMEOUT io
    (proj1 Hr) Hio) as Hc.
  destruct (connect sha3_256 _ _ proxied _ _); [| |done].
  - by apply (table_inv_op t (OpSuccess ch.(ch_now1) ch.(ch_now2) r)).
  - by apply (table_inv_op t (OpFailure ch.(ch_now1) r)).
Qed.

Lemma flush_peers_spec f b :
  table_inv b.(bk_table) →
  ∃ states d, flush_peers dir file f b = Some (states, with_disk d b) ∧
    (∀ s, s ∈ states → load s = load b.(bk_disk) ∨ load s = Ok (persisted b.(bk_table))) ∧
    (load d = load b.(bk_disk) ∨ load d = Ok (persisted b.(bk_table))) ∧
    (f = mk_faults None None None None → load d = Ok (persisted b.(bk_table))).
Proof using Hfile laws.
  intros Ht. destruct (peers_file_safe f dir file b.(bk_table) b.(bk_disk) Hfile Ht)
    as (r & states & Hs & Hst & _ & final & Hl & Hf).
  unfold flush_peers. rewrite Hs. simpl. rewrite Hl. simpl. exists states, final.
  split_and!; [done|done|destruct r; auto|].
  intros ->. enough (r = None) as -> by done.
  unfold table_save in Hs. destruct (write_table _); [|done]. by injection Hs as <- _.
Qed.

Lemma flush_turn_spec now later f b states b' :
  table_inv b.(bk_table) → b.(bk_flush) ≠ Some PPanicked →
  flush_turn dir file now later f b = (states, b') →
  (∃ d p, b' = mk_book b.(bk_table) d b.(bk_news) b.(bk_running) b.(bk_managing) b.(bk_addr) b.(bk_feeler) p) ∧
  b'.(bk_flush) ≠ Some PPanicked ∧
  (∀ s, s ∈ states ++ [b'.(bk_disk)] → s = b.(bk_disk) ∨ b.(bk_flush) ≠ None ∧
     (load s = load b.(bk_disk) ∨ load s = Ok (persisted b.(bk_table)))) ∧
  (b.(bk_managing) = false → (flush_left b'.(bk_flush) ≤ flush_left b.(bk_flush) - 1)%nat) ∧
  (b'.(bk_flush) = Some PStopped → b.(bk_flush) = Some PStopped ∧ b'.(bk_disk) = b.(bk_disk) ∨
     (f = mk_faults None None None None → load b'.(bk_disk) = Ok (persisted b.(bk_table)))) ∧
  (b'.(bk_flush) = None ↔ b.(bk_flush) = None).
Proof using Hfile laws.
  intros Ht Hp. destruct (flush_peers_spec f b Ht) as (st & d & Hf & Hst & Hd & Hok).
  assert (∀ s, s ∈ [b.(bk_disk)] → s = b.(bk_disk)) as Hsame by (intros s; apply list_elem_of_singleton).
  assert (∀ s, s ∈ st ++ [d] → load s = load b.(bk_disk) ∨ load s = Ok (persisted b.(bk_table))) as Hall
    by (intros s [?| ->%list_elem_of_singleton]%elem_of_app; auto).
  unfold flush_turn. rewrite Hf. destruct b as [tb dk nw rn mg ad fe [[l|l| | |]|]]; simpl in *; try done.
  - intros [= <- <-]. simpl. split_and!; [by eauto|by destruct mg|by auto| |by destruct mg|by destruct mg].
    intros ->. simpl. lia.
  - case_decide; intros [= <- <-]; simpl; split_and!; try done; eauto.
  - intros [= <- <-]. simpl. split_and!; try done; eauto.
  - intros [= <- <-]. simpl. split_and!; try done; eauto.
  - intros [= <- <-]. simpl. split_and!; try done; eauto.
Qed.

(** What the turns of the address and the feeler thread leave alone. *)
Definition same_disk (b b' : book) : Prop :=
  b'.(bk_disk) = b.(bk_disk) ∧ b'.(bk_flush) = b.(bk_flush) ∧
  b'.(bk_running) = b.(bk_running) ∧ b'.(bk_managing) = b.(bk_managing).

Lemma addr_turn_frame senders b : same_disk b (addr_turn senders b).
Proof. unfold addr_turn, same_disk. destruct b as [? ? [|[]] ? ? [] ? ?]; simpl; by repeat case_match. Qed.

Lemma feeler_turn_frame now later ch io b : same_disk b (feeler_turn sha3_256 n proxied now later ch io b).
Proof. unfold feeler_turn, same_disk. destruct b as [? ? ? ? ? ? [] ?]; simpl; by repeat case_match. Qed.

Lemma addr_turn_ok senders b : book_ok b → book_ok (addr_turn senders b).
Proof.
  intros [Ht Hn Ha Hf Hp]. unfold addr_turn. destruct (bk_addr b) eqn:Hb; [|  |by split; try rewrite Hb..].
  - split; try done. simpl. by destruct (bk_running b).
  - destruct (bk_news b) as [|[source payload] news] eqn:Hnews; [split; try done; simpl; [by rewrite Hnews|by destruct senders]|].
    apply Forall_cons in Hn as [Hm Hn].
    destruct (process_addresses_spec source payload _ Ht Hm) as (t' & -> & Ht' & _). by split.
Qed.

Lemma feeler_turn_ok now later ch io b :
  choice_ok ch → io.(io_tcp) ≠ Panic → book_ok b → book_ok (feeler_turn sha3_256 n proxied now later ch io b).
Proof using Hsha H1.
  intros Hch Hio [Ht Hn Ha Hf Hp]. unfold feeler_turn. destruct (bk_feeler b) eqn:Hb; [| | |by split; try rewrite Hb|done].
  - split; try done. simpl. by destruct (bk_managing b).
  - case_decide; [by split|]. destruct (select_inv _ ch.(ch_bucket) ch.(ch_hash) ch.(ch_clock) Ht) as ([r|] & -> & _ & Hr);
      split; try done. simpl. by apply Hr.
  - destruct (feeler_report_inv ch io r _ Ht Hf Hch Hio) as (t' & -> & Ht'). by split.
Qed.

Lemma bstep_ok b l states b' : book_ok b → blabel_ok l → bstep b l states b' → book_ok b'.
Proof using Hsha H1 Hfile laws.
  intros Hok Hl. destruct 1 as [senders b|now later ch io b|now later f b states b' Hft|source payload b|o b t Hop|b|b Hr].
  - by apply addr_turn_ok.
  - destruct Hl. by apply feeler_turn_ok.
  - destruct Hok as [Ht Hn Ha Hf Hp].
    destruct (flush_turn_spec _ _ _ _ _ _ Ht Hp Hft) as ((d & p & ->) & Hp' & _). by split.
  - destruct Hok. split; try done. simpl. apply Forall_app. split; [done|by apply Forall_singleton].
  - destruct Hok. destruct Hl as [Ho _]. destruct (table_inv_op _ o ok_table0 Ho) as (t' & Ht' & Hi).
    split; try done. simpl. congruence.
  - by destruct Hok.
  - by destruct Hok.
Qed.

(** *** Runs *)

Lemma start_book_ok given seeds p2p_port now d :
  map_Forall (λ _, bytes_ok) d → Forall socket_ok given → Forall ip_ok seeds → in_u 16 p2p_port →
  ∃ b, start_book dir file given seeds p2p_port now d = Ok b ∧ book_ok b ∧ b.(bk_disk) = d ∧
    (b.(bk_flush) = None ↔ given ≠ []).
Proof using laws.
  intros Hd Hg Hs Hp. destruct (initial_table_inv given seeds p2p_port (dir +:+ file) d Hd Hg Hs Hp) as (t & Ht & Hi).
  unfold start_book. rewrite Ht. simpl_outcome. eexists. split; [done|]. split_and!; [split; simpl; try done|done|].
  - by destruct (is_nil given).
  - by destruct given.
Qed.

Lemma brun_ok b0 ls ts ds b : book_ok b0 → brun b0 ls ts ds b → book_ok b.
Proof using Hsha H1 Hfile laws. intros Hok. induction 1; [done|by eapply bstep_ok]. Qed.

Lemma brun_table b0 ls ts ds b : brun b0 ls ts ds b → b.(bk_table) ∈ ts.
Proof. destruct 1; [|apply elem_of_app; right]; by apply list_elem_of_singleton. Qed.

(** Only the flush thread writes. *)
Lemma bstep_disk b l states b' :
  book_ok b → bstep b l states b' →
  ∀ s, s ∈ states ++ [b'.(bk_disk)] → s = b.(bk_disk) ∨ b.(bk_flush) ≠ None ∧
    (load s = load b.(bk_disk) ∨ load s = Ok (persisted b.(bk_table))).
Proof using Hfile laws.
  intros Hok Hst s Hs. destruct Hst as [senders b|now later ch io b|now later f b states b' Hft|source payload b|o b t Hop|b|b Hr];
    try (apply list_elem_of_singleton in Hs as ->; by left).
  - left. apply list_elem_of_singleton in Hs as ->. apply addr_turn_frame.
  - left. apply list_elem_of_singleton in Hs as ->. apply feeler_turn_frame.
  - destruct Hok as [Ht Hn Ha Hf Hp].
    destruct (flush_turn_spec _ _ _ _ _ _ Ht Hp Hft) as (_ & _ & Hd & _). by apply Hd.
Qed.

Lemma bstep_flush_none b l states b' :
  book_ok b → bstep b l states b' → b'.(bk_flush) = None ↔ b.(bk_flush) = None.
Proof using Hfile laws.
  intros Hok. destruct 1 as [senders b|now later ch io b|now later f b states b' Hft|source payload b|o b t Hop|b|b Hr]; try done.
  - by destruct (addr_turn_frame senders b) as (_ & -> & _).
  - by destruct (feeler_turn_frame now later ch io b) as (_ & -> & _).
  - destruct Hok as [Ht Hn Ha Hf Hp].
    by destruct (flush_turn_spec _ _ _ _ _ _ Ht Hp Hft) as (_ & _ & _ & _ & _ & ?).
Qed.

Lemma brun_disk b0 ls ts ds b :
  book_ok b0 → brun b0 ls ts ds b →
  (b.(bk_flush) = None ↔ b0.(bk_flush) = None) ∧
  ∀ s, s ∈ b.(bk_disk) :: ds → s = b0.(bk_disk) ∨ b0.(bk_flush) ≠ None ∧
    (load s = load b0.(bk_disk) ∨ ∃ t, t ∈ ts ∧ load s = Ok (persisted t)).
Proof using Hsha H1 Hfile laws.
  intros Hok. induction 1 as [|ls ts ds b l states b' Hr [IHn IH] Hl Hst].
  { split; [done|]. intros s [->| ->%list_elem_of_singleton]%elem_of_cons; by left. }
  pose proof (brun_ok _ _ _ _ _ Hok Hr) as Hb.
  pose proof (bstep_disk _ _ _ _ Hb Hst) as Hd. split; [by rewrite (bstep_flush_none _ _ _ _ Hb Hst)|].
  assert (∀ s, s ∈ b.(bk_disk) :: ds → s = b0.(bk_disk) ∨ b0.(bk_flush) ≠ None ∧
    (load s = load b0.(bk_disk) ∨ ∃ t, t ∈ ts ++ [b'.(bk_table)] ∧ load s = Ok (persisted t))) as Hold.
  { intros s [?|[? [?|(t & ? & ?)]]]%IH; [by left|by right; auto|right]. split; [done|]. right. exists t.
    split; [apply elem_of_app; by left|done]. }
  assert (∀ s, s ∈ states ++ [b'.(bk_disk)] → s = b0.(bk_disk) ∨ b0.(bk_flush) ≠ None ∧
    (load s = load b0.(bk_disk) ∨ ∃ t, t ∈ ts ++ [b'.(bk_table)] ∧ load s = Ok (persisted t))) as Hnew.
  { intros s [->|[Hn [Heq|Heq]]]%Hd; [apply Hold; by constructor| |].
    - destruct (Hold b.(bk_disk)) as [Hb0|[? Hx]]; [by constructor| |].
      + right. rewrite <- IHn. split; [done|]. left. by rewrite Heq, Hb0.
      + right. split; [done|]. by rewrite Heq.
    - right. rewrite <- IHn. split; [done|]. right. exists b.(bk_table).
      split; [apply elem_of_app; left; by eapply brun_table|done]. }
  intros s [->|[Hs|Hs]%elem_of_app]%elem_of_cons.
  - apply Hnew, elem_of_app. right. by apply list_elem_of_singleton.
  - apply Hold. by constructor.
  - apply Hnew, elem_of_app. by left.
Qed.

(** *** The end of the threads *)

Definition stopped (b : book) : Prop := b.(bk_running) = false ∧ b.(bk_managing) = false.

Lemma bstep_stopped b l states b' : bstep b l states b' → stopped b → stopped b'.
Proof.
  unfold stopped. intros Hst [Hr Hm].
  destruct Hst as [senders b|now later ch io b|now later f b states b' Hft|source payload b|o b t Hop|b|b _]; try done; simpl.
  - by destruct (addr_turn_frame senders b) as (_ & _ & -> & ->).
  - by destruct (feeler_turn_frame now later ch io b) as (_ & _ & -> & ->).
  - revert Hft. unfold flush_turn, flush_peers. rewrite Hm. destruct (table_save _ _ _ _ _) as [[]|]; simpl;
      by repeat case_match; intros; simplify_eq.
Qed.

(** A turn brings its thread nearer to the end, and no other step takes it away. *)
Lemma bstep_left b l states b' :
  book_ok b → stopped b → bstep b l states b' →
  (addr_left b'.(bk_addr) ≤ addr_left b.(bk_addr) - turns is_addr [l] ∧
   feeler_left b'.(bk_feeler) ≤ feeler_left b.(bk_feeler) - turns is_feeler [l] ∧
   flush_left b'.(bk_flush) ≤ flush_left b.(bk_flush) - turns is_flush [l])%nat.
Proof using Hfile laws.
  intros [Ht Hn Ha Hf Hp] [Hr Hm].
  destruct 1 as [senders b|now later ch io b|now later f b states b' Hft|source payload b|o b t Hop|b|b _];
    unfold turns; simpl; try lia.
  - unfold addr_turn. destruct b as [? ? nw ? ? ad fe fl]; simpl in *; subst. destruct ad; simpl; try lia.
    destruct nw as [|[]]; simpl; [destruct senders; simpl; lia|]. destruct (process_addresses _ _ _); simpl; lia.
  - unfold feeler_turn. destruct b as [? ? ? ? ? ad fe fl]; simpl in *; subst.
    destruct fe; simpl; try lia; repeat case_match; simpl; lia.
  - destruct (flush_turn_spec _ _ _ _ _ _ Ht Hp Hft) as ((d & p & ->) & _ & _ & Hle & _). specialize (Hle Hm).
    simpl in *. lia.
Qed.

Lemma turns_app own (ls ls' : list blabel) : turns own (ls ++ ls') = (turns own ls + turns own ls')%nat.
Proof. unfold turns. by rewrite filter_app, length_app. Qed.

Lemma brun_left b0 ls ts ds b :
  book_ok b0 → stopped b0 → brun b0 ls ts ds b → stopped b ∧
  (addr_left b.(bk_addr) ≤ addr_left b0.(bk_addr) - turns is_addr ls ∧
   feeler_left b.(bk_feeler) ≤ feeler_left b0.(bk_feeler) - turns is_feeler ls ∧
   flush_left b.(bk_flush) ≤ flush_left b0.(bk_flush) - turns is_flush ls)%nat.
Proof using Hsha H1 Hfile laws.
  intros Hok Hs. induction 1 as [|ls ts ds b l states b' Hr [IHs IH] Hl Hst]; [split; [done|unfold turns; simpl; lia]|].
  pose proof (bstep_left _ _ _ _ (brun_ok _ _ _ _ _ Hok Hr) IHs Hst). split; [by eapply bstep_stopped|].
  rewrite !turns_app. lia.
Qed.

(** What the last save leaves is there in the end. *)
Lemma brun_last b0 ls ts ds b :
  book_ok b0 → b0.(bk_flush) ≠ Some PStopped → brun b0 ls ts ds b → Forall no_fault ls →
  b.(bk_flush) = Some PStopped → ∃ t, t ∈ ts ∧ load b.(bk_disk) = Ok (persisted t).
Proof using Hsha H1 Hfile laws.
  intros Hok Hp. induction 1 as [|ls ts ds b l states b' Hr IH Hl Hst]; [done|].
  intros [Hnf Hf]%Forall_app Hend. pose proof (brun_ok _ _ _ _ _ Hok Hr) as Hb.
  assert (b.(bk_flush) = Some PStopped → b'.(bk_disk) = b.(bk_disk) →
    ∃ t, t ∈ ts ++ [b'.(bk_table)] ∧ load b'.(bk_disk) = Ok (persisted t)) as Hkeep.
  { intros Hbp ->. destruct (IH Hnf Hbp) as (t & ? & ?). exists t. split; [apply elem_of_app; by left|done]. }
  destruct Hst as [senders b|now later ch io b|now later f b states b' Hft|source payload b|o b t Hop|b|b _];
    try by apply Hkeep.
  - destruct (addr_turn_frame senders b) as (Hd & Hpf & _). rewrite Hpf in Hend. by apply Hkeep.
  - destruct (feeler_turn_frame now later ch io b) as (Hd & Hpf & _). rewrite Hpf in Hend. by apply Hkeep.
  - destruct Hb as [Ht _ _ _ Hbp].
    destruct (flush_turn_spec _ _ _ _ _ _ Ht Hbp Hft) as (_ & _ & _ & _ & Hlast & _).
    destruct (Hlast Hend) as [[??]|Hd]; [by apply Hkeep|].
    exists b.(bk_table). split; [apply elem_of_app; left; by eapply brun_table|].
    apply Hd. by apply Forall_cons in Hf as [Hf _].
Qed.

(** *** Theorems *)

(** C31: The address book survives every way of stopping: whatever bytes the peers
    file holds, the node starts with a table, no thread around it panics, and
    in every state of the disk along a run the file loads as it did at the
    start or as a table the node held; with --connect it is never written. *)
Theorem restart_finds_peers given seeds p2p_port now d :
  map_Forall (λ _, bytes_ok) d → Forall socket_ok given → Forall ip_ok seeds → in_u 16 p2p_port →
  ∃ b0, start_book dir file given seeds p2p_port now d = Ok b0 ∧
    ∀ ls ts ds b, brun b0 ls ts ds b →
      b.(bk_addr) ≠ APanicked ∧ b.(bk_feeler) ≠ FPanicked ∧ b.(bk_flush) ≠ Some PPanicked ∧
      ∀ s, s ∈ ds →
        (given ≠ [] → s = d) ∧
        (load s = load d ∨ ∃ t, t ∈ ts ∧ load s = Ok (persisted t)).
Proof using Hsha H1 Hfile laws.
  intros Hd Hg Hs Hp. destruct (start_book_ok given seeds p2p_port now d Hd Hg Hs Hp) as (b0 & Hb & Hok & Hdisk & Hfl).
  exists b0. split; [done|]. intros ls ts ds b Hr. destruct (brun_ok _ _ _ _ _ Hok Hr) as [_ _ Ha Hf Hfp].
  split_and!; [done|by destruct (bk_feeler b)|done|].
  intros s Hin. destruct (brun_disk _ _ _ _ _ Hok Hr) as [_ Hds].
  destruct (Hds s) as [->|[Hn Hl]]; [by constructor|split; auto; left; by rewrite Hdisk|].
  rewrite Hdisk in Hl. split; [|done]. intros Hne. by apply Hfl in Hne.
Qed.

(** C32: A node that is shut down keeps what it learnt: from the moment both flags
    are cleared, two turns of the address thread and three of the feeler end
    them, in whatever order they and the other threads run. In a node started
    without --connect there is a flush thread, and three turns end it if it has
    not ended yet; as long as no disk operation fails after the flags were
    cleared, the file then loads as a table held after that moment. With
    --connect there is none, and nothing is saved. *)
Theorem shutdown_saves_peers given seeds p2p_port now d b0 ls1 ts1 ds1 b1 ls2 ts2 ds2 b2 :
  map_Forall (λ _, bytes_ok) d → Forall socket_ok given → Forall ip_ok seeds → in_u 16 p2p_port →
  start_book dir file given seeds p2p_port now d = Ok b0 → brun b0 ls1 ts1 ds1 b1 →
  stopped b1 → brun b1 ls2 ts2 ds2 b2 →
  (2 ≤ turns is_addr ls2)%nat → (3 ≤ turns is_feeler ls2)%nat → (3 ≤ turns is_flush ls2)%nat →
  b2.(bk_addr) = AStopped ∧ b2.(bk_feeler) = FStopped ∧
  (given ≠ [] → b2.(bk_flush) = None) ∧
  (given = [] → b2.(bk_flush) = Some PStopped ∧
     (b1.(bk_flush) ≠ Some PStopped → Forall no_fault ls2 →
        ∃ t, t ∈ ts2 ∧ load b2.(bk_disk) = Ok (persisted t))).
Proof using Hsha H1 Hfile laws.
  intros Hd Hg Hs Hp Hstart Hr1 Hstop Hr2 Hta Htf Htp.
  destruct (start_book_ok given seeds p2p_port now d Hd Hg Hs Hp) as (b & Hb & Hok0 & _ & Hn).
  rewrite Hstart in Hb. injection Hb as <-.
  pose proof (brun_ok _ _ _ _ _ Hok0 Hr1) as Hok1. pose proof (brun_ok _ _ _ _ _ Hok1 Hr2) as [_ _ Ha Hf Hpp].
  destruct (brun_left _ _ _ _ _ Hok1 Hstop Hr2) as [_ (Hla & Hlf & Hlp)].
  assert (b2.(bk_flush) = None ↔ given ≠ []) as Hnone.
  { destruct (brun_disk _ _ _ _ _ Hok0 Hr1) as [Hn1 _], (brun_disk _ _ _ _ _ Hok1 Hr2) as [Hn2 _].
    by rewrite Hn2, Hn1, Hn. }
  split_and!; [| |by apply Hnone|].
  - destruct (bk_addr b2); try done; simpl in Hla; destruct (bk_addr b1); simpl in Hla; lia.
  - destruct (bk_feeler b2); try done; simpl in Hlf; destruct (bk_feeler b1); simpl in Hlf; lia.
  - intros Hnil. assert (b2.(bk_flush) = Some PStopped) as Hend.
    { destruct (bk_flush b2) as [[]|]; try done; [..|by destruct Hnone as [[] _]];
        simpl in Hlp; destruct (bk_flush b1) as [[]|]; simpl in Hlp; lia. }
    split; [done|]. intros Hfl Hnf. by eapply brun_last.
Qed.
End Properties.

(** ** As threads to be joined *)

Inductive book_thread := ThAddr | ThFeeler | ThFlush.
#[global] Instance book_thread_eq_dec : EqDecision book_thread.
Proof. solve_decision. Defined.

Section Join.
Context `{WireLaws} `{DefaultHasher} `{AddrCodec} {laws : AddrCodecLaws} (sha3_256 : list Z → list Z).
Context (Hsha : ∀ l, array_ok 32 (sha3_256 l)).
Context (n : Network) (proxied : bool) (dir file : string) (Hfile : file ≠ "peers.tmp").

(** The flags are the main thread's. *)
Definition of_book (l : blabel) : bool := match l with BStop | BStopManager => false | _ => true end.

Lemma bstep_flags b l states b' :
  bstep sha3_256 n proxied dir file b l states b' → book_ok b → of_book l = true →
  b'.(bk_running) = b.(bk_running) ∧ b'.(bk_managing) = b.(bk_managing).
Proof using Hfile laws.
  destruct 1 as [senders b|now later ch io b|now later f b states b' Hft|source payload b|o b t Hop|b|b _]; try done; intros Hok _.
  - apply addr_turn_frame.
  - apply feeler_turn_frame.
  - destruct Hok as [Ht _ _ _ Hp]. by destruct (flush_turn_spec _ _ Hfile _ _ _ _ _ _ Ht Hp Hft) as ((d & p & ->) & _).
Qed.

#[global] Instance book_joinable : Joinable book blabel book_thread := {|
  j_step b l b' := blabel_ok l ∧ of_book l = true ∧ ∃ states, bstep sha3_256 n proxied dir file b l states b';
  j_ok := book_ok;
  j_halted := stopped;
  j_threads b := [ThAddr; ThFeeler] ++ match b.(bk_flush) with Some _ => [ThFlush] | None => [] end;
  j_left b t :=
    match t with
    | ThAddr => addr_left b.(bk_addr)
    | ThFeeler => feeler_left b.(bk_feeler)
    | ThFlush => flush_left b.(bk_flush)
    end;
  j_ended b t :=
    match t with
    | ThAddr => match b.(bk_addr) with AStopped => true | _ => false end
    | ThFeeler => match b.(bk_feeler) with FStopped => true | _ => false end
    | ThFlush => match b.(bk_flush) with Some PStopped => true | _ => false end
    end;
  j_turn l :=
    match l with
    | BAddr _ => Some ThAddr
    | BFeeler _ _ _ _ => Some ThFeeler
    | BFlush _ _ _ => Some ThFlush
    | _ => None
    end;
|}.

#[global] Instance book_joinable_laws : JoinableLaws book blabel book_thread (H:=book_joinable).
Proof using Hsha Hfile H1 laws.
  split.
  - intros b l b' (Hl & _ & states & Hst) Hok. by eapply bstep_ok.
  - intros b l b' (Hl & _ & states & Hst) Hs. by eapply bstep_stopped.
  - intros b l b' (Hl & _ & states & Hst) Hok. simpl. do 2 f_equal.
    pose proof (bstep_flush_none _ _ _ _ _ Hfile _ _ _ _ Hok Hst) as Hn.
    destruct (bk_flush b'), (bk_flush b); naive_solver.
  - intros b. simpl. destruct (bk_flush b); apply (bool_decide_unpack _); done.
  - intros b l b' t (Hl & _ & states & Hst) Hok Hs _.
    destruct (bstep_left _ _ _ _ _ Hfile _ _ _ _ Hok Hs Hst) as (Ha & Hf & Hp).
    unfold counts. destruct t; simpl; destruct l; simpl in *; try done; lia.
  - intros b t Hok Hs _ Hl. destruct t; simpl in *.
    + exists (BAddr true). eexists. split; [done|]. split_and!; [done|done|]. eexists. constructor.
    + exists (BFeeler 0 0 (mk_choice 0 (λ _, 0) (λ _, 0) 0 0) (mk_io (Err TimedOut) (λ _, None) (λ _, None) 0 0 0)).
      eexists. split; [done|]. split_and!; [|done|eexists; constructor]. by repeat split.
    + exists (BFlush 0 0 (mk_faults None None None None)).
      destruct (flush_turn dir file 0 0 (mk_faults None None None None) b) as [states b'] eqn:Hft.
      exists b'. split; [done|]. split_and!; [done|done|]. exists states. by constructor.
  - intros b t [_ _ Ha Hf Hp] Ht Hl. destruct t; simpl in *.
    + destruct (bk_addr b); simpl in *; try lia; done.
    + destruct (bk_feeler b); simpl in *; try lia; done.
    + destruct (bk_flush b) as [[]|]; simpl in *; try lia; try done. set_solver.
Qed.
End Join.

(** ** Concrete runs *)

Module Witness.
Import Messages.Demo Addr.Demo Connection.Witness Socks5.Witness AddrTable.Witness Outbound.Witness.
#[local] Existing Instance demo_wire.
#[local] Existing Instance demo_wire_laws.

Abbreviation bstep := (bstep demo_sha Bitcoin_ false "/node/" "peers.bin").
Abbreviation brun := (brun demo_sha Bitcoin_ false "/node/" "peers.bin").

Definition exec (l : blabel) (b : book) : option (list fs * book) :=
  match l with
  | BAddr senders => Some ([], addr_turn senders b)
  | BFeeler now later ch io => Some ([], feeler_turn demo_sha Bitcoin_ false now later ch io b)
  | BFlush now later f => Some (flush_turn "/node/" "peers.bin" now later f b)
  | BNews source payload => Some ([], with_news (b.(bk_news) ++ [(source, payload)]) b)
  | BReport o => (λ t, ([], with_table t b)) <$> run_op TABLE_WIDTH TABLE_SLOT MAX_BUCKETS o b.(bk_table)
  | BStop => Some ([], with_flags false b.(bk_managing) b)
  | BStopManager => if b.(bk_running) then None else Some ([], with_flags false false b)
  end.

Lemma bexec_step l b states b' : exec l b = Some (states, b') → bstep b l states b'.
Proof.
  destruct l; simpl; try (intros [= <- <-]; by constructor).
  - intros [= Heq]. by constructor.
  - intros (t & Ht & [= -> ->])%fmap_Some. by constructor.
  - destruct (bk_running b) eqn:Hr; [done|]. intros [= <- <-]. by constructor.
Qed.

Fixpoint exec_all (ls : list blabel) (ts : list Table) (ds : list fs) (b : book)
    : option (list Table * list fs * book) :=
  match ls with
  | [] => Some (ts, ds, b)
  | l :: ls => '(states, b) ← exec l b; exec_all ls (ts ++ [b.(bk_table)]) (ds ++ states) b
  end.

Lemma exec_run b0 ls0 ls ts ds b ts' ds' b' :
  brun b0 ls0 ts ds b → Forall blabel_ok ls → exec_all ls ts ds b = Some (ts', ds', b') →
  brun b0 (ls0 ++ ls) ts' ds' b'.
Proof.
  revert ls0 ts ds b. induction ls as [|l ls IH]; intros ls0 ts ds b Hr Hok; cbn [exec_all].
  { intros [= <- <- <-]. by rewrite app_nil_r. }
  apply Forall_cons in Hok as [Hl Hok]. intros ([states b1] & Hst%bexec_step & Hrest)%bind_Some.
  replace (ls0 ++ l :: ls) with ((ls0 ++ [l]) ++ ls) by (by rewrite <- app_assoc).
  eapply IH; [by eapply brun_step|done|exact Hrest].
Qed.

Definition works : faults := mk_faults None None None None.
Definition net : network_io := mk_io (Err TimedOut) (λ _, None) (λ _, None) 0 3 77.

(** The node starts without a file, hears of an address, opens a feeler, writes
    the table after ten minutes and is stopped. *)
Definition seeds : list IpAddr := [V4 [10; 0; 0; 1]].
Definition running_part : list blabel :=
  [BAddr true; BNews (Ipv4 [9; 9; 9; 9]) news; BAddr true;
   BFeeler 0 0 some_choice net; BFeeler (from_secs 31) 0 some_choice net; BFeeler 0 (from_secs 32) some_choice net;
   BFlush 0 0 works; BFlush (from_secs 601) (from_secs 602) works; BAddr true; BStop; BStopManager].
Definition stopping_part : list blabel :=
  [BAddr true; BFlush 0 0 works; BAddr true; BFeeler 0 0 some_choice net; BFeeler 0 0 some_choice net;
   BFlush 0 0 works; BFeeler 0 0 some_choice net; BFlush 0 0 works].

Definition book0 : book := Eval vm_compute in
  match start_book "/node/" "peers.bin" [] seeds 8333 0 ∅ with Ok b => b | _ => mk_book [] ∅ [] true true ALoop FStopped None end.
(** The tables, the disks and the last state of a run. *)
Definition result (ls : list blabel) (b : book) : list Table * list fs * book :=
  default ([], [], b) (exec_all ls [b.(bk_table)] [b.(bk_disk)] b).
Definition runs (ls : list blabel) (b : book) : bool :=
  match exec_all ls [b.(bk_table)] [b.(bk_disk)] b with Some _ => true | None => false end.

Lemma result_run ls b :
  Forall blabel_ok ls → runs ls b = true → brun b ls (result ls b).1.1 (result ls b).1.2 (result ls b).2.
Proof.
  intros Hok. unfold runs, result. destruct (exec_all ls _ _ b) as [[[ts ds] b']|] eqn:He; [|done]. intros _. simpl.
  by apply (exec_run b [] ls _ _ _ _ _ _ (brun_start _ _ _ _ _ b) Hok He).
Qed.

Definition book1 : book := (result running_part book0).2.
Definition book2 : book := (result stopping_part book1).2.

Lemma labels_ok : Forall blabel_ok running_part ∧ Forall blabel_ok stopping_part.
Proof.
  assert (choice_ok some_choice) as Hc by (split; apply (bool_decide_unpack _); by vm_compute).
  assert (Forall message_ok news) as Hn by (repeat constructor; by apply (bool_decide_unpack _); vm_compute).
  split; repeat (apply Forall_cons_2; [by repeat split|]); apply Forall_nil_2.
Qed.

Lemma run1 : brun book0 running_part (result running_part book0).1.1 (result running_part book0).1.2 book1.
Proof. apply result_run; [apply labels_ok|by vm_compute]. Qed.

Lemma run2 : brun book1 stopping_part (result stopping_part book1).1.1 (result stopping_part book1).1.2 book2.
Proof. apply result_run; [apply labels_ok|by vm_compute]. Qed.

Lemma start_book0 : start_book "/node/" "peers.bin" [] seeds 8333 0 ∅ = Ok book0.
Proof. by vm_compute. Qed.

(** More than sixty states of the disk are gone through. *)
Lemma restart_peers_witness :
  Nat.ltb 60 (length (result running_part book0).1.2) = true ∧
  ∀ s, s ∈ (result running_part book0).1.2 →
    table_load "/node/peers.bin" s = table_load "/node/peers.bin" ∅ ∨
    ∃ t, t ∈ (result running_part book0).1.1 ∧ table_load "/node/peers.bin" s = Ok (persisted t).
Proof.
  destruct (restart_finds_peers demo_sha demo_sha_ok Bitcoin_ false "/node/" "peers.bin" ltac:(done) [] seeds 8333 0 ∅)
    as (b0 & Hb & Hrun); [done|constructor|by repeat constructor|done|].
  assert (b0 = book0) as -> by (pose proof start_book0; congruence).
  split; [vm_compute; reflexivity|]. intros s Hs. destruct (Hrun _ _ _ _ run1) as (_ & _ & _ & Hd). by apply Hd.
Defined.

Lemma shutdown_peers_witness :
  book2.(bk_flush) = Some PStopped ∧
  ∃ t, t ∈ (result stopping_part book1).1.1 ∧ table_load "/node/peers.bin" book2.(bk_disk) = Ok (persisted t).
Proof.
  assert (stopped book1) as Hst by (split; by vm_compute).
  destruct (shutdown_saves_peers demo_sha demo_sha_ok Bitcoin_ false "/node/" "peers.bin" ltac:(done) [] seeds 8333 0 ∅ book0
    _ _ _ book1 _ _ _ book2 (map_Forall_empty _) (Forall_nil_2 _) ltac:(by repeat constructor) ltac:(done) start_book0 run1 Hst run2)
    as (_ & _ & _ & Hp).
  - vm_compute. lia.
  - vm_compute. lia.
  - vm_compute. lia.
  - destruct (Hp eq_refl) as [He Ht]. split; [exact He|]. apply Ht; [by vm_compute|by repeat constructor].
Defined.
End Witness.
