(* ===== verification/Process.v ===== *)
(** * The node as a process: start, run, shutdown, exit (src/bin/node.rs)

    [run] starts every thread of the node, waits for the shutdown signal, clears
    the two flags the threads look at and joins the threads one after the other.
    The threads are the groups of [BlockThread], [Book], [Scan] and [Service]
    side by side; each of them takes what the others do to it as steps of its
    surroundings, so a run of the node is a run of each group. *)

From S2P Require Import Prelude Joinable Shutdown Fs Addr AddressBook AddrTable AddrIo Messages Handshake Connection.
From S2P Require Import Kernel Download Peer PeerSystem Manager BlockThread Outbound Book.
From S2P Require Import Wallet WalletStore WalletTyped KeysFile Sending Service Scan.

(** The threads of the node. *)
Abbreviation node_thread := (net_thread + (book_thread + (() + ())))%type.
Abbreviation peer_ i := (inl (ThPeer i) : node_thread).
Abbreviation block_ := (inl ThBlock : node_thread).
Abbreviation addr_ := (inr (inl ThAddr) : node_thread).
Abbreviation feeler_ := (inr (inl ThFeeler) : node_thread).
Abbreviation flush_ := (inr (inl ThFlush) : node_thread).
Abbreviation scan_ := (inr (inr (inl ())) : node_thread).
Abbreviation broadcast_ := (inr (inr (inr ())) : node_thread).

(** Where the main thread is in [run]: in [recv], before [Context::interrupt], in
    [PeerManager::stop], joining, returned; or in a panic. *)
Inductive main_thread :=
| Waiting
| Interrupting
| Stopping
| Joining (ts : list node_thread)
| Exited
| Failed.

Section Process.
Context `{BlockData} `{!Wire} `{DefaultHasher} `{AddrCodec} `{Scalars} `{Spending} `{!KeyBytes} {E : Type}.
Context (sha3_256 : list Z → list Z) (n : Handshake.Network) (proxied : bool) (dir file : string).
Variable store : WalletStore.

Abbreviation node_state := (net Chainman KBlock * (book * (Scan.node * payments)))%type.
Abbreviation node_label := (nlabel (E:=E) + (blabel + (Scan.label + pay_label)))%type.

Definition node_joinable : Joinable node_state node_label node_thread :=
  joinable_pair (H:=net_joinable proxied) (H0:=joinable_pair (H:=book_joinable sha3_256 n proxied dir file)
    (H0:=joinable_pair (H:=scan_joinable store) (H0:=payments_joinable))).

#[local] Existing Instance node_joinable.

Record process := mk_process { p_main : main_thread; p_node : node_state }.

(** ** The main thread *)

(** [running.store(false)]. *)
Definition clear_running (s : node_state) : node_state :=
  let '(nt, (b, (nd, pay))) := s in
  (mk_net false nt.(n_block) nt.(n_manager),
   (with_flags false b.(bk_managing) b, (stop_running nd, mk_payments false pay.(pay_thread) pay.(pay_service)))).

(** The next operation of [PeerManager::stop]; its flag is the feeler's and the
    flush thread's too. *)
Definition stop_peers (s : node_state) : node_state :=
  let '(nt, (b, rest)) := s in
  (mk_net nt.(n_running) nt.(n_block) (stop_turn nt.(n_manager)), (with_flags b.(bk_running) false b, rest)).
Definition peers_stopped (s : node_state) : bool :=
  match s.1.(n_manager).(stop_at) with
  | Some k => bool_decide (length s.1.(n_manager).(peer_writers) ≤ k)%nat
  | None => false
  end.

(** The order of the joins: the four threads of [run], then those of the manager. *)
Definition join_order (s : node_state) : list node_thread :=
  [addr_; block_; scan_; broadcast_] ++
  ((λ i, peer_ i) <$> seq 0 (length s.1.(n_manager).(peer_threads))) ++
  [feeler_] ++ match s.2.1.(bk_flush) with Some _ => [flush_] | None => [] end.

(** [join().unwrap()] panics with the thread; the manager ignores it. *)
Definition unwrapped (t : node_thread) : bool :=
  match t with
  | inl ThBlock | inr (inl ThAddr) | inr (inr _) => true
  | _ => false
  end.

(** A signal has arrived. *)
Definition signalled (s : node_state) : bool :=
  bool_decide (0 < s.1.(n_manager).(Manager.fatal).(signals) + s.2.2.1.(nd_fatal).(signals))%nat.

(** [None] while the thread is blocked or has ended; [interrupted] is the result
    of [Context::interrupt]. *)
Definition main_turn (interrupted : bool) (p : process) : option process :=
  let s := p.(p_node) in
  match p.(p_main) with
  | Waiting => if signalled s then Some (mk_process Interrupting (clear_running s)) else None
  | Interrupting => Some (mk_process (if interrupted then Stopping else Failed) s)
  | Stopping =>
      Some (if peers_stopped s then mk_process (Joining (join_order s)) s
            else mk_process Stopping (stop_peers s))
  | Joining (t :: ts) =>
      if decide (j_left s t = 0%nat) then
        Some (mk_process (if unwrapped t && negb (j_ended s t) then Failed else Joining ts) s)
      else None
  | Joining [] => Some (mk_process Exited s)
  | Exited | Failed => None
  end.

(** ** Runs *)

Inductive plabel :=
| PMain (interrupted : bool)
| PThread (l : node_label).

(** A step and whether it takes one of the turns that are left. *)
Inductive pstep : process → plabel → nat → process → Prop :=
| p_main_turn i p p' : main_turn i p = Some p' → pstep p (PMain i) 1 p'
| p_thread_turn l p s :
    j_step p.(p_node) l s → pstep p (PThread l) (work p.(p_node) l) (mk_process p.(p_main) s).

Inductive prun : process → list plabel → nat → process → Prop :=
| prun_nil p : prun p [] 0 p
| prun_cons p l k p1 ls m p2 : pstep p l k p1 → prun p1 ls m p2 → prun p (l :: ls) (k + m) p2.

(** What [run] starts with; as it keeps a sender of the signal itself, [recv] does
    not fail. *)
Definition start_process (max_peers : option nat) (now : Duration) (t : Table) (ns : NodeState Chainman KBlock)
    (b : book) (nd : Scan.node) : process :=
  mk_process Waiting
    (mk_net true (KLoop now) (start max_peers t ns (fatal_new true)),
     (b, (nd, mk_payments true TLoop (mk_service nd.(nd_wallet) [] None [] true)))).

(** The turns left to the process once it joins its threads. *)
Definition p_left (p : process) : nat :=
  match p.(p_main) with
  | Joining ts => total p.(p_node) + length ts + 1
  | _ => total p.(p_node)
  end.
End Process.

Section Facts.
Context `{KernelLaws} `{!BlockData} `{!BlockDataLaws} `{!Wire} `{!WireLaws} `{DefaultHasher}.
Context `{AddrCodec} {laws : AddrCodecLaws} `{Scalars} `{Spending} `{!KeyBytes}.
Context `{!ScanScalars} `{!SilentPaymentsLaws} `{!Inhabited Chainman} {E : Type}.
Context (sha3_256 : list Z → list Z) (Hsha : ∀ l, array_ok 32 (sha3_256 l)).
Context (n : Handshake.Network) (proxied : bool) (dir file : string) (Hfile : file ≠ "peers.tmp").
Variable store : WalletStore.

Abbreviation node_state := (net Chainman KBlock * (book * (Scan.node * payments)))%type.
Abbreviation node_label := (nlabel (E:=E) + (blabel + (Scan.label + pay_label)))%type.
Abbreviation process := (process (H:=H) (H0:=H0)).
#[local] Hint Extern 0 (Joinable (net _ _ * _) _ _) =>
  exact (node_joinable (E:=E) sha3_256 n proxied dir file store) : typeclass_instances.
Abbreviation pstep := (pstep (E:=E) sha3_256 n proxied dir file store).
Abbreviation prun := (prun (E:=E) sha3_256 n proxied dir file store).
Abbreviation main_turn := (main_turn (E:=E) sha3_256 n proxied dir file store).
Abbreviation p_left := (p_left (E:=E) sha3_256 n proxied dir file store).

#[local] Instance joinable_laws : JoinableLaws node_state node_label node_thread.
Proof using Hsha Hfile All.
  apply (joinable_pair_laws (H0:=net_joinable_laws proxied)
    (H2:=joinable_pair_laws (H0:=book_joinable_laws sha3_256 Hsha n proxied dir file Hfile)
      (H2:=joinable_pair_laws (H0:=scan_joinable_laws store) (H2:=payments_joinable_laws)))).
Qed.

(** ** Flags *)

Definition cleared (s : node_state) : Prop :=
  s.1.(n_running) = false ∧ s.2.1.(bk_running) = false ∧
  s.2.2.1.(nd_running) = false ∧ s.2.2.2.(pay_running) = false.
(** The manager and the threads around the table look at one flag. *)
Definition agree (s : node_state) : Prop := s.2.1.(bk_managing) = s.1.(n_manager).(Manager.running).

Lemma halted_cleared s :
  agree s → cleared s → s.1.(n_manager).(Manager.running) = false → j_halted s.
Proof. destruct s as [nt [b [nd pay]]]. unfold agree, cleared, stopped. simpl. intros ? (? & ? & ? & ?) ?. repeat split; simpl in *; congruence. Qed.

Lemma step_flags s l s' :
  j_step s l s' → j_ok s → (cleared s → cleared s') ∧ (agree s → agree s').
Proof using Hfile laws H1.
  destruct s as [nt [b [nd pay]]], s' as [nt' [b' [nd' pay']]]. unfold cleared, agree.
  destruct l as [l|[l|[l|l]]]; simpl.
  - intros [Hst [= -> -> ->]] _. destruct Hst as [nt l m Hst Ho Hl|nt now order t m Hit Ht]; simpl.
    + split; [done|]. intros ->. symmetry. destruct Hst as [s i inp t t' s' _ _ Ht| | | | |]; try done.
      by destruct (peer_turn_frame _ _ _ _ _ _ _ Ht) as [? _].
    + split; [done|]. intros ->. symmetry. by destruct (block_turn_frame _ _ _ _ _ _ _ Ht) as [? _].
  - intros [[(_ & Hl & states & Hst) [= -> ->]] ->] (_ & Hb & _).
    destruct (bstep_flags _ _ _ _ _ Hfile _ _ _ _ Hst Hb Hl) as [-> ->]. done.
  - intros [[[(_ & _ & states & Hst) ->] ->] ->] _. split; [|done].
    intros (? & ? & Hr & ?). split_and!; try done. by eapply running_stays.
  - intros [[[Hst ->] ->] ->] _. split; [|done]. intros (? & ? & ? & Hr). split_and!; try done.
    destruct Hst as [senders taken p|]; [|done]. unfold broadcast_turn. by repeat case_match.
Qed.

(** ** The invariant of the process *)

Lemma join_order_threads s t : t ∈ join_order s ↔ t ∈ j_threads s.
Proof.
  destruct s as [nt [b [nd pay]]]. unfold join_order. simpl.
  destruct t as [[i|]|[[| |]|[[]|[]]]]; destruct (bk_flush b); set_solver.
Qed.

Definition phase_ok (p : process) : Prop :=
  let s := p.(p_node) in
  match p.(p_main) with
  | Interrupting | Stopping => cleared s
  | Joining ts => j_halted s ∧ (∀ t, t ∈ ts → t ∈ j_threads s) ∧ ∀ t, t ∈ j_threads s → t ∉ ts → j_left s t = 0%nat
  | Exited => j_halted s ∧ ∀ t, t ∈ j_threads s → j_left s t = 0%nat
  | Waiting | Failed => True
  end.
Definition process_ok (p : process) : Prop := j_ok p.(p_node) ∧ agree p.(p_node) ∧ phase_ok p.

Lemma thread_step_ok l p s :
  process_ok p → j_step p.(p_node) l s → process_ok (mk_process p.(p_main) s).
Proof using Hsha Hfile All.
  intros (Hok & Ha & Hp) Hst. destruct (step_flags _ _ _ Hst Hok) as [Hc Ha'].
  split_and!; [by eapply j_ok_step|by apply Ha'|].
  assert (∀ t, t ∈ j_threads s → j_halted p.(p_node) → j_left p.(p_node) t = 0%nat → j_left s t = 0%nat) as Hz.
  { intros t Ht Hh Hl. rewrite (j_threads_step _ _ _ Hst Hok) in Ht.
    pose proof (j_left_step _ _ _ _ Hst Hok Hh Ht). lia. }
  unfold phase_ok in *. destruct p as [[| | |ts| |] s0]; cbn [p_main p_node] in *; try done; try by apply Hc.
  - destruct Hp as (Hh & Hin & Hl). split_and!; [by eapply (j_halted_step _ _ _ Hst)| |].
    + intros t Ht. rewrite (j_threads_step _ _ _ Hst Hok). by apply Hin.
    + intros t Ht Hn. apply Hz; [done|done|]. apply Hl; [|done]. by rewrite <- (j_threads_step _ _ _ Hst Hok).
  - destruct Hp as [Hh Hl]. split; [by eapply (j_halted_step _ _ _ Hst)|].
    intros t Ht. apply Hz; [done|done|]. apply Hl. by rewrite <- (j_threads_step _ _ _ Hst Hok).
Qed.

Lemma clear_running_ok s : j_ok s → agree s → j_ok (clear_running s) ∧ agree (clear_running s) ∧ cleared (clear_running s).
Proof.
  destruct s as [nt [b [nd pay]]]. intros (Hn & [? ? ? ? ?] & [Hfit (ws & bound & Hok)] & Hpay) Ha.
  split; [|done]. split; [done|]. split; [by split|]. split; [|done].
  split; [done|]. exists ws, bound. eapply node_ok_same; [exact Hok|..]; simpl; auto. apply (ok_listening _ _ _ _ Hok).
Qed.

Lemma stop_peers_ok s : j_ok s → cleared s → j_ok (stop_peers s) ∧ agree (stop_peers s) ∧ cleared (stop_peers s).
Proof.
  destruct s as [nt [b [nd pay]]]. intros (Hn & [? ? ? ? ?] & Hrest) Hc. split; [split; [|split; [by split|done]]|split; [|done]].
  - eapply reached_step; [exact Hn|constructor|done].
  - destruct (reached_stop _ _ Hn) as [_ [Hr _]]. unfold agree. simpl in *. unfold stop_turn.
    destruct (stop_at (n_manager nt)) as [k|]; [|reflexivity]. case_decide; [reflexivity|].
    destruct (running (n_manager nt)); [|done]. by discriminate (proj1 Hr eq_refl).
Qed.

Lemma main_step_ok i p p' : process_ok p → main_turn i p = Some p' → process_ok p'.
Proof using Hsha Hfile All.
  intros (Hok & Ha & Hp). unfold Process.main_turn. destruct p as [[| | |[|t ts]| |] s]; cbn [p_main p_node]; try done.
  - destruct (signalled s); [|done]. intros [= <-]. by apply clear_running_ok.
  - intros [= <-]. by destruct i.
  - destruct (peers_stopped s) eqn:Hst; intros [= <-]; [|by apply stop_peers_ok].
    split_and!; [done|done|]. split_and!.
    + apply halted_cleared; [done|done|]. destruct Hok as [Hn _], (reached_stop _ _ Hn) as [_ [Hr _]].
      unfold peers_stopped in Hst. destruct (stop_at _); [|done]. destruct (running _); [|done]. naive_solver.
    + intros t. by rewrite join_order_threads.
    + intros t Ht. by rewrite join_order_threads.
  - intros [= <-]. destruct Hp as (Hh & _ & Hl). split_and!; [done|done|]. split; [done|].
    intros t Ht. by apply Hl; [|apply not_elem_of_nil].
  - case_decide as Hz; [|done]. destruct Hp as (Hh & Hin & Hl).
    rewrite (j_done s t Hok (Hin t ltac:(constructor)) Hz), andb_false_r. intros [= <-].
    split_and!; [done|done|]. split_and!; [done|by intros u Hu; apply Hin; constructor|].
    intros u Hu Hn. destruct (decide (u = t)) as [->|]; [done|]. apply Hl; [done|]. by apply not_elem_of_cons.
Qed.

Lemma prun_ok p ls k p' : process_ok p → prun p ls k p' → process_ok p'.
Proof using Hsha Hfile All.
  intros Hok. induction 1 as [|p l k p1 ls m p2 Hst _ IH]; [done|]. apply IH.
  destruct Hst; [by eapply main_step_ok|by eapply thread_step_ok].
Qed.

(** ** Leaving *)

(** While it joins, every turn is one less. *)
Definition leaving (p : process) : bool :=
  match p.(p_main) with Joining _ | Exited => true | _ => false end.

Lemma leaving_step p l k p' :
  process_ok p → leaving p = true → pstep p l k p' →
  leaving p' = true ∧ (p_left p' + k ≤ p_left p)%nat.
Proof using Hsha Hfile All.
  intros (Hok & Ha & Hp) Hl Hst. unfold leaving, Process.p_left in *.
  destruct Hst as [i [m s] p' Hm|l [m s] s' Hst]; unfold phase_ok in Hp; cbn [p_main p_node] in *.
  - unfold Process.main_turn in Hm. cbn [p_main p_node] in Hm. destruct m as [| | |[|t ts]| |]; try done.
    + injection Hm as <-. cbn [p_main p_node length]. split; [done|lia].
    + case_decide as Hz; [|done]. destruct Hp as (_ & Hin & _).
      rewrite (j_done s t Hok (Hin t ltac:(constructor)) Hz), andb_false_r in Hm. injection Hm as <-.
      cbn [p_main p_node length]. split; [done|lia].
  - destruct m; try done; destruct Hp as [Hh _]; pose proof (total_step _ _ _ Hst Hok Hh); (split; [done|lia]).
Qed.

Lemma leaving_run p ls k p' :
  process_ok p → leaving p = true → prun p ls k p' →
  leaving p' = true ∧ (p_left p' + k ≤ p_left p)%nat.
Proof using Hsha Hfile All.
  intros Hok Hl Hr. revert Hok Hl. induction Hr as [|p l k p1 ls m p2 Hst _ IH]; intros Hok Hl; [split; [done|lia]|].
  destruct (leaving_step _ _ _ _ Hok Hl Hst) as [Hl1 Hle].
  destruct IH as [Hl2 Hle2]; [destruct Hst; [by eapply main_step_ok|by eapply thread_step_ok]|done|]. split; [done|lia].
Qed.

(** As long as it has not exited some thread can go on. *)
Lemma joining_progress p ts :
  process_ok p → p.(p_main) = Joining ts → ∃ l k p', pstep p l k p' ∧ (0 < k)%nat.
Proof using Hsha Hfile All.
  intros (Hok & Ha & Hp) Hm. unfold phase_ok in Hp. rewrite Hm in Hp. destruct Hp as (Hh & Hin & _).
  destruct (decide (0 < total p.(p_node))%nat) as [Hpos|Hz].
  - destruct (total_progress _ Hok Hh Hpos) as (l & s & Hst & Hw). do 3 eexists. split; [by apply p_thread_turn|done].
  - destruct (main_turn true p) as [p'|] eqn:Ht; [do 3 eexists; split; [by apply p_main_turn|lia]|].
    unfold Process.main_turn in Ht. rewrite Hm in Ht. destruct ts as [|t ts]; [done|]. case_decide as Hl; [done|].
    destruct Hl. apply total_left; [lia|]. apply Hin. constructor.
Qed.

Lemma sum_bound {A} (f : A → nat) (m : nat) l :
  (∀ x, x ∈ l → f x ≤ m)%nat → (sum_list_with f l ≤ m * length l)%nat.
Proof.
  induction l as [|x l IH]; intros Hf; simpl; [lia|].
  pose proof (Hf x ltac:(constructor)). specialize (IH ltac:(intros; apply Hf; by constructor)). lia.
Qed.

(** Nine turns per peer and sixteen more. *)
Lemma total_bound s : j_ok s → (total s ≤ 9 * length s.1.(n_manager).(peer_threads) + 16)%nat.
Proof.
  destruct s as [nt [b [nd pay]]]. intros (Hn & _). simpl in Hn. destruct (reached_stop _ _ Hn) as [[Hlen _] _].
  unfold total. simpl. rewrite !fmap_app, !sum_list_with_app. simpl.
  assert (sum_list_with (λ t : node_thread, j_left (nt, (b, (nd, pay))) t)
    ((inl <$> (ThPeer <$> seq 0 (length nt.(n_manager).(peer_threads)))) : list node_thread)
    ≤ 8 * length (seq 0 (length nt.(n_manager).(peer_threads))))%nat as Hpeers.
  { etrans; [apply (sum_bound _ 8)|by rewrite !length_fmap].
    intros t (u & -> & (j & -> & _)%list_elem_of_fmap)%list_elem_of_fmap. simpl.
    destruct (peer_threads (n_manager nt) !! j) as [t|]; simpl; [apply turns_left_bound|lia]. }
  rewrite length_seq in Hpeers. simpl in Hpeers.
  assert (block_left (length nt.(n_manager).(peer_writers)) nt.(n_block) ≤ length nt.(n_manager).(peer_threads) + 4)%nat as Hb
    by (destruct (n_block nt); simpl; lia).
  assert (addr_left b.(bk_addr) ≤ 2 ∧ feeler_left b.(bk_feeler) ≤ 3 ∧ flush_left b.(bk_flush) ≤ 3)%nat as (? & ? & ?)
    by (destruct (bk_addr b), (bk_feeler b), (bk_flush b) as [[]|]; simpl; lia).
  assert ((if nd.(nd_receiving) then 1 else 0) ≤ 1 ∧ broadcast_left pay.(pay_thread) ≤ 3)%nat as [? ?]
    by (destruct (nd_receiving nd), (pay_thread pay); simpl; lia).
  destruct (bk_flush b); simpl in *; lia.
Qed.

(** The groups start in states their invariants allow. *)
Lemma start_parts_ok max_peers given seeds p2p_port now d b nd ns :
  files_ok d → Forall socket_ok given → Forall ip_ok seeds → in_u 16 p2p_port →
  start_book dir file given seeds p2p_port now d = Ok b →
  fits nd → (∃ ws bound, node_ok store ws bound nd) → ns.(download) = download_default →
  process_ok (start_process max_peers now b.(bk_table) ns b nd).
Proof using laws All.
  intros Hd Hg Hs Hp Hb Hfit Hnok Hns.
  destruct (start_book_ok dir file given seeds p2p_port now d Hd Hg Hs Hp) as (b' & Hb' & Hok & _).
  rewrite Hb in Hb'. injection Hb' as <-. pose proof (ok_table _ Hok) as (os & _ & Hos).
  unfold start_book in Hb. apply bind_Ok in Hb as (t & _ & [= <-]). split_and!; [|done|done].
  split; [|split; [done|split; [by split|done]]].
  exists os, max_peers, t, ns, (fatal_new true), []. split_and!; [done|done|done|constructor].
Qed.

Lemma start_process_ok max_peers given seeds p2p_port now d b sp_keys_file nd ns :
  files_ok d → Forall socket_ok given → Forall ip_ok seeds → in_u 16 p2p_port →
  start_book dir file given seeds p2p_port now d = Ok b →
  start_node store sp_keys_file d = Ok nd → Z.of_nat (size nd.(nd_wallet).(utxos)) ≤ u_max 32 →
  ns.(download) = download_default →
  process_ok (start_process max_peers now b.(bk_table) ns b nd).
Proof using laws All.
  intros Hd Hg Hs Hp Hb Hnd Hsz Hns. pose proof (start_ok _ _ _ _ Hd Hnd) as Hnok.
  eapply start_parts_ok; [done..| |by eauto|done].
  unfold start_node in Hnd. apply bind_Ok in Hnd as (w & _ & (w' & _ & [= <-])%bind_Ok).
  unfold fits. simpl in *. lia.
Qed.

Lemma join_order_length s :
  (length (join_order s) ≤ length s.1.(n_manager).(peer_threads) + 6)%nat.
Proof. unfold join_order. rewrite !length_app, length_fmap, length_seq. destruct (bk_flush s.2.1); simpl; lia. Qed.

(** The number of peer threads stays the same, and fewer joins than they and six
    more are left. *)
Definition joins_bounded (m : nat) (p : process) : Prop :=
  length p.(p_node).1.(n_manager).(peer_threads) = m ∧
  ∀ ts, p.(p_main) = Joining ts → (length ts ≤ m + 6)%nat.

Lemma joins_step m p l k p' : joins_bounded m p → pstep p l k p' → joins_bounded m p'.
Proof using H1.
  intros [Hm Hj]. destruct 1 as [i [mn s] p' Ht|l [mn s] s' Hst]; cbn [p_main p_node] in *.
  - unfold Process.main_turn in Ht. destruct s as [nt [b [nd pay]]]. cbn [p_main p_node] in *.
    destruct mn as [| | |[|t ts]| |]; try done.
    + destruct (signalled _); [|done]. by injection Ht as <-.
    + by destruct i; injection Ht as <-.
    + destruct (peers_stopped _); injection Ht as <-; (split; [|intros ts]; cbn [p_main p_node fst stop_peers] in *).
      * done.
      * intros [= <-]. etrans; [apply join_order_length|]. simpl in *. lia.
      * rewrite <- Hm. by apply (mstep_sizes proxied (E:=E) _ MStop); constructor.
      * done.
    + injection Ht as <-. split; [done|]. intros ts. done.
    + case_decide; [|done]. injection Ht as <-. split; [done|]. intros ts'. cbn [p_main].
      destruct (_ && _); [done|]. intros [= <-]. specialize (Hj _ eq_refl). simpl in Hj. lia.
  - split; [|done]. rewrite <- Hm. destruct s as [nt rest], s' as [nt' rest']. destruct l as [l|l].
    + destruct Hst as [Hst _]. cbn [p_node fst] in *. destruct Hst as [s l m' Hst _ _|s now order t m' _ Ht]; simpl.
      * apply (mstep_sizes _ _ _ _ Hst).
      * by destruct (block_turn_frame _ _ _ _ _ _ _ Ht) as (_ & -> & _).
    + by destruct Hst as [_ [= ->]].
Qed.

(** ** Coming to an end *)

(** Whatever happens from [p0] on, the node can be brought to its end, in the
    sense of the theorem below. *)
Definition comes_to_end (p0 : process) : Prop :=
  ∀ ls k p, prun p0 ls k p →
  (p.(p_main) = Waiting ∧ signalled p.(p_node) = true ∨ p.(p_main) = Interrupting ∨ p.(p_main) = Stopping →
     is_Some (main_turn true p)) ∧
  (∀ ts, p.(p_main) = Joining ts →
     (p_left p ≤ 10 * length p.(p_node).1.(n_manager).(peer_threads) + 23)%nat ∧
     (∃ l k' p', pstep p l k' p' ∧ (0 < k')%nat) ∧
     ∀ ls' k' p', prun p ls' k' p' → (p_left p' + k' ≤ p_left p)%nat ∧ p'.(p_main) ≠ Failed) ∧
  (p.(p_main) = Exited →
     (∀ t, t ∈ j_threads p.(p_node) → j_ended p.(p_node) t = true) ∧
     p.(p_node).1.(n_manager).(connected_peers) = ∅ ∧
     Forall (λ w, w = None) p.(p_node).1.(n_manager).(peer_writers) ∧
     p.(p_node).1.(n_manager).(Manager.node).(download).(in_flight) = ∅).

Lemma process_ok_ends p0 : process_ok p0 → p0.(p_main) = Waiting → comes_to_end p0.
Proof using Hsha Hfile All.
  intros Hok0 Hwait ls k p Hrun. pose proof (prun_ok _ _ _ _ Hok0 Hrun) as Hok.
  assert (∃ m, joins_bounded m p) as (m & Hlen & Hjs).
  { exists (length p0.(p_node).1.(n_manager).(peer_threads)).
    assert (joins_bounded (length p0.(p_node).1.(n_manager).(peer_threads)) p0) as Hj
      by (split; [done|congruence]).
    revert Hj. generalize (length p0.(p_node).1.(n_manager).(peer_threads)).
    clear -Hrun H1. induction Hrun as [|p l k p1 ls m p2 Hst _ IH]; intros c Hj; [done|]. apply IH. by eapply joins_step. }
  split_and!.
  - intros Hm. unfold Process.main_turn. destruct Hm as [[-> ->]|[->| ->]]; by eauto.
  - intros ts Hm. split_and!; [|by eapply joining_progress|].
    + unfold Process.p_left. rewrite Hm. pose proof (total_bound _ (proj1 Hok)). specialize (Hjs _ Hm). lia.
    + intros ls' k' p' Hr. destruct (leaving_run p ls' k' p' Hok) as [Hl Hle]; [unfold leaving; by rewrite Hm|done|].
      split; [done|]. intros Hf. unfold leaving in Hl. by rewrite Hf in Hl.
  - intros Hm. destruct Hok as (Hj & _ & Hph). unfold phase_ok in Hph. rewrite Hm in Hph. destruct Hph as [_ Hz].
    assert (∀ t, t ∈ j_threads p.(p_node) → j_ended p.(p_node) t = true) as He by (intros t Ht; apply j_done; auto).
    split; [done|]. destruct (reached_ended _ _ (proj1 Hj)) as (? & ? & ?); [|by split_and!].
    intros i t Hi. pose proof (lookup_lt_Some _ _ _ Hi) as Hlt. specialize (He (inl (ThPeer i))).
    simpl in He. rewrite Hi in He. apply He. rewrite elem_of_app, list_elem_of_fmap. left. exists (ThPeer i). split; [done|].
    apply elem_of_app. left. apply list_elem_of_fmap. exists i. split; [done|]. apply elem_of_seq. lia.
Qed.

(** ** Theorem *)

(** The node exits when it is told to: from the signal on the main thread is
    blocked by nothing until it joins the threads; then, whatever they do and in
    whatever order, at most ten turns per peer thread and twenty-three more are
    left to all of them, as long as it has not exited one of these turns can be
    taken, and no join panics; when it exits every thread has ended, no
    destination is connected, no writer is left and no block is in flight. *)
Theorem node_exits max_peers given seeds p2p_port now d b sp_keys_file nd ns ls k p :
  files_ok d → Forall socket_ok given → Forall ip_ok seeds → in_u 16 p2p_port →
  start_book dir file given seeds p2p_port now d = Ok b →
  start_node store sp_keys_file d = Ok nd → Z.of_nat (size nd.(nd_wallet).(utxos)) ≤ u_max 32 →
  ns.(download) = download_default →
  prun (start_process max_peers now b.(bk_table) ns b nd) ls k p →
  (p.(p_main) = Waiting ∧ signalled p.(p_node) = true ∨ p.(p_main) = Interrupting ∨ p.(p_main) = Stopping →
     is_Some (main_turn true p)) ∧
  (∀ ts, p.(p_main) = Joining ts →
     (p_left p ≤ 10 * length p.(p_node).1.(n_manager).(peer_threads) + 23)%nat ∧
     (∃ l k' p', pstep p l k' p' ∧ (0 < k')%nat) ∧
     ∀ ls' k' p', prun p ls' k' p' → (p_left p' + k' ≤ p_left p)%nat ∧ p'.(p_main) ≠ Failed) ∧
  (p.(p_main) = Exited →
     (∀ t, t ∈ j_threads p.(p_node) → j_ended p.(p_node) t = true) ∧
     p.(p_node).1.(n_manager).(connected_peers) = ∅ ∧
     Forall (λ w, w = None) p.(p_node).1.(n_manager).(peer_writers) ∧
     p.(p_node).1.(n_manager).(Manager.node).(download).(in_flight) = ∅).
Proof using Hsha Hfile All.
  intros Hd Hg Hs Hp Hb Hnd Hsz Hns. apply process_ok_ends; [|done]. by eapply start_process_ok.
Qed.
End Facts.

(** ** A concrete run *)

Module Witness.
Import Messages.Demo Kernel.Demo Addr.Demo Wallet.Demo Peer.Witness Connection.Witness Socks5.Witness.
#[local] Existing Instance demo_wire.
#[local] Existing Instance demo_wire_laws.
#[local] Existing Instance WalletStore.Witness.demo_scalars.
#[local] Existing Instance Scan.Witness.scan_scalars_demo.
#[local] Existing Instance Scan.Witness.demo_data.
#[local] Existing Instance Scan.Witness.demo_data_laws.
#[local] Existing Instance Scan.Witness.demo_key_bytes.
#[local] Existing Instance Sending.Witness.demo_spending.

#[local] Instance demo_chainman : Inhabited Chainman := populate Scan.Witness.chain.

Abbreviation state := (Process.process (H:=demo_bitcoin) (H0:=demo_kernel)).
Abbreviation label := (plabel (E:=unit)).
Abbreviation store := Scan.Witness.store.
Abbreviation disk0 := Scan.Witness.disk0.
Abbreviation pstep := (pstep (E:=unit) demo_sha Bitcoin_ false "/node/" "peers.bin" store).
Abbreviation prun := (prun (E:=unit) demo_sha Bitcoin_ false "/node/" "peers.bin" store).

Definition book_ : book :=
  match start_book "/node/" "peers.bin" [] Book.Witness.seeds 8333 0 disk0 with Ok b => b | _ => Book.Witness.book0 end.
Definition started : state := start_process (Some 2%nat) 0 book_.(bk_table) ns0 book_ Scan.Witness.nd0.

(** Peer threads whose connections fail, a block thread with an empty buffer, and
    what is needed of the others. *)
Inductive action :=
| AMain
| APeer (i : nat)
| ABlock
| ABook (l : blabel)
| AShutdown
| AScan
| ABroadcast.

Definition label_of (a : action) : label :=
  match a with
  | AMain => PMain true
  | APeer i => PThread (inl (NPeers (Manager.Witness.go i)))
  | ABlock => PThread (inl (NBlock 0 []))
  | ABook l => PThread (inr (inl l))
  | AShutdown => PThread (inr (inr (inl LShutdown)))
  | AScan => PThread (inr (inr (inl (LTurn Scan.Witness.chain Scan.Witness.no_faults))))
  | ABroadcast => PThread (inr (inr (inr (PBroadcast true true))))
  end.

Definition act (a : action) (p : state) : option state :=
  let '(nt, (b, (nd, pay))) := p.(p_node) in
  match a with
  | AMain => main_turn (E:=unit) demo_sha Bitcoin_ false "/node/" "peers.bin" store true p
  | APeer i =>
      m ← Manager.Witness.exec (Manager.Witness.go i) nt.(n_manager);
      Some (mk_process p.(p_main) (mk_net nt.(n_running) nt.(n_block) m, (b, (nd, pay))))
  | ABlock =>
      if decide (dom nt.(n_manager).(Manager.node).(download).(buffer) = (∅ : gset BlockHash)) then
        let '(t, m) := block_turn nt.(n_running) 0 [] nt.(n_block) nt.(n_manager) in
        Some (mk_process p.(p_main) (mk_net nt.(n_running) t m, (b, (nd, pay))))
      else None
  | ABook l =>
      if of_book l then
        '(_, b) ← Book.Witness.exec l b; Some (mk_process p.(p_main) (nt, (b, (nd, pay))))
      else None
  | AShutdown =>
      let nd := (Scan.ipc_shutdown nd).2 in
      if decide (Z.of_nat (size nd.(nd_wallet).(utxos) + sum_list_with event_size nd.(nd_events)) ≤ u_max 32)
      then Some (mk_process p.(p_main) (nt, (b, (nd, pay)))) else None
  | AScan =>
      if nd.(nd_receiving) && negb nd.(nd_running) then
        if decide (Z.of_nat (size nd.(nd_wallet).(utxos)) ≤ u_max 32)
        then Some (mk_process p.(p_main) (nt, (b, (close nd, pay)))) else None
      else None
  | ABroadcast => Some (mk_process p.(p_main) (nt, (b, (nd, broadcast_turn true true pay))))
  end.

Definition action_ok (a : action) : Prop := match a with ABook l => blabel_ok l | _ => True end.

Lemma act_step a p p' : action_ok a → act a p = Some p' → ∃ k, pstep p (label_of a) k p'.
Proof.
  intros Hok. unfold act. destruct p as [mn [nt [b [nd pay]]]]; cbn [p_node p_main].
  assert (∀ l s, @j_step _ _ _ (node_joinable (E:=unit) demo_sha Bitcoin_ false "/node/" "peers.bin" store)
    (nt, (b, (nd, pay))) l s → ∃ k, pstep (mk_process mn (nt, (b, (nd, pay)))) (PThread l) k (mk_process mn s)) as Hth.
  { intros l s Hst. eexists. by apply (p_thread_turn _ _ _ _ _ _ l (mk_process mn (nt, (b, (nd, pay))))). }
  destruct a as [|i| |l| | |]; cbn [label_of].
  - intros Hm. eexists. by apply p_main_turn.
  - intros (m & Hm & [= <-])%bind_Some. apply Hth. split; [|done].
    apply (net_peers false nt); [by apply Manager.Witness.exec_mstep|done|done].
  - case_decide as Hd; [|done]. destruct (block_turn _ _ _ _ _) as [t m] eqn:Ht. intros [= <-]. apply Hth. split; [|done].
    apply (net_block false nt); [|done]. rewrite Hd. split; [constructor|set_solver].
  - destruct (of_book l) eqn:Hl; [|done]. intros ([states b'] & Hst%Book.Witness.bexec_step & [= <-])%bind_Some.
    apply Hth. split; [|done]. split; [|done]. split_and!; [done|done|by exists states].
  - case_decide as Hf; [|done]. intros [= <-]. apply Hth. split; [|done]. split; [|done]. split; [|done].
    split_and!; [done|done|]. exists []. apply (n_shutdown store nd).
  - destruct (nd_receiving nd && negb (nd_running nd)) eqn:Hr; [|done]. case_decide as Hf; [|done]. intros [= <-].
    apply andb_true_iff in Hr as [Hr Hn]. apply negb_true_iff in Hn.
    apply Hth. split; [|done]. split; [|done]. split; [|done]. split_and!; [done|change (Z.of_nat (size nd.(nd_wallet).(utxos) + 0) ≤ u_max 32); lia|].
    exists []. apply (n_turn store _ _ map_to_list true nd); [done|done|]. unfold scan_turn. by rewrite Hn.
  - intros [= <-]. apply Hth. split; [|done]. split; [|done]. split; [|done]. apply pay_broadcast.
Qed.

Definition acts (l : list action) (p : state) : option state := foldl (λ p a, p ← p; act a p) (Some p) l.

Lemma acts_run l p p' : Forall action_ok l → acts l p = Some p' → ∃ k, prun p (label_of <$> l) k p'.
Proof.
  revert p. induction l as [|a l IH]; intros p Hok; unfold acts; simpl.
  { intros [= <-]. eexists. constructor. }
  apply Forall_cons in Hok as [Ha Hok]. destruct (act a p) as [p1|] eqn:H1.
  - intros Hrest. destruct (act_step _ _ _ Ha H1) as [k1 Hst], (IH _ Hok Hrest) as [k2 Hr]. eexists. by econstructor.
  - assert (foldl (λ p a, p ← p; act a p) (None : option state) l = None) as -> by (clear; by induction l). done.
Qed.

(** A client asks for the shutdown while a peer thread is connecting; the main
    thread stops everything, the threads end, and it joins them. *)
Definition script : list action :=
  [APeer 0; APeer 0; ABlock; AShutdown; AMain; AMain; AMain; AMain; AMain; AMain;
   APeer 0; APeer 0; APeer 0; APeer 0; APeer 0; APeer 0; APeer 0; APeer 1; ABlock; ABlock; ABlock; ABlock; ABlock;
   ABook (BAddr true); ABook (BFlush 0 0 Book.Witness.works); ABook (BFlush 0 0 Book.Witness.works);
   ABook (BFeeler 0 0 Outbound.Witness.some_choice Book.Witness.net); AScan; ABroadcast;
   AMain; AMain; AMain; AMain; AMain; AMain; AMain; AMain; AMain].
Definition finished : state := default started (acts script started).

Lemma script_ok : Forall action_ok script.
Proof.
  assert (choice_ok Outbound.Witness.some_choice) as Hc by (split; apply (bool_decide_unpack _); by vm_compute).
  repeat (apply Forall_cons_2; [by repeat split|]). apply Forall_nil_2.
Qed.

Lemma book_start : start_book "/node/" "peers.bin" [] Book.Witness.seeds 8333 0 disk0 = Ok book_.
Proof. vm_compute. reflexivity. Qed.
Lemma finished_run : ∃ k, prun started (label_of <$> script) k finished.
Proof.
  apply acts_run; [apply script_ok|]. unfold finished.
  assert (match acts script started with Some _ => true | None => false end = true) as Hs by (vm_compute; reflexivity).
  by destruct (acts script started).
Qed.

Lemma node_exits_witness :
  finished.(p_main) = Exited ∧ finished.(p_node).1.(n_manager).(connected_peers) = ∅ ∧
  finished.(p_node).1.(n_manager).(Manager.node).(download).(in_flight) = ∅.
Proof.
  destruct finished_run as [k Hrun].
  destruct (node_exits (E:=unit) demo_sha demo_sha_ok Bitcoin_ false "/node/" "peers.bin" ltac:(done) store (Some 2%nat) []
    Book.Witness.seeds 8333 0 disk0 book_ (Some "keys") Scan.Witness.nd0 ns0 (label_of <$> script) k finished
    Scan.Witness.disk0_ok ltac:(constructor) ltac:(by repeat constructor) ltac:(done) book_start Scan.Witness.start0
    ltac:(vm_compute; discriminate) ltac:(reflexivity) Hrun) as (_ & _ & Hend).
  assert (finished.(p_main) = Exited) as Hm by (vm_compute; reflexivity). destruct (Hend Hm) as (_ & Hc & _ & Hf). split; [exact Hm|]. split; [exact Hc|exact Hf].
Defined.
End Witness.
