(* ===== verification/Text.v ===== *)
(** * Text

    What the sources use of Rust's [str]: a text is the list of its characters,
    as code points. [string] stands for the bytes of a text where only those
    matter. *)

From S2P Require Import Prelude.

Abbreviation text := (list Z).

(** An ASCII literal. *)
Definition lit (s : string) : text := (λ c, Z.of_N (Ascii.N_of_ascii c)) <$> String.list_ascii_of_string s.

(** The bytes of a text: every character in UTF-8. *)
Definition utf8_char (c : Z) : list Z :=
  if decide (c < 0x80) then [c]
  else if decide (c < 0x800) then [0xC0 + c / 64; 0x80 + c mod 64]
  else if decide (c < 0x10000) then [0xE0 + c / 4096; 0x80 + c / 64 mod 64; 0x80 + c mod 64]
  else [0xF0 + c / 262144; 0x80 + c / 4096 mod 64; 0x80 + c / 64 mod 64; 0x80 + c mod 64].
Definition utf8 (s : text) : string :=
  String.string_of_list_ascii ((λ b, Ascii.ascii_of_N (Z.to_N b)) <$> (s ≫= utf8_char)).

Lemma utf8_app a b : utf8 (a ++ b) = utf8 a +:+ utf8 b.
Proof.
  unfold utf8. rewrite bind_app, fmap_app. generalize ((λ b, Ascii.ascii_of_N (Z.to_N b)) <$> (a ≫= utf8_char)).
  intros l. induction l as [|x l IH]; [done|]. cbn [app String.string_of_list_ascii]. by rewrite IH.
Qed.

(** [char::is_whitespace]: the property [White_Space] of Unicode. *)
Definition is_whitespace (c : Z) : bool :=
  bool_decide (9 ≤ c ≤ 13) || bool_decide (0x2000 ≤ c ≤ 0x200A) ||
  bool_decide (c ∈ [0x20; 0x85; 0xA0; 0x1680; 0x2028; 0x2029; 0x202F; 0x205F; 0x3000]).
Definition is_digit (c : Z) : bool := bool_decide (48 ≤ c ≤ 57).
Definition is_upper (c : Z) : bool := bool_decide (65 ≤ c ≤ 90).
Definition is_lower (c : Z) : bool := bool_decide (97 ≤ c ≤ 122).
Definition is_ascii_alphanumeric (c : Z) : bool := is_digit c || is_upper c || is_lower c.

(** [to_ascii_lowercase], [eq_ignore_ascii_case]. *)
Definition ascii_lower (c : Z) : Z := if is_upper c then c + 32 else c.
Definition to_ascii_lowercase (s : text) : text := ascii_lower <$> s.
Definition eq_ignore_ascii_case (a b : text) : bool :=
  bool_decide (to_ascii_lowercase a = to_ascii_lowercase b).

(** [trim]. *)
Fixpoint trim_start (s : text) : text :=
  match s with
  | c :: s' => if is_whitespace c then trim_start s' else s
  | [] => []
  end.
Definition trim_end (s : text) : text := reverse (trim_start (reverse s)).
Definition trim (s : text) : text := trim_end (trim_start s).

(** [split(c)]: always at least one piece. *)
Fixpoint split (sep : Z) (s : text) : list text :=
  match s with
  | [] => [[]]
  | c :: s =>
      if decide (c = sep) then [] :: split sep s
      else match split sep s with
           | p :: ps => (c :: p) :: ps
           | [] => [[c]]
           end
  end.

(** [join]. *)
Fixpoint join (sep : text) (ps : list text) : text :=
  match ps with
  | [] => []
  | [p] => p
  | p :: ps => p ++ sep ++ join sep ps
  end.

(** [strip_prefix]. *)
Fixpoint strip (p s : text) : option text :=
  match p, s with
  | [], _ => Some s
  | a :: p, b :: s => if decide (a = b) then strip p s else None
  | _ :: _, [] => None
  end.

(** [str::replace] of a character. *)
Definition replace_char (c : Z) (r s : text) : text := x ← s; if decide (x = c) then r else [x].

(** [char::to_digit] for a radix up to 16. *)
Definition to_digit (radix c : Z) : option Z :=
  let d := if is_digit c then Some (c - 48)
           else if is_lower c then Some (c - 87)
           else if is_upper c then Some (c - 55) else None in
  v ← d; if decide (v < radix) then Some v else None.

(** [str::parse] of an unsigned integer of [w] bits: an optional plus sign and at
    least one digit, with overflow an error. *)
Fixpoint parse_digits (w acc : Z) (s : text) : option Z :=
  match s with
  | [] => Some acc
  | c :: s =>
      d ← to_digit 10 c;
      let acc := acc * 10 + d in
      if decide (acc < 2 ^ w) then parse_digits w acc s else None
  end.
Definition parse_unsigned (w : Z) (s : text) : option Z :=
  let s := match s with 43 :: s' => if is_nil s' then s else s' | _ => s end in
  if is_nil s then None else parse_digits w 0 s.

(** [Display] of an unsigned integer; the fuel is its number of bits. *)
Fixpoint digits_of (fuel : nat) (n : Z) (acc : text) : text :=
  let acc := (48 + n mod 10) :: acc in
  match fuel with
  | O => acc
  | S fuel => if decide (n < 10) then acc else digits_of fuel (n / 10) acc
  end.
Definition show_unsigned (n : Z) : text := digits_of (Z.to_nat (Z.log2 n)) n [].

(** ** Facts *)

Lemma trim_start_le s : (length (trim_start s) ≤ length s)%nat.
Proof. induction s as [|c s IH]; simpl; [done|]. case_match; simpl; lia. Qed.

Lemma trim_start_id s : (∀ c, head s = Some c → is_whitespace c = false) → trim_start s = s.
Proof. destruct s as [|c s]; [done|]. intros H. simpl. by rewrite (H c eq_refl). Qed.

Lemma trim_id s :
  (∀ c, c ∈ s → is_whitespace c = false) → trim s = s.
Proof.
  intros H. unfold trim, trim_end. rewrite (trim_start_id s).
  - rewrite trim_start_id, reverse_involutive; [done|]. intros c Hc. apply H.
    destruct (reverse s) as [|x l] eqn:Hr; [done|]. simplify_eq/=.
    apply elem_of_reverse. rewrite Hr. by constructor.
  - intros c Hc. apply H. destruct s; simplify_eq/=. by constructor.
Qed.

Lemma split_nonempty sep s : split sep s ≠ [].
Proof. destruct s; simpl; [done|]. repeat case_match; done. Qed.

(** A separator ends a piece. *)
Lemma split_app sep a b : split sep (a ++ sep :: b) = split sep a ++ split sep b.
Proof.
  induction a as [|c a IH]; simpl.
  - by rewrite decide_True.
  - case_decide; [by rewrite IH|]. rewrite IH. destruct (split sep a) as [|p ps] eqn:Hs; [|done].
    by destruct (split_nonempty sep a).
Qed.

Lemma split_plain sep s : sep ∉ s → split sep s = [s].
Proof.
  induction s as [|c s IH]; simpl; [done|]. intros [Hc Hs]%not_elem_of_cons.
  rewrite decide_False by congruence. by rewrite IH.
Qed.

(** Splitting a join of pieces without the separator gives the pieces back. *)
Lemma split_join sep ps :
  ps ≠ [] → Forall (λ p, sep ∉ p) ps → split sep (join [sep] ps) = ps.
Proof.
  intros Hne Hall. induction Hall as [|p ps Hp Hall IH]; [done|].
  destruct ps as [|q ps]; [by apply split_plain|].
  change (join [sep] (p :: q :: ps)) with (p ++ sep :: join [sep] (q :: ps)).
  rewrite split_app, split_plain by done. by rewrite IH.
Qed.

Lemma to_digit_dec d : 0 ≤ d < 10 → to_digit 10 (48 + d) = Some d.
Proof.
  intros Hd. unfold to_digit, is_digit. rewrite bool_decide_true by lia. simpl.
  rewrite decide_True by lia. f_equal. lia.
Qed.

Lemma parse_digits_of w fuel n acc :
  0 ≤ n < 2 ^ w → n < 10 ^ Z.of_nat (S fuel) →
  parse_digits w 0 (digits_of fuel n acc) = parse_digits w n acc.
Proof.
  revert n acc. induction fuel as [|fuel IH]; intros n acc Hn Hf; cbn [digits_of].
  - cbn [parse_digits]. assert (n < 10) by (change (10 ^ Z.of_nat 1) with 10 in Hf; lia).
    rewrite Z.mod_small, to_digit_dec by lia. csimpl. by rewrite decide_True by lia.
  - case_decide.
    + cbn [parse_digits]. rewrite Z.mod_small, to_digit_dec by lia. csimpl. by rewrite decide_True by lia.
    + assert (10 ^ Z.of_nat (S (S fuel)) = 10 * 10 ^ Z.of_nat (S fuel)) as Hp.
      { rewrite <- Z.pow_succ_r by lia. f_equal. lia. }
      pose proof (Z.div_mod n 10 ltac:(lia)). pose proof (Z.mod_pos_bound n 10 ltac:(lia)).
      rewrite IH; [|lia|lia].
      cbn [parse_digits]. rewrite to_digit_dec by lia. csimpl.
      replace (n / 10 * 10 + n mod 10) with n by lia. by rewrite decide_True by lia.
Qed.

Lemma digits_of_digits fuel n acc c :
  0 ≤ n → c ∈ digits_of fuel n acc → is_digit c = true ∨ c ∈ acc.
Proof.
  revert n acc. induction fuel as [|fuel IH]; intros n acc Hn; cbn [digits_of];
    pose proof (Z.mod_pos_bound n 10 ltac:(lia)) as Hm;
    assert (is_digit (48 + n mod 10) = true) as Hd by (apply bool_decide_eq_true; lia).
  - intros [->|?]%elem_of_cons; auto.
  - case_decide; [intros [->|?]%elem_of_cons; auto|].
    intros [?|[->|?]%elem_of_cons]%IH; [auto..|]. apply Z.div_pos; lia.
Qed.

Lemma digits_of_nonempty fuel n acc : digits_of fuel n acc ≠ [].
Proof. revert n acc. induction fuel as [|fuel IH]; intros n acc; cbn [digits_of]; [done|]. case_decide; auto. Qed.

Lemma show_digits n c : 0 ≤ n → c ∈ show_unsigned n → is_digit c = true.
Proof. intros Hn [?|?%elem_of_nil]%digits_of_digits; done. Qed.

Lemma show_not_sign n s : 0 ≤ n → show_unsigned n ≠ 43 :: s.
Proof.
  intros Hn Heq. assert (is_digit 43 = true) by (apply (show_digits n); [done|rewrite Heq; by constructor]).
  done.
Qed.

Lemma parse_digits_show w n : 0 ≤ n < 2 ^ w → parse_digits w 0 (show_unsigned n) = Some n.
Proof.
  intros Hn. unfold show_unsigned. rewrite parse_digits_of; [done|done|].
  destruct (decide (n = 0)) as [->|Hnz]; [by vm_compute|].
  pose proof (Z.log2_spec n ltac:(lia)) as [_ Hlog]. pose proof (Z.log2_nonneg n).
  eapply Z.lt_le_trans; [exact Hlog|]. rewrite Nat2Z.inj_succ, Z2Nat.id by lia.
  apply Z.pow_le_mono_l. lia.
Qed.

(** Numbers read back. *)
Lemma parse_show w n : 0 ≤ n < 2 ^ w → parse_unsigned w (show_unsigned n) = Some n.
Proof.
  intros Hn. unfold parse_unsigned.
  pose proof (show_not_sign n) as Hsign. pose proof (digits_of_nonempty (Z.to_nat (Z.log2 n)) n []) as Hne.
  fold (show_unsigned n) in Hne.
  assert (match show_unsigned n with 43 :: s' => if is_nil s' then show_unsigned n else s' | _ => show_unsigned n end
    = show_unsigned n) as ->.
  { destruct (show_unsigned n) as [|c s]; [done|]. destruct (decide (c = 43)) as [->|Hc].
    - exfalso. apply (Hsign s); [lia|done].
    - repeat case_match; done. }
  destruct (is_nil (show_unsigned n)) eqn:Hnil; [by apply is_nil_true in Hnil|].
  by apply parse_digits_show.
Qed.
