(* ===== verification/Paths.v ===== *)
(** * Paths (src/ext.rs)

    The expansion of a leading tilde and the data directory. The environment
    variable [HOME] is set; creating and resolving directories is up to the file
    system. *)

From S2P Require Import Prelude Text.

(** [PathBuf::join]. *)
Definition path_join (base rest : text) : text :=
  if decide (head rest = Some 47) then rest
  else match last base with
       | None => base ++ rest
       | Some c => if decide (c = 47) then base ++ rest else base ++ [47] ++ rest
       end.

Definition expand_tilde (home s : text) : text :=
  match strip (lit "~/") s with
  | Some rest => path_join home rest
  | None => s
  end.

(** [None] is a panic: the directories cannot be made or the path not resolved. *)
Definition data_dir (home : text) (create_dir_all : text → bool) (canonicalize : text → option text)
    (s : text) : option text :=
  let path := expand_tilde home s in
  if create_dir_all path then canonicalize path else None.

(** A path taken from the directory [cwd]. *)
Definition data_dir_at (cwd home : text) (create_dir_all : text → bool) (canonicalize : text → option text)
    (s : text) : option text :=
  data_dir home (λ p, create_dir_all (path_join cwd p)) (λ p, canonicalize (path_join cwd p)) s.

Definition is_absolute (p : text) : Prop := head p = Some 47.

Lemma path_join_absolute cwd p : is_absolute p → path_join cwd p = p.
Proof. intros Hp. unfold path_join. by rewrite decide_True. Qed.

(** A directory that does not depend on where the process works. *)
Lemma data_dir_at_absolute cwd cwd' home mk canon s :
  is_absolute (expand_tilde home s) → data_dir_at cwd home mk canon s = data_dir_at cwd' home mk canon s.
Proof. intros Hs. unfold data_dir_at, data_dir. by rewrite !path_join_absolute. Qed.

(** The name of a file in a directory. *)
Lemma path_join_name dir c name :
  c ≠ 47 → dir ≠ [] → path_join dir (c :: name) = path_join dir [] ++ c :: name.
Proof.
  intros Hc Hd. unfold path_join. simpl. rewrite decide_False by congruence.
  destruct (last dir) as [x|] eqn:Hl; [|by apply last_None in Hl].
  case_decide; [by rewrite app_nil_r|]. by rewrite <- app_assoc.
Qed.
