(* ===== verification/Config.v ===== *)
(** * Configuration (src/ext.rs, crates/p2p/src/dns.rs, src/bin/node.rs,
      src/net/addr.rs)

    The networks and what depends on them, the DNS seeds, and the options that
    name addresses. [SocketAddr] is parsed by the standard library, whose parser
    ([core::net::parser]) is modelled on the characters of the text. *)

From S2P Require Import Prelude Text Fs Addr AddressBook AddrTable AddrIo Wallet Handshake Manager Outbound.

(** ** Networks (src/ext.rs) *)

(** [bitcoin::Network] is [Handshake.Network]. *)
Inductive ChainType := ChainMainnet | ChainTestnet | ChainTestnet4 | ChainSignet | ChainRegtest.

Definition chain_type (n : Handshake.Network) : ChainType :=
  match n with
  | Handshake.Bitcoin_ => ChainMainnet
  | Handshake.Signet => ChainSignet
  | Handshake.Testnet => ChainTestnet
  | Handshake.Testnet4 => ChainTestnet4
  | Handshake.Regtest => ChainRegtest
  end.

Definition default_p2p_port (n : Handshake.Network) : Z :=
  match n with
  | Handshake.Bitcoin_ => 8333
  | Handshake.Signet => 38333
  | Handshake.Testnet => 18333
  | Handshake.Testnet4 => 48333
  | Handshake.Regtest => 18444
  end.

Definition wallet_network (n : Handshake.Network) : Wallet.Network :=
  match n with
  | Handshake.Bitcoin_ => Wallet.Mainnet
  | Handshake.Regtest => Wallet.Regtest
  | _ => Wallet.Testnet
  end.

(** ** DNS seeds (crates/p2p/src/dns.rs, src/net/addr.rs) *)

Definition BITCOIN_SEEDS : list string :=
  ["seed.bitcoin.sipa.be"; "dnsseed.bluematt.me"; "dnsseed.bitcoin.dashjr-list-of-p2p-nodes.us";
   "seed.bitcoin.jonasschnelli.ch"; "seed.btc.petertodd.net"; "seed.bitcoin.sprovoost.nl";
   "dnsseed.emzy.de"; "seed.bitcoin.wiz.biz"; "seed.mainnet.achownodes.xyz"].
Definition SIGNET_SEEDS : list string :=
  ["seed.signet.bitcoin.sprovoost.nl"; "seed.signet.achownodes.xyz"].
Definition TESTNET3_SEEDS : list string :=
  ["testnet-seed.bitcoin.jonasschnelli.ch"; "seed.tbtc.petertodd.net"; "seed.testnet.bitcoin.sprovoost.nl";
   "testnet-seed.bluematt.me"; "seed.testnet.achownodes.xyz"].
Definition TESTNET4_SEEDS : list string :=
  ["seed.testnet4.bitcoin.sprovoost.nl"; "seed.testnet4.wiz.biz"].

Definition seed_hosts (n : Handshake.Network) : list string :=
  (λ host, host +:+ ":53") <$>
  match n with
  | Handshake.Bitcoin_ => BITCOIN_SEEDS
  | Handshake.Signet => SIGNET_SEEDS
  | Handshake.Testnet => TESTNET3_SEEDS
  | Handshake.Testnet4 => TESTNET4_SEEDS
  | Handshake.Regtest => []
  end.

(** [lookup_host] is the resolver's answer, [None] for an error; hosts that fail
    are passed over. *)
Definition resolve_seeds (lookup_host : string → option (list (IpAddr * Z))) (n : Handshake.Network)
    : list IpAddr :=
  host ← seed_hosts n; default [] ((λ sockets, sockets.*1) <$> lookup_host host).

(** ** [SocketAddr] (the standard library) *)

(** A parser consumes a prefix of the text; on [None] nothing is consumed. *)
Abbreviation parser A := (text → option (A * text)).

Definition read_given_char (c : Z) : parser unit := λ s,
  match s with
  | c' :: s => if decide (c' = c) then Some ((), s) else None
  | [] => None
  end.

(** The separator is read before every item but the first. *)
Definition read_separator {A} (sep : Z) (index : nat) (inner : parser A) : parser A := λ s,
  if decide (0 < index)%nat then '(_, s) ← read_given_char sep s; inner s else inner s.

Fixpoint take_digits (radix : Z) (s : text) : list Z * text :=
  match s with
  | c :: s' =>
      match to_digit radix c with
      | Some d => let '(ds, rest) := take_digits radix s' in (d :: ds, rest)
      | None => ([], s)
      end
  | [] => ([], [])
  end.
Definition digits_value (radix : Z) (ds : list Z) : Z := foldl (λ acc d, acc * radix + d) 0 ds.

(** A number of [w] bits. *)
Definition read_number (w radix : Z) (max_digits : option nat) (allow_zero_prefix : bool) : parser Z := λ s,
  let '(ds, rest) := take_digits radix s in
  let too_long := match max_digits with Some m => bool_decide (m < length ds)%nat | None => false end in
  let zero_prefix := bool_decide (head s = Some 48) && bool_decide (1 < length ds)%nat in
  if is_nil ds || too_long || (negb allow_zero_prefix && zero_prefix) then None
  else if decide (digits_value radix ds < 2 ^ w) then Some (digits_value radix ds, rest) else None.

Definition read_octet (i : nat) : parser Z := read_separator 46 i (read_number 8 10 (Some 3%nat) false).
Definition read_ipv4_addr : parser (list Z) := λ s,
  '(a, s) ← read_octet 0 s; '(b, s) ← read_octet 1 s; '(c, s) ← read_octet 2 s; '(d, s) ← read_octet 3 s;
  Some ([a; b; c; d], s).

(** At most [k] groups, the next one being number [i]: the groups, whether they
    end in an embedded IPv4 address, and the rest. *)
Fixpoint read_groups (k i : nat) (s : text) : list Z * bool * text :=
  match k with
  | O => ([], false, s)
  | S k =>
      match (if decide (0 < k)%nat then read_separator 58 i read_ipv4_addr s else None) with
      | Some ([a; b; c; d], s) => ([a * 256 + b; c * 256 + d], true, s)
      | _ =>
          match read_separator 58 i (read_number 16 16 (Some 4%nat) true) s with
          | Some (g, s) => let '(gs, v4, s) := read_groups k (S i) s in (g :: gs, v4, s)
          | None => ([], false, s)
          end
      end
  end.

Definition read_ipv6_addr : parser (list Z) := λ s,
  let octets := mbind (λ g, [g / 256; g mod 256]) in
  let '(front, v4, s) := read_groups 8 0 s in
  if decide (length front = 8%nat) then Some (octets front, s)
  else if v4 then None
  else
    '(_, s) ← read_given_char 58 s;
    '(_, s) ← read_given_char 58 s;
    let '(back, _, s) := read_groups (8 - (length front + 1)) 0 s in
    Some (octets (front ++ replicate (8 - length front - length back) 0 ++ back), s).

Definition read_port : parser Z := λ s,
  '(_, s) ← read_given_char 58 s; read_number 16 10 None true s.

(** The scope is not kept by the callers. *)
Definition read_scope_id : parser Z := λ s,
  '(_, s) ← read_given_char 37 s; read_number 32 10 None true s.

Definition read_socket_addr_v4 : parser (IpAddr * Z) := λ s,
  '(ip, s) ← read_ipv4_addr s; '(port, s) ← read_port s; Some ((V4 ip, port), s).

Definition read_socket_addr_v6 : parser (IpAddr * Z) := λ s,
  '(_, s) ← read_given_char 91 s;
  '(ip, s) ← read_ipv6_addr s;
  let s := match read_scope_id s with Some (_, s) => s | None => s end in
  '(_, s) ← read_given_char 93 s;
  '(port, s) ← read_port s;
  Some ((V6 ip, port), s).

(** [str::parse::<SocketAddr>]. *)
Definition parse_socket_addr (s : text) : option (IpAddr * Z) :=
  match match read_socket_addr_v4 s with Some r => Some r | None => read_socket_addr_v6 s end with
  | Some (a, []) => Some a
  | _ => None
  end.

(** [Display] of an IPv4 socket address. *)
Definition show_ipv4 (octets : list Z) : text := join (lit ".") (show_unsigned <$> octets).
Definition show_socket_v4 (octets : list Z) (port : Z) : text := show_ipv4 octets ++ lit ":" ++ show_unsigned port.

(** ** Options (src/bin/node.rs) *)

(** The option may be given more than once: the values are joined. *)
Definition join_connect (peers next : text) : text := peers ++ [44] ++ next.

(** The error is the piece that does not parse. *)
Fixpoint parse_addrs (pieces : list text) : outcome text (list (IpAddr * Z)) :=
  match pieces with
  | [] => Ok []
  | piece :: pieces =>
      a ← ok_or (parse_socket_addr (trim piece)) piece;
      rest ← parse_addrs pieces;
      Ok (a :: rest)
  end.

Definition parse_connect (connect : option text) : outcome text (list (IpAddr * Z)) :=
  match connect with
  | None => Ok []
  | Some l => parse_addrs (split 44 l)
  end.

(** An invalid proxy triggers the shutdown and [main] returns. *)
Definition parse_proxy (proxy : option text) : option (option (IpAddr * Z)) :=
  match proxy with
  | None => Some None
  | Some s => Some <$> parse_socket_addr s
  end.

(** The number of peer threads: one per address given, or the default. *)
Definition max_peers (given : list (IpAddr * Z)) (default : nat) : nat :=
  if is_nil given then default else length given.

(** ** Addresses read back *)

(** The text after a number does not go on with a digit. *)
Definition no_digit (rest : text) : Prop := ∀ c, head rest = Some c → to_digit 10 c = None.

Lemma digit_char c : is_digit c = true → to_digit 10 c = Some (c - 48).
Proof.
  intros Hc. pose proof Hc as Hd. apply bool_decide_eq_true in Hd. unfold to_digit. rewrite Hc. simpl.
  by rewrite decide_True by lia.
Qed.

Lemma take_digits_app t rest :
  (∀ c, c ∈ t → is_digit c = true) → no_digit rest →
  take_digits 10 (t ++ rest) = ((λ c, c - 48) <$> t, rest).
Proof.
  intros Ht Hr. induction t as [|c t IH]; cbn [app take_digits].
  - destruct rest as [|c rest]; [done|]. cbn [take_digits]. by rewrite (Hr c eq_refl).
  - rewrite (digit_char c) by (apply Ht; by constructor). rewrite IH by (intros; apply Ht; by constructor). done.
Qed.

Lemma parse_digits_value w s acc v :
  (∀ c, c ∈ s → is_digit c = true) → parse_digits w acc s = Some v →
  foldl (λ a d, a * 10 + d) acc ((λ c, c - 48) <$> s) = v.
Proof.
  revert acc. induction s as [|c s IH]; intros acc Hs; cbn [parse_digits]; [by intros [= <-]|].
  rewrite (digit_char c) by (apply Hs; by constructor). csimpl. case_decide; [|done].
  apply IH. intros; apply Hs; by constructor.
Qed.

Lemma read_number_show w max allow n rest :
  0 ≤ n < 2 ^ w → no_digit rest →
  (∀ m, max = Some m → (length (show_unsigned n) ≤ m)%nat) →
  (allow = false → head (show_unsigned n) = Some 48 → length (show_unsigned n) = 1%nat) →
  read_number w 10 max allow (show_unsigned n ++ rest) = Some (n, rest).
Proof.
  intros Hn Hrest Hmax Hzero. unfold read_number.
  assert (∀ c, c ∈ show_unsigned n → is_digit c = true) as Hdig by (intros; eapply show_digits; [|done]; lia).
  rewrite take_digits_app by done.
  assert (digits_value 10 ((λ c, c - 48) <$> show_unsigned n) = n) as ->.
  { eapply parse_digits_value; [done|]. apply (parse_digits_show w). lia. }
  assert (show_unsigned n ≠ []) as Hne by apply digits_of_nonempty.
  rewrite length_fmap, decide_True by lia.
  assert (is_nil ((λ c, c - 48) <$> show_unsigned n) = false) as -> by (by destruct (show_unsigned n)).
  assert (match max with Some m => bool_decide (m < length (show_unsigned n))%nat | None => false end = false) as ->.
  { destruct max as [m|]; [|done]. apply bool_decide_eq_false. specialize (Hmax m eq_refl). lia. }
  replace (head (show_unsigned n ++ rest)) with (head (show_unsigned n)) by (by destruct (show_unsigned n)).
  destruct allow; [done|]. simpl. destruct (decide (head (show_unsigned n) = Some 48)) as [Hh|Hh].
  - rewrite (Hzero eq_refl Hh). by rewrite andb_false_r.
  - by rewrite bool_decide_false.
Qed.

Lemma octet_shape n :
  in_u 8 n → (length (show_unsigned n) ≤ 3)%nat ∧
  (head (show_unsigned n) = Some 48 → length (show_unsigned n) = 1%nat).
Proof.
  intros Hn.
  assert (forallb (λ k, let t := show_unsigned (Z.of_nat k) in
    bool_decide (length t ≤ 3)%nat && (negb (bool_decide (head t = Some 48)) || bool_decide (length t = 1)%nat))
    (seq 0 256) = true) as Hall by (vm_compute; reflexivity).
  rewrite forallb_forall in Hall. specialize (Hall (Z.to_nat n)).
  rewrite Z2Nat.id in Hall by (unfold in_u in Hn; lia).
  destruct (andb_prop _ _ (Hall ltac:(apply in_seq; unfold in_u in Hn; change (2 ^ 8) with 256 in Hn; lia)))
    as [H1%bool_decide_eq_true [H2|H2%bool_decide_eq_true]%orb_prop]; split; try done.
  intros Hh. by rewrite bool_decide_true in H2.
Qed.

Lemma read_octet_show i n rest :
  in_u 8 n → no_digit rest →
  read_octet i ((if decide (0 < i)%nat then lit "." else []) ++ show_unsigned n ++ rest) = Some (n, rest).
Proof.
  intros Hn Hr. destruct (octet_shape n Hn) as [Hlen Hz].
  assert (read_number 8 10 (Some 3%nat) false (show_unsigned n ++ rest) = Some (n, rest)) as Hread.
  { apply read_number_show; [done|done| |done]. by intros m [= <-]. }
  unfold read_octet, read_separator. case_decide; [|exact Hread].
  change (lit "." ++ show_unsigned n ++ rest) with (46 :: (show_unsigned n ++ rest)).
  cbn [read_given_char]. rewrite decide_True by done. csimpl. exact Hread.
Qed.

Lemma parse_show_v4 octets port :
  array_ok 4 octets → in_u 16 port → parse_socket_addr (show_socket_v4 octets port) = Some (V4 octets, port).
Proof.
  intros [Hlen Hb] Hp. destruct octets as [|a [|b [|c [|d []]]]]; try done.
  unfold bytes_ok in Hb. rewrite !Forall_cons in Hb. destruct Hb as (Ha & Hb & Hc & Hd & _).
  set (port_text := lit ":" ++ show_unsigned port).
  assert (∀ x l, to_digit 10 x = None → no_digit (x :: l)) as Hnd by (by intros x l ? c' [= <-]).
  assert (∀ i n rest, in_u 8 n → no_digit rest → (0 < i)%nat →
    read_octet i (46 :: show_unsigned n ++ rest) = Some (n, rest)) as Hsep.
  { intros i n rest Hn Hr Hi. pose proof (read_octet_show i n rest Hn Hr) as Ho. by rewrite decide_True in Ho. }
  assert (show_socket_v4 [a; b; c; d] port =
    show_unsigned a ++ 46 :: show_unsigned b ++ 46 :: show_unsigned c ++ 46 :: show_unsigned d ++ port_text) as ->.
  { unfold show_socket_v4, show_ipv4. cbn [fmap list_fmap join]. rewrite <- !app_assoc. done. }
  unfold parse_socket_addr, read_socket_addr_v4, read_ipv4_addr.
  pose proof (read_octet_show 0 a (46 :: show_unsigned b ++ 46 :: show_unsigned c ++ 46 :: show_unsigned d ++ port_text)
    Ha (Hnd 46 _ eq_refl)) as H0.
  change ((if decide (0 < 0)%nat then lit "." else []) ++ show_unsigned a ++ ?r) with (show_unsigned a ++ r) in H0.
  assert (∀ l, no_digit (46 :: l)) as Hdot by (intros; by apply Hnd).
  assert (no_digit port_text) as Hport by exact (Hnd 58 _ eq_refl).
  rewrite H0. csimpl. rewrite Hsep by (auto || lia). csimpl. rewrite Hsep by (auto || lia).
  csimpl. rewrite Hsep by (auto || lia). csimpl.
  assert (read_port port_text = Some (port, [])) as ->; [|done].
  unfold read_port, port_text. change (lit ":" ++ show_unsigned port) with (58 :: show_unsigned port).
  cbn [read_given_char]. rewrite decide_True by done. csimpl. rewrite <- (app_nil_r (show_unsigned port)).
  apply read_number_show; done.
Qed.

(** ** Addresses are well-formed *)

Lemma to_digit_range radix c d : to_digit radix c = Some d → 0 ≤ d < radix.
Proof.
  unfold to_digit, is_digit, is_lower, is_upper. intros (v & Hv & Hd)%bind_Some.
  case_decide; [|done]. injection Hd as <-. repeat case_bool_decide; simplify_eq; lia.
Qed.

Lemma take_digits_range radix s : Forall (λ d, 0 ≤ d < radix) (take_digits radix s).1.
Proof.
  induction s as [|c s IH]; cbn [take_digits]; [constructor|].
  destruct (to_digit radix c) as [d|] eqn:Hd; [|constructor].
  destruct (take_digits radix s). constructor; [by eapply to_digit_range|done].
Qed.

Lemma digits_value_nonneg radix ds acc :
  0 ≤ acc → 0 ≤ radix → Forall (λ d, 0 ≤ d < radix) ds → 0 ≤ foldl (λ acc d, acc * radix + d) acc ds.
Proof. intros Ha Hr Hds. revert acc Ha. induction Hds; intros acc Ha; simpl; [done|]. apply IHHds. nia. Qed.

Lemma read_number_range w radix max allow s n rest :
  0 ≤ radix → read_number w radix max allow s = Some (n, rest) → in_u w n.
Proof.
  intros Hr. unfold read_number. pose proof (take_digits_range radix s) as Hd.
  destruct (take_digits radix s) as [ds rest']. destruct (_ || _); [done|]. case_decide; [|done].
  intros [= <- <-]. split; [|done]. by apply digits_value_nonneg.
Qed.

Lemma read_separator_inner {A} sep i (p : parser A) s r : read_separator sep i p s = Some r → ∃ s', p s' = Some r.
Proof.
  unfold read_separator. case_decide; [|eauto]. intros ([u s'] & _ & Hp)%bind_Some. eauto.
Qed.

Lemma read_octet_range i s n rest : read_octet i s = Some (n, rest) → in_u 8 n.
Proof. intros (s' & Hs)%read_separator_inner. by eapply read_number_range in Hs. Qed.

Lemma read_ipv4_typed s o rest : read_ipv4_addr s = Some (o, rest) → array_ok 4 o.
Proof.
  unfold read_ipv4_addr. intros ([a sa] & Ha & ([b sb] & Hb & ([c sc] & Hc &
    ([d sd] & Hd & [= <- <-])%bind_Some)%bind_Some)%bind_Some)%bind_Some.
  split; [done|]. repeat constructor; by eapply read_octet_range.
Qed.

Lemma read_groups_typed k i s :
  let '(gs, _, _) := read_groups k i s in (length gs ≤ k)%nat ∧ Forall (in_u 16) gs.
Proof.
  revert i s. induction k as [|k IH]; intros i s; cbn [read_groups]; [split; [done|constructor]|].
  assert (let '(gs, _, _) :=
    match read_separator 58 i (read_number 16 16 (Some 4%nat) true) s with
    | Some (g, s) => let '(gs, v4, s) := read_groups k (S i) s in (g :: gs, v4, s)
    | None => ([], false, s)
    end in (length gs ≤ S k)%nat ∧ Forall (in_u 16) gs) as Hplain.
  { destruct (read_separator _ _ _ s) as [[g s']|] eqn:Hg; [|split; [simpl; lia|constructor]].
    specialize (IH (S i) s'). destruct (read_groups k (S i) s') as [[gs v4] s2]. destruct IH as [Hl Hf].
    apply read_separator_inner in Hg as (s3 & Hg). apply read_number_range in Hg; [|done].
    split; [simpl; lia|by constructor]. }
  case_decide as Hk; [|exact Hplain].
  destruct (read_separator 58 i read_ipv4_addr s) as [[o s']|] eqn:Ho; [|exact Hplain].
  apply read_separator_inner in Ho as (s2 & Ho). apply read_ipv4_typed in Ho as [Hlen Hb].
  destruct o as [|a [|b [|c [|d []]]]]; try done. unfold bytes_ok in Hb. rewrite !Forall_cons in Hb.
  destruct Hb as (Ha & Hb & Hc & Hd & _). unfold in_u in *. split; [simpl; lia|]. repeat constructor; lia.
Qed.

Lemma group_octets gs :
  Forall (in_u 16) gs → array_ok (2 * length gs) (mbind (λ g, [g / 256; g mod 256]) gs).
Proof.
  induction 1 as [|g gs Hg _ [Hl Hb]]; [by split; [|constructor]|]. csimpl. split; [simpl; lia|].
  unfold in_u in Hg. repeat constructor; try done.
  - by apply Z.div_pos; lia.
  - apply Z.div_lt_upper_bound; lia.
  - by apply Z.mod_pos_bound.
  - by apply Z.mod_pos_bound.
Qed.

Lemma read_ipv6_typed s o rest : read_ipv6_addr s = Some (o, rest) → array_ok 16 o.
Proof.
  unfold read_ipv6_addr. pose proof (read_groups_typed 8 0 s) as Hf.
  destruct (read_groups 8 0 s) as [[front v4] s1]. destruct Hf as [Hfl Hff]. case_decide as H8.
  - intros [= <- <-]. pose proof (group_octets front Hff) as Ho. by rewrite H8 in Ho.
  - destruct v4; [done|]. intros ([[] s2] & _ & ([[] s3] & _ & Hb)%bind_Some)%bind_Some.
    pose proof (read_groups_typed (8 - (length front + 1)) 0 s3) as Hbk.
    destruct (read_groups _ 0 s3) as [[back v4'] s4]. destruct Hbk as [Hbl Hbf]. injection Hb as <- <-.
    replace 16%nat with (2 * length (front ++ replicate (8 - length front - length back) 0%Z ++ back))%nat.
    + apply group_octets. apply Forall_app. split; [done|]. apply Forall_app. split; [|done].
      apply Forall_replicate. by split.
    + rewrite !length_app, length_replicate. lia.
Qed.

Lemma read_port_range s n rest : read_port s = Some (n, rest) → in_u 16 n.
Proof. intros ([[] s'] & _ & Hn)%bind_Some. by eapply read_number_range in Hn. Qed.

Lemma parse_socket_typed s a : parse_socket_addr s = Some a → socket_ok a.
Proof.
  unfold parse_socket_addr. destruct (read_socket_addr_v4 s) as [[a' [|]]|] eqn:H4; try done.
  - intros [= <-]. apply bind_Some in H4 as ([ip s1] & Hip & ([port s2] & Hp & [= <- ->])%bind_Some).
    split; [by eapply read_ipv4_typed|by eapply read_port_range].
  - destruct (read_socket_addr_v6 s) as [[a' [|]]|] eqn:H6; try done. intros [= <-].
    apply bind_Some in H6 as ([[] s1] & _ & ([ip s2] & Hip & ([[] s3] & _ &
      ([port s4] & Hp & [= <- ->])%bind_Some)%bind_Some)%bind_Some).
    split; [by eapply read_ipv6_typed|by eapply read_port_range].
Qed.

Lemma parse_addrs_typed ps l : parse_addrs ps = Ok l → Forall socket_ok l.
Proof.
  revert l. induction ps as [|p ps IH]; intros l; cbn [parse_addrs]; [by intros [= <-]|].
  intros (a & Ha & (rest & Hr & [= <-])%bind_Ok)%bind_Ok. constructor; [|by apply IH].
  destruct (parse_socket_addr (trim p)) as [b|] eqn:Hp; [|done]. injection Ha as <-.
  by eapply parse_socket_typed.
Qed.

Lemma parse_connect_typed o l : parse_connect o = Ok l → Forall socket_ok l.
Proof. destruct o; simpl; [apply parse_addrs_typed|by intros [= <-]]. Qed.

(** ** The [--connect] option *)

Lemma parse_addrs_app ps qs :
  parse_addrs (ps ++ qs) = (xs ← parse_addrs ps; ys ← parse_addrs qs; Ok (xs ++ ys)).
Proof.
  induction ps as [|p ps IH]; cbn [app parse_addrs].
  { simpl_outcome. by destruct (parse_addrs qs). }
  destruct (parse_socket_addr (trim p)) as [a|]; simpl_outcome; [|done]. rewrite IH.
  destruct (parse_addrs ps); simpl_outcome; [|done|done]. by destruct (parse_addrs qs).
Qed.

Lemma show_v4_chars octets port c :
  array_ok 4 octets → in_u 16 port → c ∈ show_socket_v4 octets port → is_digit c = true ∨ c = 46 ∨ c = 58.
Proof.
  intros [Hlen Hb] Hp. destruct octets as [|x [|y [|z [|w []]]]]; try done.
  unfold bytes_ok in Hb. rewrite !Forall_cons in Hb. destruct Hb as (? & ? & ? & ? & _). unfold in_u in *.
  unfold show_socket_v4, show_ipv4. cbn [fmap list_fmap join]. rewrite !elem_of_app.
  assert (∀ n, 0 ≤ n → c ∈ show_unsigned n → is_digit c = true) as Hd by (intros; by eapply show_digits).
  intros Hc. repeat match goal with H : _ ∨ _ |- _ => destruct H as [H|H] end;
    try (left; by eapply Hd; [|done]; lia).
  all: apply list_elem_of_singleton in Hc as ->; vm_compute; auto.
Qed.

(** The --connect option names the peers it lists: values given separately are
    read as one list, in order, a wrong piece is reported as it was written and
    the first one wins, and the displayed form of any IPv4 addresses, with
    blanks around them, reads back as those addresses. *)
Theorem connect_option_faithful :
  (∀ a b, parse_connect (Some (join_connect a b)) =
     (xs ← parse_connect (Some a); ys ← parse_connect (Some b); Ok (xs ++ ys))) ∧
  (∀ l piece, parse_connect (Some l) = Err piece →
     ∃ before after, split 44 l = before ++ piece :: after ∧ is_ok (parse_addrs before) = true ∧
       parse_socket_addr (trim piece) = None) ∧
  (∀ peers : list (list Z * Z), peers ≠ [] → Forall (λ '(o, p), array_ok 4 o ∧ in_u 16 p) peers →
     parse_connect (Some (join (lit ",") ((λ '(o, p), show_socket_v4 o p) <$> peers))) =
     Ok ((λ '(o, p), (V4 o, p)) <$> peers)).
Proof.
  split_and!.
  - intros a b. unfold parse_connect, join_connect. cbn [app]. rewrite split_app. apply parse_addrs_app.
  - intros l piece. cbn [parse_connect]. induction (split 44 l) as [|p ps IH]; cbn [parse_addrs]; [done|].
    destruct (parse_socket_addr (trim p)) as [a|] eqn:Hp; simpl_outcome.
    + destruct (parse_addrs ps) as [xs|e|] eqn:Hps; simpl_outcome; [done| |done]. intros [= ->].
      destruct (IH eq_refl) as (before & after & -> & Hok & Hn).
      exists (p :: before), after. split_and!; [done| |done]. cbn [parse_addrs]. rewrite Hp. simpl_outcome.
      by destruct (parse_addrs before).
    + intros [= ->]. by exists [], ps.
  - intros peers Hne Hall. cbn [parse_connect]. change (lit ",") with [44].
    rewrite split_join; [|by destruct peers|].
    + clear Hne. induction Hall as [|[o p] peers [Ho Hp] Hall IH]; [done|]. cbn [fmap list_fmap parse_addrs].
      rewrite trim_id, parse_show_v4 by (done || (intros c [Hc|[->| ->]]%show_v4_chars; try done;
        apply bool_decide_eq_true in Hc; unfold is_whitespace; rewrite !bool_decide_false; try done; [|lia|lia];
        rewrite !elem_of_cons, elem_of_nil; lia)).
      simpl_outcome. cbn [fmap list_fmap] in IH. rewrite IH. done.
    + apply Forall_fmap. eapply Forall_impl; [exact Hall|]. intros [o p] [Ho Hp]. simpl.
      intros [Hc|[Hc|Hc]]%show_v4_chars; try done.
Qed.

(** ** The table at start *)

Section Start.
Context `{DefaultHasher} `{AddrCodec}.

(** Where the record of an address belongs. *)
Definition seed_pos (a : IpAddr * Z) : nat * nat :=
  pos TABLE_WIDTH TABLE_SLOT MAX_BUCKETS (seed_record a.1 a.2).
Definition first_at (p : nat * nat) (given : list (IpAddr * Z)) : option (IpAddr * Z) :=
  find_first (λ a, bool_decide (seed_pos a = p)) given.

Lemma add_seeds_spec given t m :
  refines TABLE_WIDTH TABLE_SLOT t m →
  ∃ t', add_seeds given t = Some t' ∧
    ∀ p, slot_at t' p = match m !! p with
                        | Some r => Some r
                        | None => (λ a, seed_record a.1 a.2) <$> first_at p given
                        end.
Proof.
  revert t m. induction given as [|[ip port] given IH]; intros t m Hm; cbn [add_seeds].
  { exists t. split; [done|]. intros p. rewrite (proj2 Hm). simpl. by destruct (m !! p). }
  destruct (add_refines TABLE_WIDTH TABLE_SLOT MAX_BUCKETS (proj1 sizes) (proj1 (proj2 sizes)) t m
    (seed_record ip port) Hm) as (t1 & Ha & Hm1).
  rewrite Ha. csimpl. destruct (IH t1 _ Hm1) as (t' & Ht' & Hp). exists t'. split; [done|].
  intros p. rewrite Hp. unfold spec_add, first_at. cbn [find_first]. unfold seed_pos at 1. cbn [fst snd].
  set (q := pos TABLE_WIDTH TABLE_SLOT MAX_BUCKETS (seed_record ip port)).
  destruct (m !! q) as [r|] eqn:Hq; cbn [fst].
  - destruct (decide (q = p)) as [<-|Hne]; [by rewrite Hq|]. by rewrite (bool_decide_false (q = p)).
  - destruct (decide (q = p)) as [<-|Hne].
    + by rewrite lookup_insert_eq, bool_decide_true, Hq.
    + rewrite lookup_insert_ne by done. by rewrite (bool_decide_false (q = p)).
Qed.

(** A node started with --connect knows the addresses given and no others: the
    table is built without a panic and without looking at the peers file or the
    seeds, and each of its slots holds the record of the first given address
    that belongs there. *)
Theorem connect_fills_table given seeds p2p_port path d :
  given ≠ [] →
  ∃ t, initial_table given seeds p2p_port path d = Ok t ∧
    (∀ p, slot_at t p = (λ a, seed_record a.1 a.2) <$> first_at p given) ∧
    (∀ a, a ∈ given → (∀ b, b ∈ given → seed_pos b = seed_pos a → b = a) →
       slot_at t (seed_pos a) = Some (seed_record a.1 a.2)).
Proof.
  intros Hne. unfold initial_table.
  assert (is_nil given = false) as -> by (by apply is_nil_false).
  destruct (add_seeds_spec given _ ∅ (table_new_refines TABLE_WIDTH TABLE_SLOT))
    as (t & -> & Ht).
  exists t. split; [done|]. assert (∀ p, slot_at t p = (λ a, seed_record a.1 a.2) <$> first_at p given) as Hslot
    by (intros p; by rewrite Ht, lookup_empty).
  split; [done|]. intros a Ha Huniq. rewrite Hslot. unfold first_at.
  destruct (find_first _ given) as [b|] eqn:Hb.
  - apply find_first_Some in Hb as [Hin Hp%bool_decide_eq_true]. by rewrite (Huniq b Hin Hp).
  - apply (find_first_None _ _ Hb) in Ha. by rewrite bool_decide_true in Ha.
Qed.
End Start.

(** ** Concrete values *)

Module Witness.
Import Addr.Demo.

Lemma parsed_addresses :
  parse_socket_addr (lit "[::ffff:1.2.3.4]:8333") =
    Some (V6 [0; 0; 0; 0; 0; 0; 0; 0; 0; 0; 255; 255; 1; 2; 3; 4], 8333) ∧
  parse_socket_addr (lit "[1:2:3:4:5:6:7::%5]:1") = Some (V6 [0; 1; 0; 2; 0; 3; 0; 4; 0; 5; 0; 6; 0; 7; 0; 0], 1) ∧
  parse_socket_addr (lit "1.2.3.04:8333") = None ∧ parse_socket_addr (lit "1.2.3.4:65536") = None ∧
  parse_socket_addr (lit "1.2.3.4") = None ∧
  (** A host name is not an address. *)
  parse_connect (Some (lit "1.2.3.4:1, localhost:8333")) = Err (lit " localhost:8333").
Proof. split_and!; vm_compute; reflexivity. Qed.

Lemma connect_option_witness :
  parse_connect (Some (lit "1.2.3.4:8333,10.0.0.255:1")) = Ok [(V4 [1; 2; 3; 4], 8333); (V4 [10; 0; 0; 255], 1)].
Proof.
  pose proof (proj2 (proj2 connect_option_faithful) [([1; 2; 3; 4], 8333); ([10; 0; 0; 255], 1)]) as Hp.
  apply Hp; [discriminate|]. repeat constructor; discriminate.
Defined.

Definition peers : list (IpAddr * Z) := [(V4 [1; 2; 3; 4], 8333)].
Lemma connect_fills_witness :
  ∃ t, initial_table peers [] 8333 "peers.bin" ∅ = Ok t ∧
    slot_at t (seed_pos (V4 [1; 2; 3; 4], 8333)) = Some (seed_record (V4 [1; 2; 3; 4]) 8333).
Proof.
  destruct (connect_fills_table peers [] 8333 "peers.bin" ∅) as (t & Ht & _ & Hin); [discriminate|].
  exists t. split; [exact Ht|]. apply (Hin (V4 [1; 2; 3; 4], 8333)); [constructor|].
  intros b Hb _. by apply list_elem_of_singleton in Hb.
Defined.
End Witness.
