(* ===== verification/Display.v ===== *)
(** * What errors and addresses look like

    The [Display] implementations of the sources: the errors of the wallet file
    and of the keys file, of connections and of the handshake, destinations and
    onion names, and the lines of the kernel's log. How outside types are
    displayed is an argument. *)

From S2P Require Import Prelude Text Addr Messages Handshake Connection Fs Wallet WalletStore KeysFile Socks5 Outbound Config.

Section Display.
Context `{Wire}.
(** [std::io::Error], [secp256k1::Error], [silentpayments::Network] ([{:?}]),
    [DeserializeError], [Magic], a command and [ServiceFlags]. *)
Variable show_io : io_error → text.
Variable show_secp : text.
Variable debug_network : Wallet.Network → text.
Variable show_deserialize : DeserializeError → text.
Variable show_magic : list Z → text.
Variable show_command : string → text.
Variable show_services : Z → text.

Definition show_keys_error (e : KeysFileError) : text :=
  match e with
  | KeysIo e => lit "i/o error: " ++ show_io e
  | KeysBadMagic => lit "bad magic: not a silent payments keys file"
  | WrongLength expected actual =>
      lit "wrong file length: expected " ++ show_unsigned expected ++ lit " bytes, got " ++ show_unsigned actual
  | UnknownSpendTag t => lit "unknown spend tag: " ++ show_unsigned t
  | InvalidKey => lit "invalid key: " ++ show_secp
  end.

Definition show_persistence_error (e : WalletPersistenceError) : text :=
  match e with
  | WalletStore.Io e => lit "i/o: " ++ show_io e
  | BadMagic => lit "bad magic bytes"
  | WrongVersion v => lit "unsupported version: " ++ show_unsigned v
  | UnknownNetwork n => lit "unknown network byte: " ++ show_unsigned n
  | UnknownSpentFlag s => lit "unknown spent flag byte: " ++ show_unsigned s
  | UnknownLabelTag t => lit "unknown label tag byte: " ++ show_unsigned t
  | InvalidScalar => lit "invalid scalar in record"
  | NonP2trScript got =>
      lit "script_pubkey is " ++ show_unsigned got ++ lit " bytes, expected " ++ show_unsigned (Z.of_nat SCRIPT_LEN)
  | TruncatedFile => lit "file is truncated"
  end.

Definition show_store_error (e : WalletStoreError) : text :=
  match e with
  | Persistence e => show_persistence_error e
  | NetworkMismatch file expected =>
      lit "wallet file network (" ++ debug_network file ++ lit ") does not match configured network (" ++
      debug_network expected ++ lit ")"
  end.

Definition show_handshake_error (e : handshake_error) : text :=
  match e with
  | ConnectionToSelf => lit "connected to self."
  | TooLowVersion version => lit "too low version: " ++ show_unsigned version
  | IrrelevantMessage irrelevant => lit "irrelevant message: " ++ show_command irrelevant
  | MissingService services => lit "missing services: " ++ show_services services
  end.

Definition show_net_error (e : net_error) : text :=
  match e with
  | Deserialize d => show_deserialize d
  | Connection.Io e => show_io e
  | HandshakeError e => show_handshake_error e
  | UnexpectedMagic magic => lit "unexpected network magic: " ++ show_magic magic
  | MissingVersion => lit "missing version message."
  | ChannelClosed => lit "channel closed"
  end.
End Display.

(** [KernelLog::log]: one line end at the end of the message is dropped. *)
Definition strip_suffix (suffix s : text) : option text := reverse <$> strip (reverse suffix) (reverse s).
Definition kernel_log_line (message : text) : text :=
  match strip_suffix [13; 10] message with
  | Some s => s
  | None => default message (strip_suffix [10] message)
  end.

(** ** Addresses *)

(** The hexadecimal digits of a 16-bit group, without leading zeros. *)
Definition hex_char (d : Z) : Z := if decide (d < 10) then 48 + d else 87 + d.
Definition show_group (g : Z) : text :=
  if decide (g < 16) then [hex_char g]
  else if decide (g < 256) then [hex_char (g / 16); hex_char (g mod 16)]
  else if decide (g < 4096) then [hex_char (g / 256); hex_char (g / 16 mod 16); hex_char (g mod 16)]
  else [hex_char (g / 4096); hex_char (g / 256 mod 16); hex_char (g / 16 mod 16); hex_char (g mod 16)].

Fixpoint groups_of (octets : list Z) : list Z :=
  match octets with
  | a :: b :: rest => (a * 256 + b) :: groups_of rest
  | _ => []
  end.

(** The number of zeros a list starts with, and the first of its longest runs of
    zeros as position and length. *)
Fixpoint zeros (gs : list Z) : nat :=
  match gs with
  | g :: gs => if decide (g = 0) then S (zeros gs) else 0
  | [] => 0
  end.
Fixpoint longest_zeros (at_ : nat) (gs : list Z) : nat * nat :=
  match gs with
  | [] => (0, 0)%nat
  | _ :: gs' =>
      let here := zeros gs in
      let '(pos, len) := longest_zeros (S at_) gs' in
      if decide (len ≤ here)%nat then (at_, here) else (pos, len)
  end.

(** [Display] of an [Ipv6Addr] (the standard library). *)
Definition show_ipv6 (octets : list Z) : text :=
  let gs := groups_of octets in
  let colons l := join (lit ":") (show_group <$> l) in
  if decide (take 6 gs = [0; 0; 0; 0; 0; 65535]) then lit "::ffff:" ++ show_ipv4 (drop 12 octets)
  else
    let '(pos, len) := longest_zeros 0 gs in
    if decide (1 < len)%nat then colons (take pos gs) ++ lit "::" ++ colons (drop (pos + len) gs)
    else colons gs.

Section Destinations.
Variable sha3_256 : list Z → list Z.

(** [OnionAddress]: the name is ASCII. *)
Definition show_onion (key : list Z) : outcome Empty_set text := pubkey_to_service sha3_256 key.

(** [Destination]; also what a [BitcoinPeer] is displayed as. *)
Definition show_destination (addr : AddrV2) (port : Z) : outcome Empty_set text :=
  match addr with
  | Ipv4 ipv4 => Ok (show_ipv4 ipv4 ++ lit ":" ++ show_unsigned port)
  | Ipv6 ipv6 => Ok (show_ipv6 ipv6 ++ lit ":" ++ show_unsigned port)
  | TorV3 torv3 => name ← show_onion torv3; Ok (name ++ lit ":" ++ show_unsigned port)
  | _ => Ok (lit "unreachable address")
  end.

(** [Destination::from_socket_addr]. *)
Definition from_socket_addr (a : IpAddr * Z) : AddrV2 * Z :=
  match a.1 with
  | V4 ipv4 => (Ipv4 ipv4, a.2)
  | V6 ipv6 => (Ipv6 ipv6, a.2)
  end.
End Destinations.

(** ** Properties *)

Lemma show_unsigned_inj a b : 0 ≤ a → 0 ≤ b → show_unsigned a = show_unsigned b → a = b.
Proof.
  intros Ha Hb Heq. set (w := Z.max a b + 1).
  assert (∀ n, 0 ≤ n → n < 2 ^ (n + 1)) as Hpow by (intros n Hn; pose proof (Z.pow_gt_lin_r 2 (n + 1)); lia).
  assert (a < 2 ^ w ∧ b < 2 ^ w) as [Ha' Hb'].
  { split; (eapply Z.lt_le_trans; [by apply Hpow|]); apply Z.pow_le_mono_r; lia. }
  assert (parse_unsigned w (show_unsigned a) = Some a) as Hpa by (apply parse_show; by split).
  rewrite Heq, parse_show in Hpa by (by split). congruence.
Qed.

(** The errors other than those of the operating system, with byte values. *)
Definition plain_error (e : WalletStoreError) : Prop :=
  match e with
  | Persistence (WalletStore.Io _) => False
  | Persistence (WrongVersion n | UnknownNetwork n | UnknownSpentFlag n | UnknownLabelTag n | NonP2trScript n) => 0 ≤ n
  | _ => True
  end.

(** Two texts that end before the same separator. *)
Lemma app_sep_inj (c : Z) a b r r' : c ∉ a → c ∉ b → a ++ c :: r = b ++ c :: r' → a = b ∧ r = r'.
Proof.
  revert b. induction a as [|x a IH]; intros [|y b] Ha Hb; simpl; try set_solver.
  intros [= -> Heq]. destruct (IH b) as [-> ->]; set_solver.
Qed.

(** The message with which the node refuses a wallet file tells what is wrong
    with it: two such errors are displayed alike only when they are the same. *)
Theorem store_errors_distinct show_io debug_network `{!Inj (=) (=) debug_network} e e' :
  (∀ n, 41 ∉ debug_network n) → plain_error e → plain_error e' →
  show_store_error show_io debug_network e = show_store_error show_io debug_network e' → e = e'.
Proof.
  intros Hsep. assert (∀ p a b, 0 ≤ a → 0 ≤ b → p ++ show_unsigned a = p ++ show_unsigned b → a = b) as Hnum.
  { intros p a b Ha Hb Heq%app_inv_head. by apply show_unsigned_inj. }
  destruct e as [[]|f x], e' as [[]|f' x']; cbn [plain_error]; try done; intros He He';
    cbn [show_store_error show_persistence_error]; try (intros Heq; by discriminate Heq).
  - by intros ->%Hnum.
  - by intros ->%Hnum.
  - by intros ->%Hnum.
  - by intros ->%Hnum.
  - rewrite !app_assoc. intros Heq%app_inv_tail. rewrite <- !app_assoc in Heq.
    rewrite !app_assoc in Heq. apply app_inv_tail in Heq. by apply Hnum in Heq as ->.
  - intros Heq%app_inv_head. apply (app_sep_inj 41) in Heq as [->%(inj debug_network) Heq]; [|done|done].
    apply (app_inv_head (lit " does not match configured network (")) in Heq.
    apply (app_sep_inj 41) in Heq as [->%(inj debug_network) _]; done.
Qed.

Lemma strip_app p s : strip p (p ++ s) = Some s.
Proof. induction p as [|a p IH]; simpl; [done|]. by rewrite decide_True. Qed.

Lemma strip_suffix_app suffix s : strip_suffix suffix (s ++ suffix) = Some s.
Proof. unfold strip_suffix. rewrite reverse_app, strip_app. simpl. by rewrite reverse_involutive. Qed.

Lemma strip_suffix_last c suffix s : last s ≠ Some c → strip_suffix (suffix ++ [c]) s = None.
Proof.
  intros Hl. unfold strip_suffix. rewrite reverse_snoc. destruct s as [|x s _] using rev_ind; [done|].
  rewrite last_snoc in Hl. rewrite reverse_snoc. simpl. by rewrite decide_False by congruence.
Qed.

(** A message of the kernel is logged without its line end, whichever of the two
    kinds it has, and one without a line end as it is. *)
Theorem kernel_log_spec s :
  kernel_log_line (s ++ [13; 10]) = s ∧ (last s ≠ Some 13 → kernel_log_line (s ++ [10]) = s) ∧
  (last s ≠ Some 10 → kernel_log_line s = s).
Proof.
  unfold kernel_log_line. split_and!.
  - by rewrite strip_suffix_app.
  - intros Hl. rewrite strip_suffix_app. destruct (strip_suffix [13; 10] (s ++ [10])) as [r|] eqn:Hr; [|done].
    exfalso. unfold strip_suffix in Hr. rewrite reverse_snoc in Hr. simpl in Hr.
    destruct s as [|x s _] using rev_ind; [done|]. rewrite reverse_snoc in Hr. rewrite last_snoc in Hl. simpl in Hr.
    by rewrite decide_False in Hr by congruence.
  - intros Hl. by rewrite (strip_suffix_last 10 [13]), (strip_suffix_last 10 []).
Qed.

Module Witness.
Import Addr.Demo.

Definition debug_demo (n : Wallet.Network) : text :=
  match n with
  | Wallet.Mainnet => lit "Mainnet"
  | Wallet.Testnet => lit "Testnet"
  | Wallet.Regtest => lit "Regtest"
  end.

Lemma store_errors_witness :
  show_store_error (λ _, []) debug_demo (NetworkMismatch Wallet.Regtest Wallet.Mainnet) ≠
  show_store_error (λ _, []) debug_demo (Persistence BadMagic).
Proof.
  intros Heq. enough (NetworkMismatch Wallet.Regtest Wallet.Mainnet = Persistence BadMagic) as He by discriminate He.
  assert (Inj (=) (=) debug_demo) as Hinj by (intros [] []; done).
  apply (store_errors_distinct (λ _, []) debug_demo); [|exact I|exact I|exact Heq].
  intros n. apply (bool_decide_unpack _). destruct n; vm_compute; exact I.
Defined.

Lemma shown_addresses :
  show_destination (λ _, []) (Ipv4 [127; 0; 0; 1]) 8333 = Ok (lit "127.0.0.1:8333") ∧
  show_ipv6 [32; 1; 13; 184; 0; 0; 0; 0; 0; 1; 0; 0; 0; 0; 0; 1] = lit "2001:db8::1:0:0:1" ∧
  show_ipv6 [0; 0; 0; 0; 0; 0; 0; 0; 0; 0; 255; 255; 1; 2; 3; 4] = lit "::ffff:1.2.3.4" ∧
  show_ipv6 (replicate 16 0) = lit "::" ∧
  show_ipv6 [0; 0; 0; 1; 0; 0; 0; 1; 0; 0; 0; 1; 0; 0; 0; 1] = lit "0:1:0:1:0:1:0:1" ∧
  show_destination (λ _, []) (I2p []) 1 = Ok (lit "unreachable address").
Proof. split_and!; vm_compute; reflexivity. Qed.

(** The displayed form of an IPv6 destination, unlike that of an IPv4 one, is not
    read back as an address: the brackets are missing. *)
Lemma ipv6_destination_not_read_back :
  show_destination (λ _, []) (Ipv6 (replicate 16 0)) 8333 = Ok (lit ":::8333") ∧
  parse_socket_addr (lit ":::8333") = None ∧ parse_socket_addr (lit "127.0.0.1:8333") = Some (V4 [127; 0; 0; 1], 8333).
Proof. split_and!; vm_compute; reflexivity. Qed.
End Witness.
