(* ===== verification/Ipc.v ===== *)
(** * The IPC server (src/ipc/mod.rs, wallet.rs, chain.rs)

    The calls a client makes on a running node, with the texts they answer. The
    encoding of the calls is Cap'n Proto's; the wallet calls act on the wallet
    service of [Service]. *)

From Corelib Require Import SpecFloat.
From S2P Require Import Prelude Text Shutdown Wallet WalletStore KeysFile Sending Service.

(** What the server uses of other crates: the display of a transaction id and of
    foreign errors, and the decoder of transactions. *)
Class IpcDeps `{Spending} := {
  show_txid : Txid → text;
  compute_txid : Transaction → Txid;
  consensus_decode : list Z → option Transaction;
  show_sp_error : SpError → text;
  show_secp_error : SecpError → text;
  show_sighash_error : SighashError → text;
}.
(** A transaction id is displayed as hexadecimal digits. *)
Class IpcDepsLaws `{IpcDeps} := {
  show_txid_inj : ∀ t t', show_txid t = show_txid t' → t = t';
  show_txid_hex : ∀ t c, c ∈ show_txid t → is_digit c = true ∨ is_lower c = true;
}.

(** ** Texts *)

Section Display.
Context `{IpcDeps}.

(** [Display] of [HistoryEntry] (wallet.rs). *)
Definition show_entry (e : HistoryEntry) : text :=
  let line kind o v h :=
    lit kind ++ lit " " ++ show_txid o.(txid) ++ lit ":" ++ show_unsigned o.(vout) ++ lit " " ++
    show_unsigned v ++ lit " sats at " ++ show_unsigned h in
  match e with
  | Received o v h => line "recv" o v h
  | Spent o v h => line "spent" o v h
  end.

(** [Display] of [SendError] (sending.rs). *)
Definition show_send_error (bytes_of : string → text) (e : SendError) : text :=
  match e with
  | WatchOnly => lit "wallet is watch-only: no spend secret to sign with"
  | NoSpendableCoins => lit "no spendable coins"
  | DustAmount amount dust =>
      lit "amount " ++ show_unsigned amount ++ lit " sats is below the dust limit of " ++
      show_unsigned dust ++ lit " sats"
  | InsufficientFunds needed available =>
      lit "insufficient funds: need " ++ show_unsigned needed ++ lit " sats, have " ++
      show_unsigned available ++ lit " sats"
  | NetworkMismatch => lit "recipient address is for a different network"
  | InvalidRecipient e => lit "invalid recipient address: " ++ bytes_of e
  | OutputDerivation => lit "recipient output key was not derived"
  | SilentPaymentsError e => lit "silent payments error: " ++ show_sp_error e
  | Secp e => lit "secp256k1 error: " ++ show_secp_error e
  | Sighash e => lit "sighash error: " ++ show_sighash_error e
  end.
End Display.

(** ** Calls *)

Section Server.
Context `{IpcDeps} `{!KeyBytes}.

(** The node as the calls see it: the wallet service, the shutdown channel and
    the tip of the active chain. *)
Record server := mk_server {
  srv_service : service;
  srv_fatal : FatalShutdown;
  srv_tip : Z * text;
}.
Definition with_service (sv : service) (s : server) : server := mk_server sv s.(srv_fatal) s.(srv_tip).

(** The errors of a call, by the message they carry. *)
Inductive IpcError :=
| CouldNotShutDown
| InvalidScanKey
| InvalidSpendKey
| InvalidKeyPair (e : SpError)
| NoKeysImported
| InvalidTransaction
| BroadcastUnavailable
| SendRefused.

Definition echo (msg : text) : text := msg.

Definition ipc_shutdown (s : server) : outcome IpcError unit * server :=
  let '(sent, f) := send_signal s.(srv_fatal) in
  (if sent then Ok () else Err CouldNotShutDown, mk_server s.(srv_service) f s.(srv_tip)).

(** Height and hash; [height as u32]. *)
Definition get_tip (s : server) : Z * text := (wrap_u 32 s.(srv_tip).1, s.(srv_tip).2).

Definition ipc_import_keys (scan_bytes spend_bytes : list Z) (s : server) : outcome IpcError text * server :=
  match secret_from_slice scan_bytes with
  | None => (Err InvalidScanKey, s)
  | Some scan_key =>
      match xonly_from_slice spend_bytes with
      | None => (Err InvalidSpendKey, s)
      | Some spend_xonly =>
          match import_keys scan_key spend_xonly s.(srv_service).(sv_wallet) with
          | Ok w => (Ok (lit "keys imported"), with_service (Service.with_wallet w s.(srv_service)) s)
          | Err e => (Err (InvalidKeyPair e), s)
          | Panic => (Panic, s)
          end
      end
  end.

(** [iter]: the order the coins are iterated in. Sats, scan height and number of
    coins; the sum panics when it leaves 64 bits. *)
Definition get_balance (iter : list (OutPoint * Coin)) (s : server) : outcome Empty_set (Z * Z * Z) :=
  sats ← balance iter;
  Ok (sats, s.(srv_service).(sv_wallet).(scan_height), wrap_u 32 (utxo_count iter)).

Definition history_text (entries : list HistoryEntry) : text := join [10] (show_entry <$> entries).
Definition get_history (iter : list (OutPoint * Coin)) : text := history_text (history iter).

Definition ipc_receive (s : server) : outcome IpcError string :=
  ok_or (receive_address s.(srv_service).(sv_wallet)) NoKeysImported.

Definition ipc_broadcast_raw_tx (raw : list Z) (s : server) : outcome IpcError text * server :=
  match consensus_decode raw with
  | None => (Err InvalidTransaction, s)
  | Some tx =>
      let '(queued, sv) := broadcast_raw_tx tx s.(srv_service) in
      if queued then (Ok (show_txid (compute_txid tx)), with_service sv s)
      else (Err BroadcastUnavailable, s)
  end.

(** Whether it was sent, and the message. [None] is a panic. *)
Definition ipc_send_to_address (bytes_of : string → text)
    (shuffle_in : list (OutPoint * Coin) → list (OutPoint * Coin)) (shuffle_out : list TxOut → list TxOut)
    (iter : list (OutPoint * Coin)) (address : string) (amount : Z) (fee long_term_fee : spec_float)
    (s : server) : option (outcome IpcError (bool * text) * server) :=
  '(a, sv) ← send_to_address shuffle_in shuffle_out iter address amount fee long_term_fee s.(srv_service);
  Some (match a with
        | Sent tx => (Ok (true, lit "Successfully broadcast transaction " ++ show_txid (compute_txid tx)),
                      with_service sv s)
        | Declined e => (Ok (false, show_send_error bytes_of e), with_service sv s)
        | Failed => (Err SendRefused, with_service sv s)
        end).
End Server.

(** ** The history, read back *)

Section History.
Context `{IpcDepsLaws}.

(** The numbers of an entry, as their types bound them. *)
Definition entry_typed (e : HistoryEntry) : Prop :=
  match e with Received o v h | Spent o v h => 0 ≤ o.(vout) < 2 ^ 64 ∧ 0 ≤ v < 2 ^ 64 ∧ 0 ≤ h < 2 ^ 64 end.

Definition entry_kind (e : HistoryEntry) : text :=
  match e with Received _ _ _ => lit "recv" | Spent _ _ _ => lit "spent" end.
Definition entry_data (e : HistoryEntry) : OutPoint * Z * Z :=
  match e with Received o v h | Spent o v h => (o, v, h) end.

Definition entry_words (e : HistoryEntry) : list text :=
  let '(o, v, h) := entry_data e in
  [entry_kind e; join [58] [show_txid o.(txid); show_unsigned o.(vout)]; show_unsigned v;
   lit "sats"; lit "at"; show_unsigned h].

Lemma show_entry_words e : show_entry e = join [32] (entry_words e).
Proof. destruct e; unfold show_entry, entry_words; simpl; by rewrite <- ?app_assoc. Qed.

Lemma show_inj a b : 0 ≤ a < 2 ^ 64 → 0 ≤ b < 2 ^ 64 → show_unsigned a = show_unsigned b → a = b.
Proof.
  intros Ha Hb Heq. pose proof (parse_show 64 a Ha) as Hp. rewrite Heq, (parse_show 64 b Hb) in Hp. congruence.
Qed.

Lemma not_in_number n c : 0 ≤ n → is_digit c = false → c ∉ show_unsigned n.
Proof. intros Hn Hc Hin%show_digits; [congruence|done]. Qed.

Lemma not_in_txid t c : is_digit c = false → is_lower c = false → c ∉ show_txid t.
Proof. intros Hd Hl [?|?]%show_txid_hex; congruence. Qed.

Lemma entry_words_clean e c :
  entry_typed e → c = 32 ∨ c = 10 → Forall (λ w, c ∉ w) (entry_words e).
Proof.
  intros He Hc. assert (is_digit c = false ∧ is_lower c = false ∧ c ≠ 58) as (Hd & Hl & H58)
    by (by destruct Hc as [->| ->]).
  assert (∀ o, 0 ≤ o.(vout) → c ∉ join [58] [show_txid o.(txid); show_unsigned o.(vout)]) as Hop.
  { intros o Ho. cbn [join]. rewrite !not_elem_of_app, not_elem_of_cons. split_and!; [by apply not_in_txid|done| |].
    - apply not_elem_of_nil.
    - by apply not_in_number. }
  assert ((c ∉ lit "recv") ∧ (c ∉ lit "spent") ∧ (c ∉ lit "sats") ∧ (c ∉ lit "at")) as (? & ? & ? & ?)
    by (destruct Hc as [->| ->]; split_and!; by apply (bool_decide_unpack _); vm_compute).
  destruct e as [o v h|o v h]; destruct He as ([? ?] & [? ?] & [? ?]); unfold entry_words; simpl entry_data;
    simpl entry_kind; repeat constructor; try done; try (by apply Hop); by apply not_in_number.
Qed.

Lemma entry_words_inj e e' :
  entry_typed e → entry_typed e' → entry_words e = entry_words e' → e = e'.
Proof.
  intros He He' Heq.
  assert (∀ o, 0 ≤ o.(vout) → split 58 (join [58] [show_txid o.(txid); show_unsigned o.(vout)])
    = [show_txid o.(txid); show_unsigned o.(vout)]) as Hsplit.
  { intros o Ho. apply split_join; [done|]. repeat constructor; [by apply not_in_txid|by apply not_in_number]. }
  assert (entry_kind e = entry_kind e' → entry_data e = entry_data e' → e = e') as Hdone
    by (destruct e, e'; simpl; intros Hk Hd; simplify_eq; done).
  destruct (entry_data e) as [[o v] h] eqn:Hd, (entry_data e') as [[o' v'] h'] eqn:Hd'.
  assert ((0 ≤ o.(vout) < 2 ^ 64 ∧ 0 ≤ v < 2 ^ 64 ∧ 0 ≤ h < 2 ^ 64) ∧
          (0 ≤ o'.(vout) < 2 ^ 64 ∧ 0 ≤ v' < 2 ^ 64 ∧ 0 ≤ h' < 2 ^ 64)) as [(Ho & Hv & Hh) (Ho' & Hv' & Hh')]
    by (destruct e, e'; simplify_eq/=; done).
  unfold entry_words in Heq. rewrite Hd, Hd' in Heq. injection Heq as Hk Hop Hval Hheight.
  apply (f_equal (split 58)) in Hop.
  change (show_txid (txid o) ++ 58 :: show_unsigned (vout o)) with
    (join [58] [show_txid o.(txid); show_unsigned o.(vout)]) in Hop.
  change (show_txid (txid o') ++ 58 :: show_unsigned (vout o')) with
    (join [58] [show_txid o'.(txid); show_unsigned o'.(vout)]) in Hop.
  rewrite !Hsplit in Hop by lia. injection Hop as Htx%show_txid_inj Hvo%show_inj; [|done|done].
  apply show_inj in Hval; [|done|done]. apply show_inj in Hheight; [|done|done].
  apply Hdone; [done|]. destruct o, o'; simpl in *. by subst.
Qed.

Lemma show_entry_inj e e' : entry_typed e → entry_typed e' → show_entry e = show_entry e' → e = e'.
Proof.
  intros He He'. rewrite !show_entry_words. intros Heq. apply entry_words_inj; [done|done|].
  assert (∀ e, entry_words e ≠ []) as Hne.
  { intros x. unfold entry_words. by destruct (entry_data x) as [[? ?] ?]. }
  rewrite <- (split_join 32 (entry_words e)), <- (split_join 32 (entry_words e')), Heq;
    try apply Hne; try (by apply entry_words_clean; auto). done.
Qed.

Lemma show_entry_nonempty e : show_entry e ≠ [].
Proof. destruct e; unfold show_entry; simpl; discriminate. Qed.

Lemma show_entry_line e : entry_typed e → 10 ∉ show_entry e.
Proof.
  intros He. pose proof (entry_words_clean e 10 He ltac:(auto)) as Hw. rewrite show_entry_words.
  induction Hw as [|w ws Hw Hws IH]; [apply not_elem_of_nil|]. destruct ws as [|w' ws]; [done|].
  change (join [32] (w :: w' :: ws)) with (w ++ [32] ++ join [32] (w' :: ws)).
  rewrite !not_elem_of_app. split_and!; [done| |done]. by intros ?%list_elem_of_singleton.
Qed.

Lemma history_lines l : Forall entry_typed l → l ≠ [] → split 10 (history_text l) = show_entry <$> l.
Proof.
  intros Hl Hne. apply split_join; [by destruct l|]. apply Forall_fmap.
  eapply Forall_impl; [exact Hl|]. intros e. apply show_entry_line.
Qed.

Lemma show_entries_inj l l' :
  Forall entry_typed l → Forall entry_typed l' → show_entry <$> l = show_entry <$> l' → l = l'.
Proof.
  revert l'. induction l as [|e l IH]; intros [|e' l']; try done. cbn [fmap list_fmap].
  intros [? ?]%Forall_cons [? ?]%Forall_cons [= He Hrest]. f_equal; [by apply show_entry_inj|by apply IH].
Qed.

(** The history a client sees is the wallet's: its text has one line per entry
    and determines every entry, kind, output, amount and height, in order; it is
    empty exactly when the wallet has no coins, whatever order the coins are
    stored in. *)
Theorem history_text_faithful :
  (∀ l l', Forall entry_typed l → Forall entry_typed l' → history_text l = history_text l' → l = l') ∧
  (∀ l, Forall entry_typed l → l ≠ [] → length (split 10 (history_text l)) = length l) ∧
  (∀ iter w, iterates_coins iter w → get_history iter = [] ↔ w.(utxos) = ∅).
Proof.
  assert (∀ l, history_text l = [] ↔ l = []) as Hnil.
  { intros l. split; [|by intros ->]. destruct l as [|e [|e' l]]; [done|by intros ?%show_entry_nonempty|].
    unfold history_text. cbn [fmap list_fmap join]. intros [? _]%app_eq_nil. by destruct (show_entry_nonempty e). }
  split_and!.
  - intros l l' Hl Hl' Heq. destruct l as [|e l].
    { symmetry in Heq. apply Hnil in Heq. done. }
    destruct l' as [|e' l']; [by apply Hnil in Heq|].
    apply (f_equal (split 10)) in Heq. rewrite !history_lines in Heq by done.
    by apply show_entries_inj.
  - intros l Hl Hne. rewrite history_lines by done. apply length_fmap.
  - intros iter w Hit. unfold get_history. rewrite Hnil. unfold history, iterates_coins in *. split.
    + intros Hm. destruct iter as [|[o c] iter].
      * apply Permutation_nil, map_to_list_empty_iff in Hit. done.
      * exfalso. assert (length (merge_sort by_height (flat_map entries_of ((o, c) :: iter))) = 0%nat) as Hlen
          by (by rewrite Hm). rewrite merge_sort_Permutation in Hlen. done.
    + intros Hu. rewrite Hu, map_to_list_empty in Hit. symmetry in Hit. apply Permutation_nil in Hit. by subst.
Qed.
End History.

(** ** A concrete history *)

Module Witness.
Import Wallet.Demo Sending.Witness.
#[local] Existing Instance demo_spending.

(** Numbers in decimal, each followed by an x. *)
Definition zig (z : Z) : Z := if decide (0 ≤ z) then 2 * z else - 2 * z - 1.
Definition show_bytes (t : list Z) : text := z ← t; show_unsigned (zig z) ++ [120].

Lemma show_inj_any a b : 0 ≤ a → 0 ≤ b → show_unsigned a = show_unsigned b → a = b.
Proof.
  intros Ha Hb Heq. set (w := Z.log2 (a + b) + 1).
  assert (∀ n, 0 ≤ n ≤ a + b → 0 ≤ n < 2 ^ w) as Hw.
  { intros n Hn. split; [lia|]. destruct (decide (a + b = 0)) as [Hz|Hz].
    - replace n with 0 by lia. apply Z.pow_pos_nonneg; [lia|]. unfold w. pose proof (Z.log2_nonneg (a + b)). lia.
    - pose proof (Z.log2_spec (a + b) ltac:(lia)). unfold w. unfold Z.succ in *. lia. }
  pose proof (parse_show w a (Hw a ltac:(lia))) as Hp. rewrite Heq, (parse_show w b (Hw b ltac:(lia))) in Hp. congruence.
Qed.

Lemma zig_nonneg z : 0 ≤ zig z.
Proof. unfold zig. case_decide; lia. Qed.

Lemma split_bytes t : split 120 (show_bytes t) = (show_unsigned ∘ zig <$> t) ++ [[]].
Proof.
  induction t as [|z t IH]; [done|]. unfold show_bytes in *. cbn [mbind list_bind].
  rewrite <- app_assoc. cbn [app]. rewrite split_app, IH, split_plain; [done|].
  intros Hin%show_digits; [done|apply zig_nonneg].
Qed.

#[local] Instance demo_deps : IpcDeps := {|
  show_txid := show_bytes; compute_txid _ := []; consensus_decode _ := None;
  show_sp_error _ := []; show_secp_error _ := []; show_sighash_error _ := [];
|}.
#[local] Instance demo_deps_laws : IpcDepsLaws.
Proof.
  split.
  - intros t t' Heq. apply (f_equal (split 120)) in Heq. cbn [show_txid demo_deps] in Heq. rewrite !split_bytes in Heq.
    apply app_inj_2 in Heq as [Heq _]; [|done]. revert t' Heq. induction t as [|z t IH]; intros [|z' t']; try done.
    cbn [fmap list_fmap]. intros [= Hz%show_inj_any Hrest]; [|apply zig_nonneg..].
    f_equal; [unfold zig in Hz; repeat case_decide; lia|by apply IH].
  - intros t c Hc. apply list_elem_of_bind in Hc as (z & Hc & _).
    apply elem_of_app in Hc as [Hc|Hc%list_elem_of_singleton]; [|right; by subst].
    left. apply (show_digits (zig z)); [apply zig_nonneg|done].
Qed.

Definition entry : HistoryEntry := Received (mk_outpoint [0; 1] 3) 300 11.

Lemma history_text_witness :
  history_text [entry] = lit "recv 0x2x:3 300 sats at 11" ∧
  ∀ l, Forall entry_typed l → history_text l = history_text [entry] → l = [entry].
Proof.
  split; [vm_compute; reflexivity|]. intros l Hl. apply (proj1 history_text_faithful); [exact Hl|].
  repeat constructor; discriminate.
Defined.
End Witness.
