(* ===== verification/Cli.v ===== *)
(** * The command line client (src/bin/cli.rs)

    Two commands work on keys alone; the others make one call on the node over
    its socket and print what it answers. A failed call panics the client. *)

From Corelib Require Import SpecFloat.
From S2P Require Import Prelude Text Paths Shutdown Fs Messages Kernel Wallet WalletStore KeysFile Scan Sending Service Ipc.

(** Keys as text, from [secp256k1], and the decoder of hexadecimal text. *)
Class KeyText `{KeyBytes} := {
  display_secret : SecretKey → text;
  display_xonly : XOnlyPublicKey → text;
  from_hex : text → option (list Z);
}.
(** Keys are displayed as the hexadecimal digits of their bytes. *)
Class KeyTextLaws `{KeyText} := {
  display_secret_hex : ∀ k, from_hex (display_secret k) = Some (secret_bytes k);
  display_xonly_hex : ∀ k, from_hex (display_xonly k) = Some (xonly_serialize k);
}.

Definition DEFAULT_DATA_DIR : text := lit "~/.kernel-node/".

(** The default is computed even when the option is given. *)
Definition datadir_path (home : text) (create_dir_all : text → bool) (canonicalize : text → option text)
    (datadir : option text) : option text :=
  dflt ← data_dir home create_dir_all canonicalize DEFAULT_DATA_DIR;
  Some (default dflt datadir).

(** ** Commands *)

Inductive WalletCmd :=
| GenerateKeys (out : option string)
| ImportKeys (scan_key spend_key : text)
| PrintKeysFromKeysFile (path : string)
| Balance
| History
| Receive
| BroadcastRawTx (tx : text)
| SendToAddress (address : string) (amount_sat : Z) (fee_rate_sat_per_vb : spec_float)
    (consolidate_fee_rate_sat_per_vb : option spec_float).
Inductive ChainCmd := Tip.
Inductive Commands :=
| Echo (message : text)
| Stop
| Chain (c : ChainCmd)
| WalletCommand (c : WalletCmd).

Inductive stream := Stdout | Stderr.
Abbreviation printed := (list (stream * text)).
(** What the client prints and its exit code, or a panic. *)
Abbreviation cli_result := (outcome Empty_set (printed * Z)).

(** The default of [consolidateFeeRateSatPerVb] in capnp/wallet.capnp. *)
Definition DEFAULT_CONSOLIDATE : spec_float := binary_normalize 53 1024 10 0 false.

Section Cli.
Context `{IpcDeps} `{!KeyBytes} `{!KeyText}.
(** The characters of a text given by its bytes. *)
Variable chars : string → text.

(** ** Keys *)

(** The two secrets are drawn at random. *)
Definition generate_keys (scan_priv spend_priv : SecretKey) : SecretKey * SecretKey * XOnlyPublicKey :=
  (scan_priv, spend_priv, (x_only_public_key spend_priv).1).

Definition SECRET_WARNING : text :=
  lit "WARNING: scan_key and spend_priv must be kept secret " ++ [0x2014] ++
  lit " anyone with them can spend received funds.".

Definition cli_generate_keys (create_fails : option io_error) (write_fails : option (nat * io_error))
    (out : option string) (random_scan random_spend : SecretKey) (d : fs) : cli_result * fs :=
  let '(scan_priv, spend_priv, spend_pub) := generate_keys random_scan random_spend in
  match out with
  | Some path =>
      let '(saved, d) := keys_save create_fails write_fails (mk_keys_file scan_priv (Secret spend_priv)) path d in
      (match saved with
       | Ok _ => Ok ([(Stdout, lit "Wrote silent payment keys to " ++ chars path);
                      (Stdout, lit "spend_pub=" ++ display_xonly spend_pub)], 0)
       | _ => Panic
       end, d)
  | None =>
      (Ok ([(Stderr, SECRET_WARNING);
            (Stdout, lit "scan_key=" ++ display_secret scan_priv);
            (Stdout, lit "spend_priv=" ++ display_secret spend_priv);
            (Stdout, lit "spend_pub=" ++ display_xonly spend_pub)], 0), d)
  end.

Definition cli_print_keys (path : string) (d : fs) : cli_result :=
  match keys_load path d with
  | Ok read =>
      Ok ([(Stderr, lit "spend_pub=" ++ display_xonly (spend_xonly read.(kf_spend)));
           (Stderr, lit "scan_key=" ++ display_secret read.(kf_scan))], 0)
  | _ => Panic
  end.

(** ** Calls *)

(** The order of the coins and the shuffles of a transaction, which a call picks. *)
Record draws := mk_draws {
  dr_iter : list (OutPoint * Coin);
  dr_in : list (OutPoint * Coin) → list (OutPoint * Coin);
  dr_out : list TxOut → list TxOut;
}.

(** [unwrap] on the answer of a call. *)
Definition answered {E A} (r : outcome E A) (f : A → printed * Z) : cli_result :=
  match r with Ok a => Ok (f a) | _ => Panic end.
Definition say (t : text) : printed * Z := ([(Stdout, t)], 0).

Definition wallet_command (dr : draws) (c : WalletCmd) (s : server) : cli_result * server :=
  match c with
  | GenerateKeys _ | PrintKeysFromKeysFile _ => (Panic, s)
  | ImportKeys scan_key spend_key =>
      match from_hex scan_key, from_hex spend_key with
      | Some scan_bytes, Some spend_bytes =>
          let '(r, s) := ipc_import_keys scan_bytes spend_bytes s in (answered r say, s)
      | _, _ => (Panic, s)
      end
  | Balance =>
      (answered (get_balance dr.(dr_iter) s) (λ '(sats, scan_height, utxo_count),
         say (lit "Balance: " ++ show_unsigned sats ++ lit " sats | scan height: " ++
              show_unsigned scan_height ++ lit " | UTXOs: " ++ show_unsigned utxo_count)), s)
  | History =>
      let entries := get_history dr.(dr_iter) in
      (Ok (say (if is_nil entries then lit "No history yet." else entries)), s)
  | Receive => (answered (ipc_receive s) (λ a, say (chars a)), s)
  | BroadcastRawTx tx =>
      match from_hex tx with
      | Some raw_bytes => let '(r, s) := ipc_broadcast_raw_tx raw_bytes s in (answered r say, s)
      | None => (Panic, s)
      end
  | SendToAddress address amount_sat fee consolidate =>
      match ipc_send_to_address chars dr.(dr_in) dr.(dr_out) dr.(dr_iter) address amount_sat fee
              (default DEFAULT_CONSOLIDATE consolidate) s with
      | Some (r, s) =>
          (answered r (λ '(ok, message), if ok : bool then ([(Stdout, message)], 0) else ([(Stderr, message)], 1)), s)
      | None => (Panic, s)
      end
  end.

(** A command that needs the node; [connected] says whether the socket answers. *)
Definition online_command (connected : bool) (dr : draws) (c : Commands) (s : server) : cli_result * server :=
  if negb connected then (Panic, s) else
  match c with
  | Echo message => (Ok ([(Stdout, lit "Sending... " ++ message); (Stdout, echo message)], 0), s)
  | Stop =>
      let '(r, s) := Ipc.ipc_shutdown s in (answered r (λ _, say (lit "Kernel node stopping...")), s)
  | Chain Tip =>
      let '(height, hash) := get_tip s in
      (Ok (say (lit "height=" ++ show_unsigned height ++ lit " hash=" ++ hash)), s)
  | WalletCommand c => wallet_command dr c s
  end.

(** [main]; [faults] of creating and writing a keys file, and two random secrets. *)
Definition cli_main (home : text) (create_dir_all : text → bool) (canonicalize : text → option text)
    (connected : bool) (dr : draws) (create_fails : option io_error) (write_fails : option (nat * io_error))
    (random_scan random_spend : SecretKey) (datadir : option text) (c : Commands) (s : server) (d : fs)
    : cli_result * server * fs :=
  match c with
  | WalletCommand (GenerateKeys out) =>
      let '(r, d) := cli_generate_keys create_fails write_fails out random_scan random_spend d in (r, s, d)
  | WalletCommand (PrintKeysFromKeysFile path) => (cli_print_keys path d, s, d)
  | _ =>
      match datadir_path home create_dir_all canonicalize datadir with
      | Some _ => (online_command connected dr c s, d)
      | None => (Panic, s, d)
      end
  end.
End Cli.

(** ** Properties *)

Section Properties.
Context `{IpcDeps} `{!KeyBytes} `{!KeyBytesLaws} `{!KeyText} `{!KeyTextLaws}.
Variable chars : string → text.

Lemma import_only_keys scan spend w w1 :
  import_signing_keys scan spend w = Ok w1 →
  ∃ w2, import_keys scan (x_only_public_key spend).1 w = Ok w2 ∧
    w1.(keys) = w2.(keys) ∧ w1.(spend_key) = w2.(spend_key) ∧ is_Some w1.(spend_secret).
Proof.
  unfold import_signing_keys. destruct (x_only_public_key spend) as [pk odd].
  intros (w2 & Hw & [= <-])%bind_Ok. exists w2. simpl. eauto.
Qed.

(** Generated keys reach the node in both ways: what generate-keys prints is
    accepted by import-keys, and the file it writes by the node at start, and
    the two wallets scan for the same payments and show the same address; the
    one that read the file can also spend. *)
Theorem generated_keys_agree dr scan spend path d s :
  d !! path = None → is_ok (import_keys scan (x_only_public_key spend).1 s.(srv_service).(sv_wallet)) = true →
  ∃ out1 t_scan t_spend out2 d' s' w,
    (cli_generate_keys chars None None None scan spend d).1 = Ok (out1, 0) ∧
    (Stdout, lit "scan_key=" ++ t_scan) ∈ out1 ∧ (Stdout, lit "spend_pub=" ++ t_spend) ∈ out1 ∧
    wallet_command chars dr (ImportKeys t_scan t_spend) s = (Ok (say (lit "keys imported")), s') ∧
    cli_generate_keys chars None None (Some path) scan spend d = (Ok (out2, 0), d') ∧
    auto_import_keys (E:=Empty_set) path d' s.(srv_service).(sv_wallet) = Ok w ∧
    w.(keys) = s'.(srv_service).(sv_wallet).(keys) ∧ is_Some w.(keys) ∧
    w.(spend_key) = s'.(srv_service).(sv_wallet).(spend_key) ∧
    receive_address w = receive_address s'.(srv_service).(sv_wallet) ∧
    is_Some w.(spend_secret).
Proof.
  intros Hpath Hok. set (w0 := s.(srv_service).(sv_wallet)) in *.
  destruct (import_keys scan (x_only_public_key spend).1 w0) as [w2| |] eqn:Himp; [|done|done].
  destruct (keys_save_load (mk_keys_file scan (Secret spend)) path d Hpath) as (d' & Hsave & Hload).
  assert (∃ w1, import_signing_keys scan spend w0 = Ok w1) as [w1 Hw1].
  { unfold import_signing_keys. destruct (x_only_public_key spend) as [pk odd]. simpl in Himp.
    rewrite Himp. simpl_outcome. eauto. }
  destruct (import_only_keys _ _ _ _ Hw1) as (w2' & Hw2' & Hkeys & Hspend & Hsecret).
  rewrite Himp in Hw2'. injection Hw2' as <-.
  eexists _, (display_secret scan), (display_xonly (x_only_public_key spend).1), _, d',
    (with_service (Service.with_wallet w2 s.(srv_service)) s), w1.
  split_and!; [done|set_solver|set_solver| | | |done| |done| |done].
  - cbn [wallet_command]. rewrite display_secret_hex, display_xonly_hex. unfold ipc_import_keys.
    rewrite secret_roundtrip, xonly_roundtrip. fold w0. by rewrite Himp.
  - unfold cli_generate_keys. cbn [generate_keys]. rewrite Hsave. done.
  - unfold auto_import_keys. rewrite Hload. simpl. by rewrite Hw1.
  - rewrite Hkeys. unfold import_keys in Himp. apply bind_Ok in Himp as (rcv & _ & [= <-]). by eexists.
  - unfold receive_address. by rewrite Hkeys.
Qed.

End Properties.

Section Payments.
Context `{IpcDeps} `{!KeyBytes} `{!KeyText}.
Variable chars : string → text.

(** What a payment leaves behind. *)
Lemma send_effects sin sout iter address amount fee lt sv a sv' :
  send_to_address sin sout iter address amount fee lt sv = Some (a, sv') →
  match a with
  | Sent tx => sv'.(sv_queue) = sv.(sv_queue) ++ [tx] ∧
      ∀ o, o ∈ spends tx → o ∈ sv'.(sv_wallet).(reserved)
  | Declined e => is_user_error e = true ∧ sv' = sv
  | Failed => sv' = sv
  end.
Proof.
  unfold send_to_address. destruct (fee_rate_of fee); [|by intros [= <- <-]].
  destruct (fee_rate_of lt); [|by intros [= <- <-]].
  destruct (recipient_parse _ _ ≫= _) as [tx|e|].
  - unfold try_send. destruct (negb _); [by intros [= <- <-]|]. case_decide; intros [= <- <-]; [|done]. split; [done|]. intros o Ho. simpl. set_solver.
  - destruct (is_user_error e) eqn:He; by intros [= <- <-].
  - done.
Qed.

(** C28: The exit code of send-to-address is true: with 0 the transaction was queued
    for broadcast and its coins are reserved; with 1 the request was refused for
    a reason the user can see on standard error, and the node is as before; when
    the call failed the client panics and the node is as before. *)
Theorem send_exit_code dr address amount fee consolidate s r s' :
  wallet_command chars dr (SendToAddress address amount fee consolidate) s = (r, s') →
  match r with
  | Ok (out, code) =>
      (code = 0 ∧ ∃ tx, s'.(srv_service).(sv_queue) = s.(srv_service).(sv_queue) ++ [tx] ∧
         (∀ o, o ∈ spends tx → o ∈ s'.(srv_service).(sv_wallet).(reserved)) ∧
         out = [(Stdout, lit "Successfully broadcast transaction " ++ show_txid (compute_txid tx))]) ∨
      (code = 1 ∧ s' = s ∧ ∃ e, is_user_error e = true ∧ out = [(Stderr, show_send_error chars e)])
  | _ => s' = s
  end.
Proof.
  cbn [wallet_command]. unfold ipc_send_to_address.
  destruct (send_to_address _ _ _ _ _ _ _ _) as [[a sv]|] eqn:Hs; csimpl; [|by intros [= <- <-]].
  apply send_effects in Hs. assert (with_service s.(srv_service) s = s) as Hsame by (by destruct s).
  destruct a as [tx|e|]; intros [= <- <-]; simpl.
  - left. split; [done|]. exists tx. naive_solver.
  - destruct Hs as [He ->]. right. rewrite Hsame. eauto.
  - by subst.
Qed.
End Payments.

(** ** Concrete runs *)

Module Witness.

(** Two hexadecimal digits per byte. *)
Definition hex_digit (d : Z) : Z := if decide (d < 10) then 48 + d else 87 + d.
Definition to_hex (b : list Z) : text := x ← b; [hex_digit (x / 16); hex_digit (x mod 16)].
Fixpoint of_hex (s : text) : option (list Z) :=
  match s with
  | [] => Some []
  | a :: b :: s => x ← to_digit 16 a; y ← to_digit 16 b; rest ← of_hex s; Some (16 * x + y :: rest)
  | _ => None
  end.

(** Keys of one byte, as in the keys file's example, and nothing to spend. *)
Module Keys.
#[local] Existing Instance KeysFile.Witness.keys_sp.
#[local] Existing Instance KeysFile.Witness.keys_bytes.
#[local] Existing Instance KeysFile.Witness.keys_bytes_laws.
#[local] Instance no_spending : Spending := {|
  SpCode := Z; KeyMaterial := Z; material_eq_dec := _; Sending.Address := Z; UncheckedAddress := Z;
  PartialSecret := Z; SecpError := unit; SighashError := unit;
  sp_code_parse _ := None; sp_code_network _ := Regtest; address_parse _ := Err "no address";
  require_network _ _ := None; address_script _ := []; material c := c; change_code r := r;
  minimal_non_dust _ := 330; new_p2tr_tweaked _ := []; add_tweak k _ := Ok k;
  calculate_partial_secret _ _ := Err (); generate_recipient_pubkeys _ _ := Err ();
  sighash _ _ _ := Err (); sign _ h := h; TR_KEYSPEND_OUTPUT_WEIGHT := 172;
  run_bnb _ _ _ _ _ := None; select_until_target_met _ _ := Err 0; drain _ _ _ _ := None;
|}.
#[local] Instance no_deps : IpcDeps := {|
  show_txid := to_hex; compute_txid _ := []; consensus_decode _ := None;
  show_sp_error _ := []; show_secp_error _ := []; show_sighash_error _ := [];
|}.
(** The text of a key is a sign and its digits; the bytes come from there. *)
#[local] Instance key_text : KeyText := {|
  display_secret k := [(k : Z)];
  display_xonly k := [(k : Z)];
  from_hex s := match s with [k] => Some (k :: replicate 31 0) | _ => None end;
|}.
#[local] Instance key_text_laws : KeyTextLaws.
Proof. by split. Qed.

Definition srv : server := mk_server (mk_service (wallet_new Regtest) [] None [] true) (fatal_new true) (7, lit "ab").
Definition dr0 : draws := mk_draws [] id id.
Definition scan3 : SecretKey := 3.
Definition spend5 : SecretKey := 5.

Lemma generated_keys_witness :
  ∃ s' w, wallet_command (λ _, []) dr0 (ImportKeys [3] [5]) srv = (Ok (say (lit "keys imported")), s') ∧
    w.(keys) = s'.(srv_service).(sv_wallet).(keys) ∧ w.(spend_secret) = Some spend5.
Proof.
  destruct (generated_keys_agree (λ _, []) dr0 scan3 spend5 "keys" ∅ srv)
    as (out1 & t1 & t2 & out2 & d' & s' & w & H1 & H2 & H3 & H4 & H5 & H6 & H7 & _).
  - reflexivity.
  - reflexivity.
  - assert (t1 = [3] ∧ t2 = [5]) as [-> ->].
    { vm_compute in H1. injection H1 as <-. rewrite !elem_of_cons in H2, H3.
      destruct H2 as [H2|[H2|[H2|[H2|H2%elem_of_nil]]]]; try discriminate H2; try done.
      destruct H3 as [H3|[H3|[H3|[H3|H3%elem_of_nil]]]]; try discriminate H3; try done.
      injection H2 as ->. injection H3 as ->. done. }
    exists s', w. split; [exact H4|]. split; [exact H7|].
    vm_compute in H5. injection H5 as _ <-. vm_compute in H6. injection H6 as <-. reflexivity.
Defined.
End Keys.

(** A payment, and one that the wallet cannot make. *)
Module Payment.
Import Wallet.Demo Sending.Witness Service.Witness.
#[local] Existing Instance demo_spending.
#[local] Instance pay_deps : IpcDeps := {|
  show_txid := to_hex; compute_txid tx := [tx.(lock_time)]; consensus_decode _ := None;
  show_sp_error _ := []; show_secp_error _ := []; show_sighash_error _ := [];
|}.
#[local] Instance pay_keys : KeyBytes := {|
  secret_bytes k := [(k : Z)]; secret_from_slice l := head (l : list SecretKey); xonly_serialize k := k;
|}.
#[local] Instance pay_text : KeyText := {|
  display_secret k := to_hex [(k : Z)]; display_xonly k := to_hex k; from_hex := of_hex;
|}.

Definition srv : server := mk_server sv0 (fatal_new true) (7, lit "ab").
Definition dr : draws := mk_draws iter id id.
Definition pay (amount : Z) : cli_result * server :=
  wallet_command (λ _, []) dr (SendToAddress "somebody" amount (f64 1) None) srv.

Lemma send_exit_witness :
  ((pay 5000).2 = srv ∧ ∃ out, (pay 5000).1 = Ok (out, 1)) ∧
  (∃ tx out, (pay 400).1 = Ok (out, 0) ∧ (pay 400).2.(srv_service).(sv_queue) = [tx]).
Proof.
  split.
  - destruct (pay 5000) as [r s'] eqn:Hp. pose proof (send_exit_code (λ _, []) dr "somebody" 5000 (f64 1) None srv r s' Hp) as Hc.
    assert (r = Ok ([(Stderr, lit "insufficient funds: need 5000 sats, have 1500 sats")], 1)) as ->.
    { apply (f_equal fst) in Hp. etrans; [symmetry; exact Hp|]. vm_compute. reflexivity. }
    destruct Hc as [[Hc _]|(_ & Hs & _)]; [discriminate|]. split; [exact Hs|]. eexists. reflexivity.
  - destruct (pay 400) as [r s'] eqn:Hp. pose proof (send_exit_code (λ _, []) dr "somebody" 400 (f64 1) None srv r s' Hp) as Hc.
    assert (is_ok r = true ∧ ∀ out c, r = Ok (out, c) → c = 0) as [Hok Hz].
    { apply (f_equal fst) in Hp. change (fst (pay 400) = r) in Hp. subst r. split; [vm_compute; reflexivity|].
      intros out c. vm_compute. intros [= _ <-]. reflexivity. }
    destruct r as [[out c]| |]; [|discriminate|discriminate]. pose proof (Hz out c eq_refl) as ->.
    destruct Hc as [(_ & tx & Hq & _)|(Hc & _)]; [|discriminate]. exists tx, out. split; [reflexivity|exact Hq].
Defined.
End Payment.
End Witness.
