(* ===== verification/Wizard.v ===== *)
(** * The setup wizard (src/bin/wizard.rs)

    A dialogue on the terminal that ends in the command line of the node. Input is
    the list of lines still to come (nothing after the last one: end of file), or
    for the arrow-key menu the list of reads from the terminal. *)

From S2P Require Import Prelude Text Paths.

(** A line of input as read, [None] when it is not valid text. *)
Abbreviation line := (option text).
(** The dialogue panics when a line cannot be read. *)
Abbreviation dialogue A := (outcome Empty_set (A * list line)).

(** ** Prompts *)

Definition read_line (input : list line) : dialogue text :=
  match input with
  | [] => Ok ([], [])
  | Some l :: input => Ok (trim l, input)
  | None :: _ => Panic
  end.

Definition prompt_with_default (default : text) (input : list line) : dialogue text :=
  '(answer, input) ← read_line input;
  Ok (if is_nil answer then default else answer, input).

Definition prompt_optional (input : list line) : dialogue (option text) :=
  '(answer, input) ← read_line input;
  Ok (if is_nil answer then None else Some answer, input).

(** [None]: the answer is asked for again. *)
Definition yes_no (default : bool) (answer : text) : option bool :=
  if is_nil answer then Some default
  else
    let a := to_ascii_lowercase answer in
    if decide (a = lit "y" ∨ a = lit "yes") then Some true
    else if decide (a = lit "n" ∨ a = lit "no") then Some false
    else None.

(** [ask_until f input]: read lines until [f] accepts one; at the end of the
    input every further line is empty. *)
Fixpoint ask_until {A} (f : text → option A) (input : list line) : dialogue A :=
  match input with
  | [] => match f [] with Some a => Ok (a, []) | None => Panic end
  | None :: _ => Panic
  | Some l :: input =>
      match f (trim l) with
      | Some a => Ok (a, input)
      | None => ask_until f input
      end
  end.

Definition prompt_yes_no (default : bool) (input : list line) : dialogue bool :=
  ask_until (yes_no default) input.

(** ** Menus *)

(** A choice by name or by index. *)
Definition fallback_answer (options : list text) (default answer : text) : option text :=
  if is_nil answer then Some default
  else match find_first (λ o, eq_ignore_ascii_case o answer) options with
       | Some opt => Some opt
       | None => idx ← parse_unsigned 64 answer; options !! Z.to_nat idx
       end.

Definition fallback_select (options : list text) (default_idx : Z) (input : list line) : dialogue text :=
  match options !! Z.to_nat default_idx with
  | Some default => ask_until (fallback_answer options default) input
  | None => Panic
  end.

(** What a read from the terminal does to the menu. *)
Inductive key := Enter | Abort | Up | Down | Other.
Definition key_of (buf : list Z) : key :=
  match buf with
  | 13 :: _ | 10 :: _ => Enter
  | 3 :: _ => Abort
  | 27 :: 91 :: 65 :: _ | 107 :: _ => Up
  | 27 :: 91 :: 66 :: _ | 106 :: _ => Down
  | _ => Other
  end.

(** The menu is left with an option or with exit code 130; [Waiting] stands for
    the loop still reading. *)
Inductive menu := Chosen (opt : text) | Aborted | Waiting.

(** [usize] is 64 bits wide; [%] panics on zero. *)
Definition move_up (n idx : Z) : Z := if decide (idx = 0) then wrap_u 64 (n - 1) else idx - 1.
Definition move_down (n idx : Z) : outcome Empty_set Z :=
  if decide (n = 0) then Panic else Ok (wrap_u 64 (idx + 1) mod n).

Fixpoint select_loop (options : list text) (idx : Z) (reads : list (list Z)) : outcome Empty_set menu :=
  let n := Z.of_nat (length options) in
  match reads with
  | [] => Ok Waiting
  | buf :: reads =>
      match key_of buf with
      | Enter => Chosen <$> or_panic (options !! Z.to_nat idx)
      | Abort => Ok Aborted
      | Up => select_loop options (move_up n idx) reads
      | Down => idx ← move_down n idx; select_loop options idx reads
      | Other => select_loop options idx reads
      end
  end.

Definition select_raw (options : list text) (default_idx : Z) (reads : list (list Z)) : outcome Empty_set menu :=
  select_loop options (Z.min default_idx (saturating_sub (Z.of_nat (length options)) 1)) reads.

(** A terminal that enters raw mode gives reads; otherwise lines are read. *)
Inductive terminal := Raw (reads : list (list Z)) | Lines.

Definition select (t : terminal) (options : list text) (default_idx : Z) (input : list line) : dialogue menu :=
  match t with
  | Raw reads => (λ m, (m, input)) <$> select_raw options default_idx reads
  | Lines => (λ '(opt, input), (Chosen opt, input)) <$> fallback_select options default_idx input
  end.

(** ** Quoting *)

Definition SAFE : text := lit "-_./=:,@+~".
Definition safe (c : Z) : bool := is_ascii_alphanumeric c || bool_decide (c ∈ SAFE).
(** A single quote. *)
Definition QUOTE : Z := 39.

Definition shell_quote (arg : text) : text :=
  if negb (is_nil arg) && forallb safe arg then arg
  else [QUOTE] ++ replace_char QUOTE (lit "'\''") arg ++ [QUOTE].

(** ** The node's options *)

(** The keys file: asked for until the path resolves. [resolve] is
    [canonicalize] after the path was made absolute. *)
Definition keys_answer (resolve : text → option text) (answer : text) : option (option text) :=
  if is_nil answer then Some None else Some <$> resolve answer.

Definition absolute (home cwd path : text) : text :=
  let expanded := expand_tilde home path in
  if decide (head expanded = Some 47) then expanded else path_join cwd expanded.

Record answers := mk_answers {
  a_network : text;
  a_datadir : text;
  a_connect : option text;
  a_keys : option text;
  a_proxy : option text;
  a_daemon : bool;
}.

Definition option_args (flag : text) (v : option text) : list text :=
  match v with Some v => [flag; v] | None => [] end.

Definition node_args (a : answers) : list text :=
  [lit "run"; lit "--bin"; lit "node"; lit "--release"; lit "--";
   lit "--network"; a.(a_network); lit "--datadir"; a.(a_datadir)]
  ++ option_args (lit "--connect") a.(a_connect)
  ++ option_args (lit "--sp-keys-file") a.(a_keys)
  ++ option_args (lit "--proxy") a.(a_proxy)
  ++ (if a.(a_daemon) then [lit "--daemon=true"] else []).

(** The command line shown. *)
Definition command_line (args : list text) : text :=
  lit "cargo " ++ join (lit " ") (shell_quote <$> args).

(** ** The dialogue *)

Definition NETWORKS : list text := [lit "signet"; lit "bitcoin"].

(** What the wizard comes to: it is stopped with Ctrl-C, the menu is still open,
    or the command line is shown and the node started or not. *)
Inductive ending :=
| Exit130
| StillOpen
| Shown (a : answers) (start : bool).

Definition wizard_questions (home cwd : text) (canonicalize : text → option text) (network : text)
    (input : list line) : dialogue answers :=
  '(datadir, input) ← prompt_with_default (lit "~/.kernel-node") input;
  '(connect, input) ← prompt_optional input;
  '(keys, input) ← ask_until (keys_answer (λ p, canonicalize (absolute home cwd p))) input;
  '(proxied, input) ← prompt_yes_no false input;
  '(proxy, input) ← (if proxied : bool
                     then (λ '(p, i), (Some p, i)) <$> prompt_with_default (lit "127.0.0.1:9050") input
                     else Ok (None, input));
  '(daemon, input) ← prompt_yes_no false input;
  Ok (mk_answers network datadir connect keys proxy daemon, input).

Definition wizard (t : terminal) (home cwd : text) (canonicalize : text → option text)
    (input : list line) : outcome Empty_set ending :=
  '(choice, input) ← select t NETWORKS 0 input;
  match choice with
  | Aborted => Ok Exit130
  | Waiting => Ok StillOpen
  | Chosen network =>
      '(a, input) ← wizard_questions home cwd canonicalize network input;
      '(start, _) ← prompt_yes_no true input;
      Ok (Shown a start)
  end.

(** ** The menu, proved *)

(** What the arrow keys before the choice come to. *)
Definition key_move (k : key) : Z := match k with Up => -1 | Down => 1 | _ => 0 end.
Definition net (reads : list (list Z)) : Z := sumZ ((λ buf, key_move (key_of buf)) <$> reads).
Definition leaves (buf : list Z) : bool :=
  match key_of buf with Enter | Abort => true | _ => false end.

Lemma move_up_mod n idx : 0 ≤ idx < n → n < 2 ^ 64 → move_up n idx = (idx - 1) mod n.
Proof.
  intros Hi Hn. unfold move_up. case_decide as Hz.
  - subst. rewrite wrap_u_small by (unfold in_u; lia).
    replace (0 - 1) with ((n - 1) + (-1) * n) by lia. rewrite Z.mod_add, Z.mod_small by lia. done.
  - by rewrite Z.mod_small by lia.
Qed.

Lemma move_down_mod n idx : 0 ≤ idx < n → n < 2 ^ 64 → move_down n idx = Ok ((idx + 1) mod n).
Proof.
  intros Hi Hn. unfold move_down. rewrite decide_False by lia.
  by rewrite wrap_u_small by (unfold in_u; lia).
Qed.

Lemma select_moves options idx moves rest :
  let n := Z.of_nat (length options) in
  0 ≤ idx < n → n < 2 ^ 64 → Forall (λ buf, leaves buf = false) moves →
  select_loop options idx (moves ++ rest) = select_loop options ((idx + net moves) mod n) rest.
Proof.
  intros n Hi Hn Hm. revert idx Hi. induction Hm as [|buf moves Hbuf Hm IH]; intros idx Hi.
  { change (net []) with 0. rewrite Z.add_0_r, Z.mod_small by lia. done. }
  change (net (buf :: moves)) with (key_move (key_of buf) + net moves).
  assert (∀ d, (((idx + d) mod n) + net moves) mod n = (idx + (d + net moves)) mod n) as Hmod.
  { intros d. rewrite Zplus_mod_idemp_l. f_equal. lia. }
  assert (∀ d, 0 ≤ (idx + d) mod n < n) as Hr by (intros; apply Z.mod_pos_bound; lia).
  cbn [app select_loop]. fold n. unfold leaves in Hbuf. destruct (key_of buf); try done; cbn [key_move].
  - rewrite move_up_mod by done. replace (idx - 1) with (idx + -1) by lia.
    rewrite IH by apply Hr. by rewrite Hmod.
  - rewrite move_down_mod by done. simpl_outcome. rewrite IH by apply Hr. by rewrite Hmod.
  - rewrite IH by done. by rewrite Z.add_0_l.
Qed.

(** The arrow-key menu stays within its options: whatever is typed, the choice
    is the option as many places down, around the ends, as the down keys
    outnumber the up keys, Ctrl-C leaves it, and it is left in no other way. *)
Theorem menu_choice options default_idx moves :
  options ≠ [] → Z.of_nat (length options) < 2 ^ 64 → 0 ≤ default_idx →
  Forall (λ buf, leaves buf = false) moves →
  let n := Z.of_nat (length options) in
  let i := (Z.min default_idx (n - 1) + net moves) mod n in
  select_raw options default_idx moves = Ok Waiting ∧
  (∀ buf rest, key_of buf = Enter →
     ∃ opt, options !! Z.to_nat i = Some opt ∧
       select_raw options default_idx (moves ++ buf :: rest) = Ok (Chosen opt)) ∧
  (∀ buf rest, key_of buf = Abort →
     select_raw options default_idx (moves ++ buf :: rest) = Ok Aborted).
Proof.
  intros Hne Hn Hd Hm n i.
  assert (0 < n) as Hpos by (destruct options; [done|unfold n; simpl; lia]).
  assert (0 ≤ i < n) as Hi by (apply Z.mod_pos_bound; lia).
  unfold select_raw. replace (saturating_sub (Z.of_nat (length options)) 1) with (n - 1)
    by (unfold saturating_sub; fold n; lia).
  split_and!.
  - rewrite <- (app_nil_r moves), select_moves; [done|fold n; lia|done|done].
  - intros buf rest Hk. destruct (lookup_lt_is_Some_2 options (Z.to_nat i)) as [opt Ho]; [unfold n in *; lia|].
    exists opt. split; [done|]. rewrite select_moves; [|fold n; lia|done|done].
    cbn [select_loop]. rewrite Hk. fold n. fold i. by rewrite Ho.
  - intros buf rest Hk. rewrite select_moves; [|fold n; lia|done|done].
    cbn [select_loop]. by rewrite Hk.
Qed.

(** ** The end of the dialogue *)

Lemma ask_until_ends {A} (f : text → option A) input :
  Forall is_Some input → is_Some (f []) →
  ∃ a rest answer, ask_until f input = Ok (a, rest) ∧ f answer = Some a ∧ Forall is_Some rest.
Proof.
  intros Hin [a Ha]. induction Hin as [|l input [s ->] Hin IH]; cbn [ask_until].
  - rewrite Ha. exists a, [], []. split_and!; [done|done|constructor].
  - destruct (f (trim s)) as [b|] eqn:Hb; [|done]. exists b, input, (trim s). done.
Qed.

Lemma read_line_ends input :
  Forall is_Some input → ∃ a rest, read_line input = Ok (a, rest) ∧ Forall is_Some rest.
Proof.
  intros [|l rest [s ->] Hr]; [exists [], []; split; [done|constructor]|]. exists (trim s), rest. done.
Qed.

Lemma default_ends default input :
  Forall is_Some input → default ≠ [] →
  ∃ a rest, prompt_with_default default input = Ok (a, rest) ∧ a ≠ [] ∧ Forall is_Some rest.
Proof.
  intros Hin Hd. destruct (read_line_ends _ Hin) as (a & rest & Hr & Hf).
  unfold prompt_with_default. rewrite Hr. simpl_outcome.
  destruct (is_nil a) eqn:Ha; do 2 eexists; (split_and!; [done| |done]); [done|by apply is_nil_false].
Qed.

Lemma optional_ends input :
  Forall is_Some input →
  ∃ a rest, prompt_optional input = Ok (a, rest) ∧ a ≠ Some [] ∧ Forall is_Some rest.
Proof.
  intros Hin. destruct (read_line_ends _ Hin) as (a & rest & Hr & Hf).
  unfold prompt_optional. rewrite Hr. simpl_outcome.
  destruct (is_nil a) eqn:Ha; do 2 eexists; (split_and!; [done| |done]); [done|].
  intros [= ->]. done.
Qed.

Lemma yes_no_ends default input :
  Forall is_Some input → ∃ a rest, prompt_yes_no default input = Ok (a, rest) ∧ Forall is_Some rest.
Proof.
  intros Hin. destruct (ask_until_ends (yes_no default) input Hin) as (a & rest & _ & ? & _ & ?);
    [by eexists|]. eauto.
Qed.

Lemma first_leaving reads :
  existsb leaves reads = true →
  ∃ moves buf rest, reads = moves ++ buf :: rest ∧ Forall (λ b, leaves b = false) moves ∧ leaves buf = true.
Proof.
  induction reads as [|b reads IH]; [done|]. cbn [existsb]. destruct (leaves b) eqn:Hb.
  - intros _. exists [], b, reads. split_and!; [done|constructor|done].
  - intros Hr. destruct (IH Hr) as (moves & buf & rest & -> & Hm & Hl).
    exists (b :: moves), buf, rest. split_and!; [done|by constructor|done].
Qed.

(** One of the networks, or Ctrl-C. *)
Lemma select_network_ends t input :
  Forall is_Some input →
  (∀ reads, t = Raw reads → existsb leaves reads = true) →
  ∃ m rest, select t NETWORKS 0 input = Ok (m, rest) ∧ Forall is_Some rest ∧
    (m = Aborted ∨ ∃ n, m = Chosen n ∧ n ∈ NETWORKS).
Proof.
  intros Hin Ht. destruct t as [reads|]; cbn [select].
  - destruct (first_leaving reads (Ht reads eq_refl)) as (moves & buf & rest & -> & Hm & Hl).
    unfold select_raw. rewrite select_moves; [|done|done|done]. cbn [select_loop].
    set (i := ((_ + net moves) mod _)).
    assert (0 ≤ i < 2) as Hi by (apply Z.mod_pos_bound; lia).
    destruct (lookup_lt_is_Some_2 NETWORKS (Z.to_nat i)) as [n Hn]; [change (length NETWORKS) with 2%nat; lia|].
    unfold leaves in Hl. destruct (key_of buf); try done.
    + rewrite Hn. simpl_outcome. do 2 eexists. split_and!; [done|done|]. right. exists n.
      split; [done|]. by eapply list_elem_of_lookup_2.
    + do 2 eexists. split_and!; [done|done|]. by left.
  - unfold fallback_select. change (NETWORKS !! Z.to_nat 0) with (Some (lit "signet")).
    destruct (ask_until_ends (fallback_answer NETWORKS (lit "signet")) input Hin)
      as (n & rest & answer & Ha & Hf & Hr); [by eexists|].
    rewrite Ha. simpl_outcome. do 2 eexists. split_and!; [done|done|]. right. exists n. split; [done|].
    unfold fallback_answer in Hf. destruct (is_nil answer); [simplify_eq; by constructor|].
    destruct (find_first _ _) as [o|] eqn:Ho; [simplify_eq; by apply find_first_Some in Ho as [? _]|].
    apply bind_Some in Hf as (idx & _ & Hl). by eapply list_elem_of_lookup_2.
Qed.

Lemma questions_end home cwd canonicalize network input :
  Forall is_Some input →
  ∃ a rest, wizard_questions home cwd canonicalize network input = Ok (a, rest) ∧ Forall is_Some rest ∧
    a.(a_network) = network ∧ a.(a_datadir) ≠ [] ∧ a.(a_connect) ≠ Some [] ∧ a.(a_proxy) ≠ Some [] ∧
    (∀ k, a.(a_keys) = Some k → ∃ p, canonicalize p = Some k).
Proof.
  intros Hin. unfold wizard_questions.
  destruct (default_ends (lit "~/.kernel-node") input Hin) as (datadir & i1 & -> & Hd & H1); [done|]. simpl_outcome.
  destruct (optional_ends i1 H1) as (connect & i2 & -> & Hc & H2). simpl_outcome.
  destruct (ask_until_ends (keys_answer (λ p, canonicalize (absolute home cwd p))) i2 H2)
    as (keys & i3 & answer & -> & Hk & H3); [by eexists|]. simpl_outcome.
  destruct (yes_no_ends false i3 H3) as (proxied & i4 & -> & H4). simpl_outcome.
  assert (∃ proxy i5, (if proxied then (λ '(p, i), (Some p, i)) <$> prompt_with_default (lit "127.0.0.1:9050") i4
                       else Ok (None, i4)) = Ok (proxy, i5) ∧ proxy ≠ Some [] ∧ Forall is_Some i5)
    as (proxy & i5 & -> & Hp & H5).
  { destruct proxied; [|by exists None, i4].
    destruct (default_ends (lit "127.0.0.1:9050") i4 H4) as (p & i5 & -> & Hp & H5); [done|].
    exists (Some p), i5. split_and!; [done|congruence|done]. }
  simpl_outcome. destruct (yes_no_ends false i5 H5) as (daemon & i6 & -> & H6). simpl_outcome.
  do 2 eexists. split_and!; [done|done|done|done|done|done|]. simpl. intros k ->.
  unfold keys_answer in Hk. destruct (is_nil answer); [done|].
  apply fmap_Some in Hk as (k' & Hk & [= ->]). eauto.
Qed.

(** The wizard comes to an end: whatever lines it is given, few, wrong or none,
    it neither waits for ever nor panics; it is left with Ctrl-C or shows a
    command line with a network of the menu, a data directory, and a keys file
    that exists, if any. *)
Theorem wizard_ends t home cwd canonicalize input :
  Forall is_Some input →
  (∀ reads, t = Raw reads → existsb leaves reads = true) →
  ∃ e, wizard t home cwd canonicalize input = Ok e ∧
    match e with
    | Exit130 => True
    | StillOpen => False
    | Shown a _ =>
        a.(a_network) ∈ NETWORKS ∧ a.(a_datadir) ≠ [] ∧ a.(a_connect) ≠ Some [] ∧ a.(a_proxy) ≠ Some [] ∧
        (∀ k, a.(a_keys) = Some k → ∃ p, canonicalize p = Some k)
    end.
Proof.
  intros Hin Ht. unfold wizard.
  destruct (select_network_ends t input Hin Ht) as (m & i1 & -> & H1 & Hm). simpl_outcome.
  destruct Hm as [->|(n & -> & Hn)]; [by exists Exit130|].
  destruct (questions_end home cwd canonicalize n i1 H1) as (a & i2 & -> & H2 & Ha & Hrest). simpl_outcome.
  destruct (yes_no_ends true i2 H2) as (start & i3 & -> & _). simpl_outcome.
  eexists. split; [done|]. cbn. rewrite Ha. done.
Qed.

(** ** The command line, read by a shell *)

(** A POSIX shell splits a simple command into words, each character with whether
    it was quoted. [None]: the line holds something other than plain characters,
    single quotes, backslashes and blanks. *)
Definition SHELL_SPECIAL : text := lit "|&;<>()$`*?[]#%!{}^" ++ [34; 10].
Abbreviation word := (list (Z * bool)).

(** [w]: the word being read, its characters last one first. *)
Fixpoint shell_scan (quoted : bool) (w : option word) (s : text) : option (list word) :=
  match s with
  | [] => if quoted then None else Some (option_list (reverse <$> w))
  | c :: s =>
      if quoted then
        if decide (c = QUOTE) then shell_scan false (Some (default [] w)) s
        else shell_scan true (Some ((c, true) :: default [] w)) s
      else if decide (c = QUOTE) then shell_scan true (Some (default [] w)) s
      else if decide (c = 92) then
        match s with
        | c :: s => shell_scan false (Some ((c, true) :: default [] w)) s
        | [] => None
        end
      else if decide (c = 32 ∨ c = 9) then
        (λ ws, option_list (reverse <$> w) ++ ws) <$> shell_scan false None s
      else if decide (c ∈ SHELL_SPECIAL) then None
      else shell_scan false (Some ((c, false) :: default [] w)) s
  end.

(** Up to the first slash that is not quoted. *)
Fixpoint until_slash (w : word) : word * word :=
  match w with
  | [] => ([], [])
  | (c, q) :: w' =>
      if decide (c = 47 ∧ q = false) then ([], w) else let '(a, b) := until_slash w' in ((c, q) :: a, b)
  end.

(** Tilde expansion; [home_of] gives the home directory of a login name, of the
    user for the empty one. *)
Definition tilde (home_of : text → text) (w : word) : text :=
  match w with
  | (126, false) :: w' =>
      let '(login, rest) := until_slash w' in
      if forallb (λ p, negb p.2) login then home_of login.*1 ++ rest.*1 else w.*1
  | _ => w.*1
  end.

Definition shell_words (home_of : text → text) (s : text) : option (list text) :=
  option_map (λ ws : list word, tilde home_of <$> ws) (shell_scan false None s).















(** ** Concrete runs *)

Module Witness.
Definition args : list text := [lit "--datadir"; lit "/tmp/it's here"; []].

(** Two of three reads move down and up again; the third is an escape sequence the
    menu ignores. *)
Lemma menu_witness :
  select_raw NETWORKS 0 [[27; 91; 66]; [107]; [27; 91; 67]] = Ok Waiting ∧
  select_raw NETWORKS 0 [[27; 91; 66]; [106]; [106]; [10]] = Ok (Chosen (lit "bitcoin")).
Proof.
  split.
  - apply (menu_choice NETWORKS 0 [[27; 91; 66]; [107]; [27; 91; 67]]); [done|done|done|].
    by repeat constructor.
  - destruct (menu_choice NETWORKS 0 [[27; 91; 66]; [106]; [106]]) as (_ & He & _); [done|done|done| |].
    + by repeat constructor.
    + destruct (He [10] [] eq_refl) as (opt & Ho & Hs). vm_compute in Ho. injection Ho as <-. exact Hs.
Defined.

(** No input at all: the defaults are taken. *)
Lemma wizard_witness :
  ∃ a start, wizard Lines (lit "/root") (lit "/") Some [] = Ok (Shown a start) ∧ a.(a_network) ∈ NETWORKS ∧
    a.(a_datadir) = lit "~/.kernel-node".
Proof.
  destruct (wizard_ends Lines (lit "/root") (lit "/") Some []) as (e & He & Hm).
  - constructor.
  - discriminate.
  - destruct e as [| |a start]; [vm_compute in He; discriminate|destruct Hm|]. exists a, start.
    split; [exact He|]. split; [apply Hm|]. vm_compute in He. injection He as <- _. reflexivity.
Defined.


(** A tilde with a login name is shown unquoted: the shell expands it, the node
    started by the wizard does not. *)
Lemma login_tilde_differs :
  command_line [lit "~bob/data"] = lit "cargo ~bob/data" ∧
  shell_words (λ _, lit "/home/bob") (command_line [lit "~bob/data"]) = Some [lit "cargo"; lit "/home/bob/data"] ∧
  expand_tilde (lit "/root") (lit "~bob/data") = lit "~bob/data".
Proof. split_and!; vm_compute; reflexivity. Qed.

(** When the terminal is gone every read is empty, and the menu never ends. *)
Lemma hangup_spins k : select_raw NETWORKS 0 (replicate k []) = Ok Waiting.
Proof. unfold select_raw. generalize (Z.min 0 (saturating_sub (Z.of_nat (length NETWORKS)) 1)). induction k; [done|]. intros z. apply IHk. Qed.
End Witness.
