(* ===== verification/Terminal.v ===== *)
(** * The menu on the terminal (src/bin/wizard.rs)

    [select] with what it does to the terminal: raw mode ([RawMode], left when it
    is dropped), the cursor, and the lines it draws and draws over. A screen is
    taken to be long enough for the menu. The calls of libc give the results that
    the arguments say. *)

From S2P Require Import Prelude Text Paths Wizard.

(** ** Terminal settings *)

(** [libc::termios]: the local flags, the control characters and the rest. *)
Record termios := mk_termios {
  c_lflag : Z;
  c_cc : list Z;
  c_rest : list Z;
}.

Definition ISIG : Z := 1.
Definition ICANON : Z := 2.
Definition ECHO : Z := 8.
Definition VTIME : nat := 5.
Definition VMIN : nat := 6.
Definition NCCS : nat := 32.

(** The lines above the cursor, the last one first; the cursor is at the start
    of the line below them. *)
Record tty := mk_tty {
  attrs : termios;
  screen : list text;
  cursor_shown : bool;
}.

Definition set_attrs (t : termios) (s : tty) : tty := mk_tty t s.(screen) s.(cursor_shown).
Definition print_line (l : text) (s : tty) : tty := mk_tty s.(attrs) (l :: s.(screen)) s.(cursor_shown).
(** [\x1b[1A\x1b[2K]: up one line, which is erased. *)
Definition up_erase (s : tty) : tty := mk_tty s.(attrs) (tail s.(screen)) s.(cursor_shown).
(** [\x1b[?25h] and [\x1b[?25l]. *)
Definition show_cursor (b : bool) (s : tty) : tty := mk_tty s.(attrs) s.(screen) b.

(** What libc answers: [isatty], [tcgetattr] and the two calls of [tcsetattr]. *)
Record libc_answers := mk_libc {
  is_a_tty : bool;
  get_ok : bool;
  set_ok : bool;
  restore_ok : bool;
}.

Definition raw_of (original : termios) : termios :=
  mk_termios (Z.ldiff original.(c_lflag) (Z.lor (Z.lor ICANON ECHO) ISIG))
    (<[VTIME := 1]> (<[VMIN := 1]> original.(c_cc))) original.(c_rest).

(** [RawMode::enter]: the saved settings. *)
Definition raw_enter (libc : libc_answers) (s : tty) : option termios * tty :=
  if negb libc.(get_ok) then (None, s)
  else if negb libc.(set_ok) then (None, s)
  else (Some s.(attrs), set_attrs (raw_of s.(attrs)) s).

(** [RawMode::drop]. *)
Definition raw_drop (libc : libc_answers) (original : termios) (s : tty) : tty :=
  show_cursor true (if libc.(restore_ok) then set_attrs original s else s).

(** ** Drawing *)

Definition escape (code : text) : text := [27; 91] ++ code.
Definition RESET : text := escape (lit "0m").
Definition BOLD : text := escape (lit "1m").
Definition DIM : text := escape (lit "2m").
Definition CYAN : text := escape (lit "36m").

Definition option_line (idx : Z) (i : nat) (opt : text) : text :=
  if decide (Z.of_nat i = idx) then lit "  " ++ CYAN ++ BOLD ++ lit "> " ++ opt ++ RESET
  else lit "    " ++ opt.
Definition menu_lines (options : list text) (idx : Z) : list text := imap (option_line idx) options.

(** One round of the loop up to the read. *)
Definition draw (drawn : bool) (options : list text) (idx : Z) (s : tty) : tty :=
  let s := if drawn then Nat.iter (length options) up_erase s else s in
  foldl (λ s l, print_line l s) s (menu_lines options idx).

(** The loop; the keys do what they do in [select_loop]. *)
Fixpoint menu_loop (drawn : bool) (options : list text) (idx : Z) (reads : list (list Z)) (s : tty)
    : tty * outcome Empty_set menu :=
  let n := Z.of_nat (length options) in
  let s := draw drawn options idx s in
  match reads with
  | [] => (s, Ok Waiting)
  | buf :: reads =>
      match key_of buf with
      | Enter => (s, Chosen <$> or_panic (options !! Z.to_nat idx))
      | Abort => (s, Ok Aborted)
      | Up => menu_loop true options (move_up n idx) reads s
      | Down =>
          match move_down n idx with
          | Ok idx => menu_loop true options idx reads s
          | Err e => (s, Err e)
          | Panic => (s, Panic)
          end
      | Other => menu_loop true options idx reads s
      end
  end.

(** The question. *)
Definition asked (question : text) (s : tty) : tty :=
  print_line (BOLD ++ question ++ RESET ++ lit " " ++ DIM ++ [40; 8593; 47; 8595] ++ lit ", enter)" ++ RESET) s.

(** [select]. Leaving the menu drops the raw mode, by a panic too; before the exit
    with code 130 it is dropped by hand. *)
Definition select_on (libc : libc_answers) (question : text) (options : list text) (default_idx : Z)
    (reads : list (list Z)) (input : list line) (s : tty) : tty * dialogue menu :=
  let s := asked question s in
  let fallback := (λ '(opt, input), (Chosen opt, input)) <$> fallback_select options default_idx input in
  if negb libc.(is_a_tty) then (s, fallback)
  else match raw_enter libc s with
  | (None, s) => (s, fallback)
  | (Some original, s) =>
      let idx := Z.min default_idx (saturating_sub (Z.of_nat (length options)) 1) in
      let '(s, m) := menu_loop false options idx reads (show_cursor false s) in
      let s := match m with
        | Ok Waiting => s
        | Ok Aborted => print_line (lit "aborted") (print_line [] (raw_drop libc original s))
        | _ => raw_drop libc original s
        end in
      (s, (λ m, (m, input)) <$> m)
  end.

(** The end of [main]: the node is run, and its exit code is the wizard's. [None]:
    it was not started; [Some None]: a signal killed it. *)
Definition exit_status (status : option (option Z)) : outcome Empty_set Z :=
  code ← or_panic status; Ok (default 1 code).

(** ** Properties *)

Lemma print_lines ls s :
  foldl (λ s l, print_line l s) s ls = mk_tty s.(attrs) (reverse ls ++ s.(screen)) s.(cursor_shown).
Proof.
  revert s. induction ls as [|l ls IH]; intros s; simpl; [by destruct s|].
  rewrite IH, reverse_cons. simpl. by rewrite <- app_assoc.
Qed.

Lemma erase_lines ls s base :
  s.(screen) = ls ++ base → Nat.iter (length ls) up_erase s = mk_tty s.(attrs) base s.(cursor_shown).
Proof.
  revert s. induction ls as [|l ls IH]; intros s Hs.
  - simpl in *. subst. by destruct s.
  - cbn [length]. rewrite Nat.iter_succ_r, (IH (up_erase s)); [done|]. simpl. by rewrite Hs.
Qed.

(** The menu drawn below what was on the screen, with the mark at [idx]. *)
Definition frame (options : list text) (base : tty) (idx : Z) : tty :=
  mk_tty base.(attrs) (reverse (menu_lines options idx) ++ base.(screen)) base.(cursor_shown).

Lemma draw_first options base idx : draw false options idx base = frame options base idx.
Proof. apply print_lines. Qed.

Lemma draw_again options base idx idx' : draw true options idx' (frame options base idx) = frame options base idx'.
Proof.
  unfold draw. rewrite print_lines. unfold frame at 1 2 3.
  rewrite <- (length_imap (option_line idx) options), <- length_reverse. fold (menu_lines options idx).
  by rewrite (erase_lines (reverse (menu_lines options idx)) _ base.(screen)).
Qed.

(** A terminal that is about to show the menu: nothing drawn yet, or a frame. *)
Definition drawable (options : list text) (base : tty) (drawn : bool) (s : tty) : Prop :=
  if drawn then ∃ idx, s = frame options base idx else s = base.

Lemma draw_frame options base drawn idx s :
  drawable options base drawn s → draw drawn options idx s = frame options base idx.
Proof.
  destruct drawn; simpl; [intros [i ->]; apply draw_again|intros ->; apply draw_first].
Qed.

(** The loop comes to what the menu without a screen comes to, and leaves the menu
    with the mark where the keys brought it. *)
Lemma menu_loop_spec options base drawn idx moves rest s :
  let n := Z.of_nat (length options) in
  0 ≤ idx < n → n < 2 ^ 64 → Forall (λ buf, leaves buf = false) moves →
  (match rest with [] => True | buf :: _ => leaves buf = true end) →
  drawable options base drawn s →
  menu_loop drawn options idx (moves ++ rest) s =
    (frame options base ((idx + net moves) mod n), select_loop options idx (moves ++ rest)).
Proof.
  intros n Hi Hn Hm Hrest. revert drawn idx s Hi. induction Hm as [|buf moves Hbuf Hm IH]; intros drawn idx s Hi Hs.
  - change (net []) with 0. rewrite Z.add_0_r, Z.mod_small by lia. destruct rest as [|buf rest]; simpl.
    + by rewrite draw_frame with (base:=base).
    + unfold leaves in Hrest. rewrite draw_frame with (base:=base) by done. by destruct (key_of buf).
  - assert (∀ d, (((idx + d) mod n) + net moves) mod n = (idx + (d + net moves)) mod n) as Hmod.
    { intros d. rewrite Zplus_mod_idemp_l. f_equal. lia. }
    assert (∀ d, 0 ≤ (idx + d) mod n < n) as Hr by (intros; apply Z.mod_pos_bound; lia).
    assert (∀ i, drawable options base true (frame options base i)) as Hd by (intros i; by exists i).
    change (net (buf :: moves)) with (key_move (key_of buf) + net moves).
    cbn [app menu_loop select_loop]. fold n. rewrite draw_frame with (base:=base) by done.
    unfold leaves in Hbuf. destruct (key_of buf); try done; cbn [key_move].
    + rewrite move_up_mod by done. replace (idx - 1) with (idx + -1) by lia.
      rewrite IH; [by rewrite Hmod|apply Hr|apply Hd].
    + rewrite move_down_mod by done. simpl_outcome. rewrite IH; [by rewrite Hmod|apply Hr|apply Hd].
    + rewrite IH; [|done|apply Hd]. by rewrite Z.add_0_l.
Qed.

(** Without the screen, [select_on] is the menu of the dialogue. *)
Lemma menu_loop_result drawn options idx reads s : (menu_loop drawn options idx reads s).2 = select_loop options idx reads.
Proof.
  revert drawn idx s. induction reads as [|buf reads IH]; intros drawn idx s; simpl; [done|].
  destruct (key_of buf); try done. by destruct (move_down _ idx).
Qed.

Definition mode_of (libc : libc_answers) (reads : list (list Z)) : terminal :=
  if libc.(is_a_tty) && libc.(get_ok) && libc.(set_ok) then Raw reads else Lines.

Lemma select_on_result libc question options default_idx reads input s :
  (select_on libc question options default_idx reads input s).2 =
  select (mode_of libc reads) options default_idx input.
Proof.
  unfold select_on, mode_of, raw_enter. destruct libc as [[] [] [] r]; try done. simpl.
  destruct (menu_loop _ _ _ _ _) as [s' m] eqn:Hm. simpl. unfold select_raw.
  by rewrite <- (menu_loop_result false options _ reads (show_cursor false (set_attrs (raw_of (attrs s)) (asked question s)))), Hm.
Qed.

(** In raw mode keys come one by one, are not echoed, and Ctrl-C is a key like any
    other; all other flags are those of before. *)
Lemma raw_mode_flags t i :
  0 ≤ i → Z.testbit (raw_of t).(c_lflag) i =
  Z.testbit t.(c_lflag) i && negb (bool_decide (i = 0 ∨ i = 1 ∨ i = 3)).
Proof.
  intros Hi. unfold raw_of. cbn [c_lflag]. rewrite Z.ldiff_spec. f_equal. f_equal.
  change (Z.lor (Z.lor ICANON ECHO) ISIG) with 11.
  destruct (decide (i < 4)) as [Hlt|Hge].
  - assert (i = 0 ∨ i = 1 ∨ i = 2 ∨ i = 3) as Hc by lia. by destruct Hc as [->|[->|[->| ->]]].
  - rewrite bool_decide_false by lia. apply Z.bits_above_log2; [lia|]. simpl. lia.
Qed.

(** C39: The arrow-key menu on a terminal: whatever is typed, the mark is on the
    option as many places down, around the ends, as the down keys outnumber the up
    keys, what was on the screen before is still there above the menu, Enter
    chooses the marked option and Ctrl-C gives it up. However it is left, the
    settings of the terminal are the ones from before and the cursor is shown. The
    calls that get and set the settings are taken to succeed. *)
Theorem menu_on_terminal question options default_idx moves rest input s :
  options ≠ [] → Z.of_nat (length options) < 2 ^ 64 → 0 ≤ default_idx →
  Forall (λ buf, leaves buf = false) moves →
  let n := Z.of_nat (length options) in
  let i := (Z.min default_idx (n - 1) + net moves) mod n in
  let lines := reverse (menu_lines options i) ++ (asked question s).(screen) in
  let after reads := select_on (mk_libc true true true true) question options default_idx reads input s in
  after moves = (mk_tty (raw_of s.(attrs)) lines false, Ok (Waiting, input)) ∧
  (∀ buf, key_of buf = Enter → ∃ opt, options !! Z.to_nat i = Some opt ∧
     after (moves ++ buf :: rest) = (mk_tty s.(attrs) lines true, Ok (Chosen opt, input))) ∧
  (∀ buf, key_of buf = Abort →
     after (moves ++ buf :: rest) = (mk_tty s.(attrs) (lit "aborted" :: [] :: lines) true, Ok (Aborted, input))).
Proof.
  intros Hne Hn Hd Hm n i lines after.
  assert (0 < n) as Hpos by (destruct options; [done|unfold n; simpl; lia]).
  assert (saturating_sub n 1 = n - 1) as Hsat by (unfold saturating_sub; lia).
  set (base := show_cursor false (set_attrs (raw_of s.(attrs)) (asked question s))).
  assert (∀ rest', match rest' with [] => True | buf :: _ => leaves buf = true end →
    menu_loop false options (Z.min default_idx (n - 1)) (moves ++ rest') base =
    (frame options base i, select_raw options default_idx (moves ++ rest'))) as Hloop.
  { intros rest' Hr. rewrite menu_loop_spec with (base:=base); [|fold n; lia|done|done|done|done].
    unfold select_raw. fold n. by rewrite Hsat. }
  destruct (menu_choice options default_idx moves Hne Hn Hd Hm) as (Hw & He & Ha). fold n i in He.
  unfold after, select_on. cbn [is_a_tty negb raw_enter get_ok set_ok]. fold n. rewrite Hsat.
  change (show_cursor false _) with base. split_and!.
  - rewrite <- (app_nil_r moves), Hloop, app_nil_r, Hw by done. done.
  - intros buf Hk. destruct (He buf rest Hk) as (opt & Ho & Hs). exists opt. split; [done|].
    rewrite Hloop, Hs by (unfold leaves; by rewrite Hk). done.
  - intros buf Hk. rewrite Hloop, (Ha buf rest Hk) by (unfold leaves; by rewrite Hk). done.
Qed.

Module Witness.
Definition shell : tty := mk_tty (mk_termios 35387 (replicate NCCS 0) []) [lit "$ wizard"] true.

Lemma menu_on_terminal_witness :
  let s := select_on (mk_libc true true true true) (lit "Network") NETWORKS 0 [[27; 91; 66]; [3]] [] shell in
  s.2 = Ok (Aborted, []) ∧ s.1.(attrs) = shell.(attrs) ∧ s.1.(cursor_shown) = true ∧
  s.1.(screen) !! 3%nat = Some (lit "    signet") ∧ last s.1.(screen) = Some (lit "$ wizard").
Proof.
  destruct (menu_on_terminal (lit "Network") NETWORKS 0 [[27; 91; 66]] [] [] shell) as (_ & _ & Ha);
    [discriminate|reflexivity|done|by repeat constructor|].
  cbv zeta. rewrite (Ha [3] eq_refl : select_on _ _ _ _ [[27; 91; 66]; [3]] _ _ = _).
  split; [reflexivity|]. split; [reflexivity|]. split; [reflexivity|]. split; vm_compute; reflexivity.
Defined.

(** The settings of a usual terminal in raw mode. *)
Lemma raw_settings : (raw_of shell.(attrs)).(c_lflag) = 35376 ∧ take 7 (raw_of shell.(attrs)).(c_cc) = [0; 0; 0; 0; 0; 1; 1].
Proof. split; vm_compute; reflexivity. Qed.

(** A node killed by a signal gives the wizard exit code 1. *)
Lemma exit_codes : exit_status (Some None) = Ok 1 ∧ exit_status (Some (Some 0)) = Ok 0 ∧ exit_status None = Panic.
Proof. split_and!; reflexivity. Qed.
End Witness.
