(* ===== verification/Daemon.v ===== *)
(** * Running as a daemon (src/daemonize.rs)

    The process forks, leaves its terminal and points its streams at the null
    device and a log file. The results of the system calls are arguments. *)

From S2P Require Import Prelude Text.

(** [0o027]. *)
Definition MASK_OCTAL : Z := 2 * 8 + 7.
Definition DEV_NULL : text := lit "/dev/null".

(** Where a stream of the process leads. *)
Inductive stream_target := Inherited | File (path : text).

(** What the calls change of a process and its files. *)
Record process := mk_process {
  p_session_leader : bool;
  p_cwd : text;
  p_umask : Z;
  p_stdin : stream_target;
  p_stdout : stream_target;
  p_stderr : stream_target;
  p_files : gmap (list Z) text;
}.

(** The results of the calls: [libc::fork], [setsid], and the errors of the others;
    a write can stop after some bytes. *)
Record calls := mk_calls {
  c_fork : Z;
  c_setsid : Z;
  c_errno : io_error;
  c_chdir : option io_error;
  c_open_null : option io_error;
  c_write_pid : option (nat * io_error);
  c_create_log : option io_error;
  c_pid : Z;
}.

(** The parent leaves with exit code 0; the child goes on or returns an error. *)
Inductive forked := ParentExit | Child (r : outcome io_error unit) (p : process).

Definition pid_path (dir : text) : text := dir ++ lit "/node.pid".
Definition log_path (dir : text) : text := dir ++ lit "/node.log".

Definition set_stdin (t : stream_target) (p : process) : process :=
  mk_process p.(p_session_leader) p.(p_cwd) p.(p_umask) t p.(p_stdout) p.(p_stderr) p.(p_files).
Definition set_outputs (t : stream_target) (p : process) : process :=
  mk_process p.(p_session_leader) p.(p_cwd) p.(p_umask) p.(p_stdin) t t p.(p_files).
Definition write_file (path content : text) (p : process) : process :=
  mk_process p.(p_session_leader) p.(p_cwd) p.(p_umask) p.(p_stdin) p.(p_stdout) p.(p_stderr)
    (<[path := content]> p.(p_files)).

(** [Daemonize::fork]. The file descriptors are open, so [dup2] succeeds. *)
Definition daemonize_fork (c : calls) (working_directory : text) (p : process) : forked :=
  if decide (c.(c_fork) = -1) then Child (Err c.(c_errno)) p
  else if decide (c.(c_fork) ≠ 0) then ParentExit
  else if decide (c.(c_setsid) = -1) then Child (Err c.(c_errno)) p
  else
    let p := mk_process true p.(p_cwd) p.(p_umask) p.(p_stdin) p.(p_stdout) p.(p_stderr) p.(p_files) in
    match c.(c_chdir) with
    | Some e => Child (Err e) p
    | None =>
        let p := mk_process true working_directory MASK_OCTAL p.(p_stdin) p.(p_stdout) p.(p_stderr) p.(p_files) in
        match c.(c_open_null) with
        | Some e => Child (Err e) p
        | None =>
            let p := set_stdin (File DEV_NULL) p in
            let pid := show_unsigned c.(c_pid) in
            match c.(c_write_pid) with
            | Some (k, e) => Child (Err e) (write_file (pid_path working_directory) (take k pid) p)
            | None =>
                let p := write_file (pid_path working_directory) pid p in
                match c.(c_create_log) with
                | Some e => Child (Err e) p
                | None =>
                    let p := write_file (log_path working_directory) [] p in
                    Child (Ok ()) (set_outputs (File (log_path working_directory)) p)
                end
            end
        end
    end.

Lemma paths_differ dir : pid_path dir ≠ log_path dir.
Proof. unfold pid_path, log_path. by intros Heq%app_inv_head. Qed.

(** The daemon is detached: when the child goes on it leads a session of its own,
    works in the data directory, reads nothing and writes to an empty log, and
    the pid file names it; the parent is gone. On an error its output still goes
    where it did. *)
Theorem daemon_detached c dir p :
  in_u 32 c.(c_pid) →
  match daemonize_fork c dir p with
  | ParentExit => c.(c_fork) ≠ 0 ∧ c.(c_fork) ≠ -1
  | Child (Ok _) p' =>
      c.(c_fork) = 0 ∧ p'.(p_session_leader) = true ∧ p'.(p_cwd) = dir ∧ p'.(p_umask) = MASK_OCTAL ∧
      p'.(p_stdin) = File DEV_NULL ∧ p'.(p_stdout) = File (log_path dir) ∧ p'.(p_stderr) = p'.(p_stdout) ∧
      p'.(p_files) !! log_path dir = Some [] ∧
      (p'.(p_files) !! pid_path dir ≫= parse_unsigned 32) = Some c.(c_pid) ∧
      (∀ f, f ≠ log_path dir → f ≠ pid_path dir → p'.(p_files) !! f = p.(p_files) !! f)
  | Child _ p' =>
      p'.(p_stdout) = p.(p_stdout) ∧ p'.(p_stderr) = p.(p_stderr) ∧
      (∀ f, f ≠ pid_path dir → p'.(p_files) !! f = p.(p_files) !! f)
  end.
Proof.
  intros Hpid. pose proof (paths_differ dir) as Hne. unfold daemonize_fork.
  case_decide; [done|]. case_decide; [done|]. case_decide; [done|].
  destruct (c_chdir c); [done|]. destruct (c_open_null c); [done|].
  destruct (c_write_pid c) as [[k e]|]; [|destruct (c_create_log c) as [e|]]; simpl.
  - split_and!; [done|done|]. intros f Hf. by rewrite lookup_insert_ne.
  - split_and!; [done|done|]. intros f Hf. by rewrite lookup_insert_ne.
  - split_and!; try done.
    + by rewrite lookup_insert_eq.
    + rewrite lookup_insert_ne, lookup_insert_eq by done. simpl. by apply parse_show.
    + intros f Hf1 Hf2. by rewrite !lookup_insert_ne.
Qed.

Module Witness.
Definition before : process := mk_process false (lit "/") 18 Inherited Inherited Inherited ∅.
Definition fine : calls := mk_calls 0 4321 Other None None None None 4321.

Lemma daemon_witness :
  ∃ p, daemonize_fork fine (lit "/data") before = Child (Ok ()) p ∧
    p.(p_files) !! lit "/data/node.pid" = Some (lit "4321") ∧ p.(p_stdout) = File (lit "/data/node.log").
Proof.
  pose proof (daemon_detached fine (lit "/data") before) as Hd. eexists. split; [reflexivity|].
  split; [vm_compute; reflexivity|]. refine (proj1 (proj2 (proj2 (proj2 (proj2 (proj2 (Hd _))))))).
  split; [discriminate|reflexivity].
Defined.
End Witness.
