(* ===== verification/Accept.v ===== *)
(** * The thread that accepts clients ([main] of src/bin/node.rs)

    It replaces the socket of the data directory, waits for clients and for
    Ctrl-C, and ends with the latter. The first time the future of
    [tokio::signal::ctrl_c] is polled it installs a handler that stays for the rest
    of the process: from then on the signal no longer kills it. When the handler
    cannot be installed the future is ready with an error, which the source does
    not tell from the signal. *)

From S2P Require Import Prelude Text Shutdown.

(** [data_dir + "/node.sock"]; the client connects to the same name (src/bin/cli.rs). *)
Definition sock_file (dir : text) : text := dir ++ lit "/node.sock".

(** [Listening] with the number of clients accepted so far. *)
Inductive ipc_thread := Starting | Listening (clients : nat) | Returned | Panicked.

(** The thread, whether the handler of Ctrl-C is installed, the sockets of the
    file system and the shutdown signal. *)
Record ipc_state := mk_ipc {
  ip_thread : ipc_thread;
  ip_handler : bool;
  ip_sockets : gset text;
  ip_fatal : FatalShutdown;
}.

Definition with_thread (t : ipc_thread) (s : ipc_state) : ipc_state :=
  mk_ipc t s.(ip_handler) s.(ip_sockets) s.(ip_fatal).

(** [remove_file], whose failure is ignored, and [bind]. *)
Definition ipc_bind (dir : text) (bound : bool) (s : ipc_state) : ipc_state :=
  if bound then mk_ipc (Listening 0) s.(ip_handler) ({[sock_file dir]} ∪ s.(ip_sockets)) s.(ip_fatal)
  else mk_ipc Panicked s.(ip_handler) (s.(ip_sockets) ∖ {[sock_file dir]}) s.(ip_fatal).

(** [accept] has a result: a client is served by a task of its own. *)
Definition ipc_accept (accepted : bool) (s : ipc_state) : ipc_state :=
  match s.(ip_thread) with
  | Listening n => with_thread (if accepted then Listening (S n) else Panicked) s
  | _ => s
  end.

(** [shutdown_tx.send(()).unwrap()]; the thread returns. *)
Definition ipc_ctrl_c (s : ipc_state) : ipc_state :=
  match s.(ip_thread) with
  | Listening _ =>
      let '(sent, f) := send_signal s.(ip_fatal) in
      mk_ipc (if sent then Returned else Panicked) s.(ip_handler) s.(ip_sockets) f
  | _ => s
  end.

(** [select!] polls the future of the signal. *)
Definition ipc_wait (installed : bool) (s : ipc_state) : ipc_state :=
  match s.(ip_thread) with
  | Listening _ =>
      if s.(ip_handler) || installed then mk_ipc s.(ip_thread) true s.(ip_sockets) s.(ip_fatal)
      else ipc_ctrl_c s
  | _ => s
  end.

(** What Ctrl-C does to the process: it asks the node to stop, it kills it, or
    nothing happens. *)
Inductive interrupt_effect := Stops | Kills | Ignored.
Definition interrupt (s : ipc_state) : interrupt_effect * ipc_state :=
  if s.(ip_handler) then
    match s.(ip_thread) with
    | Listening _ =>
        let s' := ipc_ctrl_c s in
        (if decide (s.(ip_fatal).(signals) < s'.(ip_fatal).(signals))%nat then Stops else Ignored, s')
    | _ => (Ignored, s)
    end
  else (Kills, s).

Inductive ipc_event := EvBind (bound : bool) | EvWait (installed : bool) | EvAccept (accepted : bool) | EvCtrlC.
Definition ipc_step (dir : text) (s : ipc_state) (e : ipc_event) : ipc_state :=
  match e with
  | EvBind bound => match s.(ip_thread) with Starting => ipc_bind dir bound s | _ => s end
  | EvWait installed => ipc_wait installed s
  | EvAccept accepted => ipc_accept accepted s
  | EvCtrlC => (interrupt s).2
  end.
Definition ipc_start (f : FatalShutdown) : ipc_state := mk_ipc Starting false ∅ f.
Definition ipc_run (dir : text) (f : FatalShutdown) (es : list ipc_event) : ipc_state :=
  foldl (ipc_step dir) (ipc_start f) es.

(** ** Properties *)

(** A listening thread has its socket, and it sends one signal, as its last act. *)
Definition ipc_ok (dir : text) (f : FatalShutdown) (s : ipc_state) : Prop :=
  s.(ip_fatal).(listening) = f.(listening) ∧
  match s.(ip_thread) with
  | Starting => s.(ip_handler) = false ∧ s.(ip_fatal) = f
  | Listening _ => s.(ip_fatal) = f ∧ sock_file dir ∈ s.(ip_sockets)
  | Returned => s.(ip_fatal).(signals) = S f.(signals)
  | Panicked => s.(ip_fatal) = f
  end.

Lemma ipc_ctrl_c_ok dir f s : ipc_ok dir f s → ipc_ok dir f (ipc_ctrl_c s).
Proof.
  destruct s as [[| n | |] h so fa]; try done. unfold ipc_ok, ipc_ctrl_c, send_signal. simpl.
  intros (Hl & -> & Hs). destruct (listening f) eqn:Hf; simpl; rewrite ?Hf; done.
Qed.

Lemma interrupt_ok dir f s : ipc_ok dir f s → ipc_ok dir f (interrupt s).2.
Proof.
  intros Hok. unfold interrupt. destruct (ip_handler s); [|done].
  destruct (ip_thread s); try done. by apply ipc_ctrl_c_ok.
Qed.

Lemma ipc_step_ok dir f s e : ipc_ok dir f s → ipc_ok dir f (ipc_step dir s e).
Proof.
  destruct e as [b|i|a|]; simpl.
  - destruct s as [[] h so fa]; try done. unfold ipc_ok, ipc_bind. simpl.
    intros (? & -> & ->). destruct b; simpl; set_solver.
  - unfold ipc_wait. destruct (ip_thread s) eqn:Ht; try done. intros Hok.
    destruct (_ || _); [|by apply ipc_ctrl_c_ok]. revert Hok. unfold ipc_ok. by rewrite Ht.
  - destruct s as [[] h so fa]; try done. unfold ipc_ok, ipc_accept. simpl.
    destruct a; simpl; tauto.
  - apply interrupt_ok.
Qed.

Lemma ipc_run_ok dir f es : ipc_ok dir f (ipc_run dir f es).
Proof.
  unfold ipc_run. assert (ipc_ok dir f (ipc_start f)) as Hok by (by repeat split).
  revert Hok. generalize (ipc_start f). induction es as [|e es IH]; intros s Hok; simpl; [done|].
  by apply IH, ipc_step_ok.
Qed.

(** Ctrl-C stops the node while its clients are accepted: before the handler is
    there it kills the process, and afterwards it asks the main thread, which
    waits for the signal, to stop, and ends the thread. *)
Theorem ctrl_c_stops dir f es :
  f.(listening) = true →
  match (ipc_run dir f es).(ip_thread) with
  | Starting => (interrupt (ipc_run dir f es)).1 = Kills
  | Listening _ =>
      (interrupt (ipc_run dir f es)).1 = Kills ∨
      (interrupt (ipc_run dir f es)).1 = Stops ∧
      (interrupt (ipc_run dir f es)).2.(ip_thread) = Returned ∧
      (interrupt (ipc_run dir f es)).2.(ip_fatal).(signals) = S f.(signals)
  | Returned => (ipc_run dir f es).(ip_fatal).(signals) = S f.(signals)
  | Panicked => True
  end.
Proof.
  intros Hl. pose proof (ipc_run_ok dir f es) as Hok. destruct (ipc_run dir f es) as [t h so fa].
  unfold ipc_ok in Hok. unfold interrupt. destruct t; simpl in *; try done.
  - by destruct Hok as (_ & -> & _).
  - destruct Hok as (_ & -> & _). destruct h; [right|by left]. unfold ipc_ctrl_c, send_signal. simpl. rewrite Hl. simpl.
    by rewrite decide_True by lia.
  - tauto.
Qed.

Module Witness.
(** A client that cannot be accepted, for want of file descriptors say, ends the
    thread in a panic, and Ctrl-C is ignored from then on. *)
Definition lost : ipc_state := ipc_run (lit "/data") (fatal_new true) [EvBind true; EvWait true; EvAccept true; EvAccept false].
Lemma accept_error_ignores_ctrl_c : lost.(ip_thread) = Panicked ∧ (interrupt lost).1 = Ignored.
Proof. split; vm_compute; reflexivity. Qed.

Definition served : ipc_state := ipc_run (lit "/data") (fatal_new true) [EvBind true; EvWait true; EvAccept true].
Lemma ctrl_c_witness :
  served.(ip_thread) = Listening 1 ∧ (interrupt served).1 = Stops ∧
  ((interrupt served).1 = Kills ∨ (interrupt served).1 = Stops ∧ (interrupt served).2.(ip_thread) = Returned ∧
   (interrupt served).2.(ip_fatal).(signals) = 1%nat).
Proof.
  split; [vm_compute; reflexivity|]. split; [vm_compute; reflexivity|].
  exact (ctrl_c_stops (lit "/data") (fatal_new true) [EvBind true; EvWait true; EvAccept true] eq_refl).
Defined.
End Witness.
