(* ===== verification/Main.v ===== *)
(** * The entry point of the node ([main] of src/bin/node.rs)

    From the options to the running process, with every early return, exit and
    panic in its order. The machine is an argument: its directories and files,
    the results of its system calls, the resolver, and what the kernel does while
    it is built and imports blocks. Files are named by absolute paths; a relative
    one is taken from the working directory, which [--daemon] changes. The pid
    and log files of a daemon are kept apart from the other files. *)

From S2P Require Import Prelude Text Paths Daemon Joinable Shutdown Fs Addr AddressBook AddrTable AddrIo Messages.
From S2P Require Import Handshake Connection Kernel Download Peer PeerSystem Manager BlockThread Outbound Book.
From S2P Require Import Wallet WalletStore WalletTyped KeysFile Sending Service Scan Process Config.

(** The options of the command line and the configuration files. *)
Record options := mk_options {
  daemon : bool;
  datadir : text;
  network_name : text;
  connect : option text;
  sp_keys_file : option text;
  proxy : option text;
}.

(** How [main] ends before [run]: the parent of a daemon, [exit(1)], or a
    [return]; a panic is [Panic]. *)
Inductive early := ParentLeaves | ExitFailure | EarlyReturn.
Definition exit_code {A} (r : outcome early A) : option Z :=
  match r with
  | Ok _ => None
  | Err ExitFailure => Some 1
  | Err _ => Some 0
  | Panic => Some 101
  end.

(** What the kernel reports while it is built or imports blocks. *)
Inductive callback `{Kernel} :=
| BlockConnected (block : KBlock)
| BlockDisconnected (block : KBlock) (entry : Entry)
| KernelError.

(** The kernel's part of the start: [ContextBuilder::build],
    [ChainstateManagerBuilder::new] on the data and the blocks directory,
    whether a number of threads fits its type, [build] and [import_blocks]. *)
Record kernel_start `{Kernel} := mk_kernel {
  k_context : ChainType → bool;
  k_builder : ChainType → text → text → bool;
  k_threads_fit : Z → bool;
  k_build : ChainType → text → text → Z → option (Chainman * list callback);
  k_import : Chainman → bool * Chainman * list callback;
}.
Arguments mk_kernel {_ _} _ _ _ _ _.
Arguments k_context {_ _} _ _.
Arguments k_builder {_ _} _ _ _ _.
Arguments k_threads_fit {_ _} _ _.
Arguments k_build {_ _} _ _ _ _ _.
Arguments k_import {_ _} _ _.

Record machine `{Kernel} := mk_machine {
  m_home : text;
  m_create_dir_all : text → bool;
  m_canonicalize : text → option text;
  m_process : Daemon.process;
  m_calls : calls;
  m_disk : fs;
  m_parse_network : text → option Handshake.Network;
  m_lookup_host : string → option (list (IpAddr * Z));
  m_parallelism : option Z;
  m_kernel : kernel_start;
  (** The runtime of the remote calls can be built. *)
  m_runtime : bool;
  m_now : Duration;
}.
Arguments mk_machine {_ _} _ _ _ _ _ _ _ _ _ _ _ _.
Arguments m_home {_ _} _.
Arguments m_create_dir_all {_ _} _ _.
Arguments m_canonicalize {_ _} _ _.
Arguments m_process {_ _} _.
Arguments m_calls {_ _} _.
Arguments m_disk {_ _} _.
Arguments m_parse_network {_ _} _ _.
Arguments m_lookup_host {_ _} _ _.
Arguments m_parallelism {_ _} _.
Arguments m_kernel {_ _} _.
Arguments m_runtime {_ _} _.
Arguments m_now {_ _} _.

Section Main.
Context `{BlockData} `{!Wire} `{DefaultHasher} `{AddrCodec} `{Scalars} `{Spending} `{!KeyBytes}.

Abbreviation process := (Process.process (H:=H) (H0:=H0)).

(** What [run] is called with, and the process it starts. *)
Record started := mk_started {
  st_daemon : Daemon.process;
  st_dir : text;
  st_network : Handshake.Network;
  st_connect : list (IpAddr * Z);
  st_proxy : option (IpAddr * Z);
  st_store : WalletStore;
  st_process : process;
}.

(** A directory as the prefix of its files, and the names of those [main] uses. *)
Definition dir_prefix (dir : text) : string := utf8 (path_join dir []).
Definition wallet_file (dir : text) : string := utf8 (path_join dir (lit "wallet.bin")).
Definition blocks_dir (dir : text) : text := dir ++ lit "/blocks".

(** [config.datadir.data_dir()] of a process that works in [cwd]. *)
Definition config_dir (o : options) (m : machine) (cwd : text) : outcome early text :=
  or_panic (data_dir_at cwd m.(m_home) m.(m_create_dir_all) m.(m_canonicalize) o.(datadir)).

(** [--daemon]: the parent leaves, a failure panics. *)
Definition detach (o : options) (m : machine) : outcome early Daemon.process :=
  if o.(daemon) then
    dir ← config_dir o m m.(m_process).(p_cwd);
    match daemonize_fork m.(m_calls) dir m.(m_process) with
    | ParentExit => Err ParentLeaves
    | Child (Ok _) p => Ok p
    | Child _ _ => Panic
    end
  else Ok m.(m_process).

(** The callbacks of [create_context]; [None] is a panic. *)
Definition notify (nd : Scan.node) (c : callback) : option Scan.node :=
  match c with
  | BlockConnected block => on_block_connected block nd
  | BlockDisconnected block entry => on_block_disconnected block entry nd
  | KernelError => fatal_trigger nd
  end.
Definition notify_all (nd : Scan.node) (cs : list callback) : outcome early Scan.node :=
  or_panic (foldl (λ nd c, nd ← nd; notify nd c) (Some nd) cs).

(** Half of the processors and one more. *)
Definition worker_threads (m : machine) : outcome early Z :=
  n ← or_panic m.(m_parallelism);
  let workers := n / 2 + 1 in
  if m.(m_kernel).(k_threads_fit) workers then Ok workers else Panic.

(** Building the kernel, with the node as its callbacks leave it. *)
Definition build_kernel (m : machine) (chain : ChainType) (dir : text) (nd : Scan.node)
    : outcome early (Chainman * Scan.node) :=
  if m.(m_kernel).(k_builder) chain dir (blocks_dir dir) then
    workers ← worker_threads m;
    '(c, cs) ← or_panic (m.(m_kernel).(k_build) chain dir (blocks_dir dir) workers);
    nd ← notify_all nd cs;
    Ok (c, nd)
  else Panic.

Definition import_blocks (m : machine) (c : Chainman) (nd : Scan.node)
    : outcome early (Chainman * Scan.node) :=
  let '(imported, c, cs) := m.(m_kernel).(k_import) c in
  nd ← notify_all nd cs;
  if imported then Ok (c, nd) else Err EarlyReturn.

(** The start of [run]. *)
Definition start_run (m : machine) (dir : text) (network : Handshake.Network)
    (given : list (IpAddr * Z)) (c : Chainman) (nd : Scan.node) : outcome early process :=
  b ← map_err (λ e : Empty_set, match e with end)
        (start_book (dir_prefix dir) "peers.bin" given (resolve_seeds m.(m_lookup_host) network)
           (default_p2p_port network) m.(m_now) m.(m_disk));
  Ok (start_process (if is_nil given then None else Some (length given)) m.(m_now) b.(bk_table)
        (Peer.mk_node (Some []) c download_default) b nd).

Definition main (o : options) (m : machine) : outcome early started :=
  pr ← detach o m;
  network ← or_panic (m.(m_parse_network) o.(network_name));
  given ← map_err (λ _, ExitFailure) (parse_connect o.(connect));
  dir ← config_dir o m pr.(p_cwd);
  let store := mk_store (wallet_file dir) (wallet_network network) in
  nd ← map_err (λ _, ExitFailure)
         (start_node store ((λ p, utf8 (path_join pr.(p_cwd) p)) <$> o.(sp_keys_file)) m.(m_disk));
  proxy ← match parse_proxy o.(proxy) with
          | Some p => Ok p
          | None => if (trigger nd.(nd_fatal)).1 then Err EarlyReturn else Panic
          end;
  if negb (m.(m_kernel).(k_context) (chain_type network)) then Panic else
  dir ← config_dir o m pr.(p_cwd);
  '(c, nd) ← build_kernel m (chain_type network) dir nd;
  '(c, nd) ← import_blocks m c nd;
  if bool_decide (0 < nd.(nd_fatal).(signals))%nat then Err EarlyReturn else
  if negb m.(m_runtime) then Panic else
  p ← start_run m dir network given c nd;
  Ok (mk_started pr dir network given proxy store p).
End Main.

(** ** What [main] has done when it calls [run] *)

Section Facts.
Context `{KernelLaws} `{!BlockData} `{!BlockDataLaws} `{!Wire} `{!WireLaws} `{DefaultHasher}.
Context `{AddrCodec} {laws : AddrCodecLaws} `{Scalars} `{Spending} `{!KeyBytes}.
Context `{!ScanScalars} `{!SilentPaymentsLaws} `{!Inhabited Chainman} {E : Type}.
Context (sha3_256 : list Z → list Z) (Hsha : ∀ l, array_ok 32 (sha3_256 l)).

Abbreviation scan_of r := (r.(st_process).(p_node).2.2.1).
Abbreviation book_of r := (r.(st_process).(p_node).2.1).

(** The node after the callbacks. *)
Definition notified (nd0 nd : Scan.node) : Prop :=
  ∃ cs, foldl (λ nd c, nd ← nd; notify nd c) (Some nd0) cs = Some nd.

Lemma notify_all_app nd cs cs' nd' nd'' :
  notify_all nd cs = Ok nd' → notify_all nd' cs' = Ok nd'' → notified nd nd''.
Proof.
  unfold notify_all. rewrite !or_panic_Ok. intros H1' H2'. exists (cs ++ cs'). by rewrite foldl_app, H1'.
Qed.

(** The keys file as [main] opens it. *)
Definition keys_path (o : options) (pr : Daemon.process) : option string :=
  (λ p, utf8 (path_join pr.(p_cwd) p)) <$> o.(sp_keys_file).

Record main_done (o : options) (m : machine) (r : started) (c : Chainman) (nd0 nd : Scan.node) (b : book) : Prop := {
  md_detach : detach o m = Ok r.(st_daemon);
  md_network : m.(m_parse_network) o.(network_name) = Some r.(st_network);
  md_connect : parse_connect o.(connect) = Ok r.(st_connect);
  md_dir : config_dir o m r.(st_daemon).(p_cwd) = Ok r.(st_dir);
  md_store : r.(st_store) = mk_store (wallet_file r.(st_dir)) (wallet_network r.(st_network));
  md_node : start_node r.(st_store) (keys_path o r.(st_daemon)) m.(m_disk) = Ok nd0;
  md_proxy : parse_proxy o.(proxy) = Some r.(st_proxy);
  md_notified : notified nd0 nd;
  md_quiet : nd.(nd_fatal).(signals) = 0%nat;
  md_book : start_book (dir_prefix r.(st_dir)) "peers.bin" r.(st_connect)
      (resolve_seeds m.(m_lookup_host) r.(st_network)) (default_p2p_port r.(st_network)) m.(m_now) m.(m_disk) = Ok b;
  md_process : r.(st_process) =
    start_process (if is_nil r.(st_connect) then None else Some (length r.(st_connect))) m.(m_now)
      b.(bk_table) (Peer.mk_node (Some []) c download_default) b nd;
}.

Lemma map_err_Ok {E1 E2 A} (f : E1 → E2) (x : outcome E1 A) a : map_err f x = Ok a → x = Ok a.
Proof. destruct x; simpl; congruence. Qed.

Lemma main_Ok o m r : main o m = Ok r → ∃ c nd0 nd b, main_done o m r c nd0 nd b.
Proof.
  unfold main. intros (pr & Hpr & Hm)%bind_Ok. apply bind_Ok in Hm as (n & Hn%or_panic_Ok & Hm).
  apply bind_Ok in Hm as (given & Hg%map_err_Ok & Hm). apply bind_Ok in Hm as (dir & Hdir & Hm).
  apply bind_Ok in Hm as (nd0 & Hnd%map_err_Ok & Hm). apply bind_Ok in Hm as (px & Hpx & Hm).
  destruct (negb (k_context _ _)); [done|]. rewrite Hdir in Hm. simpl_outcome.
  apply bind_Ok in Hm as (dir' & [= <-] & Hm).
  apply bind_Ok in Hm as ([c nd1] & Hk & Hm). apply bind_Ok in Hm as ([c2 nd2] & Hi & Hm).
  case_bool_decide as Hsig; [done|]. destruct (negb (m_runtime m)); [done|].
  apply bind_Ok in Hm as (p & Hp & [= <-]).
  unfold start_run in Hp. apply bind_Ok in Hp as (b & Hb%map_err_Ok & [= <-]).
  unfold build_kernel in Hk. destruct (k_builder _ _ _ _); [|done].
  apply bind_Ok in Hk as (workers & _ & Hk). apply bind_Ok in Hk as ([c0 cs] & _ & Hk).
  apply bind_Ok in Hk as (nd1' & Hn1 & [= -> ->]). unfold import_blocks in Hi.
  destruct (k_import _ _) as [[imported c3] cs']. apply bind_Ok in Hi as (nd2' & Hn2 & Hi).
  destruct imported; [|done]. injection Hi as -> ->.
  exists c2, nd0, nd2, b. split; simpl; try done.
  - destruct (parse_proxy (proxy o)) as [q|]; [congruence|]. by destruct (trigger _).1.
  - by eapply notify_all_app.
  - lia.
Qed.

(** *** The callbacks keep the invariant of the scan thread *)

Lemma notify_ok store ws bound nd c :
  node_ok store ws bound nd →
  ∃ nd' bound', notify nd c = Some nd' ∧ node_ok store ws bound' nd' ∧ nd'.(nd_wallet) = nd.(nd_wallet).
Proof.
  intros Hok. destruct c as [block|block entry|]; simpl.
  - unfold on_block_connected. destruct (keys (nd_wallet nd)); [|by eauto].
    destruct (send_event_ok store ws bound (Connected block (kblock_hash block)) nd Hok) as (nd' & Hs & Hok' & Hw); [|by eauto].
    by intros b h [= <- <-].
  - destruct (send_event_ok store ws bound (Disconnected block (wrap_u 32 (height entry))) nd Hok)
      as (nd' & Hs & Hok' & Hw); [|by eauto]. done.
  - destruct (fatal_trigger_ok store ws bound nd Hok) as (nd' & Hs & Hok' & Hw & _). eauto.
Qed.

Lemma notified_ok store ws bound nd0 nd :
  node_ok store ws bound nd0 → notified nd0 nd →
  ∃ bound', node_ok store ws bound' nd ∧ nd.(nd_wallet) = nd0.(nd_wallet).
Proof.
  intros Hok (cs & Hcs). revert nd0 bound Hok Hcs. induction cs as [|c cs IH]; intros nd0 bound Hok; simpl.
  { intros [= <-]. eauto. }
  destruct (notify_ok store ws bound nd0 c Hok) as (nd1 & bound1 & -> & Hok1 & Hw). intros Hcs.
  destruct (IH nd1 bound1 Hok1 Hcs) as (bound2 & Hok2 & Hw2). exists bound2. split; [done|congruence].
Qed.

Lemma resolve_seeds_typed resolver n :
  (∀ host l, resolver host = Some l → Forall (λ a, ip_ok a.1) l) → Forall ip_ok (resolve_seeds resolver n).
Proof.
  intros Hl. unfold resolve_seeds. apply Forall_bind, Forall_forall. intros host _. simpl.
  destruct (resolver host) as [l|] eqn:Hh; simpl; [|constructor].
  apply Forall_fmap. by eapply Hl.
Qed.

Lemma default_port_range n : in_u 16 (default_p2p_port n).
Proof. by destruct n. Qed.

(** *** The wallet at start *)

Lemma fatal_trigger_wallet nd nd' : fatal_trigger nd = Some nd' → nd'.(nd_wallet) = nd.(nd_wallet).
Proof. unfold fatal_trigger. destruct (trigger _) as [[] f]; [|done]. by intros [= <-]. Qed.

Lemma send_event_wallet e (nd nd' : Scan.node) : send_event e nd = Some nd' → nd'.(nd_wallet) = nd.(nd_wallet).
Proof. unfold send_event. destruct (nd_receiving nd); [by intros [= <-]|apply fatal_trigger_wallet]. Qed.

Lemma notified_wallet nd0 nd : notified nd0 nd → nd.(nd_wallet) = nd0.(nd_wallet).
Proof.
  intros (cs & Hcs). revert nd0 Hcs. induction cs as [|c cs IH]; intros nd0; simpl; [by intros [= <-]|].
  destruct (notify nd0 c) as [nd1|] eqn:Hc.
  - intros Hcs. rewrite (IH _ Hcs). destruct c; simpl in Hc.
    + unfold on_block_connected in Hc. destruct (keys (nd_wallet nd0)); [by eapply send_event_wallet|by simplify_eq].
    + by eapply send_event_wallet.
    + by apply fatal_trigger_wallet.
  - assert (foldl (λ nd c, nd ← nd; notify nd c) None cs = None) as -> by (clear; by induction cs). done.
Qed.

Lemma auto_import_keyed {E'} path d w w' : auto_import_keys (E:=E') path d w = Ok w' → is_Some w'.(keys).
Proof.
  unfold auto_import_keys. destruct (keys_load path d) as [[scan [k|k]]| |]; simpl; try done.
  - destruct (import_signing_keys scan k w) as [w1| |] eqn:Hi; intros [= <-].
    unfold import_signing_keys in Hi. destruct (x_only_public_key k). apply bind_Ok in Hi as (w2 & Hi & [= <-]).
    unfold import_keys in Hi. apply bind_Ok in Hi as (rcv & _ & [= <-]). simpl. eauto.
  - destruct (import_keys scan k w) as [w1| |] eqn:Hi; intros [= <-].
    unfold import_keys in Hi. apply bind_Ok in Hi as (rcv & _ & [= <-]). simpl. eauto.
Qed.

(** ** Properties *)

(** C14: What [main] hands to [run] is well-typed, whatever the options say and
    whatever the files hold: the addresses of --connect and --proxy have 4 or 16
    bytes and a 16-bit port, every record of the address table is well-formed
    and in its place, and the wallet is one that the wallet file can hold, of
    the node's network. *)
Theorem main_state_typed o m r :
  files_ok m.(m_disk) → (∀ host l, m.(m_lookup_host) host = Some l → Forall (λ a, ip_ok a.1) l) →
  main o m = Ok r →
  Forall socket_ok r.(st_connect) ∧ (∀ a, r.(st_proxy) = Some a → socket_ok a) ∧
  table_ok TABLE_WIDTH TABLE_SLOT MAX_BUCKETS (book_of r).(bk_table) ∧
  wallet_savable (scan_of r).(nd_wallet) ∧
  (scan_of r).(nd_wallet).(Wallet.network) = wallet_network r.(st_network).
Proof using laws H12 H13 H3.
  intros Hd Hl (c & nd0 & nd & b & [Hpr Hn Hg Hdir Hst Hnd Hpx Hno Hq Hb Hp])%main_Ok.
  pose proof (parse_connect_typed _ _ Hg) as Hgt.
  destruct (start_book_ok (dir_prefix r.(st_dir)) "peers.bin" r.(st_connect) _ _ m.(m_now) _ Hd Hgt
    (resolve_seeds_typed _ r.(st_network) Hl) (default_port_range r.(st_network))) as (b' & Hb' & Hbok & _).
  rewrite Hb in Hb'. injection Hb' as <-.
  pose proof (start_ok _ _ _ _ Hd Hnd) as Hok.
  destruct (notified_ok _ _ _ _ _ Hok Hno) as (bound & [Hsav Hnet _ _ _ _] & _). rewrite Hp. simpl.
  split_and!; [done| | |done|].
  - intros a Ha. rewrite Ha in Hpx. destruct (proxy o) as [s|]; [|done]. simpl in Hpx.
    destruct (parse_socket_addr s) as [a'|] eqn:Hs; [|done]. injection Hpx as ->. by eapply parse_socket_typed.
  - destruct (ok_table _ Hbok) as (os & Hos & Hrun). by eapply (reachable_ok TABLE_WIDTH TABLE_SLOT MAX_BUCKETS); [apply sizes..| |].
  - by rewrite Hnet, Hst.
Qed.

(** C8: A node that [main] starts can be stopped: however the kernel, the network
    and the clients behave, from the shutdown signal on nothing blocks the main
    thread before it joins the threads, they end after a bounded number of turns
    without a join that panics, and at the exit nothing is held. The wallet is
    one whose coins the wallet file can count, in 32 bits. *)
Theorem main_comes_to_end o m r (proxied : bool) :
  files_ok m.(m_disk) → (∀ host l, m.(m_lookup_host) host = Some l → Forall (λ a, ip_ok a.1) l) →
  main o m = Ok r → fits (scan_of r) →
  r.(st_process).(p_main) = Waiting ∧
  comes_to_end (E:=E) sha3_256 r.(st_network) proxied (dir_prefix r.(st_dir)) "peers.bin" r.(st_store)
    r.(st_process).
Proof using Hsha All.
  intros Hd Hl (c & nd0 & nd & b & [Hpr Hn Hg Hdir Hst Hnd Hpx Hno Hq Hb Hp])%main_Ok Hfit.
  rewrite Hp in *. split; [done|]. apply process_ok_ends; [done|done| |done].
  destruct (notified_ok _ _ _ _ _ (start_ok _ _ _ _ Hd Hnd) Hno) as (bound & Hok & _).
  eapply start_parts_ok; [exact Hsha|done|exact Hd|by eapply parse_connect_typed| | |exact Hb|exact Hfit|by eauto|done].
  - by apply resolve_seeds_typed.
  - apply default_port_range.
Qed.

(** C13: The wallet is never lost or replaced at start: a node that runs holds the
    wallet its data directory has for its network, or an empty one when there is
    no wallet file, and with a keys file it can scan; a wallet file that does
    not load, or belongs to another network, ends the node with exit code 1. *)
Theorem main_keeps_wallet o m :
  (∀ r, main o m = Ok r →
     (match m.(m_disk) !! wallet_file r.(st_dir) with
      | Some bytes => ∃ w, wallet_from_bytes bytes = Ok w ∧ w.(Wallet.network) = wallet_network r.(st_network) ∧
          saved_part (scan_of r).(nd_wallet) = saved_part w
      | None => saved_part (scan_of r).(nd_wallet) = saved_part (wallet_new (wallet_network r.(st_network)))
      end) ∧
     (is_Some o.(sp_keys_file) → is_Some (scan_of r).(nd_wallet).(keys))) ∧
  (∀ pr network given dir bytes, detach o m = Ok pr → m.(m_parse_network) o.(network_name) = Some network →
     parse_connect o.(connect) = Ok given → config_dir o m pr.(p_cwd) = Ok dir →
     m.(m_disk) !! wallet_file dir = Some bytes →
     match wallet_from_bytes bytes with
     | Ok w => w.(Wallet.network) ≠ wallet_network network
     | Err _ => True
     | Panic => False
     end → exit_code (main o m) = Some 1).
Proof.
  split.
  - intros r (c & nd0 & nd & b & [Hpr Hn Hg Hdir Hst Hnd Hpx Hno Hq Hb Hp])%main_Ok. rewrite Hp. simpl.
    rewrite (notified_wallet _ _ Hno). unfold start_node in Hnd.
    apply bind_Ok in Hnd as (w & Hw & (w' & Hw' & [= <-])%bind_Ok). simpl. split.
    + assert (saved_part w' = saved_part w) as ->.
      { destruct (keys_path _ _); [by eapply auto_import_saved|by simplify_eq]. }
      unfold initial_wallet, store_exists, store_load, wallet_load in Hw. rewrite Hst in Hw. simpl in Hw.
      destruct (m_disk m !! wallet_file (st_dir r)) as [bytes|].
      * rewrite bool_decide_true in Hw by eauto. simpl in Hw. destruct (wallet_from_bytes bytes) as [w0| |]; try done.
        simpl in Hw. case_decide as Hnet; [done|]. injection Hw as <-. exists w0.
        split_and!; [done| |done]. by destruct (decide (w0.(Wallet.network) = wallet_network r.(st_network))).
      * rewrite bool_decide_false in Hw by (by intros []). by injection Hw as <-.
    + unfold keys_path in Hw'. destruct (sp_keys_file o); simpl in Hw'; [|by intros []].
      intros _. by eapply auto_import_keyed.
  - intros pr network given dir bytes Hpr Hn Hg Hdir Hb Hbad.
    unfold main. rewrite Hpr. simpl_outcome. rewrite Hn. simpl_outcome. rewrite Hg. simpl_outcome. rewrite Hdir.
    simpl_outcome. unfold start_node, initial_wallet, store_exists, store_load, wallet_load. simpl. rewrite Hb.
    rewrite bool_decide_true by eauto. simpl. destruct (wallet_from_bytes bytes) as [w| |]; [|done|done].
    simpl. by rewrite decide_True.
Qed.
End Facts.

Section Daemon.
Context `{BlockData} `{!Wire} `{DefaultHasher} `{AddrCodec} `{Scalars} `{Spending} `{!KeyBytes}.

End Daemon.

(** ** Concrete starts *)

Module Witness.
Import Messages.Demo Kernel.Demo Addr.Demo Wallet.Demo Peer.Witness Connection.Witness Socks5.Witness.
#[local] Existing Instance demo_wire.
#[local] Existing Instance demo_wire_laws.
#[local] Existing Instance WalletStore.Witness.demo_scalars.
#[local] Existing Instance Scan.Witness.scan_scalars_demo.
#[local] Existing Instance Scan.Witness.demo_data.
#[local] Existing Instance Scan.Witness.demo_data_laws.
#[local] Existing Instance Scan.Witness.demo_key_bytes.
#[local] Existing Instance Sending.Witness.demo_spending.
#[local] Instance main_chainman : Inhabited Chainman := populate Scan.Witness.chain.

(** The kernel imports one block, which the wallet is told of. *)
Definition demo_start : kernel_start := mk_kernel
  (λ _, true) (λ _ _ _, true) (λ n, bool_decide (n < 2 ^ 31)) (λ _ _ _ _, Some (Scan.Witness.chain, []))
  (λ c, (true, c, [BlockConnected Scan.Witness.blk])).

Definition disk : fs := {["/srv/data/keys" := Scan.Witness.key_file]}.
Definition demo_machine (d : fs) : machine := mk_machine
  (lit "/home/u") (λ _, true) Some (Daemon.mk_process false (lit "/srv") 18 Inherited Inherited Inherited ∅)
  Daemon.Witness.fine d
  (λ s, if decide (s = lit "regtest") then Some Handshake.Regtest else None)
  (λ host, None) (Some 8) demo_start true 0.

Definition given (dir : string) : options :=
  mk_options true (lit dir) (lit "regtest") (Some (lit "10.0.0.1:18444")) (Some (lit "keys")) (Some (lit "127.0.0.1:9050")).

Lemma machine_typed d host l :
  (demo_machine d).(m_lookup_host) host = Some l → Forall (λ a, ip_ok a.1) l.
Proof. done. Qed.

Lemma disk_ok : files_ok (demo_machine disk).(m_disk).
Proof. apply map_Forall_singleton. apply (bool_decide_unpack _). vm_compute. reflexivity. Qed.

(** What is looked at of the state [main] starts with. *)
Definition summary (r : outcome early started) : option (text * text * option (IpAddr * Z) * bool * nat) :=
  match r with
  | Ok r => Some (r.(st_dir), r.(st_daemon).(p_cwd), r.(st_proxy),
                  bool_decide (is_Some (r.(st_process).(p_node).2.2.1).(nd_wallet).(keys)),
                  length (r.(st_process).(p_node).2.2.1).(nd_events))
  | _ => None
  end.

Lemma summary_Ok x s : summary x = Some s → ∃ r, x = Ok r.
Proof. destruct x; [eauto|done|done]. Qed.

Lemma absolute_start : summary (main (given "/srv/data") (demo_machine disk)) =
  Some (lit "/srv/data", lit "/srv/data", Some (V4 [127; 0; 0; 1], 9050), true, 1%nat).
Proof. vm_compute. reflexivity. Qed.

Lemma main_typed_witness :
  ∃ r, main (given "/srv/data") (demo_machine disk) = Ok r ∧ Forall socket_ok r.(st_connect) ∧
    wallet_savable (r.(st_process).(p_node).2.2.1).(nd_wallet).
Proof.
  destruct (summary_Ok _ _ absolute_start) as [r Hr]. exists r. split; [exact Hr|].
  destruct (main_state_typed _ _ _ disk_ok (machine_typed disk) Hr) as (Hc & _ & _ & Hw & _).
  split; [exact Hc|exact Hw].
Defined.

Lemma main_ends_witness :
  ∃ r, main (given "/srv/data") (demo_machine disk) = Ok r ∧
    comes_to_end (E:=unit) demo_sha r.(st_network) true (dir_prefix r.(st_dir)) "peers.bin" r.(st_store) r.(st_process).
Proof.
  assert (match main (given "/srv/data") (demo_machine disk) with
    | Ok r => bool_decide (Z.of_nat (size (r.(st_process).(p_node).2.2.1).(nd_wallet).(utxos) +
        sum_list_with event_size (r.(st_process).(p_node).2.2.1).(nd_events)) ≤ u_max 32)
    | _ => false end = true) as Hfit by (vm_compute; reflexivity).
  destruct (main (given "/srv/data") (demo_machine disk)) as [r| |] eqn:Hr; [|discriminate Hfit|discriminate Hfit].
  exists r. split; [reflexivity|]. apply bool_decide_eq_true in Hfit.
  exact (proj2 (main_comes_to_end demo_sha demo_sha_ok _ _ _ true disk_ok (machine_typed disk) Hr Hfit)).
Defined.

(** The wallet file is cut off: exit code 1. *)
Definition damaged : fs := <["/srv/data/wallet.bin" := [1; 2; 3]]> disk.
Lemma main_wallet_witness :
  exit_code (main (given "/srv/data") (demo_machine damaged)) = Some 1.
Proof.
  destruct (main_keeps_wallet (given "/srv/data") (demo_machine damaged)) as [_ Hbad].
  assert (∃ p, detach (given "/srv/data") (demo_machine damaged) = Ok p ∧ p.(p_cwd) = lit "/srv/data")
    as (p & Hp & Hcwd) by (eexists; split; [vm_compute; reflexivity|vm_compute; reflexivity]).
  apply (Hbad p Handshake.Regtest [(V4 [10; 0; 0; 1], 18444)] (lit "/srv/data") [1; 2; 3] Hp).
  - vm_compute. reflexivity.
  - vm_compute. reflexivity.
  - rewrite Hcwd. vm_compute. reflexivity.
  - vm_compute. reflexivity.
  - exact I.
Defined.


(** A relative data directory: the daemon's own directory is [/srv/data], the
    wallet, the peers and the blocks go to [/srv/data/data]. *)
Lemma relative_directory_splits : summary (main (given "data") (demo_machine disk)) =
  Some (lit "/srv/data/data", lit "/srv/data", Some (V4 [127; 0; 0; 1], 9050), true, 1%nat).
Proof. vm_compute. reflexivity. Qed.

(** An invalid proxy ends the node with exit code 0, an invalid peer with 1. *)
Definition with_proxy (p : string) : options :=
  mk_options false (lit "/srv/data") (lit "regtest") None None (Some (lit p)).
Lemma wrong_options_exit :
  exit_code (main (with_proxy "localhost:9050") (demo_machine ∅)) = Some 0 ∧
  exit_code (main (mk_options false (lit "/srv/data") (lit "regtest") (Some (lit "localhost:8333")) None None)
    (demo_machine ∅)) = Some 1.
Proof. split; vm_compute; reflexivity. Qed.
End Witness.
