(* ===== verification/PeerTests.v ===== *)
(** * The unit tests of the download state (src/net/peer.rs)

    Each test of the source as a function to [bool], and that all pass on the
    model: the ones that iterate a hash map for every order of iteration, the ones
    that read the clock for every reading. *)

From S2P Require Import Prelude Addr Messages Kernel Download Peer.

(** ** Every order of iteration *)

Definition every (X : gset BlockHash) (f : list BlockHash → bool) : bool := every_order (elements X) f.

Lemma every_sound X f order : every X f = true → iterates order X → f order = true.
Proof.
  intros He [Hnd Hel]. apply (every_order_sound _ _ _ He), NoDup_Permutation; [apply NoDup_elements|done|].
  intros h. by rewrite Hel, elem_of_elements.
Qed.

Module Tests.
Import Messages.Demo Kernel.Demo.

Abbreviation Downloads := (DownloadState (KBlock (Kernel:=demo_kernel))).

(** ** Helpers of the tests *)

Definition hash (n : Z) : BlockHash := from_le_bytes (replicate 32 n).

Definition download (queue in_flight : list BlockHash) : Downloads :=
  mk_download queue (list_to_set in_flight) ∅.

(** Blocks on top of each other, the first on the genesis block. *)
Definition GENESIS : BlockHash := 100.
Definition block_chain (len : nat) : list Block :=
  (λ i, (101 + Z.of_nat i, 100 + Z.of_nat i)) <$> seq 0 len.
Definition block_at (blocks : list Block) (i : nat) : Block := default (0, 0) (blocks !! i).

Definition eqb (x y : list BlockHash) : bool := bool_decide (x = y).

(** [Connected] is a set of hashes. *)
Definition contains (connected : gset BlockHash) (h : BlockHash) : bool := bool_decide (h ∈ connected).

(** How the buffer is iterated, at each of the calls. *)
Definition orders : Type := nat → Downloads → list BlockHash.
Definition valid (order : orders) : Prop := ∀ i d, iterates (order i d) (dom d.(buffer)).

(** Each round takes a block out of the buffer. *)
Fixpoint drain_loop (rounds : nat) (order : orders) (d : Downloads) (connected : gset BlockHash)
    : list BlockHash * Downloads * gset BlockHash :=
  match rounds with
  | O => ([], d, connected)
  | S rounds =>
      match take_connectable (order rounds d) (contains connected) d with
      | (Some b, d) =>
          let h := kblock_hash b in
          let '(rest, d, connected) := drain_loop rounds order d ({[h]} ∪ connected) in
          (h :: rest, d, connected)
      | (None, d) => ([], d, connected)
      end
  end.
Definition drain (order : orders) (d : Downloads) (connected : gset BlockHash) :=
  drain_loop (S (size d.(buffer))) order d connected.

Definition buffer_all (blocks : list Block) (js : list nat) (d : Downloads) : Downloads :=
  foldl (λ d i, let b := block_at blocks i in
                buffer_block (prev_blockhash (block_header b)) (convert b) d) d js.

(** ** The tests *)

Definition pop_batch_returns_requested_count : bool :=
  let '(batch, d) := pop_batch 2 (download [hash 1; hash 2; hash 3; hash 4] []) in
  eqb batch [hash 1; hash 2] && bool_decide (length d.(queue) = 2%nat).

Definition release_reports_in_flight_membership : bool :=
  let '(r1, d) := release (hash 1) (download [hash 1] []) in
  let '(_, d) := pop_batch 1 d in
  let '(r2, d) := release (hash 1) d in
  let '(r3, d) := release (hash 1) d in
  let '(r4, d) := release (hash 2) d in
  negb r1 && r2 && negb r3 && negb r4.

Definition pop_batch_marks_in_flight : bool :=
  let '(_, d) := pop_batch 2 (download [hash 1; hash 2] []) in
  contains d.(in_flight) (hash 1) && contains d.(in_flight) (hash 2).

Definition pop_batch_skips_already_in_flight : bool :=
  eqb (pop_batch 3 (download [hash 1; hash 2; hash 3] [hash 2])).1 [hash 1; hash 3].

Definition pop_batch_returns_partial_when_queue_short : bool :=
  let '(batch, d) := pop_batch 16 (download [hash 1] []) in
  eqb batch [hash 1] && is_nil d.(queue).

Definition pop_batch_returns_empty_when_queue_empty : bool :=
  is_nil (pop_batch 16 (download [] [])).1.

Definition pop_batch_returns_empty_when_all_in_flight : bool :=
  let '(batch, d) := pop_batch 16 (download [hash 1; hash 2] [hash 1; hash 2]) in
  is_nil batch && is_nil d.(queue).

Definition pop_batch_multiple_calls_drain_queue : bool :=
  let '(b1, d) := pop_batch 2 (download [hash 1; hash 2; hash 3; hash 4] []) in
  let '(b2, d) := pop_batch 2 d in
  let '(b3, d) := pop_batch 2 d in
  eqb b1 [hash 1; hash 2] && eqb b2 [hash 3; hash 4] && is_nil b3.

Definition pop_batch_zero_batch_size : bool :=
  let '(batch, d) := pop_batch 0 (download [hash 1; hash 2] []) in
  is_nil batch && bool_decide (length d.(queue) = 2%nat).

Definition pop_batch_preserves_fifo_order : bool :=
  eqb (pop_batch 5 (download [hash 1; hash 2; hash 3; hash 4; hash 5] [])).1
    [hash 1; hash 2; hash 3; hash 4; hash 5].

(** The clock reads [now] first and [later] in [elapsed]. *)
Definition long_ago (now : Duration) : Duration := now - PEER_STALL_TIMEOUT - from_secs 1.

Definition stalled_when_awaiting_headers_past_timeout (now later : Duration) : bool :=
  stalled AwaitingHeaders (long_ago now) later.
Definition stalled_when_awaiting_block_past_timeout (now later : Duration) : bool :=
  stalled (AwaitingBlock ∅) (long_ago now) later.
Definition not_stalled_when_awaiting_inv (now later : Duration) : bool :=
  negb (stalled AwaitingInv (long_ago now) later).
Definition not_stalled_with_recent_progress (now later : Duration) : bool :=
  negb (stalled AwaitingHeaders now later).

Definition delivered_when_block_was_requested : bool :=
  let b := block_at (block_chain 1) 0 in
  delivers_requested_block (AwaitingBlock {[block_hash b]}) (BlockMsg b).

Definition not_delivered_when_block_was_not_requested : bool :=
  let blocks := block_chain 2 in
  negb (delivers_requested_block (AwaitingBlock {[block_hash (block_at blocks 0)]})
          (BlockMsg (block_at blocks 1))).

(** [order] is how the inventory is iterated. *)
Definition requeue_unreceived_restores_queue_and_clears_in_flight (order : list BlockHash) : bool :=
  let d := requeue_unreceived order (download [hash 5; hash 6] [hash 1; hash 2; hash 3]) in
  bool_decide (length d.(queue) = 4%nat) &&
  bool_decide (hash 1 ∈ d.(queue)) && bool_decide (hash 2 ∈ d.(queue)) &&
  negb (contains d.(in_flight) (hash 1)) && negb (contains d.(in_flight) (hash 2)) &&
  contains d.(in_flight) (hash 3).

Definition requeue_unreceived_blocks_can_be_repopped (order : list BlockHash) : bool :=
  let d := requeue_unreceived order (download [hash 5] [hash 1]) in
  eqb (pop_batch 16 d).1 [hash 1; hash 5].

Definition requeue_unreceived_noop_on_empty (order : list BlockHash) : bool :=
  let d := requeue_unreceived order (download [hash 1] [hash 2]) in
  bool_decide (length d.(queue) = 1%nat) && contains d.(in_flight) (hash 2).

Definition buffer_drains_in_chain_order_despite_out_of_order_arrivals (order : orders) : bool :=
  let blocks := block_chain 4 in
  let d := buffer_all blocks [1; 3; 0; 2]%nat (download_default (H0:=demo_kernel)) in
  let '(out, _, _) := drain order d {[GENESIS]} in
  eqb out (block_hash <$> blocks).

Definition buffer_holds_blocks_until_parent_arrives (order order' : orders) : bool :=
  let blocks := block_chain 2 in
  let d := buffer_all blocks [1]%nat (download [] [hash 9]) in
  let '(out, d, connected) := drain order d {[GENESIS]} in
  let '(out', _, _) := drain order' (buffer_all blocks [0]%nat d) connected in
  is_nil out && eqb out' (block_hash <$> blocks).

Definition buffer_yields_nothing_when_no_parent_is_connected (order : orders) : bool :=
  let d := buffer_all (block_chain 2) [1]%nat (download [] [hash 9]) in
  negb (is_some (take_connectable (order 0%nat d) (contains ∅) d).1).

Definition competing_branch_is_released_in_order_once_peers_are_idle (order : orders) : bool :=
  let blocks := block_chain 4 in
  let d := buffer_all blocks [3; 1; 2]%nat (download_default (H0:=demo_kernel)) in
  let '(out, _, _) := drain order d ∅ in
  eqb out (block_hash <$> drop 1 blocks).

Definition competing_branch_waits_while_a_peer_still_owes_blocks (order : orders) : bool :=
  let d := buffer_all (block_chain 2) [1]%nat (download [] [hash 9]) in
  let '(b, d) := take_connectable (order 1%nat d) (contains ∅) d in
  let '(_, d) := release (hash 9) d in
  negb (is_some b) && is_some (take_connectable (order 0%nat d) (contains ∅) d).1.

(** ** They pass *)

(** The check of a drain for every order. *)
Fixpoint drain_ok (rounds : nat) (d : Downloads) (connected : gset BlockHash)
    (check : list BlockHash * Downloads * gset BlockHash → bool) : bool :=
  match rounds with
  | O => check ([], d, connected)
  | S rounds =>
      every (dom d.(buffer)) (λ o,
        match take_connectable o (contains connected) d with
        | (Some b, d) =>
            drain_ok rounds d ({[kblock_hash b]} ∪ connected)
              (λ '(rest, d, connected), check (kblock_hash b :: rest, d, connected))
        | (None, d) => check ([], d, connected)
        end)
  end.

Lemma drain_ok_sound rounds order d connected check :
  valid order → drain_ok rounds d connected check = true →
  check (drain_loop rounds order d connected) = true.
Proof.
  intros Hv. revert d connected check. induction rounds as [|rounds IH]; intros d connected check; cbn [drain_ok drain_loop]; [done|].
  intros He%(every_sound _ _ (order rounds d)); [|apply Hv].
  cbv beta in He. destruct (take_connectable _ _ _) as [[b|] d']; [|exact He]. apply IH in He. by destruct (drain_loop _ _ _ _) as [[rest d''] c].
Qed.

Lemma drain_sound order d connected check :
  valid order → drain_ok (S (size d.(buffer))) d connected check = true → check (drain order d connected) = true.
Proof. apply drain_ok_sound. Qed.

Lemma queue_tests_pass :
  forallb id [pop_batch_returns_requested_count; release_reports_in_flight_membership; pop_batch_marks_in_flight;
    pop_batch_skips_already_in_flight; pop_batch_returns_partial_when_queue_short;
    pop_batch_returns_empty_when_queue_empty; pop_batch_returns_empty_when_all_in_flight;
    pop_batch_multiple_calls_drain_queue; pop_batch_zero_batch_size; pop_batch_preserves_fifo_order;
    delivered_when_block_was_requested; not_delivered_when_block_was_not_requested] = true.
Proof. vm_compute. reflexivity. Qed.

(** Whenever the clock reads [now] and then [later], at most 30 seconds on for the
    last test. *)
Lemma stall_tests_pass now later :
  now ≤ later →
  stalled_when_awaiting_headers_past_timeout now later = true ∧
  stalled_when_awaiting_block_past_timeout now later = true ∧
  not_stalled_when_awaiting_inv now later = true ∧
  (later ≤ now + PEER_STALL_TIMEOUT → not_stalled_with_recent_progress now later = true).
Proof.
  intros Hle. assert (0 < from_secs 1) by done.
  assert (∀ sm, sm ≠ AwaitingInv → stalled sm (long_ago now) later = true) as Hs.
  { intros sm Hne. unfold stalled, long_ago, saturating_sub. rewrite bool_decide_false by done. simpl.
    apply bool_decide_true. lia. }
  split; [by apply Hs|]. split; [by apply Hs|]. split; [done|].
  intros Hr. unfold not_stalled_with_recent_progress, stalled, saturating_sub.
  rewrite (bool_decide_false (PEER_STALL_TIMEOUT < _)) by (unfold PEER_STALL_TIMEOUT, from_secs in *; lia).
  by rewrite andb_false_r.
Qed.

Lemma requeue_tests_pass order1 order2 order3 :
  iterates order1 {[hash 1; hash 2]} → iterates order2 {[hash 1]} → iterates order3 ∅ →
  requeue_unreceived_restores_queue_and_clears_in_flight order1 = true ∧
  requeue_unreceived_blocks_can_be_repopped order2 = true ∧
  requeue_unreceived_noop_on_empty order3 = true.
Proof.
  intros H1 H2 H3. split; [|split].
  - revert H1. apply every_sound. vm_compute. reflexivity.
  - revert H2. apply every_sound. vm_compute. reflexivity.
  - revert H3. apply every_sound. vm_compute. reflexivity.
Qed.

Lemma buffer_tests_pass order order' :
  valid order → valid order' →
  buffer_drains_in_chain_order_despite_out_of_order_arrivals order = true ∧
  buffer_holds_blocks_until_parent_arrives order order' = true ∧
  buffer_yields_nothing_when_no_parent_is_connected order = true ∧
  competing_branch_is_released_in_order_once_peers_are_idle order = true ∧
  competing_branch_waits_while_a_peer_still_owes_blocks order = true.
Proof.
  intros Hv Hv'. split_and!.
  - apply (drain_sound order (buffer_all (block_chain 4) [1; 3; 0; 2]%nat (download_default (H0:=demo_kernel))) {[GENESIS]}
      (λ '(out, _, _), eqb out (block_hash <$> block_chain 4))); [done|vm_compute; reflexivity].
  - apply (drain_sound order (buffer_all (block_chain 2) [1]%nat (download [] [hash 9])) {[GENESIS]}
      (λ '(out, d, connected),
        let '(out', _, _) := drain order' (buffer_all (block_chain 2) [0]%nat d) connected in
        is_nil out && eqb out' (block_hash <$> block_chain 2))); [done|].
    set (d0 := buffer_all (block_chain 2) [1]%nat (download [] [hash 9])). cbn [drain_ok]. unfold every, every_order.
    change (permutations _) with [[101]]. cbn [forallb]. rewrite andb_true_r.
    change (take_connectable [101] _ d0) with (@None (KBlock (Kernel:=demo_kernel)), d0). cbv beta iota.
    apply (drain_sound order' (buffer_all (block_chain 2) [1; 0]%nat (download [] [hash 9])) {[GENESIS]}
      (λ '(out', _, _), eqb out' (block_hash <$> block_chain 2))); [done|vm_compute; reflexivity].
  - set (d := buffer_all (block_chain 2) [1]%nat (download [] [hash 9])).
    apply (every_sound (dom d.(buffer)) (λ o, negb (is_some (take_connectable o (contains ∅) d).1)) (order 0%nat d));
      [|apply Hv]. vm_compute. reflexivity.
  - apply (drain_sound order (buffer_all (block_chain 4) [3; 1; 2]%nat (download_default (H0:=demo_kernel))) ∅
      (λ '(out, _, _), eqb out (block_hash <$> drop 1 (block_chain 4)))); [done|vm_compute; reflexivity].
  - set (d := buffer_all (block_chain 2) [1]%nat (download [] [hash 9])).
    apply (every_sound (dom d.(buffer)) (λ o,
      let '(b, d) := take_connectable o (contains ∅) d in
      let '(_, d) := release (hash 9) d in
      negb (is_some b) && is_some (take_connectable (order 0%nat d) (contains ∅) d).1) (order 1%nat d));
      [|apply Hv]. unfold every, every_order. change (elements _) with [101]. cbn [permutations interleave mbind list_bind app forallb].
    apply andb_true_iff. split; [|done].
    assert (take_connectable [101] (contains ∅) d = (None, d)) as -> by reflexivity.
    cbv beta iota. unfold release at 1. cbn [negb is_some andb].
    apply (every_sound (dom d.(buffer)) (λ o, is_some (take_connectable o (contains ∅) (release (hash 9) d).2).1));
      [|apply (Hv 0%nat (release (hash 9) d).2)].
    vm_compute. reflexivity.
Qed.
End Tests.
