(* ===== verification/P2pTests.v ===== *)
(** * The unit tests of the p2p crate (handshake.rs, lib.rs)

    Each test as a function, and that all pass on the model, whenever they are
    run. *)

From Corelib Require Import SpecFloat.
From S2P Require Import Prelude Addr Messages Handshake Connection.

Section HandshakeTests.
Context `{Bitcoin} (command : NetworkMessage → string).
(** [SystemTime::now] since the epoch. *)
Variable system_time : Duration.

Definition build_mock_version (with_version with_services : Z) : VersionMessage :=
  {| version := with_version;
     version_services := with_services;
     timestamp := 222222222;
     receiver := useless_address;
     sender := useless_address;
     nonce := 42;
     user_agent := "hello";
     start_height := 0;
     relay := false |}.

(** Unwraps the result of a negotiation that is not over, and of one that is. *)
Definition goes_on (h : InitializedHandshake) (m : NetworkMessage) (f : InitializedHandshake → bool) : bool :=
  match negotiate command h m with (Ok None, h) => f h | _ => false end.
Definition completes (h : InitializedHandshake) (m : NetworkMessage)
    (f : CompletedHandshake → list NetworkMessage → bool) : bool :=
  match negotiate command h m with (Ok (Some (c, ms)), _) => f c ms | _ => false end.

Definition test_outbound_handshake : bool :=
  let mock := build_mock_version WTXID_RELAY_VERSION SERVICE_NONE in
  match start_handshake command config_new system_time (Version mock) 43 with
  | Ok (h, messages) =>
      match messages with [WtxidRelay; SendAddrV2; SendHeaders] => true | _ => false end &&
      goes_on h WtxidRelay (λ h,
      goes_on h SendAddrV2 (λ h,
      completes h Verack (λ completed messages,
        match messages with Verack :: SendCmpctMsg _ :: FeeFilter _ :: _ => true | _ => false end &&
        completed.(ch_preferences).(sendwtxid) && completed.(ch_preferences).(sendaddrv2) &&
        negb completed.(ch_preferences).(sendheaders))))
  | _ => false
  end.

Definition test_reject_low_version : bool :=
  let mock := build_mock_version 70015 SERVICE_NONE in
  is_err (start_handshake command config_new system_time (Version mock) 43).

Definition test_reject_missing_services : bool :=
  let mock := build_mock_version WTXID_RELAY_VERSION SERVICE_NONE in
  is_err (start_handshake command (set_service_requirement SERVICE_NETWORK config_new) system_time (Version mock) 43).

Definition test_change_version_ok : bool :=
  let mock := build_mock_version SENDHEADERS_VERSION SERVICE_NONE in
  is_ok (start_handshake command (decrease_version_requirement SENDHEADERS_VERSION config_new) system_time
           (Version mock) 43).

Definition test_gets_addr : bool :=
  let mock := build_mock_version WTXID_RELAY_VERSION SERVICE_NONE in
  match start_handshake command (set_request_addr config_new) system_time (Version mock) 43 with
  | Ok (h, _) =>
      completes h Verack (λ _ messages, match last messages with Some GetAddr => true | _ => false end)
  | _ => false
  end.

Lemma handshake_tests_pass :
  forallb id [test_outbound_handshake; test_reject_low_version; test_reject_missing_services;
    test_change_version_ok; test_gets_addr] = true.
Proof. reflexivity. Qed.
End HandshakeTests.

Section RateTests.
(** [Instant::now]. *)
Variable now : Duration.
Let later : Duration := now + from_secs 10.

(** [assert_eq] of a rate with a whole number. *)
Definition rate_is (r : option spec_float) (n : Z) : bool :=
  match r with Some x => SFeqb x (f64_of_Z n) | None => false end.

Definition test_message_rate : bool :=
  let rate := add_messages 0 now NoneReceived in
  let started := match rate with NoneReceived => true | _ => false end in
  let rate := add_messages 9 later (add_single_message now rate) in
  let rate' := add_messages 10 later rate in
  started && rate_is (messages_per_secs later rate) 1 && rate_is (messages_per_secs later rate') 2.

Definition test_timed_messages : bool :=
  match add_many Addr_ 1000 now (timed_new now) with
  | Ok timed_messages =>
      match message_rate Addr_ timed_messages with
      | Ok rate => rate_is (messages_per_secs later rate) 100 && bool_decide (total_count rate = 1000)
      | _ => false
      end
  | _ => false
  end.

Lemma rate_tests_pass : test_message_rate = true ∧ test_timed_messages = true.
Proof.
  assert (saturating_sub later now = 10000000000) as Hs by (unfold saturating_sub, later, from_secs, NANOS; lia).
  split.
  - unfold test_message_rate. cbn [add_messages add_single_message messages_per_secs]. cbv zeta.
    unfold add_messages, add_single_message. simpl. unfold messages_per_secs. rewrite !Hs. vm_compute. reflexivity.
  - unfold test_timed_messages. change (add_many Addr_ 1000 now (timed_new now))
      with (Ok (E:=Empty_set) (mk_timed (<[Addr_ := add_messages 1000 now NoneReceived]> (timed_new now).(tracked)) now)).
    cbv beta iota. unfold message_rate. cbn [tracked]. rewrite lookup_insert_eq. cbn [or_panic].
    change (add_messages 1000 now NoneReceived) with (Ongoing 1000 now). unfold messages_per_secs. rewrite Hs.
    vm_compute. reflexivity.
Qed.
End RateTests.
