(* ===== verification/BookTests.v ===== *)
(** * The unit tests of the address book (crates/address-book)

    Each test as a function of what the source takes from the clock (the draws of
    [select], the random records), and that all pass on the model, for every hash
    function, every draw and every encoding of addresses. The test that fills all
    slots with random records is left out: whether it passes is a matter of
    chance. *)

From S2P Require Import Prelude Addr AddressBook AddrTable AddrIo.

(** The tables of the tests are larger than is good to compute with. *)
#[local] Opaque replicate.

Section TableTests.
Context `{DefaultHasher}.

Definition LOCAL_HOST : list Z := [127; 0; 0; 1].
Definition DUMB : AddrV2 := Ipv4 LOCAL_HOST.
Definition BUCKETS : nat := 256.
Definition SLOTS : nat := 16.
Definition RANGE : nat := 16.

(** Of the eight bytes of a hash, of which four are the address and four its
    source, and a byte of a second one. *)
Definition random_record (ip : list Z) (attempts : Z) : record :=
  let record := record_new (Ipv4 (take 4 ip)) 8333 1 (V4 (drop 4 ip)) in
  mk_record record.(addr) record.(port) record.(source) record.(services)
    (record.(failed_attempts) + attempts) record.(last_connection) record.(last_attempt).

(** What a call of [select] draws, and the clock. *)
Definition draw : Type := Z * (nat → Z) * (nat → Z).
Definition select_with (d : draw) (t : Table) : option (option record) :=
  select BUCKETS SLOTS d.1.1 d.1.2 d.2 t.

(** [add] repeated: whether all conflict, and the table. *)
Fixpoint all_conflict (n : nat) (t : Table) (r : record) : option (bool * Table) :=
  match n with
  | O => Some (true, t)
  | S n =>
      '(t, conflict) ← add BUCKETS SLOTS RANGE t r;
      '(all, t) ← all_conflict n t r;
      Some (is_some conflict && all, t)
  end.

Definition test_simple_table_situations (draws : nat → draw) : bool :=
  let table := table_new BUCKETS SLOTS in
  is_empty table && bool_decide (select_with (draws 0%nat) table = Some None) &&
  let record := record_new DUMB 8333 0 (V4 LOCAL_HOST) in
  match add BUCKETS SLOTS RANGE table record with
  | Some (table, _) =>
      negb (is_empty table) &&
      forallb (λ i, match select_with (draws (S i)) table with Some (Some _) => true | _ => false end)
        (seq 0 (BUCKETS * SLOTS)) &&
      match all_conflict (BUCKETS * SLOTS) table record with
      | Some (all, table) => all && bool_decide (count SLOTS table record = Some 1%nat)
      | None => false
      end
  | None => false
  end.

Definition test_select_recently_attempted (now : Duration) (draws : nat → draw) : bool :=
  let record := record_new DUMB 8333 0 (V4 LOCAL_HOST) in
  match '(table, _) ← add BUCKETS SLOTS RANGE (table_new BUCKETS SLOTS) record;
        failed_connection BUCKETS SLOTS RANGE now table record with
  | Some table =>
      forallb (λ i, match select_with (draws i) table with
                    | Some r => bool_decide (network_addr <$> r = Some (network_addr record))
                    | None => false
                    end) (seq 0 (BUCKETS * SLOTS))
  | None => false
  end.

(** ** They pass *)

Lemma source_id_ok ip : array_ok 4 (source_id ip).
Proof. destruct ip; apply hash_prefix_ok. Qed.

Lemma record_new_ok a port services src :
  addr_ok a → in_u 16 port → in_u 64 services → record_ok (record_new a port services src).
Proof. intros Ha Hp Hs. split_and!; try done; apply source_id_ok. Qed.

Lemma dumb_ok : record_ok (record_new DUMB 8333 0 (V4 LOCAL_HOST)).
Proof. apply record_new_ok; apply (bool_decide_unpack _); vm_compute; exact I. Qed.

Lemma buckets_pos : (0 < BUCKETS)%nat.
Proof. unfold BUCKETS. lia. Qed.
Lemma slots_pos : (0 < SLOTS)%nat.
Proof. unfold SLOTS. lia. Qed.
Lemma range_pos : (0 < RANGE)%nat.
Proof. unfold RANGE. lia. Qed.

Lemma table_ok_one (t : Table) (r : record) :
  record_ok r → refines BUCKETS SLOTS t {[pos BUCKETS SLOTS RANGE r := r]} → table_ok BUCKETS SLOTS RANGE t.
Proof.
  intros Hr Ht. apply (proj2 (table_ok_refines BUCKETS SLOTS RANGE t _ Ht)). unfold map_ok.
  by apply map_Forall_singleton.
Qed.

Lemma one_record (r : record) :
  record_ok r →
  ∃ t, add BUCKETS SLOTS RANGE (table_new BUCKETS SLOTS) r = Some (t, None) ∧
    refines BUCKETS SLOTS t {[pos BUCKETS SLOTS RANGE r := r]} ∧ table_ok BUCKETS SLOTS RANGE t.
Proof.
  intros Hr. destruct (add_refines BUCKETS SLOTS RANGE buckets_pos slots_pos (table_new BUCKETS SLOTS) ∅ r)
    as (t & Ha & Ht); [by apply table_new_refines|].
  unfold spec_add in Ha, Ht. rewrite lookup_empty in Ha, Ht. cbn [fst snd] in *. exists t.
  split; [done|]. split; [done|]. by apply (table_ok_one t r).
Qed.

Lemma refines_slots (t : Table) (p : nat * nat) (r : record) :
  refines BUCKETS SLOTS t {[p := r]} → table_shape BUCKETS SLOTS t ∧ is_empty t = false ∧
  ∀ d, select_with d t = Some (Some r).
Proof.
  intros [Hs Hm].
  assert (slot_at t p = Some r) as Hp by by rewrite Hm, lookup_singleton_eq.
  assert (∀ q r', slot_at t q = Some r' → r' = r) as Honly.
  { intros q r'. rewrite Hm. by intros [_ ->]%lookup_singleton_Some. }
  split; [done|]. split.
  - destruct (is_empty t) eqn:He; [|done]. apply is_empty_true with (p:=p) in He. congruence.
  - intros [[hb h] now]. unfold select_with. cbn [fst snd].
    destruct (select_spec BUCKETS SLOTS buckets_pos slots_pos hb h now t Hs) as (res & -> & Hn & Hr).
    destruct res as [r'|]; [|exfalso; destruct Hn as [Hn _]; rewrite Hn in Hp by done; done].
    destruct (Hr r' eq_refl) as [q Hq]. by rewrite (Honly q r' Hq).
Qed.

Lemma all_conflict_spec n t p r :
  refines BUCKETS SLOTS t {[p := r]} → pos BUCKETS SLOTS RANGE r = p →
  ∃ t', all_conflict n t r = Some (true, t') ∧ refines BUCKETS SLOTS t' {[p := r]}.
Proof.
  intros Ht Hp. revert t Ht. induction n as [|n IH]; intros t Ht; cbn [all_conflict]; [by exists t|].
  destruct (add_refines BUCKETS SLOTS RANGE buckets_pos slots_pos t _ r Ht) as (t' & Ha & Ht').
  unfold spec_add in Ha, Ht'. rewrite Hp, lookup_singleton_eq in Ha, Ht'. rewrite Ha. cbn [mbind option_bind fst snd] in *.
  destruct (IH t' Ht') as (t'' & -> & Ht''). by exists t''.
Qed.

Lemma simple_table_passes draws : test_simple_table_situations draws = true.
Proof.
  unfold test_simple_table_situations. cbv zeta.
  destruct (table_new_refines BUCKETS SLOTS) as [Hs0 Hm0].
  assert (∀ p, slot_at (table_new BUCKETS SLOTS) p = None) as Hempty by (intros p; by rewrite Hm0).
  apply is_empty_true in Hempty as He. rewrite He. cbn [andb].
  assert (select_with (draws 0%nat) (table_new BUCKETS SLOTS) = Some None) as ->.
  { unfold select_with, select. by rewrite He. }
  rewrite bool_decide_true by done. cbn [andb].
  set (r := record_new DUMB 8333 0 (V4 LOCAL_HOST)).
  assert (record_ok r) as Hr by apply dumb_ok.
  destruct (one_record r Hr) as (t & -> & Ht & _).
  destruct (refines_slots t _ r Ht) as (_ & -> & Hsel). cbn [negb andb].
  assert (∀ l, forallb (λ i, match select_with (draws (S i)) t with Some (Some _) => true | _ => false end) l = true) as ->.
  { intros l. apply forallb_forall. intros i _. by rewrite Hsel. }
  destruct (all_conflict_spec (BUCKETS * SLOTS) t _ r Ht eq_refl) as (t' & -> & Ht').
  assert (table_ok BUCKETS SLOTS RANGE t') as Hok by by apply (table_ok_one t' r).
  rewrite (count_ok _ _ RANGE buckets_pos slots_pos range_pos t' r Hok). destruct Ht' as [_ Hm']. rewrite Hm', lookup_singleton_eq.
  by rewrite (bool_decide_true (Some r = Some r)).
Qed.

Lemma recently_attempted_passes now draws : test_select_recently_attempted now draws = true.
Proof.
  unfold test_select_recently_attempted. cbv zeta. set (r := record_new DUMB 8333 0 (V4 LOCAL_HOST)).
  assert (record_ok r) as Hr by apply dumb_ok.
  destruct (one_record r Hr) as (t & -> & Ht & _). cbn [mbind option_bind].
  destruct (failed_refines BUCKETS SLOTS RANGE buckets_pos slots_pos now t _ r Ht) as (t' & -> & Ht').
  rewrite alter_singleton_eq in Ht'. apply refines_slots in Ht' as (_ & _ & Hsel).
  apply forallb_forall. intros i _. rewrite Hsel. by apply bool_decide_true.
Qed.
End TableTests.

Section EncodingTests.
Context `{DefaultHasher} `{AddrCodec}.

Definition test_encoding_roundtrip (want : record) : bool :=
  match serialize want with
  | Some bytes => match deserialize bytes with Ok (got, _) => bool_decide (want = got) | _ => false end
  | None => false
  end.

Definition test_malformed_encoding_errors (r : record) : bool :=
  match serialize r with
  | Some bytes =>
      let bad_addr := <[2%nat := 255]> (<[1%nat := 1]> bytes) in
      let bad_attempt := <[(length bytes - 18)%nat := 2]> bytes in
      let bad_conn := <[(length bytes - 9)%nat := 2]> bytes in
      is_err (deserialize bad_addr) && is_err (deserialize bad_attempt) && is_err (deserialize bad_conn) &&
      is_err (deserialize (take (length bytes - 1) bytes))
  | None => false
  end.

Abbreviation read := (read_table 128 16 16).

(** The table of a list of records. *)
Definition add_all (rs : list record) : option Table :=
  foldl (λ t r, t ← t; '(t, _) ← add 128 16 16 t r; Some t) (Some (table_new 128 16)) rs.

Definition test_file_io (records : list record) : bool :=
  match t ← add_all records; write_table t with
  | Some bytes => is_ok (read bytes)
  | None => false
  end.

Definition test_file_skips_unknown (known : record) : bool :=
  let unknown := record_new (Unknown 42 (replicate 300 171)) 8333 0 (V4 LOCAL_HOST) in
  match t ← add_all [known; unknown]; write_table t with
  | Some bytes =>
      match read bytes with
      | Ok table =>
          bool_decide (count 16 table known = Some 1%nat) && bool_decide (count 16 table unknown = Some 0%nat)
      | _ => false
      end
  | None => false
  end.

Definition test_file_bad_magic : bool :=
  match read (replicate 12 0) with Err InvalidData => true | _ => false end.

(** ** They pass *)

Context `{!AddrCodecLaws}.

(** The random records of the tests. *)
Definition random_ok (ip : list Z) (attempts : Z) : Prop := array_ok 8 ip ∧ in_u 8 attempts.

Lemma random_record_ok ip attempts :
  random_ok ip attempts →
  record_ok (random_record ip attempts) ∧ is_serializable (random_record ip attempts) = true.
Proof.
  intros [[Hl Hb] Ha]. split; [|done]. split_and!; try done.
  - split; [rewrite length_take; lia|by apply Forall_take].
  - apply source_id_ok.
Qed.

Lemma encoding_roundtrip_passes ip attempts :
  random_ok ip attempts → test_encoding_roundtrip (random_record ip attempts) = true.
Proof.
  intros [Hok Hs]%random_record_ok. unfold test_encoding_roundtrip.
  destruct (serialize_Some _ Hs Hok) as [bs Hbs]. rewrite Hbs.
  rewrite <- (app_nil_r bs), (deserialize_serialize_app _ _ _ Hok Hbs). by apply bool_decide_true.
Qed.

(** A time whose flag is neither 0 nor 1, alone and after one that is absent. *)
Lemma bad_flag c : read_time (2 :: c) = Err InvalidData.
Proof. unfold read_time. by rewrite read_exact_cons. Qed.

(** An absent time. *)
Definition zero_time : list Z := [0; 0; 0; 0; 0; 0; 0; 0; 0].

(** Of the decoder the first check needs that an IPv4 address of 255 bytes is
    rejected. *)
Lemma malformed_encoding_passes ip attempts :
  (∀ rest, addr_deserialize_partial (1 :: 255 :: rest) = None) →
  random_ok ip attempts → test_malformed_encoding_errors (random_record ip attempts) = true.
Proof.
  intros Hbad [Hok Hs]%random_record_ok. unfold test_malformed_encoding_errors.
  set (r := random_record ip attempts) in *. destruct (serialize_Some _ Hs Hok) as [bs Hbs]. rewrite Hbs.
  pose proof (truncated_record_rejected r bs (length bs - 1) Hok Hbs) as Htrunc.
  destruct (serialize_layout r bs Hok Hbs) as [_ ->].
  change (encode_time (last_attempt r)) with zero_time in *. change (encode_time (last_connection r)) with zero_time in *.
  set (n := length (fixed_fields r)) in *.
  assert (∀ k, <[(S n + k)%nat := 2]> (Z.of_nat (n + 18) :: fixed_fields r ++ zero_time ++ zero_time) =
    Z.of_nat (n + 18) :: fixed_fields r ++ <[k := 2]> (zero_time ++ zero_time)) as Hins.
  { intros k. change (<[(S n + k)%nat := 2]> (?x :: ?l)) with (x :: <[(n + k)%nat := 2]> l). f_equal. apply insert_app_r. }
  assert (length (Z.of_nat (n + 18) :: fixed_fields r ++ zero_time ++ zero_time) = S n + 18)%nat as Hlen.
  { cbn [length]. rewrite length_app. done. }
  rewrite Hlen in *. rewrite Htrunc by lia.
  replace (S n + 18 - 18)%nat with (S n + 0)%nat by lia. replace (S n + 18 - 9)%nat with (S n + 9)%nat by lia.
  rewrite !Hins.
  assert (∀ times, length times = 18%nat →
    deserialize (Z.of_nat (n + 18) :: fixed_fields r ++ times) =
    ('(attempt, c) ← read_time times; '(conn, c) ← read_time c;
     Ok (mk_record r.(addr) r.(port) r.(source) r.(services) r.(failed_attempts) conn attempt, []))) as Hd.
  { intros times Ht. rewrite <- (deserialize_fields r times []) by done. by rewrite app_nil_r. }
  rewrite !Hd by (by rewrite length_insert). rewrite !andb_true_iff. split_and!; [|done|done|done].
  destruct Hok as (Ha & _). pose proof (addr_serialize_length r.(addr) Ha eq_refl) as Hla.
  unfold n in *. clear Hins Hd n. cbn [length] in Hlen. injection Hlen as Hlen. revert Hlen.
  generalize (length (fixed_fields r)). intros n. unfold fixed_fields.
  destruct (addr_serialize r.(addr)) as [|x [|y rest]]; [done|done|]. intros Hlen.
  cbn [app insert list_insert] in *. unfold deserialize. rewrite read_exact_cons. simpl_outcome.
  cbn [from_le_bytes]. rewrite Z.mul_0_r, Z.add_0_r, Nat2Z.id.
  rewrite <- (app_nil_r (1 :: 255 :: _)), read_exact_app by exact Hlen. simpl_outcome. by rewrite Hbad.
Qed.

Lemma add_all_ops rs : add_all rs = run_ops 128 16 16 (OpAdd <$> rs).
Proof.
  unfold add_all, run_ops. generalize (Some (table_new 128 16)).
  induction rs as [|r rs IH]; intros t; [done|]. cbn [foldl fmap list_fmap]. rewrite IH. f_equal.
  destruct t as [t|]; [|done]. cbn [mbind option_bind run_op]. by destruct (add _ _ _ t r) as [[]|].
Qed.

(** Saving and loading the table of some records. *)
Lemma add_all_file rs :
  Forall record_ok rs →
  ∃ t bytes, add_all rs = Some t ∧ table_ok 128 16 16 t ∧ refines 128 16 t (spec_ops 128 16 16 (OpAdd <$> rs)) ∧
    write_table t = Some bytes ∧ read bytes = Ok (persisted t).
Proof.
  intros Hrs. assert (Forall op_ok (OpAdd <$> rs)) as Hos by (by apply Forall_fmap).
  destruct (run_ops_refines 128 16 16 ltac:(lia) ltac:(lia) (OpAdd <$> rs)) as (t & Hrun & Ht).
  destruct (file_roundtrip 128 16 16 ltac:(lia) ltac:(lia) ltac:(lia) (OpAdd <$> rs) t) as (bytes & Hw & Hr); [done|done|done|].
  exists t, bytes. rewrite add_all_ops. split_and!; try done.
  by apply (reachable_ok 128 16 16 ltac:(lia) ltac:(lia) ltac:(lia) (OpAdd <$> rs)).
Qed.

Lemma file_io_passes (seeds : list (list Z * Z)) :
  Forall (λ '(ip, attempts), random_ok ip attempts) seeds →
  test_file_io ((λ '(ip, attempts), random_record ip attempts) <$> seeds) = true.
Proof.
  intros Hs. destruct (add_all_file ((λ '(ip, attempts), random_record ip attempts) <$> seeds)) as (t & bytes & Ha & _ & _ & Hw & Hr).
  { apply Forall_fmap. eapply Forall_impl; [exact Hs|]. intros [ip a] Hok. by apply random_record_ok. }
  unfold test_file_io. rewrite Ha. cbn [mbind option_bind]. by rewrite Hw, Hr.
Qed.

Lemma persisted_table_ok t : table_ok 128 16 16 t → table_ok 128 16 16 (persisted t).
Proof.
  intros [Hs Ht]. split; [by apply persisted_shape|]. intros p r. rewrite slot_at_persisted.
  destruct (slot_at t p) as [r'|] eqn:Hp; [|done]. cbn [persisted_cell]. destruct (is_serializable r'); [|done].
  intros [= <-]. apply Ht in Hp as [-> Hok]. rewrite pos_truncate. split; [done|by apply truncate_times_ok].
Qed.

Lemma file_skips_unknown_passes ip attempts :
  random_ok ip attempts → test_file_skips_unknown (random_record ip attempts) = true.
Proof.
  intros [Hok Hs]%random_record_ok. unfold test_file_skips_unknown. set (known := random_record ip attempts) in *.
  set (unknown := record_new _ _ _ _). cbv zeta.
  assert (record_ok unknown) as Hu.
  { apply record_new_ok; [|by apply (bool_decide_unpack _)|by apply (bool_decide_unpack _)].
    split; [by apply (bool_decide_unpack _)|]. by apply Forall_replicate. }
  destruct (add_all_file [known; unknown]) as (t & bytes & -> & Ht & [_ Hm] & Hw & Hr); [by apply Forall_cons; split; [|apply Forall_singleton]|].
  cbn [mbind option_bind]. rewrite Hw, Hr. apply persisted_table_ok in Ht.
  rewrite !(count_ok 128 16 16 ltac:(lia) ltac:(lia) ltac:(lia) _ _ Ht), !slot_at_persisted, !Hm.
  assert (spec_ops 128 16 16 (OpAdd <$> [known; unknown]) !! pos 128 16 16 known = Some known) as ->.
  { unfold spec_ops. cbn [fmap list_fmap foldl spec_op]. unfold spec_add. rewrite lookup_empty. cbn [fst].
    destruct (decide (pos 128 16 16 known = pos 128 16 16 unknown)) as [Heq|Hne].
    - rewrite <- Heq, lookup_insert_eq. cbn [fst]. apply lookup_insert_eq.
    - rewrite (lookup_insert_ne _ _ _ _ Hne), lookup_empty. cbn [fst].
      rewrite lookup_insert_ne by done. apply lookup_insert_eq. }
  assert (∀ c, persisted_cell c ≠ Some unknown) as Hun.
  { intros [r'|]; [|done]. cbn [persisted_cell]. destruct (is_serializable r') eqn:Hr'; [|done].
    intros [= Heq]. by destruct r'; simplify_eq/=. }
  rewrite (bool_decide_false (persisted_cell _ = Some unknown)) by apply Hun.
  cbn [persisted_cell]. rewrite Hs. by rewrite (bool_decide_true (Some _ = Some known)) by done.
Qed.

Lemma file_bad_magic_passes : test_file_bad_magic = true.
Proof. reflexivity. Qed.
End EncodingTests.
