(* ===== verification/WalletTests.v ===== *)
(** * The unit tests of the wallet and keys files (wallet_store.rs, keys_file.rs)

    Each test as a function, and that all pass on the model, whatever the order in
    which the coins of a wallet are iterated and whatever keys are used. The
    directory of a test starts empty and no file operation fails. *)

From S2P Require Import Prelude Fs Wallet WalletStore KeysFile.

Module StoreTests.

(** The order of secp256k1. *)
#[local] Instance secp_scalars : Scalars :=
  {| ORDER := 0xFFFFFFFFFFFFFFFFFFFFFFFFFFFFFFFEBAAEDCE6AF48A03BBFD25E8CD0364141; order_range := ltac:(lia) |}.

Section StoreTests.
Context `{SilentPayments}.
Abbreviation coins := (list (OutPoint * Coin)).

(** ** Helpers of the tests *)

Definition p2tr_script (seed : Z) : list Z := [81; 32] ++ replicate 32 seed.

Definition outpoint_n (n : Z) : OutPoint := mk_outpoint (replicate 32 n) n.

(** [Scalar::from_be_bytes([n; 32])]. *)
Definition scalar_n (n : Z) : Z := from_le_bytes (reverse (replicate 32 n)).

Definition coin (value_sats n block_height : Z) : Coin :=
  mk_coin value_sats (p2tr_script n) (scalar_n n) None block_height None.

Definition spent_coin (value_sats n block_height spent_at spender : Z) : Coin :=
  mk_coin value_sats (p2tr_script n) (scalar_n n) None block_height (Some (mk_spent (replicate 32 spender) spent_at)).

Definition with_scan_height (h : Z) (w : Wallet) : Wallet :=
  mk_wallet h w.(keys) w.(spend_key) w.(spend_secret) w.(network) w.(utxos) w.(reserved).
Definition insert_coin (o : OutPoint) (c : Coin) (w : Wallet) : Wallet := with_utxos w (<[o := c]> w.(utxos)).

Definition populated_wallet : Wallet :=
  insert_coin (outpoint_n 2) (spent_coin 30000 2 101 150 9)
    (insert_coin (outpoint_n 1) (coin 50000 1 100)
       (with_scan_height 200 (wallet_new Regtest))).

Definition assert_wallets_match (a b : Wallet) : bool :=
  bool_decide (a.(scan_height) = b.(scan_height)) && bool_decide (a.(network) = b.(network)) &&
  bool_decide (size a.(utxos) = size b.(utxos)) &&
  forallb (λ '(o, c), bool_decide (b.(utxos) !! o = Some c)) (map_to_list a.(utxos)).

(** [unwrap] of an encoding and of the decoding of bytes. *)
Definition encoded (iter : coins) (w : Wallet) (f : list Z → bool) : bool :=
  match wallet_to_bytes iter w with Ok bytes => f bytes | _ => false end.
Definition decoded (bytes : list Z) (f : Wallet → bool) : bool :=
  match wallet_from_bytes bytes with Ok w => f w | _ => false end.
Definition rejected (bytes : list Z) (p : WalletPersistenceError → bool) : bool :=
  match wallet_from_bytes bytes with Err e => p e | _ => false end.

(** [save(..).unwrap()] without failures. *)
Definition saved (path : string) (iter : coins) (w : Wallet) (d : fs) (f : fs → bool) : bool :=
  match wallet_save (mk_faults None None None None) path iter w d with
  | (Ok _, states) => match last states with Some d => f d | None => false end
  | _ => false
  end.
Definition loaded (path : string) (d : fs) (f : Wallet → bool) : bool :=
  match wallet_load path d with Ok w => f w | _ => false end.

(** ** The tests *)

Definition to_bytes_then_from_bytes_round_trips (iter : coins) : bool :=
  encoded iter populated_wallet (λ bytes, decoded bytes (assert_wallets_match populated_wallet)).

Definition empty_wallet_round_trips : bool :=
  encoded [] (wallet_new Mainnet) (λ bytes,
    bool_decide (length bytes = HEADER_LEN + COUNT_LEN)%nat &&
    decoded bytes (assert_wallets_match (wallet_new Mainnet))).

Definition save_load_through_disk_round_trips (iter : coins) : bool :=
  saved "wallet.bin" iter populated_wallet ∅ (λ d,
    loaded "wallet.bin" d (assert_wallets_match populated_wallet)).

Definition save_overwrites_existing_file : bool :=
  let first := insert_coin (outpoint_n 1) (coin 50000 1 100) (wallet_new Regtest) in
  let second := insert_coin (outpoint_n 2) (coin 70000 2 200) (with_scan_height 500 (wallet_new Regtest)) in
  saved "wallet.bin" [(outpoint_n 1, coin 50000 1 100)] first ∅ (λ d,
  saved "wallet.bin" [(outpoint_n 2, coin 70000 2 200)] second d (λ d,
  loaded "wallet.bin" d (assert_wallets_match second))).

Definition save_does_not_leave_tmp_behind (iter : coins) : bool :=
  saved "wallet.bin" iter populated_wallet ∅ (λ d, negb (is_some (d !! ("wallet.bin" +:+ ".tmp")))).

Definition from_bytes_rejects_bad_magic (iter : coins) : bool :=
  encoded iter populated_wallet (λ bytes,
    rejected (splice 0 [88; 88; 88; 88] bytes) (λ e, match e with BadMagic => true | _ => false end)).

Definition from_bytes_rejects_wrong_version (iter : coins) : bool :=
  encoded iter populated_wallet (λ bytes,
    rejected (<[4%nat := 99]> bytes) (λ e, match e with WrongVersion 99 => true | _ => false end)).

Definition from_bytes_rejects_unknown_network (iter : coins) : bool :=
  encoded iter populated_wallet (λ bytes,
    rejected (<[5%nat := 99]> bytes) (λ e, match e with UnknownNetwork 99 => true | _ => false end)).

Definition from_bytes_rejects_truncated_header : bool :=
  rejected [83; 80; 87; 70; 1; 2] (λ e, match e with TruncatedFile => true | _ => false end).

Definition from_bytes_rejects_truncated_records (iter : coins) : bool :=
  encoded iter populated_wallet (λ bytes,
    rejected (take (length bytes - 10) bytes) (λ e, match e with TruncatedFile => true | _ => false end)).

Definition from_bytes_rejects_unknown_spent_flag (iter : coins) : bool :=
  encoded iter populated_wallet (λ bytes,
    rejected (<[(HEADER_LEN + COUNT_LEN + R_SPENT_FLAG)%nat := 99]> bytes)
      (λ e, match e with UnknownSpentFlag 99 => true | _ => false end)).

Definition loading_yields_no_keys (iter : coins) : bool :=
  encoded iter populated_wallet (λ bytes, decoded bytes (λ w,
    negb (is_some w.(keys)) && negb (is_some w.(spend_key)))).

Definition network_round_trips : bool :=
  forallb (λ n, encoded [] (wallet_new n) (λ bytes, decoded bytes (λ w, bool_decide (w.(network) = n))))
    [Mainnet; Testnet; Regtest].

(** An empty directory and the store of a wallet in it. *)
Definition tmp_store (n : Network) : fs * WalletStore := (∅, mk_store "wallet.bin" n).

Definition store_saved (s : WalletStore) (w : Wallet) (d : fs) (f : fs → bool) : bool :=
  match store_save (mk_faults None None None None) s [] w d with
  | (Ok _, states) => match last states with Some d => f d | None => false end
  | _ => false
  end.

Definition store_exists_is_false_before_save : bool :=
  let '(d, store) := tmp_store Regtest in negb (store_exists store d).

Definition store_save_then_exists_is_true : bool :=
  let '(d, store) := tmp_store Regtest in store_saved store (wallet_new Regtest) d (store_exists store).

Definition store_save_then_load_round_trips : bool :=
  let '(d, store) := tmp_store Regtest in
  store_saved store (wallet_new Regtest) d (λ d,
    match store_load store d with
    | Ok w => bool_decide (w.(network) = Regtest) && bool_decide (w.(scan_height) = 0)
    | _ => false
    end).

Definition store_load_returns_network_mismatch_when_file_for_other_network : bool :=
  store_saved (mk_store "wallet.bin" Regtest) (wallet_new Regtest) ∅ (λ d,
    match store_load (mk_store "wallet.bin" Mainnet) d with
    | Err (NetworkMismatch Regtest Mainnet) => true
    | _ => false
    end).

Definition store_load_propagates_persistence_error_for_bad_magic : bool :=
  let d : fs := {["wallet.bin" := [88; 88; 88; 88] ++ replicate 10 0]} in
  match store_load (mk_store "wallet.bin" Regtest) d with
  | Err (Persistence BadMagic) => true
  | _ => false
  end.

(** ** They pass *)

Lemma populated_coins :
  map_to_list populated_wallet.(utxos) ≡ₚ
  [(outpoint_n 1, coin 50000 1 100); (outpoint_n 2, spent_coin 30000 2 101 150 9)].
Proof.
  unfold populated_wallet, insert_coin, with_utxos. cbn [utxos with_scan_height wallet_new].
  rewrite map_to_list_insert by (rewrite lookup_insert_ne by done; apply lookup_empty).
  rewrite map_to_list_insert by apply lookup_empty. rewrite map_to_list_empty. apply perm_swap.
Qed.

Lemma fixed_store_tests_pass :
  forallb id [empty_wallet_round_trips; save_overwrites_existing_file; from_bytes_rejects_truncated_header;
    network_round_trips; store_exists_is_false_before_save; store_save_then_exists_is_true;
    store_save_then_load_round_trips; store_load_returns_network_mismatch_when_file_for_other_network;
    store_load_propagates_persistence_error_for_bad_magic] = true.
Proof. vm_compute. reflexivity. Qed.

Lemma store_tests_pass iter :
  iterates_coins iter populated_wallet →
  forallb (λ test, test iter) [to_bytes_then_from_bytes_round_trips; save_load_through_disk_round_trips;
    save_does_not_leave_tmp_behind; from_bytes_rejects_bad_magic; from_bytes_rejects_wrong_version;
    from_bytes_rejects_unknown_network; from_bytes_rejects_truncated_records;
    from_bytes_rejects_unknown_spent_flag; loading_yields_no_keys] = true.
Proof.
  intros Hi. apply (every_order_sound
    [(outpoint_n 1, coin 50000 1 100); (outpoint_n 2, spent_coin 30000 2 101 150 9)]
    (λ iter, forallb (λ test, test iter) _)).
  - vm_compute. reflexivity.
  - rewrite <- populated_coins. by symmetry.
Qed.
End StoreTests.
End StoreTests.

Module KeysTests.
Section KeysTests.
Context `{KeyBytesLaws}.
(** [test_keys]: any two secret keys. *)
Variables scan spend : SecretKey.

Definition xonly_from (sk : SecretKey) : XOnlyPublicKey := (x_only_public_key sk).1.

Definition roundtrip_preserves_secret_variant : Prop :=
  let original := mk_keys_file scan (Secret spend) in
  from_bytes (to_bytes original) = Ok original.

Definition roundtrip_preserves_xonly_public_variant : Prop :=
  let original := mk_keys_file scan (XOnlyPublic (xonly_from spend)) in
  from_bytes (to_bytes original) = Ok original.

Definition keys_rejects_bad_magic : Prop :=
  from_bytes ([88; 88; 88; 88] ++ secret_bytes scan ++ [SPEND_TAG_SECRET] ++ secret_bytes spend) = Err KeysBadMagic.

Definition keys_rejects_unknown_spend_tag : Prop :=
  from_bytes (MAGIC ++ secret_bytes scan ++ [99] ++ secret_bytes spend) = Err (UnknownSpendTag 99).

Definition save_load_roundtrips_through_disk : Prop :=
  let original := mk_keys_file scan (Secret spend) in
  let '(r, d) := keys_save None None original "keys.bin" ∅ in
  r = Ok () ∧ keys_load "keys.bin" d = Ok original.

Definition save_refuses_to_overwrite_existing_file : Prop :=
  let file := mk_keys_file scan (Secret spend) in
  let '(r, d) := keys_save None None file "keys.bin" ∅ in
  r = Ok () ∧ (keys_save None None file "keys.bin" d).1 = Err (KeysIo AlreadyExists).

Lemma keys_tests_pass :
  roundtrip_preserves_secret_variant ∧ roundtrip_preserves_xonly_public_variant ∧
  keys_rejects_bad_magic ∧ keys_rejects_unknown_spend_tag ∧
  save_load_roundtrips_through_disk ∧ save_refuses_to_overwrite_existing_file.
Proof.
  assert (∀ m t, length m = 4%nat → length (m ++ secret_bytes scan ++ [t] ++ secret_bytes spend) = FILE_LEN) as Hlen.
  { intros m t Hm. autorewrite with bytes. rewrite Hm, !secret_bytes_len. done. }
  split; [apply keys_roundtrip|]. split; [apply keys_roundtrip|]. split_and!.
  - unfold keys_rejects_bad_magic, from_bytes. rewrite decide_False by (rewrite Hlen by done; naive_solver). done.
  - unfold keys_rejects_unknown_spend_tag, from_bytes. rewrite decide_False by (rewrite Hlen by done; naive_solver).
    unfold strip_prefix. rewrite take_app_length, decide_True by done. rewrite drop_app_length.
    simpl_outcome. rewrite take_app_length' by (by rewrite secret_bytes_len).
    rewrite secret_roundtrip. simpl_outcome.
    by rewrite lookup_app_r, secret_bytes_len by (rewrite secret_bytes_len; unfold KEY_LEN; lia).
  - unfold save_load_roundtrips_through_disk, keys_save. rewrite lookup_empty. split; [done|].
    unfold keys_load. rewrite lookup_insert_eq. apply keys_roundtrip.
  - unfold save_refuses_to_overwrite_existing_file, keys_save. rewrite lookup_empty. split; [done|].
    by rewrite lookup_insert_eq.
Qed.
End KeysTests.
End KeysTests.
