(* ===== verification/SendTests.v ===== *)
(** * Unit tests of spending (crates/wallet/src/silentpayments/sending.rs)

    The tests of what the wallet itself decides, as functions, and that they pass
    for all keys, tweaks and recipients, given the documented contract of the coin
    selector: that the unwrapped calls of other crates succeed is a hypothesis.
    The tests of which coins the selector prefers, what change it gives and that
    signatures verify are about those crates and are left out. *)

From S2P Require Import Prelude Wallet Sending.

Section SendTests.
Context `{SpendingLaws}.
(** How inputs and outputs are shuffled. *)
Variable sin : list (OutPoint * Coin) → list (OutPoint * Coin).
Variable sout : list TxOut → list TxOut.
Hypothesis sin_perm : ∀ l, sin l ≡ₚ l.
Hypothesis sout_perm : ∀ l, sout l ≡ₚ l.

(** ** Helpers of the tests *)

(** On the key that [from_slice] gives. *)
Definition even_secret (key : SecretKey) : SecretKey :=
  if (x_only_public_key key).2 then negate key else key.

Definition owned_coin (spend_secret : SecretKey) (tweak value : Z) : outcome SecpError Coin :=
  key ← add_tweak spend_secret tweak;
  Ok (mk_coin value (new_p2tr_tweaked (x_only_public_key key).1) tweak None 1 None).

Definition OUTPOINT : OutPoint := mk_outpoint (replicate 32 171) 0.

(** [FeeRate::from_sat_per_vb]: 250 weight units of a thousand to the byte. *)
Definition sat_per_vb (n : Z) : Z := n * 250.

(** A wallet that can sign, with one coin. *)
Definition wallet_with (scan spend : SecretKey) (coin : Coin) : outcome SpError Wallet :=
  w ← import_signing_keys scan spend (wallet_new Regtest);
  Ok (with_utxos w (<[OUTPOINT := coin]> w.(utxos))).

(** [unwrap] of the wallet and of its coin. *)
Definition with_funds (scan spend : SecretKey) (tweak : Z) (f : Wallet → Coin → bool) : bool :=
  match owned_coin spend tweak 100000 with
  | Ok coin => match wallet_with scan spend coin with Ok w => f w coin | _ => false end
  | _ => false
  end.

Definition pay (w : Wallet) (coin : Coin) (recipient : Recipient) : outcome SendError Transaction :=
  build_transaction sin sout [(OUTPOINT, coin)] w recipient 50000 (sat_per_vb 2) (sat_per_vb 2).

(** ** The tests *)

Definition rejects_amount_over_balance (spend_secret : SecretKey) (tweak : Z) (change_address recipient : SpCode) : bool :=
  match owned_coin spend_secret tweak 10000 with
  | Ok coin =>
      match build_transaction_with sin sout spend_secret (SilentPayment recipient) 20000 (sat_per_vb 2)
              (sat_per_vb 10) 100 change_address [(OUTPOINT, coin)] with
      | Err (InsufficientFunds _ _) => true
      | _ => false
      end
  | _ => false
  end.

(** The part of the next two tests that follows the setup. *)
Definition reserved_is_refused (recipient : SpCode) (w : Wallet) (coin : Coin) : bool :=
  match pay w coin (SilentPayment recipient) with
  | Ok tx =>
      match pay (reserve_coins (previous_output <$> tx.(input)) w) coin (SilentPayment recipient) with
      | Err NoSpendableCoins => true
      | _ => false
      end
  | _ => false
  end.

Definition released_is_accepted (recipient : SpCode) (w : Wallet) (coin : Coin) : bool :=
  match pay w coin (SilentPayment recipient) with
  | Ok tx =>
      let outpoints := previous_output <$> tx.(input) in
      let w := reserve_coins outpoints w in
      match pay w coin (SilentPayment recipient) with Err NoSpendableCoins => true | _ => false end &&
      is_ok (pay (release_coins outpoints w) coin (SilentPayment recipient))
  | _ => false
  end.

Definition reserved_coins_are_not_reselected (scan_secret spend_secret : SecretKey) (tweak : Z) (recipient : SpCode) : bool :=
  with_funds scan_secret spend_secret tweak (reserved_is_refused recipient).

Definition released_coins_are_selectable_again (scan_secret spend_secret : SecretKey) (tweak : Z) (recipient : SpCode) : bool :=
  with_funds scan_secret spend_secret tweak (released_is_accepted recipient).

Definition rejects_empty_wallet (spend_secret : SecretKey) (change_address recipient : SpCode) : bool :=
  match build_transaction_with sin sout spend_secret (SilentPayment recipient) 1000 (sat_per_vb 2)
          (sat_per_vb 10) 100 change_address [] with
  | Err NoSpendableCoins => true
  | _ => false
  end.

(** ** They pass *)

Lemma empty_wallet_passes spend_secret change_address recipient :
  rejects_empty_wallet spend_secret change_address recipient = true.
Proof. done. Qed.

(** A selection of one candidate is it or nothing. *)
Lemma selection_of_one (sel : list nat) :
  NoDup sel → Forall (λ i, (i < 1)%nat) sel → sel = [] ∨ sel = [0%nat].
Proof.
  intros Hnd Hlt. destruct sel as [|i [|j sel]]; [by left| |].
  - right. rewrite Forall_singleton in Hlt. f_equal. lia.
  - exfalso. rewrite !Forall_cons in Hlt. destruct Hlt as (Hi & Hj & _). apply NoDup_cons in Hnd as [Hn _].
    apply Hn. replace i with j by lia. constructor.
Qed.

(** Of the other crates: the dust limit of a taproot output is not above the
    amount, and the tweak is valid. *)
Lemma over_balance_passes spend_secret tweak change_address recipient :
  p2tr_dust spend_secret ≤ 20000 → is_ok (owned_coin spend_secret tweak 10000) = true →
  rejects_amount_over_balance spend_secret tweak change_address recipient = true.
Proof.
  intros Hdust Hcoin. unfold rejects_amount_over_balance.
  destruct (owned_coin spend_secret tweak 10000) as [coin| |] eqn:Hc; try done.
  assert (value coin = 10000) as Hv by (unfold owned_coin in Hc; by apply bind_Ok in Hc as (k & _ & [= <-])).
  unfold build_transaction_with. cbn [is_nil]. rewrite decide_False by lia. unfold select_coins.
  cbn [fmap list_fmap snd]. rewrite Hv. set (t := mk_target _ _ _). set (p := mk_policy _ _ _).
  assert (∀ sel, (∃ f n, run_bnb [10000] t p f n = Some sel) ∨ select_until_target_met [10000] t = Ok sel →
    NoDup sel ∧ Forall (λ i, (i < 1)%nat) sel → False) as Hno.
  { intros sel Hsel [Hnd Hlt]. pose proof (selection_funds _ _ p _ Hsel) as Hf. cbn [target_value t] in Hf.
    assert (sumZ (omap (λ i, [10000] !! i) sel) ≤ 10000) as Hsum
      by (destruct (selection_of_one sel Hnd Hlt) as [-> | ->]; vm_compute; discriminate).
    pose proof (drain_nonneg [10000] sel t p). lia. }
  pose proof (greedy_total [10000] t) as Htot.
  destruct (run_bnb [10000] t p (cs_feerate (sat_per_vb 10)) 100000) as [sel|] eqn:Hb.
  { exfalso. apply (Hno sel); [left; eauto|exact (bnb_valid _ _ _ _ _ _ Hb)]. }
  destruct (select_until_target_met [10000] t) as [sel|missing|] eqn:Hg; [|done|done].
  exfalso. apply (Hno sel); [by right|exact (greedy_valid _ _ _ Hg)].
Qed.

Lemma pay_inputs w coin recipient tx :
  w.(utxos) = {[OUTPOINT := coin]} → pay w coin recipient = Ok tx → previous_output <$> tx.(input) = [OUTPOINT].
Proof.
  intros Hu. unfold pay, build_transaction. intros (spend & _ & (k & _ & Hb)%bind_Ok)%bind_Ok.
  assert (iterates_coins [(OUTPOINT, coin)] w) as Hit by (unfold iterates_coins; by rewrite Hu, map_to_list_singleton).
  apply build_with_spec in Hb as (selected & change & _ & _ & Hin & Hnd & Hsub & _ & Hfunds & _ & Hpos & _);
    [|done|done|by apply spendable_NoDup].
  assert (∀ p, p ∈ selected → p = (OUTPOINT, coin)) as Hone.
  { intros p [_ Hp]%Hsub%list_elem_of_filter. by apply list_elem_of_singleton in Hp. }
  rewrite Hin. destruct selected as [|p [|q selected]].
  - exfalso. unfold sumZ in Hfunds. simpl in Hfunds. lia.
  - rewrite (Hone p) by constructor. done.
  - exfalso. rewrite (Hone p), (Hone q) in Hnd by set_solver. csimpl in Hnd. apply NoDup_cons in Hnd as [Hn _]. set_solver.
Qed.

(** The wallet of the tests, before and after its coin is reserved. *)
Lemma reserved_passes w coin recipient :
  w.(utxos) = {[OUTPOINT := coin]} → is_ok (pay w coin (SilentPayment recipient)) = true →
  reserved_is_refused recipient w coin = true.
Proof.
  intros Hu Hok. unfold reserved_is_refused.
  destruct (pay w coin (SilentPayment recipient)) as [tx| |] eqn:Hp; try done.
  rewrite (pay_inputs w coin _ tx Hu Hp). revert Hp. unfold pay, build_transaction.
  intros (spend & Hs & (k & Hk & _)%bind_Ok)%bind_Ok. cbn [spend_secret keys reserve_coins with_reserved].
  rewrite Hs, Hk. simpl_outcome. unfold spendable. rewrite filter_cons_False; [done|].
  simpl. set_solver.
Qed.


Lemma released_passes w coin recipient :
  w.(utxos) = {[OUTPOINT := coin]} → w.(reserved) = ∅ → is_ok (pay w coin (SilentPayment recipient)) = true →
  released_is_accepted recipient w coin = true.
Proof.
  intros Hu Hr Hok. pose proof (reserved_passes w coin recipient Hu Hok) as Hres.
  unfold released_is_accepted, reserved_is_refused in *.
  destruct (pay w coin (SilentPayment recipient)) as [tx| |] eqn:Hp; try done. cbv zeta. rewrite Hres. cbn [andb].
  assert (release_coins (previous_output <$> tx.(input)) (reserve_coins (previous_output <$> tx.(input)) w) = w) as ->.
  { rewrite (pay_inputs w coin _ tx Hu Hp). destruct w. unfold release_coins, reserve_coins, with_reserved. simpl in *.
    f_equal. subst. set_solver. }
  by rewrite Hp.
Qed.

(** Both, when the keys and the tweak are valid and the first payment succeeds. *)
Lemma reservation_tests_pass scan spend tweak recipient :
  with_funds scan spend tweak (λ w coin, is_ok (pay w coin (SilentPayment recipient))) = true →
  reserved_coins_are_not_reselected scan spend tweak recipient = true ∧
  released_coins_are_selectable_again scan spend tweak recipient = true.
Proof.
  unfold reserved_coins_are_not_reselected, released_coins_are_selectable_again, with_funds.
  destruct (owned_coin spend tweak 100000) as [coin| |]; [|done|done].
  destruct (wallet_with scan spend coin) as [w| |] eqn:Hw; [|done|done]. intros Hok.
  assert (w.(utxos) = {[OUTPOINT := coin]} ∧ w.(reserved) = ∅) as [Hu Hr].
  { unfold wallet_with, import_signing_keys, import_keys in Hw. destruct (x_only_public_key spend) as [x odd].
    apply bind_Ok in Hw as (w1 & (w2 & (rcv & _ & [= <-])%bind_Ok & [= <-])%bind_Ok & [= <-]). done. }
  split; [by apply reserved_passes|by apply released_passes].
Qed.
End SendTests.
