(* ===== verification/OnionTests.v ===== *)
(** * The unit test of onion names (src/net/socks5.rs)

    The name of a known key, with SHA3-256 as FIPS 202 defines it in the place of
    the crate's. *)

From S2P Require Import Prelude Text Addr Socks5 Display.

(** ** SHA3-256 *)

Module Sha3.

(** Lanes of 64 bits; the lane at [x] and [y] is number [x + 5 * y]. *)
Definition lane (a : list Z) (x y : nat) : Z := default 0 (a !! (x mod 5 + 5 * (y mod 5))%nat).
Definition rotl (w n : Z) : Z := Z.lor (wrap_u 64 (Z.shiftl w n)) (Z.shiftr w (64 - n)).
Definition build (f : nat → nat → Z) : list Z := (λ i, f (i mod 5) (i / 5))%nat <$> seq 0 25.

Definition RHO : list Z :=
  [0; 1; 62; 28; 27; 36; 44; 6; 55; 20; 3; 10; 43; 25; 39; 41; 45; 15; 21; 8; 18; 2; 61; 56; 14].
Definition ROUND_CONSTANTS : list Z :=
  [0x0000000000000001; 0x0000000000008082; 0x800000000000808A; 0x8000000080008000; 0x000000000000808B;
   0x0000000080000001; 0x8000000080008081; 0x8000000000008009; 0x000000000000008A; 0x0000000000000088;
   0x0000000080008009; 0x000000008000000A; 0x000000008000808B; 0x800000000000008B; 0x8000000000008089;
   0x8000000000008003; 0x8000000000008002; 0x8000000000000080; 0x000000000000800A; 0x800000008000000A;
   0x8000000080008081; 0x8000000000008080; 0x0000000080000001; 0x8000000080008008].

Definition theta (a : list Z) : list Z :=
  let c := (λ x, foldl Z.lxor 0 (lane a x <$> seq 0 5)) <$> seq 0 5 in
  let col x := default 0 (c !! (x mod 5)%nat) in
  build (λ x y, Z.lxor (lane a x y) (Z.lxor (col (x + 4)%nat) (rotl (col (x + 1)%nat) 1))).
Definition rho_pi (a : list Z) : list Z :=
  build (λ x y, rotl (lane a (x + 3 * y) x) (lane RHO (x + 3 * y) x)).
Definition chi (a : list Z) : list Z :=
  build (λ x y, Z.lxor (lane a x y) (Z.ldiff (lane a (x + 2) y) (lane a (x + 1) y))).
Definition iota (rc : Z) (a : list Z) : list Z :=
  match a with w :: a => Z.lxor w rc :: a | [] => [] end.
Definition keccak_f (a : list Z) : list Z :=
  foldl (λ a rc, iota rc (chi (rho_pi (theta a)))) a ROUND_CONSTANTS.

(** Blocks of 136 bytes, 17 lanes. *)
Definition RATE : nat := 136.
Definition pad (m : list Z) : list Z :=
  let q := (RATE - length m mod RATE)%nat in
  if decide (q = 1)%nat then m ++ [134] else m ++ [6] ++ replicate (q - 2) 0 ++ [128].
Definition absorb (a block : list Z) : list Z :=
  keccak_f (zip_with Z.lxor a
    (((λ i, from_le_bytes (slice (8 * i) 8 block)) <$> seq 0 17) ++ replicate 8 0)).
Definition sha3_256 (m : list Z) : list Z :=
  let m := pad m in
  let a := foldl (λ a i, absorb a (slice (RATE * i) RATE m)) (replicate 25 0) (seq 0 (length m / RATE)) in
  take 32 (a ≫= to_le_bytes 8).

(** The published digests of the empty message and of [abc]. *)
Lemma sha3_empty : from_le_bytes (reverse (sha3_256 [])) =
  0xa7ffc6f8bf1ed76651c14756a061d662f580ff4de43b49fa82d80a4b80f8434a.
Proof. vm_compute. reflexivity. Qed.
Lemma sha3_abc : from_le_bytes (reverse (sha3_256 (lit "abc"))) =
  0x3a985da74fe225b2045c172d6bd390bd855f086e3e9d525b46bfe24511431532.
Proof. vm_compute. reflexivity. Qed.
End Sha3.

(** ** The test *)

(** [from_hex]. *)
Definition hsid : list Z :=
  reverse (to_le_bytes 32 0xd75a980182b10ab7d54bfed3c964073a0ee172f3daa62325af021a68f707511a).

Definition public_key_to_service : bool :=
  match pubkey_to_service Sha3.sha3_256 hsid with
  | Ok service => bool_decide (service = lit "25njqamcweflpvkl73j4szahhihoc4xt3ktcgjnpaingr5yhkenl5sid.onion")
  | _ => false
  end.

Lemma onion_test_passes : public_key_to_service = true.
Proof. vm_compute. reflexivity. Qed.

(** A destination with that key is displayed by its name. *)
Lemma onion_destination :
  show_destination Sha3.sha3_256 (TorV3 hsid) 8333 =
  Ok (lit "25njqamcweflpvkl73j4szahhihoc4xt3ktcgjnpaingr5yhkenl5sid.onion:8333").
Proof. vm_compute. reflexivity. Qed.
